(* ===== verification/_CoqProject ===== *)
-Q . S2P
Prelude.v
Types.v
Encoding.v
EncodingFacts.v
DecodeFacts.v
Codec.v
Channel.v
Version.v
Path.v
Transport.v
Readdir.v
ServeConn.v
FileSys.v
SFileSys.v
SessionSpec.v
Session.v
SleepFS.v
Ufs.v
UfsPath.v
RamFS.v
RamInv.v
Typing.v
RamTyped.v
SleepTyped.v
SSession.v
Concurrent.v
RaceFree.v
Server.v
CSession.v
CFileSys.v
RamServe.v
Shared.v
Commander.v
Mount.v
Commands.v
Network.v
Wire.v
Late.v
Typed.v
System.v
Connect.v
Logging.v
Startup.v
