(* ===== verification/Prelude.v ===== *)
(** * Verification of go-p9p

    go-p9p implements the 9P2000 file protocol in Go, client and server.  This
    library models its packages and proves what makes them correct.

    ** The program

    A message ([Fcall]) is encoded by a reflective codec (encoding.go) and
    framed by a channel over a connection (channel.go), after the two ends have
    agreed on version and message size (version.go).  On the client, a
    transport (transport.go) gives each request a tag and returns the response
    with that tag to its caller; csession.go turns calls into requests.  On the
    server, the loop of serveconn.go runs a handler per request; ssesssion.go
    turns requests into calls of a session; the session of sfilesys.go keeps
    the fids of a connection and calls a file system through the interfaces of
    filesys.go; readdir.go makes directory reads of lists of entries; path.go
    validates and composes paths.  sleepfs (made-up entries), ramfs (a tree in
    memory) and ufs (a directory of the host) are file systems.  cfilesys.go
    makes a file system of a client's session, and the command 9pr drives it
    from lines a user types.  logging.go wraps a session.  The command 9ps
    serves one of the file systems to any number of connections.

    ** The files

    - Prelude: outcomes of Go code ([result]: a value, an error, a panic, or
      blocking for ever), machine integers, bytes, lists, and the hint
      database [p9p].
    - Types: types.go, fcall.go, messages.go, errors.go, overflow.go.
    - Encoding: encoding.go.  A value passed as interface{} is an [any].
      EncodingFacts has the wire format as a reference ([wire]) and the proofs
      for the encoder and the decoder on encodings, DecodeFacts those for the
      decoder on arbitrary bytes; Codec has the class [CodecLaws] that the
      clients of the codec use, and the theorems.
    - Channel: channel.go, on byte streams, over any codec with these laws.
    - Version: version.go.
    - Path: path.go and the functions of packages strings and path it uses;
      the specification is on lists of path components.
    - Transport: transport.go.  Callers, handle loop and reader share a state;
      each atomic action is a function, [step] is the relation of their
      interleavings, [tag_step] the specification.
    - Readdir: readdir.go, over any source of entries ([NextLaws]).
    - ServeConn: serveconn.go, in the same style as Transport; [serve_step] is
      the specification.
    - FileSys: the interfaces of filesys.go, as a class over the state of the
      file server.
    - SFileSys: sfilesys.go, in a state and error monad over the map of fids,
      the SFids with their mutexes, and the file server.  SessionSpec has the
      table of fids that specifies it, and the refinement proofs.
    - Session: the interface of session.go, with SFileSys and its
      specification as instances.
    - SleepFS: package sleepfs, an instance of FileSys.
    - Ufs: package ufs, over a record of the host's operations ([Host]).
      UfsPath proves that it stays in its directory.
    - RamFS: package ramfs, nodes in a store with their reference counts, an
      instance of FileSys ([ramServer]).  RamInv has the invariant of the
      counts ([Inv]) with a triple per operation, RamServe the theorems on the
      server over it, for a session that shares ramfs with others ([others]
      is what they hold); Shared has the connections of one server process on
      one file system, and their end.
    - SSession: ssesssion.go, and the theorems on the server's session.
    - Concurrent: the operations of sfilesys.go again, as programs over atomic
      actions, and the interleavings of the requests that run on one session;
      a program run alone is that of SFileSys.  RaceFree has the mutex
      protocol each program follows and what follows from it.
    - Server: the loop of ServeConn with the goroutines of Concurrent, each
      request's goroutine running the program of its message.
    - CSession: csession.go, over any round tripper; a client of a server of
      this package is the case [through].
    - CFileSys: cfilesys.go, over any session.  Mount puts it over the
      specification of the server's session (so, by the theorems on
      the session, over the server itself) and relates the entries of the
      client with those of the server ([mounted]).
    - Commander: the commands of cmd/9pr/main.go on that file system; Commands
      has their theorems ([at_dir] ties the prompt to the server's entry).
    - Network: the client's transport and the server's loop at the two ends of
      a connection, which carries bytes in pieces of any size and may break.
      Wire runs one call of the client's session over a network at rest, as a
      round tripper of CSession, on one schedule of its steps.  Late has what
      a read that times out inside a frame does to a client.  System is Network with Server as its
      server: all of it, from a caller to the file server.  Connect has
      CSession, and the way from a raw connection to a state of System.
    - Typing: what it is for a file server to give results that fit the
      protocol ([TypedFS]).  RamTyped proves it of ramfs, for texts of at most
      16000 bytes, SleepTyped of sleepfs, both whatever the clock; Typed gives
      messages and the programs of Concurrent types that rest on it.
    - Logging: logging.go, over any session, itself a session.
    - Startup: what the mains of 9ps and 9pr decide: the network and address,
      the file system of a root, whether a connection is logged.

    ** What the theorems show

    - Codec: the encoder writes the wire format, the decoder inverts it, and
      on any bytes it returns (never panics) and accepts only encodings.
    - Channel and Version: frames round-trip, none exceeds msize, a frame that
      is too large is skipped whole; negotiation agrees.
    - Transport and ServeConn: the tag discipline holds in every interleaving;
      on the server with the exception, proved too, of responses that race
      with a flush.
    - Session: the fid machinery refines a lock-free table; a client sees the
      server's session.  When requests overlap, SFids are touched only by the
      holder of their mutex, nothing panics, and every request is answered,
      with two exceptions that are named.
    - Readdir and Path: functional specifications.
    - RamFS: in a session at rest each count is the number of links from live
      directories plus that of the fids that hold the node, every request is
      answered, and a node is counted exactly when it can be reached; writes
      are read back.
    - Ufs: no path the host sees lies outside the base directory.
    - CFileSys and 9pr: mounting is transparent for walks, for the other
      methods of entries, and for listings; cd keeps prompt and entry
      together.
    - Server, Network, System: whatever interleaves, as long as no read times
      out inside a frame and requests and answers fit the protocol, a call
      gets the answer that the handler's goroutine computed for that very
      request, as the wire carries it, of the type the request asks for;
      accepted requests are answered; the panics of either side cannot happen
      between the two; and a connection that negotiates is a starting state
      of this.  Wire: a call over the wire is the call of the handler.  Late:
      without the first condition bytes of a file can be taken for a message
      of the server.
    - Shared: with many connections on one ramfs every call ends, the counts
      are those of all connections, and none leaks when a connection ends.
    - Logging and Startup: the server behaves as without the debug flag.
    - Some theorems show defects: panics on malformed frames, a lock left
      held, deadlocks, shared arrays.  Their comments say so.

    ** Bounds and fuel

    The codec's functions recurse on a depth that starts at [codec_depth] = 8;
    the values that its switches list need at most 7 ([rank]), and the theorems
    show that the bound is never met.  [decode_dirs] has one unit of fuel per
    byte and an entry takes two at least; [Read] of a directory has one per
    byte of the buffer; both are proved to be enough.  The loop of allocateTag
    is written with its 65535 iterations.  The recursion of ramfs' decref has
    the distance of the node's address from the next free one: entries are
    younger than their directory, so it is never used up (part of the
    invariant).  The loops of ls and write take fuel as an argument; the
    theorem on listings says how much is enough.  Integers are [Z] with the
    wrap-around of their Go width written out.

    ** What is not modelled

    Debug printing and the text of log lines; the time a sleepfs file sleeps.
    There is no clock: the deadline of a read may pass at any moment (a step
    of Transport, ServeConn and Network), that of a write shows as a write
    that fails.  A deadline that passes between frames only makes the reader
    try again.  In Network a write fails between frames, not inside one.
    Times cross the wire in seconds, 32 bits of them; [carry] is what is left
    of a message.  A call of the file server is one atomic action even when
    requests overlap (for ramfs, whose Walk, Stat and WStat take no mutex,
    that is an assumption), and a context does not change during a call.  The
    host's file system is a parameter of Ufs, the order of Go's map iteration
    one of RamFS, the current time a part of the file server's state.
    Reference counts are unbounded integers.  In Shared the calls of
    different connections run one after the other, and Stop runs when no call
    of its connection does.  The flags, listening and dialling, profiling and
    the terminal of the commands 9pr and 9ps are input and output.  ReaddirAll
    and the transport's flush panic in the source; dropEnt of ramfs has no
    caller. *)
From stdpp Require Export base list gmap strings pretty.
From Stdlib Require Export ZArith Lia.
From Stdlib Require Export Strings.Byte.
From Stdlib Require Strings.String.

#[global] Open Scope Z_scope.

(** ** Outcomes of Go code

    A call returns a value, returns an error, panics at run time (slice
    bounds, nil dereference, explicit [panic]) or blocks for ever. *)

Inductive result (E A : Type) : Type :=
| Ok (a : A)
| Err (e : E)
| Panic (why : string)
| Hang (why : string).
Arguments Ok {E A} _.
Arguments Err {E A} _.
Arguments Panic {E A} _.
Arguments Hang {E A} _.

#[export] Instance result_ret E : MRet (result E) := fun A => Ok.
#[export] Instance result_bind E : MBind (result E) := fun A B f r =>
  match r with
  | Ok a => f a
  | Err e => Err e
  | Panic w => Panic w
  | Hang w => Hang w
  end.
#[export] Instance result_fmap E : FMap (result E) := fun A B f r =>
  match r with
  | Ok a => Ok (f a)
  | Err e => Err e
  | Panic w => Panic w
  | Hang w => Hang w
  end.

(** [returns r]: the call came back to its caller, with a value or an error. *)
Definition returns {E A} (r : result E A) : Prop :=
  match r with Ok _ | Err _ => True | Panic _ | Hang _ => False end.

#[export] Instance returns_dec {E A} (r : result E A) : Decision (returns r).
Proof. destruct r; cbn; apply _. Defined.

#[export] Instance result_eq_dec {E A} `{EqDecision E, EqDecision A} :
  EqDecision (result E A).
Proof. solve_decision. Defined.

Lemma bind_Ok_inv {E A B} (r : result E A) (f : A → result E B) b :
  (r ≫= f) = Ok b → ∃ a, r = Ok a ∧ f a = Ok b.
Proof. destruct r; simpl; intros; simplify_eq; eauto. Qed.

Lemma returns_bind {E A B} (r : result E A) (f : A → result E B) :
  returns r → (∀ a, r = Ok a → returns (f a)) → returns (r ≫= f).
Proof. destruct r; simpl; naive_solver. Qed.

(** [bind_inv H] splits a successful monadic computation into its steps. *)
Ltac bind_inv H :=
  let a := fresh "a" in let Ha := fresh "Ha" in
  apply bind_Ok_inv in H as (a & Ha & H).

(** ** Machine integers: a w-bit value is a [Z], conversions wrap. *)

Definition u8 (z : Z) : Z := z mod 2 ^ 8.
Definition u16 (z : Z) : Z := z mod 2 ^ 16.
Definition u32 (z : Z) : Z := z mod 2 ^ 32.
Definition u64 (z : Z) : Z := z mod 2 ^ 64.
Definition int64 (z : Z) : Z := (z + 2 ^ 63) mod 2 ^ 64 - 2 ^ 63.

Definition in_width (w : Z) (z : Z) : Prop := 0 ≤ z < 2 ^ w.
#[export] Instance in_width_dec w z : Decision (in_width w z).
Proof. unfold in_width. apply _. Defined.

Lemma u16_small z : 0 ≤ z < 65536 → u16 z = z.
Proof. intros. apply Z.mod_small. lia. Qed.
Lemma u32_small z : 0 ≤ z < 4294967296 → u32 z = z.
Proof. intros. apply Z.mod_small. lia. Qed.
Lemma u16_range z : 0 ≤ u16 z < 65536.
Proof. apply Z.mod_pos_bound. lia. Qed.
Lemma u32_range z : 0 ≤ u32 z < 4294967296.
Proof. apply Z.mod_pos_bound. lia. Qed.
Lemma u32_add a b : u32 (u32 a + u32 b) = u32 (a + b).
Proof. unfold u32. by rewrite <-Zplus_mod. Qed.
Lemma u32_add_l a b : u32 (u32 a + b) = u32 (a + b).
Proof. unfold u32. by rewrite Zplus_mod_idemp_l. Qed.
Lemma u32_add_r a b : u32 (a + u32 b) = u32 (a + b).
Proof. unfold u32. by rewrite Zplus_mod_idemp_r. Qed.

Lemma int64_small z : 0 ≤ z < 2 ^ 63 → int64 z = z.
Proof. intros. unfold int64. rewrite Z.mod_small; lia. Qed.

(** [len l]: Go's [len], as an integer. *)
Definition len {A} (l : list A) : Z := Z.of_nat (length l).
Definition slen (s : string) : Z := Z.of_nat (String.length s).

Lemma len_nil {A} : len (@nil A) = 0.
Proof. reflexivity. Qed.
Lemma len_cons {A} (x : A) l : len (x :: l) = 1 + len l.
Proof. unfold len. simpl. lia. Qed.
Lemma len_app {A} (l k : list A) : len (l ++ k) = len l + len k.
Proof. unfold len. rewrite length_app. lia. Qed.
Lemma len_nonneg {A} (l : list A) : 0 ≤ len l.
Proof. unfold len. lia. Qed.
Lemma slen_nonneg s : 0 ≤ slen s.
Proof. unfold slen. lia. Qed.

Create HintDb p9p.
Create Rewrite HintDb p9p.
#[export] Hint Resolve len_nonneg slen_nonneg u16_range u32_range : p9p.
#[export] Hint Rewrite @len_nil @len_cons @len_app : p9p.

(** ** Bytes, little-endian integers and Go strings *)

Abbreviation bytes := (list byte).

Definition byte_of_Z (z : Z) : byte :=
  match Byte.of_N (Z.to_N (z mod 256)) with Some b => b | None => x00 end.
Definition byte_to_Z (b : byte) : Z := Z.of_N (Byte.to_N b).

Lemma byte_to_Z_range b : 0 ≤ byte_to_Z b < 256.
Proof.
  unfold byte_to_Z. pose proof (Byte.to_N_bounded b). lia.
Qed.

Lemma byte_to_of_Z z : byte_to_Z (byte_of_Z z) = z mod 256.
Proof.
  unfold byte_to_Z, byte_of_Z.
  pose proof (Z.mod_pos_bound z 256 ltac:(lia)).
  destruct (Byte.of_N (Z.to_N (z mod 256))) as [b|] eqn:E.
  - apply Byte.to_of_N in E. rewrite E. lia.
  - apply Byte.of_N_None_iff in E. lia.
Qed.

Lemma byte_of_to_Z b : byte_of_Z (byte_to_Z b) = b.
Proof.
  unfold byte_of_Z, byte_to_Z. pose proof (Byte.to_N_bounded b).
  rewrite Z.mod_small by lia. rewrite N2Z.id. by rewrite Byte.of_to_N.
Qed.

#[export] Instance byte_eq_dec : EqDecision byte := Byte.byte_eq_dec.

(** [le_put n z]: the [n] low bytes of [z], least significant first. *)
Fixpoint le_put (n : nat) (z : Z) : bytes :=
  match n with
  | O => []
  | S n => byte_of_Z z :: le_put n (z / 256)
  end.

Fixpoint le_get (bs : bytes) : Z :=
  match bs with
  | [] => 0
  | b :: bs => byte_to_Z b + 256 * le_get bs
  end.

Lemma length_le_put n z : length (le_put n z) = n.
Proof. revert z. induction n; simpl; auto. Qed.

Lemma len_le_put n z : len (le_put n z) = Z.of_nat n.
Proof. unfold len. by rewrite length_le_put. Qed.
#[export] Hint Rewrite len_le_put : p9p.

Lemma le_get_range bs : 0 ≤ le_get bs < 256 ^ len bs.
Proof.
  induction bs as [|b bs IH]; [by compute|].
  pose proof (byte_to_Z_range b). rewrite len_cons.
  rewrite Z.pow_add_r by (auto with p9p; lia). cbn [le_get]. nia.
Qed.

Lemma le_get_put n z : le_get (le_put n z) = z mod 256 ^ Z.of_nat n.
Proof.
  revert z. induction n as [|n IH]; intros z; [by rewrite Z.mod_1_r|].
  cbn [le_put le_get]. rewrite IH, byte_to_of_Z.
  rewrite Nat2Z.inj_succ, Z.pow_succ_r by lia.
  rewrite Z.rem_mul_r by lia. lia.
Qed.

Lemma le_get_put_id n z :
  0 ≤ z < 256 ^ Z.of_nat n → le_get (le_put n z) = z.
Proof. intros. rewrite le_get_put. by apply Z.mod_small. Qed.

Lemma le_put_get bs : le_put (length bs) (le_get bs) = bs.
Proof.
  induction bs as [|b bs IH]; [done|].
  pose proof (byte_to_Z_range b). cbn [length le_get le_put]. f_equal.
  - rewrite <-(byte_of_to_Z b) at 2. unfold byte_of_Z. do 2 f_equal.
    rewrite (Z.mul_comm 256), Z.mod_add by lia. reflexivity.
  - rewrite (Z.mul_comm 256), Z.div_add by lia.
    rewrite Z.div_small by lia. apply IH.
Qed.

Lemma le_put_mod n z : le_put n (z mod 256 ^ Z.of_nat n) = le_put n z.
Proof.
  rewrite <-le_get_put. rewrite <-(length_le_put n z) at 1. apply le_put_get.
Qed.

(** A Go string is a sequence of bytes; the two conversions [[]byte(s)] and
    [string(b)]. *)
Definition bytes_of_string (s : string) : bytes := Stdlib.Strings.String.list_byte_of_string s.
Definition string_of_bytes (b : bytes) : string := Stdlib.Strings.String.string_of_list_byte b.

Lemma string_of_bytes_of_string s : string_of_bytes (bytes_of_string s) = s.
Proof. apply Stdlib.Strings.String.string_of_list_byte_of_string. Qed.

Lemma bytes_of_string_of_bytes b : bytes_of_string (string_of_bytes b) = b.
Proof. apply Stdlib.Strings.String.list_byte_of_string_of_list_byte. Qed.

Lemma len_bytes_of_string s : len (bytes_of_string s) = slen s.
Proof.
  unfold bytes_of_string, Stdlib.Strings.String.list_byte_of_string, len, slen. f_equal.
  rewrite length_map. induction s; simpl; auto.
Qed.
#[export] Hint Rewrite len_bytes_of_string : p9p.

Lemma slen_string_of_bytes b : slen (string_of_bytes b) = len b.
Proof.
  rewrite <-len_bytes_of_string. unfold bytes_of_string, string_of_bytes.
  by rewrite Stdlib.Strings.String.list_byte_of_string_of_list_byte.
Qed.

Ltac len_simpl := autorewrite with p9p in *.

(** ** Lists *)

Lemma take_len_app {A} (l k : list A) n : n = length l → take n (l ++ k) = l.
Proof. intros ->. apply take_app_length. Qed.
Lemma drop_len_app {A} (l k : list A) n : n = length l → drop n (l ++ k) = k.
Proof. intros ->. apply drop_app_length. Qed.

Lemma pair_fst {A B} (p : A * B) a : p.1 = a → p = (a, p.2).
Proof. destruct p. by intros <-. Qed.
