(* ===== verification/Types.v ===== *)
(** * Types: the data of the protocol

    [types.go], [fcall.go], [messages.go], [errors.go] and [overflow.go]: the
    constants, the [Qid] and [Dir] structs, the message structs with their
    [Type] methods, [Fcall] and the error values.

    Named integer types ([FcallType], [Tag], [QType], [Fid], [Flag]) are [Z]
    at their Go width.  A [time.Time] is kept as the seconds [Unix()] returns
    and the nanoseconds within the second. *)
From S2P Require Import Prelude.

(** ** types.go *)

Definition DefaultMSize : Z := Z.shiftl 64 10.
Definition DefaultVersion : string := "9P2000".

Definition DMDIR : Z := 0x80000000.
Definition DMAPPEND : Z := 0x40000000.
Definition DMEXCL : Z := 0x20000000.
Definition DMSYMLINK : Z := 0x02000000.
Definition DMDEVICE : Z := 0x00800000.
Definition DMNAMEDPIPE : Z := 0x00200000.

Definition OREAD : Z := 0x00.
Definition OWRITE : Z := 0x01.
Definition ORDWR : Z := 0x02.
Definition OEXEC : Z := 0x03.
Definition OTRUNC : Z := 0x10.
Definition ORCLOSE : Z := 0x40.

Definition QTDIR : Z := 0x80.
Definition QTAPPEND : Z := 0x40.
Definition QTEXCL : Z := 0x20.
Definition QTMOUNT : Z := 0x10.
Definition QTAUTH : Z := 0x08.
Definition QTTMP : Z := 0x04.
Definition QTFILE : Z := 0x00.

Definition QType_String (qt : Z) : string :=
  if decide (qt = QTDIR) then "dir"
  else if decide (qt = QTAPPEND) then "append"
  else if decide (qt = QTEXCL) then "excl"
  else if decide (qt = QTMOUNT) then "mount"
  else if decide (qt = QTAUTH) then "auth"
  else if decide (qt = QTTMP) then "tmp"
  else if decide (qt = QTFILE) then "file"
  else "unknown".

(** [^Tag(0)] and [^Fid(0)]. *)
Definition NOTAG : Z := 0xFFFF.
Definition NOFID : Z := 0xFFFFFFFF.

Record Time := mkTime { t_unix : Z; t_nsec : Z }.

Record Qid := mkQid { Qid_Type : Z; Qid_Version : Z; Qid_Path : Z }.

Record Dir := mkDir {
  Dir_Type : Z;
  Dir_Dev : Z;
  Dir_Qid : Qid;
  Dir_Mode : Z;
  Dir_AccessTime : Time;
  Dir_ModTime : Time;
  Dir_Length : Z;
  Dir_Name : string;
  Dir_UID : string;
  Dir_GID : string;
  Dir_MUID : string
}.

(** The zero values Go gives to a declared variable.  The zero [time.Time]
    is 1 January of year 1, whose [Unix()] is -62135596800. *)
Definition zeroTime : Time := mkTime (-62135596800) 0.
Definition zeroQid : Qid := mkQid 0 0 0.
Definition zeroDir : Dir := mkDir 0 0 zeroQid 0 zeroTime zeroTime 0 "" "" "" "".

#[export] Instance Time_eq_dec : EqDecision Time.
Proof. solve_decision. Defined.
#[export] Instance Qid_eq_dec : EqDecision Qid.
Proof. solve_decision. Defined.
#[export] Instance Dir_eq_dec : EqDecision Dir.
Proof. solve_decision. Defined.

(** ** fcall.go: message types *)

Definition Tversion : Z := 100.
Definition Rversion : Z := 101.
Definition Tauth : Z := 102.
Definition Rauth : Z := 103.
Definition Tattach : Z := 104.
Definition Rattach : Z := 105.
Definition Terror : Z := 106.
Definition Rerror : Z := 107.
Definition Tflush : Z := 108.
Definition Rflush : Z := 109.
Definition Twalk : Z := 110.
Definition Rwalk : Z := 111.
Definition Topen : Z := 112.
Definition Ropen : Z := 113.
Definition Tcreate : Z := 114.
Definition Rcreate : Z := 115.
Definition Tread : Z := 116.
Definition Rread : Z := 117.
Definition Twrite : Z := 118.
Definition Rwrite : Z := 119.
Definition Tclunk : Z := 120.
Definition Rclunk : Z := 121.
Definition Tremove : Z := 122.
Definition Rremove : Z := 123.
Definition Tstat : Z := 124.
Definition Rstat : Z := 125.
Definition Twstat : Z := 126.
Definition Rwstat : Z := 127.

Definition FcallType_String (fct : Z) : string :=
  match fct with
  | 100 => "Tversion" | 101 => "Rversion"
  | 102 => "Tauth" | 103 => "Rauth"
  | 104 => "Tattach" | 105 => "Rattach"
  | 106 => "Terror" | 107 => "Rerror"
  | 108 => "Tflush" | 109 => "Rflush"
  | 110 => "Twalk" | 111 => "Rwalk"
  | 112 => "Topen" | 113 => "Ropen"
  | 114 => "Tcreate" | 115 => "Rcreate"
  | 116 => "Tread" | 117 => "Rread"
  | 118 => "Twrite" | 119 => "Rwrite"
  | 120 => "Tclunk" | 121 => "Rclunk"
  | 122 => "Tremove" | 123 => "Rremove"
  | 124 => "Tstat" | 125 => "Rstat"
  | 126 => "Twstat" | 127 => "Rwstat"
  | _ => "Tunknown"
  end.

(** ** messages.go: the message bodies *)

Inductive Message :=
| MessageTversion (MSize : Z) (Version : string)
| MessageRversion (MSize : Z) (Version : string)
| MessageTauth (Afid : Z) (Uname Aname : string)
| MessageRauth (Q : Qid)
| MessageTflush (Oldtag : Z)
| MessageRflush
| MessageTattach (Fid Afid : Z) (Uname Aname : string)
| MessageRattach (Q : Qid)
| MessageTwalk (Fid Newfid : Z) (Wnames : list string)
| MessageRwalk (Qids : list Qid)
| MessageTopen (Fid Mode : Z)
| MessageRopen (Q : Qid) (IOUnit : Z)
| MessageTcreate (Fid : Z) (Name : string) (Perm Mode : Z)
| MessageRcreate (Q : Qid) (IOUnit : Z)
| MessageTread (Fid Offset Count : Z)
| MessageRread (Data : bytes)
| MessageTwrite (Fid Offset : Z) (Data : bytes)
| MessageRwrite (Count : Z)
| MessageTclunk (Fid : Z)
| MessageRclunk
| MessageTremove (Fid : Z)
| MessageRremove
| MessageTstat (Fid : Z)
| MessageRstat (Stat : Dir)
| MessageTwstat (Fid : Z) (Stat : Dir)
| MessageRwstat
| MessageRerror (Ename : string).

#[export] Instance Message_eq_dec : EqDecision Message.
Proof. solve_decision. Defined.

(** The [Type] methods. *)
Definition Type_ (m : Message) : Z :=
  match m with
  | MessageTversion _ _ => Tversion
  | MessageRversion _ _ => Rversion
  | MessageTauth _ _ _ => Tauth
  | MessageRauth _ => Rauth
  | MessageTflush _ => Tflush
  | MessageRflush => Rflush
  | MessageTattach _ _ _ _ => Tattach
  | MessageRattach _ => Rattach
  | MessageTwalk _ _ _ => Twalk
  | MessageRwalk _ => Rwalk
  | MessageTopen _ _ => Topen
  | MessageRopen _ _ => Ropen
  | MessageTcreate _ _ _ _ => Tcreate
  | MessageRcreate _ _ => Rcreate
  | MessageTread _ _ _ => Tread
  | MessageRread _ => Rread
  | MessageTwrite _ _ _ => Twrite
  | MessageRwrite _ => Rwrite
  | MessageTclunk _ => Tclunk
  | MessageRclunk => Rclunk
  | MessageTremove _ => Tremove
  | MessageRremove => Rremove
  | MessageTstat _ => Tstat
  | MessageRstat _ => Rstat
  | MessageTwstat _ _ => Twstat
  | MessageRwstat => Rwstat
  | MessageRerror _ => Rerror
  end.

(** ** Errors: errors.go, overflow.go and the errors of the libraries used *)

Inductive error :=
| E9p (Ename : string)                  (* MessageRerror as an error value *)
| EOF                                   (* io.EOF *)
| ErrUnexpectedEOF                      (* io.ErrUnexpectedEOF *)
| ErrShortWrite                         (* io.ErrShortWrite *)
| ErrClosed                             (* errors.New("closed") *)
| Canceled                              (* context.Canceled *)
| DeadlineExceeded                      (* context.DeadlineExceeded *)
| overflowErr (size : Z)
| errorString (s : string)              (* errors.New, fmt.Errorf *)
| Warning (s : string)                  (* Warning of cfilesys.go *)
| netError (s : string) (timeout temporary : bool)
| causal (s : string) (cause : error).  (* an error with a Cause() method *)

#[export] Instance error_eq_dec : EqDecision error.
Proof. solve_decision. Defined.

Definition new9pError (s : string) : error := E9p s.

Definition ErrBadoffset : error := new9pError "bad offset".
Definition ErrDupfid : error := new9pError "duplicate fid".
Definition ErrDuptag : error := new9pError "duplicate tag".
Definition ErrCreatenondir : error := new9pError "create in non-directory".
Definition ErrNocreate : error := new9pError "create prohibited".
Definition ErrNoremove : error := new9pError "remove prohibited".
Definition ErrNotfound : error := new9pError "file not found".
Definition ErrNoread : error := new9pError "read prohibited".
Definition ErrNowrite : error := new9pError "write prohibited".
Definition ErrNowstat : error := new9pError "wstat prohibited".
Definition ErrPerm : error := new9pError "permission denied".
Definition ErrUnknownfid : error := new9pError "unknown fid".
Definition ErrUnknownTag : error := new9pError "unknown tag".
Definition ErrUnknownMsg : error := new9pError "unknown message".
Definition ErrUnexpectedMsg : error := new9pError "unexpected message".
Definition ErrWalkLimit : error := new9pError "too many wnames in walk".

(** The [Error] methods. *)
Definition Error_ (e : error) : string :=
  match e with
  | E9p s => "9p: " +:+ s
  | EOF => "EOF"
  | ErrUnexpectedEOF => "unexpected EOF"
  | ErrShortWrite => "short write"
  | ErrClosed => "closed"
  | Canceled => "context canceled"
  | DeadlineExceeded => "context deadline exceeded"
  | overflowErr n => "message overflowed " +:+ pretty n +:+ " bytes"
  | errorString s => s
  | Warning s => s
  | netError s _ _ => s
  | causal s _ => s
  end.

(** [Overflow]: the number of bytes overflowed, through [Cause] links. *)
Fixpoint Overflow (err : error) : Z :=
  match err with
  | overflowErr n => n
  | causal _ c => Overflow c
  | _ => 0
  end.

(** ** newMessage and the Fcall constructors *)

Definition newMessage (typ : Z) : result error Message :=
  match typ with
  | 100 => Ok (MessageTversion 0 "")
  | 101 => Ok (MessageRversion 0 "")
  | 102 => Ok (MessageTauth 0 "" "")
  | 103 => Ok (MessageRauth zeroQid)
  | 104 => Ok (MessageTattach 0 0 "" "")
  | 105 => Ok (MessageRattach zeroQid)
  | 107 => Ok (MessageRerror "")
  | 108 => Ok (MessageTflush 0)
  | 109 => Ok MessageRflush
  | 110 => Ok (MessageTwalk 0 0 [])
  | 111 => Ok (MessageRwalk [])
  | 112 => Ok (MessageTopen 0 0)
  | 113 => Ok (MessageRopen zeroQid 0)
  | 114 => Ok (MessageTcreate 0 "" 0 0)
  | 115 => Ok (MessageRcreate zeroQid 0)
  | 116 => Ok (MessageTread 0 0 0)
  | 117 => Ok (MessageRread [])
  | 118 => Ok (MessageTwrite 0 0 [])
  | 119 => Ok (MessageRwrite 0)
  | 120 => Ok (MessageTclunk 0)
  | 121 => Ok MessageRclunk
  | 122 => Ok (MessageTremove 0)
  | 123 => Ok MessageRremove
  | 124 => Ok (MessageTstat 0)
  | 125 => Ok (MessageRstat zeroDir)
  | 126 => Ok (MessageTwstat 0 zeroDir)
  | 127 => Ok MessageRwstat
  | _ => Err (errorString "unknown message type")
  end.

(** [Fcall.Message] is an interface: [None] is nil. *)
Record Fcall := mkFcall {
  Fcall_Type : Z;
  Fcall_Tag : Z;
  Fcall_Message : option Message
}.

#[export] Instance Fcall_eq_dec : EqDecision Fcall.
Proof. solve_decision. Defined.

Definition zeroFcall : Fcall := mkFcall 0 0 None.

Definition newFcall (tag : Z) (msg : Message) : Fcall :=
  mkFcall (Type_ msg) tag (Some msg).

Definition newErrorFcall (tag : Z) (err : error) : Fcall :=
  let msg := match err with
             | E9p s => MessageRerror s
             | v => MessageRerror (Error_ v)
             end in
  mkFcall Rerror tag (Some msg).

(** ** Facts on message types *)

(** [newMessage] picks the struct whose [Type] method gives the type back. *)
Lemma newMessage_Type typ m : newMessage typ = Ok m → Type_ m = typ.
Proof.
  intros H. unfold newMessage in H.
  repeat (case_match; simplify_eq; try reflexivity).
Qed.

(** The zero struct of every message type can be made from its type. *)
Lemma newMessage_total m : ∃ z, newMessage (Type_ m) = Ok z ∧ Type_ z = Type_ m.
Proof. destruct m; eexists; split; reflexivity. Qed.

Lemma newMessage_returns typ : returns (newMessage typ).
Proof. unfold newMessage. repeat (case_match; try exact I). Qed.

Lemma Type_range m : 100 ≤ Type_ m < 128.
Proof. destruct m; cbv; split; congruence. Qed.
