(* ===== verification/Encoding.v ===== *)
(** * Encoding: the 9P2000 codec of encoding.go

    [encode], [decode] and [size9p] are the reflective routines of the source:
    a switch on the dynamic type of an [interface{}] value, here a match on
    [any].  The switch bodies call the routine again on other values, so each
    routine is its switch ([encode1], [decode1], [size9p1], with the recursive
    call as an argument) closed by a depth bound.  [VOther] stands for the
    values of types no switch has a case for: they are encoded as nothing,
    without an error, though the comment of Codec (line 14) says that
    unsupported types throw one; the theorems on encodings are about the
    others.  No value nests deeper than
    pointer, Fcall, message, Dir, Qid, integer; [codec_depth] leaves room, and
    EncodingFacts proves that the bound is never reached. *)
From S2P Require Import Prelude Types.

(** ** Dynamic values *)

Inductive intkind :=
| Kuint8 | Kuint16 | Kuint32 | Kuint64
| KFcallType | KTag | KQType | KFid | KFlag.

#[export] Instance intkind_eq_dec : EqDecision intkind.
Proof. solve_decision. Defined.

(** [binary.Size] of an integer of the kind. *)
Definition kwidth (k : intkind) : nat :=
  match k with
  | Kuint8 | KFcallType | KQType | KFlag => 1
  | Kuint16 | KTag => 2
  | Kuint32 | KFid => 4
  | Kuint64 => 8
  end%nat.

(** An [interface{}] value: nil, a value of one of the types the switches
    list, a pointer to one, or a value of any other type. *)
Inductive any :=
| VNil
| VInt (k : intkind) (z : Z)
| VBytes (b : bytes)
| VString (s : string)
| VStrings (ss : list string)
| VTime (t : Time)
| VQid (q : Qid)
| VQids (qs : list Qid)
| VDir (d : Dir)
| VDirs (ds : list Dir)
| VFcall (f : Fcall)
| VMessage (m : Message)
| VPtr (v : any)
| VOther.

(** The interface conversion of a possibly nil [Message]. *)
Definition of_Message (m : option Message) : any :=
  match m with Some m => VMessage m | None => VNil end.

(** ** fields9p: the fields of a struct, in order, by reflection *)

Definition Dir_fields (d : Dir) : list any :=
  [VInt Kuint16 (Dir_Type d); VInt Kuint32 (Dir_Dev d); VQid (Dir_Qid d);
   VInt Kuint32 (Dir_Mode d); VTime (Dir_AccessTime d); VTime (Dir_ModTime d);
   VInt Kuint64 (Dir_Length d); VString (Dir_Name d); VString (Dir_UID d);
   VString (Dir_GID d); VString (Dir_MUID d)].

Definition Message_fields (m : Message) : list any :=
  match m with
  | MessageTversion ms v | MessageRversion ms v => [VInt Kuint32 ms; VString v]
  | MessageTauth af u a => [VInt KFid af; VString u; VString a]
  | MessageRauth q | MessageRattach q => [VQid q]
  | MessageTflush t => [VInt KTag t]
  | MessageTattach f af u a => [VInt KFid f; VInt KFid af; VString u; VString a]
  | MessageTwalk f nf ws => [VInt KFid f; VInt KFid nf; VStrings ws]
  | MessageRwalk qs => [VQids qs]
  | MessageTopen f m => [VInt KFid f; VInt KFlag m]
  | MessageRopen q io | MessageRcreate q io => [VQid q; VInt Kuint32 io]
  | MessageTcreate f n p m =>
      [VInt KFid f; VString n; VInt Kuint32 p; VInt KFlag m]
  | MessageTread f o c => [VInt KFid f; VInt Kuint64 o; VInt Kuint32 c]
  | MessageRread d => [VBytes d]
  | MessageTwrite f o d => [VInt KFid f; VInt Kuint64 o; VBytes d]
  | MessageRwrite c => [VInt Kuint32 c]
  | MessageTclunk f | MessageTremove f | MessageTstat f => [VInt KFid f]
  | MessageRstat d => [VDir d]
  | MessageTwstat f d => [VInt KFid f; VDir d]
  | MessageRerror e => [VString e]
  | MessageRflush | MessageRclunk | MessageRremove | MessageRwstat => []
  end.

(** Behind a pointer the fields are addressable and their addresses are
    listed, otherwise their values. *)
Definition fields9p (v : any) : result error (list any) :=
  match v with
  | VDir d => Ok (Dir_fields d)
  | VPtr (VDir d) => Ok (VPtr <$> Dir_fields d)
  | VMessage m => Ok (Message_fields m)
  | VPtr (VMessage m) => Ok (VPtr <$> Message_fields m)
  | _ => Err (errorString "cannot extract fields from non-struct")
  end.

(** ** size9p *)

Section Size.
(** the recursive call [size9p(vs...)] *)
Variable size9p : list any → result error Z.

Definition size9p1 (v : any) : result error Z :=
  match v with
  | VNil => Ok 0
  | VInt k _ | VPtr (VInt k _) => Ok (u32 (Z.of_nat (kwidth k)))
  | VBytes b => Ok (u32 (4 + len b))
  | VPtr (VBytes b) => size9p [VInt Kuint32 0; VBytes b]
  | VString s => Ok (u32 (2 + slen s))
  | VPtr (VString s) => size9p [VString s]
  | VStrings ss =>
      s0 ← size9p [VInt Kuint16 0];
      sizes ← mapM (λ sv, size9p [VString sv]) ss;
      Ok (foldl (λ s n, u32 (s + n)) s0 sizes)
  | VPtr (VStrings ss) => size9p [VStrings ss]
  | VTime _ | VPtr (VTime _) => size9p [VInt Kuint32 0]
  | VQid q => size9p [VInt KQType (Qid_Type q); VInt Kuint32 (Qid_Version q);
                      VInt Kuint64 (Qid_Path q)]
  | VPtr (VQid q) => size9p [VQid q]
  | VQids qs =>
      s0 ← size9p [VInt Kuint16 0];
      s1 ← size9p ((λ q, VPtr (VQid q)) <$> qs);
      Ok (u32 (s0 + s1))
  | VPtr (VQids qs) => size9p [VQids qs]
  | VDir d =>
      elements ← fields9p (VDir d);
      s0 ← size9p elements;
      s1 ← size9p [VInt Kuint16 0];
      Ok (u32 (s0 + s1))
  | VPtr (VDir d) => size9p [VDir d]
  | VDirs ds => size9p ((λ d, VPtr (VDir d)) <$> ds)
  | VPtr (VDirs ds) => size9p [VDirs ds]
  | VFcall f => size9p [VInt KFcallType (Fcall_Type f); VInt KTag (Fcall_Tag f);
                        of_Message (Fcall_Message f)]
  | VPtr (VFcall f) => size9p [VFcall f]
  | VMessage m | VPtr (VMessage m) =>
      s0 ← match m with
           | MessageRstat _ | MessageTwstat _ _ => size9p [VInt Kuint16 0]
           | _ => Ok 0
           end;
      elements ← fields9p v;
      s1 ← size9p elements;
      Ok (u32 (s0 + s1))
  | VPtr _ | VOther => Ok 0
  end.
End Size.

(** [for _, v := range vs { s += ... }] *)
Fixpoint size9p (depth : nat) (vs : list any) : result error Z :=
  match depth with
  | O => Panic "size9p: depth"
  | S depth =>
      sizes ← mapM (size9p1 (size9p depth)) vs;
      Ok (foldl (λ s n, u32 (s + n)) 0 sizes)
  end.

(** Nesting depth allowed to the codec routines. *)
Definition codec_depth : nat := 8.

(** ** encode *)

Section Encode.
(** the recursive call [e.encode(vs...)]: the bytes it writes *)
Variable encode : list any → result error bytes.

Definition encode1 (v : any) : result error bytes :=
  match v with
  | VInt k z | VPtr (VInt k z) => Ok (le_put (kwidth k) z)
  | VBytes b =>
      p ← encode [VInt Kuint32 (u32 (len b))];
      Ok (p ++ b)
  | VPtr (VBytes b) => encode [VBytes b]
  | VString s => Ok (le_put 2 (u16 (slen s)) ++ bytes_of_string s)
  | VPtr (VString s) => encode [VString s]
  | VStrings ss =>
      p ← encode [VInt Kuint16 (u16 (len ss))];
      q ← mapM (λ m, encode [VString m]) ss;
      Ok (p ++ concat q)
  | VPtr (VStrings ss) => encode [VStrings ss]
  | VTime t => encode [VInt Kuint32 (u32 (t_unix t))]
  | VPtr (VTime t) => encode [VTime t]
  | VQid q => encode [VInt KQType (Qid_Type q); VInt Kuint32 (Qid_Version q);
                      VInt Kuint64 (Qid_Path q)]
  | VPtr (VQid q) => encode [VQid q]
  | VQids qs =>
      p ← encode [VInt Kuint16 (u16 (len qs))];
      q ← encode ((λ q, VPtr (VQid q)) <$> qs);
      Ok (p ++ q)
  | VPtr (VQids qs) => encode [VQids qs]
  | VDir d =>
      elements ← fields9p (VDir d);
      n ← size9p codec_depth elements;
      p ← encode [VInt Kuint16 (u16 n)];
      q ← encode elements;
      Ok (p ++ q)
  | VPtr (VDir d) => encode [VDir d]
  | VDirs ds => encode ((λ d, VPtr (VDir d)) <$> ds)
  | VPtr (VDirs ds) => encode [VDirs ds]
  | VFcall f => encode [VInt KFcallType (Fcall_Type f); VInt KTag (Fcall_Tag f);
                        of_Message (Fcall_Message f)]
  | VPtr (VFcall f) => encode [VFcall f]
  | VMessage m | VPtr (VMessage m) =>
      elements ← fields9p v;
      match m, elements with
      | MessageRstat _, _ =>
          n ← size9p codec_depth elements;
          p ← encode [VInt Kuint16 (u16 n)];
          q ← encode elements;
          Ok (p ++ q)
      | MessageTwstat _ _, fid :: elements =>
          o ← encode [fid];
          n ← size9p codec_depth elements;
          p ← encode [VInt Kuint16 (u16 n)];
          q ← encode elements;
          Ok (o ++ p ++ q)
      | _, _ => encode elements
      end
  | VNil | VPtr _ | VOther => Ok []
  end.
End Encode.

Fixpoint encode (depth : nat) (vs : list any) : result error bytes :=
  match depth with
  | O => Panic "encode: depth"
  | S depth => ps ← mapM (encode1 (encode depth)) vs; Ok (concat ps)
  end.

(** ** decode *)

(** [io.ReadFull] of [n] bytes: the bytes and the rest of the reader. *)
Definition read_full (n : Z) (rd : bytes) : result error (bytes * bytes) :=
  if decide (len rd < n) then
    match rd with [] => Err EOF | _ => Err ErrUnexpectedEOF end
  else Ok (take (Z.to_nat n) rd, drop (Z.to_nat n) rd).

(** Writing decoded fields back through the addresses [fields9p] listed. *)
Definition Dir_store (d : Dir) (vs : list any) : Dir :=
  match vs with
  | [VPtr (VInt _ t); VPtr (VInt _ dev); VPtr (VQid q); VPtr (VInt _ m);
     VPtr (VTime at_); VPtr (VTime mt); VPtr (VInt _ l); VPtr (VString n);
     VPtr (VString u); VPtr (VString g); VPtr (VString mu)] =>
      mkDir t dev q m at_ mt l n u g mu
  | _ => d
  end.

Definition Message_store (m : Message) (vs : list any) : Message :=
  match m, vs with
  | MessageTversion _ _, [VPtr (VInt _ ms); VPtr (VString v)] => MessageTversion ms v
  | MessageRversion _ _, [VPtr (VInt _ ms); VPtr (VString v)] => MessageRversion ms v
  | MessageTauth _ _ _, [VPtr (VInt _ af); VPtr (VString u); VPtr (VString a)] =>
      MessageTauth af u a
  | MessageRauth _, [VPtr (VQid q)] => MessageRauth q
  | MessageRattach _, [VPtr (VQid q)] => MessageRattach q
  | MessageTflush _, [VPtr (VInt _ t)] => MessageTflush t
  | MessageTattach _ _ _ _,
      [VPtr (VInt _ f); VPtr (VInt _ af); VPtr (VString u); VPtr (VString a)] =>
      MessageTattach f af u a
  | MessageTwalk _ _ _, [VPtr (VInt _ f); VPtr (VInt _ nf); VPtr (VStrings ws)] =>
      MessageTwalk f nf ws
  | MessageRwalk _, [VPtr (VQids qs)] => MessageRwalk qs
  | MessageTopen _ _, [VPtr (VInt _ f); VPtr (VInt _ m)] => MessageTopen f m
  | MessageRopen _ _, [VPtr (VQid q); VPtr (VInt _ io)] => MessageRopen q io
  | MessageRcreate _ _, [VPtr (VQid q); VPtr (VInt _ io)] => MessageRcreate q io
  | MessageTcreate _ _ _ _,
      [VPtr (VInt _ f); VPtr (VString n); VPtr (VInt _ p); VPtr (VInt _ m)] =>
      MessageTcreate f n p m
  | MessageTread _ _ _, [VPtr (VInt _ f); VPtr (VInt _ o); VPtr (VInt _ c)] =>
      MessageTread f o c
  | MessageRread _, [VPtr (VBytes d)] => MessageRread d
  | MessageTwrite _ _ _, [VPtr (VInt _ f); VPtr (VInt _ o); VPtr (VBytes d)] =>
      MessageTwrite f o d
  | MessageRwrite _, [VPtr (VInt _ c)] => MessageRwrite c
  | MessageTclunk _, [VPtr (VInt _ f)] => MessageTclunk f
  | MessageTremove _, [VPtr (VInt _ f)] => MessageTremove f
  | MessageTstat _, [VPtr (VInt _ f)] => MessageTstat f
  | MessageRstat _, [VPtr (VDir d)] => MessageRstat d
  | MessageTwstat _ _, [VPtr (VInt _ f); VPtr (VDir d)] => MessageTwstat f d
  | MessageRerror _, [VPtr (VString e)] => MessageRerror e
  | m, _ => m
  end.

Section Decode.
(** the recursive call [d.decode(vs...)] on the reader [rd]: the targets
    with their new contents and the rest of the reader *)
Variable decode : list any → bytes → result error (list any * bytes).

(** [var ll uintN; d.decode(&ll)] *)
Definition decode_uint (k : intkind) (rd : bytes) : result error (Z * bytes) :=
  '(vs, rd) ← decode [VPtr (VInt k 0)] rd;
  match vs with
  | [VPtr (VInt _ z)] => Ok (z, rd)
  | _ => Panic "decode: type"
  end.

(** The loop of [case *[]Dir].  [fuel] bounds the number of entries. *)
Fixpoint decode_dirs (fuel : nat) (rd : bytes) : result error (list Dir) :=
  match fuel with
  | O => Panic "decode: dirs"
  | S fuel =>
      match decode [VPtr (VDir zeroDir)] rd with
      | Ok ([VPtr (VDir d)], rd) => ds ← decode_dirs fuel rd; Ok (d :: ds)
      | Ok _ => Panic "decode: type"
      | Err EOF => Ok []
      | Err e => Err e
      | Panic w => Panic w
      | Hang w => Hang w
      end
  end.

(** The boolean tells that the case returned from [decode] instead of going
    on with the next target ([case *[]Dir]; the reader is then not used
    again). *)
Definition decode1 (v : any) (rd : bytes) : result error (any * bytes * bool) :=
  match v with
  | VPtr (VInt k _) =>
      '(b, rd) ← read_full (Z.of_nat (kwidth k)) rd;
      Ok (VPtr (VInt k (le_get b)), rd, false)
  | VPtr (VBytes old) =>
      '(ll, rd) ← decode_uint Kuint32 rd;
      let n := if decide (0 < ll) then ll else len old in
      '(b, rd) ← read_full n rd;
      Ok (VPtr (VBytes b), rd, false)
  | VPtr (VString _) =>
      '(ll, rd) ← decode_uint Kuint16 rd;
      '(b, rd) ← read_full ll rd;
      Ok (VPtr (VString (string_of_bytes b)), rd, false)
  | VPtr (VStrings _) =>
      '(ll, rd) ← decode_uint Kuint16 rd;
      '(vs, rd) ← decode (replicate (Z.to_nat ll) (VPtr (VString ""))) rd;
      Ok (VPtr (VStrings (omap (λ v, match v with VPtr (VString s) => Some s
                                               | _ => None end) vs)), rd, false)
  | VPtr (VTime _) =>
      '(epoch, rd) ← decode_uint Kuint32 rd;
      Ok (VPtr (VTime (mkTime epoch 0)), rd, false)
  | VPtr (VQid q) =>
      '(vs, rd) ← decode [VPtr (VInt KQType (Qid_Type q));
                          VPtr (VInt Kuint32 (Qid_Version q));
                          VPtr (VInt Kuint64 (Qid_Path q))] rd;
      match vs with
      | [VPtr (VInt _ t); VPtr (VInt _ ver); VPtr (VInt _ p)] =>
          Ok (VPtr (VQid (mkQid t ver p)), rd, false)
      | _ => Panic "decode: type"
      end
  | VPtr (VQids _) =>
      '(ll, rd) ← decode_uint Kuint16 rd;
      '(vs, rd) ← decode (replicate (Z.to_nat ll) (VPtr (VQid zeroQid))) rd;
      Ok (VPtr (VQids (omap (λ v, match v with VPtr (VQid q) => Some q
                                            | _ => None end) vs)), rd, false)
  | VPtr (VDir d) =>
      '(ll, rd) ← decode_uint Kuint16 rd;
      '(b, rd) ← read_full ll rd;
      elements ← fields9p v;
      '(vs, _) ← decode elements b;
      Ok (VPtr (VDir (Dir_store d vs)), rd, false)
  | VPtr (VDirs _) =>
      ds ← decode_dirs (S (length rd)) rd;
      Ok (VPtr (VDirs ds), [], true)
  | VPtr (VFcall f) =>
      '(vs, rd) ← decode [VPtr (VInt KFcallType (Fcall_Type f));
                          VPtr (VInt KTag (Fcall_Tag f))] rd;
      match vs with
      | [VPtr (VInt _ typ); VPtr (VInt _ tag)] =>
          message ← newMessage typ;
          '(ms, rd) ← decode [VPtr (VMessage message)] rd;
          match ms with
          | [VPtr (VMessage m)] => Ok (VPtr (VFcall (mkFcall typ tag (Some m))), rd, false)
          | _ => Panic "decode: type"
          end
      | _ => Panic "decode: type"
      end
  | VMessage m | VPtr (VMessage m) =>
      elements ← fields9p v;
      '(vs, rd) ←
        match m, elements with
        | MessageRstat _, _ =>
            '(_, rd) ← decode_uint Kuint16 rd;
            decode elements rd
        | MessageTwstat _ _, fid :: elements =>
            '(fids, rd) ← decode [fid] rd;
            '(_, rd) ← decode_uint Kuint16 rd;
            '(vs, rd) ← decode elements rd;
            Ok (fids ++ vs, rd)
        | _, _ => decode elements rd
        end;
      Ok (match v with
          | VPtr _ => VPtr (VMessage (Message_store m vs))
          | _ => v
          end, rd, false)
  | _ => Ok (v, rd, false)
  end.

Fixpoint decode_each (vs : list any) (rd : bytes) : result error (list any * bytes) :=
  match vs with
  | [] => Ok ([], rd)
  | v :: vs =>
      '(v, rd, stop) ← decode1 v rd;
      if (stop : bool) then Ok (v :: vs, rd)
      else '(vs, rd) ← decode_each vs rd; Ok (v :: vs, rd)
  end.
End Decode.

Fixpoint decode (depth : nat) (vs : list any) (rd : bytes)
    : result error (list any * bytes) :=
  match depth with
  | O => Panic "decode: depth"
  | S depth => decode_each (decode depth) vs rd
  end.

(** ** The Codec interface and its standard implementation *)

Record Codec := mkCodec {
  Unmarshal : bytes → any → result error any;
  Marshal : any → result error bytes;
  Size : any → result error Z
}.

Definition codec9p_Unmarshal (data : bytes) (v : any) : result error any :=
  '(vs, _) ← decode codec_depth [v] data;
  match vs with [v] => Ok v | _ => Panic "decode: type" end.

Definition codec9p_Marshal (v : any) : result error bytes :=
  encode codec_depth [v].

Definition codec9p_Size (v : any) : result error Z :=
  size9p codec_depth [v].

Definition codec9p : Codec :=
  mkCodec codec9p_Unmarshal codec9p_Marshal codec9p_Size.

Definition NewCodec : Codec := codec9p.

(** ** DecodeDir and EncodeDir *)

(** The result is the entry and the rest of the reader. *)
Definition DecodeDir (codec : Codec) (rd : bytes) : result error (Dir * bytes) :=
  '(b, rd) ← read_full 2 rd;
  let ll := le_get b in
  let n := u16 (ll + 2) in                      (* make([]byte, ll+2) *)
  if decide (n < 2) then Panic "index out of range"   (* PutUint16(p, ll) *)
  else
    '(q, rd) ← read_full (n - 2) rd;
    v ← Unmarshal codec (le_put 2 ll ++ q) (VPtr (VDir zeroDir));
    match v with
    | VPtr (VDir d) => Ok (d, rd)
    | _ => Panic "DecodeDir: type"
    end.

(** The bytes written to [wr]. *)
Definition EncodeDir (codec : Codec) (d : Dir) : result error bytes :=
  Marshal codec (VPtr (VDir d)).
