(* ===== verification/DecodeFacts.v ===== *)
(** * DecodeFacts: what the decoder accepts

    On every input the decoder returns, and what it accepts is the reference
    encoding of a well-formed value (for the stat messages, whose size fields
    and spare bytes the decoder skips, a well-formed value).  The file ends
    with the theorems on the codec as a whole and the codec laws that the
    message channel relies on. *)
From S2P Require Import Prelude Types Encoding EncodingFacts.

Lemma read_full_inv n rd b rd' :
  0 ≤ n → read_full n rd = Ok (b, rd') → rd = b ++ rd' ∧ len b = n.
Proof.
  intros Hn H. unfold read_full in H. case_decide as Hd; [by destruct rd|].
  simplify_eq. rewrite take_drop. split; [done|].
  unfold len in *. rewrite length_take. lia.
Qed.

Lemma read_full_returns n rd : returns (read_full n rd).
Proof. unfold read_full. case_decide; [by destruct rd|done]. Qed.

Lemma decode_one n v rd vs rd' :
  decode (S n) [v] rd = Ok (vs, rd') →
  ∃ v' stop, decode1 (decode n) v rd = Ok (v', rd', stop) ∧ vs = [v'].
Proof.
  intros H. cbn [decode decode_each] in H. bind_inv H.
  destruct a as [[v' rd0] []]; simpl in H; simplify_eq; eauto.
Qed.

(** ** Exactness on values without directory entries *)

Definition leaf (v : any) : Prop :=
  match v with
  | VInt _ _ | VBytes _ | VString _ | VStrings _ | VTime _ | VQid _ | VQids _ => True
  | _ => False
  end.

(** [accepts us rd vs rd']: from [rd], targets of the types of [us] got the
    well-formed values [ws], whose encoding was consumed. *)
Definition accepts (us : list any) (rd : bytes) (vs : list any) (rd' : bytes) : Prop :=
  ∃ ws, vs = VPtr <$> ws ∧ blank <$> ws = blank <$> us ∧ Forall wf0 ws ∧
        rd = wires ws ++ rd'.

Lemma blank_VString w : blank w = VString "" → ∃ s, w = VString s.
Proof. destruct w; simpl; intros; simplify_eq; eauto. Qed.
Lemma blank_VQid w : blank w = VQid zeroQid → ∃ q, w = VQid q.
Proof. destruct w; simpl; intros; simplify_eq; eauto. Qed.
Lemma blank_VInt k w : blank w = VInt k 0 → ∃ z, w = VInt k z.
Proof. destruct w; simpl; intros; simplify_eq; eauto. Qed.

Lemma blanks_inv {A} (f : A → any) b ws n :
  (∀ w, blank w = b → ∃ x, w = f x) →
  blank <$> ws = replicate n b → ∃ xs, ws = f <$> xs ∧ length xs = n.
Proof.
  intros H. revert n. induction ws as [|w ws IH]; intros [|n] E; simplify_eq/=.
  - by exists [].
  - destruct (H w) as [x ->]; [done|]. destruct (IH n) as (xs & -> & <-); [done|].
    by exists (x :: xs).
Qed.

Lemma replicate_targets n u : replicate n (VPtr (blank u)) = targets (replicate n u).
Proof. by rewrite !fmap_replicate. Qed.

Lemma decode_each_accepts n us rd vs rd' :
  (∀ u rd v rd' stop, u ∈ us →
     decode1 (decode n) (VPtr (blank u)) rd = Ok (v, rd', stop) →
     stop = false ∧ accepts [u] rd [v] rd') →
  decode (S n) (targets us) rd = Ok (vs, rd') → accepts us rd vs rd'.
Proof.
  cbn [decode]. revert rd vs. induction us as [|u us IH]; intros rd vs H E.
  - cbn in E. simplify_eq. by exists [].
  - rewrite !fmap_cons in E. cbn [decode_each] in E. bind_inv E.
    destruct a as [[v rd1] stop]. apply H in Ha as [-> Ha]; [|by left].
    bind_inv E. destruct a as [vs1 rd2]. simplify_eq.
    apply IH in Ha0 as (ws & -> & Hb & Hw & ->); [|intros; eapply H; [by right|done]].
    destruct Ha as (ws1 & E1 & Hb1 & Hw1 & ->).
    destruct ws1 as [|w [|]]; try done. injection E1 as ->. injection Hb1 as Hb1.
    exists (w :: ws). rewrite wires_one, wires_cons, <-app_assoc. csimpl.
    apply Forall_cons in Hw1 as [Hw1 _].
    repeat split; [by f_equal | by constructor].
Qed.

Section Accepts.
Variable n : nat.
Hypothesis IH : ∀ us rd vs rd', Forall leaf us →
  decode n (targets us) rd = Ok (vs, rd') → accepts us rd vs rd'.

Lemma decode_uint_accepts k rd z rd' :
  decode_uint (decode n) k rd = Ok (z, rd') →
  wf0 (VInt k z) ∧ rd = le_put (kwidth k) z ++ rd'.
Proof.
  unfold decode_uint. intros H. bind_inv H. destruct a as [vs rd1].
  apply (IH [VInt k 0]) in Ha as (ws & -> & Hb & Hw & ->); [|by repeat constructor].
  destruct ws as [|w [|]]; try done. injection Hb as Hb.
  apply blank_VInt in Hb as [z' ->]. cbn in H. simplify_eq.
  apply Forall_cons in Hw as [Hw _]. split; [done|].
  by rewrite wires_one.
Qed.

Lemma accepts_one u w rd rd' :
  blank w = blank u → wf0 w → rd = wire w ++ rd' → accepts [u] rd [VPtr w] rd'.
Proof.
  intros Hb Hw ->. exists [w]. csimpl. rewrite Hb. rewrite wires_one. by repeat constructor.
Qed.

Lemma decode1_accepts u rd v rd' stop :
  leaf u → decode1 (decode n) (VPtr (blank u)) rd = Ok (v, rd', stop) →
  stop = false ∧ accepts [u] rd [v] rd'.
Proof.
  intros Hl H.
  destruct u as [|k z|b|s|ss|t|q|qs| | | | | |]; try done; cbn [blank decode1] in H.
  - bind_inv H. destruct a as [b rd1]. simplify_eq.
    apply read_full_inv in Ha as [-> Hlen]; [|lia].
    split; [done|]. apply accepts_one; [done| |].
    + pose proof (le_get_range b). by rewrite Hlen in H.
    + cbn [wire wire0]. f_equal. unfold len in Hlen.
      apply Nat2Z.inj in Hlen. by rewrite <-Hlen, le_put_get.
  - bind_inv H. destruct a as [ll rd1].
    apply decode_uint_accepts in Ha as [Hll ->]. bind_inv H. destruct a as [b' rd2].
    simplify_eq. simpl in Hll.
    assert ((if decide (0 < ll) then ll else len (@nil byte)) = ll) as E.
    { case_decide; rewrite ?len_nil; lia. }
    rewrite E in Ha. apply read_full_inv in Ha as [-> <-]; [|lia].
    split; [done|]. apply accepts_one; [done|simpl; lia|].
    cbn [wire wire0]. unfold wire_data. by rewrite <-app_assoc.
  - bind_inv H. destruct a as [ll rd1].
    apply decode_uint_accepts in Ha as [Hll ->]. bind_inv H. destruct a as [b rd2].
    simplify_eq. simpl in Hll. apply read_full_inv in Ha as [-> <-]; [|lia].
    split; [done|]. apply accepts_one; [done| |].
    + simpl. rewrite slen_string_of_bytes. lia.
    + cbn [wire wire0]. unfold wire_string.
      rewrite slen_string_of_bytes, bytes_of_string_of_bytes. by rewrite <-app_assoc.
  - bind_inv H. destruct a as [ll rd1].
    apply decode_uint_accepts in Ha as [Hll ->]. bind_inv H. destruct a as [vs rd2].
    simplify_eq. change (VPtr (VString "")) with (VPtr (blank (VString ""))) in Ha.
    rewrite replicate_targets in Ha.
    apply IH in Ha as (ws & -> & Hb & Hw & ->); [|by apply Forall_replicate].
    rewrite fmap_replicate in Hb.
    apply (blanks_inv VString) in Hb as (ss' & -> & Hlen); [|apply blank_VString].
    rewrite omap_ptr_fmap by done. simpl in Hll.
    assert (len ss' = ll) as <- by (unfold len; lia).
    split; [done|]. apply accepts_one; [done| |].
    + split; [simpl in *; lia|]. rewrite Forall_fmap in Hw. exact Hw.
    + cbn [wire wire0]. unfold wire_list. by rewrite wires_fmap, <-app_assoc.
  - bind_inv H. destruct a as [ll rd1].
    apply decode_uint_accepts in Ha as [Hll ->]. simplify_eq.
    split; [done|]. by apply accepts_one.
  - bind_inv H. destruct a as [vs rd1].
    apply (IH [VInt KQType 0; VInt Kuint32 0; VInt Kuint64 0]) in Ha
      as (ws & -> & Hb & Hw & ->); [|by repeat constructor].
    destruct ws as [|w1 [|w2 [|w3 [|]]]]; try done. injection Hb as H1 H2 H3.
    apply blank_VInt in H1 as [z1 ->]. apply blank_VInt in H2 as [z2 ->].
    apply blank_VInt in H3 as [z3 ->]. cbn in H. simplify_eq.
    apply Forall_cons in Hw as [W1 [W2 [W3 _]%Forall_cons]%Forall_cons].
    split; [done|]. apply accepts_one; [done|done|].
    rewrite !wires_cons. cbn [wire wire0 kwidth]. unfold wire_qid, wires.
    by rewrite <-!app_assoc.
  - bind_inv H. destruct a as [ll rd1].
    apply decode_uint_accepts in Ha as [Hll ->]. bind_inv H. destruct a as [vs rd2].
    simplify_eq. change (VPtr (VQid zeroQid)) with (VPtr (blank (VQid zeroQid))) in Ha.
    rewrite replicate_targets in Ha.
    apply IH in Ha as (ws & -> & Hb & Hw & ->); [|by apply Forall_replicate].
    rewrite fmap_replicate in Hb.
    apply (blanks_inv VQid) in Hb as (ss' & -> & Hlen); [|apply blank_VQid].
    rewrite omap_ptr_fmap by done. simpl in Hll.
    assert (len ss' = ll) as <- by (unfold len; lia).
    split; [done|]. apply accepts_one; [done| |].
    + split; [simpl in *; lia|]. rewrite Forall_fmap in Hw. exact Hw.
    + cbn [wire wire0]. unfold wire_list. by rewrite wires_fmap, <-app_assoc.
Qed.
End Accepts.

(** Whatever the depth, a successful decode of values without directory
    entries consumed exactly their encoding. *)
Lemma decode_accepts n us rd vs rd' :
  Forall leaf us → decode n (targets us) rd = Ok (vs, rd') → accepts us rd vs rd'.
Proof.
  revert us rd vs rd'. induction n as [|n IH]; intros us rd vs rd' Hl H; [done|].
  apply decode_each_accepts in H; [done|].
  intros u rd1 v rd2 stop Hu. apply decode1_accepts; [done|].
  rewrite Forall_forall in Hl. auto.
Qed.

(** ** Directory entries, messages, Fcalls *)

Lemma leaf_Dir_fields d : Forall leaf (Dir_fields d).
Proof. by repeat constructor. Qed.
Lemma leaf_Message_fields m : ¬ is_stat m → Forall leaf (Message_fields m).
Proof. destruct m; intros Hs; try (by destruct (Hs I)); by repeat constructor. Qed.

(** Lists of values of the types of the fields are the fields of a struct. *)
Lemma Dir_fields_inv d ws :
  blank <$> ws = blank <$> Dir_fields d →
  ∃ d', ws = Dir_fields d' ∧ ∀ z, Dir_store z (VPtr <$> ws) = d'.
Proof.
  intros H. do 11 (destruct ws as [|[] ws]; try discriminate H).
  destruct ws; [|discriminate H]. simplify_eq/=.
  eexists (mkDir _ _ _ _ _ _ _ _ _ _ _). by repeat split.
Qed.

Lemma Message_fields_inv m ws :
  blank <$> ws = blank <$> Message_fields m →
  ∃ m', ws = Message_fields m' ∧ Type_ m' = Type_ m ∧
        Message_store (zeroMessage m) (VPtr <$> ws) = m'.
Proof.
  intros H.
  destruct m; cbn [Message_fields fmap list_fmap blank] in H;
    repeat (destruct ws as [|[] ws]; try discriminate H); simplify_eq/=;
    first [ by eexists (MessageTversion _ _) | by eexists (MessageRversion _ _)
          | by eexists (MessageTauth _ _ _) | by eexists (MessageRauth _)
          | by eexists (MessageTflush _) | by eexists MessageRflush
          | by eexists (MessageTattach _ _ _ _) | by eexists (MessageRattach _)
          | by eexists (MessageTwalk _ _ _) | by eexists (MessageRwalk _)
          | by eexists (MessageTopen _ _) | by eexists (MessageRopen _ _)
          | by eexists (MessageTcreate _ _ _ _) | by eexists (MessageRcreate _ _)
          | by eexists (MessageTread _ _ _) | by eexists (MessageRread _)
          | by eexists (MessageTwrite _ _ _) | by eexists (MessageRwrite _)
          | by eexists (MessageTclunk _) | by eexists MessageRclunk
          | by eexists (MessageTremove _) | by eexists MessageRremove
          | by eexists (MessageTstat _) | by eexists (MessageRstat _)
          | by eexists (MessageTwstat _ _) | by eexists MessageRwstat
          | by eexists (MessageRerror _) ].
Qed.

Lemma decode_uint_inv n k rd z rd' :
  decode_uint (decode n) k rd = Ok (z, rd') →
  wf0 (VInt k z) ∧ rd = le_put (kwidth k) z ++ rd'.
Proof. apply decode_uint_accepts. intros. by eapply decode_accepts. Qed.

(** A directory entry consumes its size field at least. *)
Lemma decode1_dir_inv n rd v rd' stop :
  decode1 (decode n) (VPtr (VDir zeroDir)) rd = Ok (v, rd', stop) →
  stop = false ∧ ∃ d, v = VPtr (VDir d) ∧ wf_Dir d ∧ (length rd' + 2 ≤ length rd)%nat.
Proof.
  intros H. cbn [decode1] in H. bind_inv H. destruct a as [ll rd1].
  apply decode_uint_inv in Ha as [Hll ->]. simpl in Hll.
  bind_inv H. destruct a as [b rd2]. apply read_full_inv in Ha as [-> Hb]; [|lia].
  cbn [fields9p mbind result_bind] in H. bind_inv H. destruct a as [vs rd3].
  rewrite (Dir_fields_blank zeroDir) in Ha.
  apply decode_accepts in Ha as (ws & -> & Hbl & Hw & ->); [|apply leaf_Dir_fields].
  apply Dir_fields_inv in Hbl as (d & -> & Hst). rewrite Hst in H. simplify_eq.
  split; [done|]. exists d. split; [done|]. split.
  - split; [done|]. rewrite wires_Dir_fields, len_app in Hll.
    pose proof (len_nonneg rd3). lia.
  - rewrite !length_app, length_le_put. simpl. lia.
Qed.

Lemma decode_dir_inv n rd vs rd' :
  decode (S n) [VPtr (VDir zeroDir)] rd = Ok (vs, rd') →
  ∃ d, vs = [VPtr (VDir d)] ∧ wf_Dir d ∧ (length rd' + 2 ≤ length rd)%nat.
Proof.
  intros H. apply decode_one in H as (v & stop & H & ->).
  apply decode1_dir_inv in H as [-> (d & -> & ? & ?)]. eauto.
Qed.

(** A message is accepted with the type asked for; unless it is a stat
    message its encoding was consumed. *)
Lemma decode1_message_inv n m rd v rd' stop :
  decode1 (decode (S n)) (VPtr (VMessage (zeroMessage m))) rd = Ok (v, rd', stop) →
  ∃ m', v = VPtr (VMessage m') ∧ Type_ m' = Type_ m ∧ wf_Message m' ∧
        (¬ is_stat m → rd = wire_message m' ++ rd').
Proof.
  intros H. cbn [decode1 fields9p mbind result_bind] in H.
  rewrite (Message_fields_blank m) in H.
  destruct (decide (is_stat m)) as [Hs|Hs].
  - destruct m as [| | | | | | | | | | | | | | | | | | | | | | |d|f d| |]; try done;
      cbn [zeroMessage newMessage Type_ Rstat Twstat Message_fields fmap list_fmap
           blank] in H; bind_inv H; destruct a as [vs rd0]; simplify_eq.
    + bind_inv Ha. destruct a as [ll rd1]. apply decode_dir_inv in Ha as (d' & -> & Hd & _).
      exists (MessageRstat d'). repeat split; [|naive_solver].
      constructor; [exact Hd|constructor].
    + bind_inv Ha. destruct a as [fids rd1]. bind_inv Ha. destruct a as [ll rd2].
      bind_inv Ha. destruct a as [vs1 rd3]. simplify_eq.
      apply decode_dir_inv in Ha2 as (d' & -> & Hd & _).
      apply (decode_accepts _ [VInt KFid f]) in Ha0 as (ws & -> & Hb & Hw & _);
        [|by repeat constructor].
      destruct ws as [|w [|]]; try done. injection Hb as Hb.
      apply blank_VInt in Hb as [z ->]. apply Forall_cons in Hw as [Hw _].
      exists (MessageTwstat z d'). repeat split; [|naive_solver].
      constructor; [exact Hw|constructor; [exact Hd|constructor]].
  - assert (∀ (A : Type) (x y z : A), match zeroMessage m with
      | MessageRstat _ => x | MessageTwstat _ _ => y | _ => z end = z) as Hz
      by (intros; by destruct m).
    rewrite Hz in H. bind_inv H. destruct a as [vs rd1].
    apply decode_accepts in Ha as (ws & -> & Hb & Hw & ->);
      [|by apply leaf_Message_fields].
    apply Message_fields_inv in Hb as (m' & -> & Ht & Hst). rewrite Hst in H.
    simplify_eq. exists m'. repeat split; [done| |].
    + eapply Forall_impl; [exact Hw|]. by intros [].
    + intros _. rewrite wires_Message_fields; [done|].
      intros Hs'. apply Hs. by destruct m', m.
Qed.

Lemma newMessage_inv typ m0 : newMessage typ = Ok m0 → m0 = zeroMessage m0 ∧ typ = Type_ m0.
Proof.
  intros H. unfold newMessage in H. repeat (case_match; simplify_eq; try done).
Qed.

Lemma decode1_fcall_inv n rd v rd' stop :
  decode1 (decode (S (S n))) (VPtr (VFcall zeroFcall)) rd = Ok (v, rd', stop) →
  ∃ f, v = VPtr (VFcall f) ∧ wf_Fcall f ∧
       (∀ m, Fcall_Message f = Some m → ¬ is_stat m → rd = wire_fcall f ++ rd').
Proof.
  intros H. cbn [decode1] in H. bind_inv H. destruct a as [vs rd1].
  apply (decode_accepts _ [VInt KFcallType 0; VInt KTag 0]) in Ha
    as (ws & -> & Hb & Hw & ->); [|by repeat constructor].
  destruct ws as [|w1 [|w2 [|]]]; try done. injection Hb as H1 H2.
  apply blank_VInt in H1 as [typ ->]. apply blank_VInt in H2 as [tag ->].
  apply Forall_cons in Hw as [W1 [W2 _]%Forall_cons].
  cbn [fmap list_fmap] in H. bind_inv H. apply newMessage_inv in Ha as [Hz ->].
  bind_inv H. destruct a0 as [ms rd2]. rewrite Hz in Ha.
  apply decode_one in Ha as (v0 & stop0 & Ha & ->).
  apply decode1_message_inv in Ha as (m' & -> & Ht & Hm & Hex). simplify_eq.
  exists (mkFcall (Type_ a) tag (Some m')). split; [done|]. split.
  - split; [exact W2|]. split; [by symmetry|exact Hm].
  - intros m Em Hs. injection Em as <-.
    rewrite Hex by (intros Hs'; apply Hs; by destruct m', a).
    rewrite wires_cons, wires_one, <-!app_assoc. unfold wire_fcall.
    cbn [wire wire0 kwidth Fcall_Type Fcall_Tag Fcall_Message]. by rewrite <-!app_assoc.
Qed.

(** ** The decoder returns on every input *)

Definition nonptr (v : any) : Prop := match v with VPtr _ => False | _ => True end.

Lemma nonptr_Dir_fields d : Forall nonptr (Dir_fields d).
Proof. by repeat constructor. Qed.
Lemma nonptr_Message_fields m : Forall nonptr (Message_fields m).
Proof. destruct m; by repeat constructor. Qed.

Lemma decode_each_returns n us rd :
  (∀ u rd, u ∈ us → returns (decode1 (decode n) (VPtr (blank u)) rd)) →
  returns (decode (S n) (targets us) rd).
Proof.
  cbn [decode]. revert rd. induction us as [|u us IH]; intros rd H; [done|].
  rewrite !fmap_cons. cbn [decode_each].
  apply returns_bind; [apply H; by left|]. intros [[v rd1] []] _; [done|].
  apply returns_bind; [|by intros []]. apply IH. intros. apply H. by right.
Qed.

Lemma decode_dirs_returns n fuel rd :
  (∀ rd, returns (decode (S n) [VPtr (VDir zeroDir)] rd)) →
  (length rd < fuel)%nat → returns (decode_dirs (decode (S n)) fuel rd).
Proof.
  intros H. revert rd. induction fuel as [|fuel IH]; intros rd Hf; [lia|].
  cbn [decode_dirs]. specialize (H rd).
  destruct (decode (S n) [VPtr (VDir zeroDir)] rd) as [[vs rd1]|e| |] eqn:E; try done.
  - apply decode_dir_inv in E as (d & -> & _ & Hl).
    apply returns_bind; [apply IH; lia|done].
  - by destruct e.
Qed.

Section Returns.
Variable n : nat.
Hypothesis Hn : n ≠ O.
Hypothesis IH : ∀ us rd, ranked n (VPtr <$> us) → Forall nonptr us →
  returns (decode n (targets us) rd).

Lemma decode_uint_returns k rd : returns (decode_uint (decode n) k rd).
Proof.
  unfold decode_uint.
  apply returns_bind; [apply (IH [VInt k 0]); [ranked|by repeat constructor]|].
  intros [vs rd1] H.
  apply (decode_accepts _ [VInt k 0]) in H as (ws & -> & Hb & _); [|by repeat constructor].
  destruct ws as [|w [|]]; try done. injection Hb as Hb. by apply blank_VInt in Hb as [z ->].
Qed.

Lemma decode_message_returns m rd :
  (5 ≤ n)%nat → returns (decode1 (decode n) (VPtr (VMessage (zeroMessage m))) rd).
Proof.
  intros Hr. cbn [decode1 fields9p mbind result_bind].
  rewrite (Message_fields_blank m).
  assert (∀ fs rd, (∀ v, v ∈ fs → v ∈ Message_fields m) → returns (decode n (targets fs) rd))
    as Hfs.
  { intros fs rd' Hsub. pose proof (ranked_ptr _ _ (ranked_Message_fields m)) as Hm.
    pose proof (nonptr_Message_fields m) as Hp. unfold ranked in Hm.
    rewrite Forall_fmap, Forall_forall in Hm. rewrite Forall_forall in Hp.
    apply IH; [|apply Forall_forall; auto].
    apply Forall_fmap, Forall_forall. intros v Hv. specialize (Hm v (Hsub v Hv)).
    simpl in *. lia. }
  apply returns_bind; [|by intros []].
  destruct m; cbn [zeroMessage newMessage Type_ Message_fields] in *;
    try (apply Hfs; set_solver).
  - apply returns_bind; [apply decode_uint_returns|]. intros [] _. apply Hfs. set_solver.
  - apply returns_bind; [apply (Hfs [VInt KFid Fid]); set_solver|]. intros [] _.
    apply returns_bind; [apply decode_uint_returns|]. intros [] _.
    apply returns_bind; [apply (Hfs [VDir Stat]); set_solver|by intros []].
Qed.

Lemma decode1_returns u rd :
  nonptr u → (rank (VPtr u) ≤ S n)%nat →
  returns (decode1 (decode n) (VPtr (blank u)) rd).
Proof.
  intros Hp Hr.
  destruct u as [|k z|b|s|ss|t|q|qs|d|ds|f|m| |]; try done; simpl in Hr;
    cbn [blank decode1]; try (apply decode_message_returns; lia).
  all: try (apply returns_bind;
    [first [apply decode_uint_returns | apply read_full_returns]|]; intros [] _).
  all: try done.
  - apply returns_bind; [apply read_full_returns|by intros []].
  - apply returns_bind; [apply read_full_returns|by intros []].
  - apply returns_bind; [|by intros []].
    change (VPtr (VString "")) with (VPtr (blank (VString ""))).
    rewrite replicate_targets. apply IH; [|by apply Forall_replicate].
    apply Forall_fmap, Forall_replicate. simpl. lia.
  - apply returns_bind.
    + apply (IH [VInt KQType 0; VInt Kuint32 0; VInt Kuint64 0]);
        [ranked|by repeat constructor].
    + intros [vs rd1] H.
      apply (decode_accepts _ [VInt KQType 0; VInt Kuint32 0; VInt Kuint64 0]) in H
        as (ws & -> & Hb & _); [|by repeat constructor].
      destruct ws as [|w1 [|w2 [|w3 [|]]]]; try done. injection Hb as H1 H2 H3.
      apply blank_VInt in H1 as [z1 ->]. apply blank_VInt in H2 as [z2 ->].
      by apply blank_VInt in H3 as [z3 ->].
  - apply returns_bind; [|by intros []].
    change (VPtr (VQid zeroQid)) with (VPtr (blank (VQid zeroQid))).
    rewrite replicate_targets. apply IH; [|by apply Forall_replicate].
    apply Forall_fmap, Forall_replicate. simpl. lia.
  - apply returns_bind; [apply read_full_returns|]. intros [] _.
    cbn [fields9p mbind result_bind]. rewrite (Dir_fields_blank zeroDir).
    apply returns_bind; [|by intros []].
    apply IH; [solve_ranked|apply nonptr_Dir_fields].
  - destruct n as [|n']; [done|]. apply returns_bind; [|done].
    apply decode_dirs_returns; [|lia]. intros rd'.
    apply (IH [VDir zeroDir]); [ranked|by repeat constructor].
  - apply returns_bind.
    { apply (IH [VInt KFcallType 0; VInt KTag 0]); [ranked|by repeat constructor]. }
    intros [vs rd1] H.
    apply (decode_accepts _ [VInt KFcallType 0; VInt KTag 0]) in H
      as (ws & -> & Hb & _); [|by repeat constructor].
    destruct ws as [|w1 [|w2 [|]]]; try done. injection Hb as H1 H2.
    apply blank_VInt in H1 as [typ ->]. apply blank_VInt in H2 as [tag ->].
    cbn [fmap list_fmap]. apply returns_bind; [apply newMessage_returns|].
    intros m [Hz _]%newMessage_inv. rewrite Hz. apply returns_bind.
    + apply (IH [VMessage m]); [ranked|by repeat constructor].
    + intros [ms rd2] Hd. destruct n as [|[|n']]; [done|lia|].
      apply decode_one in Hd as (v & stop & Hd & ->).
      by apply decode1_message_inv in Hd as (m' & -> & _).
Qed.
End Returns.

Lemma decode_returns n us rd :
  n ≠ O → ranked n (VPtr <$> us) → Forall nonptr us → returns (decode n (targets us) rd).
Proof.
  revert us rd. induction n as [|n IH]; [done|]. intros us rd _ Hr Hp.
  apply decode_each_returns. intros u rd1 Hu.
  unfold ranked in Hr. rewrite Forall_fmap in Hr. rewrite Forall_forall in Hr, Hp.
  specialize (Hr u Hu). specialize (Hp u Hu).
  destruct n as [|n].
  - destruct u; simpl in Hr; try (done || lia); [].
    cbn [blank decode1]. apply returns_bind; [apply read_full_returns|by intros []].
  - apply decode1_returns; [lia|by auto|done|done].
Qed.
