(* ===== verification/Codec.v ===== *)
(** * Codec: what the 9P2000 codec promises

    The codec as its clients see it (NewCodec, Marshal, Unmarshal, Size,
    DecodeDir, EncodeDir): the laws the message channel is proved against, as
    a class with codec9p as its instance, and the codec theorems. *)
From S2P Require Import Prelude Types Encoding EncodingFacts DecodeFacts.

Lemma codec_depth_nonzero : codec_depth ≠ O.
Proof. done. Qed.

Lemma ranked_one n v : (rank v ≤ n)%nat → ranked n [v].
Proof. intros H. constructor; [exact H|constructor]. Qed.

(** A supported value nests no deeper than the codec goes. *)
Lemma supported_rank v : supported v = true → (rank v ≤ codec_depth)%nat.
Proof.
  unfold codec_depth. destruct v as [| | | | | | | | | | | |v|]; try done; cbn; try lia.
  destruct v; try done; cbn; lia.
Qed.

Lemma marshal_wire v : (rank v ≤ codec_depth)%nat → codec9p_Marshal v = Ok (wire v).
Proof.
  intros Hr. unfold codec9p_Marshal.
  rewrite encode_spec; [by rewrite wires_one | done | by apply ranked_one].
Qed.

Lemma size_wsize v : (rank v ≤ codec_depth)%nat → codec9p_Size v = Ok (u32 (wsize v)).
Proof.
  intros Hr. unfold codec9p_Size.
  rewrite size9p_spec; [simpl; do 2 f_equal; lia | done | by apply ranked_one].
Qed.

Lemma size_fcall f : codec9p_Size (VPtr (VFcall f)) = Ok (u32 (len (wire_fcall f))).
Proof.
  rewrite size_wsize by (simpl; unfold codec_depth; lia).
  by rewrite wsize_0.
Qed.

Lemma unmarshal_wire u rest :
  nonptr u → (rank (VPtr u) ≤ codec_depth)%nat → wfv u →
  codec9p_Unmarshal (wire u ++ rest) (VPtr (blank u)) = Ok (VPtr u).
Proof.
  intros Hp Hr Hw. unfold codec9p_Unmarshal.
  pose proof (decode_wire codec_depth [u] rest codec_depth_nonzero) as E.
  rewrite wires_one in E. cbn [fmap list_fmap] in E.
  rewrite E; [done | by apply ranked_one | ].
  constructor; [exact Hw|constructor].
Qed.

(** ** The laws of a 9P2000 codec *)

Class CodecLaws (c : Codec) : Prop := {
  codec_marshal f : Marshal c (VPtr (VFcall f)) = Ok (wire_fcall f);
  codec_size f : Size c (VPtr (VFcall f)) = Ok (u32 (len (wire_fcall f)));
  codec_unmarshal f rest : wf_Fcall f →
    Unmarshal c (wire_fcall f ++ rest) (VPtr (VFcall zeroFcall)) = Ok (VPtr (VFcall f));
  codec_returns p : returns (Unmarshal c p (VPtr (VFcall zeroFcall)));
  codec_sound p v : Unmarshal c p (VPtr (VFcall zeroFcall)) = Ok v →
    ∃ f, v = VPtr (VFcall f) ∧ wf_Fcall f
}.

Lemma unmarshal_fcall_inv p v :
  codec9p_Unmarshal p (VPtr (VFcall zeroFcall)) = Ok v →
  ∃ f rest, v = VPtr (VFcall f) ∧ wf_Fcall f ∧
    (∀ m, Fcall_Message f = Some m → ¬ is_stat m → p = wire_fcall f ++ rest).
Proof.
  unfold codec9p_Unmarshal. intros H. bind_inv H. destruct a as [vs rest].
  change codec_depth with (S (S (S (5%nat)))) in Ha.
  apply decode_one in Ha as (v' & stop & Ha & ->).
  apply decode1_fcall_inv in Ha as (f & -> & Hf & Hex). simplify_eq. eauto 6.
Qed.

Lemma unmarshal_fcall_returns p : returns (codec9p_Unmarshal p (VPtr (VFcall zeroFcall))).
Proof.
  unfold codec9p_Unmarshal. apply returns_bind.
  - apply (decode_returns codec_depth [VFcall zeroFcall]); [done| |by repeat constructor].
    apply ranked_one. simpl. unfold codec_depth. lia.
  - intros [vs rest] H. change codec_depth with (S 7) in H.
    by apply decode_one in H as (v' & stop & _ & ->).
Qed.

#[export] Instance codec9p_laws : CodecLaws codec9p.
Proof.
  split; simpl.
  - intros f. apply marshal_wire. simpl. unfold codec_depth. lia.
  - apply size_fcall.
  - intros f rest Hf. apply (unmarshal_wire (VFcall f)); [done| |done].
    simpl. unfold codec_depth. lia.
  - apply unmarshal_fcall_returns.
  - intros p v (f & _ & -> & Hf & _)%unmarshal_fcall_inv. eauto.
Qed.

(** ** Theorems *)

(** C20. Encoder equivalence: the reflective encoder never fails on a value
    of the types its switch lists ([supported]), and writes exactly the bytes
    of the 9P2000 wire format, whatever the value (also out of width, where
    fields wrap).  Of other types the comment of Codec says that they throw
    an error; in the code they are ignored. *)
Theorem marshal_is_wire v :
  supported v = true → codec9p_Marshal v = Ok (wire v).
Proof. intros Hv. apply marshal_wire. by apply supported_rank. Qed.

Definition sample_dir : Dir :=
  mkDir 65535 (2 ^ 32 - 1) (mkQid 128 (2 ^ 32 - 1) (2 ^ 64 - 1)) 0x80000004
    (mkTime 1136171045 0) (mkTime 1136171045 0) (2 ^ 64 - 1) "somedir" "uid" "gid" "muid".
Definition sample_rstat : Fcall := newFcall 5556 (MessageRstat sample_dir).

Lemma marshal_is_wire_witness :
  supported (VPtr (VFcall sample_rstat)) = true ∧
  codec9p_Marshal (VPtr (VFcall sample_rstat)) = Ok (wire_fcall sample_rstat).
Proof. split; [|apply marshal_is_wire]; reflexivity. Defined.

(** C19. Round trip: a well-formed Fcall (every field in its width, the type
    that of the message) survives Marshal then Unmarshal, whatever bytes
    follow the encoding. *)
Theorem fcall_roundtrip f rest :
  wf_Fcall f →
  (p ← codec9p_Marshal (VPtr (VFcall f));
   codec9p_Unmarshal (p ++ rest) (VPtr (VFcall zeroFcall))) = Ok (VPtr (VFcall f)).
Proof.
  intros Hf. change codec9p_Marshal with (Marshal codec9p).
  rewrite codec_marshal. cbn [mbind result_bind].
  by apply (codec_unmarshal (c := codec9p)).
Qed.

Lemma fcall_roundtrip_witness :
  wf_Fcall sample_rstat ∧
  (p ← codec9p_Marshal (VPtr (VFcall sample_rstat));
   codec9p_Unmarshal (p ++ [x00; x01]) (VPtr (VFcall zeroFcall)))
  = Ok (VPtr (VFcall sample_rstat)).
Proof.
  split; [|apply fcall_roundtrip]; apply (bool_decide_unpack _); vm_compute; exact I.
Defined.

(** C23. Robustness: on any input whatever Unmarshal of an Fcall comes back
    (no run-time panic, no endless loop); what it accepts is well formed and,
    but for the two stat messages, its encoding is a prefix of the input, so
    no two Fcalls share an encoding. *)
Theorem unmarshal_robust p :
  returns (codec9p_Unmarshal p (VPtr (VFcall zeroFcall))) ∧
  ∀ v, codec9p_Unmarshal p (VPtr (VFcall zeroFcall)) = Ok v →
    ∃ f rest, v = VPtr (VFcall f) ∧ wf_Fcall f ∧
      (∀ m, Fcall_Message f = Some m → ¬ is_stat m → p = wire_fcall f ++ rest).
Proof. split; [apply unmarshal_fcall_returns|apply unmarshal_fcall_inv]. Qed.

(** ** Directory listings and single entries *)

Lemma decode_dir_wire n d rest :
  (4 ≤ n)%nat → wf_Dir d →
  decode n [VPtr (VDir zeroDir)] (wire_dir d ++ rest) = Ok ([VPtr (VDir d)], rest).
Proof.
  intros Hn Hd. pose proof (decode_wire n [VDir d] rest) as E.
  rewrite wires_one in E. apply E; [lia|by apply ranked_one|].
  constructor; [exact Hd|constructor].
Qed.

(** The loop over a listing: the entries, then what [tail] makes it stop on. *)
Lemma decode_dirs_wire n fuel ds tail :
  (4 ≤ n)%nat → Forall wf_Dir ds → (length ds < fuel)%nat →
  decode n [VPtr (VDir zeroDir)] tail = Err EOF →
  decode_dirs (decode n) fuel (concat (wire_dir <$> ds) ++ tail) = Ok ds.
Proof.
  intros Hn Hds Hf Ht. revert fuel Hf.
  induction Hds as [|d ds Hd _ IH]; intros [|fuel] Hf; simpl in Hf; try lia.
  - cbn [fmap list_fmap concat app decode_dirs]. by rewrite Ht.
  - rewrite fmap_cons. cbn [concat decode_dirs]. rewrite <-app_assoc.
    rewrite decode_dir_wire by done. rewrite IH by lia. reflexivity.
Qed.

Lemma length_wire_dirs ds : (length ds ≤ length (concat (wire_dir <$> ds)))%nat.
Proof.
  induction ds as [|d ds IH]; [done|]. rewrite fmap_cons. cbn [concat length].
  rewrite length_app. unfold wire_dir at 1. rewrite length_app, length_le_put. lia.
Qed.

Lemma decode_S n v rd :
  decode (S n) [v] rd
  = ('(v, rd, _) ← decode1 (decode n) v rd; Ok ([v], rd)).
Proof.
  cbn [decode decode_each]. by destruct (decode1 _ v rd) as [[[v' rd'] []]| | |].
Qed.

Lemma decode_VDirs n l rd :
  decode (S n) [VPtr (VDirs l)] rd
  = (ds ← decode_dirs (decode n) (S (length rd)) rd; Ok ([VPtr (VDirs ds)], [])).
Proof. cbn [decode decode_each decode1]. by destruct (decode_dirs _ _ _). Qed.

Lemma decode_uint_S n k rd :
  decode_uint (decode (S n)) k rd
  = ('(b, rd) ← read_full (Z.of_nat (kwidth k)) rd; Ok (le_get b, rd)).
Proof.
  unfold decode_uint. cbn [decode decode_each decode1].
  by destruct (read_full _ rd) as [[b rd']| | |].
Qed.

Lemma unmarshal_dirs ds tail :
  Forall wf_Dir ds →
  decode 7 [VPtr (VDir zeroDir)] tail = Err EOF →
  codec9p_Unmarshal (concat (wire_dir <$> ds) ++ tail) (VPtr (VDirs []))
  = Ok (VPtr (VDirs ds)).
Proof.
  intros Hds Ht. unfold codec9p_Unmarshal.
  change codec_depth with (S 7). rewrite decode_VDirs.
  rewrite decode_dirs_wire; [done|lia|done| |done].
  rewrite length_app. pose proof (length_wire_dirs ds). lia.
Qed.

(** Directory listings round-trip: the concatenated entries a directory
    read returns decode to the entries, in order and none lost. *)
Theorem dirs_roundtrip ds :
  Forall wf_Dir ds →
  (p ← codec9p_Marshal (VDirs ds); codec9p_Unmarshal p (VPtr (VDirs [])))
  = Ok (VPtr (VDirs ds)).
Proof.
  intros Hds. rewrite marshal_wire by (simpl; unfold codec_depth; lia).
  cbn [mbind result_bind wire wire0]. rewrite <-(app_nil_r (concat _)).
  by apply unmarshal_dirs.
Qed.

Definition sample_file : Dir :=
  mkDir 0 0 (mkQid 0 3 9) 420 (mkTime 1136171045 0) (mkTime 1136171045 0) 68
    "hello" "501" "20" "none".

Lemma dirs_roundtrip_witness :
  Forall wf_Dir [sample_dir; sample_file] ∧
  (p ← codec9p_Marshal (VDirs [sample_dir; sample_file]);
   codec9p_Unmarshal p (VPtr (VDirs []))) = Ok (VPtr (VDirs [sample_dir; sample_file])).
Proof.
  split; [|apply dirs_roundtrip]; apply (bool_decide_unpack _); vm_compute; exact I.
Defined.

(** A damaged listing is taken for its end: after an entry of size zero,
    or an entry cut after its size, the decoder reports success and drops
    everything that follows. *)
Theorem dirs_truncation_unreported ds ll rest :
  Forall wf_Dir ds → 0 < ll < 2 ^ 16 →
  codec9p_Unmarshal (concat (wire_dir <$> ds) ++ le_put 2 0 ++ rest) (VPtr (VDirs []))
    = Ok (VPtr (VDirs ds)) ∧
  codec9p_Unmarshal (concat (wire_dir <$> ds) ++ le_put 2 ll) (VPtr (VDirs []))
    = Ok (VPtr (VDirs ds)).
Proof.
  intros Hds Hll.
  split; (apply unmarshal_dirs; [done|]);
    rewrite (decode_S 6); cbn [decode1]; rewrite (decode_uint_S 5).
  - rewrite read_full_app' by done. cbn [mbind result_bind].
    change (le_get (le_put 2 0)) with 0. change rest with ([] ++ rest).
    by rewrite (read_full_app' 0 [] rest).
  - rewrite <-(app_nil_r (le_put 2 ll)).
    rewrite read_full_app' by (by rewrite len_le_put). cbn [mbind result_bind].
    rewrite le_get_put_id by (simpl; lia). unfold read_full. rewrite decide_True; [done|].
    rewrite len_nil. lia.
Qed.

Lemma dirs_truncation_unreported_witness :
  Forall wf_Dir [sample_file] ∧
  codec9p_Unmarshal (concat (wire_dir <$> [sample_file]) ++ le_put 2 0 ++ wire_dir sample_dir)
    (VPtr (VDirs [])) = Ok (VPtr (VDirs [sample_file])).
Proof.
  assert (Forall wf_Dir [sample_file]) as H
    by (apply (bool_decide_unpack _); vm_compute; exact I).
  split; [exact H|].
  exact (proj1 (dirs_truncation_unreported [sample_file] 5 (wire_dir sample_dir) H ltac:(lia))).
Defined.

Lemma DecodeDir_wire d rest :
  wf_Dir d →
  DecodeDir NewCodec (wire_dir d ++ rest)
  = if decide (len (wire_dir_body d) < 65534) then Ok (d, rest)
    else Panic "index out of range".
Proof.
  intros Hd. unfold NewCodec, DecodeDir, wire_dir.
  rewrite <-app_assoc, read_full_app' by (by rewrite len_le_put).
  cbn [mbind result_bind]. cbv zeta. pose proof (proj2 Hd) as Hl.
  pose proof (len_nonneg (wire_dir_body d)) as Hp.
  rewrite le_get_put_id by (simpl; lia).
  destruct (decide (len (wire_dir_body d) < 65534)) as [Hs|Hs].
  - rewrite (u16_small (len (wire_dir_body d) + 2)) by lia. rewrite decide_False by lia.
    rewrite read_full_app' by lia. cbn [mbind result_bind].
    change (Unmarshal codec9p) with codec9p_Unmarshal.
    pose proof (unmarshal_wire (VDir d) []) as E.
    cbn [wire wire0 blank] in E. unfold wire_dir in E. rewrite app_nil_r in E.
    rewrite E; [done|done| |exact Hd]. simpl. unfold codec_depth. lia.
  - rewrite decide_True; [done|]. unfold u16.
    replace (len (wire_dir_body d) + 2)
      with (len (wire_dir_body d) - 65534 + 1 * 2 ^ 16) by lia.
    rewrite Z.mod_add by lia. rewrite Z.mod_small; lia.
Qed.

(** DecodeDir reads back what EncodeDir wrote and leaves the reader at
    the next entry; on an entry whose size is 65534 or 65535 the buffer size
    computation wraps around and DecodeDir panics. *)
Theorem decodeDir_encodeDir d rest :
  wf_Dir d →
  (p ← EncodeDir NewCodec d; DecodeDir NewCodec (p ++ rest))
  = if decide (len (wire_dir_body d) < 65534) then Ok (d, rest)
    else Panic "index out of range".
Proof.
  intros Hd. unfold EncodeDir. change (Marshal NewCodec) with codec9p_Marshal.
  rewrite marshal_wire by (simpl; unfold codec_depth; lia).
  cbn [mbind result_bind wire wire0]. by apply DecodeDir_wire.
Qed.

Lemma decodeDir_encodeDir_witness :
  wf_Dir sample_file ∧
  (p ← EncodeDir NewCodec sample_file; DecodeDir NewCodec (p ++ [x01]))
  = Ok (sample_file, [x01]).
Proof.
  assert (wf_Dir sample_file) as H
    by (apply (bool_decide_unpack _); vm_compute; exact I).
  split; [exact H|]. exact (decodeDir_encodeDir sample_file [x01] H).
Defined.

(** Size predicts Marshal: the size of an Fcall is the number of bytes
    Marshal writes (32-bit wrap apart).  For a message given by pointer that
    holds a byte slice, the size is 4 bytes too large: the length field of
    the slice is counted twice. *)
Theorem size_predicts_marshal f m :
  codec9p_Size (VPtr (VFcall f))
    = (p ← codec9p_Marshal (VPtr (VFcall f)); Ok (u32 (len p))) ∧
  codec9p_Size (VPtr (VMessage m))
    = (p ← codec9p_Marshal (VPtr (VMessage m));
       Ok (u32 (len p + match m with MessageRread _ | MessageTwrite _ _ _ => 4 | _ => 0 end))).
Proof.
  rewrite !marshal_wire by (simpl; unfold codec_depth; lia).
  rewrite size_fcall, size_wsize by (simpl; unfold codec_depth; lia).
  split; [done|]. cbn [mbind result_bind]. unfold wsize. by destruct m.
Qed.
