(* ===== verification/Channel.v ===== *)
(** * Channel: message framing, channel.go

    A channel frames Fcalls over a connection.  The connection is its two
    byte streams: [ch_in], what the peer has sent and will send before it
    closes, and [ch_out], what has been written and flushed.  [ch_limit] is
    what is known of the end of writing: the connection takes [n] more bytes
    and then fails for good (the buffered writer keeps its error, also that
    of a write deadline), or it takes everything.  The buffered reader is
    transparent on streams.  A context is the error of its [Err] method when
    it is done.

    Every read and write has a deadline, the context's or 30 seconds from
    now.  [ReadFcall] is a read whose message comes in time; [ReadFcall_late k]
    is one at whose deadline the first [k] bytes have come: unless they are
    a whole message the read fails with a timeout, and they are lost.  A
    write whose deadline passes is a write that reaches the limit.

    The component is proved against the laws of the codec, not against its
    implementation. *)
From S2P Require Import Prelude Types Encoding EncodingFacts Codec.

Definition channelMessageHeaderSize : Z := 4.

Record channel := mkChannel {
  ch_in : bytes;
  ch_out : bytes;
  ch_limit : option (nat * error);
  ch_closed : bool;
  ch_msize : Z;
  ch_rdbuf : bytes
}.

Definition zero_bytes (n : Z) : bytes := replicate (Z.to_nat n) x00.

Definition newChannel (conn_in : bytes) (msize : Z) : channel :=
  mkChannel conn_in [] None false msize (zero_bytes msize).

Definition MSize (ch : channel) : Z := ch_msize ch.

Definition SetMSize (ch : channel) (msize : Z) : result error channel :=
  if decide (msize < len (ch_rdbuf ch)) then
    if decide (msize < 0) then Panic "slice bounds out of range"
    else Ok (mkChannel (ch_in ch) (ch_out ch) (ch_limit ch) (ch_closed ch) msize
               (take (Z.to_nat msize) (ch_rdbuf ch)))
  else Ok (mkChannel (ch_in ch) (ch_out ch) (ch_limit ch) (ch_closed ch) msize
             (zero_bytes msize)).

(** The effects of reading and writing on the channel. *)
Definition set_read (ch : channel) (rd buf : bytes) : channel :=
  mkChannel rd (ch_out ch) (ch_limit ch) (ch_closed ch) (ch_msize ch) buf.
Definition set_out (ch : channel) (out : bytes) : channel :=
  mkChannel (ch_in ch) out (ch_limit ch) (ch_closed ch) (ch_msize ch) (ch_rdbuf ch).

Definition set_limit (ch : channel) (limit : option (nat * error)) : channel :=
  mkChannel (ch_in ch) (ch_out ch) limit (ch_closed ch) (ch_msize ch) (ch_rdbuf ch).

(** What a read or write returns when its deadline has passed (the text
    leaves out the addresses). *)
Definition errTimeout : error := netError "i/o timeout" true true.

(** [readmsg rd p]: the count [n] (or the error), the contents of the buffer
    [p] and the rest of the reader. *)
Definition readmsg (rd p : bytes) : result error Z * bytes * bytes :=
  match read_full 4 rd with
  | Ok (b, rd) =>
      let n := 4 in
      let mbody := le_get b - 4 in
      if decide (mbody < 0) then (Panic "slice bounds out of range", p, rd)
      else
        let k := if decide (mbody < len p) then mbody else len p in
        match read_full k rd with
        | Ok (q, rd) =>
            let p := q ++ drop (length q) p in
            let n := n + k in
            if decide (mbody > k) then
              if decide (len rd < mbody - k) then (Err EOF, p, [])
              else (Ok (n + (mbody - k)), p, drop (Z.to_nat (mbody - k)) rd)
            else (Ok n, p, rd)
        | Err e => (Err e, rd ++ drop (length rd) p, [])
        | Panic w => (Panic w, p, rd)
        | Hang w => (Hang w, p, rd)
        end
  | Err e => (Err e, p, [])
  | Panic w => (Panic w, p, rd)
  | Hang w => (Hang w, p, rd)
  end.

(** [sendmsg wr p]: the bytes written. *)
Definition sendmsg (p : bytes) : bytes :=
  le_put 4 (u32 (len p + 4)) ++ p.

Section Channel.
Variable codec : Codec.

Definition msgmsize (fcall : Fcall) : result error Z :=
  n ← Size codec (VPtr (VFcall fcall));
  Ok (channelMessageHeaderSize + n).

Definition maybeTruncate (ch : channel) (fcall : Fcall) : result error Fcall :=
  match Fcall_Message fcall with
  | Some (MessageTread fid offset count) =>
      let resp := newFcall (Fcall_Tag fcall) (MessageRread []) in
      n ← msgmsize resp;
      let overflow := u32 (u32 (u32 n + count) - u32 (ch_msize ch)) in
      if decide (count < overflow) then Ok fcall
      else Ok (mkFcall (Fcall_Type fcall) (Fcall_Tag fcall)
                 (Some (MessageTread fid offset (u32 (count - overflow)))))
  | Some (MessageTwrite fid offset data) =>
      size ← msgmsize fcall;
      if decide (size ≤ ch_msize ch) then Ok fcall
      else
        let overflow := size - ch_msize ch in
        if decide (len data < overflow) then Err (overflowErr overflow)
        else Ok (mkFcall (Fcall_Type fcall) (Fcall_Tag fcall)
                   (Some (MessageTwrite fid offset
                            (take (Z.to_nat (len data - overflow)) data))))
  | _ =>
      size ← msgmsize fcall;
      if decide (size > ch_msize ch) then Err (overflowErr (size - ch_msize ch))
      else Ok fcall
  end.

Definition ReadFcall (ctx : option error) (ch : channel)
    : result error Fcall * channel :=
  match ctx with
  | Some e => (Err e, ch)
  | None =>
      if ch_closed ch then (Err ErrClosed, ch)
      else
        let '(r, buf, rd) := readmsg (ch_in ch) (ch_rdbuf ch) in
        let ch := set_read ch rd buf in
        (n ← r;
         if decide (n > len buf) then Err (overflowErr (n - len buf))
         else
           v ← Unmarshal codec (take (Z.to_nat n) buf) (VPtr (VFcall zeroFcall));
           match v with
           | VPtr (VFcall fcall) => maybeTruncate ch fcall
           | _ => Panic "ReadFcall: type"
           end,
         ch)
  end.

(** The deadline passes when [k] bytes have come. *)
Definition ReadFcall_late (k : nat) (ctx : option error) (ch : channel)
    : result error Fcall * channel :=
  match ctx with
  | Some e => (Err e, ch)
  | None =>
      if ch_closed ch then (Err ErrClosed, ch)
      else
        match readmsg (take k (ch_in ch)) (ch_rdbuf ch) with
        | (Err _, buf, _) => (Err errTimeout, set_read ch (drop k (ch_in ch)) buf)
        | _ => ReadFcall ctx ch
        end
  end.

(** [sendmsg] and [Flush] of a frame: what fits the limit is written, and an
    error stays. *)
Definition write_frame (ch : channel) (frame : bytes) : result error unit * channel :=
  match ch_limit ch with
  | None => (Ok (), set_out ch (ch_out ch ++ frame))
  | Some (n, e) =>
      if decide (length frame ≤ n)%nat
      then (Ok (), set_limit (set_out ch (ch_out ch ++ frame)) (Some ((n - length frame)%nat, e)))
      else (Err e, set_limit (set_out ch (ch_out ch ++ take n frame)) (Some (0%nat, e)))
  end.

Definition WriteFcall (ctx : option error) (ch : channel) (fcall : Fcall)
    : result error unit * channel :=
  match ctx with
  | Some e => (Err e, ch)
  | None =>
      if ch_closed ch then (Err ErrClosed, ch)
      else
        match (fcall ← maybeTruncate ch fcall; Marshal codec (VPtr (VFcall fcall))) with
        | Ok p => write_frame ch (sendmsg p)
        | Err e => (Err e, ch)
        | Panic w => (Panic w, ch)
        | Hang w => (Hang w, ch)
        end
  end.
End Channel.

(** ** Facts *)

Lemma wire_fcall_len tag m : len (wire_fcall (newFcall tag m)) = 3 + len (wire_message m).
Proof. unfold wire_fcall, newFcall. cbn [Fcall_Type Fcall_Tag Fcall_Message]. len_simpl. lia. Qed.

(** Size of a whole frame on the wire. *)
Definition frame_size (f : Fcall) : Z := 4 + len (wire_fcall f).

(** The message as it goes on the wire under [msize]: an Rread must fit for
    a Tread, the data of a Twrite is cut, anything else must fit. *)
Definition truncated (msize : Z) (f : Fcall) : result error Fcall :=
  match Fcall_Message f with
  | Some (MessageTread fid off cnt) =>
      Ok (mkFcall (Fcall_Type f) (Fcall_Tag f)
            (Some (MessageTread fid off (Z.min cnt (msize - 11)))))
  | Some (MessageTwrite fid off data) =>
      if decide (frame_size f ≤ msize) then Ok f
      else if decide (msize < 23) then Err (overflowErr (frame_size f - msize))
      else Ok (mkFcall (Fcall_Type f) (Fcall_Tag f)
                 (Some (MessageTwrite fid off (take (Z.to_nat (msize - 23)) data))))
  | _ => if decide (frame_size f ≤ msize) then Ok f
         else Err (overflowErr (frame_size f - msize))
  end.

(** Only the seconds of a time are on the wire, so nothing of this depends on
    the rest. *)
Lemma frame_size_carry f : frame_size (carry f) = frame_size f.
Proof. unfold frame_size. by rewrite wire_carry. Qed.

Lemma truncated_carry msize f :
  truncated msize (carry f) = (f' ← truncated msize f; Ok (carry f')).
Proof.
  unfold truncated. rewrite frame_size_carry.
  destruct f as [typ tag [m|]]; cbn [carry Fcall_Message Fcall_Type Fcall_Tag];
    [|by repeat case_decide].
  destruct m; cbn [carry_Message fmap option_fmap option_map]; repeat case_decide; done.
Qed.

Section Facts.
Context (codec : Codec) `{!CodecLaws codec}.

Lemma msgmsize_wire f : frame_size f < 2 ^ 32 → msgmsize codec f = Ok (frame_size f).
Proof.
  intros Hs. unfold msgmsize. rewrite codec_size. cbn [mbind result_bind].
  unfold frame_size in *. pose proof (len_nonneg (wire_fcall f)).
  by rewrite u32_small by lia.
Qed.

(** The overflow arithmetic of a Tread, done modulo 2^32, is a minimum. *)
Lemma tread_overflow msize cnt :
  11 ≤ msize < 2 ^ 32 → 0 ≤ cnt < 2 ^ 32 →
  let overflow := u32 (u32 (u32 11 + cnt) - u32 msize) in
  if decide (cnt < overflow) then cnt ≤ msize - 11
  else u32 (cnt - overflow) = Z.min cnt (msize - 11).
Proof.
  intros Hm Hc overflow.
  assert (overflow = (11 + cnt - msize) mod 2 ^ 32) as E.
  { subst overflow. unfold u32. by rewrite Zminus_mod_idemp_l, Zminus_mod_idemp_r. }
  rewrite E. destruct (decide (11 + cnt < msize)) as [Hlt|Hge].
  - replace (11 + cnt - msize) with (2 ^ 32 + 11 + cnt - msize + (-1) * 2 ^ 32) by lia.
    rewrite Z.mod_add by lia. rewrite Z.mod_small by lia.
    rewrite decide_True by lia. lia.
  - rewrite Z.mod_small by lia. rewrite decide_False by lia.
    rewrite u32_small by lia. lia.
Qed.

Lemma maybeTruncate_truncated ch f :
  11 ≤ ch_msize ch < 2 ^ 32 → frame_size f < 2 ^ 32 →
  (∀ fid off cnt, Fcall_Message f = Some (MessageTread fid off cnt) → in_width 32 cnt) →
  maybeTruncate codec ch f = truncated (ch_msize ch) f.
Proof.
  intros Hm Hs Hw. unfold maybeTruncate, truncated.
  pose proof (msgmsize_wire f Hs) as Hf.
  destruct f as [typ tag [m|]]; cbn [Fcall_Message Fcall_Type Fcall_Tag] in *.
  2:{ rewrite Hf. simpl. repeat case_decide; done || lia. }
  destruct m; rewrite ?Hf; cbn [mbind result_bind];
    try (repeat case_decide; first [done | lia]).
  - rewrite msgmsize_wire by (unfold frame_size; rewrite wire_fcall_len; by compute).
    cbn [mbind result_bind]. cbv zeta.
    change (frame_size (newFcall tag (MessageRread []))) with 11.
    specialize (Hw _ _ _ eq_refl). pose proof (tread_overflow _ _ Hm Hw) as Ht.
    cbv zeta in Ht. case_decide; [by rewrite Z.min_l|by rewrite Ht].
  - case_decide; [done|]. unfold frame_size, wire_fcall in *.
    cbn [Fcall_Message Fcall_Type Fcall_Tag wire_message] in *. unfold wire_data in *.
    len_simpl. repeat case_decide; try lia; [done|]. do 6 f_equal. lia.
Qed.
End Facts.

Lemma len_take {A} n (l : list A) : 0 ≤ n ≤ len l → len (take (Z.to_nat n) l) = n.
Proof. unfold len. intros. rewrite length_take. lia. Qed.

(** A whole frame is consumed, whether or not it fits the buffer. *)
Lemma readmsg_sendmsg body rest p :
  len body + 4 < 2 ^ 32 →
  readmsg (sendmsg body ++ rest) p
  = (Ok (len body + 4), take (length p) body ++ drop (length body) p, rest).
Proof.
  intros Hs. unfold readmsg, sendmsg. rewrite <-app_assoc.
  rewrite read_full_app' by (by rewrite len_le_put).
  pose proof (len_nonneg body) as Hb. rewrite u32_small by lia.
  rewrite le_get_put_id by (simpl; lia).
  replace (len body + 4 - 4) with (len body) by lia. cbv zeta.
  rewrite decide_False by lia.
  destruct (decide (len body < len p)) as [Hlt|Hge].
  - rewrite read_full_app, decide_False by lia.
    rewrite take_ge by (unfold len in Hlt; lia). do 3 f_equal. lia.
  - assert (length p ≤ length body)%nat as Hl by (unfold len in *; lia).
    rewrite <-(take_drop (length p) body) at 1. rewrite <-app_assoc.
    rewrite read_full_app' by (unfold len; rewrite length_take; lia).
    rewrite length_take, Nat.min_l by lia. rewrite drop_all, app_nil_r.
    rewrite (drop_ge p (length body)), app_nil_r by lia.
    destruct (decide (len body > len p)) as [Hgt|Heq].
    + rewrite decide_False by (unfold len in *; rewrite length_app, length_drop; lia).
      rewrite drop_len_app by (unfold len in *; rewrite length_drop; lia).
      do 3 f_equal. lia.
    + rewrite (drop_ge body) by (unfold len in *; lia). do 3 f_equal. lia.
Qed.

(** The buffer keeps its length. *)
Lemma readmsg_length rd p r p' rd' : readmsg rd p = (r, p', rd') → length p' = length p.
Proof.
  unfold readmsg. destruct (read_full 4 rd) as [[b rd1]|e|w|w]; [|by intros [= _ <- _]..]. cbv zeta.
  case_decide as Hb; [by intros [= _ <- _]|].
  set (k := if decide (le_get b - 4 < len p) then le_get b - 4 else len p).
  assert (0 ≤ k ≤ len p) as Hk by (subst k; pose proof (len_nonneg p); case_decide; lia).
  clearbody k. unfold read_full. unfold len in *. destruct (decide (Z.of_nat (length rd1) < k)).
  - destruct rd1; intros [= _ <- _]; cbn in *; [by rewrite drop_0|].
    rewrite length_app, length_drop. lia.
  - assert (length (take (Z.to_nat k) rd1 ++ drop (length (take (Z.to_nat k) rd1)) p) = length p) as E.
    { rewrite length_app, length_drop, length_take. lia. }
    repeat case_decide; by intros [= _ <- _].
Qed.

Definition set_in (ch : channel) (rd : bytes) : channel := set_read ch rd (ch_rdbuf ch).

Section ReadWrite.
Context (codec : Codec) `{!CodecLaws codec}.

Lemma ReadFcall_frame ch f rest :
  ch_closed ch = false → wf_Fcall f → frame_size f ≤ len (ch_rdbuf ch) →
  len (ch_rdbuf ch) < 2 ^ 32 →
  ∃ buf, length buf = length (ch_rdbuf ch) ∧
    ReadFcall codec None (set_in ch (sendmsg (wire_fcall f) ++ rest))
    = (maybeTruncate codec (set_read ch rest buf) f, set_read ch rest buf).
Proof.
  intros Hc Hf Hs Hb. unfold frame_size in Hs. unfold ReadFcall, set_in.
  cbn [ch_closed ch_in ch_rdbuf set_read]. rewrite Hc.
  rewrite readmsg_sendmsg by lia.
  set (buf := take (length (ch_rdbuf ch)) (wire_fcall f) ++
              drop (length (wire_fcall f)) (ch_rdbuf ch)).
  assert (length buf = length (ch_rdbuf ch)) as Hbuf.
  { subst buf. unfold len in *. rewrite length_app, length_take, length_drop. lia. }
  exists buf. split; [done|].
  assert (len buf = len (ch_rdbuf ch)) as Hlen by (unfold len; by rewrite Hbuf).
  cbn [mbind result_bind]. rewrite decide_False by lia.
  assert (∃ stale, take (Z.to_nat (len (wire_fcall f) + 4)) buf = wire_fcall f ++ stale)
    as [stale ->].
  { subst buf. rewrite (take_ge (wire_fcall f)) by (unfold len in *; lia).
    rewrite take_app_ge by (unfold len in *; lia). eauto. }
  by rewrite codec_unmarshal.
Qed.

Lemma ReadFcall_overflow ch body rest :
  ch_closed ch = false → len body + 4 < 2 ^ 32 → len (ch_rdbuf ch) < len body + 4 →
  ∃ buf, length buf = length (ch_rdbuf ch) ∧
    ReadFcall codec None (set_in ch (sendmsg body ++ rest))
    = (Err (overflowErr (len body + 4 - len (ch_rdbuf ch))), set_read ch rest buf).
Proof.
  intros Hc Hs Ho. unfold ReadFcall, set_in. cbn [ch_closed ch_in ch_rdbuf set_read].
  rewrite Hc, readmsg_sendmsg by lia.
  set (buf := take (length (ch_rdbuf ch)) body ++ drop (length body) (ch_rdbuf ch)).
  assert (length buf = length (ch_rdbuf ch)) as Hbuf.
  { subst buf. rewrite length_app, length_take, length_drop. lia. }
  exists buf. split; [done|]. cbn [mbind result_bind].
  assert (len buf = len (ch_rdbuf ch)) as -> by (unfold len; by rewrite Hbuf).
  by rewrite decide_True by lia.
Qed.

(** At its deadline a read is the read of a whole message, or it fails and
    what has come is lost. *)
Lemma ReadFcall_late_cases k ctx ch :
  ReadFcall_late codec k ctx ch = ReadFcall codec ctx ch ∨
  ∃ buf, length buf = length (ch_rdbuf ch) ∧
    ReadFcall_late codec k ctx ch = (Err errTimeout, set_read ch (drop k (ch_in ch)) buf).
Proof.
  unfold ReadFcall_late. destruct ctx as [e|]; [by left|]. unfold ReadFcall.
  destruct (ch_closed ch); [by left|].
  destruct (readmsg (take k (ch_in ch)) (ch_rdbuf ch)) as [[r buf] rd] eqn:E.
  destruct r; [by left| |by left..]. right. exists buf. split; [by eapply readmsg_length|done].
Qed.

(** A write leaves what is to be read. *)
Lemma WriteFcall_in ctx ch f : ch_in (snd (WriteFcall codec ctx ch f)) = ch_in ch.
Proof. unfold WriteFcall, write_frame. repeat case_match; done. Qed.

(** A read that times out before a byte has come changes nothing. *)
Lemma ReadFcall_late_idle k ch :
  ch_closed ch = false → take k (ch_in ch) = [] →
  ReadFcall_late codec k None ch = (Err errTimeout, ch).
Proof.
  intros Hc Hk. unfold ReadFcall_late. rewrite Hc, Hk. cbn. f_equal.
  assert (drop k (ch_in ch) = ch_in ch) as ->
    by (rewrite <-(take_drop k (ch_in ch)) at 2; by rewrite Hk).
  by destruct ch.
Qed.

(** The truncated message fits, and truncating again changes nothing. *)
Lemma truncated_fits msize f f' :
  23 ≤ msize → truncated msize f = Ok f' → frame_size f' ≤ msize.
Proof.
  intros Hm H. unfold truncated in H. destruct f as [typ tag om].
  cbn [Fcall_Message Fcall_Type Fcall_Tag] in H.
  destruct om as [[]|]; repeat case_decide; simplify_eq; try done;
    unfold frame_size, wire_fcall; cbn [Fcall_Message Fcall_Type Fcall_Tag wire_message];
    unfold wire_data; len_simpl; try lia.
  unfold frame_size, wire_fcall in *.
  cbn [Fcall_Message Fcall_Type Fcall_Tag wire_message] in *. unfold wire_data in *.
  len_simpl. rewrite len_take by lia. lia.
Qed.

Lemma truncated_idemp msize f f' :
  23 ≤ msize → truncated msize f = Ok f' → truncated msize f' = Ok f'.
Proof.
  intros Hm H. pose proof (truncated_fits _ _ _ Hm H) as Hfit.
  unfold truncated in *. destruct f as [typ tag om].
  cbn [Fcall_Message Fcall_Type Fcall_Tag] in H.
  destruct om as [[]|]; repeat case_decide; simplify_eq/=; try (done || lia).
  do 4 f_equal. lia.
Qed.

Lemma truncated_wf msize f f' :
  11 ≤ msize → wf_Fcall f → truncated msize f = Ok f' → wf_Fcall f'.
Proof.
  intros Hm Hf H. unfold truncated in H. destruct f as [typ tag [m|]]; [|by destruct Hf].
  destruct Hf as [Ht [Hty Hw]].
  cbn [Fcall_Message Fcall_Type Fcall_Tag] in *.
  destruct m; repeat case_decide; simplify_eq; try done;
    (split; [done|]; split; [done|]); unfold wf_Message in *;
    cbn [Message_fields] in *; rewrite !Forall_cons in *.
  - destruct Hw as (H1 & H2 & Hc & Hn). refine (conj H1 (conj H2 (conj _ Hn))).
    simpl in *. lia.
  - destruct Hw as (Hf & Ho & Hd & Hn). refine (conj Hf (conj Ho (conj _ Hn))).
    simpl in *. unfold len in *. rewrite length_take. lia.
Qed.

Lemma WriteFcall_wire ch f f' :
  ch_closed ch = false → ch_limit ch = None → maybeTruncate codec ch f = Ok f' →
  WriteFcall codec None ch f = (Ok (), set_out ch (ch_out ch ++ sendmsg (wire_fcall f'))).
Proof.
  intros Hc Hw Ht. unfold WriteFcall. rewrite Hc, Ht. cbn [mbind result_bind].
  rewrite codec_marshal. unfold write_frame. by rewrite Hw.
Qed.

Lemma wf_Tread_count f fid off cnt :
  wf_Fcall f → Fcall_Message f = Some (MessageTread fid off cnt) → in_width 32 cnt.
Proof.
  destruct f as [typ tag om]. intros [_ Hm] E. cbn [Fcall_Message] in *. subst om.
  destruct Hm as [_ Hm]. unfold wf_Message in Hm. cbn [Message_fields] in Hm.
  rewrite !Forall_cons in Hm. apply Hm.
Qed.
End ReadWrite.

(** Side conditions of [maybeTruncate_truncated]. *)
Ltac solve_truncated :=
  first [ done | lia | cbn [ch_msize set_read set_out]; lia
        | intros; eapply wf_Tread_count; [|eassumption]; assumption ].

(** ** Theorems *)

(** A channel ready for use: open, writable, its buffer as large as msize,
    msize no smaller than a Tread and at most 32 bits. *)
Definition ready (ch : channel) : Prop :=
  ch_closed ch = false ∧ ch_limit ch = None ∧ len (ch_rdbuf ch) = ch_msize ch ∧
  23 ≤ ch_msize ch < 2 ^ 32.
#[export] Instance ready_dec ch : Decision (ready ch).
Proof. unfold ready. apply _. Defined.

(** A message that msize leaves unchanged: written as it is, read as it is. *)
Lemma write_plain codec `{!CodecLaws codec} ch f :
  ready ch → wf_Fcall f → truncated (ch_msize ch) f = Ok f →
  WriteFcall codec None ch f = (Ok (), set_out ch (ch_out ch ++ sendmsg (wire_fcall f))).
Proof.
  intros (Hc & He & Hb & Hm) Hf Ht. apply WriteFcall_wire; [done|done|done|].
  pose proof (truncated_fits _ _ _ (proj1 Hm) Ht).
  by rewrite maybeTruncate_truncated by solve_truncated.
Qed.

Lemma read_plain codec `{!CodecLaws codec} ch f rest :
  ready ch → wf_Fcall f → truncated (ch_msize ch) f = Ok f →
  ∃ buf, length buf = length (ch_rdbuf ch) ∧
    ReadFcall codec None (set_in ch (sendmsg (wire_fcall f) ++ rest))
    = (Ok f, set_read ch rest buf).
Proof.
  intros (Hc & He & Hb & Hm) Hf Ht.
  pose proof (truncated_fits _ _ _ (proj1 Hm) Ht).
  destruct (ReadFcall_frame codec ch f rest) as (buf & Hbuf & Hrd); [done|done|lia|lia|].
  exists buf. split; [done|]. rewrite Hrd. f_equal.
  by rewrite maybeTruncate_truncated by solve_truncated.
Qed.

Lemma ready_set_read ch rd buf :
  ready ch → length buf = length (ch_rdbuf ch) → ready (set_read ch rd buf).
Proof.
  intros (Hc & He & Hb & Hm) Hbuf. unfold ready, len in *.
  cbn [set_read ch_closed ch_limit ch_rdbuf ch_msize]. rewrite Hbuf. done.
Qed.

Lemma ready_set_out ch out : ready ch → ready (set_out ch out).
Proof. done. Qed.

(** C24. Framing round trip: what one end writes under an agreed msize the
    other end reads back, as the message cut to that msize; the frame is no
    longer than msize, and the reader is left at the byte after it. *)
Theorem write_read_roundtrip codec `{!CodecLaws codec} w r f f' rest :
  ready w → ready r → ch_msize r = ch_msize w →
  wf_Fcall f → frame_size f < 2 ^ 32 → truncated (ch_msize w) f = Ok f' →
  ∃ frame w' r',
    WriteFcall codec None w f = (Ok (), w') ∧ ch_out w' = ch_out w ++ frame ∧
    len frame ≤ ch_msize w ∧
    ReadFcall codec None (set_in r (frame ++ rest)) = (Ok f', r') ∧
    ch_in r' = rest ∧ ready r'.
Proof.
  intros (Hc & He & Hb & Hm) (Hc' & He' & Hb' & Hm') Hms Hf Hs Ht.
  assert (frame_size f' ≤ ch_msize w) as Hfit by (eapply truncated_fits; [lia|done]).
  assert (wf_Fcall f') as Hf' by (eapply truncated_wf; [|done|done]; lia).
  destruct (ReadFcall_frame codec r f' rest) as (buf & Hbuf & Hrd); [done|done|lia|lia|].
  exists (sendmsg (wire_fcall f')), (set_out w (ch_out w ++ sendmsg (wire_fcall f'))),
    (set_read r rest buf).
  split_and!; try done.
  - apply WriteFcall_wire; [done|done|done|].
    by rewrite maybeTruncate_truncated by solve_truncated.
  - unfold sendmsg. rewrite len_app, len_le_put. unfold frame_size in Hfit. lia.
  - rewrite Hrd. f_equal.
    rewrite maybeTruncate_truncated by solve_truncated.
    cbn [ch_msize set_read]. rewrite Hms. apply (truncated_idemp _ f); [lia|done].
  - unfold ready. cbn [set_read ch_closed ch_limit ch_rdbuf ch_msize].
    unfold len. rewrite Hbuf. done.
Qed.

Definition sample_write : Fcall := newFcall 7 (MessageTwrite 1 0 (replicate 40 x41)).

Lemma write_read_roundtrip_witness :
  ∃ frame w' r',
    WriteFcall codec9p None (newChannel [] 32) sample_write = (Ok (), w') ∧
    ch_out w' = frame ∧ len frame ≤ 32 ∧
    ReadFcall codec9p None (set_in (newChannel [] 32) (frame ++ [x05]))
      = (Ok (newFcall 7 (MessageTwrite 1 0 (replicate 9 x41))), r') ∧
    ch_in r' = [x05] ∧ ready r'.
Proof.
  apply (write_read_roundtrip codec9p (newChannel [] 32) (newChannel [] 32) sample_write
           (newFcall 7 (MessageTwrite 1 0 (replicate 9 x41))) [x05]);
    [ apply (bool_decide_unpack _); vm_compute; exact I
    | apply (bool_decide_unpack _); vm_compute; exact I
    | reflexivity
    | apply (bool_decide_unpack _); vm_compute; exact I
    | vm_compute; reflexivity
    | vm_compute; reflexivity ].
Defined.

(** C37. Nothing too long is sent: a successful WriteFcall appends one frame
    of at most msize bytes, whose size field is its length; on an error
    (overflow included) not a byte is sent. *)
Theorem write_bounded codec `{!CodecLaws codec} ch f :
  ready ch → wf_Fcall f → frame_size f < 2 ^ 32 →
  match WriteFcall codec None ch f with
  | (Ok _, ch') => ∃ body, ch' = set_out ch (ch_out ch ++ le_put 4 (len body + 4) ++ body) ∧
                           len body + 4 ≤ ch_msize ch
  | (Err e, ch') => ch' = ch ∧ 0 < Overflow e
  | _ => False
  end.
Proof.
  intros (Hc & He & Hb & Hm) Hf Hs.
  assert (maybeTruncate codec ch f = truncated (ch_msize ch) f) as Ht.
  { apply maybeTruncate_truncated; solve_truncated. }
  destruct (truncated (ch_msize ch) f) as [f'|e| |] eqn:E.
  - rewrite (WriteFcall_wire codec ch f f') by done.
    pose proof (truncated_fits _ _ _ (proj1 Hm) E) as Hfit. unfold frame_size in Hfit.
    exists (wire_fcall f'). split; [|lia]. unfold sendmsg.
    pose proof (len_nonneg (wire_fcall f')). by rewrite u32_small by lia.
  - unfold WriteFcall. rewrite Hc, Ht. split; [done|].
    unfold truncated in E. destruct f as [typ tag [[]|]];
      repeat case_decide; simplify_eq; cbn [Fcall_Message] in *; simplify_eq/=; lia.
  - unfold truncated in E. destruct f as [typ tag [[]|]]; repeat case_decide; by simplify_eq/=.
  - unfold truncated in E. destruct f as [typ tag [[]|]]; repeat case_decide; by simplify_eq/=.
Qed.

Lemma write_bounded_witness :
  match WriteFcall codec9p None (newChannel [] 32) sample_write with
  | (Ok _, ch') => ∃ body,
      ch' = set_out (newChannel [] 32) (ch_out (newChannel [] 32) ++ le_put 4 (len body + 4) ++ body) ∧
      len body + 4 ≤ ch_msize (newChannel [] 32)
  | (Err e, ch') => ch' = newChannel [] 32 ∧ 0 < Overflow e
  | _ => False
  end.
Proof.
  apply write_bounded;
    [ apply codec9p_laws
    | apply (bool_decide_unpack _); vm_compute; exact I
    | apply (bool_decide_unpack _); vm_compute; exact I
    | vm_compute; reflexivity ].
Defined.

(** C38. Resynchronisation: a frame too large for the buffer is reported as
    an overflow by its excess and consumed whole, so the frame that follows
    is read as if nothing had happened. *)
Theorem read_resync codec `{!CodecLaws codec} ch body f rest :
  ready ch → len body + 4 < 2 ^ 32 → ch_msize ch < len body + 4 →
  wf_Fcall f → frame_size f ≤ ch_msize ch → truncated (ch_msize ch) f = Ok f →
  ∃ ch1 ch2,
    ReadFcall codec None (set_in ch (sendmsg body ++ sendmsg (wire_fcall f) ++ rest))
      = (Err (overflowErr (len body + 4 - ch_msize ch)), ch1) ∧
    ReadFcall codec None ch1 = (Ok f, ch2) ∧ ch_in ch2 = rest.
Proof.
  intros (Hc & He & Hb & Hm) Hs Ho Hf Hfit Ht.
  destruct (ReadFcall_overflow codec ch body (sendmsg (wire_fcall f) ++ rest))
    as (buf & Hbuf & Hrd); [done|done|lia|]. rewrite Hb in Hrd.
  assert (len buf = ch_msize ch) as Hlen by (unfold len; rewrite Hbuf; apply Hb).
  set (ch1 := set_read ch (sendmsg (wire_fcall f) ++ rest) buf) in *.
  destruct (ReadFcall_frame codec ch1 f rest) as (buf2 & Hbuf2 & Hrd2);
    [done|done|simpl; lia|simpl; lia|].
  exists ch1, (set_read ch1 rest buf2). split_and!; [done| |done].
  change (set_in ch1 (sendmsg (wire_fcall f) ++ rest)) with ch1 in Hrd2. rewrite Hrd2.
  f_equal. subst ch1. by rewrite maybeTruncate_truncated by solve_truncated.
Qed.

Definition sample_clunk : Fcall := newFcall 3 (MessageTclunk 9).

Lemma read_resync_witness :
  ∃ ch1 ch2,
    ReadFcall codec9p None
      (set_in (newChannel [] 32) (sendmsg (replicate 50 x41) ++ sendmsg (wire_fcall sample_clunk) ++ [x01]))
      = (Err (overflowErr 22), ch1) ∧
    ReadFcall codec9p None ch1 = (Ok sample_clunk, ch2) ∧ ch_in ch2 = [x01].
Proof.
  apply (read_resync codec9p (newChannel [] 32) (replicate 50 x41) sample_clunk [x01]);
    [ apply (bool_decide_unpack _); vm_compute; exact I
    | vm_compute; reflexivity
    | vm_compute; reflexivity
    | apply (bool_decide_unpack _); vm_compute; exact I
    | vm_compute; discriminate
    | vm_compute; reflexivity ].
Defined.

(** A frame whose size field is below 4 makes readmsg slice its buffer
    at a negative bound: ReadFcall panics on four bytes from the peer. *)
Theorem read_runt_panics codec ch size rest :
  ch_closed ch = false → 0 ≤ size < 4 →
  fst (ReadFcall codec None (set_in ch (le_put 4 size ++ rest)))
  = Panic "slice bounds out of range".
Proof.
  intros Hc Hs. unfold ReadFcall, set_in. cbn [ch_closed ch_in ch_rdbuf set_read].
  rewrite Hc. unfold readmsg.
  rewrite read_full_app' by (by rewrite len_le_put).
  rewrite le_get_put_id by (simpl; lia). cbv zeta. by rewrite decide_True by lia.
Qed.

Lemma read_runt_panics_witness :
  fst (ReadFcall codec9p None (set_in (newChannel [] 64) (le_put 4 3 ++ [])))
  = Panic "slice bounds out of range".
Proof. apply read_runt_panics; [reflexivity|lia]. Defined.

(** readmsg counts the size field in [n] but stores the body alone, so
    ReadFcall decodes four bytes too many, left in the buffer by an earlier
    message: a frame with a one-byte body, the type Tflush, is accepted with
    its tag and old tag taken from those stale bytes. *)
Theorem read_stale_bytes ch b0 t0 t1 o0 o1 buf rest :
  ready ch → ch_rdbuf ch = b0 :: t0 :: t1 :: o0 :: o1 :: buf →
  fst (ReadFcall codec9p None (set_in ch (sendmsg [byte_of_Z Tflush] ++ rest)))
  = Ok (newFcall (le_get [t0; t1]) (MessageTflush (le_get [o0; o1]))).
Proof.
  intros (Hc & He & Hb & Hm) Hbuf. unfold ReadFcall, set_in.
  cbn [ch_closed ch_in ch_rdbuf set_read]. rewrite Hc, readmsg_sendmsg by (compute; done).
  rewrite Hbuf. cbn [fst]. change (len [byte_of_Z Tflush] + 4) with 5.
  cbn [length take app drop mbind result_bind].
  rewrite decide_False by (rewrite !len_cons; pose proof (len_nonneg buf); lia).
  change (Z.to_nat 5) with 5%nat. cbn [take].
  set (f := newFcall (le_get [t0; t1]) (MessageTflush (le_get [o0; o1]))).
  assert (byte_of_Z Tflush :: t0 :: t1 :: o0 :: o1 :: take 0 buf = wire_fcall f ++ []) as ->.
  { rewrite app_nil_r. unfold wire_fcall, f, newFcall.
    cbn [Fcall_Type Fcall_Tag Fcall_Message Type_ wire_message].
    pose proof (le_put_get [t0; t1]) as E1. pose proof (le_put_get [o0; o1]) as E2.
    cbn [length] in E1, E2. rewrite E1, E2. reflexivity. }
  assert (wf_Fcall f) as Hf.
  { split; [apply (le_get_range [t0; t1])|]. split; [done|].
    constructor; [apply (le_get_range [o0; o1])|constructor]. }
  assert (frame_size f = 9) as Hfs.
  { unfold frame_size, f. rewrite wire_fcall_len. cbn [wire_message]. by rewrite len_le_put. }
  rewrite codec_unmarshal by done. cbn [mbind result_bind].
  rewrite (maybeTruncate_truncated codec9p) by solve_truncated.
  unfold truncated. cbn [Fcall_Message f newFcall ch_msize set_read].
  by rewrite Hfs, decide_True by lia.
Qed.

Lemma read_stale_bytes_witness :
  fst (ReadFcall codec9p None
         (set_in (mkChannel [] [] None false 24
            (x78 :: x07 :: x00 :: x09 :: x00 :: zero_bytes 19)) (sendmsg [byte_of_Z Tflush] ++ [])))
  = Ok (newFcall 7 (MessageTflush 9)).
Proof.
  apply (read_stale_bytes (mkChannel [] [] None false 24
            (x78 :: x07 :: x00 :: x09 :: x00 :: zero_bytes 19)) x78 x07 x00 x09 x00
            (zero_bytes 19) []);
    [apply (bool_decide_unpack _); vm_compute; exact I | reflexivity].
Defined.
