(* ===== verification/Version.v ===== *)
(** * Version: version negotiation, version.go

    [clientnegotiate] and [servernegotiate] as state-passing functions on
    their channel. *)
From S2P Require Import Prelude Types Encoding EncodingFacts Codec Channel.

Section Version.
Variable codec : Codec.

Definition clientnegotiate (ctx : option error) (ch : channel) (version : string)
    : result error string * channel :=
  let req := newFcall NOTAG (MessageTversion (u32 (MSize ch)) version) in
  match WriteFcall codec ctx ch req with
  | (Ok _, ch) =>
      match ReadFcall codec ctx ch with
      | (Ok resp, ch) =>
          match Fcall_Message resp with
          | Some (MessageRversion msize v) =>
              if decide (v ≠ version)
              then (Err (errorString ("unsupported server version: " +:+ version)), ch)
              else if decide (msize < MSize ch)
              then match SetMSize ch msize with
                   | Ok ch => (Ok v, ch)
                   | Err e => (Err e, ch)
                   | Panic w => (Panic w, ch)
                   | Hang w => (Hang w, ch)
                   end
              else (Ok v, ch)
          | Some (MessageRerror e) => (Err (E9p e), ch)
          | _ => (Err ErrUnexpectedMsg, ch)
          end
      | (Err e, ch) => (Err e, ch)
      | (Panic w, ch) => (Panic w, ch)
      | (Hang w, ch) => (Hang w, ch)
      end
  | (Err e, ch) => (Err e, ch)
  | (Panic w, ch) => (Panic w, ch)
  | (Hang w, ch) => (Hang w, ch)
  end.

Definition servernegotiate (ctx : option error) (ch : channel) (version : string)
    : result error unit * channel :=
  match ReadFcall codec ctx ch with
  | (Ok req, ch) =>
      match Fcall_Message req with
      | Some (MessageTversion mv_msize mv_version) =>
          let resp_version := if decide (mv_version ≠ version) then "9P2000" else version in
          match
            (if decide (mv_msize < MSize ch)
             then (ch ← SetMSize ch mv_msize; Ok (ch, mv_msize))
             else Ok (ch, u32 (MSize ch)))
          with
          | Ok (ch, resp_msize) =>
              let resp := newFcall NOTAG (MessageRversion resp_msize resp_version) in
              match WriteFcall codec ctx ch resp with
              | (Ok _, ch) =>
                  if decide (resp_version = "unknown")
                  then (Err (errorString "bad version negotiation"), ch)
                  else (Ok (), ch)
              | (r, ch) => (r, ch)
              end
          | Err e => (Err e, ch)
          | Panic w => (Panic w, ch)
          | Hang w => (Hang w, ch)
          end
      | _ => (Err (errorString "expected version message: {0 }"), ch)
      end
  | (Err e, ch) => (Err e, ch)
  | (Panic w, ch) => (Panic w, ch)
  | (Hang w, ch) => (Hang w, ch)
  end.
End Version.

(** ** Facts *)

Definition Tversion_msg (msize : Z) (v : string) : Fcall :=
  newFcall NOTAG (MessageTversion msize v).
Definition Rversion_msg (msize : Z) (v : string) : Fcall :=
  newFcall NOTAG (MessageRversion msize v).

Lemma version_msgs_wf ms v :
  in_width 32 ms → slen v < 2 ^ 16 →
  wf_Fcall (Tversion_msg ms v) ∧ wf_Fcall (Rversion_msg ms v).
Proof.
  intros. split; (split; [by compute|]; split; [done|]);
    (constructor; [done|]; constructor; [done|constructor]).
Qed.

Lemma version_msgs_fit msize ms v :
  13 + slen v ≤ msize →
  truncated msize (Tversion_msg ms v) = Ok (Tversion_msg ms v) ∧
  truncated msize (Rversion_msg ms v) = Ok (Rversion_msg ms v).
Proof.
  intros Hv. unfold truncated, Tversion_msg, Rversion_msg, frame_size.
  rewrite !wire_fcall_len. cbn [wire_message newFcall Fcall_Message].
  unfold wire_string. len_simpl. split; by rewrite decide_True by (simpl; lia).
Qed.

(** Lowering msize keeps the channel ready. *)
Lemma SetMSize_lower ch ms :
  ready ch → 23 ≤ ms < ch_msize ch →
  ∃ ch', SetMSize ch ms = Ok ch' ∧ ready ch' ∧ ch_msize ch' = ms ∧
         ch_in ch' = ch_in ch ∧ ch_out ch' = ch_out ch.
Proof.
  intros (Hc & He & Hb & Hm) Hms. unfold SetMSize.
  rewrite decide_True, decide_False by lia. eexists. split; [done|].
  unfold ready. cbn. split_and!; try done; try lia.
  rewrite len_take; lia.
Qed.

Section Facts.
Context (codec : Codec) `{!CodecLaws codec}.

(** The server's side, given a version request. *)
Lemma servernegotiate_ok s cm v sv rest :
  ready s → 23 ≤ cm < 2 ^ 32 → slen v ≤ 10 → sv = "9P2000" →
  ∃ s', servernegotiate codec None
          (set_in s (sendmsg (wire_fcall (Tversion_msg cm v)) ++ rest)) sv = (Ok (), s') ∧
    ready s' ∧ ch_msize s' = Z.min cm (ch_msize s) ∧ ch_in s' = rest ∧
    ch_out s' = ch_out s ++
      sendmsg (wire_fcall (Rversion_msg (Z.min cm (ch_msize s)) "9P2000")).
Proof.
  intros Hs Hcm Hv ->. pose proof Hs as (_ & _ & _ & Hm).
  destruct (version_msgs_wf cm v) as [Hwf _]; [split; lia|lia|].
  destruct (version_msgs_fit (ch_msize s) cm v) as [Hfit _]; [lia|].
  destruct (read_plain codec s _ rest Hs Hwf Hfit) as (buf & Hbuf & Hrd).
  unfold servernegotiate. rewrite Hrd. cbn [Tversion_msg newFcall Fcall_Message].
  assert ((if decide (v ≠ "9P2000") then "9P2000" else "9P2000") = "9P2000") as ->
    by (by destruct (decide _)).
  pose proof (ready_set_read s rest buf Hs Hbuf) as Hs1.
  set (s1 := set_read s rest buf) in *. change (MSize s1) with (ch_msize s).
  assert (∃ s2, (if decide (cm < ch_msize s)
                 then ch ← SetMSize s1 cm; Ok (ch, cm)
                 else Ok (s1, u32 (ch_msize s))) = Ok (s2, Z.min cm (ch_msize s)) ∧
           ready s2 ∧ ch_msize s2 = Z.min cm (ch_msize s) ∧
           ch_in s2 = rest ∧ ch_out s2 = ch_out s) as (s2 & -> & Hs2 & Hm2 & Hi2 & Ho2).
  { case_decide as Hlt.
    - destruct (SetMSize_lower s1 cm Hs1) as (s2 & -> & H2 & Hm2 & Hi2 & Ho2);
        [subst s1; simpl; lia|].
      exists s2. rewrite Z.min_l by lia. done.
    - exists s1. rewrite Z.min_r, u32_small by lia. done. }
  destruct (version_msgs_wf (Z.min cm (ch_msize s)) "9P2000") as [_ Hwf2];
    [split; lia|by compute|].
  destruct (version_msgs_fit (ch_msize s2) (Z.min cm (ch_msize s)) "9P2000")
    as [_ Hfit2]; [rewrite Hm2; change (slen "9P2000") with 6; lia|].
  unfold Rversion_msg in *. rewrite (write_plain codec s2 _ Hs2 Hwf2 Hfit2).
  eexists. split; [done|]. cbn. by rewrite Ho2.
Qed.

(** The client's side, given the reply. *)
Lemma clientnegotiate_ok c ms v rv rest :
  ready c → 23 ≤ ms ≤ ch_msize c → slen v ≤ 10 → slen rv ≤ 10 →
  ∃ c', clientnegotiate codec None
          (set_in c (sendmsg (wire_fcall (Rversion_msg ms rv)) ++ rest)) v
        = (if decide (rv ≠ v)
           then Err (errorString ("unsupported server version: " +:+ v)) else Ok v, c') ∧
    ready c' ∧ ch_msize c' = (if decide (rv ≠ v) then ch_msize c else ms) ∧
    ch_in c' = rest ∧
    ch_out c' = ch_out c ++ sendmsg (wire_fcall (Tversion_msg (ch_msize c) v)).
Proof.
  intros Hc Hms Hv Hrv. pose proof Hc as (_ & _ & _ & Hm).
  set (c0 := set_in c _). assert (ready c0) as Hc0 by exact Hc.
  destruct (version_msgs_wf (ch_msize c) v) as [Hwf _]; [split; lia|lia|].
  destruct (version_msgs_wf ms rv) as [_ Hwf2]; [split; lia|lia|].
  destruct (version_msgs_fit (ch_msize c) (ch_msize c) v) as [Hfit _]; [lia|].
  destruct (version_msgs_fit (ch_msize c) ms rv) as [_ Hfit2]; [lia|].
  unfold clientnegotiate. change (MSize c0) with (ch_msize c).
  rewrite u32_small by lia. fold (Tversion_msg (ch_msize c) v).
  rewrite (write_plain codec c0 _ Hc0 Hwf Hfit).
  set (c1 := set_out c0 _). assert (ready c1) as Hc1 by exact Hc.
  destruct (read_plain codec c1 _ rest Hc1 Hwf2 Hfit2) as (buf & Hbuf & Hrd).
  change (set_in c1 (sendmsg (wire_fcall (Rversion_msg ms rv)) ++ rest)) with c1 in Hrd.
  rewrite Hrd. cbn [Rversion_msg newFcall Fcall_Message].
  pose proof (ready_set_read c1 rest buf Hc1 Hbuf) as Hc2.
  set (c2 := set_read c1 rest buf) in *. change (MSize c2) with (ch_msize c).
  destruct (decide (rv ≠ v)) as [Hne|Heq]; [by exists c2|].
  apply dec_stable in Heq. subst rv. case_decide as Hlt.
  - destruct (SetMSize_lower c2 ms Hc2) as (c3 & -> & H3 & Hm3 & Hi3 & Ho3);
      [subst c2; simpl; lia|].
    exists c3. rewrite Hi3, Ho3. done.
  - exists c2. assert (ms = ch_msize c) as -> by lia. done.
Qed.
End Facts.

(** ** Theorems *)

(** C31. Negotiation: a client and a server of this package agree.  From the
    version request the client writes, the server answers; from that answer
    the client succeeds with version 9P2000; both ends then run with the
    smaller of their two msizes, buffers resized to it, and neither has
    consumed a byte beyond the exchange. *)
Theorem negotiation_agrees codec `{!CodecLaws codec} c s crest srest :
  ready c → ready s →
  ∃ req resp c' s',
    clientnegotiate codec None (set_in c (resp ++ crest)) DefaultVersion
      = (Ok DefaultVersion, c') ∧ ch_out c' = ch_out c ++ req ∧ ch_in c' = crest ∧
    servernegotiate codec None (set_in s (req ++ srest)) DefaultVersion = (Ok (), s') ∧
    ch_out s' = ch_out s ++ resp ∧ ch_in s' = srest ∧
    ready c' ∧ ready s' ∧
    ch_msize c' = Z.min (ch_msize c) (ch_msize s) ∧
    ch_msize s' = Z.min (ch_msize c) (ch_msize s).
Proof.
  intros Hc Hs. pose proof Hc as (_ & _ & _ & Hcm). pose proof Hs as (_ & _ & _ & Hsm).
  set (ms := Z.min (ch_msize c) (ch_msize s)).
  destruct (servernegotiate_ok codec s (ch_msize c) DefaultVersion DefaultVersion srest)
    as (s' & Hns & Hs' & Hms' & Hi' & Ho'); [done|lia|by compute|done|].
  destruct (clientnegotiate_ok codec c ms DefaultVersion DefaultVersion crest)
    as (c' & Hnc & Hc' & Hmc' & Hci' & Hco'); [done|lia|by compute|by compute|].
  exists (sendmsg (wire_fcall (Tversion_msg (ch_msize c) DefaultVersion))),
    (sendmsg (wire_fcall (Rversion_msg ms DefaultVersion))), c', s'.
  by split_and!.
Qed.

Lemma negotiation_agrees_witness :
  ready (newChannel [] 100) ∧ ready (newChannel [] 64) ∧
  ∃ req resp c' s',
    clientnegotiate codec9p None (set_in (newChannel [] 100) (resp ++ [])) DefaultVersion
      = (Ok DefaultVersion, c') ∧ ch_out c' = ch_out (newChannel [] 100) ++ req ∧ ch_in c' = [] ∧
    servernegotiate codec9p None (set_in (newChannel [] 64) (req ++ [])) DefaultVersion = (Ok (), s') ∧
    ch_out s' = ch_out (newChannel [] 64) ++ resp ∧ ch_in s' = [] ∧
    ready c' ∧ ready s' ∧
    ch_msize c' = Z.min (ch_msize (newChannel [] 100)) (ch_msize (newChannel [] 64)) ∧
    ch_msize s' = Z.min (ch_msize (newChannel [] 100)) (ch_msize (newChannel [] 64)).
Proof.
  assert (ready (newChannel [] 100)) as H1
    by (apply (bool_decide_unpack _); vm_compute; exact I).
  assert (ready (newChannel [] 64)) as H2
    by (apply (bool_decide_unpack _); vm_compute; exact I).
  split; [exact H1|]. split; [exact H2|].
  exact (negotiation_agrees codec9p (newChannel [] 100) (newChannel [] 64) [] [] H1 H2).
Defined.
