(* ===== verification/Path.v ===== *)
(** * Path: path validation and composition, path.go

    The functions of package [strings] and [path] the code calls are written
    out first, then path.go.  The specification is on lists of components:
    an internal path is [render comps] for valid components [comps], and
    WalkName, CreateName, NormalizePath and ToWalk are proved to compute the
    obvious operations on component lists. *)
From S2P Require Import Prelude Types.
From Stdlib Require Import Ascii.

(** ** Package strings *)

Definition slash : ascii := "/"%char.
Definition backslash : ascii := ascii_of_nat 92.

(** [strings.Contains(s, c)] for a one-byte [c]. *)
Fixpoint contains_byte (c : ascii) (s : string) : bool :=
  match s with
  | EmptyString => false
  | String a s => bool_decide (a = c) || contains_byte c s
  end.

(** [strings.ContainsAny(s, "\\/")] *)
Definition contains_sep (s : string) : bool :=
  contains_byte backslash s || contains_byte slash s.

(** [strings.Count(s, "/")] *)
Fixpoint count_slash (s : string) : Z :=
  match s with
  | EmptyString => 0
  | String a s => (if decide (a = slash) then 1 else 0) + count_slash s
  end.

(** [strings.Split(s, "/")] *)
Fixpoint split_slash (s : string) : list string :=
  match s with
  | EmptyString => [""]
  | String a s =>
      if decide (a = slash) then "" :: split_slash s
      else match split_slash s with
           | w :: ws => String a w :: ws
           | [] => [String a ""]
           end
  end.

(** [strings.Join(ss, "/")] *)
Fixpoint join_slash (ss : list string) : string :=
  match ss with
  | [] => ""
  | [s] => s
  | s :: ss => s +:+ "/" +:+ join_slash ss
  end.

(** [strings.Trim(s, "/")] *)
Fixpoint trim_left (s : string) : string :=
  match s with
  | String a s' => if decide (a = slash) then trim_left s' else s
  | EmptyString => ""
  end.
Fixpoint trim_right (s : string) : string :=
  match s with
  | EmptyString => ""
  | String a s' =>
      match trim_right s' with
      | EmptyString => if decide (a = slash) then "" else String a ""
      | t => String a t
      end
  end.
Definition trim_slash (s : string) : string := trim_right (trim_left s).

(** [s[:len(s)-1]]; it panics on the empty string. *)
Fixpoint drop_last (s : string) : option string :=
  match s with
  | EmptyString => None
  | String a EmptyString => Some ""
  | String a s => String a <$> drop_last s
  end.

(** ** Package path *)

Definition IsAbs (p : string) : bool :=
  match p with String a _ => bool_decide (a = slash) | EmptyString => false end.

(** One element of [path.Clean]; [out] is the output, last element first. *)
Definition clean_step (rooted : bool) (out : list string) (e : string) : list string :=
  if decide (e = "" ∨ e = ".") then out
  else if decide (e = "..") then
    match out with
    | [] => if rooted then [] else [".."]
    | top :: rest => if decide (top = "..") then ".." :: out else rest
    end
  else e :: out.

Definition Clean (p : string) : string :=
  if decide (p = "") then "."
  else
    let rooted := IsAbs p in
    let out := foldl (clean_step rooted) [] (split_slash p) in
    let s := (if rooted then "/" else "") +:+ join_slash (rev out) in
    if decide (s = "") then "." else s.

Fixpoint join_buf (buf : string) (elems : list string) : string :=
  match elems with
  | [] => buf
  | e :: es =>
      if decide (buf ≠ "" ∨ e ≠ "")
      then join_buf ((if decide (buf ≠ "") then buf +:+ "/" else buf) +:+ e) es
      else join_buf buf es
  end.

(** [path.Join(elems...)] *)
Definition Join (elems : list string) : string :=
  if decide (Forall (λ e, e = "") elems) then "" else Clean (join_buf "" elems).

(** ** path.go *)

(** The loop of [ValidPath]: [i] is the index, [n] the leading [..] so far. *)
Fixpoint ValidPath_loop (i n : Z) (args : list string) : Z :=
  match args with
  | [] => n
  | s :: args =>
      if decide (s = "" ∨ s = ".") then -1
      else if decide (s = "..") then
        if decide (n ≠ i) then -1 else ValidPath_loop (i + 1) (n + 1) args
      else if contains_sep s then -1
      else ValidPath_loop (i + 1) n args
  end.

Definition ValidPath (args : list string) : Z := ValidPath_loop 0 0 args.

Definition WalkName (dir : string) (names : list string) : result error string :=
  match drop_last dir with
  | None => Panic "slice bounds out of range"
  | Some d =>
      let depth := count_slash d in
      let bsp := ValidPath names in
      if decide (bsp < 0 ∨ bsp > depth) then Err (E9p "Invalid path")
      else Ok (Join [dir; Join names])
  end.

Definition CreateName (dir name : string) : result error string :=
  if decide (contains_sep name = true ∨ name = "" ∨ name = "." ∨ name = "..")
  then Err (E9p "Invalid path")
  else Ok (Join [dir; name]).

(** The loop of [NormalizePath]; [ans] is [ans[:cursor]]. *)
Fixpoint NormalizePath_loop (ans : list string) (lo : Z) (args : list string)
    : option (list string) * Z :=
  match args with
  | [] => (Some ans, lo)
  | s :: args =>
      if contains_sep s then (None, -1)
      else if decide (s = "" ∨ s = ".") then NormalizePath_loop ans lo args
      else if decide (s = "..") then
        if decide (len ans > lo)
        then NormalizePath_loop (take (length ans - 1) ans) lo args
        else NormalizePath_loop (ans ++ [s]) (lo + 1) args
      else NormalizePath_loop (ans ++ [s]) lo args
  end.

(** The cleaned path (nil in case of error) and the leading [..] count. *)
Definition NormalizePath (args : list string) : option (list string) * Z :=
  NormalizePath_loop [] 0 args.

Definition ToWalk (p : string) : bool * result error (list string) :=
  let isAbs := IsAbs p in
  let '(steps, bsp) := NormalizePath (split_slash (trim_slash p)) in
  let invalid := Err (E9p ("invalid path: " +:+ p)) in
  let ok := Ok (default [] steps) in
  if isAbs then (true, if decide (bsp ≠ 0) then invalid else ok)
  else (false, if decide (bsp < 0) then invalid else ok).

(** ** Specification: component lists *)

Definition valid_elem (s : string) : Prop :=
  s ≠ "" ∧ s ≠ "." ∧ s ≠ ".." ∧ contains_sep s = false.
#[export] Instance valid_elem_dec s : Decision (valid_elem s).
Proof. unfold valid_elem. apply _. Defined.

(** The internal path of a list of components. *)
Definition render (comps : list string) : string := "/" +:+ join_slash comps.

(** The leading [..] of a list of names. *)
Fixpoint dotdots (names : list string) : nat :=
  match names with
  | s :: names => if decide (s = "..") then S (dotdots names) else 0
  | [] => 0
  end.

Definition valid_names (names : list string) : Prop :=
  Forall valid_elem (drop (dotdots names) names).
#[export] Instance valid_names_dec names : Decision (valid_names names).
Proof. unfold valid_names. apply _. Defined.

(** Walking: drop one component per leading [..], then append the rest. *)
Definition walk_comps (comps names : list string) : list string :=
  take (length comps - dotdots names) comps ++ drop (dotdots names) names.

(** ** Lemmas on strings *)

Lemma sapp_assoc (a b c : string) : (a +:+ b) +:+ c = a +:+ (b +:+ c).
Proof. induction a as [|x a IH]; [done|]. exact (f_equal (String x) IH). Qed.
Lemma sapp_nil_r (a : string) : a +:+ "" = a.
Proof. induction a as [|x a IH]; [done|]. exact (f_equal (String x) IH). Qed.

Lemma split_slash_ne s : split_slash s ≠ [].
Proof. destruct s; cbn [split_slash]; [done|]. case_decide; [done|]. by case_match. Qed.

Lemma split_slash_app s t : split_slash (s +:+ "/" +:+ t) = split_slash s ++ split_slash t.
Proof.
  induction s as [|a s IH]; [done|].
  change (String a s +:+ "/" +:+ t) with (String a (s +:+ "/" +:+ t)).
  cbn [split_slash]. rewrite IH. case_decide; [done|].
  pose proof (split_slash_ne s). by destruct (split_slash s).
Qed.

Lemma split_slash_none s : contains_byte slash s = false → split_slash s = [s].
Proof.
  induction s as [|a s IH]; [done|]. cbn [contains_byte split_slash].
  intros [Ha Hs]%orb_false_iff. apply bool_decide_eq_false in Ha.
  by rewrite decide_False, IH.
Qed.

Lemma split_join ss :
  ss ≠ [] → Forall (λ s, contains_byte slash s = false) ss →
  split_slash (join_slash ss) = ss.
Proof.
  intros Hne. induction 1 as [|s ss Hs Hss IH]; [done|].
  destruct ss as [|s' ss]; [by apply split_slash_none|].
  change (join_slash (s :: s' :: ss)) with (s +:+ "/" +:+ join_slash (s' :: ss)).
  by rewrite split_slash_app, IH, split_slash_none.
Qed.

Lemma valid_elem_noslash s : valid_elem s → contains_byte slash s = false.
Proof. intros (_ & _ & _ & H). by apply orb_false_iff in H as [_ H]. Qed.

Lemma join_slash_nonempty ss : ss ≠ [] → Forall (λ s, s ≠ "") ss → join_slash ss ≠ "".
Proof.
  intros Hne Hss. destruct Hss as [|s ss Hs _]; [done|].
  destruct ss; cbn [join_slash]; [done|]. by destruct s.
Qed.

(** ** path.Clean and path.Join on component lists *)

Lemma foldl_push rooted out comps :
  Forall valid_elem comps → foldl (clean_step rooted) out comps = rev comps ++ out.
Proof.
  intros H. revert out. induction H as [|s ss Hs Hss IH]; intros out; [done|].
  cbn [foldl rev]. rewrite IH. destruct Hs as (H1 & H2 & H3 & _).
  unfold clean_step. rewrite !decide_False by naive_solver.
  by rewrite <-app_assoc.
Qed.

(** [..] steps pop components of a rooted path. *)
Lemma foldl_pop k out :
  Forall valid_elem out →
  foldl (clean_step true) out (replicate k "..") = drop k out.
Proof.
  revert out. induction k as [|k IH]; intros out Hout; [done|].
  cbn [replicate foldl]. destruct Hout as [|s out (H1 & H2 & H3 & _) Hout].
  - change (clean_step true [] "..") with (@nil string).
    rewrite IH by constructor. by rewrite !drop_nil.
  - unfold clean_step at 2. rewrite decide_False, decide_True by naive_solver.
    rewrite decide_False by done. by apply IH.
Qed.

Lemma foldl_dotdot k j :
  foldl (clean_step false) (replicate j "..") (replicate k "..") = replicate (j + k) "..".
Proof.
  revert j. induction k as [|k IH]; intros j; [by rewrite Nat.add_0_r|].
  cbn [replicate foldl].
  assert (clean_step false (replicate j "..") ".." = replicate (S j) "..") as ->.
  { unfold clean_step. rewrite decide_False by naive_solver. by destruct j. }
  rewrite IH. f_equal. lia.
Qed.

Lemma dotdots_split names :
  names = replicate (dotdots names) ".." ++ drop (dotdots names) names.
Proof.
  induction names as [|s names IH]; [done|]. cbn [dotdots].
  case_decide as H; [|done]. subst s. cbn [replicate drop app]. by f_equal.
Qed.

Lemma names_ok names : valid_names names →
  Forall (λ s, contains_byte slash s = false) names ∧ Forall (λ s, s ≠ "") names.
Proof.
  intros H. rewrite (dotdots_split names).
  split; apply Forall_app; split; try (by apply Forall_replicate);
    (eapply Forall_impl; [exact H|]).
  - apply valid_elem_noslash.
  - by intros s (? & _).
Qed.

Lemma join_buf_nonempty buf elems :
  buf ≠ "" → join_buf buf elems = foldl (λ b e, b +:+ "/" +:+ e) buf elems.
Proof.
  revert buf. induction elems as [|e es IH]; intros buf Hb; [done|].
  cbn [join_buf foldl]. rewrite decide_True by auto. rewrite decide_True by auto.
  rewrite sapp_assoc. apply IH. by destruct buf.
Qed.

Lemma foldl_join_slash buf elems :
  foldl (λ b e, b +:+ "/" +:+ e) buf elems = join_slash (buf :: elems).
Proof.
  revert buf. induction elems as [|e es IH]; intros buf; [done|].
  cbn [foldl]. rewrite IH. destruct es; [done|].
  cbn [join_slash]. by rewrite !sapp_assoc.
Qed.

Lemma join_buf_join elems : Forall (λ s, s ≠ "") elems → join_buf "" elems = join_slash elems.
Proof.
  intros [|e es He Hes]; [done|]. cbn [join_buf].
  rewrite decide_True by auto. rewrite decide_False by (intros []; done).
  change ("" +:+ e) with e. by rewrite join_buf_nonempty, foldl_join_slash.
Qed.

Lemma foldl_names names :
  valid_names names → foldl (clean_step false) [] names = rev names.
Proof.
  unfold valid_names. pose proof (dotdots_split names) as E. revert E.
  generalize (drop (dotdots names) names). generalize (dotdots names). intros k r -> Hr.
  rewrite foldl_app. change (@nil string) with (replicate 0 "..").
  rewrite foldl_dotdot, foldl_push, rev_app_distr by done. f_equal.
  by rewrite rev_alt, <-reverse_replicate.
Qed.

(** Joining names that pass ValidPath leaves them as they are. *)
Lemma Join_names names : valid_names names → Join names = join_slash names.
Proof.
  intros Hv. destruct (names_ok names Hv) as [Hs He].
  destruct (decide (names = [])) as [->|Hne]; [done|].
  unfold Join. rewrite decide_False.
  2:{ intros Hall. destruct names as [|s names]; [done|].
      apply Forall_cons in Hall as [-> _]. by apply Forall_cons in He as [He _]. }
  rewrite join_buf_join by done. unfold Clean.
  pose proof (join_slash_nonempty names Hne He) as Hj.
  rewrite decide_False by done.
  assert (IsAbs (join_slash names) = false) as ->.
  { destruct names as [|[|a s] names]; [done| |].
    - by apply Forall_cons in He as [He _].
    - apply Forall_cons in Hs as [Hs _]. cbn [contains_byte] in Hs.
      apply orb_false_iff in Hs as [Hs _]. by destruct names. }
  rewrite split_join, foldl_names, rev_involutive by done. cbv zeta.
  change ("" +:+ join_slash names) with (join_slash names).
  by rewrite decide_False.
Qed.

Lemma count_slash_app s t : count_slash (s +:+ t) = count_slash s + count_slash t.
Proof.
  induction s as [|a s IH]; [done|].
  change (String a s +:+ t) with (String a (s +:+ t)). cbn [count_slash]. lia.
Qed.
Lemma count_slash_none s : contains_byte slash s = false → count_slash s = 0.
Proof.
  induction s as [|a s IH]; [done|]. cbn [contains_byte count_slash].
  intros [Ha Hs]%orb_false_iff. apply bool_decide_eq_false in Ha.
  rewrite decide_False by done. by rewrite IH.
Qed.

Lemma drop_last_app t w d :
  w ≠ "" → drop_last w = Some d → drop_last (t +:+ w) = Some (t +:+ d).
Proof.
  intros Hw Hd. induction t as [|a t IH]; [done|].
  change (String a t +:+ w) with (String a (t +:+ w)). cbn [drop_last].
  destruct (t +:+ w) as [|b u] eqn:E; [by destruct t, w|]. by rewrite IH.
Qed.

Lemma drop_last_noslash w :
  w ≠ "" → contains_byte slash w = false →
  ∃ d, drop_last w = Some d ∧ contains_byte slash d = false.
Proof.
  induction w as [|a w IH]; [done|]. intros _ [Ha Hs]%orb_false_iff.
  destruct w as [|b w]; [by exists ""|].
  destruct IH as (d & Hd & Hds); [done|done|].
  exists (String a d). change (drop_last (String a (String b w)))
    with (String a <$> drop_last (String b w)). rewrite Hd. split; [done|].
  cbn [contains_byte]. by rewrite Ha, Hds.
Qed.

Lemma render_snoc comps s : comps ≠ [] → render (comps ++ [s]) = render comps +:+ "/" +:+ s.
Proof.
  intros Hne. unfold render. rewrite sapp_assoc. f_equal.
  induction comps as [|c comps IH]; [done|].
  destruct comps as [|c' comps]; [done|].
  change ((c :: c' :: comps) ++ [s]) with (c :: (c' :: comps) ++ [s]).
  cbn [join_slash]. cbn [app] in *. rewrite IH by done. by rewrite !sapp_assoc.
Qed.

(** The depth WalkName computes is the number of components. *)
Lemma depth_render comps :
  Forall valid_elem comps →
  ∃ d, drop_last (render comps) = Some d ∧ count_slash d = len comps.
Proof.
  intros H. destruct comps as [|s comps _] using rev_ind; [by exists ""|].
  apply Forall_app in H as [Hc [Hs _]%Forall_cons].
  pose proof (valid_elem_noslash s Hs) as Hn. destruct Hs as (Hse & _).
  destruct (drop_last_noslash s Hse Hn) as (d & Hd & Hds).
  destruct (decide (comps = [])) as [->|Hne].
  - exists ("/" +:+ d). split; [by apply (drop_last_app "/")|].
    rewrite count_slash_app, (count_slash_none d) by done. done.
  - rewrite render_snoc by done. exists (render comps +:+ "/" +:+ d).
    split; [rewrite <-!sapp_assoc; by apply drop_last_app|].
    rewrite !count_slash_app, (count_slash_none d), len_app by done.
    assert (count_slash (render comps) = len comps) as ->; [|done].
    clear -Hc Hne. unfold render. rewrite count_slash_app. change (count_slash "/") with 1.
    induction Hc as [|c comps Hc Hcs IH]; [done|].
    destruct comps as [|c' comps].
    + cbn [join_slash]. by rewrite count_slash_none by (by apply valid_elem_noslash).
    + change (join_slash (c :: c' :: comps)) with (c +:+ "/" +:+ join_slash (c' :: comps)).
      rewrite !count_slash_app, (count_slash_none c) by (by apply valid_elem_noslash).
      change (count_slash "/") with 1. rewrite (len_cons c), <-IH by done. lia.
Qed.

(** ** ValidPath *)

Lemma valid_names_not_dotdot s names : s ≠ ".." → valid_names (s :: names) ↔ Forall valid_elem (s :: names).
Proof. intros H. unfold valid_names. cbn [dotdots]. by rewrite decide_False. Qed.

Lemma ValidPath_loop_rest i n args :
  n < i → ValidPath_loop i n args = if decide (Forall valid_elem args) then n else -1.
Proof.
  revert i. induction args as [|s args IH]; intros i Hi; [by rewrite decide_True|].
  cbn [ValidPath_loop]. destruct (decide (s = "" ∨ s = ".")) as [H|H].
  { rewrite decide_False; [done|]. intros [(? & ? & _) _]%Forall_cons. naive_solver. }
  destruct (decide (s = "..")) as [->|Hdd].
  { rewrite decide_True by lia. rewrite decide_False; [done|].
    by intros [(? & ? & ? & _) _]%Forall_cons. }
  destruct (contains_sep s) eqn:Hs.
  { rewrite decide_False; [done|]. intros [(? & ? & ? & E) _]%Forall_cons. congruence. }
  rewrite IH by lia.
  assert (Forall valid_elem (s :: args) ↔ Forall valid_elem args) as Hiff.
  { rewrite Forall_cons. unfold valid_elem at 1. naive_solver. }
  by rewrite (decide_ext _ _ _ _ Hiff).
Qed.

Lemma ValidPath_loop_lead n args :
  ValidPath_loop n n args
  = if decide (valid_names args) then n + Z.of_nat (dotdots args) else -1.
Proof.
  revert n. induction args as [|s args IH]; intros n.
  { rewrite decide_True by constructor. simpl. lia. }
  cbn [ValidPath_loop]. destruct (decide (s = "..")) as [->|Hdd].
  - rewrite decide_False by naive_solver. rewrite decide_False by lia. rewrite IH.
    cbn [dotdots]. rewrite (decide_True (P := ".." = "..")) by done.
    destruct (decide (valid_names args)) as [Hv|Hv];
      [rewrite decide_True by exact Hv|rewrite decide_False by exact Hv]; lia.
  - pose proof (ValidPath_loop_rest (n + 1) n (s :: args) ltac:(lia)) as E.
    cbn [ValidPath_loop] in E. rewrite (decide_False (P := s = "..")) in E by done.
    rewrite (decide_ext _ _ _ _ (valid_names_not_dotdot s args Hdd)).
    cbn [dotdots]. rewrite (decide_False (P := s = "..")) by done.
    rewrite Z.add_0_r, <-E. destruct (decide (s = "" ∨ s = ".")); [done|].
    destruct (contains_sep s); [done|]. by rewrite !ValidPath_loop_rest by lia.
Qed.

Lemma ValidPath_spec names :
  ValidPath names = if decide (valid_names names) then Z.of_nat (dotdots names) else -1.
Proof. unfold ValidPath. by rewrite ValidPath_loop_lead, Z.add_0_l. Qed.

(** ** Walking on component lists *)

Lemma Join_walk comps names :
  Forall valid_elem comps → valid_names names →
  Join [render comps; join_slash names] = render (walk_comps comps names).
Proof.
  intros Hc Hv. unfold Join. rewrite decide_False.
  2:{ by intros [? _]%Forall_cons. }
  cbn [join_buf]. rewrite decide_True by (left + right; done).
  rewrite (decide_False (P := "" ≠ "")) by auto.
  change ("" +:+ render comps) with (render comps).
  rewrite decide_True by auto. rewrite decide_True by done. rewrite sapp_assoc.
  unfold Clean. rewrite decide_False by done.
  change (IsAbs (render comps +:+ "/" +:+ join_slash names)) with true. cbv zeta.
  rewrite split_slash_app.
  assert (foldl (clean_step true) [] (split_slash (render comps)) = rev comps) as E1.
  { unfold render. change ("/" +:+ join_slash comps) with ("" +:+ "/" +:+ join_slash comps).
    rewrite split_slash_app. cbn [split_slash app foldl].
    change (clean_step true [] "") with (@nil string).
    destruct comps as [|c comps]; [done|].
    rewrite split_join; [by rewrite foldl_push, app_nil_r|done|].
    eapply Forall_impl; [exact Hc|apply valid_elem_noslash]. }
  rewrite foldl_app, E1.
  assert (foldl (clean_step true) (rev comps) (split_slash (join_slash names))
          = rev (walk_comps comps names)) as ->.
  { destruct (names_ok names Hv) as [Hns Hne].
    transitivity (foldl (clean_step true) (rev comps) names).
    { destruct names as [|n0 names]; [done|]. by rewrite split_join. }
    unfold walk_comps, valid_names in *. pose proof (dotdots_split names) as E. revert E Hv.
    generalize (drop (dotdots names) names). generalize (dotdots names).
    intros k r -> Hr. rewrite foldl_app, foldl_pop, foldl_push, rev_app_distr by
      (try apply Forall_rev; done). f_equal.
    apply skipn_rev. }
  rewrite rev_involutive. by rewrite decide_False.
Qed.

Lemma walk_comps_valid comps names :
  Forall valid_elem comps → valid_names names → Forall valid_elem (walk_comps comps names).
Proof. intros. apply Forall_app. split; [by apply Forall_take|done]. Qed.

(** Walking one name at a time: [""] and [.] stay, [..] goes up and fails at
    the root, any other name goes down. *)
Definition step_comps (comps : list string) (s : string) : option (list string) :=
  if decide (s = "" ∨ s = ".") then Some comps
  else if decide (s = "..") then
    if decide (comps = []) then None else Some (take (length comps - 1) comps)
  else Some (comps ++ [s]).

Fixpoint steps_comps (comps : list string) (names : list string) : option (list string) :=
  match names with
  | [] => Some comps
  | s :: names => c ← step_comps comps s; steps_comps c names
  end.

Lemma dotdots_replicate k r :
  Forall valid_elem r → dotdots (replicate k ".." ++ r) = k.
Proof.
  intros Hr. induction k as [|k IH].
  - destruct Hr as [|s r (_ & _ & H & _) _]; [done|]. cbn [replicate app dotdots].
    by rewrite decide_False.
  - cbn [replicate app dotdots]. by rewrite decide_True, IH.
Qed.

Lemma walk_comps_split comps k r :
  Forall valid_elem r →
  walk_comps comps (replicate k ".." ++ r) = take (length comps - k) comps ++ r.
Proof.
  intros Hr. unfold walk_comps. rewrite dotdots_replicate by done.
  by rewrite drop_len_app by (by rewrite length_replicate).
Qed.

Lemma valid_names_split k r : Forall valid_elem r → valid_names (replicate k ".." ++ r).
Proof.
  intros Hr. unfold valid_names. rewrite dotdots_replicate by done.
  by rewrite drop_len_app by (by rewrite length_replicate).
Qed.

(** ** NormalizePath

    The loop keeps [ans] as [lo] leading [..] followed by valid elements [r];
    such a path leads from [comps] to [denotes lo r comps]. *)

Definition no_sep (args : list string) : Prop := Forall (λ s, contains_sep s = false) args.
#[export] Instance no_sep_dec args : Decision (no_sep args).
Proof. unfold no_sep. apply _. Defined.

Definition denotes (lo : nat) (r comps : list string) : option (list string) :=
  if decide (lo ≤ length comps)%nat then Some (take (length comps - lo) comps ++ r) else None.

Lemma NormalizePath_loop_reject ans lo args :
  ¬ no_sep args → NormalizePath_loop ans lo args = (None, -1).
Proof.
  revert ans lo. induction args as [|s args IH]; intros ans lo H; [by destruct H; constructor|].
  cbn [NormalizePath_loop]. destruct (contains_sep s) eqn:Hs; [done|].
  assert (¬ no_sep args) by (intros ?; apply H; by constructor).
  repeat case_decide; by apply IH.
Qed.

Lemma step_comps_pop c x : step_comps (c ++ [x]) ".." = Some c.
Proof.
  unfold step_comps. rewrite decide_False by naive_solver. rewrite decide_True by done.
  rewrite decide_False by (by intros [_ ?]%app_eq_nil).
  by rewrite length_app, Nat.add_sub, take_len_app.
Qed.

Lemma denotes_up lo comps :
  (c ← denotes lo [] comps; step_comps c "..") = denotes (S lo) [] comps.
Proof.
  unfold denotes. destruct (decide (lo ≤ length comps)%nat) as [Hl|Hl]; cbn [mbind option_bind].
  2:{ by rewrite decide_False by lia. }
  rewrite !app_nil_r. unfold step_comps. rewrite decide_False by naive_solver.
  rewrite decide_True by done. case_decide as He.
  - apply (f_equal length) in He. rewrite length_take in He. cbn in He.
    by rewrite decide_False by lia.
  - assert (lo ≠ length comps) by (intros ->; by rewrite Nat.sub_diag in He).
    rewrite decide_True, length_take, take_take by lia. do 2 f_equal. lia.
Qed.

(** One iteration keeps the shape and takes one step. *)
Lemma NormalizePath_loop_step lo r s :
  Forall valid_elem r → contains_sep s = false →
  ∃ lo1 r1, Forall valid_elem r1 ∧
    (∀ args, NormalizePath_loop (replicate lo ".." ++ r) (Z.of_nat lo) (s :: args)
             = NormalizePath_loop (replicate lo1 ".." ++ r1) (Z.of_nat lo1) args) ∧
    ∀ comps, (c ← denotes lo r comps; step_comps c s) = denotes lo1 r1 comps.
Proof.
  intros Hr Hs. cbn [NormalizePath_loop]. rewrite Hs.
  destruct (decide (s = "" ∨ s = ".")) as [H0|H0].
  { exists lo, r. split_and!; try done. intros comps. unfold denotes.
    case_decide; [|done]. cbn [mbind option_bind]. unfold step_comps.
    by rewrite decide_True by done. }
  destruct (decide (s = "..")) as [->|Hdd].
  2:{ exists lo, (r ++ [s]). split_and!.
      - apply Forall_app. split; [done|]. constructor; [|constructor].
        unfold valid_elem. naive_solver.
      - intros. by rewrite <-app_assoc.
      - intros comps. unfold denotes. case_decide; [|done]. cbn. unfold step_comps.
        rewrite !decide_False by done. by rewrite app_assoc. }
  rewrite len_app. change (len (replicate lo "..")) with (Z.of_nat (length (replicate lo ".."))).
  rewrite length_replicate. destruct r as [|x r _] using rev_ind.
  - exists (S lo), []. split_and!; [done| |apply denotes_up]. intros args.
    rewrite decide_False by (rewrite len_nil; lia).
    rewrite !app_nil_r. change [".."] with (replicate 1 "..").
    rewrite <-replicate_add. f_equal; [f_equal|]; lia.
  - apply Forall_app in Hr as [Hr Hx]. exists lo, r. split_and!; [done| |].
    + intros args. rewrite decide_True by (len_simpl; pose proof (len_nonneg r); lia).
      by rewrite app_assoc, length_app, Nat.add_sub, take_len_app.
    + intros comps. unfold denotes. case_decide; [|done]. cbn [mbind option_bind].
      by rewrite app_assoc, step_comps_pop.
Qed.

Lemma NormalizePath_loop_accept lo r args :
  Forall valid_elem r → no_sep args →
  ∃ lo1 r1, Forall valid_elem r1 ∧
    NormalizePath_loop (replicate lo ".." ++ r) (Z.of_nat lo) args
    = (Some (replicate lo1 ".." ++ r1), Z.of_nat lo1) ∧
    ∀ comps, (c ← denotes lo r comps; steps_comps c args) = denotes lo1 r1 comps.
Proof.
  intros Hr Hs. revert lo r Hr. induction Hs as [|s args Hs Hargs IH]; intros lo r Hr.
  { exists lo, r. split_and!; try done. intros comps. unfold denotes. by case_decide. }
  destruct (NormalizePath_loop_step lo r s Hr Hs) as (lo1 & r1 & Hr1 & E & H).
  destruct (IH lo1 r1 Hr1) as (lo2 & r2 & Hr2 & E2 & H2).
  exists lo2, r2. split_and!; [done|by rewrite E|].
  intros comps. rewrite <-H2, <-H. unfold denotes. by case_decide.
Qed.

(** What NormalizePath computes, in terms of walking from any directory. *)
Lemma NormalizePath_spec args :
  no_sep args →
  ∃ ans, NormalizePath args = (Some ans, Z.of_nat (dotdots ans)) ∧ valid_names ans ∧
    ∀ comps, steps_comps comps args
             = if decide (dotdots ans ≤ length comps)%nat
               then Some (walk_comps comps ans) else None.
Proof.
  intros Hs. destruct (NormalizePath_loop_accept 0 [] args ltac:(constructor) Hs)
    as (lo & r & Hr & E & H).
  exists (replicate lo ".." ++ r). rewrite dotdots_replicate by done.
  split_and!; [done|by apply valid_names_split|].
  intros comps. rewrite walk_comps_split by done. specialize (H comps).
  unfold denotes in H. rewrite decide_True, Nat.sub_0_r, firstn_all, app_nil_r in H by lia.
  exact H.
Qed.

(** ** Trimming and splitting *)

Lemma steps_comps_skip comps names :
  steps_comps comps (filter (λ s, s ≠ "") names) = steps_comps comps names.
Proof.
  revert comps. induction names as [|s names IH]; intros comps; [done|].
  rewrite filter_cons. case_decide as Hs.
  - cbn [steps_comps]. by destruct (step_comps comps s); cbn.
  - subst s. cbn [steps_comps].
    change (step_comps comps "") with (Some comps). apply IH.
Qed.

Lemma split_slash_cons a s :
  split_slash (String a s)
  = if decide (a = slash) then "" :: split_slash s
    else match split_slash s with
         | w :: ws => String a w :: ws
         | [] => [String a ""]
         end.
Proof. done. Qed.

Lemma trim_right_split s :
  head (split_slash (trim_right s)) = head (split_slash s) ∧
  filter (λ s, s ≠ "") (tail (split_slash (trim_right s)))
  = filter (λ s, s ≠ "") (tail (split_slash s)).
Proof.
  induction s as [|a s [IH1 IH2]]; [done|]. cbn [trim_right].
  pose proof (split_slash_ne s) as Hne. pose proof (split_slash_ne (trim_right s)) as Hne'.
  destruct (trim_right s) as [|b t].
  - destruct (decide (a = slash)) as [->|Ha]; cbn [split_slash].
    + rewrite !decide_True by done. destruct (split_slash s) as [|w ws]; [done|].
      cbn [head tail] in IH1, IH2 |- *. injection IH1 as <-. split; [done|].
      by rewrite filter_cons, decide_False by auto.
    + rewrite !decide_False by done. destruct (split_slash s) as [|w ws]; [done|].
      cbn [head tail] in IH1, IH2 |- *. by injection IH1 as <-.
  - rewrite (split_slash_cons a (String b t)), (split_slash_cons a s).
    destruct (split_slash (String b t)) as [|w ws]; [done|].
    destruct (split_slash s) as [|w' ws']; [done|].
    cbn [head tail] in IH1, IH2. injection IH1 as <-.
    case_decide; cbn [head tail]; (split; [done|]); [|exact IH2].
    rewrite !filter_cons. by rewrite IH2.
Qed.

Lemma trim_split s :
  filter (λ s, s ≠ "") (split_slash (trim_slash s)) = filter (λ s, s ≠ "") (split_slash s).
Proof.
  unfold trim_slash. transitivity (filter (λ s, s ≠ "") (split_slash (trim_left s))).
  - generalize (trim_left s). intros t. destruct (trim_right_split t) as [H1 H2].
    pose proof (split_slash_ne t). pose proof (split_slash_ne (trim_right t)).
    destruct (split_slash t), (split_slash (trim_right t)); try done.
    cbn [head tail] in H1, H2. injection H1 as ->. by rewrite !filter_cons, H2.
  - induction s as [|a s IH]; [done|]. cbn [trim_left].
    destruct (decide (a = slash)) as [->|]; [|done]. rewrite IH.
    cbn [split_slash]. rewrite decide_True by done.
    by rewrite filter_cons, decide_False by auto.
Qed.

Lemma no_sep_skip names : no_sep (filter (λ s, s ≠ "") names) ↔ no_sep names.
Proof.
  unfold no_sep. induction names as [|s names IH]; [done|].
  rewrite filter_cons. case_decide as Hs.
  - by rewrite !Forall_cons, IH.
  - subst s. rewrite Forall_cons, IH. naive_solver.
Qed.

Lemma no_sep_trim p : no_sep (split_slash (trim_slash p)) ↔ no_sep (split_slash p).
Proof. rewrite <-no_sep_skip, trim_split. apply no_sep_skip. Qed.

Lemma steps_comps_trim base p :
  steps_comps base (split_slash (trim_slash p)) = steps_comps base (split_slash p).
Proof. rewrite <-steps_comps_skip, trim_split. apply steps_comps_skip. Qed.

(** Canonical names are a fixed point of NormalizePath. *)
Lemma NormalizePath_fixed ans :
  valid_names ans → NormalizePath ans = (Some ans, Z.of_nat (dotdots ans)).
Proof.
  unfold valid_names. pose proof (dotdots_split ans) as E. revert E.
  generalize (drop (dotdots ans) ans). generalize (dotdots ans). intros k r -> Hr.
  assert (∀ done lo, NormalizePath_loop done lo r = (Some (done ++ r), lo)) as Hpush.
  { induction Hr as [|s r (H1 & H2 & H3 & H4) Hr IH]; intros d lo; [by rewrite app_nil_r|].
    cbn [NormalizePath_loop]. rewrite H4, !decide_False by naive_solver.
    by rewrite IH, <-app_assoc. }
  assert (∀ j, NormalizePath_loop (replicate j "..") (Z.of_nat j) (replicate k ".." ++ r)
               = (Some (replicate (j + k) ".." ++ r), Z.of_nat (j + k))) as Hdd.
  { induction k as [|k IH]; intros j; [by rewrite Nat.add_0_r; apply Hpush|].
    cbn [replicate app NormalizePath_loop]. rewrite decide_False by naive_solver.
    rewrite decide_True by done.
    rewrite decide_False by (unfold len; rewrite length_replicate; lia).
    change [".."] with (replicate 1 ".."). rewrite <-replicate_add.
    replace (Z.of_nat j + 1) with (Z.of_nat (j + 1)) by lia. rewrite IH.
    by replace (j + 1 + k)%nat with (j + S k)%nat by lia. }
  apply (Hdd 0%nat).
Qed.

(** What WalkName computes on component lists. *)
Lemma WalkName_render comps names :
  Forall valid_elem comps →
  WalkName (render comps) names
  = if decide (valid_names names ∧ (dotdots names ≤ length comps)%nat)
    then Ok (render (walk_comps comps names)) else Err (E9p "Invalid path").
Proof.
  intros Hc. destruct (depth_render comps Hc) as (d & Hd & Hcount).
  unfold WalkName. rewrite Hd, Hcount, ValidPath_spec. unfold len.
  destruct (decide (valid_names names)) as [Hv|Hv].
  - destruct (decide (dotdots names ≤ length comps)%nat) as [Hle|Hle].
    + rewrite decide_False, decide_True by lia || done.
      by rewrite (Join_names names), Join_walk.
    + rewrite decide_True by lia. by rewrite decide_False by naive_solver.
  - rewrite decide_True by lia. by rewrite decide_False by naive_solver.
Qed.

(** ** Theorems *)

(** C33. WalkName on a valid internal path computes exactly the path of the
    walked components, and fails exactly when the names are not canonical
    (an empty, [.] or separator-bearing element, or [..] after a name) or
    climb above the root.  The result is again a valid internal path. *)
Theorem walkname_spec comps names :
  Forall valid_elem comps →
  WalkName (render comps) names
  = (if decide (valid_names names ∧ (dotdots names ≤ length comps)%nat)
     then Ok (render (walk_comps comps names))
     else Err (E9p "Invalid path")) ∧
  (valid_names names → Forall valid_elem (walk_comps comps names)).
Proof.
  intros Hc. split; [by apply WalkName_render|by apply walk_comps_valid].
Qed.

Lemma walkname_spec_witness :
  WalkName "/usr/lib" [".."; "bin"] = Ok "/usr/bin" ∧
  WalkName "/usr/lib" [".."; ".."; ".."] = Err (E9p "Invalid path").
Proof.
  split; exact (proj1 (walkname_spec ["usr"; "lib"] _
    ltac:(apply (bool_decide_unpack _); vm_compute; exact I))).
Defined.

Lemma CreateName_render comps name :
  Forall valid_elem comps →
  CreateName (render comps) name
  = if decide (valid_elem name) then Ok (render (comps ++ [name]))
    else Err (E9p "Invalid path").
Proof.
  intros Hc. unfold CreateName. destruct (decide (valid_elem name)) as [Hv|Hv].
  - pose proof Hv as (H1 & H2 & H3 & H4). rewrite decide_False by (rewrite H4; naive_solver).
    f_equal. assert (valid_names [name]) as Hn.
    { rewrite valid_names_not_dotdot by done. by constructor. }
    change name with (join_slash [name]) at 1. rewrite (Join_walk comps [name] Hc Hn). unfold walk_comps. cbn [dotdots].
    rewrite decide_False by done. by rewrite Nat.sub_0_r, firstn_all.
  - rewrite decide_True; [done|]. unfold valid_elem in Hv.
    destruct (contains_sep name); [by left|right].
    destruct (decide (name = "")); [by left|right].
    destruct (decide (name = ".")); [by left|right]. apply dec_stable. naive_solver.
Qed.

(** CreateName accepts exactly the names that are one valid path
    element and gives the path of the directory's components with the name
    appended, a valid internal path. *)
Theorem createname_spec comps name :
  Forall valid_elem comps →
  CreateName (render comps) name
  = if decide (valid_elem name) then Ok (render (comps ++ [name]))
    else Err (E9p "Invalid path").
Proof. apply CreateName_render. Qed.

Lemma createname_spec_witness :
  CreateName "/usr" "share" = Ok "/usr/share" ∧ CreateName "/usr" ".." = Err (E9p "Invalid path").
Proof.
  split; exact (createname_spec ["usr"] _
    ltac:(apply (bool_decide_unpack _); vm_compute; exact I)).
Defined.

(** C34. NormalizePath rejects the argument lists with a separator in an
    element, and no others.  Otherwise its result is canonical (accepted by
    ValidPath with the count it returns, and a fixed point), and walking the
    result from any directory ends where walking the arguments one at a time
    ends: [..] cancels the name before it, and both fail above the root
    together. *)
Theorem normalizepath_spec args :
  if decide (no_sep args)
  then ∃ ans, NormalizePath args = (Some ans, Z.of_nat (dotdots ans)) ∧
    ValidPath ans = Z.of_nat (dotdots ans) ∧
    NormalizePath ans = (Some ans, Z.of_nat (dotdots ans)) ∧
    ∀ comps, steps_comps comps args
             = if decide (dotdots ans ≤ length comps)%nat
               then Some (walk_comps comps ans) else None
  else NormalizePath args = (None, -1).
Proof.
  destruct (decide (no_sep args)) as [Hs|Hs]; [|by apply NormalizePath_loop_reject].
  destruct (NormalizePath_spec args Hs) as (ans & E & Hv & H).
  exists ans. split_and!; try done; [by rewrite ValidPath_spec, decide_True|].
  by apply NormalizePath_fixed.
Qed.

(** C35. ToWalk and WalkName compose: ToWalk gives back whether the path is
    absolute; it fails for a backslash in the path and for an absolute path
    that climbs above the root, and for no other; and when it succeeds its
    steps take WalkName from any directory where the path, read one element
    at a time, leads: the same internal path, or the error when the path
    climbs above the root. *)
Theorem towalk_walkname p :
  fst (ToWalk p) = IsAbs p ∧
  match snd (ToWalk p) with
  | Ok steps =>
      no_sep (split_slash p) ∧ (IsAbs p = true → is_Some (steps_comps [] (split_slash p))) ∧
      valid_names steps ∧ (IsAbs p = true → dotdots steps = 0%nat) ∧
      ∀ base, Forall valid_elem base →
        WalkName (render base) steps
        = match steps_comps base (split_slash p) with
          | Some c => Ok (render c)
          | None => Err (E9p "Invalid path")
          end
  | Err e =>
      e = E9p ("invalid path: " +:+ p) ∧
      (¬ no_sep (split_slash p) ∨
       IsAbs p = true ∧ steps_comps [] (split_slash p) = None)
  | Panic _ | Hang _ => False
  end.
Proof.
  unfold ToWalk. destruct (decide (no_sep (split_slash p))) as [Hs|Hs].
  2:{ unfold NormalizePath. rewrite NormalizePath_loop_reject by (by rewrite no_sep_trim).
      destruct (IsAbs p); (split; [done|]); cbn; by split; [|left]. }
  destruct (NormalizePath_spec (split_slash (trim_slash p))) as (ans & E & Hv & H);
    [by rewrite no_sep_trim|].
  rewrite E. change (default [] (Some ans)) with ans.
  assert (∀ base, Forall valid_elem base →
        WalkName (render base) ans
        = match steps_comps base (split_slash p) with
          | Some c => Ok (render c) | None => Err (E9p "Invalid path") end) as Hw.
  { intros base Hb. rewrite WalkName_render by done.
    rewrite <-steps_comps_trim, H. repeat case_decide; naive_solver. }
  destruct (IsAbs p); (split; [done|]); cbn [snd].
  - destruct (decide (Z.of_nat (dotdots ans) ≠ 0)) as [Hd|Hd].
    + split; [done|]. right. split; [done|].
      rewrite <-steps_comps_trim, H. by rewrite decide_False by (cbn; lia).
    + split_and!; [done| |done|intros _; lia|done].
      intros _. rewrite <-steps_comps_trim, H. by rewrite decide_True by (cbn; lia).
  - rewrite decide_False by lia. by split_and!.
Qed.
