(* ===== verification/Transport.v ===== *)
(** * Transport: tags and the client's multiplexer, transport.go

    A transport is a set of goroutines that share a channel: callers in
    [send], the [handle] loop, which owns the map of outstanding requests,
    and its reader.  The state of all of them is one record; every atomic
    action of a goroutine (one case of a select, one call on the channel) is
    an executable function, and the step relation lets any enabled action
    run.  Unbuffered channels ([t.requests], [responses]) are a joint action
    of sender and receiver; the channels of a request have capacity one, and
    sending on a full one blocks the sender ([Hang]).  The reader's call of
    ReadFcall may take a message ([reader_read]) or meet its deadline with
    any number of bytes come ([reader_late]).

    The specification is the tag discipline of the protocol: [tag_step] over
    a finite map from tags to the requests that hold them. *)
From S2P Require Import Prelude Types Encoding Channel.

(** ** allocateTag *)

(** The loop, [n] iterations left. *)
Fixpoint allocate_loop {A} (n : nat) (m : gmap Z A) (hint : Z) : Z * option error :=
  match n with
  | O => (0, Some (errorString "allocateTag: unexpected error"))
  | S n =>
      let hint := u16 (hint + 1) in
      let hint := if decide (hint = NOTAG) then 0 else hint in
      match m !! hint with
      | None => (hint, None)
      | Some _ => allocate_loop n m hint
      end
  end.

(** The tag and the error; the tag is 0 when there is an error. *)
Definition allocateTag {A} (m : gmap Z A) (hint : Z) : Z * option error :=
  if decide (0xFFFF ≤ Z.of_nat (size m)) then (0, Some (errorString "tag pool depleted"))
  else allocate_loop (Z.to_nat 0xFFFF) m hint.

(** ** The state of a transport *)

(** A request: its context ([Some e] when done), its message, and its two
    channels of capacity one. *)
Record fcallRequest := mkReq {
  req_ctx : option error;
  req_message : Message;
  req_response : option Fcall;
  req_err : option error
}.

Definition newFcallRequest (ctx : option error) (msg : Message) : fcallRequest :=
  mkReq ctx msg None None.

(** Where a call of [send] is: at its first select, at its second, or back. *)
Inductive send_pc :=
| Dispatching
| Waiting
| Returned (r : result error (option Message)).

(** The reader goroutine: about to read, offering a message, or gone. *)
Inductive reader_pc :=
| Reading
| Offering (f : Fcall)
| ReaderExit.

(** What stops the process: the panic of [handle], a send on a full channel,
    a nil request, or a fault inside the channel. *)
Inductive fault :=
| UnknownTag
| BlockedErr
| BlockedResponse
| NilRequest
| ChannelFault (why : string).

Record transport := mkTransport {
  t_ctx : option error;
  t_ch : channel;
  t_shutdown : bool;                   (* the shutdown channel is closed *)
  t_closed : bool;                     (* handle has returned *)
  t_fault : option fault;              (* a goroutine panicked or blocked *)
  outstanding : gmap Z Z;              (* tag to request *)
  selected : Z;
  reader : reader_pc;
  reqs : gmap Z fcallRequest;          (* the requests, by identity *)
  calls : gmap Z send_pc
}.

Definition newTransport (ctx : option error) (ch : channel) : transport :=
  mkTransport ctx ch false false None ∅ 0 Reading ∅ ∅.

(** Field updates. *)
Definition set_calls (t : transport) c :=
  mkTransport (t_ctx t) (t_ch t) (t_shutdown t) (t_closed t) (t_fault t)
    (outstanding t) (selected t) (reader t) (reqs t) c.
Definition set_reqs (t : transport) r :=
  mkTransport (t_ctx t) (t_ch t) (t_shutdown t) (t_closed t) (t_fault t)
    (outstanding t) (selected t) (reader t) r (calls t).
Definition set_outstanding (t : transport) o :=
  mkTransport (t_ctx t) (t_ch t) (t_shutdown t) (t_closed t) (t_fault t)
    o (selected t) (reader t) (reqs t) (calls t).
Definition set_selected (t : transport) s :=
  mkTransport (t_ctx t) (t_ch t) (t_shutdown t) (t_closed t) (t_fault t)
    (outstanding t) s (reader t) (reqs t) (calls t).
Definition set_ch (t : transport) ch :=
  mkTransport (t_ctx t) ch (t_shutdown t) (t_closed t) (t_fault t)
    (outstanding t) (selected t) (reader t) (reqs t) (calls t).
Definition set_reader (t : transport) rd :=
  mkTransport (t_ctx t) (t_ch t) (t_shutdown t) (t_closed t) (t_fault t)
    (outstanding t) (selected t) rd (reqs t) (calls t).
Definition set_fault (t : transport) w :=
  mkTransport (t_ctx t) (t_ch t) (t_shutdown t) (t_closed t) (Some w)
    (outstanding t) (selected t) (reader t) (reqs t) (calls t).
Definition set_ctx (t : transport) c :=
  mkTransport c (t_ch t) (t_shutdown t) (t_closed t) (t_fault t)
    (outstanding t) (selected t) (reader t) (reqs t) (calls t).

(** [close]: start the shutdown (once). *)
Definition close (t : transport) : transport :=
  mkTransport (t_ctx t) (t_ch t) true (t_closed t) (t_fault t)
    (outstanding t) (selected t) (reader t) (reqs t) (calls t).

(** [handle] returns; its deferred function closes [t.closed]. *)
Definition handle_return (t : transport) : transport :=
  mkTransport (t_ctx t) (t_ch t) (t_shutdown t) true (t_fault t)
    (outstanding t) (selected t) (reader t) (reqs t) (calls t).

(** ** send *)

(** What [send] makes of the response it receives. *)
Definition send_response (resp : Fcall) : result error (option Message) :=
  if decide (Fcall_Type resp = Rerror) then
    match Fcall_Message resp with
    | Some (MessageRerror e) => Err (E9p e)
    | _ => Err (errorString "invalid error response")
    end
  else Ok (Fcall_Message resp).

(** ** The actions of the goroutines *)

(** What an action does on the wire side: a request put on the wire, a
    response handed to the request that waits for it. *)
Inductive label :=
| Wrote (id : Z) (f : Fcall)
| Delivered (id : Z) (f : Fcall).

(** [req.err <- err] and [req.response <- b]. *)
Definition put_err (t : transport) (id : Z) (e : error) : transport :=
  match reqs t !! id with
  | Some req =>
      match req_err req with
      | None => set_reqs t (<[id := mkReq (req_ctx req) (req_message req)
                                      (req_response req) (Some e)]> (reqs t))
      | Some _ => set_fault t BlockedErr
      end
  | None => set_fault t NilRequest
  end.

Definition put_response (t : transport) (id : Z) (b : Fcall) : transport :=
  match reqs t !! id with
  | Some req =>
      match req_response req with
      | None => set_reqs t (<[id := mkReq (req_ctx req) (req_message req)
                                      (Some b) (req_err req)]> (reqs t))
      | Some _ => set_fault t BlockedResponse
      end
  | None => set_fault t NilRequest
  end.

(** [send] up to its first select: the request is made. *)
Definition send_start (t : transport) (id : Z) (ctx : option error) (msg : Message)
    : transport :=
  set_calls (set_reqs t (<[id := newFcallRequest ctx msg]> (reqs t)))
    (<[id := Dispatching]> (calls t)).

Definition send_return (t : transport) (id : Z) (r : result error (option Message))
    : transport :=
  set_calls t (<[id := Returned r]> (calls t)).

(** The cases [<-req.err] and [<-req.response] of the second select. *)
Definition send_take_err (t : transport) (id : Z) (req : fcallRequest) (e : error)
    : transport :=
  send_return (set_reqs t (<[id := mkReq (req_ctx req) (req_message req)
                                   (req_response req) None]> (reqs t))) id (Err e).
Definition send_take_response (t : transport) (id : Z) (req : fcallRequest) (f : Fcall)
    : transport :=
  send_return (set_reqs t (<[id := mkReq (req_ctx req) (req_message req)
                                   None (req_err req)]> (reqs t))) id (send_response f).

(** The case [<-responses] of [handle]. *)
Definition handle_response (t : transport) (b : Fcall) : transport * list label :=
  match outstanding t !! Fcall_Tag b with
  | None => (set_fault t UnknownTag, [])
  | Some id =>
      let t := set_outstanding t (delete (Fcall_Tag b) (outstanding t)) in
      (put_response t id b, [Delivered id b])
  end.

Section Actions.
Variable codec : Codec.

(** The case [<-t.requests] of [handle]. *)
Definition handle_request (t : transport) (id : Z) (req : fcallRequest)
    : transport * list label :=
  let '(tag, err) := allocateTag (outstanding t) (selected t) in
  let t := set_selected t tag in
  match err with
  | Some e => (put_err t id e, [])
  | None =>
      let t := set_outstanding t (<[tag := id]> (outstanding t)) in
      let fcall := newFcall tag (req_message req) in
      let '(r, ch) := WriteFcall codec (req_ctx req) (t_ch t) fcall in
      let t := set_ch t ch in
      match r with
      | Ok _ => (t, [Wrote id fcall])
      | Err e =>
          (put_err (set_outstanding t (delete (Fcall_Tag fcall) (outstanding t))) id e, [])
      | Panic w | Hang w => (set_fault t (ChannelFault w), [])
      end
  end.

(** What the reader makes of a read: a timeout is tried again. *)
Definition reader_took (t : transport) (x : result error Fcall * channel) : transport :=
  match x with
  | (Ok fcall, ch) => set_reader (set_ch t ch) (Offering fcall)
  | (Err (netError _ timeout temporary), ch) =>
      if timeout || temporary then set_ch t ch
      else close (set_reader (set_ch t ch) ReaderExit)
  | (Err _, ch) => close (set_reader (set_ch t ch) ReaderExit)
  | (Panic w, ch) | (Hang w, ch) => set_fault (set_ch t ch) (ChannelFault w)
  end.

(** One iteration of the reader up to its select, with a read that comes
    back in time or one that does not. *)
Definition reader_read (t : transport) : transport :=
  reader_took t (ReadFcall codec (t_ctx t) (t_ch t)).
Definition reader_late (k : nat) (t : transport) : transport :=
  reader_took t (ReadFcall_late codec k (t_ctx t) (t_ch t)).

(** Any goroutine may take its next action; a select takes any case that
    is ready.  Contexts may end, callers may come and a read's deadline may
    pass at any time. *)
Inductive step : transport → list label → transport → Prop :=
| step_call t id ctx msg :
    t_fault t = None → calls t !! id = None →
    step t [] (send_start t id ctx msg)
| step_cancel t id req e :
    t_fault t = None → reqs t !! id = Some req → req_ctx req = None →
    step t [] (set_reqs t (<[id := mkReq (Some e) (req_message req)
                                     (req_response req) (req_err req)]> (reqs t)))
| step_ctx t e :
    t_fault t = None → t_ctx t = None → step t [] (set_ctx t (Some e))
| step_send_closed t id pc :
    t_fault t = None → calls t !! id = Some pc → pc = Dispatching ∨ pc = Waiting →
    t_closed t = true → step t [] (send_return t id (Err ErrClosed))
| step_send_ctx t id pc req e :
    t_fault t = None → calls t !! id = Some pc → pc = Dispatching ∨ pc = Waiting →
    reqs t !! id = Some req → req_ctx req = Some e →
    step t [] (send_return t id (Err e))
| step_send_err t id req e :
    t_fault t = None → calls t !! id = Some Waiting →
    reqs t !! id = Some req → req_err req = Some e →
    step t [] (send_take_err t id req e)
| step_send_response t id req f :
    t_fault t = None → calls t !! id = Some Waiting →
    reqs t !! id = Some req → req_response req = Some f →
    step t [] (send_take_response t id req f)
| step_handle_request t id req t' ls :
    t_fault t = None → t_closed t = false →
    calls t !! id = Some Dispatching → reqs t !! id = Some req →
    handle_request (set_calls t (<[id := Waiting]> (calls t))) id req = (t', ls) →
    step t ls t'
| step_handle_response t f t' ls :
    t_fault t = None → t_closed t = false → reader t = Offering f →
    handle_response (set_reader t Reading) f = (t', ls) → step t ls t'
| step_handle_return t :
    t_fault t = None → t_closed t = false →
    t_shutdown t = true ∨ is_Some (t_ctx t) → step t [] (handle_return t)
| step_reader_read t :
    t_fault t = None → reader t = Reading → step t [] (reader_read t)
| step_reader_late t k :
    t_fault t = None → reader t = Reading → step t [] (reader_late k t)
| step_reader_exit t f :
    t_fault t = None → reader t = Offering f → t_closed t = true ∨ is_Some (t_ctx t) →
    step t [] (close (set_reader t ReaderExit))
| step_close t :
    t_fault t = None → step t [] (close t).

(** The states a new transport can be in after the labels [tr]. *)
Inductive reachable (ctx : option error) (ch : channel) : list label → transport → Prop :=
| reach_new : reachable ctx ch [] (newTransport ctx ch)
| reach_step tr t ls t' :
    reachable ctx ch tr t → step t ls t' → reachable ctx ch (tr ++ ls) t'.
End Actions.

(** ** Specification: the tag discipline *)

(** The abstract state: which request holds which tag, and the requests that
    have been on the wire. *)
Inductive tag_step : gmap Z Z * gset Z → label → gmap Z Z * gset Z → Prop :=
| tag_wrote m used id f :
    0 ≤ Fcall_Tag f < NOTAG → m !! Fcall_Tag f = None → id ∉ used →
    tag_step (m, used) (Wrote id f) (<[Fcall_Tag f := id]> m, {[id]} ∪ used)
| tag_delivered m used id f :
    m !! Fcall_Tag f = Some id →
    tag_step (m, used) (Delivered id f) (delete (Fcall_Tag f) m, used).

Inductive tag_run : list label → gmap Z Z * gset Z → Prop :=
| tag_run_nil : tag_run [] (∅, ∅)
| tag_run_snoc tr s l s' : tag_run tr s → tag_step s l s' → tag_run (tr ++ [l]) s'.

(** ** allocateTag: facts *)

Definition next_tag (hint : Z) : Z :=
  let hint := u16 (hint + 1) in if decide (hint = NOTAG) then 0 else hint.

Lemma next_tag_range h : 0 ≤ next_tag h < NOTAG.
Proof.
  unfold next_tag. cbv zeta. pose proof (u16_range (h + 1)). unfold NOTAG in *.
  case_decide; lia.
Qed.

(** From a valid tag, [j] steps on go [j] further modulo 65535. *)
Lemma next_tag_iter j h :
  0 ≤ h < NOTAG → Nat.iter j next_tag h = (h + Z.of_nat j) mod 65535.
Proof.
  unfold NOTAG. intros Hh. induction j as [|j IH].
  - rewrite Z.add_0_r, Z.mod_small by lia. done.
  - rewrite Nat.iter_succ, IH. set (z := h + Z.of_nat j).
    replace (h + Z.of_nat (S j)) with (z + 1) by lia.
    rewrite <-(Zplus_mod_idemp_l z 1).
    pose proof (Z.mod_pos_bound z 65535 ltac:(lia)) as Hz. unfold next_tag, NOTAG. cbv zeta.
    rewrite u16_small by lia. case_decide as Hd.
    + by rewrite Hd, Z.mod_same.
    + rewrite (Z.mod_small (z mod 65535 + 1)); lia.
Qed.

(** The loop finds the first free tag after the hint, if one of the next
    [n] is free. *)
Lemma allocate_loop_spec {A} n (m : gmap Z A) hint :
  (∃ i, (i < n)%nat ∧ allocate_loop n m hint = (Nat.iter (S i) next_tag hint, None) ∧
     m !! Nat.iter (S i) next_tag hint = None ∧
     ∀ j, (j < i)%nat → is_Some (m !! Nat.iter (S j) next_tag hint)) ∨
  (allocate_loop n m hint = (0, Some (errorString "allocateTag: unexpected error")) ∧
     ∀ j, (j < n)%nat → is_Some (m !! Nat.iter (S j) next_tag hint)).
Proof.
  revert hint. induction n as [|n IH]; intros hint; [right; split; [done|lia]|].
  cbn [allocate_loop]. fold (next_tag hint).
  destruct (m !! next_tag hint) as [x|] eqn:E.
  - destruct (IH (next_tag hint)) as [(i & Hi & H1 & H2 & H3)|[H1 H2]].
    + left. exists (S i). rewrite (Nat.iter_succ_r (S i)). split_and!; [lia|done|done|].
      intros [|j] Hj; [exact (mk_is_Some _ _ E)|]. rewrite Nat.iter_succ_r. apply H3. lia.
    + right. split; [done|]. intros [|j] Hj; [exact (mk_is_Some _ _ E)|].
      rewrite Nat.iter_succ_r. apply H2. lia.
  - left. exists 0%nat. split_and!; [lia|done|done|lia].
Qed.

(** 65535 consecutive tags are pairwise different, so they do not all fit a
    smaller map. *)
Lemma tags_pigeonhole {A} (m : gmap Z A) hint n :
  Z.of_nat n = 65535 →
  (∀ j, (j < n)%nat → is_Some (m !! Nat.iter (S j) next_tag hint)) → (n ≤ size m)%nat.
Proof.
  intros Hn Hall. set (f := λ j, Nat.iter (S j) next_tag hint).
  assert (NoDup (f <$> seq 0 n)) as Hnd.
  { apply NoDup_fmap_2_strong; [|apply NoDup_ListNoDup, seq_NoDup].
    intros i j Hi%elem_of_seq Hj%elem_of_seq. subst f. cbv beta.
    rewrite !Nat.iter_succ_r, !next_tag_iter by apply next_tag_range.
    pose proof (next_tag_range hint). unfold NOTAG in *. intros E.
    assert ((Z.of_nat i - Z.of_nat j) mod 65535 = 0) as E0.
    { replace (Z.of_nat i - Z.of_nat j)
        with ((next_tag hint + Z.of_nat i) - (next_tag hint + Z.of_nat j)) by lia.
      rewrite Zminus_mod, E, Z.sub_diag. done. }
    apply Z.mod_divide in E0 as [q Hq]; [|lia]. nia. }
  rewrite <-size_dom. pose proof (size_list_to_set (C := gset Z) (f <$> seq 0 n) Hnd) as Hs.
  rewrite length_fmap, length_seq in Hs. rewrite <-Hs. apply subseteq_size.
  intros x Hx. apply elem_of_list_to_set, list_elem_of_fmap in Hx as (j & -> & Hj).
  apply elem_of_seq in Hj. apply elem_of_dom, Hall. lia.
Qed.

(** A map of valid tags has at most 65535 entries. *)
Lemma tags_bound {A} (m : gmap Z A) :
  (∀ tag x, m !! tag = Some x → 0 ≤ tag < NOTAG) → Z.of_nat (size m) ≤ 65535.
Proof.
  intros Hk. rewrite <-size_dom.
  pose proof (subseteq_size (dom m) (list_to_set (seqZ 0 65535) : gset Z)) as Hs.
  rewrite size_list_to_set, length_seqZ in Hs by apply NoDup_seqZ.
  assert (dom m ⊆ (list_to_set (seqZ 0 65535) : gset Z)) as Hsub; [|specialize (Hs Hsub); lia].
  intros tag [x Hx]%elem_of_dom. apply elem_of_list_to_set, elem_of_seqZ.
  apply Hk in Hx. unfold NOTAG in Hx. lia.
Qed.

Lemma allocateTag_fresh {A} (m : gmap Z A) hint tag :
  allocateTag m hint = (tag, None) → 0 ≤ tag < NOTAG ∧ m !! tag = None.
Proof.
  unfold allocateTag. case_decide; [done|].
  destruct (allocate_loop_spec (Z.to_nat 65535) m hint) as [(i & _ & -> & Hi & _)|[-> _]]; [|done].
  intros [= <-]. split; [|done]. apply next_tag_range.
Qed.

(** ** The invariant of a running transport *)

(** A request whose two channels are empty. *)
Definition quiet (t : transport) (id : Z) : Prop :=
  ∃ req, reqs t !! id = Some req ∧ req_response req = None ∧ req_err req = None.

Definition dispatched (t : transport) (id : Z) : Prop :=
  ∃ pc, calls t !! id = Some pc ∧ pc ≠ Dispatching.

Record inv (t : transport) (used : gset Z) : Prop := {
  inv_out tag id : outstanding t !! tag = Some id →
    quiet t id ∧ id ∈ used;
  inv_inj tag tag' id :
    outstanding t !! tag = Some id → outstanding t !! tag' = Some id → tag = tag';
  inv_used id : id ∈ used → dispatched t id;
  inv_disp id : calls t !! id = Some Dispatching → quiet t id
}.

(** The abstract run a trace denotes, and the faults that are possible. *)
Definition good (tr : list label) (t : transport) : Prop :=
  ∃ m used, tag_run tr (m, used) ∧
  match t_fault t with
  | None => m = outstanding t ∧ inv t used
  | Some f => f = UnknownTag ∨ ∃ w, f = ChannelFault w
  end.

(** Changing what the invariant does not look at. *)
Lemma inv_same t t' used :
  outstanding t' = outstanding t → reqs t' = reqs t → calls t' = calls t →
  inv t used → inv t' used.
Proof.
  intros Ho Hr Hc [H1 H2 H3 H4]. unfold dispatched, quiet in *.
  split; unfold dispatched, quiet; rewrite ?Ho, ?Hr, ?Hc; eauto.
Qed.

Lemma good_same tr t t' :
  outstanding t' = outstanding t → reqs t' = reqs t → calls t' = calls t →
  t_fault t' = t_fault t → good tr t → good tr t'.
Proof.
  intros Ho Hr Hc Hf (m & used & Hrun & H). exists m, used. split; [done|].
  rewrite Hf. destruct (t_fault t); [done|]. destruct H as [-> Hi].
  rewrite Ho. split; [done|]. by apply (inv_same t).
Qed.

(** A call moves on from a state other than Dispatching, or leaves it. *)
Lemma inv_calls t used id pc :
  inv t used → pc ≠ Dispatching → inv (set_calls t (<[id := pc]> (calls t))) used.
Proof.
  intros [H1 H2 H3 H4] Hpc. split; cbn; try done.
  - intros id' Hid. destruct (H3 _ Hid) as (pc' & Hc & Hne). unfold dispatched. cbn.
    destruct (decide (id = id')) as [->|]; [exists pc; by rewrite lookup_insert_eq|].
    exists pc'. by rewrite lookup_insert_ne.
  - intros id'. destruct (decide (id = id')) as [->|]; [rewrite lookup_insert_eq; by intros [=]|].
    rewrite lookup_insert_ne by done. apply H4.
Qed.

(** A request changes: the requests that must be quiet stay so. *)
Lemma inv_reqs t used id r :
  inv t used →
  (quiet t id → (∃ tag, outstanding t !! tag = Some id) ∨ calls t !! id = Some Dispatching →
   req_response r = None ∧ req_err r = None) →
  inv (set_reqs t (<[id := r]> (reqs t))) used.
Proof.
  intros [H1 H2 H3 H4] Hr.
  assert (∀ id', quiet t id' →
    (∃ tag, outstanding t !! tag = Some id') ∨ calls t !! id' = Some Dispatching →
    quiet (set_reqs t (<[id := r]> (reqs t))) id') as Hq.
  { intros id' Hq Hc. unfold quiet. cbn. destruct (decide (id = id')) as [->|].
    - exists r. rewrite lookup_insert_eq. naive_solver.
    - by rewrite lookup_insert_ne. }
  split; cbn; try done.
  - intros tag id' Ho. destruct (H1 _ _ Ho). eauto.
  - eauto.
Qed.

Lemma inv_start t used id ctx msg :
  inv t used → calls t !! id = None → inv (send_start t id ctx msg) used.
Proof.
  intros Hi Hc. assert (id ∉ used) as Hu.
  { intros (pc & Hpc & _)%(inv_used _ _ Hi). congruence. }
  assert (inv (set_reqs t (<[id := newFcallRequest ctx msg]> (reqs t))) used) as [H1 H2 H3 H4].
  { by apply inv_reqs. }
  split; try done.
  - intros id' Hid. destruct (H3 _ Hid) as (pc' & Hc' & Hne). exists pc'. cbn.
    by rewrite lookup_insert_ne by (intros ->; done).
  - intros id'. cbn. destruct (decide (id = id')) as [->|].
    + intros _. eexists. cbn. by rewrite lookup_insert_eq.
    + rewrite lookup_insert_ne by done. apply H4.
Qed.

(** Sending on the error channel of a request that was just dispatched. *)
Lemma good_put_err tr t used id e :
  tag_run tr (outstanding t, used) → inv t used → t_fault t = None →
  quiet t id → id ∉ used → dispatched t id → good tr (put_err t id e).
Proof.
  intros Hrun Hi Hf (req & Hreq & Hresp & Herr) Hu (pc & Hpc & Hne).
  exists (outstanding t), used. split; [done|]. unfold put_err. rewrite Hreq, Herr.
  cbn [t_fault set_reqs]. rewrite Hf. split; [done|]. apply inv_reqs; [done|].
  intros _ [[tag Ho]|Hd]; [by destruct (inv_out _ _ Hi _ _ Ho)|congruence].
Qed.

(** [handle] takes a request. *)
Lemma good_request codec tr t id req t' ls :
  good tr t → t_fault t = None → calls t !! id = Some Dispatching → reqs t !! id = Some req →
  handle_request codec (set_calls t (<[id := Waiting]> (calls t))) id req = (t', ls) →
  good (tr ++ ls) t'.
Proof.
  intros (m & used & Hrun & H) Hf Hc Hreq. rewrite Hf in H. destruct H as [-> Hi].
  assert (id ∉ used) as Hu.
  { intros (pc & Hpc & ?)%(inv_used _ _ Hi). congruence. }
  pose proof (inv_disp _ _ Hi _ Hc) as Hq.
  set (t0 := set_calls t _). assert (inv t0 used) as Hi0 by (by apply inv_calls).
  assert (dispatched t0 id) as Hd0.
  { exists Waiting. cbn. by rewrite lookup_insert_eq. }
  unfold handle_request. change (outstanding t0) with (outstanding t).
  destruct (allocateTag (outstanding t) (selected t0)) as [tag [e|]] eqn:Ha.
  { intros [= <- <-]. rewrite app_nil_r. apply (good_put_err _ _ used); try done.
    by apply (inv_same t0). }
  apply allocateTag_fresh in Ha as [Hr Hfree].
  destruct (WriteFcall _ _ _ _) as [[u|e|w|w] ch]; intros [= <- <-];
    rewrite ?app_nil_r; cbn [outstanding set_ch set_outstanding set_selected].
  - exists (<[tag := id]> (outstanding t)), ({[id]} ∪ used). split.
    + eapply tag_run_snoc; [exact Hrun|]. by apply (tag_wrote _ _ id (newFcall tag (req_message req))).
    + cbn [t_fault set_ch set_outstanding set_selected]. rewrite (Hf : t_fault t0 = None). split; [done|].
      split; cbn [outstanding set_ch set_outstanding set_selected].
      * intros tag' id' [[<- <-]|[Hne Ho]]%lookup_insert_Some; [by split; [|set_solver]|].
        destruct (inv_out _ _ Hi _ _ Ho). by split; [|set_solver].
      * intros t1 t2 id' [[<- <-]|[Hne1 Ho1]]%lookup_insert_Some
          [[<- Heq]|[Hne2 Ho2]]%lookup_insert_Some; try done;
          try (by destruct (inv_out _ _ Hi _ _ ltac:(eassumption)); subst).
        by apply (inv_inj _ _ Hi _ _ id').
      * intros id' [->%elem_of_singleton|Hid]%elem_of_union; [done|].
        by apply (inv_used _ _ Hi0).
      * apply (inv_disp _ _ Hi0).
  - cbn [Fcall_Tag newFcall]. rewrite delete_insert_id by done.
    apply (good_put_err _ _ used); try done. by apply (inv_same t0).
  - exists (outstanding t), used. split; [done|]. cbn. eauto.
  - exists (outstanding t), used. split; [done|]. cbn. eauto.
Qed.

(** [handle] takes a response. *)
Lemma good_response tr t f t' ls :
  good tr t → t_fault t = None →
  handle_response (set_reader t Reading) f = (t', ls) → good (tr ++ ls) t'.
Proof.
  intros (m & used & Hrun & H) Hf. rewrite Hf in H. destruct H as [-> Hi].
  unfold handle_response. cbn [outstanding set_reader].
  destruct (outstanding t !! Fcall_Tag f) as [id|] eqn:Ho; intros [= <- <-].
  2:{ rewrite app_nil_r. exists (outstanding t), used. split; [done|]. by left. }
  exists (delete (Fcall_Tag f) (outstanding t)), used. split.
  { eapply tag_run_snoc; [done|]. by constructor. }
  destruct (inv_out _ _ Hi _ _ Ho) as [(req & Hreq & Hresp & Herr) Hu].
  destruct (inv_used _ _ Hi _ Hu) as (pc & Hpc & Hne).
  unfold put_response. cbn [reqs set_outstanding set_reader]. rewrite Hreq, Hresp.
  cbn [t_fault set_reqs set_outstanding set_reader]. rewrite Hf. split; [done|].
  apply (inv_reqs (set_outstanding (set_reader t Reading) _)).
  - split; cbn; try apply Hi.
    + intros tag id' [_ Ho']%lookup_delete_Some. by apply (inv_out _ _ Hi tag).
    + intros t1 t2 id' [_ H1]%lookup_delete_Some [_ H2]%lookup_delete_Some.
      by apply (inv_inj _ _ Hi _ _ id').
  - cbn. intros _ [[tag [Hne' Ho']%lookup_delete_Some]|Hd]; [|congruence].
    destruct Hne'. by apply (inv_inj _ _ Hi _ _ id).
Qed.

(** The reader reads. *)
Lemma good_took tr t x : good tr t → t_fault t = None → good tr (reader_took t x).
Proof.
  intros Hg Hf. pose proof Hg as (m & used & Hrun & H). rewrite Hf in H. destruct H as [-> Hi].
  unfold reader_took. destruct x as [[f|e|w|w] ch];
    [by apply (good_same _ t)| |exists (outstanding t), used; cbn; eauto..].
  destruct e; try (by apply (good_same _ t)). case_match; by apply (good_same _ t).
Qed.

Lemma good_step codec tr t ls t' :
  good tr t → step codec t ls t' → good (tr ++ ls) t'.
Proof.
  intros Hg Hs. pose proof Hg as (m & used & Hrun & H).
  destruct Hs as [t id ctx msg Hf Hc|t id req e Hf Hr Hc|t e Hf Hc|t id pc Hf Hc Hpc Hcl
    |t id pc req e Hf Hc Hpc Hr He|t id req e Hf Hc Hr He|t id req f Hf Hc Hr He
    |t id req t' ls Hf Hcl Hc Hr Hh|t f t' ls Hf Hcl Hrd Hh|t Hf Hcl Hsd|t Hf Hrd|t k Hf Hrd
    |t f Hf Hrd Hcl|t Hf]; rewrite ?app_nil_r;
    try (by apply (good_same _ t)); try (by eapply good_request);
    try (by eapply good_response); try (by apply good_took); rewrite Hf in H; destruct H as [-> Hi].
  - exists (outstanding t), used. split; [done|]. cbn. rewrite Hf. split; [done|].
    by apply inv_start.
  - exists (outstanding t), used. split; [done|]. cbn. rewrite Hf. split; [done|].
    apply inv_reqs; [done|]. intros (req' & Hr' & Hq) _. by simplify_eq.
  - exists (outstanding t), used. split; [done|]. cbn. rewrite Hf. split; [done|].
    by apply inv_calls.
  - exists (outstanding t), used. split; [done|]. cbn. rewrite Hf. split; [done|].
    by apply inv_calls.
  - exists (outstanding t), used. split; [done|]. cbn. rewrite Hf. split; [done|].
    apply (inv_calls (set_reqs t _)); [|done]. apply inv_reqs; [done|].
    intros (req' & Hr' & Hq & _) _. by simplify_eq.
  - exists (outstanding t), used. split; [done|]. cbn. rewrite Hf. split; [done|].
    apply (inv_calls (set_reqs t _)); [|done]. apply inv_reqs; [done|].
    intros (req' & Hr' & _ & Hq) _. by simplify_eq.
Qed.

Lemma reachable_good codec ctx ch tr t : reachable codec ctx ch tr t → good tr t.
Proof.
  induction 1 as [|tr t ls t' _ IH Hs]; [|by eapply good_step].
  exists ∅, ∅. split; [constructor|]. split; [done|].
  split; cbn; set_solver.
Qed.

(** ** Consequences of the tag discipline *)

Definition label_tag (l : label) : Z :=
  match l with Wrote _ f | Delivered _ f => Fcall_Tag f end.
Definition label_id (l : label) : Z :=
  match l with Wrote id _ | Delivered id _ => id end.

(** A tag is held by the request last written with it, and nothing has been
    delivered under it since. *)
Definition last_write (tr : list label) (tag id : Z) : Prop :=
  ∃ a f b, tr = a ++ Wrote id f :: b ∧ Fcall_Tag f = tag ∧
    Forall (λ l, label_tag l ≠ tag) b.

Lemma last_write_snoc tr tag id l :
  last_write tr tag id → label_tag l ≠ tag → last_write (tr ++ [l]) tag id.
Proof.
  intros (a & f & b & -> & Hf & Hb) Hl. exists a, f, (b ++ [l]).
  rewrite <-app_assoc. split_and!; [done|done|]. by apply Forall_app_2; [|constructor].
Qed.

Lemma tag_run_holder tr s tag id :
  tag_run tr s → s.1 !! tag = Some id → last_write tr tag id.
Proof.
  induction 1 as [|tr s l s' Hrun IH Hs]; [done|].
  destruct Hs as [m used id' f|m used id' f]; cbn [fst] in *.
  - intros [[Heq <-]|[Hne Hm]]%lookup_insert_Some.
    + by exists tr, f, [].
    + apply last_write_snoc; [by apply IH|done].
  - intros [Hne Hm]%lookup_delete_Some. apply last_write_snoc; [by apply IH|done].
Qed.

(** Every request that is in use was written once. *)
Lemma tag_run_used tr s :
  tag_run tr s →
  (∀ id f, Wrote id f ∈ tr → id ∈ s.2) ∧
  (∀ id a f b, tr = a ++ Wrote id f :: b → ∀ g, Wrote id g ∉ a ∧ Wrote id g ∉ b) ∧
  (∀ id f, Delivered id f ∈ tr → id ∈ s.2 ∧ ∀ tag, s.1 !! tag ≠ Some id) ∧
  (∀ tag id, s.1 !! tag = Some id → id ∈ s.2) ∧
  (∀ tag tag' id, s.1 !! tag = Some id → s.1 !! tag' = Some id → tag = tag').
Proof.
  induction 1 as [|tr s l s' Hrun (I1 & I2 & I3 & I4 & I5) Hs].
  { split_and!; [set_solver| |set_solver|done|done].
    intros id a f b E. by destruct a. }
  destruct Hs as [m used id f Hr Hm Hu|m used id f Hm]; cbn [fst snd] in *; split_and!.
  - intros id' g [Hin|[=->]%list_elem_of_singleton]%elem_of_app; set_solver.
  - intros id' a g b E h. destruct b as [|l b _] using rev_ind.
    + apply app_inj_tail in E as [<- [= -> ->]]. split; [|by intros ?%not_elem_of_nil].
      intros Hin. by apply Hu, (I1 id' h).
    + rewrite app_comm_cons, app_assoc in E. apply app_inj_tail in E as [-> <-].
      destruct (I2 id' a g b eq_refl h) as [Ha Hb]. split; [done|].
      rewrite elem_of_app, list_elem_of_singleton. intros [?|[=->]]; [done|].
      apply Hu, (I1 _ g). set_solver.
  - intros id' g [Hin|Hin%list_elem_of_singleton]%elem_of_app; [|done].
    destruct (I3 _ _ Hin) as [Hi Hno]. split; [set_solver|].
    intros tag [[_ <-]|[_ Ht]]%lookup_insert_Some; [done|by apply (Hno tag)].
  - intros tag id' [[_ <-]|[_ Ht]]%lookup_insert_Some; [set_solver|].
    apply I4 in Ht. set_solver.
  - intros t1 t2 id' [[<- <-]|[Hn1 H1]]%lookup_insert_Some
      [[<- Heq]|[Hn2 H2]]%lookup_insert_Some; try done;
      try (subst; exfalso; eapply Hu, I4; eassumption).
    by apply (I5 _ _ id').
  - intros id' g [Hin|Hin%list_elem_of_singleton]%elem_of_app; [by eapply I1|done].
  - intros id' a g b E h. destruct b as [|l b _] using rev_ind.
    { by apply app_inj_tail in E as [_ [=]]. }
    rewrite app_comm_cons, app_assoc in E. apply app_inj_tail in E as [-> <-].
    destruct (I2 id' a g b eq_refl h) as [Ha Hb]. split; [done|].
    rewrite elem_of_app, list_elem_of_singleton. by intros [?|[=]].
  - intros id' g [Hin|[= -> ->]%list_elem_of_singleton]%elem_of_app.
    + destruct (I3 _ _ Hin) as [Hi Hno]. split; [done|].
      intros tag [_ Ht]%lookup_delete_Some. by apply (Hno tag).
    + split; [by eapply I4|]. intros tag [Hne Ht]%lookup_delete_Some.
      by apply Hne, (I5 _ _ id).
  - intros tag id' [_ Ht]%lookup_delete_Some. by eapply I4.
  - intros t1 t2 id' [_ H1]%lookup_delete_Some [_ H2]%lookup_delete_Some. by apply (I5 _ _ id').
Qed.

Lemma tag_run_prefix tr1 tr2 s : tag_run (tr1 ++ tr2) s → ∃ s', tag_run tr1 s'.
Proof.
  revert s. induction tr2 as [|l tr2 IH] using rev_ind; intros s H.
  - rewrite app_nil_r in H. eauto.
  - rewrite app_assoc in H. inversion H as [E|? s0 l' ? H0 _ E].
    + by destruct (tr1 ++ tr2).
    + apply app_inj_tail in E as [-> ->]. eauto.
Qed.

Lemma tag_run_snoc_inv tr l s : tag_run (tr ++ [l]) s → ∃ s', tag_run tr s' ∧ tag_step s' l s.
Proof.
  intros H. inversion H as [E|tr0 s0 l' s1 H0 Hs E]; [by destruct tr|].
  apply app_inj_tail in E as [-> ->]. eauto.
Qed.

(** ** Theorems *)

(** allocateTag, for a map whose keys are tags other than NOTAG, fails
    exactly when all 65535 tags are taken, with "tag pool depleted" and never
    with its other error.  Otherwise it gives the first free tag after the
    hint, in cyclic order: a tag that is not NOTAG and not outstanding. *)
Theorem allocateTag_spec {A} (m : gmap Z A) hint :
  (∀ tag x, m !! tag = Some x → 0 ≤ tag < NOTAG) →
  (Z.of_nat (size m) = 65535 ∧
   allocateTag m hint = (0, Some (errorString "tag pool depleted"))) ∨
  (Z.of_nat (size m) < 65535 ∧ ∃ i,
   allocateTag m hint = (Nat.iter (S i) next_tag hint, None) ∧
   0 ≤ Nat.iter (S i) next_tag hint < NOTAG ∧
   m !! Nat.iter (S i) next_tag hint = None ∧
   ∀ j, (j < i)%nat → is_Some (m !! Nat.iter (S j) next_tag hint)).
Proof.
  intros Hk. unfold allocateTag. case_decide as Hd.
  - left. split; [|done]. pose proof (tags_bound m Hk). lia.
  - right. split; [lia|].
    destruct (allocate_loop_spec (Z.to_nat 65535) m hint) as [(i & _ & H1 & H2 & H3)|[_ Hall]].
    + exists i. split_and!; try done; apply next_tag_range.
    + apply tags_pigeonhole in Hall; lia.
Qed.

Lemma allocateTag_spec_witness :
  allocateTag (<[1 := true]> (<[2 := false]> ∅) : gmap Z bool) 0 = (3, None) ∧
  ((Z.of_nat (size (<[1 := true]> (<[2 := false]> ∅) : gmap Z bool)) = 65535 ∧
    allocateTag (<[1 := true]> (<[2 := false]> ∅) : gmap Z bool) 0
    = (0, Some (errorString "tag pool depleted"))) ∨
   (Z.of_nat (size (<[1 := true]> (<[2 := false]> ∅) : gmap Z bool)) < 65535 ∧ ∃ i,
    allocateTag (<[1 := true]> (<[2 := false]> ∅) : gmap Z bool) 0
    = (Nat.iter (S i) next_tag 0, None) ∧
    0 ≤ Nat.iter (S i) next_tag 0 < NOTAG ∧
    (<[1 := true]> (<[2 := false]> ∅) : gmap Z bool) !! Nat.iter (S i) next_tag 0 = None ∧
    ∀ j, (j < i)%nat →
      is_Some ((<[1 := true]> (<[2 := false]> ∅) : gmap Z bool) !! Nat.iter (S j) next_tag 0))).
Proof.
  split; [vm_compute; reflexivity|].
  apply (allocateTag_spec (<[1 := true]> (<[2 := false]> ∅) : gmap Z bool) 0).
  intros tag x Hx. unfold NOTAG.
  apply lookup_insert_Some in Hx as [[<- _]|[_ Hx]]; [lia|].
  apply lookup_insert_Some in Hx as [[<- _]|[_ Hx]]; [lia|].
  rewrite lookup_empty in Hx. discriminate.
Defined.

(** C4. The transport refines the tag discipline: in every interleaving of
    callers, handle loop and reader, with any peer, any cancellations and any
    write errors, what is written and delivered is a run of the abstract tag
    machine (a tag is given to a request only when free, never NOTAG, each
    request is written at most once, a response goes to the holder of its
    tag), whose map is the map of outstanding requests.  The handle loop
    never blocks on a caller: the only faults are the panic on an unknown tag
    and a fault inside the channel. *)
Theorem transport_refines_tags codec ctx ch tr t :
  reachable codec ctx ch tr t →
  ∃ m used, tag_run tr (m, used) ∧
  match t_fault t with
  | None => m = outstanding t
  | Some f => f = UnknownTag ∨ ∃ w, f = ChannelFault w
  end.
Proof.
  intros (m & used & Hrun & H)%reachable_good. exists m, used. split; [done|].
  destruct (t_fault t); [done|]. by destruct H.
Qed.

(** C5. Replies reach the right caller: whenever a response is delivered to
    a request, the last message written or delivered under the response's tag
    is that request going out; and a request is written once and gets at most
    one response. *)
Theorem replies_match codec ctx ch tr t tr1 id f tr2 :
  reachable codec ctx ch tr t → tr = tr1 ++ Delivered id f :: tr2 →
  ∃ a g b, tr1 = a ++ Wrote id g :: b ∧ Fcall_Tag g = Fcall_Tag f ∧
    Forall (λ l, label_tag l ≠ Fcall_Tag f) b ∧
    (∀ h, Wrote id h ∉ a ∧ Wrote id h ∉ b ∧ Wrote id h ∉ tr2) ∧
    (∀ h, Delivered id h ∉ tr1 ∧ Delivered id h ∉ tr2).
Proof.
  intros (m & used & Hrun & _)%reachable_good ->.
  assert (∃ s', tag_run (tr1 ++ [Delivered id f]) s') as [s' Hs'].
  { eapply tag_run_prefix. rewrite <-app_assoc. exact Hrun. }
  destruct (tag_run_snoc_inv _ _ _ Hs') as (s0 & H0 & Hst).
  inversion Hst as [|m0 used0 ? ? Hm]; subst.
  destruct (tag_run_holder _ _ _ id H0 Hm) as (a & g & b & -> & Hg & Hb).
  exists a, g, b. split_and!; try done.
  - intros h. destruct (tag_run_used _ _ Hrun) as (_ & I2 & _).
    destruct (I2 id a g (b ++ Delivered id f :: tr2) ltac:(by rewrite <-app_assoc) h) as [Ha Hb'].
    rewrite elem_of_app, elem_of_cons in Hb'. naive_solver.
  - intros h. split.
    + intros Hin. destruct (tag_run_used _ _ H0) as (_ & _ & I3 & _).
      destruct (I3 id h Hin) as [_ Hno]. by apply (Hno (Fcall_Tag f)).
    + intros (x & y & ->)%list_elem_of_split.
      assert (∃ s'', tag_run (((a ++ Wrote id g :: b) ++ Delivered id f :: x) ++ [Delivered id h]) s'')
        as [s'' Hs''].
      { eapply tag_run_prefix. rewrite <-!app_assoc. rewrite <-!app_assoc in Hrun. exact Hrun. }
      destruct (tag_run_snoc_inv _ _ _ Hs'') as (s3 & H3 & Hst3).
      inversion Hst3 as [|m3 used3 ? ? Hm3]; subst.
      destruct (tag_run_used _ _ H3) as (_ & _ & I3 & _).
      destruct (I3 id f ltac:(rewrite elem_of_app, elem_of_cons; auto)) as [_ Hno].
      by apply (Hno (Fcall_Tag h)).
Qed.

(** A whole call: a request for message Tclunk 9 gets tag 1, and the Rclunk
    with tag 1 that the peer sends is delivered to it. *)
Definition sample_ch : channel :=
  newChannel (sendmsg [x79; x01; x00]) 64.
Definition sample_start : transport :=
  send_start (newTransport None sample_ch) 7 None (MessageTclunk 9).
Definition sample_sent : transport * list label :=
  handle_request codec9p (set_calls sample_start (<[7 := Waiting]> (calls sample_start))) 7
    (newFcallRequest None (MessageTclunk 9)).
Definition sample_read : transport := reader_read codec9p (fst sample_sent).
Definition sample_done : transport * list label :=
  handle_response (set_reader sample_read Reading) (newFcall 1 MessageRclunk).

Lemma sample_reachable :
  reachable codec9p None sample_ch
    [Wrote 7 (newFcall 1 (MessageTclunk 9)); Delivered 7 (newFcall 1 MessageRclunk)]
    (fst sample_done).
Proof.
  change [Wrote 7 (newFcall 1 (MessageTclunk 9)); Delivered 7 (newFcall 1 MessageRclunk)]
    with ((([] ++ []) ++ [Wrote 7 (newFcall 1 (MessageTclunk 9))]) ++ []
          ++ [Delivered 7 (newFcall 1 MessageRclunk)]).
  rewrite (app_assoc _ [] [Delivered _ _]).
  eapply (reach_step _ _ _ _ sample_read); [eapply (reach_step _ _ _ _ (fst sample_sent));
    [eapply (reach_step _ _ _ _ sample_start); [eapply reach_step; [constructor|]|]|]|].
  - by constructor.
  - apply (step_handle_request _ _ 7 (newFcallRequest None (MessageTclunk 9)));
      vm_compute; reflexivity.
  - constructor; vm_compute; reflexivity.
  - apply (step_handle_response _ _ (newFcall 1 MessageRclunk)); vm_compute; reflexivity.
Qed.

Lemma transport_refines_tags_witness :
  ∃ m used,
    tag_run [Wrote 7 (newFcall 1 (MessageTclunk 9)); Delivered 7 (newFcall 1 MessageRclunk)]
      (m, used) ∧
    match t_fault (fst sample_done) with
    | None => m = outstanding (fst sample_done)
    | Some f => f = UnknownTag ∨ ∃ w, f = ChannelFault w
    end.
Proof. exact (transport_refines_tags _ _ _ _ _ sample_reachable). Defined.

Lemma replies_match_witness :
  ∃ a g b, [Wrote 7 (newFcall 1 (MessageTclunk 9))] = a ++ Wrote 7 g :: b ∧
    Fcall_Tag g = Fcall_Tag (newFcall 1 MessageRclunk) ∧
    Forall (λ l, label_tag l ≠ Fcall_Tag (newFcall 1 MessageRclunk)) b ∧
    (∀ h, Wrote 7 h ∉ a ∧ Wrote 7 h ∉ b ∧ Wrote 7 h ∉ []) ∧
    (∀ h, Delivered 7 h ∉ [Wrote 7 (newFcall 1 (MessageTclunk 9))] ∧ Delivered 7 h ∉ []).
Proof.
  exact (replies_match _ _ _ _ _ [Wrote 7 (newFcall 1 (MessageTclunk 9))] 7
           (newFcall 1 MessageRclunk) [] sample_reachable eq_refl).
Defined.
