(* ===== verification/Readdir.v ===== *)
(** * Readdir: reading directories, readdir.go

    A Readdir turns a source of directory entries into the byte stream a
    client reads.  The source is a function on its own state (Go's closure);
    the reader's state is the record [Readdir].  [Read] returns the bytes it
    put in the buffer (whose number is Go's [n]) and Go's error.

    Readers are proved against the law of a source ([NextLaws]: it gives the
    pending entries in order, then io.EOF); the two sources of readdir.go,
    [NewFixedReaddir] and [mkNext1], are its instances. *)
From S2P Require Import Prelude Types Encoding EncodingFacts DecodeFacts Codec.

(** ** Sources of entries *)

(** The closure of [NewFixedReaddir]; its state is [dirs]. *)
Definition fixed_next (dirs : list Dir) : result error Dir * list Dir :=
  match dirs with
  | [] => (Err EOF, [])
  | d :: dirs => (Ok d, dirs)
  end.

(** The closure of [mkNext1]: [dirs], [done] and the state of [next]. *)
Definition mkNext1 {S} (next : S → result error (list Dir) * S)
    (st : list Dir * bool * S) : result error Dir * (list Dir * bool * S) :=
  let '(dirs, done, s) := st in
  if done then (Err EOF, st)
  else
    match dirs with
    | d :: dirs => (Ok d, (dirs, done, s))
    | [] =>
        match next s with
        | (Ok [], s) => (Err EOF, ([], true, s))
        | (Ok (d :: dirs), s) => (Ok d, (dirs, done, s))
        | (Err e, s) => (Err e, ([], done, s))
        | (Panic w, s) => (Panic w, ([], done, s))
        | (Hang w, s) => (Hang w, ([], done, s))
        end
    end.

(** ** The reader *)

Record Readdir (S : Type) := mkReaddir {
  rd_next : S;
  rd_buf : option Dir;
  rd_offset : Z
}.
Arguments mkReaddir {S} _ _ _.
Arguments rd_next {S} _.
Arguments rd_buf {S} _.
Arguments rd_offset {S} _.

Definition NewReaddir1 {S} (s : S) : Readdir S := mkReaddir s None 0.
Definition NewReaddir {S} (s : S) : Readdir (list Dir * bool * S) :=
  NewReaddir1 ([], false, s).
Definition NewFixedReaddir (dirs : list Dir) : Readdir (list Dir) := NewReaddir1 dirs.

Section Read.
Context {S : Type} (codec : Codec) (nextfn : S → result error Dir * S).

(** The next entry: the buffered one, or one from the source. *)
Definition take_next (rd : Readdir S) : result error Dir * Readdir S :=
  match rd_buf rd with
  | Some d => (Ok d, mkReaddir (rd_next rd) None (rd_offset rd))
  | None => let '(r, s) := nextfn (rd_next rd) in (r, mkReaddir s None (rd_offset rd))
  end.

(** The loop of [Read]; [p] is what is in the buffer of capacity [cap]. *)
Fixpoint read_loop (fuel : nat) (cap : Z) (p : bytes) (rd : Readdir S)
    : result error (bytes * option error) * Readdir S :=
  match fuel with
  | O => (Hang "Readdir.Read", rd)
  | Datatypes.S fuel =>
      if decide (len p < cap) then
        match take_next rd with
        | (Ok d, rd) =>
            match Marshal codec (VDir d) with
            | Ok dp =>
                if decide (len p + len dp > cap)
                then (Ok (p, None), mkReaddir (rd_next rd) (Some d) (rd_offset rd))
                else read_loop fuel cap (p ++ dp) rd
            | Err e => (Ok (p, Some e), rd)
            | Panic w => (Panic w, rd)
            | Hang w => (Hang w, rd)
            end
        | (Err e, rd) => (Ok (p, Some e), rd)
        | (Panic w, rd) => (Panic w, rd)
        | (Hang w, rd) => (Hang w, rd)
        end
      else (Ok (p, None), rd)
  end.

(** An iteration that goes on adds a byte at least, so [cap] + 1 are
    enough. *)
Definition Read (rd : Readdir S) (cap offset : Z)
    : result error (bytes * option error) * Readdir S :=
  if decide (rd_offset rd ≠ offset) then (Ok ([], Some ErrBadoffset), rd)
  else
    match read_loop (Datatypes.S (Z.to_nat cap)) cap [] rd with
    | (Ok (p, err), rd) =>
        let err := if decide (err = Some EOF) then None else err in
        (Ok (p, err), mkReaddir (rd_next rd) (rd_buf rd) (int64 (rd_offset rd + len p)))
    | (r, rd) => (r, rd)
    end.

(** A client that reads with a buffer of [cap] bytes, each time at the
    offset it has reached, until it gets nothing. *)
Fixpoint read_all (fuel : nat) (rd : Readdir S) (cap offset : Z)
    : result error bytes * Readdir S :=
  match fuel with
  | O => (Hang "read_all", rd)
  | Datatypes.S fuel =>
      match Read rd cap offset with
      | (Ok ([], None), rd) => (Ok [], rd)
      | (Ok (p, None), rd) =>
          match read_all fuel rd cap (offset + len p) with
          | (Ok q, rd) => (Ok (p ++ q), rd)
          | (r, rd) => (r, rd)
          end
      | (Ok (_, Some e), rd) | (Err e, rd) => (Err e, rd)
      | (Panic w, rd) => (Panic w, rd)
      | (Hang w, rd) => (Hang w, rd)
      end
  end.
End Read.

(** The methods that make a Readdir a File. *)
Definition Readdir_Write : result error Z := Err (E9p "invalid").
Definition Readdir_Close : option error := None.
Definition Readdir_IOUnit : Z := 0.

(** ** The law of a source *)

Class NextLaws {S} (next : S → result error Dir * S) (pend : S → list Dir) : Prop :=
  next_law s :
    match pend s with
    | [] => ∃ s', next s = (Err EOF, s') ∧ pend s' = []
    | d :: ds => ∃ s', next s = (Ok d, s') ∧ pend s' = ds
    end.

#[export] Instance fixed_next_laws : NextLaws fixed_next id.
Proof. intros [|d ds]; cbn; eauto. Qed.

(** A ReadNext gives batches of entries; an empty batch ends the directory. *)
Class BatchLaws {S} (next : S → result error (list Dir) * S) (batches : S → list (list Dir))
    : Prop :=
  batch_law s :
    match batches s with
    | [] => ∃ s', next s = (Ok [], s')
    | b :: bs => ∃ s', next s = (Ok b, s') ∧ batches s' = bs
    end.

(** A source of given batches. *)
Definition fixed_batches (bs : list (list Dir)) : result error (list Dir) * list (list Dir) :=
  match bs with
  | [] => (Ok [], [])
  | b :: bs => (Ok b, bs)
  end.

#[export] Instance fixed_batches_laws : BatchLaws fixed_batches id.
Proof. intros [|b bs]; cbn; eauto. Qed.

(** The entries of the batches before the first empty one. *)
Fixpoint upto_empty (bs : list (list Dir)) : list Dir :=
  match bs with
  | [] | [] :: _ => []
  | b :: bs => b ++ upto_empty bs
  end.

Definition pend_batches {S} (batches : S → list (list Dir)) (st : list Dir * bool * S)
    : list Dir :=
  let '(dirs, done, s) := st in
  if done then [] else dirs ++ upto_empty (batches s).

#[export] Instance mkNext1_laws {S} (next : S → result error (list Dir) * S) batches
    `{!BatchLaws next batches} : NextLaws (mkNext1 next) (pend_batches batches).
Proof.
  intros [[dirs done] s]. unfold pend_batches, mkNext1. destruct done.
  { eexists. split; [done|]. done. }
  destruct dirs as [|d dirs]; cbn [app]; [|by eauto].
  pose proof (batch_law s) as H. destruct (batches s) as [|b bs]; cbn [upto_empty].
  - destruct H as [s' ->]. by eexists.
  - destruct H as (s' & -> & <-). destruct b as [|d b]; [by eexists|].
    cbn [app]. eexists. split; [done|]. done.
Qed.

(** ** Facts *)

Definition wire_dirs (ds : list Dir) : bytes := concat (wire_dir <$> ds).

(** The marshalling of entries, as Readdir uses it. *)
Class DirCodec (codec : Codec) : Prop :=
  marshal_dir d : Marshal codec (VDir d) = Ok (wire_dir d).

#[export] Instance codec9p_dir : DirCodec codec9p.
Proof. intros d. apply (marshal_wire (VDir d)). simpl. unfold codec_depth. lia. Qed.

Lemma wire_dir_pos d : 0 < len (wire_dir d).
Proof. unfold wire_dir. len_simpl. pose proof (len_nonneg (wire_dir_body d)). lia. Qed.

(** How many of the entries fit a buffer of [cap] bytes. *)
Fixpoint fits (cap : Z) (ds : list Dir) : nat :=
  match ds with
  | [] => 0
  | d :: ds => if decide (len (wire_dir d) ≤ cap) then S (fits (cap - len (wire_dir d)) ds) else 0
  end.

Lemma fits_nonpos cap ds : cap ≤ 0 → fits cap ds = 0%nat.
Proof.
  intros. destruct ds as [|d ds]; [done|]. cbn [fits]. pose proof (wire_dir_pos d).
  by rewrite decide_False by lia.
Qed.

Section Facts.
Context {S : Type} (codec : Codec) `{!DirCodec codec}.
Context (next : S → result error Dir * S) (pend : S → list Dir) `{!NextLaws next pend}.

(** The entries a reader has still to give. *)
Definition pending (rd : Readdir S) : list Dir :=
  option_list (rd_buf rd) ++ pend (rd_next rd).

Lemma take_next_spec rd :
  match pending rd with
  | [] => ∃ rd', take_next next rd = (Err EOF, rd') ∧ pending rd' = [] ∧
                 rd_offset rd' = rd_offset rd
  | d :: ds => ∃ s, take_next next rd = (Ok d, mkReaddir s None (rd_offset rd)) ∧ pend s = ds
  end.
Proof.
  unfold pending, take_next. destruct (rd_buf rd) as [d|]; cbn [option_list app]; [exists (rd_next rd); by split|].
  pose proof (next_law (rd_next rd)) as H. destruct (pend (rd_next rd)) as [|d ds].
  - destruct H as (s' & -> & Hs'). eexists. split; [done|]. cbn. by rewrite Hs'.
  - destruct H as (s' & -> & Hs'). exists s'. by split.
Qed.

Lemma read_loop_spec fuel cap p rd :
  (Z.to_nat (cap - len p) < fuel)%nat →
  let k := fits (cap - len p) (pending rd) in
  ∃ err rd', read_loop codec next fuel cap p rd
             = (Ok (p ++ wire_dirs (take k (pending rd)), err), rd') ∧
    (err = None ∨ err = Some EOF) ∧ pending rd' = drop k (pending rd) ∧
    rd_offset rd' = rd_offset rd.
Proof.
  revert p rd. induction fuel as [|fuel IH]; intros p rd Hf; [lia|]. cbn [read_loop].
  destruct (decide (len p < cap)) as [Hlt|Hge].
  2:{ rewrite fits_nonpos by lia. cbv zeta. rewrite take_0, drop_0.
      exists None, rd. rewrite app_nil_r. eauto. }
  pose proof (take_next_spec rd) as H. destruct (pending rd) as [|d ds].
  { destruct H as (rd' & -> & Hp & Ho). exists (Some EOF), rd'. cbn. rewrite app_nil_r. auto. }
  destruct H as (s & -> & Hs). rewrite marshal_dir. cbn [fits].
  destruct (decide (len p + len (wire_dir d) > cap)) as [Hov|Hfit].
  - rewrite decide_False by lia. cbv zeta. exists None. eexists.
    rewrite take_0, app_nil_r. split; [done|]. unfold pending. cbn. rewrite Hs. auto.
  - rewrite decide_True by lia. cbv zeta. cbn [take drop].
    pose proof (wire_dir_pos d).
    destruct (IH (p ++ wire_dir d) (mkReaddir s None (rd_offset rd))) as (err & rd' & E & He & Hp & Ho).
    { rewrite len_app. lia. }
    rewrite E. rewrite len_app, Z.sub_add_distr in *. unfold pending in *.
    cbn [rd_buf rd_next option_list app] in *. rewrite Hs in *.
    exists err, rd'. unfold wire_dirs. cbn [fmap list_fmap concat].
    rewrite <-app_assoc. auto.
Qed.

Lemma Read_spec rd cap offset :
  rd_offset rd = offset →
  let k := fits cap (pending rd) in
  ∃ rd', Read codec next rd cap offset = (Ok (wire_dirs (take k (pending rd)), None), rd') ∧
    pending rd' = drop k (pending rd) ∧
    rd_offset rd' = int64 (offset + len (wire_dirs (take k (pending rd)))).
Proof.
  intros <-. unfold Read. rewrite decide_False by auto.
  destruct (read_loop_spec (Datatypes.S (Z.to_nat cap)) cap [] rd) as (err & rd' & E & He & Hp & Ho).
  { rewrite len_nil. lia. }
  rewrite len_nil, Z.sub_0_r in *. cbv zeta in *. rewrite E. cbn [app].
  eexists. split; [f_equal; do 2 f_equal; destruct He as [->| ->]; by case_decide|].
  unfold pending in *. cbn. by rewrite Ho.
Qed.

Lemma wire_dirs_split k ds : wire_dirs (take k ds) ++ wire_dirs (drop k ds) = wire_dirs ds.
Proof. unfold wire_dirs. by rewrite <-concat_app, <-fmap_app, take_drop. Qed.

Lemma wire_dirs_carry ds : wire_dirs (carry_Dir <$> ds) = wire_dirs ds.
Proof. unfold wire_dirs. induction ds as [|d ds IH]; [done|]. rewrite !fmap_cons. cbn [concat]. by rewrite wire_carry_dir, IH. Qed.

Lemma read_all_spec fuel rd cap :
  (length (pending rd) < fuel)%nat →
  Forall (λ d, len (wire_dir d) ≤ cap) (pending rd) →
  0 ≤ rd_offset rd → rd_offset rd + len (wire_dirs (pending rd)) < 2 ^ 63 →
  ∃ rd', read_all codec next fuel rd cap (rd_offset rd)
         = (Ok (wire_dirs (pending rd)), rd') ∧ pending rd' = [].
Proof.
  revert rd. induction fuel as [|fuel IH]; intros rd Hf Hcap H0 Hoff; [lia|].
  cbn [read_all]. destruct (Read_spec rd cap (rd_offset rd) eq_refl) as (rd' & E & Hp & Ho).
  cbv zeta in *. rewrite E. set (k := fits cap (pending rd)) in *.
  pose proof (wire_dirs_split k (pending rd)) as Hsp. rewrite <-Hsp, len_app in Hoff.
  pose proof (len_nonneg (wire_dirs (take k (pending rd)))).
  pose proof (len_nonneg (wire_dirs (drop k (pending rd)))).
  rewrite int64_small in Ho by lia.
  destruct (decide (pending rd = [])) as [Hnil|Hne].
  { rewrite Hnil in *. rewrite take_nil. exists rd'. by rewrite Hp, drop_nil. }
  assert (∃ b p, wire_dirs (take k (pending rd)) = b :: p ∧ k ≠ 0%nat) as (b & p & Hbp & Hk).
  { subst k. destruct Hcap as [|d ds Hd Hds]; [done|]. cbn [fits].
    rewrite decide_True by done. cbn [take]. unfold wire_dirs. cbn [fmap list_fmap concat].
    pose proof (wire_dir_pos d). destruct (wire_dir d); [done|]. cbn [app]. eauto. }
  rewrite Hbp in *.
  destruct (IH rd') as (rd2 & E2 & Hp2).
  - rewrite Hp, length_drop. destruct (pending rd); [done|]. cbn in *. lia.
  - rewrite Hp. by apply Forall_drop.
  - lia.
  - rewrite Ho, Hp. lia.
  - rewrite <-Ho, E2. exists rd2. by rewrite <-Hsp, Hp.
Qed.
End Facts.

(** A reader whose source always answers, and keeps [P] of its state,
    always answers and keeps [P]. *)
Section Answers.
Context {S : Type} (codec : Codec) `{!DirCodec codec}.
Context (next : S → result error Dir * S) (P : S → Prop).
Context (Hnext : ∀ s, P s → returns (fst (next s)) ∧ P (snd (next s))).

Lemma take_next_answers rd :
  P (rd_next rd) →
  returns (fst (take_next next rd)) ∧ P (rd_next (snd (take_next next rd))).
Proof.
  intros HP. unfold take_next. destruct (rd_buf rd); [done|].
  pose proof (Hnext _ HP) as H. by destruct (next (rd_next rd)).
Qed.

Lemma read_loop_answers fuel cap : ∀ p rd,
  (Z.to_nat (cap - len p) < fuel)%nat → P (rd_next rd) →
  returns (fst (read_loop codec next fuel cap p rd)) ∧
  P (rd_next (snd (read_loop codec next fuel cap p rd))).
Proof.
  induction fuel as [|fuel IH]; intros p rd Hf HP; [lia|]. cbn [read_loop].
  case_decide as Hl; [|done]. pose proof (take_next_answers rd HP) as [Hr Hs].
  destruct (take_next next rd) as [[d|e|y|y] rd']; [|done..]. cbn [fst snd] in *.
  rewrite marshal_dir. pose proof (wire_dir_pos d). case_decide; [done|].
  apply IH; [|done]. rewrite len_app. lia.
Qed.

Lemma Read_answers rd cap offset :
  P (rd_next rd) →
  returns (fst (Read codec next rd cap offset)) ∧
  P (rd_next (snd (Read codec next rd cap offset))).
Proof.
  intros HP. unfold Read. case_decide; [done|].
  destruct (read_loop_answers (Datatypes.S (Z.to_nat cap)) cap [] rd) as [Hr Hs];
    [rewrite len_nil; lia|done|].
  by destruct (read_loop _ _ _ _ _ _) as [[[p e]|e|y|y] rd'].
Qed.
End Answers.

(** ** Theorems *)

(** A directory read gives whole entries: at the reader's own offset,
    Read puts in the buffer the encodings of as many pending entries as fit,
    in order, with no error; the others stay pending, none is lost or given
    twice, and the offset grows by the bytes read.  At any other offset it
    fails with "bad offset" and the reader does not change. *)
Theorem readdir_read {S} codec (next : S → result error Dir * S) pend rd cap offset :
  DirCodec codec → NextLaws next pend →
  if decide (rd_offset rd = offset) then
    ∃ rd', Read codec next rd cap offset
           = (Ok (wire_dirs (take (fits cap (pending pend rd)) (pending pend rd)), None), rd') ∧
      pending pend rd' = drop (fits cap (pending pend rd)) (pending pend rd) ∧
      rd_offset rd' = int64 (offset + len (wire_dirs (take (fits cap (pending pend rd))
                                                       (pending pend rd))))
  else Read codec next rd cap offset = (Ok ([], Some ErrBadoffset), rd).
Proof.
  intros Hc Hn. destruct (decide (rd_offset rd = offset)) as [He|He].
  - by apply Read_spec.
  - unfold Read. by rewrite decide_True.
Qed.

Definition named (s : string) : Dir := mkDir 0 0 zeroQid 0 (mkTime 0 0) (mkTime 0 0) 0 s "" "" "".

Lemma readdir_read_witness :
  Read codec9p fixed_next (NewFixedReaddir [named "a"; named "b"; named "c"]) 110 0
  = (Ok (wire_dir (named "a") ++ wire_dir (named "b"), None),
     mkReaddir [] (Some (named "c")) 100) ∧
  ∃ rd', Read codec9p fixed_next (NewFixedReaddir [named "a"; named "b"; named "c"]) 110 0
         = (Ok (wire_dirs [named "a"; named "b"], None), rd') ∧
    pending id rd' = [named "c"] ∧ rd_offset rd' = 100.
Proof.
  split; [vm_compute; reflexivity|].
  exact (readdir_read codec9p fixed_next id
           (NewFixedReaddir [named "a"; named "b"; named "c"]) 110 0 _ _).
Defined.

(** C32. A client that reads a directory with a buffer no smaller than any
    entry, advancing its offset by what it got until it gets nothing, ends
    after at most one read per entry and one more, and has the encodings of
    all the entries in order, which decode to the entries (with their times
    in seconds, all the protocol carries). *)
Theorem readdir_all {S} codec (next : S → result error Dir * S) pend rd cap :
  DirCodec codec → NextLaws next pend →
  Forall (λ d, len (wire_dir d) ≤ cap ∧ wf_Dir (carry_Dir d)) (pending pend rd) →
  rd_offset rd = 0 → len (wire_dirs (pending pend rd)) < 2 ^ 63 →
  ∃ data rd', read_all codec next (length (pending pend rd) + 1) rd cap 0 = (Ok data, rd') ∧
    pending pend rd' = [] ∧
    codec9p_Unmarshal data (VPtr (VDirs [])) = Ok (VPtr (VDirs (carry_Dir <$> pending pend rd))).
Proof.
  intros Hc Hn Hall H0 Hlen.
  destruct (read_all_spec codec next pend (length (pending pend rd) + 1) rd cap)
    as (rd' & E & Hp); [lia| |lia|lia|].
  { eapply Forall_impl; [exact Hall|]. by intros d [? _]. }
  rewrite H0 in E. eexists _, rd'. split; [exact E|]. split; [done|].
  rewrite <-(app_nil_r (wire_dirs _)), <-wire_dirs_carry.
  apply unmarshal_dirs; [|done].
  apply Forall_fmap. eapply Forall_impl; [exact Hall|]. by intros d [_ ?].
Qed.

(** An entry made at a time between two seconds. *)
Definition at_night : Dir := mkDir 0 0 (mkQid 0 1 2) 420 (mkTime 3 500) (mkTime 4 999999999) 0 "n" "" "" "".

Lemma readdir_all_witness :
  ∃ data rd', read_all codec9p (mkNext1 fixed_batches) 4
      (NewReaddir [[named "a"; at_night]; [named "c"]]) 110 0 = (Ok data, rd') ∧
    pending (pend_batches id) rd' = [] ∧
    codec9p_Unmarshal data (VPtr (VDirs []))
    = Ok (VPtr (VDirs (carry_Dir <$> [named "a"; at_night; named "c"]))).
Proof.
  apply (readdir_all codec9p (mkNext1 fixed_batches) (pend_batches id)
           (NewReaddir [[named "a"; at_night]; [named "c"]]) 110 _ _);
    [apply (bool_decide_unpack _); vm_compute; exact I | reflexivity
    | vm_compute; reflexivity].
Defined.

(** An entry that does not fit the buffer ends the directory for the
    client: Read gives no bytes and no error, which is how the end of a
    directory is told, and does so again however often it is called, while
    the entry and all that follow are still pending. *)
Theorem readdir_big_entry {S} codec (next : S → result error Dir * S) pend rd cap d ds :
  DirCodec codec → NextLaws next pend →
  pending pend rd = d :: ds → cap < len (wire_dir d) → 0 ≤ rd_offset rd < 2 ^ 63 →
  ∃ rd', Read codec next rd cap (rd_offset rd) = (Ok ([], None), rd') ∧
    pending pend rd' = d :: ds ∧ rd_offset rd' = rd_offset rd.
Proof.
  intros Hc Hn Hp Hcap Ho.
  destruct (Read_spec codec next pend rd cap (rd_offset rd) eq_refl) as (rd' & E & Hp' & Ho').
  cbv zeta in *. rewrite Hp in *. cbn [fits] in *. rewrite decide_False in * by lia.
  exists rd'. split; [exact E|]. split; [exact Hp'|].
  rewrite Ho', take_0. change (len (wire_dirs [])) with 0.
  by rewrite Z.add_0_r, int64_small by lia.
Qed.

Lemma readdir_big_entry_witness :
  ∃ rd', Read codec9p fixed_next (NewFixedReaddir [named "a"; named "b"]) 49 0
         = (Ok ([], None), rd') ∧
    pending id rd' = [named "a"; named "b"] ∧ rd_offset rd' = 0.
Proof.
  apply (readdir_big_entry codec9p fixed_next id (NewFixedReaddir [named "a"; named "b"]) 49
           (named "a") [named "b"] _ _); [reflexivity|vm_compute; reflexivity|].
  change (0 ≤ 0 < 2 ^ 63). lia.
Defined.
