(* ===== verification/ServeConn.v ===== *)
(** * ServeConn: the server's loop, serveconn.go

    A connection is served by a reader, a writer, one goroutine per request
    and the main loop of [serve], which owns the map of active tags.  As for
    the client's transport, the state of all of them is one record, each
    atomic action is an executable function, an unbuffered channel is a joint
    action, and the step relation runs any enabled action; a select takes any
    case that is ready.  Handing a response to the writer and the writer's
    WriteFcall are one step: the channel between them has no buffer, and the
    writer does nothing else.  The reader may take a message ([reader_read])
    or meet its deadline with any number of bytes come ([reader_late]).  What
    the handler returns for a request is arbitrary.

    The specification [serve_step] is a machine over the map of active tags. *)
From S2P Require Import Prelude Types Encoding Channel Version.

(** The goroutine of a request: in the handler, at its select with a
    response, or gone. *)
Inductive handler_pc :=
| Handling
| Finished (resp : Fcall)
| Gone.

(** An accepted request and its goroutine; [rq_cancelled] tells whether its
    own context was cancelled. *)
Record request := mkRequest {
  rq_fcall : Fcall;
  rq_cancelled : bool;
  rq_pc : handler_pc
}.

(** The main loop: at its select, at one of the two selects that bypass the
    tags, at the select that answers (request [id], under the tag held by
    [active]), or returned. *)
Inductive main_pc :=
| Selecting
| Sending (f : Fcall)
| Replying (id active : Z) (f : Fcall)
| MainReturned (err : error).

Inductive reader_pc :=
| Reading
| Offering (f : Fcall)
| ReaderExit.

Record conn := mkConn {
  c_ctx : option error;
  c_ch : channel;
  c_err : option error;               (* c.err; set when c.closed is closed *)
  tags : gmap Z Z;                    (* tag to active request *)
  c_reqs : gmap Z request;
  c_main : main_pc;
  c_reader : reader_pc;
  c_writer : bool;                    (* the writer is running *)
  c_fault : option string
}.

Definition newConn (ctx : option error) (ch : channel) : conn :=
  mkConn ctx ch None ∅ ∅ Selecting Reading true None.

Definition with_main (c : conn) m :=
  mkConn (c_ctx c) (c_ch c) (c_err c) (tags c) (c_reqs c) m (c_reader c) (c_writer c) (c_fault c).
Definition with_tags (c : conn) t :=
  mkConn (c_ctx c) (c_ch c) (c_err c) t (c_reqs c) (c_main c) (c_reader c) (c_writer c) (c_fault c).
Definition with_reqs (c : conn) r :=
  mkConn (c_ctx c) (c_ch c) (c_err c) (tags c) r (c_main c) (c_reader c) (c_writer c) (c_fault c).
Definition with_ch (c : conn) ch :=
  mkConn (c_ctx c) ch (c_err c) (tags c) (c_reqs c) (c_main c) (c_reader c) (c_writer c) (c_fault c).
Definition with_reader (c : conn) rd :=
  mkConn (c_ctx c) (c_ch c) (c_err c) (tags c) (c_reqs c) (c_main c) rd (c_writer c) (c_fault c).
Definition with_writer (c : conn) w :=
  mkConn (c_ctx c) (c_ch c) (c_err c) (tags c) (c_reqs c) (c_main c) (c_reader c) w (c_fault c).
Definition with_fault (c : conn) w :=
  mkConn (c_ctx c) (c_ch c) (c_err c) (tags c) (c_reqs c) (c_main c) (c_reader c) (c_writer c) (Some w).
Definition with_ctx (c : conn) x :=
  mkConn x (c_ch c) (c_err c) (tags c) (c_reqs c) (c_main c) (c_reader c) (c_writer c) (c_fault c).

(** [CloseWithError]: only the first call counts. *)
Definition CloseWithError (c : conn) (err : option error) : conn :=
  let e := default ErrClosed err in
  mkConn (c_ctx c) (c_ch c) (Some (default e (c_err c))) (tags c) (c_reqs c) (c_main c)
    (c_reader c) (c_writer c) (c_fault c).

(** [active.cancel()] *)
Definition cancel (id : Z) (rs : gmap Z request) : gmap Z request :=
  alter (λ rq, mkRequest (rq_fcall rq) true (rq_pc rq)) id rs.

Definition set_pc (id : Z) (pc : handler_pc) (rs : gmap Z request) : gmap Z request :=
  alter (λ rq, mkRequest (rq_fcall rq) (rq_cancelled rq) pc) id rs.

(** [tags.remove(t)] *)
Definition reqMap_remove (c : conn) (t : Z) : conn * option Z :=
  match tags c !! t with
  | Some id => (with_tags (with_reqs c (cancel id (c_reqs c))) (delete t (tags c)), Some id)
  | None => (c, None)
  end.

(** The main loop returns; its deferred function cancels the active
    requests. *)
Definition main_return (c : conn) (err : error) : conn :=
  with_main (with_reqs c (foldr cancel (c_reqs c) (snd <$> map_to_list (tags c))))
    (MainReturned err).

(** ** Labels *)

Inductive label :=
| Accept (id : Z) (req : Fcall)              (* handed to the handler *)
| Handled (id : Z) (resp : Fcall)            (* the handler returned *)
| Reply (id active : Z) (resp : Fcall)       (* response of [id] to the writer *)
| Expire (id active : Z) (resp : Fcall)      (* response of [id] given up *)
| Flushed (id tag : Z)
| Bypass (resp : Fcall).                     (* response of the loop itself *)

(** ** The actions *)

(** The case [<-requests]; [id] names the request if it is accepted. *)
Definition main_request (c : conn) (id : Z) (req : Fcall) : conn * list label :=
  match tags c !! Fcall_Tag req with
  | Some _ => (with_main c (Sending (newErrorFcall (Fcall_Tag req) ErrDuptag)), [])
  | None =>
      match Fcall_Message req with
      | Some (MessageTflush oldtag) =>
          match reqMap_remove c oldtag with
          | (c, Some old) =>
              (with_main c (Sending (newFcall (Fcall_Tag req) MessageRflush)), [Flushed old oldtag])
          | (c, None) =>
              (with_main c (Sending (newErrorFcall (Fcall_Tag req) ErrUnknownTag)), [])
          end
      | _ =>
          (with_reqs (with_tags c (<[Fcall_Tag req := id]> (tags c)))
             (<[id := mkRequest req false Handling]> (c_reqs c)), [Accept id req])
      end
  end.

(** The case [<-completed] up to its inner select. *)
Definition main_completed (c : conn) (id : Z) (resp : Fcall) : conn :=
  let c := with_reqs c (set_pc id Gone (c_reqs c)) in
  match tags c !! Fcall_Tag resp with
  | None => c
  | Some active => with_main c (Replying id active resp)
  end.

(** After the inner select. *)
Definition main_answered (c : conn) (resp : Fcall) : conn :=
  with_main (with_tags c (delete (Fcall_Tag resp) (tags c))) Selecting.

(** The response for what the handler returned. *)
Definition handler_response (req : Fcall) (r : error + Message) : Fcall :=
  match r with
  | inl err => newErrorFcall (Fcall_Tag req) err
  | inr msg => newFcall (Fcall_Tag req) msg
  end.

Definition temporary (e : error) : bool :=
  match e with netError _ t1 t2 => t1 || t2 | _ => false end.

Section Actions.
Variable codec : Codec.

(** What the reader makes of a read: a timeout is tried again. *)
Definition reader_took (c : conn) (x : result error Fcall * channel) : conn :=
  match x with
  | (Ok req, ch) => with_reader (with_ch c ch) (Offering req)
  | (Err e, ch) =>
      if temporary e then with_ch c ch
      else with_reader (CloseWithError (with_ch c ch)
             (Some (errorString ("error reading fcall: " +:+ Error_ e)))) ReaderExit
  | (Panic w, ch) | (Hang w, ch) => with_fault (with_ch c ch) w
  end.

Definition reader_read (c : conn) : conn :=
  reader_took c (ReadFcall codec (c_ctx c) (c_ch c)).
Definition reader_late (k : nat) (c : conn) : conn :=
  reader_took c (ReadFcall_late codec k (c_ctx c) (c_ch c)).

(** The writer takes a response. *)
Definition writer_write (c : conn) (resp : Fcall) : conn :=
  match WriteFcall codec (c_ctx c) (c_ch c) resp with
  | (Ok _, ch) => with_ch c ch
  | (Err e, ch) =>
      if temporary e then with_ch c ch
      else with_writer (CloseWithError (with_ch c ch)
             (Some (errorString ("error writing fcall: " +:+ Error_ e)))) false
  | (Panic w, ch) | (Hang w, ch) => with_fault (with_ch c ch) w
  end.

(** The context of an active request is done. *)
Definition request_done (c : conn) (id : Z) : bool :=
  bool_decide (is_Some (c_ctx c)) ||
  match c_reqs c !! id with Some rq => rq_cancelled rq | None => false end.

Inductive step : conn → list label → conn → Prop :=
| step_ctx c e :
    c_fault c = None → c_ctx c = None → step c [] (with_ctx c (Some e))
| step_read c :
    c_fault c = None → c_reader c = Reading → step c [] (reader_read c)
| step_late c k :
    c_fault c = None → c_reader c = Reading → step c [] (reader_late k c)
| step_request c id req c' ls :
    c_fault c = None → c_reader c = Offering req → c_main c = Selecting →
    c_reqs c !! id = None →
    main_request (with_reader c Reading) id req = (c', ls) → step c ls c'
| step_reader_ctx c req e :
    c_fault c = None → c_reader c = Offering req → c_ctx c = Some e →
    step c [] (with_reader (CloseWithError c (Some e)) ReaderExit)
| step_reader_closed c req e :
    c_fault c = None → c_reader c = Offering req → c_err c = Some e →
    step c [] (with_reader c ReaderExit)
| step_send c f :
    c_fault c = None → c_main c = Sending f → c_writer c = true →
    step c [Bypass f] (with_main (writer_write c f) Selecting)
| step_main_ctx c e :
    c_fault c = None → c_main c = Selecting ∨ (∃ f, c_main c = Sending f) →
    c_ctx c = Some e → step c [] (main_return c e)
| step_main_closed c e :
    c_fault c = None → c_main c = Selecting ∨ (∃ f, c_main c = Sending f) →
    c_err c = Some e → step c [] (main_return c e)
| step_handler c id rq r :
    c_fault c = None → c_reqs c !! id = Some rq → rq_pc rq = Handling →
    step c [Handled id (handler_response (rq_fcall rq) r)]
      (with_reqs c (set_pc id (Finished (handler_response (rq_fcall rq) r)) (c_reqs c)))
| step_handler_exit c id rq f :
    c_fault c = None → c_reqs c !! id = Some rq → rq_pc rq = Finished f →
    request_done c id = true ∨ is_Some (c_err c) →
    step c [] (with_reqs c (set_pc id Gone (c_reqs c)))
| step_completed c id rq f :
    c_fault c = None → c_main c = Selecting →
    c_reqs c !! id = Some rq → rq_pc rq = Finished f →
    step c [] (main_completed c id f)
| step_reply c id active f :
    c_fault c = None → c_main c = Replying id active f → c_writer c = true →
    step c [Reply id active f] (main_answered (writer_write c f) f)
| step_expire c id active f :
    c_fault c = None → c_main c = Replying id active f → request_done c active = true →
    step c [Expire id active f] (main_answered c f)
| step_writer_ctx c e :
    c_fault c = None → c_writer c = true → c_ctx c = Some e →
    step c [] (with_writer (CloseWithError c (Some e)) false)
| step_writer_closed c e :
    c_fault c = None → c_writer c = true → c_err c = Some e →
    step c [] (with_writer c false).

Inductive reachable (ctx : option error) (ch : channel) : list label → conn → Prop :=
| reach_new : reachable ctx ch [] (newConn ctx ch)
| reach_step tr c ls c' :
    reachable ctx ch tr c → step c ls c' → reachable ctx ch (tr ++ ls) c'.
End Actions.

(** [ServeConn] up to its loop: the negotiated connection, or the error. *)
Definition ServeConn_negotiate (codec : Codec) (ctx negctx : option error) (cn : bytes)
    : result error conn :=
  match servernegotiate codec negctx (newChannel cn DefaultMSize) DefaultVersion with
  | (Ok _, ch) => Ok (newConn ctx ch)
  | (Err e, _) => Err (errorString ("error negotiating version: " +:+ Error_ e))
  | (Panic w, _) => Panic w
  | (Hang w, _) => Hang w
  end.

(** ** Specification: active tags *)

Inductive serve_step : gmap Z Z → label → gmap Z Z → Prop :=
| spec_accept m id f :
    m !! Fcall_Tag f = None → serve_step m (Accept id f) (<[Fcall_Tag f := id]> m)
| spec_handled m id f : serve_step m (Handled id f) m
| spec_reply m id a f :
    m !! Fcall_Tag f = Some a → serve_step m (Reply id a f) (delete (Fcall_Tag f) m)
| spec_expire m id a f :
    m !! Fcall_Tag f = Some a → serve_step m (Expire id a f) (delete (Fcall_Tag f) m)
| spec_flushed m id t :
    m !! t = Some id → serve_step m (Flushed id t) (delete t m)
| spec_bypass m f : serve_step m (Bypass f) m.

Inductive serve_run : list label → gmap Z Z → Prop :=
| serve_run_nil : serve_run [] ∅
| serve_run_snoc tr m l m' : serve_run tr m → serve_step m l m' → serve_run (tr ++ [l]) m'.

(** ** The invariant *)

(** The requests whose responses have left the loop, and those accepted. *)
Definition answered_ids (tr : list label) : list Z :=
  omap (λ l, match l with Reply id _ _ | Expire id _ _ => Some id | _ => None end) tr.
Definition accepted_ids (tr : list label) : list Z :=
  omap (λ l, match l with Accept id _ => Some id | _ => None end) tr.
Definition flush_free (tr : list label) : Prop := ∀ id t, Flushed id t ∉ tr.

Record inv (tr : list label) (tg : gmap Z Z) (rs : gmap Z request) (mn : main_pc) : Prop := {
  inv_run : serve_run tr tg;
  inv_tags t id : tg !! t = Some id → ∃ rq, rs !! id = Some rq ∧ Fcall_Tag (rq_fcall rq) = t;
  inv_accept id rq : rs !! id = Some rq → Accept id (rq_fcall rq) ∈ tr;
  inv_finished id rq f : rs !! id = Some rq → rq_pc rq = Finished f →
    Handled id f ∈ tr ∧ Fcall_Tag f = Fcall_Tag (rq_fcall rq);
  inv_replying id a f : mn = Replying id a f →
    ∃ rq, rs !! id = Some rq ∧ rq_pc rq = Gone ∧ Handled id f ∈ tr ∧
      Fcall_Tag f = Fcall_Tag (rq_fcall rq) ∧ tg !! Fcall_Tag f = Some a;
  inv_answered id : id ∈ answered_ids tr →
    (∃ rq, rs !! id = Some rq ∧ rq_pc rq = Gone) ∧ ∀ a f, mn ≠ Replying id a f;
  inv_once : NoDup (answered_ids tr);
  inv_accepted id : id ∈ accepted_ids tr → is_Some (rs !! id);
  inv_accept_once : NoDup (accepted_ids tr);
  inv_origin id a f : Reply id a f ∈ tr →
    ∃ req, Accept id req ∈ tr ∧ Fcall_Tag req = Fcall_Tag f ∧ Handled id f ∈ tr;
  inv_live id rq : flush_free tr → rs !! id = Some rq → rq_pc rq ≠ Gone →
    tg !! Fcall_Tag (rq_fcall rq) = Some id;
  inv_own id a f : flush_free tr → mn = Replying id a f ∨ Reply id a f ∈ tr → a = id
}.

Lemma alter_lookup_inv {K A} `{Countable K} (f : A → A) i j (m : gmap K A) x :
  alter f i m !! j = Some x → ∃ y, m !! j = Some y ∧ (x = y ∨ i = j ∧ x = f y).
Proof.
  destruct (decide (i = j)) as [->|Hne].
  - rewrite lookup_alter_eq. intros (y & Hy & ->)%fmap_Some. eauto.
  - rewrite lookup_alter_ne by done. eauto.
Qed.

Lemma alter_lookup_fwd {K A} `{Countable K} (f : A → A) i j (m : gmap K A) y :
  m !! j = Some y → ∃ x, alter f i m !! j = Some x ∧ (x = y ∨ i = j ∧ x = f y).
Proof.
  intros Hy. destruct (decide (i = j)) as [->|Hne].
  - rewrite lookup_alter_eq, Hy. cbn. eauto.
  - rewrite lookup_alter_ne, Hy by done. eauto.
Qed.

(** Another map of requests with the same requests, at the same place or
    gone. *)
Definition advanced (rs rs' : gmap Z request) : Prop :=
  (∀ id rq', rs' !! id = Some rq' → ∃ rq, rs !! id = Some rq ∧
     rq_fcall rq' = rq_fcall rq ∧ (rq_pc rq' = rq_pc rq ∨ rq_pc rq' = Gone)) ∧
  (∀ id rq, rs !! id = Some rq → ∃ rq', rs' !! id = Some rq' ∧
     rq_fcall rq' = rq_fcall rq ∧ (rq_pc rq' = rq_pc rq ∨ rq_pc rq' = Gone)).

Lemma advanced_refl rs : advanced rs rs.
Proof. split; eauto. Qed.

Lemma advanced_alter g id rs :
  (∀ rq, rq_fcall (g rq) = rq_fcall rq ∧ (rq_pc (g rq) = rq_pc rq ∨ rq_pc (g rq) = Gone)) →
  advanced rs (alter g id rs).
Proof.
  intros Hg. split.
  - intros id' rq' H. apply alter_lookup_inv in H as (y & Hy & [->|[-> ->]]);
      destruct (Hg y); eauto.
  - intros id' rq H. apply (alter_lookup_fwd g id) in H as (x & Hx & [->|[-> ->]]);
      destruct (Hg rq); eauto.
Qed.

Lemma advanced_trans rs1 rs2 rs3 : advanced rs1 rs2 → advanced rs2 rs3 → advanced rs1 rs3.
Proof.
  intros [A1 A2] [B1 B2]. split.
  - intros id r3 H. destruct (B1 _ _ H) as (r2 & H2 & E2 & P2).
    destruct (A1 _ _ H2) as (r1 & H1 & E1 & P1). exists r1.
    split; [done|]. split; [congruence|]. destruct P2, P1; intuition congruence.
  - intros id r1 H. destruct (A2 _ _ H) as (r2 & H2 & E2 & P2).
    destruct (B2 _ _ H2) as (r3 & H3 & E3 & P3). exists r3.
    split; [done|]. split; [congruence|]. destruct P2, P3; intuition congruence.
Qed.

Lemma advanced_cancel id rs : advanced rs (cancel id rs).
Proof. apply advanced_alter. auto. Qed.
Lemma advanced_gone id rs : advanced rs (set_pc id Gone rs).
Proof. apply advanced_alter. auto. Qed.
Lemma advanced_cancel_all ids rs : advanced rs (foldr cancel rs ids).
Proof.
  induction ids as [|id ids IH]; [apply advanced_refl|].
  eapply advanced_trans; [exact IH|apply advanced_cancel].
Qed.

(** The invariant of the requests when the loop is at no reply. *)
Lemma inv_advance tr tg rs rs' mn mn' :
  inv tr tg rs mn → advanced rs rs' → (∀ id a f, mn' = Replying id a f → mn = mn') →
  inv tr tg rs' mn'.
Proof.
  intros [H1 H2 H3 H4 H5 H6 H7 H8 H9 H10 H11 H12] [A1 A2] Hmn. split; auto.
  - intros t id Ht. destruct (H2 _ _ Ht) as (rq & Hr & <-).
    destruct (A2 _ _ Hr) as (rq' & Hr' & E & _). exists rq'. by rewrite E.
  - intros id rq' Hr. destruct (A1 _ _ Hr) as (rq & Hr0 & -> & _). by apply H3.
  - intros id rq' f Hr Hp. destruct (A1 _ _ Hr) as (rq & Hr0 & -> & [E|E]); [|congruence].
    apply (H4 _ rq); congruence.
  - intros id a f E. destruct (H5 id a f) as (rq & Hr & Hg & Hh & Ht & Htg).
    { rewrite <-E. by eapply Hmn. }
    destruct (A2 _ _ Hr) as (rq' & Hr' & E' & P). exists rq'. rewrite E'.
    split_and!; try done. destruct P; congruence.
  - intros id Hid. destruct (H6 _ Hid) as [(rq & Hr & Hg) Hno]. split.
    + destruct (A2 _ _ Hr) as (rq' & Hr' & E' & P). exists rq'. split; [done|].
      destruct P; congruence.
    + intros a f E. apply (Hno a f). rewrite <-E. by eapply Hmn.
  - intros id Hid. destruct (H8 _ Hid) as [rq Hr]. by destruct (A2 _ _ Hr) as (rq' & -> & _).
  - intros id rq' Hff Hr Hp. destruct (A1 _ _ Hr) as (rq & Hr0 & E & [P|P]); [|congruence].
    rewrite E. apply H11; [done|done|congruence].
  - intros id a f Hff [E|Hin]; [|by eauto]. apply (H12 id a f Hff). left.
    rewrite <-E. by eapply Hmn.
Qed.

Lemma flush_free_app tr ls : flush_free (tr ++ ls) → flush_free tr.
Proof. intros H id t Hin. apply (H id t), elem_of_app. by left. Qed.

Lemma in_snoc {A} (x y : A) l : x ∈ l ++ [y] ↔ x ∈ l ∨ x = y.
Proof. by rewrite elem_of_app, list_elem_of_singleton. Qed.

(** A label that is neither an acceptance nor an answer. *)
Lemma inv_quiet tr tg tg' rs mn l :
  inv tr tg rs mn → serve_step tg l tg' →
  (∀ id f, l ≠ Accept id f) → (∀ id a f, l ≠ Reply id a f) → (∀ id a f, l ≠ Expire id a f) →
  (tg' = tg ∨ ((∀ id a f, mn ≠ Replying id a f) ∧ ∃ id t, l = Flushed id t ∧ tg' = delete t tg)) →
  inv (tr ++ [l]) tg' rs mn.
Proof.
  intros [H1 H2 H3 H4 H5 H6 H7 H8 H9 H10 H11 H12] Hs Na Nr Ne Htg.
  assert (answered_ids (tr ++ [l]) = answered_ids tr) as Ea.
  { unfold answered_ids. rewrite omap_app. destruct l; cbn; rewrite ?app_nil_r; naive_solver. }
  assert (accepted_ids (tr ++ [l]) = accepted_ids tr) as Ec.
  { unfold accepted_ids. rewrite omap_app. destruct l; cbn; rewrite ?app_nil_r; naive_solver. }
  assert (∀ t id, tg' !! t = Some id → tg !! t = Some id) as Hsub.
  { destruct Htg as [->|(_ & id & t & _ & ->)]; [done|]. by intros t' id' [_ ?]%lookup_delete_Some. }
  split; rewrite ?Ea, ?Ec; try done.
  - by eapply serve_run_snoc.
  - eauto.
  - intros id rq Hr. apply in_snoc. left. by apply H3.
  - intros id rq f Hr Hp. destruct (H4 _ _ _ Hr Hp). split; [|done]. apply in_snoc. by left.
  - intros id a f E. destruct (H5 _ _ _ E) as (rq & Hr & Hg & Hh & Ht & Htt).
    exists rq. split_and!; try done; [apply in_snoc; by left|].
    destruct Htg as [->|[Hn _]]; [done|by destruct (Hn id a f)].
  - intros id a f [Hin| <-]%in_snoc; [|by destruct (Nr id a f)].
    destruct (H10 _ _ _ Hin) as (req & Ha & Ht & Hh). exists req.
    split_and!; try done; apply in_snoc; by left.
  - intros id rq Hff Hr Hp. destruct Htg as [->|(_ & id' & t & -> & _)].
    + apply H11; [by eapply flush_free_app|done|done].
    + destruct (Hff id' t). apply in_snoc. by right.
  - intros id a f Hff [E|[Hin| <-]%in_snoc]; [| |by destruct (Nr id a f)];
      apply (H12 id a f (flush_free_app _ _ Hff)); auto.
Qed.

(** A request is accepted under a free tag. *)
Lemma inv_accept_step tr tg rs id req :
  inv tr tg rs Selecting → tg !! Fcall_Tag req = None → rs !! id = None →
  inv (tr ++ [Accept id req]) (<[Fcall_Tag req := id]> tg)
    (<[id := mkRequest req false Handling]> rs) Selecting.
Proof.
  intros [H1 H2 H3 H4 H5 H6 H7 H8 H9 H10 H11 H12] Ht Hid.
  assert (answered_ids (tr ++ [Accept id req]) = answered_ids tr) as Ea.
  { unfold answered_ids. rewrite omap_app. cbn. by rewrite app_nil_r. }
  assert (accepted_ids (tr ++ [Accept id req]) = accepted_ids tr ++ [id]) as Ec.
  { unfold accepted_ids. by rewrite omap_app. }
  split; rewrite ?Ea, ?Ec; try done.
  - eapply serve_run_snoc; [done|]. by constructor.
  - intros t id' [[<- <-]|[Hne Hl]]%lookup_insert_Some.
    + eexists. by rewrite lookup_insert_eq.
    + destruct (H2 _ _ Hl) as (rq & Hr & Hrt). exists rq.
      by rewrite lookup_insert_ne by congruence.
  - intros id' rq [[<- <-]|[Hne Hl]]%lookup_insert_Some; apply in_snoc; [by right|].
    left. by apply H3.
  - intros id' rq f [[<- <-]|[Hne Hl]]%lookup_insert_Some Hp; [done|].
    destruct (H4 _ _ _ Hl Hp). split; [|done]. apply in_snoc. by left.
  - intros id' Hin. destruct (H6 _ Hin) as [(rq & Hr & Hg) Hn]. split; [|done].
    exists rq. by rewrite lookup_insert_ne by congruence.
  - intros id' [Hin| ->]%in_snoc; [|by rewrite lookup_insert_eq].
    destruct (decide (id = id')) as [->|]; [by rewrite lookup_insert_eq|].
    rewrite lookup_insert_ne by done. by apply H8.
  - apply NoDup_app. split_and!; [done| |apply NoDup_singleton].
    intros x Hx ->%list_elem_of_singleton. destruct (H8 _ Hx) as [? ?]. congruence.
  - intros id' a f [Hin|[=]]%in_snoc.
    destruct (H10 _ _ _ Hin) as (r & Ha & Hrt & Hh). exists r.
    split_and!; try done; apply in_snoc; by left.
  - intros id' rq Hff [[<- <-]|[Hne Hl]]%lookup_insert_Some Hp; cbn.
    + by rewrite lookup_insert_eq.
    + pose proof (H11 _ _ (flush_free_app _ _ Hff) Hl Hp) as E.
      rewrite lookup_insert_ne by congruence. done.
  - intros id' a f Hff [E|[Hin|[=]]%in_snoc]; [done|].
    apply (H12 id' a f (flush_free_app _ _ Hff)). by right.
Qed.

(** A response leaves the loop, sent or given up. *)
Lemma inv_answer tr tg rs id a f l :
  inv tr tg rs (Replying id a f) → l = Reply id a f ∨ l = Expire id a f →
  inv (tr ++ [l]) (delete (Fcall_Tag f) tg) rs Selecting.
Proof.
  intros [H1 H2 H3 H4 H5 H6 H7 H8 H9 H10 H11 H12] Hl.
  destruct (H5 _ _ _ eq_refl) as (rq0 & Hr0 & Hg0 & Hh0 & Ht0 & Htg0).
  assert (answered_ids (tr ++ [l]) = answered_ids tr ++ [id]) as Ea.
  { unfold answered_ids. rewrite omap_app. by destruct Hl as [->| ->]. }
  assert (accepted_ids (tr ++ [l]) = accepted_ids tr) as Ec.
  { unfold accepted_ids. rewrite omap_app. destruct Hl as [->| ->]; cbn; by rewrite app_nil_r. }
  split; rewrite ?Ea, ?Ec; try done.
  - eapply serve_run_snoc; [done|]. destruct Hl as [->| ->]; by constructor.
  - intros t id' [_ Ht]%lookup_delete_Some. by apply H2.
  - intros id' rq Hr. apply in_snoc. left. by apply H3.
  - intros id' rq g Hr Hp. destruct (H4 _ _ _ Hr Hp). split; [|done]. apply in_snoc. by left.
  - intros id' [Hin| ->]%in_snoc; [|by eauto].
    destruct (H6 _ Hin) as [Hr Hn]. split; [exact Hr|done].
  - apply NoDup_app. split_and!; [done| |apply NoDup_singleton].
    intros x Hx ->%list_elem_of_singleton. destruct (H6 _ Hx) as [_ Hn]. by destruct (Hn a f).
  - intros id' a' g [Hin|E]%in_snoc.
    + destruct (H10 _ _ _ Hin) as (r & Ha & Hrt & Hh). exists r.
      split_and!; try done; apply in_snoc; by left.
    + destruct Hl as [->| ->]; [|done]. injection E as -> -> ->.
      exists (rq_fcall rq0). split_and!; [|done|]; apply in_snoc; left; [by apply H3|done].
  - intros id' rq Hff Hr Hp. apply flush_free_app in Hff as Hff0.
    pose proof (H11 _ _ Hff0 Hr Hp) as E.
    rewrite lookup_delete_ne; [done|]. intros Heq. rewrite <-Heq, Htg0 in E.
    injection E as <-. rewrite (H12 id a f Hff0) in Hr by auto. congruence.
  - intros id' a' g Hff [E|[Hin|E]%in_snoc]; [done|..].
    + apply (H12 id' a' g (flush_free_app _ _ Hff)). by right.
    + destruct Hl as [->| ->]; [|done]. injection E as -> -> ->.
      apply (H12 id a f (flush_free_app _ _ Hff)). by left.
Qed.

(** The handler returns. *)
Lemma inv_handled tr tg rs mn id rq f :
  inv tr tg rs mn → rs !! id = Some rq → rq_pc rq = Handling →
  Fcall_Tag f = Fcall_Tag (rq_fcall rq) →
  inv (tr ++ [Handled id f]) tg (set_pc id (Finished f) rs) mn.
Proof.
  intros Hi Hid Hpc Hf.
  assert (inv (tr ++ [Handled id f]) tg rs mn) as [H1 H2 H3 H4 H5 H6 H7 H8 H9 H10 H11 H12].
  { apply (inv_quiet _ tg); [done|constructor|done..|by left]. }
  assert (∀ id' r, set_pc id (Finished f) rs !! id' = Some r →
            id' ≠ id ∧ rs !! id' = Some r ∨
            id' = id ∧ r = mkRequest (rq_fcall rq) (rq_cancelled rq) (Finished f)) as Hinv.
  { intros id' r. unfold set_pc. destruct (decide (id = id')) as [<-|Hne].
    - rewrite lookup_alter_eq, Hid. cbn. intros [= <-]. by right.
    - rewrite lookup_alter_ne by done. by left. }
  assert (∀ id' r, rs !! id' = Some r → ∃ r', set_pc id (Finished f) rs !! id' = Some r' ∧
            rq_fcall r' = rq_fcall r ∧ (rq_pc r = Gone → r' = r)) as Hfwd.
  { intros id' r Hr. unfold set_pc. destruct (decide (id = id')) as [<-|Hne].
    - rewrite lookup_alter_eq, Hid. cbn. eexists. split; [done|]. simplify_eq. by split; [|congruence].
    - rewrite lookup_alter_ne by done. eauto. }
  split; try done.
  - intros t id' Ht. destruct (H2 _ _ Ht) as (r & Hr & <-).
    destruct (Hfwd _ _ Hr) as (r' & Hr' & E & _). exists r'. by rewrite E.
  - intros id' r [[_ Hr]|[-> ->]]%Hinv; [by apply H3|]. by apply (H3 _ _ Hid).
  - intros id' r g [[_ Hr]|[-> ->]]%Hinv Hp; [by apply (H4 _ _ _ Hr)|].
    cbn in Hp. injection Hp as ->. split; [|done]. apply in_snoc. by right.
  - intros id' a g E. destruct (H5 _ _ _ E) as (r & Hr & Hg & Hrest).
    destruct (Hfwd _ _ Hr) as (r' & Hr' & _ & E'). rewrite (E' Hg) in Hr'. eauto.
  - intros id' Hin. destruct (H6 _ Hin) as [(r & Hr & Hg) Hn]. split; [|done].
    destruct (Hfwd _ _ Hr) as (r' & Hr' & _ & E'). rewrite (E' Hg) in Hr'. eauto.
  - intros id' Hin. destruct (H8 _ Hin) as [r Hr].
    by destruct (Hfwd _ _ Hr) as (r' & -> & _).
  - intros id' r Hff [[_ Hr]|[-> ->]]%Hinv Hp; [by apply H11|].
    apply (H11 _ _ Hff Hid). congruence.
Qed.

(** The loop receives a response and finds its tag active. *)
Lemma inv_completed tr tg rs id rq f a :
  inv tr tg rs Selecting → rs !! id = Some rq → rq_pc rq = Finished f →
  tg !! Fcall_Tag f = Some a →
  inv tr tg (set_pc id Gone rs) (Replying id a f).
Proof.
  intros Hi Hid Hpc Ha. pose proof (inv_finished _ _ _ _ Hi _ _ _ Hid Hpc) as [Hh Ht].
  assert (inv tr tg (set_pc id Gone rs) Selecting) as [H1 H2 H3 H4 H5 H6 H7 H8 H9 H10 H11 H12].
  { eapply inv_advance; [done|apply advanced_gone|done]. }
  assert (set_pc id Gone rs !! id = Some (mkRequest (rq_fcall rq) (rq_cancelled rq) Gone)) as E.
  { unfold set_pc. by rewrite lookup_alter_eq, Hid. }
  split; try done.
  - intros id' a' f' [= <- <- <-]. eauto 10.
  - intros id' Hin. destruct (H6 _ Hin) as [Hr _]. split; [done|].
    intros a' f' [= <- _ _]. destruct (inv_answered _ _ _ _ Hi _ Hin) as [(r & Hr' & Hg) _].
    congruence.
  - intros id' a' f' Hff [[= <- <- <-]|Hin]; [|by apply (H12 _ _ f' Hff); right].
    pose proof (inv_live _ _ _ _ Hi _ _ Hff Hid) as Hl. rewrite <-Ht, Ha in Hl.
    assert (Some a = Some id) as [= ->]; [|done]. apply Hl. congruence.
Qed.

(** What the reader and the writer leave alone. *)
Lemma reader_took_same c x :
  tags (reader_took c x) = tags c ∧ c_reqs (reader_took c x) = c_reqs c ∧
  c_main (reader_took c x) = c_main c ∧ c_ctx (reader_took c x) = c_ctx c ∧
  c_writer (reader_took c x) = c_writer c.
Proof. unfold reader_took. split_and!; repeat case_match; done. Qed.
Lemma writer_write_same_tags codec c f : tags (writer_write codec c f) = tags c.
Proof. unfold writer_write. repeat case_match; done. Qed.
Lemma writer_write_same_reqs codec c f : c_reqs (writer_write codec c f) = c_reqs c.
Proof. unfold writer_write. repeat case_match; done. Qed.

Lemma inv_step codec tr c ls c' :
  inv tr (tags c) (c_reqs c) (c_main c) → step codec c ls c' →
  inv (tr ++ ls) (tags c') (c_reqs c') (c_main c').
Proof.
  intros Hi Hs. destruct Hs as [c e Hf Hc|c Hf Hr|c k Hf Hr|c id req c' ls Hf Hr Hm Hid Hreq|c req e Hf Hr Hc
    |c req e Hf Hr Hc|c f Hf Hm Hw|c e Hf Hm Hc|c e Hf Hm Hc|c id rq r Hf Hid Hpc
    |c id rq f Hf Hid Hpc Hd|c id rq f Hf Hm Hid Hpc|c id a f Hf Hm Hw|c id a f Hf Hm Hd
    |c e Hf Hw Hc|c e Hf Hw Hc]; rewrite ?app_nil_r; try exact Hi.
  - unfold reader_read. destruct (reader_took_same c (ReadFcall codec (c_ctx c) (c_ch c)))
      as (-> & -> & -> & _). exact Hi.
  - unfold reader_late. destruct (reader_took_same c (ReadFcall_late codec k (c_ctx c) (c_ch c)))
      as (-> & -> & -> & _). exact Hi.
  - rewrite Hm in Hi. unfold main_request in Hreq. cbn in Hreq.
    destruct (tags c !! Fcall_Tag req) as [id0|] eqn:Ht.
    { injection Hreq as <- <-. rewrite app_nil_r. cbn.
      eapply inv_advance; [done|apply advanced_refl|done]. }
    assert (inv (tr ++ [Accept id req]) (<[Fcall_Tag req := id]> (tags c))
              (<[id := mkRequest req false Handling]> (c_reqs c)) (c_main c)) as Hacc.
    { rewrite Hm. by apply inv_accept_step. }
    destruct (Fcall_Message req) as [[]|]; try (injection Hreq as <- <-; exact Hacc).
    unfold reqMap_remove in Hreq. cbn in Hreq.
    destruct (tags c !! Oldtag) as [old|] eqn:Ho; injection Hreq as <- <-; cbn.
    + apply (inv_advance _ _ (c_reqs c) _ Selecting); [|apply advanced_cancel|done].
      apply (inv_quiet _ (tags c) _ _ Selecting);
        [done|by constructor|done..|right; split; [done|eauto]].
    + rewrite app_nil_r. eapply inv_advance; [done|apply advanced_refl|done].
  - cbn. rewrite writer_write_same_tags, writer_write_same_reqs.
    apply (inv_advance _ _ (c_reqs c) _ (c_main c)); [|apply advanced_refl|done].
    apply (inv_quiet _ (tags c) _ _ (c_main c)); [done|constructor|done..|by left].
  - eapply inv_advance; [done|apply advanced_cancel_all|done].
  - eapply inv_advance; [done|apply advanced_cancel_all|done].
  - cbn. eapply inv_handled; [done|done|done|]. by destruct r.
  - eapply inv_advance; [done|apply advanced_gone|done].
  - rewrite Hm in Hi. unfold main_completed. cbn.
    destruct (tags c !! Fcall_Tag f) as [a|] eqn:Ht; cbn.
    + by eapply inv_completed.
    + rewrite Hm. eapply inv_advance; [done|apply advanced_gone|done].
  - cbn. rewrite writer_write_same_tags, writer_write_same_reqs. rewrite Hm in Hi.
    eapply inv_answer; [done|by left].
  - cbn. rewrite Hm in Hi. eapply inv_answer; [done|by right].
Qed.

Lemma reachable_inv codec ctx ch tr c :
  reachable codec ctx ch tr c → inv tr (tags c) (c_reqs c) (c_main c).
Proof.
  induction 1 as [|tr c ls c' _ IH Hs]; [|by eapply inv_step].
  split; cbn; try done; try (by intros ? [? ?%elem_of_nil]); try apply NoDup_nil_2;
    try constructor; intros; set_solver.
Qed.

(** ** Consequences of the specification *)

Definition label_tag (l : label) : option Z :=
  match l with
  | Accept _ f | Reply _ _ f | Expire _ _ f => Some (Fcall_Tag f)
  | Flushed _ t => Some t
  | Handled _ _ | Bypass _ => None
  end.

(** The last use of an active tag is the acceptance of its holder. *)
Lemma serve_run_holder tr m t id :
  serve_run tr m → m !! t = Some id →
  ∃ x req y, tr = x ++ Accept id req :: y ∧ Fcall_Tag req = t ∧
    Forall (λ l, label_tag l ≠ Some t) y.
Proof.
  induction 1 as [|tr m l m' Hrun IH Hs]; [done|].
  assert (m !! t = Some id → label_tag l ≠ Some t →
    ∃ x req y, tr ++ [l] = x ++ Accept id req :: y ∧ Fcall_Tag req = t ∧
      Forall (λ l, label_tag l ≠ Some t) y) as Hext.
  { intros Hm Hl. destruct (IH Hm) as (x & req & y & -> & Ht & Hy).
    exists x, req, (y ++ [l]). rewrite <-app_assoc. split_and!; [done|done|].
    by apply Forall_app_2; [|constructor]. }
  destruct Hs; cbn [label_tag] in Hext.
  - intros [[Heq <-]|[Hne Hm]]%lookup_insert_Some; [by exists tr, f, []|].
    apply Hext; congruence.
  - intros Hm. by apply Hext.
  - intros [Hne Hm]%lookup_delete_Some. apply Hext; congruence.
  - intros [Hne Hm]%lookup_delete_Some. apply Hext; congruence.
  - intros [Hne Hm]%lookup_delete_Some. apply Hext; congruence.
  - intros Hm. by apply Hext.
Qed.

Lemma serve_run_prefix tr1 l tr2 m :
  serve_run (tr1 ++ l :: tr2) m → ∃ m1 m2, serve_run tr1 m1 ∧ serve_step m1 l m2.
Proof.
  revert m. induction tr2 as [|l2 tr2 IH] using rev_ind; intros m H.
  - inversion H as [E|? m0 l' ? H0 Hs E]; [by destruct tr1|].
    apply app_inj_tail in E as [-> ->]. eauto.
  - rewrite app_comm_cons, app_assoc in H. inversion H as [E|? m0 l' ? H0 Hs E].
    { by destruct tr1. }
    apply app_inj_tail in E as [-> ->]. eauto.
Qed.

(** ** Runs, by scheduled actions *)

Inductive action :=
| ARead | ARequest (id : Z) | ASend | AHandler (id : Z) (r : error + Message)
| ACompleted (id : Z) | AReply.

Section Run.
Variable codec : Codec.

Definition act (a : action) (c : conn) : option (list label * conn) :=
  match c_fault c, a with
  | Some _, _ => None
  | None, ARead =>
      match c_reader c with Reading => Some ([], reader_read codec c) | _ => None end
  | None, ARequest id =>
      match c_reader c, c_main c, c_reqs c !! id with
      | Offering req, Selecting, None =>
          let '(c', ls) := main_request (with_reader c Reading) id req in Some (ls, c')
      | _, _, _ => None
      end
  | None, ASend =>
      match c_main c, c_writer c with
      | Sending f, true => Some ([Bypass f], with_main (writer_write codec c f) Selecting)
      | _, _ => None
      end
  | None, AHandler id r =>
      match c_reqs c !! id with
      | Some rq =>
          match rq_pc rq with
          | Handling =>
              let f := handler_response (rq_fcall rq) r in
              Some ([Handled id f], with_reqs c (set_pc id (Finished f) (c_reqs c)))
          | _ => None
          end
      | None => None
      end
  | None, ACompleted id =>
      match c_main c, c_reqs c !! id with
      | Selecting, Some rq =>
          match rq_pc rq with Finished f => Some ([], main_completed c id f) | _ => None end
      | _, _ => None
      end
  | None, AReply =>
      match c_main c, c_writer c with
      | Replying id a f, true => Some ([Reply id a f], main_answered (writer_write codec c f) f)
      | _, _ => None
      end
  end.

Fixpoint run (acts : list action) (tr : list label) (c : conn) : option (list label * conn) :=
  match acts with
  | [] => Some (tr, c)
  | a :: acts => '(ls, c) ← act a c; run acts (tr ++ ls) c
  end.

Lemma act_step a c ls c' : act a c = Some (ls, c') → step codec c ls c'.
Proof.
  unfold act. intros H. destruct (c_fault c) eqn:Hf; [done|].
  destruct a; repeat case_match; simplify_eq; by econstructor.
Qed.

Lemma run_reachable ctx ch acts tr c tr' c' :
  reachable codec ctx ch tr c → run acts tr c = Some (tr', c') →
  reachable codec ctx ch tr' c'.
Proof.
  revert tr c. induction acts as [|a acts IH]; intros tr c Hr; cbn; [by intros [= <- <-]|].
  destruct (act a c) as [[ls c1]|] eqn:E; [|done]. cbn. apply IH.
  eapply reach_step; [done|]. by eapply act_step.
Qed.
End Run.

(** ** Theorems *)

(** C6. The server loop refines the machine of active tags, in every
    interleaving, with any peer, any handler, any cancellations and write
    errors: a request is handed to the handler only when its tag is free
    (else it is answered "duplicate tag"), a response goes out only under an
    active tag and frees it, a flush frees the tag it names.  Every response
    sent is what the handler returned for a request that was accepted under
    the same tag, and no request is answered twice. *)
Theorem serve_refines codec ctx ch tr c :
  reachable codec ctx ch tr c →
  serve_run tr (tags c) ∧ NoDup (accepted_ids tr) ∧ NoDup (answered_ids tr) ∧
  ∀ id a f, Reply id a f ∈ tr →
    ∃ req, Accept id req ∈ tr ∧ Fcall_Tag req = Fcall_Tag f ∧ Handled id f ∈ tr.
Proof. intros Hi%reachable_inv. split_and!; apply Hi. Qed.

(** C7. As long as nothing is flushed, a response goes to the request that
    holds its tag: the last use of the tag before the response is the
    acceptance of the very request the handler answered. *)
Theorem serve_flush_free codec ctx ch tr c tr1 id a f tr2 :
  reachable codec ctx ch tr c → flush_free tr → tr = tr1 ++ Reply id a f :: tr2 →
  a = id ∧ ∃ x req y, tr1 = x ++ Accept id req :: y ∧ Fcall_Tag req = Fcall_Tag f ∧
    Forall (λ l, label_tag l ≠ Some (Fcall_Tag f)) y.
Proof.
  intros Hi%reachable_inv Hff ->. pose proof (inv_run _ _ _ _ Hi) as Hrun.
  assert (a = id) as ->.
  { eapply (inv_own _ _ _ _ Hi id a f Hff). right. apply elem_of_app. right. by left. }
  split; [done|]. destruct (serve_run_prefix _ _ _ _ Hrun) as (m1 & m2 & H1 & Hs).
  inversion Hs; subst. by eapply serve_run_holder.
Qed.

Definition T1 : Fcall := newFcall 5 (MessageTstat 1).
Definition T2 : Fcall := newFcall 5 (MessageTclunk 2).
Definition Tf : Fcall := newFcall 6 (MessageTflush 5).
Definition frames (fs : list Fcall) : bytes :=
  concat ((λ f, match codec9p_Marshal (VPtr (VFcall f)) with Ok p => sendmsg p | _ => [] end) <$> fs).

Definition plain_run : option (list label * conn) :=
  run codec9p [ARead; ARequest 1; AHandler 1 (inl ErrPerm); ACompleted 1; AReply] []
    (newConn None (newChannel (frames [T1]) 64)).
Definition plain_end : conn := default (newConn None (newChannel [] 64)) (snd <$> plain_run).

Lemma plain_reachable :
  reachable codec9p None (newChannel (frames [T1]) 64)
    [Accept 1 T1; Handled 1 (newErrorFcall 5 ErrPerm); Reply 1 1 (newErrorFcall 5 ErrPerm)]
    plain_end.
Proof.
  apply (run_reachable codec9p None _
    [ARead; ARequest 1; AHandler 1 (inl ErrPerm); ACompleted 1; AReply] []
    (newConn None (newChannel (frames [T1]) 64))); [constructor|].
  vm_compute. reflexivity.
Qed.

Lemma serve_refines_witness :
  serve_run
    [Accept 1 T1; Handled 1 (newErrorFcall 5 ErrPerm); Reply 1 1 (newErrorFcall 5 ErrPerm)]
    (tags plain_end) ∧ tags plain_end = ∅.
Proof.
  split; [exact (proj1 (serve_refines _ _ _ _ _ plain_reachable))|vm_compute; reflexivity].
Defined.

Lemma serve_flush_free_witness :
  1 = 1 ∧ ∃ x req y,
    [Accept 1 T1; Handled 1 (newErrorFcall 5 ErrPerm)] = x ++ Accept 1 req :: y ∧
    Fcall_Tag req = Fcall_Tag (newErrorFcall 5 ErrPerm) ∧
    Forall (λ l, label_tag l ≠ Some (Fcall_Tag (newErrorFcall 5 ErrPerm))) y.
Proof.
  refine (serve_flush_free _ _ _ _ _ [Accept 1 T1; Handled 1 (newErrorFcall 5 ErrPerm)] 1 1
           (newErrorFcall 5 ErrPerm) [] plain_reachable _ eq_refl).
  intros id t Hin. repeat (apply elem_of_cons in Hin as [Hin|Hin]; [discriminate|]).
  apply elem_of_nil in Hin. exact Hin.
Defined.

(** C40. A flush does not stop a response that is already on its way: the
    goroutine of a flushed request may still win its select, and if the tag
    is in use again by then, the loop sends the old request's response to the
    new request, whose own response is later thrown away. *)
Theorem stale_reply_after_flush :
  ∃ ch tr c f, reachable codec9p None ch tr c ∧
    tr = [Accept 1 T1; Handled 1 f; Flushed 1 5; Bypass (newFcall 6 MessageRflush);
          Accept 2 T2; Reply 1 2 f; Handled 2 (newFcall 5 MessageRclunk)] ∧
    ch_out (c_ch c) = frames [newFcall 6 MessageRflush; f] ∧
    tags c = ∅ ∧ c_main c = Selecting ∧ rq_pc <$> c_reqs c !! 2 = Some Gone.
Proof.
  set (ch := newChannel (frames [T1; Tf; T2]) 64).
  set (acts := [ARead; ARequest 1; AHandler 1 (inl ErrPerm); ARead; ARequest 9; ASend;
                ARead; ARequest 2; ACompleted 1; AReply; AHandler 2 (inr MessageRclunk);
                ACompleted 2]).
  destruct (run codec9p acts [] (newConn None ch)) as [[tr c]|] eqn:E;
    [|vm_compute in E; discriminate E].
  exists ch, tr, c, (newErrorFcall 5 ErrPerm).
  split; [eapply run_reachable; [constructor|exact E]|].
  vm_compute in E. injection E as <- <-. split_and!; vm_compute; reflexivity.
Qed.

(** The loop waits to hand a response to a writer that is gone. *)
Definition stuck (c : conn) : Prop :=
  (∃ id a f, c_main c = Replying id a f ∧ request_done c a = false) ∧ c_writer c = false.

Lemma request_done_alter c a id g :
  (∀ rq, rq_cancelled (g rq) = rq_cancelled rq) →
  request_done (with_reqs c (alter g id (c_reqs c))) a = request_done c a.
Proof.
  intros Hg. unfold request_done. cbn. f_equal. destruct (decide (id = a)) as [->|Hne].
  - rewrite lookup_alter_eq. destruct (c_reqs c !! a); [apply Hg|done].
  - by rewrite lookup_alter_ne.
Qed.

Lemma request_done_same c c' a :
  c_ctx c' = c_ctx c → c_reqs c' = c_reqs c → request_done c' a = request_done c a.
Proof. unfold request_done. by intros -> ->. Qed.

Lemma stuck_step codec c ls c' :
  stuck c → step codec c ls c' → is_Some (c_ctx c') ∨ stuck c'.
Proof.
  intros [(id & a & f & Hm & Hd) Hw] Hs. unfold stuck.
  assert (∀ c1, c_main c1 = c_main c → c_writer c1 = c_writer c →
            request_done c1 a = request_done c a → is_Some (c_ctx c1) ∨
            (∃ id a f, c_main c1 = Replying id a f ∧ request_done c1 a = false) ∧
            c_writer c1 = false) as Hkeep.
  { intros c1 E1 E2 E3. right. rewrite E1, E2. split; [|done]. exists id, a, f. by rewrite E3. }
  destruct Hs; try congruence; try (destruct H0 as [E|[? E]]; congruence);
    try (by apply Hkeep).
  - left. by exists e.
  - unfold reader_read. edestruct (reader_took_same c) as (_ & Er & Em & Ec & Ew).
    apply Hkeep; [exact Em|exact Ew|by apply request_done_same].
  - unfold reader_late. edestruct (reader_took_same c) as (_ & Er & Em & Ec & Ew).
    apply Hkeep; [exact Em|exact Ew|by apply request_done_same].
  - apply Hkeep; [done|done|]. by apply request_done_alter.
  - apply Hkeep; [done|done|]. by apply request_done_alter.
Qed.

(** When the writer stops on a write error while the loop waits to hand
    it a response, serve never returns: the connection is closed and its
    error is set, but the select that hands over the response of a handler
    does not look at the closed channel.  From such a state no sequence of
    steps moves the main loop, short of the end of the server's own context,
    so ServeConn does not call the handler's Stop. *)
Theorem serve_stuck_after_write_error :
  ∃ ch tr c err, reachable codec9p None ch tr c ∧ c_err c = Some err ∧
    (∃ id a f, c_main c = Replying id a f) ∧
    ∀ c', rtc (λ x y, ∃ ls, step codec9p x ls y ∧ c_ctx y = None) c c' →
      ∃ id a f, c_main c' = Replying id a f.
Proof.
  set (ch := mkChannel (frames [T1; newFcall 7 (MessageTclunk 2)]) []
               (Some (0%nat, errorString "broken pipe")) false 64 (zero_bytes 64)).
  set (acts := [ARead; ARequest 1; ARead; ARequest 2; AHandler 1 (inl ErrPerm);
                AHandler 2 (inr MessageRclunk); ACompleted 1; AReply; ACompleted 2]).
  destruct (run codec9p acts [] (newConn None ch)) as [[tr c]|] eqn:E;
    [|vm_compute in E; discriminate E].
  exists ch, tr, c, (errorString "error writing fcall: broken pipe").
  split; [eapply run_reachable; [constructor|exact E]|].
  vm_compute in E. injection E as _ <-.
  split; [reflexivity|]. split; [eexists _, _, _; reflexivity|].
  match goal with |- ∀ c', rtc _ ?c0 c' → _ => assert (stuck c0) as Hst end.
  { split; [|reflexivity]. eexists _, _, _. split; [reflexivity|]. vm_compute. reflexivity. }
  intros c' Hr. assert (stuck c') as [(id & a & f & H & _) _]; [|eauto].
  revert Hst. induction Hr as [|x y z (ls & Hs & Hc) _ IH]; [done|].
  intros Hx. apply IH. destruct (stuck_step _ _ _ _ Hx Hs) as [[e He]|]; [congruence|done].
Qed.
