(* ===== verification/FileSys.v ===== *)
(** * FileSys: the interfaces of filesys.go

    The interfaces [FileSys], [Dirent], [File] and [AuthFile] as one class
    over the state of the file server: the handle types and an operation per
    method, which passes the state.  A method of Go with several results and
    an error gives [Ok] of the results when the error is nil; the two methods
    of [File] may give data and an error together and keep both.  A result
    that may be a nil interface is an [option].  A context is the error of its
    [Err] method when it is done. *)
From S2P Require Import Prelude Types.

Abbreviation context := (option error) (only parsing).

(** [CancelledCtxt] of context.go. *)
Definition CancelledCtxt : context := Some Canceled.

Class FileSys := {
  World : Type;                      (* the state of the file server *)
  Dirent : Type;
  File : Type;
  Iter : Type;                       (* the state of a ReadNext *)

  RequireAuth : context → World → bool;
  Auth_ : context → string → string → World → result error (option File) * World;
  Attach_ : context → string → string → option File → World
            → result error Dirent * World;

  (* AuthFile *)
  is_AuthFile : File → bool;         (* the type assertion file.(AuthFile) *)
  Success : File → World → bool;

  (* File *)
  file_Read : context → File → Z → Z → World → result error (bytes * option error) * World;
  file_Write : context → File → bytes → Z → World → result error (Z * option error) * World;
  file_IOUnit : File → World → Z;

  (* Dirent *)
  ent_Qid : Dirent → World → Qid;
  ent_OpenDir : context → Dirent → World → result error Iter * World;
  iter_Next : context → Iter → World → result error (list Dir) * (Iter * World);
  ent_Walk : context → Dirent → list string → World
             → result error (list Qid * option Dirent) * World;
  ent_Create : context → Dirent → string → Z → Z → World
               → result error (option Dirent * option File) * World;
  ent_Open : context → Dirent → Z → World → result error (option File) * World;
  ent_Remove : context → Dirent → World → result error unit * World;
  ent_Clunk : context → Dirent → World → result error unit * World;
  ent_Stat : context → Dirent → World → result error Dir * World;
  ent_WStat : context → Dirent → Dir → World → result error unit * World
}.

(** [IsDir(d)] *)
Definition IsDir `{FileSys} (d : Dirent) (w : World) : bool :=
  negb (Z.land (Qid_Type (ent_Qid d w)) QTDIR =? 0).
