(* ===== verification/SFileSys.v ===== *)
(** * SFileSys: fids and sessions of the server, sfilesys.go

    A session maps fids to SFids, each with a mutex.  Its state has the map
    ([refs]) and the SFids the map points to ([heap]), so that locks, and the
    sharing of an SFid between the map and a running call, are explicit.  The
    operations are written in a state and error monad; locking a locked mutex
    blocks for ever ([Hang]), a deferred call is [finally].  One call runs at
    a time.

    The specification and the proofs are in SessionSpec. *)
From S2P Require Import Prelude Types Encoding Path Readdir FileSys.

Section SFileSys.
Context `{FS : FileSys}.

(** The dynamic type of SFid.File: a File of the file server, or the
    directory reader this package makes. *)
Inductive sfile :=
| FUser (f : File)
| FDir (rd : Readdir (list Dir * bool * Iter)).

Record SFid := mkSFid {
  sf_Ent : option Dirent;
  sf_File : option sfile;
  sf_Mode : Z
}.

Record session := mkSession {
  s_world : World;
  refs : gmap Z Z;                   (* fid to SFid *)
  heap : gmap Z (bool * SFid)        (* locked?, and the SFid *)
}.

Definition SFileSys_new (w : World) : session := mkSession w ∅ ∅.

(** ** The monad *)

Definition M (A : Type) : Type := session → result error A * session.

#[global] Instance M_ret : MRet M := λ A a s, (Ok a, s).
#[global] Instance M_bind : MBind M := λ A B f m s,
  match m s with
  | (Ok a, s) => f a s
  | (Err e, s) => (Err e, s)
  | (Panic w, s) => (Panic w, s)
  | (Hang w, s) => (Hang w, s)
  end.

Definition fail {A} (e : error) : M A := λ s, (Err e, s).
Definition panic {A} (why : string) : M A := λ s, (Panic why, s).
Definition world {A} (m : World → result error A * World) : M A := λ s,
  let '(r, w) := m (s_world s) in (r, mkSession w (refs s) (heap s)).
Definition ask {A} (f : World → A) : M A := λ s, (Ok (f (s_world s)), s).

(** A call whose error is looked at or ignored. *)
Definition try {A} (m : M A) : M (error + A) := λ s,
  match m s with
  | (Ok a, s) => (Ok (inr a), s)
  | (Err e, s) => (Ok (inl e), s)
  | (Panic w, s) => (Panic w, s)
  | (Hang w, s) => (Hang w, s)
  end.

(** [defer]: the cleanup runs when the body returns. *)
Definition finally {A} (m : M A) (cleanup : M unit) : M A := λ s,
  match m s with
  | (Ok a, s) => match cleanup s with
                 | (Ok _, s) => (Ok a, s)
                 | (Err e, s) => (Err e, s)
                 | (Panic w, s) => (Panic w, s)
                 | (Hang w, s) => (Hang w, s)
                 end
  | (Err e, s) => match cleanup s with
                  | (Ok _, s) => (Err e, s)
                  | (Err e, s) => (Err e, s)
                  | (Panic w, s) => (Panic w, s)
                  | (Hang w, s) => (Hang w, s)
                  end
  | (Panic w, s) => (Panic w, s)
  | (Hang w, s) => (Hang w, s)
  end.

(** ** Mutexes and the map of fids *)

Definition lock (r : Z) : M unit := λ s,
  match heap s !! r with
  | Some (false, sf) => (Ok (), mkSession (s_world s) (refs s) (<[r := (true, sf)]> (heap s)))
  | Some (true, _) => (Hang "mutex is locked", s)
  | None => (Panic "nil pointer dereference", s)
  end.
Definition unlock (r : Z) : M unit := λ s,
  match heap s !! r with
  | Some (true, sf) => (Ok (), mkSession (s_world s) (refs s) (<[r := (false, sf)]> (heap s)))
  | Some (false, _) => (Panic "unlock of unlocked mutex", s)
  | None => (Panic "nil pointer dereference", s)
  end.
Definition get (r : Z) : M SFid := λ s,
  match heap s !! r with
  | Some (_, sf) => (Ok sf, s)
  | None => (Panic "nil pointer dereference", s)
  end.
Definition put (r : Z) (sf : SFid) : M unit := λ s,
  (Ok (), mkSession (s_world s) (refs s)
            (alter (λ x, (x.1, sf)) r (heap s))).

(** [sess.refs.Load], [Delete] *)
Definition refs_Load (fid : Z) : M (option Z) := λ s, (Ok (refs s !! fid), s).
Definition refs_Delete (fid : Z) : M unit := λ s,
  (Ok (), mkSession (s_world s) (delete fid (refs s)) (heap s)).

(** [&SFid{}], locked: the address is fresh. *)
Definition new_locked : M Z := λ s,
  let r := fresh (dom (heap s)) in
  (Ok r, mkSession (s_world s) (refs s) (<[r := (true, mkSFid None None 0)]> (heap s))).
Definition refs_Store (fid r : Z) : M unit := λ s,
  (Ok (), mkSession (s_world s) (<[fid := r]> (refs s)) (heap s)).

Definition getRef (fid : Z) : M Z :=
  if decide (fid = NOFID) then fail ErrUnknownfid
  else
    found ← refs_Load fid;
    match found with
    | None => fail ErrUnknownfid
    | Some r =>
        lock r;;
        sf ← get r;
        match sf_Ent sf with
        | None => unlock r;; fail ErrUnknownfid
        | Some _ => mret r
        end
    end.

Definition newRef (fid : Z) : M Z :=
  if decide (fid = NOFID) then fail ErrUnknownfid
  else
    r ← new_locked;
    found ← refs_Load fid;
    match found with
    | Some _ => fail ErrDupfid
    | None => refs_Store fid r;; mret r
    end.

(** [ref.Ent], where the code knows that it is not nil. *)
Definition ent_of (r : Z) : M Dirent :=
  sf ← get r;
  match sf_Ent sf with
  | Some ent => mret ent
  | None => panic "nil pointer dereference"
  end.

Definition link (r : Z) (ent : Dirent) : M unit :=
  sf ← get r; put r (mkSFid (Some ent) (sf_File sf) (sf_Mode sf)).

Definition combine_errors (err err2 : option error) : option error :=
  match err, err2 with
  | None, _ => err2
  | _, None => err
  | Some e, Some e2 => Some (E9p (Error_ e +:+ "/" +:+ Error_ e2))
  end.

(** [delRefAction]; its variable [err] stays nil. *)
Definition delRefAction (ctx : context) (r : Z) (remove : bool) : M unit :=
  ent ← ent_of r;
  err2 ← try (world (if remove then ent_Remove ctx ent else ent_Clunk ctx ent));
  sf ← get r;
  put r (mkSFid None (sf_File sf) (sf_Mode sf));;
  match combine_errors None (match err2 with inl e => Some e | inr _ => None end) with
  | Some e => fail e
  | None => mret ()
  end.

Definition delRef (ctx : context) (fid : Z) (remove : bool) : M unit :=
  found ← refs_Load fid;
  match found with
  | None => fail ErrUnknownfid
  | Some r =>
      refs_Delete fid;;
      lock r;;
      finally
        (sf ← get r;
         match sf_Ent sf with
         | None => mret ()
         | Some _ => delRefAction ctx r remove
         end)
        (unlock r)
  end.

(** ** The operations of the session *)

Definition aqid : Qid := mkQid QTAUTH 0 0.

Definition Auth (ctx : context) (afid : Z) (uname aname : string) : M Qid :=
  if decide (afid = NOFID) then mret aqid
  else
    req ← ask (RequireAuth ctx);
    if negb req then fail (E9p "no auth")
    else
      aref ← newRef afid;
      finally
        (r ← try (world (Auth_ ctx uname aname));
         match r with
         | inl e => refs_Delete afid;; fail e
         | inr afile =>
             sf ← get aref;
             put aref (mkSFid (sf_Ent sf) (FUser <$> afile) (sf_Mode sf));;
             mret aqid
         end)
        (unlock aref).

(** The part of [Attach] after the authentication. *)
Definition Attach_new (ctx : context) (fid : Z) (uname aname : string) (af : option File)
    : M Qid :=
  ref ← newRef fid;
  finally
    (r ← try (world (Attach_ ctx uname aname af));
     match r with
     | inl e => refs_Delete fid;; fail e
     | inr ent => link ref ent;; ask (ent_Qid ent)
     end)
    (unlock ref).

Definition Attach (ctx : context) (fid afid : Z) (uname aname : string) : M Qid :=
  if decide (afid = NOFID) then Attach_new ctx fid uname aname None
  else
    r ← try (getRef afid);
    match r with
    | inl _ => fail ErrUnknownfid
    | inr aref =>
        sf ← get aref;
        match sf_File sf with
        | None => fail ErrUnknownfid                (* aref stays locked *)
        | Some file =>
            finally
              (match file with
               | FUser f =>
                   if is_AuthFile f then
                     ok ← ask (Success f);
                     if negb ok then fail ErrPerm
                     else Attach_new ctx fid uname aname (Some f)
                   else fail ErrUnknownfid
               | FDir _ => fail ErrUnknownfid
               end)
              (unlock aref)
        end
    end.

Definition Clunk (ctx : context) (fid : Z) : M unit := delRef ctx fid false.
Definition Remove (ctx : context) (fid : Z) : M unit := delRef ctx fid true.

(** [EnsureNonNil] for a result that may be a nil interface. *)
Definition EnsureNonNil {A} (x : option A) : M A :=
  match x with
  | Some a => mret a
  | None => fail (E9p "invalid result")
  end.

(** The walk proper: the qids and the entry found. *)
Definition walk_ent (ctx : context) (ref : Z) (names : list string)
    : M (list Qid * Dirent) :=
  ent ← ent_of ref;
  if decide (names = []) then
    r ← world (ent_Walk ctx ent []);
    found ← EnsureNonNil r.2;
    mret ([], found)
  else
    dir ← ask (IsDir ent);
    if negb dir then fail (E9p "not a directory")
    else
      r ← world (ent_Walk ctx ent names);
      found ← EnsureNonNil r.2;
      mret (r.1, found).

(** [Walk] on the fid itself, and to a new fid.  [newref] is deleted unless
    the walk is complete. *)
Definition walk_same (ctx : context) (ref : Z) (names : list string) : M (list Qid) :=
  if decide (names = []) then mret []
  else
    '(qids, found) ← walk_ent ctx ref names;
    if decide (length qids = 0)%nat then mret []
    else if decide (length qids ≠ length names) then mret qids
    else
      ent ← ent_of ref;
      try (world (ent_Clunk ctx ent));;
      link ref found;;
      mret qids.

Definition walk_new (ctx : context) (ref newref newfid : Z) (names : list string)
    : M (list Qid) :=
  let drop := refs_Delete newfid;; unlock newref in
  r ← try (walk_ent ctx ref names);
  match r with
  | inl e => unlock ref;; drop;; fail e
  | inr (qids, found) =>
      if decide (names ≠ [] ∧ length qids = 0%nat) then unlock ref;; drop;; mret []
      else if decide (length qids ≠ length names) then unlock ref;; drop;; mret qids
      else
        unlock ref;;
        finally (link newref found;; mret qids) (unlock newref)
  end.

Definition Walk (ctx : context) (fid newfid : Z) (names : list string) : M (list Qid) :=
  if decide (ValidPath names < 0) then fail (E9p "Non-normalized path")
  else
    ref ← getRef fid;
    if decide (newfid = fid) then finally (walk_same ctx ref names) (unlock ref)
    else
      r ← try (newRef newfid);
      match r with
      | inl e => unlock ref;; fail e
      | inr newref => walk_new ctx ref newref newfid names
      end.

(** [rd.Read]: the reader's source is mkNext1 of the server's ReadNext. *)
Definition dir_Read (ctx : context) (rd : Readdir (list Dir * bool * Iter)) (cap offset : Z)
    (w : World) : result error (bytes * option error) * Readdir (list Dir * bool * Iter) * World :=
  let '(dirs, done, it) := rd_next rd in
  let '(r, rd) := Readdir.Read NewCodec (mkNext1 (λ '(it, w), iter_Next ctx it w))
                    (mkReaddir (dirs, done, (it, w)) (rd_buf rd) (rd_offset rd)) cap offset in
  let '(dirs, done, (it, w)) := rd_next rd in
  (r, mkReaddir (dirs, done, it) (rd_buf rd) (rd_offset rd), w).

(** [ref.File.Read]: a directory reader changes in place. *)
Definition File_Read (ctx : context) (r : Z) (file : sfile) (count offset : Z)
    : M (bytes * option error) := λ s,
  match file with
  | FUser f => world (file_Read ctx f count offset) s
  | FDir rd =>
      let '(res, rd, w) := dir_Read ctx rd count offset (s_world s) in
      (res, mkSession w (refs s)
              (alter (λ x, (x.1, mkSFid (sf_Ent x.2) (Some (FDir rd)) (sf_Mode x.2))) r (heap s)))
  end.

Definition File_Write (ctx : context) (file : sfile) (p : bytes) (offset : Z)
    : M (Z * option error) :=
  match file with
  | FUser f => world (file_Write ctx f p offset)
  | FDir _ => match Readdir_Write with
              | Ok n => mret (n, None)
              | Err e => mret (0, Some e)
              | Panic w => panic w
              | Hang w => λ s, (Hang w, s)
              end
  end.

Definition File_IOUnit (file : sfile) (w : World) : Z :=
  match file with
  | FUser f => file_IOUnit f w
  | FDir _ => Readdir_IOUnit
  end.

Definition Read (ctx : context) (fid count offset : Z) : M (bytes * option error) :=
  ref ← getRef fid;
  finally
    (sf ← get ref;
     match sf_File sf with
     | None => fail (E9p "no file open")
     | Some file =>
         if decide (Z.land (sf_Mode sf) OEXEC = OWRITE) then fail ErrNoread
         else File_Read ctx ref file count offset
     end)
    (unlock ref).

Definition Write (ctx : context) (fid : Z) (p : bytes) (offset : Z) : M (Z * option error) :=
  ref ← getRef fid;
  finally
    (sf ← get ref;
     match sf_File sf with
     | None => fail (E9p "no file open")
     | Some file =>
         if decide (Z.land (sf_Mode sf) OEXEC ≠ OWRITE ∧ Z.land (sf_Mode sf) OEXEC ≠ ORDWR)
         then fail ErrNowrite
         else File_Write ctx file p offset
     end)
    (unlock ref).

(** [openLocked] on the SFid [sf], which it updates. *)
Definition openLocked (ctx : context) (sf : SFid) (mode : Z) : M SFid :=
  match sf_File sf, sf_Ent sf with
  | Some _, _ => fail (E9p "already open")
  | None, None => panic "nil pointer dereference"
  | None, Some ent =>
      dir ← ask (IsDir ent);
      if dir : bool then
        it ← world (ent_OpenDir ctx ent);
        mret (mkSFid (Some ent) (Some (FDir (NewReaddir it))) mode)
      else
        f ← world (ent_Open ctx ent mode);
        file ← EnsureNonNil f;
        mret (mkSFid (Some ent) (Some (FUser file)) mode)
  end.

(** [ref.Ent.Qid()], [uint32(ref.File.IOUnit())] of an open SFid. *)
Definition open_result (sf : SFid) : M (Qid * Z) :=
  match sf_Ent sf, sf_File sf with
  | Some ent, Some file =>
      q ← ask (ent_Qid ent);
      n ← ask (File_IOUnit file);
      mret (q, u32 n)
  | _, _ => panic "nil pointer dereference"
  end.

Definition Open (ctx : context) (fid mode : Z) : M (Qid * Z) :=
  ref ← getRef fid;
  finally
    (sf ← get ref;
     sf ← openLocked ctx sf mode;
     put ref sf;;
     open_result sf)
    (unlock ref).

(** [fail(err.Error())] *)
Definition refail {A} (m : M A) : M A := λ s,
  match m s with
  | (Err e, s) => (Err (E9p (Error_ e)), s)
  | r => r
  end.

Definition Create (ctx : context) (parent : Z) (name : string) (perm mode : Z) : M (Qid * Z) :=
  if decide (name = "." ∨ name = "..") then fail (E9p "illegal filename")
  else
    ref ← refail (getRef parent);
    finally
      (dirent ← ent_of ref;
       dir ← ask (IsDir dirent);
       if negb dir then fail (E9p "create in non-directory")
       else
         '(ent, file) ← refail (
            r ← world (ent_Create ctx dirent name perm mode);
            ent ← EnsureNonNil r.1;
            file ← EnsureNonNil r.2;
            mret (ent, file));
         newdir ← ask (IsDir ent);
         file ← (if newdir : bool then
                   r ← try (openLocked ctx (mkSFid (Some ent) None 0) mode);
                   match r with
                   | inl e => try (delRef ctx parent false);; fail (E9p (Error_ e))
                   | inr next => mret (sf_File next)
                   end
                 else mret (Some (FUser file)));
         put ref (mkSFid (Some ent) file mode);;
         open_result (mkSFid (Some ent) file mode))
      (unlock ref).

Definition Stat (ctx : context) (fid : Z) : M Dir :=
  ref ← getRef fid;
  finally (ent ← ent_of ref; world (ent_Stat ctx ent)) (unlock ref).

Definition WStat (ctx : context) (fid : Z) (dir : Dir) : M unit :=
  ref ← getRef fid;
  finally (ent ← ent_of ref; world (ent_WStat ctx ent dir)) (unlock ref).

Definition Version : Z * string := (DefaultMSize, DefaultVersion).

(** [Stop]: every SFid of the map is clunked, without locking; the order
    of the map is not specified, the model takes that of the keys. *)
Fixpoint stop_refs (rs : list Z) : M unit :=
  match rs with
  | [] => mret ()
  | r :: rs =>
      sf ← get r;
      match sf_Ent sf with
      | Some _ => try (delRefAction CancelledCtxt r false);; stop_refs rs
      | None => stop_refs rs
      end
  end.

Definition Stop (err : option error) : M (option error) := λ s,
  (stop_refs (snd <$> map_to_list (refs s));; mret err) s.
End SFileSys.
