(* ===== verification/SessionSpec.v ===== *)
(** * SessionSpec: what a session promises

    The specification of the session of sfilesys.go: a table of fids, without
    mutexes and pointers, and for each operation its effect on the table and
    on the file server.  Operations on one fid are given by what they do to
    its SFid ([on_fid]): all other fids are untouched.  Each operation of
    SFileSys is proved to compute its specification from any state where no
    referenced mutex is held, and to leave such a state. *)
From S2P Require Import Prelude Types Encoding Path Readdir FileSys SFileSys.

Section Spec.
Context `{FS : FileSys}.

Record table := mkTable { t_world : World; t_fids : gmap Z SFid }.

(** The table of a session. *)
Definition abs (s : session) : table :=
  mkTable (s_world s) (omap (λ r, snd <$> heap s !! r) (refs s)).

(** No referenced SFid is locked, no two fids share one, NOFID is free. *)
Definition quiescent (s : session) : Prop :=
  (∀ fid r, refs s !! fid = Some r → ∃ sf, heap s !! r = Some (false, sf)) ∧
  (∀ fid1 fid2 r, refs s !! fid1 = Some r → refs s !! fid2 = Some r → fid1 = fid2) ∧
  refs s !! NOFID = None.

(** An operation on a live fid: what it does to the SFid and the server. *)
Definition on_fid {A} (fid : Z)
    (g : SFid → Dirent → World → result error A * (SFid * World)) (t : table)
    : result error A * table :=
  match t_fids t !! fid with
  | Some sf =>
      match sf_Ent sf with
      | Some ent =>
          let '(r, (sf, w)) := g sf ent (t_world t) in
          (r, mkTable w (<[fid := sf]> (t_fids t)))
      | None => (Err ErrUnknownfid, t)
      end
  | None => (Err ErrUnknownfid, t)
  end.

(** An operation that makes a fid. *)
Definition new_fid {A} (fid : Z) (g : World → result error (A * SFid) * World) (t : table)
    : result error A * table :=
  if decide (fid = NOFID) then (Err ErrUnknownfid, t)
  else
    match t_fids t !! fid with
    | Some _ => (Err ErrDupfid, t)
    | None =>
        match g (t_world t) with
        | (Ok (a, sf), w) => (Ok a, mkTable w (<[fid := sf]> (t_fids t)))
        | (Err e, w) => (Err e, mkTable w (t_fids t))
        | (Panic y, w) => (Panic y, mkTable w (t_fids t))
        | (Hang y, w) => (Hang y, mkTable w (t_fids t))
        end
    end.

(** ** The operations *)

Definition spec_Auth (ctx : context) (afid : Z) (uname aname : string) (t : table)
    : result error Qid * table :=
  if decide (afid = NOFID) then (Ok aqid, t)
  else if negb (RequireAuth ctx (t_world t)) then (Err (E9p "no auth"), t)
  else new_fid afid (λ w,
    let '(r, w) := Auth_ ctx uname aname w in
    ((λ f, (aqid, mkSFid None (FUser <$> f) 0)) <$> r, w)) t.

Definition attach_fill (ctx : context) (uname aname : string) (af : option File) (w : World)
    : result error (Qid * SFid) * World :=
  let '(r, w) := Attach_ ctx uname aname af w in
  ((λ ent, (ent_Qid ent w, mkSFid (Some ent) None 0)) <$> r, w).

Definition spec_Attach_new (ctx : context) (fid : Z) (uname aname : string)
    (af : option File) : table → result error Qid * table :=
  new_fid fid (attach_fill ctx uname aname af).

Definition spec_Attach (ctx : context) (fid afid : Z) (uname aname : string) (t : table)
    : result error Qid * table :=
  if decide (afid = NOFID) then spec_Attach_new ctx fid uname aname None t
  else
    match t_fids t !! afid with
    | Some (mkSFid (Some _) (Some (FUser f)) _) =>
        if is_AuthFile f then
          if Success f (t_world t) then spec_Attach_new ctx fid uname aname (Some f) t
          else (Err ErrPerm, t)
        else (Err ErrUnknownfid, t)
    | _ => (Err ErrUnknownfid, t)
    end.

(** Clunk and Remove: the fid goes whatever the server answers. *)
Definition spec_delete (ctx : context) (fid : Z) (remove : bool) (t : table)
    : result error unit * table :=
  match t_fids t !! fid with
  | None => (Err ErrUnknownfid, t)
  | Some sf =>
      match sf_Ent sf with
      | None => (Ok (), mkTable (t_world t) (delete fid (t_fids t)))
      | Some ent =>
          let '(r, w) := (if remove then ent_Remove ctx ent else ent_Clunk ctx ent) (t_world t) in
          (r, mkTable w (delete fid (t_fids t)))
      end
  end.

Definition nonnil {A} (x : option A) : result error A :=
  match x with Some a => Ok a | None => Err (E9p "invalid result") end.

Definition spec_walk_ent (ctx : context) (ent : Dirent) (names : list string) (w : World)
    : result error (list Qid * Dirent) * World :=
  if decide (names = []) then
    let '(r, w) := ent_Walk ctx ent [] w in
    ('(_, e) ← r; e ← nonnil e; Ok ([], e), w)
  else if negb (IsDir ent w) then (Err (E9p "not a directory"), w)
  else
    let '(r, w) := ent_Walk ctx ent names w in
    ('(qids, e) ← r; e ← nonnil e; Ok (qids, e), w).

Definition spec_walk_same (ctx : context) (names : list string)
    (sf : SFid) (ent : Dirent) (w : World) : result error (list Qid) * (SFid * World) :=
  if decide (names = []) then (Ok [], (sf, w))
  else
    match spec_walk_ent ctx ent names w with
    | (Ok (qids, found), w) =>
        if decide (length qids = 0)%nat then (Ok [], (sf, w))
        else if decide (length qids ≠ length names) then (Ok qids, (sf, w))
        else
          match ent_Clunk ctx ent w with
          | (Ok _, w) | (Err _, w) =>
              (Ok qids, (mkSFid (Some found) (sf_File sf) (sf_Mode sf), w))
          | (Panic y, w) => (Panic y, (sf, w))
          | (Hang y, w) => (Hang y, (sf, w))
          end
    | (Err e, w) => (Err e, (sf, w))
    | (Panic y, w) => (Panic y, (sf, w))
    | (Hang y, w) => (Hang y, (sf, w))
    end.

Definition spec_Walk (ctx : context) (fid newfid : Z) (names : list string) (t : table)
    : result error (list Qid) * table :=
  if decide (ValidPath names < 0) then (Err (E9p "Non-normalized path"), t)
  else if decide (newfid = fid) then on_fid fid (spec_walk_same ctx names) t
  else
    match t_fids t !! fid with
    | Some (mkSFid (Some ent) _ _) =>
        if decide (newfid = NOFID) then (Err ErrUnknownfid, t)
        else if decide (is_Some (t_fids t !! newfid)) then (Err ErrDupfid, t)
        else
          match spec_walk_ent ctx ent names (t_world t) with
          | (Ok (qids, found), w) =>
              if decide (length qids = length names)
              then (Ok qids, mkTable w (<[newfid := mkSFid (Some found) None 0]> (t_fids t)))
              else (Ok qids, mkTable w (t_fids t))
          | (Err e, w) => (Err e, mkTable w (t_fids t))
          | (Panic y, w) => (Panic y, mkTable w (t_fids t))
          | (Hang y, w) => (Hang y, mkTable w (t_fids t))
          end
    | _ => (Err ErrUnknownfid, t)
    end.

Definition spec_Read (ctx : context) (fid count offset : Z)
    : table → result error (bytes * option error) * table :=
  on_fid fid (λ sf ent w,
    match sf_File sf with
    | None => (Err (E9p "no file open"), (sf, w))
    | Some file =>
        if decide (Z.land (sf_Mode sf) OEXEC = OWRITE) then (Err ErrNoread, (sf, w))
        else
          match file with
          | FUser f => let '(r, w) := file_Read ctx f count offset w in (r, (sf, w))
          | FDir rd =>
              let '(r, rd, w) := dir_Read ctx rd count offset w in
              (r, (mkSFid (sf_Ent sf) (Some (FDir rd)) (sf_Mode sf), w))
          end
    end).

Definition spec_Write (ctx : context) (fid : Z) (p : bytes) (offset : Z)
    : table → result error (Z * option error) * table :=
  on_fid fid (λ sf ent w,
    match sf_File sf with
    | None => (Err (E9p "no file open"), (sf, w))
    | Some file =>
        if decide (Z.land (sf_Mode sf) OEXEC ≠ OWRITE ∧ Z.land (sf_Mode sf) OEXEC ≠ ORDWR)
        then (Err ErrNowrite, (sf, w))
        else
          match file with
          | FUser f => let '(r, w) := file_Write ctx f p offset w in (r, (sf, w))
          | FDir _ => (Ok (0, Some (E9p "invalid")), (sf, w))
          end
    end).

(** Opening: the file that the entry opens to. *)
Definition spec_open_file (ctx : context) (ent : Dirent) (mode : Z) (w : World)
    : result error sfile * World :=
  if IsDir ent w then
    let '(r, w) := ent_OpenDir ctx ent w in ((λ it, FDir (NewReaddir it)) <$> r, w)
  else
    let '(r, w) := ent_Open ctx ent mode w in (f ← r; FUser <$> nonnil f, w).

Definition spec_Open (ctx : context) (fid mode : Z) : table → result error (Qid * Z) * table :=
  on_fid fid (λ sf ent w,
    match sf_File sf with
    | Some _ => (Err (E9p "already open"), (sf, w))
    | None =>
        match spec_open_file ctx ent mode w with
        | (Ok file, w) =>
            (Ok (ent_Qid ent w, u32 (File_IOUnit file w)),
             (mkSFid (Some ent) (Some file) mode, w))
        | (Err e, w) => (Err e, (sf, w))
        | (Panic y, w) => (Panic y, (sf, w))
        | (Hang y, w) => (Hang y, (sf, w))
        end
    end).

Definition spec_Stat (ctx : context) (fid : Z) : table → result error Dir * table :=
  on_fid fid (λ sf ent w, let '(r, w) := ent_Stat ctx ent w in (r, (sf, w))).

Definition spec_WStat (ctx : context) (fid : Z) (dir : Dir)
    : table → result error unit * table :=
  on_fid fid (λ sf ent w, let '(r, w) := ent_WStat ctx ent dir w in (r, (sf, w))).

(** Create: if a new directory cannot be opened, the call never returns. *)
Definition spec_create (ctx : context) (name : string) (perm mode : Z)
    (sf : SFid) (dirent : Dirent) (w : World) : result error (Qid * Z) * (SFid * World) :=
  if negb (IsDir dirent w) then (Err (E9p "create in non-directory"), (sf, w))
  else
    match ent_Create ctx dirent name perm mode w with
    | (Ok (Some ent, Some f), w) =>
        let opened :=
          if IsDir ent w
          then let '(r, w) := ent_OpenDir ctx ent w in ((λ it, FDir (NewReaddir it)) <$> r, w)
          else (Ok (FUser f), w) in
        match opened with
        | (Ok file, w) =>
            (Ok (ent_Qid ent w, u32 (File_IOUnit file w)),
             (mkSFid (Some ent) (Some file) mode, w))
        | (Err _, w) => (Hang "mutex is locked", (sf, w))
        | (Panic y, w) => (Panic y, (sf, w))
        | (Hang y, w) => (Hang y, (sf, w))
        end
    | (Ok _, w) => (Err (E9p (Error_ (E9p "invalid result"))), (sf, w))
    | (Err e, w) => (Err (E9p (Error_ e)), (sf, w))
    | (Panic y, w) => (Panic y, (sf, w))
    | (Hang y, w) => (Hang y, (sf, w))
    end.

Definition spec_Create (ctx : context) (parent : Z) (name : string) (perm mode : Z)
    (t : table) : result error (Qid * Z) * table :=
  if decide (name = "." ∨ name = "..") then (Err (E9p "illegal filename"), t)
  else
    match t_fids t !! parent with
    | Some (mkSFid (Some _) _ _) => on_fid parent (spec_create ctx name perm mode) t
    | _ => (Err (E9p (Error_ ErrUnknownfid)), t)
    end.
End Spec.

(** ** Refinement *)

Lemma bind_run `{FS : FileSys} {A B} (m : M A) (f : A → M B) s :
  (m ≫= f) s
  = match m s with
    | (Ok a, s) => f a s
    | (Err e, s) => (Err e, s)
    | (Panic w, s) => (Panic w, s)
    | (Hang w, s) => (Hang w, s)
    end.
Proof. reflexivity. Qed.
Lemma ret_run `{FS : FileSys} {A} (a : A) (s : session) : (mret a : M A) s = (Ok a, s).
Proof. reflexivity. Qed.

(** Running a monadic program as far as the state is known. *)
Ltac mrun :=
  repeat first
    [ rewrite bind_run
    | rewrite ret_run
    | progress unfold fail, panic, ask, refs_Load, refs_Delete, refs_Store, put, world, try
    | progress cbn [s_world refs heap fst snd] ].

Section Refinement.
Context `{FS : FileSys}.

(** [m] computes [sp] on the table, and leaves no mutex held, whenever it
    returns. *)
Definition refines {A} (m : M A) (sp : table → result error A * table) : Prop :=
  ∀ s, quiescent s →
    ∃ s', m s = (fst (sp (abs s)), s') ∧
      (returns (fst (sp (abs s))) → quiescent s' ∧ abs s' = snd (sp (abs s))).

Lemma abs_lookup s fid :
  t_fids (abs s) !! fid = (r ← refs s !! fid; snd <$> heap s !! r).
Proof. apply lookup_omap. Qed.

Lemma abs_Some s fid sf :
  quiescent s → t_fids (abs s) !! fid = Some sf →
  ∃ r, refs s !! fid = Some r ∧ heap s !! r = Some (false, sf) ∧ fid ≠ NOFID.
Proof.
  intros (Hq & _ & Hn) H. rewrite abs_lookup in H.
  destruct (refs s !! fid) as [r|] eqn:E; [|done]. cbn in H.
  destruct (Hq _ _ E) as [sf' Hh]. rewrite Hh in H. injection H as <-.
  exists r. split_and!; [done|done|congruence].
Qed.

Lemma abs_None s fid : quiescent s → t_fids (abs s) !! fid = None ↔ refs s !! fid = None.
Proof.
  intros (Hq & _). rewrite abs_lookup. destruct (refs s !! fid) as [r|] eqn:E; [|done].
  cbn. destruct (Hq _ _ E) as [sf ->]. done.
Qed.

(** The SFid of a fid, and the server, change. *)
Lemma quiescent_update s fid r sf w :
  quiescent s → refs s !! fid = Some r →
  let s' := mkSession w (refs s) (<[r := (false, sf)]> (heap s)) in
  quiescent s' ∧ abs s' = mkTable w (<[fid := sf]> (t_fids (abs s))).
Proof.
  intros (Hq & Hi & Hn) Hr. cbv zeta. split.
  - split_and!; [|exact Hi|exact Hn]. intros fid' r' Hr'. cbn in *.
    destruct (decide (r = r')) as [<-|Hne]; [rewrite lookup_insert_eq; eauto|].
    rewrite lookup_insert_ne by done. by eapply Hq.
  - unfold abs. f_equal. apply map_eq. intros fid'. cbn.
    rewrite lookup_omap. destruct (decide (fid = fid')) as [<-|Hne].
    + rewrite lookup_insert_eq, Hr. cbn. by rewrite lookup_insert_eq.
    + rewrite lookup_insert_ne by done. rewrite lookup_omap.
      destruct (refs s !! fid') as [r'|] eqn:E; [|done]. cbn.
      rewrite lookup_insert_ne; [done|]. intros <-. by apply Hne, (Hi _ _ r).
Qed.

(** A SFid that no fid refers to changes. *)
Lemma quiescent_garbage s r x :
  quiescent s → (∀ fid, refs s !! fid ≠ Some r) →
  let s' := mkSession (s_world s) (refs s) (<[r := x]> (heap s)) in
  quiescent s' ∧ abs s' = abs s.
Proof.
  intros (Hq & Hi & Hn) Hr. cbv zeta. split.
  - split_and!; [|exact Hi|exact Hn]. intros fid' r' Hr'. cbn in *.
    rewrite lookup_insert_ne by (intros ->; by eapply Hr). by eapply Hq.
  - unfold abs. cbn. f_equal. apply map_eq. intros fid'. rewrite !lookup_omap.
    destruct (refs s !! fid') as [r'|] eqn:E; [|done]. cbn.
    by rewrite lookup_insert_ne by (intros ->; by eapply Hr).
Qed.

(** A fid goes. *)
Lemma quiescent_delete s fid r x w :
  quiescent s → refs s !! fid = Some r →
  let s' := mkSession w (delete fid (refs s)) (<[r := x]> (heap s)) in
  quiescent s' ∧ abs s' = mkTable w (delete fid (t_fids (abs s))).
Proof.
  intros (Hq & Hi & Hn) Hr. cbv zeta.
  assert (∀ fid' r', delete fid (refs s) !! fid' = Some r' → r ≠ r') as Hne.
  { intros fid' r' [Hne Hr']%lookup_delete_Some ->. by apply Hne, (Hi _ _ r'). }
  split.
  - split_and!; cbn.
    + intros fid' r' Hr'. rewrite lookup_insert_ne by (by eapply Hne).
      apply lookup_delete_Some in Hr' as [_ Hr']. by eapply Hq.
    + intros f1 f2 r' [_ H1]%lookup_delete_Some [_ H2]%lookup_delete_Some. by apply (Hi _ _ r').
    + apply lookup_delete_None. by right.
  - unfold abs. cbn. f_equal. apply map_eq. intros fid'. rewrite lookup_omap.
    destruct (delete fid (refs s) !! fid') as [r'|] eqn:E; cbn.
    + rewrite lookup_insert_ne by (by eapply Hne).
      apply lookup_delete_Some in E as [Hf E]. rewrite lookup_delete_ne, lookup_omap, E by done.
      done.
    + symmetry. apply lookup_delete_None in E as [->|E]; [apply lookup_delete_eq|].
      apply lookup_delete_None. right. by rewrite lookup_omap, E.
Qed.

(** A fid comes. *)
Lemma quiescent_insert s fid r sf w :
  quiescent s → fid ≠ NOFID → refs s !! fid = None → heap s !! r = None →
  let s' := mkSession w (<[fid := r]> (refs s)) (<[r := (false, sf)]> (heap s)) in
  quiescent s' ∧ abs s' = mkTable w (<[fid := sf]> (t_fids (abs s))).
Proof.
  intros (Hq & Hi & Hn) Hf Hr Hh. cbv zeta.
  assert (∀ fid', refs s !! fid' ≠ Some r) as Hfresh.
  { intros fid' E. destruct (Hq _ _ E). congruence. }
  split.
  - split_and!; cbn.
    + intros fid' r' [[<- <-]|[Hne Hr']]%lookup_insert_Some; [rewrite lookup_insert_eq; eauto|].
      rewrite lookup_insert_ne by (intros ->; by eapply Hfresh). by eapply Hq.
    + intros f1 f2 r' [[<- <-]|[Hn1 H1]]%lookup_insert_Some [[<- E]|[Hn2 H2]]%lookup_insert_Some;
        subst; try done; try (by exfalso; eapply Hfresh). by apply (Hi _ _ r').
    + by rewrite lookup_insert_ne.
  - unfold abs. cbn. f_equal. apply map_eq. intros fid'. rewrite lookup_omap.
    destruct (decide (fid = fid')) as [<-|Hne].
    + rewrite !lookup_insert_eq. cbn. by rewrite lookup_insert_eq.
    + rewrite !lookup_insert_ne by done. rewrite lookup_omap.
      destruct (refs s !! fid') as [r'|] eqn:E; [|done]. cbn.
      by rewrite lookup_insert_ne by (intros ->; by eapply Hfresh).
Qed.

(** ** The steps of the operations *)

Lemma getRef_live s fid sf ent :
  quiescent s → t_fids (abs s) !! fid = Some sf → sf_Ent sf = Some ent →
  ∃ r, refs s !! fid = Some r ∧ heap s !! r = Some (false, sf) ∧
    getRef fid s = (Ok r, mkSession (s_world s) (refs s) (<[r := (true, sf)]> (heap s))).
Proof.
  intros Hq Hf He. destruct (abs_Some s fid sf Hq Hf) as (r & Hr & Hh & Hn).
  exists r. split_and!; [done|done|]. unfold getRef. rewrite decide_False by done.
  mrun. rewrite Hr. mrun. unfold lock. rewrite Hh. mrun. unfold get. mrun.
  rewrite lookup_insert_eq. by rewrite He.
Qed.

Lemma getRef_dead s fid :
  quiescent s → (∀ sf, t_fids (abs s) !! fid = Some sf → sf_Ent sf = None) →
  getRef fid s = (Err ErrUnknownfid, s).
Proof.
  intros Hq Hd. unfold getRef. case_decide as Hn; [done|]. mrun.
  destruct (t_fids (abs s) !! fid) as [sf|] eqn:E.
  - destruct (abs_Some s fid sf Hq E) as (r & Hr & Hh & _). rewrite Hr. mrun.
    unfold lock. rewrite Hh. mrun. unfold get. mrun. rewrite lookup_insert_eq.
    rewrite (Hd sf eq_refl). mrun. unfold unlock. mrun. rewrite lookup_insert_eq.
    rewrite insert_insert_eq, insert_id by done. by destruct s.
  - apply abs_None in E; [|done]. by rewrite E.
Qed.

(** What a body does while it holds the mutex of the SFid of [fid]. *)
Definition acts_on {A} (fid : Z) (body : Z → M A)
    (g : SFid → Dirent → World → result error A * (SFid * World)) : Prop :=
  ∀ s r sf ent, refs s !! fid = Some r →
    heap s !! r = Some (true, sf) → sf_Ent sf = Some ent →
    ∃ s', body r s = (fst (g sf ent (s_world s)), s') ∧
      (returns (fst (g sf ent (s_world s))) →
       s' = mkSession (snd (snd (g sf ent (s_world s)))) (refs s)
              (<[r := (true, fst (snd (g sf ent (s_world s))))]> (heap s))).

Lemma finally_unlock {A} (m : M A) r s s' (res : result error A) sf :
  m s = (res, s') → (returns res → heap s' !! r = Some (true, sf)) →
  ∃ s2, finally m (unlock r) s = (res, s2) ∧
    (returns res → s2 = mkSession (s_world s') (refs s') (<[r := (false, sf)]> (heap s'))).
Proof.
  intros Hm Hh. unfold finally. rewrite Hm. destruct res as [a|e|w|w];
    [| |eexists; split; [done|by intros []]..];
    unfold unlock; rewrite Hh by done; by eexists.
Qed.

(** Operations on one fid. *)
Lemma refines_on_fid {A} fid (body : Z → M A) g :
  acts_on fid body g →
  refines (ref ← getRef fid; finally (body ref) (unlock ref)) (on_fid fid g).
Proof.
  intros Hb s Hq. unfold on_fid.
  destruct (t_fids (abs s) !! fid) as [sf|] eqn:Hf.
  2:{ exists s. mrun. rewrite getRef_dead by (done || congruence). auto. }
  destruct (sf_Ent sf) as [ent|] eqn:He.
  2:{ exists s. mrun. rewrite getRef_dead; [auto|done|]. intros sf' E. congruence. }
  destruct (getRef_live s fid sf ent Hq Hf He) as (r & Hr & Hh & Hg). mrun. rewrite Hg.
  set (s1 := mkSession _ _ _).
  destruct (Hb s1 r sf ent) as (s2 & E2 & H2); [done|cbn; apply lookup_insert_eq|done|].
  change (s_world s1) with (s_world s) in *. change (t_world (abs s)) with (s_world s).
  destruct (g sf ent (s_world s)) as [res [sf' w']]. cbn [fst snd] in *.
  destruct (finally_unlock (body r) r s1 s2 res sf' E2) as (s3 & E3 & H3).
  { intros Hret. rewrite (H2 Hret). cbn. apply lookup_insert_eq. }
  rewrite E3. exists s3. split; [done|]. intros Hret. rewrite (H3 Hret), (H2 Hret). cbn.
  rewrite !insert_insert_eq. by apply quiescent_update.
Qed.

(** [newRef] of a fid that cannot be made forgets the SFid it made. *)
Lemma newRef_dup s fid :
  fid = NOFID ∨ is_Some (refs s !! fid) →
  ∃ s', newRef fid s
        = (Err (if decide (fid = NOFID) then ErrUnknownfid else ErrDupfid), s') ∧
    (s' = s ∨ ∃ r, heap s !! r = None ∧
       s' = mkSession (s_world s) (refs s) (<[r := (true, mkSFid None None 0)]> (heap s))).
Proof.
  intros Hd. unfold newRef. case_decide as Hn; [by exists s; auto|].
  destruct Hd as [?|[r Hr]]; [done|]. unfold new_locked. mrun. rewrite Hr.
  eexists. split; [done|]. right. exists (fresh (dom (heap s))).
  split; [apply not_elem_of_dom, is_fresh|done].
Qed.

Lemma quiescent_fresh s r x :
  quiescent s → heap s !! r = None →
  let s' := mkSession (s_world s) (refs s) (<[r := x]> (heap s)) in
  quiescent s' ∧ abs s' = abs s.
Proof.
  intros Hq Hr. apply quiescent_garbage; [done|].
  intros fid' E. destruct Hq as (Hq & _). destruct (Hq _ _ E). congruence.
Qed.

Lemma fid_taken s fid :
  quiescent s → ¬ (fid ≠ NOFID ∧ refs s !! fid = None) →
  (fid = NOFID ∨ is_Some (refs s !! fid)) ∧
  (fid ≠ NOFID → is_Some (t_fids (abs s) !! fid)).
Proof.
  intros Hq Hd. destruct (decide (fid = NOFID)) as [->|Hn]; [by split; [left|]|].
  destruct (refs s !! fid) as [r|] eqn:E; [|naive_solver]. split; [by auto|]. intros _.
  destruct (t_fids (abs s) !! fid) eqn:Hf; [done|]. apply abs_None in Hf; [congruence|done].
Qed.

Lemma newRef_new s fid :
  fid ≠ NOFID → refs s !! fid = None →
  ∃ r, heap s !! r = None ∧
    newRef fid s = (Ok r, mkSession (s_world s) (<[fid := r]> (refs s))
                            (<[r := (true, mkSFid None None 0)]> (heap s))).
Proof.
  intros Hn Hr. exists (fresh (dom (heap s))). split; [apply not_elem_of_dom, is_fresh|].
  unfold newRef. rewrite decide_False by done. unfold new_locked. mrun. by rewrite Hr.
Qed.

Lemma alter_known {B} (f : B → B) r (m : gmap Z B) x :
  m !! r = Some x → alter f r m = <[r := f x]> m.
Proof.
  intros Hx. apply map_eq. intros i. destruct (decide (r = i)) as [<-|Hne].
  - by rewrite lookup_alter_eq, lookup_insert_eq, Hx.
  - by rewrite lookup_alter_ne, lookup_insert_ne.
Qed.

(** Reading the SFid whose mutex is held. *)
Lemma get_run s r b sf : heap s !! r = Some (b, sf) → get r s = (Ok sf, s).
Proof. intros H. unfold get. by rewrite H. Qed.
Lemma ent_of_run s r b sf ent :
  heap s !! r = Some (b, sf) → sf_Ent sf = Some ent → ent_of r s = (Ok ent, s).
Proof. intros H He. unfold ent_of. mrun. rewrite (get_run _ _ _ _ H), He. done. Qed.

(** The body is done, and left the SFid as it was or replaced it. *)
Ltac acts_done Hh :=
  eexists; split; [reflexivity|];
  first [ by intros [] | intros _ ];
  cbn [fst snd s_world refs heap];
  rewrite ?(alter_known _ _ _ _ Hh), ?insert_id by done;
  first [reflexivity | match goal with s : session |- _ => by destruct s end].

Lemma refines_Stat ctx fid : refines (Stat ctx fid) (spec_Stat ctx fid).
Proof.
  apply refines_on_fid. intros s r sf ent Hr Hh He. mrun.
  rewrite (ent_of_run _ _ _ _ _ Hh He). mrun.
  destruct (ent_Stat ctx ent (s_world s)) as [[] w]; mrun; acts_done Hh.
Qed.

Lemma refines_WStat ctx fid dir : refines (WStat ctx fid dir) (spec_WStat ctx fid dir).
Proof.
  apply refines_on_fid. intros s r sf ent Hr Hh He. mrun.
  rewrite (ent_of_run _ _ _ _ _ Hh He). mrun.
  destruct (ent_WStat ctx ent dir (s_world s)) as [[] w]; mrun; acts_done Hh.
Qed.

Lemma refines_Read ctx fid count offset :
  refines (Read ctx fid count offset) (spec_Read ctx fid count offset).
Proof.
  apply refines_on_fid. intros s r sf ent Hr Hh He. mrun. rewrite (get_run _ _ _ _ Hh).
  destruct (sf_File sf) as [file|]; [|mrun; acts_done Hh].
  case_decide; [mrun; acts_done Hh|]. unfold File_Read. destruct file as [f|rd].
  - mrun. destruct (file_Read ctx f count offset (s_world s)) as [[] w]; mrun; acts_done Hh.
  - destruct (dir_Read ctx rd count offset (s_world s)) as [[[] rd'] w]; mrun; acts_done Hh.
Qed.

Lemma refines_Write ctx fid p offset :
  refines (Write ctx fid p offset) (spec_Write ctx fid p offset).
Proof.
  apply refines_on_fid. intros s r sf ent Hr Hh He. mrun. rewrite (get_run _ _ _ _ Hh).
  destruct (sf_File sf) as [file|]; [|mrun; acts_done Hh].
  case_decide; [mrun; acts_done Hh|]. unfold File_Write. destruct file as [f|rd].
  - mrun. destruct (file_Write ctx f p offset (s_world s)) as [[] w]; mrun; acts_done Hh.
  - cbn [Readdir_Write]. mrun. acts_done Hh.
Qed.

Lemma refines_Open ctx fid mode : refines (Open ctx fid mode) (spec_Open ctx fid mode).
Proof.
  apply refines_on_fid. intros s r sf ent Hr Hh He. mrun. rewrite (get_run _ _ _ _ Hh).
  unfold openLocked. destruct (sf_File sf) as [file|]; [mrun; acts_done Hh|].
  rewrite He. mrun. unfold spec_open_file. destruct (IsDir ent (s_world s)); mrun.
  - destruct (ent_OpenDir ctx ent (s_world s)) as [[] w]; mrun; acts_done Hh.
  - destruct (ent_Open ctx ent mode (s_world s)) as [[[f|]| | |] w]; mrun; cbn; acts_done Hh.
Qed.

(** The part of Create that runs with the mutex held. *)
Lemma acts_on_Create ctx parent name perm mode :
  acts_on parent
    (λ ref, dirent ← ent_of ref;
       dir ← ask (IsDir dirent);
       if negb dir then fail (E9p "create in non-directory")
       else
         '(ent, file) ← refail (
            r ← world (ent_Create ctx dirent name perm mode);
            ent ← EnsureNonNil r.1;
            file ← EnsureNonNil r.2;
            mret (ent, file));
         newdir ← ask (IsDir ent);
         file ← (if newdir : bool then
                   r ← try (openLocked ctx (mkSFid (Some ent) None 0) mode);
                   match r with
                   | inl e => try (delRef ctx parent false);; fail (E9p (Error_ e))
                   | inr next => mret (sf_File next)
                   end
                 else mret (Some (FUser file)));
         put ref (mkSFid (Some ent) file mode);;
         open_result (mkSFid (Some ent) file mode))
    (spec_create ctx name perm mode).
Proof.
  intros s r sf ent Hr Hh He. mrun. rewrite (ent_of_run _ _ _ _ _ Hh He). mrun.
  unfold spec_create. destruct (IsDir ent (s_world s)); cbn [negb]; [|mrun; acts_done Hh].
  mrun. unfold refail. mrun.
  destruct (ent_Create ctx ent name perm mode (s_world s)) as [[[[e|] [f|]]| | |] w];
    cbn; mrun; try (acts_done Hh).
  destruct (IsDir e w) eqn:Hd; mrun; [|acts_done Hh].
  unfold openLocked. cbn [sf_File sf_Ent]. mrun. rewrite Hd. mrun.
  destruct (ent_OpenDir ctx e w) as [[it|err| |] w']; mrun; try (acts_done Hh).
  unfold delRef. mrun. rewrite Hr. mrun. unfold lock. cbn [heap]. rewrite Hh.
  eexists. split; [done|by intros []].
Qed.

Lemma refines_Create ctx parent name perm mode :
  refines (Create ctx parent name perm mode) (spec_Create ctx parent name perm mode).
Proof.
  unfold Create, spec_Create. case_decide; [by intros s Hq; exists s|]. intros s Hq.
  destruct (t_fids (abs s) !! parent) as [[[dirent|] file mode']|] eqn:Hf.
  2,3: exists s; mrun; unfold refail; rewrite getRef_dead;
    [done|done|intros sf' E; rewrite Hf in E; by simplify_eq].
  destruct (getRef_live s parent _ dirent Hq Hf eq_refl) as (r0 & _ & _ & Hg).
  assert (∀ B (k : Z → M B), (refail (getRef parent) ≫= k) s = (getRef parent ≫= k) s) as ->.
  { intros B k. rewrite !bind_run. unfold refail. by rewrite Hg. }
  exact (refines_on_fid parent _ _ (acts_on_Create ctx parent name perm mode) s Hq).
Qed.

(** ** Operations that make and delete fids *)

Lemma refines_delete ctx fid remove :
  refines (delRef ctx fid remove) (spec_delete ctx fid remove).
Proof.
  intros s Hq. unfold delRef, spec_delete. mrun.
  destruct (t_fids (abs s) !! fid) as [sf|] eqn:Hf.
  2:{ apply abs_None in Hf; [|done]. rewrite Hf. exists s. mrun. by split. }
  destruct (abs_Some s fid sf Hq Hf) as (r & Hr & Hh & _). rewrite Hr. mrun.
  unfold lock. cbn [heap]. rewrite Hh. mrun.
  set (s1 := mkSession (s_world s) (delete fid (refs s)) (<[r := (true, sf)]> (heap s))).
  assert (heap s1 !! r = Some (true, sf)) as H1 by apply lookup_insert_eq.
  set (body := get r ≫= _).
  set (sp := match sf_Ent sf with Some _ => _ | None => _ end).
  assert (∃ s2, body s1 = (fst sp, s2) ∧
    (returns (fst sp) → ∃ sf', heap s2 !! r = Some (true, sf') ∧
       s2 = mkSession (t_world (snd sp)) (refs s1) (<[r := (true, sf')]> (heap s)) ∧
       t_fids (snd sp) = delete fid (t_fids (abs s)))) as (s2 & E2 & H2).
  { subst body sp. mrun. rewrite (get_run _ _ _ _ H1).
    destruct (sf_Ent sf) as [ent|] eqn:He.
    - unfold delRefAction. mrun. rewrite (ent_of_run _ _ _ _ _ H1 He). mrun.
      change (s_world s1) with (s_world s). change (t_world (abs s)) with (s_world s).
      destruct ((if remove then ent_Remove ctx ent else ent_Clunk ctx ent) (s_world s))
        as [[[]|e| |] w]; mrun; [| |eexists; split; [done|by intros []]..];
        (rewrite (get_run _ _ true sf) by (cbn; apply lookup_insert_eq)); mrun;
        eexists; (split; [done|]); intros _; eexists; cbn [heap];
        rewrite (alter_known _ _ _ (true, sf)) by apply lookup_insert_eq;
        (split; [apply lookup_insert_eq|]); unfold s1; cbn [heap refs s_world]; by rewrite insert_insert_eq.
    - mrun. eexists. split; [done|]. intros _. by exists sf. }
  destruct (decide (returns (fst sp))) as [Hret|Hret].
  - destruct (H2 Hret) as (sf' & Hh2 & Hs2 & Hfid).
    destruct (finally_unlock body r s1 s2 (fst sp) sf' E2) as (s3 & E3 & H3); [done|].
    exists s3. split; [exact E3|]. intros _. rewrite (H3 Hret), Hs2. cbn [s_world refs heap].
    rewrite insert_insert_eq.
    destruct (quiescent_delete s fid r (false, sf') (t_world (snd sp)) Hq Hr) as [Ha Hb].
    split; [exact Ha|]. etransitivity; [exact Hb|]. destruct (snd sp). cbn in *. by subst.
  - destruct (finally_unlock body r s1 s2 (fst sp) sf E2) as (s3 & E3 & _); [done|].
    exists s3. split; [exact E3|done].
Qed.

(** What the body of an operation that makes the fid [fid] does, with the
    new SFid locked: fill it in, or delete the fid and fail. *)
Definition fills {A} (fid : Z) (body : Z → M A)
    (g : World → result error (A * SFid) * World) : Prop :=
  ∀ s r, heap s !! r = Some (true, mkSFid None None 0) →
    ∃ s', body r s = (fst <$> fst (g (s_world s)), s') ∧
      match fst (g (s_world s)) with
      | Ok (_, sf) => s' = mkSession (snd (g (s_world s))) (refs s) (<[r := (true, sf)]> (heap s))
      | Err _ => s' = mkSession (snd (g (s_world s))) (delete fid (refs s)) (heap s)
      | _ => True
      end.

(** The new SFid [r] in the end: referred to, or forgotten. *)
Lemma run_new {A} s fid (body : Z → M A) g :
  fid ≠ NOFID → refs s !! fid = None → fills fid body g →
  ∃ r s', heap s !! r = None ∧
    (ref ← newRef fid; finally (body ref) (unlock ref)) s = (fst <$> fst (g (s_world s)), s') ∧
    match fst (g (s_world s)) with
    | Ok (_, sf) => s' = mkSession (snd (g (s_world s))) (<[fid := r]> (refs s))
                           (<[r := (false, sf)]> (heap s))
    | Err _ => s' = mkSession (snd (g (s_world s))) (refs s)
                      (<[r := (false, mkSFid None None 0)]> (heap s))
    | _ => True
    end.
Proof.
  intros Hn Hr Hb. destruct (newRef_new s fid Hn Hr) as (r & Hh & Hnew).
  exists r. mrun. rewrite Hnew. set (s1 := mkSession _ _ _).
  destruct (Hb s1 r) as (s2 & E2 & H2); [apply lookup_insert_eq|].
  change (s_world s1) with (s_world s) in *.
  destruct (g (s_world s)) as [[[a sf]|e| |] w]; cbn [fst snd fmap result_fmap] in *.
  - destruct (finally_unlock (body r) r s1 s2 _ sf E2) as (s3 & E3 & H3).
    { intros _. rewrite H2. cbn. apply lookup_insert_eq. }
    exists s3. split_and!; [done|done|]. rewrite (H3 I), H2. unfold s1. cbn [s_world refs heap].
    by rewrite !insert_insert_eq.
  - destruct (finally_unlock (body r) r s1 s2 _ (mkSFid None None 0) E2) as (s3 & E3 & H3).
    { intros _. rewrite H2. cbn. apply lookup_insert_eq. }
    exists s3. split_and!; [done|done|]. rewrite (H3 I), H2. unfold s1. cbn [s_world refs heap].
    by rewrite !insert_insert_eq, delete_insert_id.
  - destruct (finally_unlock (body r) r s1 s2 _ (mkSFid None None 0) E2) as (s3 & E3 & _); [done|].
    by exists s3.
  - destruct (finally_unlock (body r) r s1 s2 _ (mkSFid None None 0) E2) as (s3 & E3 & _); [done|].
    by exists s3.
Qed.

(** The session with the server in another state. *)
Lemma quiescent_world s w :
  quiescent s → quiescent (mkSession w (refs s) (heap s)) ∧
    abs (mkSession w (refs s) (heap s)) = mkTable w (t_fids (abs s)).
Proof. intros Hq. by split. Qed.

Lemma new_fid_end {A} s fid (g : World → result error (A * SFid) * World) r s' :
  quiescent s → fid ≠ NOFID → refs s !! fid = None → heap s !! r = None →
  match fst (g (s_world s)) with
  | Ok (_, sf) => s' = mkSession (snd (g (s_world s))) (<[fid := r]> (refs s))
                         (<[r := (false, sf)]> (heap s))
  | Err _ => s' = mkSession (snd (g (s_world s))) (refs s)
                    (<[r := (false, mkSFid None None 0)]> (heap s))
  | _ => True
  end →
  fst (new_fid fid g (abs s)) = fst <$> fst (g (s_world s)) ∧
  (returns (fst (new_fid fid g (abs s))) →
   quiescent s' ∧ abs s' = snd (new_fid fid g (abs s))).
Proof.
  intros Hq Hn Hr Hh. unfold new_fid. rewrite decide_False by done.
  pose proof Hr as Hf. apply abs_None in Hf; [|done]. rewrite Hf.
  change (t_world (abs s)) with (s_world s).
  destruct (g (s_world s)) as [[[a sf]|e| |] w]; cbn [fst snd]; intros H; (split; [done|]);
    cbn; try (by intros []); intros _; rewrite H.
  - by apply quiescent_insert.
  - apply (quiescent_garbage (mkSession w (refs s) (heap s)) r); [done|].
    intros fid' E. destruct Hq as (Hq & _). destruct (Hq _ _ E). congruence.
Qed.

Lemma new_fid_taken {A} s fid (g : World → result error (A * SFid) * World) :
  (fid ≠ NOFID → is_Some (t_fids (abs s) !! fid)) →
  new_fid fid g (abs s) = (Err (if decide (fid = NOFID) then ErrUnknownfid else ErrDupfid), abs s).
Proof.
  intros Hs. unfold new_fid. case_decide as Hn; [done|]. by destruct (Hs Hn) as [? ->].
Qed.

Lemma refines_new_fid {A} fid (body : Z → M A) g :
  fills fid body g →
  refines (ref ← newRef fid; finally (body ref) (unlock ref)) (new_fid fid g).
Proof.
  intros Hb s Hq. destruct (decide (fid ≠ NOFID ∧ refs s !! fid = None)) as [[Hn Hr]|Hd].
  - destruct (run_new s fid body g Hn Hr Hb) as (r & s' & Hh & E & H).
    destruct (new_fid_end s fid g r s' Hq Hn Hr Hh H) as [E' H'].
    exists s'. split; [by rewrite E'|done].
  - destruct (fid_taken s fid Hq Hd) as [Ht Hs].
    destruct (newRef_dup s fid Ht) as (s' & E & Hs').
    exists s'. mrun. rewrite E. rewrite new_fid_taken by done. split; [done|]. intros _.
    destruct Hs' as [->|(r & Hr & ->)]; [done|by apply quiescent_fresh].
Qed.

Lemma fills_Attach ctx fid uname aname af :
  fills fid
    (λ ref, r ← try (world (Attach_ ctx uname aname af));
       match r with
       | inl e => refs_Delete fid;; fail e
       | inr ent => link ref ent;; ask (ent_Qid ent)
       end)
    (attach_fill ctx uname aname af).
Proof.
  intros s r Hh. unfold attach_fill. mrun. destruct (Attach_ ctx uname aname af (s_world s)) as [[ent|e| |] w];
    mrun; [|by eexists..].
  unfold link. mrun. rewrite (get_run _ _ true (mkSFid None None 0)) by done. mrun.
  eexists. split; [done|]. cbn. by rewrite (alter_known _ _ _ _ Hh).
Qed.

Lemma refines_Auth ctx afid uname aname :
  refines (Auth ctx afid uname aname) (spec_Auth ctx afid uname aname).
Proof.
  intros s Hq. unfold Auth, spec_Auth. case_decide; [by exists s|]. mrun.
  change (t_world (abs s)) with (s_world s).
  destruct (RequireAuth ctx (s_world s)); cbn [negb]; [|by exists s].
  apply refines_new_fid; [|done]. clear s Hq. intros s r Hh. mrun.
  destruct (Auth_ ctx uname aname (s_world s)) as [[f|e| |] w]; mrun; [|by eexists..].
  rewrite (get_run _ _ true (mkSFid None None 0)) by done. mrun.
  eexists. split; [done|]. cbn. by rewrite (alter_known _ _ _ _ Hh).
Qed.

(** The state while a fid is being used: its mutex is held. *)
Definition held (s : session) (r : Z) (sf : SFid) : session :=
  mkSession (s_world s) (refs s) (<[r := (true, sf)]> (heap s)).

(** Releasing a mutex after an unrelated SFid [r'] has been made. *)
Lemma unlock_held s r sf w rf r' x :
  heap s !! r = Some (false, sf) → heap (held s r sf) !! r' = None →
  unlock r (mkSession w rf (<[r' := x]> (heap (held s r sf))))
  = (Ok (), mkSession w rf (<[r' := x]> (heap s))) ∧ heap s !! r' = None.
Proof.
  intros Hh Hr'. cbn [held heap] in *.
  assert (r ≠ r') as Hne by (intros <-; by rewrite lookup_insert_eq in Hr').
  rewrite lookup_insert_ne in Hr' by done. split; [|done].
  unfold unlock. cbn [heap]. rewrite lookup_insert_ne, lookup_insert_eq by done.
  cbn [s_world refs heap].
  by rewrite insert_insert_ne, insert_insert_eq, (insert_id (heap s) r) by done.
Qed.

(** Attach with an auth fid that is a plain, unopened fid of the session:
    the call fails, but leaves the mutex of the fid locked. *)
Definition leaks_lock (afid : Z) (t : table) : bool :=
  match t_fids t !! afid with
  | Some (mkSFid (Some _) None _) => bool_decide (afid ≠ NOFID)
  | _ => false
  end.

Lemma refines_Attach ctx fid afid uname aname s :
  quiescent s → leaks_lock afid (abs s) = false →
  ∃ s', Attach ctx fid afid uname aname s
        = (fst (spec_Attach ctx fid afid uname aname (abs s)), s') ∧
    (returns (fst (spec_Attach ctx fid afid uname aname (abs s))) →
     quiescent s' ∧ abs s' = snd (spec_Attach ctx fid afid uname aname (abs s))).
Proof.
  intros Hq Hleak. unfold Attach, spec_Attach. case_decide as Hn.
  { apply refines_new_fid; [apply fills_Attach|done]. }
  unfold leaks_lock in Hleak. mrun.
  destruct (t_fids (abs s) !! afid) as [[[ent|] [file|] md]|] eqn:Hf;
    [|by rewrite bool_decide_true in Hleak|..].
  2,3,4: rewrite getRef_dead; [by exists s|done|intros ? E; rewrite Hf in E; by simplify_eq].
  destruct (getRef_live s afid _ ent Hq Hf eq_refl) as (r & Hr & Hh & Hg). rewrite Hg.
  fold (held s r (mkSFid (Some ent) (Some file) md)).
  set (s1 := held s r _). assert (heap s1 !! r = Some (true, mkSFid (Some ent) (Some file) md)) as H1
    by apply lookup_insert_eq. mrun. rewrite (get_run _ _ _ _ H1). cbn [sf_File].
  assert (∀ A (m : M A) e, m s1 = (Err e, s1) → finally m (unlock r) s1 = (Err e, s)) as Hfail.
  { intros A m e E. unfold finally. rewrite E. unfold unlock. rewrite H1. unfold s1. cbn.
    rewrite insert_insert_eq, insert_id by done. by destruct s. }
  destruct file as [f|rd]; [|rewrite (Hfail _ _ ErrUnknownfid) by done; by exists s].
  destruct (is_AuthFile f); [|rewrite (Hfail _ _ ErrUnknownfid) by done; by exists s].
  change (t_world (abs s)) with (s_world s).
  destruct (Success f (s_world s)) eqn:Hs.
  2:{ rewrite (Hfail _ _ ErrPerm); [by exists s|]. mrun. change (s_world s1) with (s_world s).
      by rewrite Hs. }
  unfold finally. mrun. change (s_world s1) with (s_world s). rewrite Hs. cbn [negb].
  unfold spec_Attach_new.
  destruct (decide (fid ≠ NOFID ∧ refs s !! fid = None)) as [[Hnf Hrf]|Hd].
  - destruct (run_new s1 fid _ _ Hnf Hrf (fills_Attach ctx fid uname aname (Some f)))
      as (r' & s2 & Hr' & E2 & H2).
    unfold Attach_new. rewrite E2. change (s_world s1) with (s_world s) in *.
    set (g := attach_fill ctx uname aname (Some f)) in *.
    pose proof (λ x w rf, unlock_held s r _ w rf r' x Hh Hr') as Hun.
    destruct (Hun (true, mkSFid None None 0) (s_world s) (refs s)) as [_ Hr's].
    set (s3 := match fst (g (s_world s)) with
               | Ok (_, sf) => mkSession (snd (g (s_world s))) (<[fid := r']> (refs s))
                                 (<[r' := (false, sf)]> (heap s))
               | _ => mkSession (snd (g (s_world s))) (refs s)
                        (<[r' := (false, mkSFid None None 0)]> (heap s))
               end).
    destruct (new_fid_end s fid g r' s3 Hq Hnf Hrf Hr's) as [E3 H3].
    { subst s3. by destruct (g (s_world s)) as [[[]| | |] ?]. }
    rewrite E3 in *.
    destruct (g (s_world s)) as [[[a sf]|e| |] w]; cbn [fst snd fmap result_fmap] in *;
      [| |eexists; split; [done|by intros []]..]; subst s2.
    + rewrite (proj1 (Hun _ _ _)). exists s3. split; [done|]. intros _. apply H3. exact I.
    + rewrite (proj1 (Hun _ _ _)). exists s3. split; [done|]. intros _. apply H3. exact I.
  - destruct (fid_taken s fid Hq Hd) as [Ht Hs']. rewrite new_fid_taken by done.
    destruct (newRef_dup s1 fid Ht) as (s' & E & Hs2). unfold Attach_new. mrun. rewrite E.
    destruct Hs2 as [->|(r' & Hr' & ->)].
    + unfold unlock. rewrite H1. eexists. split; [done|]. intros _. unfold s1. cbn.
      rewrite insert_insert_eq, insert_id by done. by destruct s.
    + destruct (unlock_held s r _ (s_world s) (refs s) r' (true, mkSFid None None 0) Hh Hr')
        as [Eu Hr's].
      change (s_world s1) with (s_world s). change (refs s1) with (refs s). fold s1 in Eu. rewrite Eu.
      eexists. split; [done|]. intros _. by apply quiescent_fresh.
Qed.

(** ** Walk *)

Lemma walk_ent_run ctx s r b sf ent names :
  heap s !! r = Some (b, sf) → sf_Ent sf = Some ent →
  walk_ent ctx r names s
  = (fst (spec_walk_ent ctx ent names (s_world s)),
     mkSession (snd (spec_walk_ent ctx ent names (s_world s))) (refs s) (heap s)).
Proof.
  intros Hh He. unfold walk_ent, spec_walk_ent. mrun. rewrite (ent_of_run _ _ _ _ _ Hh He).
  case_decide; mrun.
  - destruct (ent_Walk ctx ent [] (s_world s)) as [[[qids [e|]]| | |] w]; by mrun.
  - destruct (IsDir ent (s_world s)); cbn [negb]; [|by destruct s].
    mrun. destruct (ent_Walk ctx ent names (s_world s)) as [[[qids [e|]]| | |] w]; by mrun.
Qed.

Lemma acts_on_walk_same ctx fid names :
  acts_on fid (λ ref, walk_same ctx ref names) (spec_walk_same ctx names).
Proof.
  intros s r sf ent Hr Hh He. unfold walk_same, spec_walk_same.
  case_decide; [mrun; acts_done Hh|]. mrun. rewrite (walk_ent_run _ _ _ _ _ _ _ Hh He).
  destruct (spec_walk_ent ctx ent names (s_world s)) as [[[qids found]| | |] w]; mrun;
    try (acts_done Hh).
  case_decide; [mrun; acts_done Hh|]. case_decide; [mrun; acts_done Hh|]. mrun.
  rewrite (ent_of_run _ _ true sf ent) by done. mrun.
  destruct (ent_Clunk ctx ent w) as [[| | |] w']; mrun;
    try (eexists; split; [done|by intros []]); unfold link; mrun;
    rewrite (get_run _ _ true sf) by done; mrun; acts_done Hh.
Qed.

(** The walk to a new fid, from a state where [ref] is held and the new SFid
    [r'] is locked. *)
Lemma walk_new_run ctx s fid r sf ent newfid names r' :
  quiescent s → refs s !! fid = Some r → heap s !! r = Some (false, sf) →
  sf_Ent sf = Some ent →
  newfid ≠ NOFID → refs s !! newfid = None → heap (held s r sf) !! r' = None →
  let sp := match spec_walk_ent ctx ent names (s_world s) with
            | (Ok (qids, found), w) =>
                if decide (length qids = length names)
                then (Ok qids, mkTable w (<[newfid := mkSFid (Some found) None 0]> (t_fids (abs s))))
                else (Ok qids, mkTable w (t_fids (abs s)))
            | (Err e, w) => (Err e, mkTable w (t_fids (abs s)))
            | (Panic y, w) => (Panic y, mkTable w (t_fids (abs s)))
            | (Hang y, w) => (Hang y, mkTable w (t_fids (abs s)))
            end in
  ∃ s', walk_new ctx r r' newfid names
          (mkSession (s_world s) (<[newfid := r']> (refs s))
             (<[r' := (true, mkSFid None None 0)]> (heap (held s r sf))))
        = (fst sp, s') ∧ (returns (fst sp) → quiescent s' ∧ abs s' = snd sp).
Proof.
  intros Hq Hr Hh He Hn Hnew Hr' sp. unfold walk_new. mrun.
  assert (r ≠ r') as Hne by (intros <-; cbn in Hr'; by rewrite lookup_insert_eq in Hr').
  rewrite (walk_ent_run ctx _ r true sf ent names)
    by (done || (cbn; by rewrite lookup_insert_ne, lookup_insert_eq)).
  cbn [s_world refs heap]. subst sp.
  destruct (spec_walk_ent ctx ent names (s_world s)) as [rs w]. cbn [fst snd].
  destruct (unlock_held s r sf w (<[newfid := r']> (refs s)) r'
              (true, mkSFid None None 0) Hh Hr') as [Eu Hr's].
  destruct (quiescent_world s w Hq) as [Hqw Haw].
  destruct (quiescent_fresh (mkSession w (refs s) (heap s)) r' (false, mkSFid None None 0) Hqw Hr's)
    as [Hqg Hag]. cbn [s_world refs heap] in Hqg, Hag. rewrite Haw in Hag.
  assert (∀ A (k : M A),
    (unlock r;; (refs_Delete newfid;; unlock r');; k)
      (mkSession w (<[newfid := r']> (refs s)) (<[r' := (true, mkSFid None None 0)]> (heap (held s r sf))))
    = k (mkSession w (refs s) (<[r' := (false, mkSFid None None 0)]> (heap s)))) as Hdrop.
  { intros A k. mrun. rewrite Eu. mrun. unfold unlock. cbn [s_world refs heap].
    rewrite lookup_insert_eq. cbn [s_world refs heap].
    by rewrite insert_insert_eq, delete_insert_id. }
  unfold refs_Delete in Hdrop.
  destruct rs as [[qids found]|e| |]; mrun; [| |eexists; split; [done|by intros []]..].
  - destruct (decide (names ≠ [] ∧ length qids = 0%nat)) as [[Hnil Hz]|Hd].
    { rewrite Hdrop. apply nil_length_inv in Hz as ->. rewrite decide_False.
      2:{ destruct names; [done|]. cbn. lia. }
      mrun. eexists. split; [done|]. intros _. by split. }
    destruct (decide (length qids ≠ length names)) as [Hp|Hc].
    { rewrite Hdrop, decide_False by done. mrun. eexists. split; [done|]. intros _. by split. }
    rewrite decide_True by lia. mrun. rewrite Eu. mrun. unfold finally, link. mrun.
    rewrite (get_run _ _ true (mkSFid None None 0)) by (cbn; apply lookup_insert_eq). mrun.
    unfold unlock. cbn [s_world refs heap].
    rewrite (alter_known _ _ _ (true, mkSFid None None 0)) by apply lookup_insert_eq.
    rewrite lookup_insert_eq. cbn [s_world refs heap fst snd]. rewrite !insert_insert_eq.
    eexists. split; [done|]. intros _. by apply quiescent_insert.
  - rewrite <-bind_run, Hdrop. eexists. split; [done|]. intros _. by split.
Qed.

Lemma refines_Walk ctx fid newfid names :
  refines (Walk ctx fid newfid names) (spec_Walk ctx fid newfid names).
Proof.
  intros s Hq. unfold Walk, spec_Walk. case_decide; [by exists s|].
  destruct (decide (newfid = fid)) as [->|Hne].
  { exact (refines_on_fid fid _ _ (acts_on_walk_same ctx fid names) s Hq). }
  mrun. destruct (t_fids (abs s) !! fid) as [[[ent|] file md]|] eqn:Hf.
  2,3: rewrite getRef_dead; [by exists s|done|intros ? E; rewrite Hf in E; by simplify_eq].
  destruct (getRef_live s fid _ ent Hq Hf eq_refl) as (r & Hr & Hh & Hg). rewrite Hg.
  fold (held s r (mkSFid (Some ent) file md)).
  set (sf := mkSFid (Some ent) file md) in *. mrun.
  destruct (decide (newfid ≠ NOFID ∧ refs s !! newfid = None)) as [[Hn Hnew]|Hd].
  - destruct (newRef_new (held s r sf) newfid Hn Hnew) as (r' & Hr' & E). rewrite E. mrun.
    rewrite decide_False by done. pose proof Hnew as Hnf. apply abs_None in Hnf; [|done].
    rewrite decide_False by (rewrite Hnf; by intros [? [=]]).
    exact (walk_new_run ctx s fid r sf ent newfid names r' Hq Hr Hh eq_refl Hn Hnew Hr').
  - destruct (fid_taken s newfid Hq Hd) as [Ht Hs].
    destruct (newRef_dup (held s r sf) newfid Ht) as (s' & E & Hs'). rewrite E. mrun.
    assert (∃ s2, unlock r s' = (Ok (), s2) ∧ quiescent s2 ∧ abs s2 = abs s) as (s2 & -> & Hq2 & Ha2).
    { destruct Hs' as [->|(r' & Hr' & ->)].
      - unfold unlock. cbn [held heap]. rewrite lookup_insert_eq. eexists. split; [done|].
        cbn. rewrite insert_insert_eq, insert_id by done. by destruct s.
      - destruct (unlock_held s r sf (s_world s) (refs s) r' (true, mkSFid None None 0) Hh Hr')
          as [Eu Hr's].
        eexists. split; [exact Eu|]. by apply quiescent_fresh. }
    mrun. exists s2. destruct (decide (newfid = NOFID)) as [->|Hn]; [done|].
    rewrite decide_True by auto. done.
Qed.
End Refinement.
