(* ===== verification/Session.v ===== *)
(** * Session: the interface of session.go

    A session as its clients and servers see it: a class over the session's
    state with one operation per method.  Servers implement it over a file
    system (SFileSys), the specification of that implementation is another
    instance (the table of fids), and clients implement it over a connection
    (CSession). *)
From S2P Require Import Prelude Types FileSys SFileSys SessionSpec.

Class Session (St : Type) := {
  sAuth : context → Z → string → string → St → result error Qid * St;
  sAttach : context → Z → Z → string → string → St → result error Qid * St;
  sClunk : context → Z → St → result error unit * St;
  sRemove : context → Z → St → result error unit * St;
  sWalk : context → Z → Z → list string → St → result error (list Qid) * St;
  sRead : context → Z → Z → Z → St → result error (bytes * option error) * St;
  sWrite : context → Z → bytes → Z → St → result error (Z * option error) * St;
  sOpen : context → Z → Z → St → result error (Qid * Z) * St;
  sCreate : context → Z → string → Z → Z → St → result error (Qid * Z) * St;
  sStat : context → Z → St → result error Dir * St;
  sWStat : context → Z → Dir → St → result error unit * St;
  sVersion : St → Z * string
}.

(** The session of sfilesys.go. *)
#[export] Instance SFileSys_Session `{FS : FileSys} : Session session := {|
  sAuth := Auth;
  sAttach := Attach;
  sClunk := Clunk;
  sRemove := Remove;
  sWalk := Walk;
  sRead := Read;
  sWrite := Write;
  sOpen := Open;
  sCreate := Create;
  sStat := Stat;
  sWStat := WStat;
  sVersion := λ _, Version
|}.

(** Its specification. *)
#[export] Instance table_Session `{FS : FileSys} : Session table := {|
  sAuth := spec_Auth;
  sAttach := spec_Attach;
  sClunk := λ ctx fid, spec_delete ctx fid false;
  sRemove := λ ctx fid, spec_delete ctx fid true;
  sWalk := spec_Walk;
  sRead := spec_Read;
  sWrite := spec_Write;
  sOpen := spec_Open;
  sCreate := spec_Create;
  sStat := spec_Stat;
  sWStat := spec_WStat;
  sVersion := λ _, Version
|}.
