(* ===== verification/SleepFS.v ===== *)
(** * SleepFS: the file server of package sleepfs

    A [sleepTime] is a slice of numbers, the seconds, milliseconds and
    microseconds to sleep; the entry itself is the path.  Slices share their
    arrays, and Walk appends to a slice of a slice, so the server's state is
    the store of arrays.  Sleeping itself has no effect on the state.

    sleepfs/filesys.go, dirent.go and util.go. *)
From S2P Require Import Prelude Types Path FileSys.
From Stdlib Require Import Ascii.

Module SleepFS.

(** ** Slices of uint *)

(** The slice [arr[:s_len:s_cap]]; every slice here starts at its array. *)
Record sleepTime := mkSlice { s_arr : Z; s_len : nat; s_cap : nat }.

(** The arrays. *)
Abbreviation store := (gmap Z (list Z)).

Definition elems (w : store) (s : sleepTime) : list Z :=
  take (s_len s) (default [] (w !! s_arr s)).

(** [sleepTime{}] *)
Definition empty_slice : sleepTime := mkSlice 0 0 0.

(** [s[:k]] *)
Definition reslice (s : sleepTime) (k : Z) : option sleepTime :=
  if decide (0 ≤ k ≤ Z.of_nat (s_cap s)) then Some (mkSlice (s_arr s) (Z.to_nat k) (s_cap s))
  else None.

(** [append(s, x)]: in place while there is room, else in a new array of
    twice the capacity. *)
Definition append (s : sleepTime) (x : Z) (w : store) : sleepTime * store :=
  if decide (s_len s < s_cap s)%nat then
    (mkSlice (s_arr s) (S (s_len s)) (s_cap s), alter (<[s_len s := x]>) (s_arr s) w)
  else
    let cap := if decide (s_cap s = 0)%nat then 1%nat else (2 * s_cap s)%nat in
    let a := fresh ({[0]} ∪ dom w) in
    (mkSlice a (S (s_len s)) cap,
     <[a := (elems w s ++ [x]) ++ replicate (cap - S (s_len s)) 0]> w).

(** ** util.go *)

Definition sleepTime_IsDir (s : sleepTime) : bool := bool_decide (s_len s < 2)%nat.

Definition qid_of (l : list Z) : Qid :=
  if decide (length l < 2)%nat then
    match l with
    | s0 :: _ => mkQid QTDIR 0 (u64 (2 + u64 (s0 * 2)))
    | [] => mkQid QTDIR 0 0
    end
  else
    match l with
    | [s0; s1] => mkQid QTFILE 0 (u64 (u64 (u64 (s0 * 1000) + s1) * 2 + 1))
    | _ => mkQid QTFILE 0 0
    end.

Definition Info (l : list Z) : Dir :=
  let name := match last l with Some n => pretty n | None => "/" end in
  let mode := if decide (length l < 2)%nat then DMDIR else 0 in
  mkDir 0 0 (qid_of l) mode zeroTime zeroTime 0 name "" "" "sleeper".

(** ** strconv.Atoi *)

Definition digit (c : ascii) : option Z :=
  let n := Z.of_nat (nat_of_ascii c) in
  if decide (48 ≤ n ≤ 57) then Some (n - 48) else None.

Fixpoint digits (acc : Z) (s : string) : option Z :=
  match s with
  | EmptyString => Some acc
  | String c s => d ← digit c; digits (10 * acc + d) s
  end.

(** The error text leaves out the quoting of the argument. *)
Definition Atoi (s : string) : result error Z :=
  let bad := Err (errorString ("strconv.Atoi: parsing " +:+ s +:+ ": invalid syntax")) in
  let range := Err (errorString ("strconv.Atoi: parsing " +:+ s +:+ ": value out of range")) in
  let '(neg, body) :=
    match s with
    | String c r =>
        if decide (c = "-"%char) then (true, r)
        else if decide (c = "+"%char) then (false, r) else (false, s)
    | EmptyString => (false, s)
    end in
  match body with
  | EmptyString => bad
  | _ =>
      match digits 0 body with
      | None => bad
      | Some n =>
          let n := if neg : bool then - n else n in
          if decide (- 2 ^ 63 ≤ n < 2 ^ 63) then Ok n else range
      end
  end.

(** ** dirent.go: Walk *)

(** The slots of [qids] that are not filled yet. *)
Definition pad (total : nat) (qids : list Qid) : list Qid :=
  qids ++ replicate (total - length qids) zeroQid.

(** The first loop: [i] elements walked, [qids] so far.  The early return at
    the root ([inl]), or the names left. *)
Fixpoint walk_up (total : nat) (w : store) (s : sleepTime) (i : Z) (qids : list Qid)
    (names : list string) : result error (list Qid + Z * list Qid * list string) :=
  match names with
  | name :: rest =>
      if decide (name = "..") then
        if decide (s_len s = 0)%nat then Ok (inl (pad total qids))
        else
          match reslice s (Z.of_nat (s_len s) - 1 - i) with
          | Some s' => walk_up total w s (i + 1) (qids ++ [qid_of (elems w s')]) rest
          | None => Panic "slice bounds out of range"
          end
      else Ok (inr (i, qids, names))
  | [] => Ok (inr (i, qids, []))
  end.

(** The second loop.  [None] is the nil entry. *)
Fixpoint walk_down (total : nat) (w : store) (s : sleepTime) (qids : list Qid)
    (names : list string) : result error (list Qid * option sleepTime) * store :=
  match names with
  | [] => (Ok (qids, Some s), w)
  | name :: rest =>
      match Atoi name with
      | Ok n =>
          if decide (n < 0 ∨ 1000 ≤ n ∨ (s_len s = 0%nat ∧ 5 ≤ n))
          then (Ok (pad total qids, None), w)
          else
            let '(s, w) := append s n w in
            walk_down total w s (qids ++ [qid_of (elems w s)]) rest
      | Err e => (Err e, w)
      | Panic y => (Panic y, w)
      | Hang y => (Hang y, w)
      end
  end.

Definition sleepTime_Walk (s : sleepTime) (names : list string) (w : store)
    : result error (list Qid * option sleepTime) * store :=
  if decide (names = []) then (Ok ([], Some s), w)
  else
    match walk_up (length names) w s 0 [] names with
    | Ok (inl qids) => (Ok (qids, None), w)
    | Ok (inr (i, qids, rest)) =>
        match reslice s (Z.of_nat (s_len s) - i) with
        | Some s => walk_down (length names) w s qids rest
        | None => (Panic "slice bounds out of range", w)
        end
    | Err e => (Err e, w)
    | Panic y => (Panic y, w)
    | Hang y => (Hang y, w)
    end.

(** [duration], in nanoseconds. *)
Definition duration (l : list Z) : Z :=
  let t := match l !! 0%nat with Some s => int64 (s * 1000000000) | None => 0 end in
  let t := match l !! 1%nat with Some ms => int64 (t + int64 (ms * 1000000)) | None => t end in
  match l !! 2%nat with Some us => int64 (t + int64 (us * 1000)) | None => t end.

(** [OpenDir]; [dirList.Next] gives no entries. *)
Definition OpenDir (s : sleepTime) : result error unit :=
  if decide (2 ≤ s_len s)%nat then Err (E9p "not a directory") else Ok ().
Definition dirList_Next : list Dir := [].

(** The methods of an entry, which is a file too.  The argument [w] is the
    store. *)
Definition sleepTime_Clunk (s : sleepTime) (w : store) : result error unit * store := (Ok (), w).
Definition sleepTime_Remove (s : sleepTime) (w : store) : result error unit * store :=
  (Err ErrNoremove, w).
Definition sleepTime_Create (s : sleepTime) (name : string) (perm mode : Z) (w : store)
    : result error (option sleepTime * option sleepTime) * store :=
  (Err ErrNocreate, w).
Definition sleepTime_Stat (s : sleepTime) (w : store) : result error Dir * store :=
  (Ok (Info (elems w s)), w).
Definition sleepTime_WStat (s : sleepTime) (dir : Dir) (w : store) : result error unit * store :=
  (Err ErrNowstat, w).
Definition sleepTime_Open (s : sleepTime) (mode : Z) (w : store)
    : result error (option sleepTime) * store :=
  (Ok (Some s), w).

(** A read gives nothing and a write takes all, after the sleep. *)
Definition sleepTime_Read (s : sleepTime) (count offset : Z) (w : store)
    : result error (bytes * option error) * store :=
  (Ok ([], None), w).
Definition sleepTime_Write (s : sleepTime) (p : bytes) (offset : Z) (w : store)
    : result error (Z * option error) * store :=
  (Ok (len p, None), w).
Definition sleepTime_IOUnit (s : sleepTime) : Z := 0.

(** ** The file system *)

#[export] Instance sServer : FileSys := {|
  World := store;
  Dirent := sleepTime;
  File := sleepTime;
  Iter := unit;
  RequireAuth _ _ := false;
  Auth_ _ _ _ w := (Ok None, w);
  Attach_ _ _ _ _ w := (Ok empty_slice, w);
  is_AuthFile _ := false;
  Success _ _ := false;
  file_Read _ s count offset w := sleepTime_Read s count offset w;
  file_Write _ s p offset w := sleepTime_Write s p offset w;
  file_IOUnit s _ := sleepTime_IOUnit s;
  ent_Qid s w := qid_of (elems w s);
  ent_OpenDir _ s w := (OpenDir s, w);
  iter_Next _ it w := (Ok dirList_Next, (it, w));
  ent_Walk _ s names w := sleepTime_Walk s names w;
  ent_Create _ s name perm mode w := sleepTime_Create s name perm mode w;
  ent_Open _ s mode w := sleepTime_Open s mode w;
  ent_Remove _ s w := sleepTime_Remove s w;
  ent_Clunk _ s w := sleepTime_Clunk s w;
  ent_Stat _ s w := sleepTime_Stat s w;
  ent_WStat _ s dir w := sleepTime_WStat s dir w
|}.

(** ** Facts *)

Lemma walk_up_dotdot total w s i qids k rest :
  (0 < s_len s)%nat → Z.of_nat (s_len s) ≤ i + Z.of_nat k → 0 ≤ i ≤ Z.of_nat (s_len s) →
  (s_len s ≤ s_cap s)%nat →
  walk_up total w s i qids (replicate (S k) ".." ++ rest) = Panic "slice bounds out of range".
Proof.
  revert i qids. induction k as [|k IH]; intros i qids Hl Hk Hi Hc.
  - change (replicate 1 ".." ++ rest) with (".." :: rest). cbn [walk_up].
    rewrite decide_True by done. rewrite decide_False by lia. unfold reslice.
    by rewrite decide_False by lia.
  - change (replicate (S (S k)) ".." ++ rest) with (".." :: (replicate (S k) ".." ++ rest)).
    cbn [walk_up]. rewrite decide_True by done. rewrite decide_False by lia. unfold reslice.
    case_decide as Hd; [|done]. apply (IH (i + 1)); lia.
Qed.

(** ** Theorems *)

(** Going up from a directory that is not the root by more [..] than it
    is deep crashes the server: the guard tests the depth of the directory it
    started from, not what is left, and the slice bound turns negative. *)
Theorem sleep_walk_above_root_panics s k rest w :
  (0 < s_len s ≤ s_cap s)%nat → (s_len s ≤ k)%nat →
  sleepTime_Walk s (replicate (S k) ".." ++ rest) w = (Panic "slice bounds out of range", w).
Proof.
  intros Hs Hk. unfold sleepTime_Walk. rewrite decide_False by done.
  rewrite walk_up_dotdot by lia. done.
Qed.

Lemma sleep_walk_above_root_panics_witness :
  sleepTime_Walk (mkSlice 1 1 1) [".."; ".."] (<[1 := [3]]> ∅)
  = (Panic "slice bounds out of range", <[1 := [3]]> ∅).
Proof. apply (sleep_walk_above_root_panics (mkSlice 1 1 1) 1 []); cbn; lia. Defined.

(** Walking from an entry changes the entry: [..] followed by a name
    appends in place to the array the entry still uses, so a fid at one
    directory silently becomes a fid at its sibling, the new fid and the old
    one sharing the same element. *)
Theorem sleep_walk_aliases a x n name w :
  w !! a = Some [x] → Atoi name = Ok n → 0 ≤ n < 5 → name ≠ ".." →
  let s := mkSlice a 1 1 in
  let r := sleepTime_Walk s [".."; name] w in
  elems w s = [x] ∧
  fst r = Ok ([qid_of []; qid_of [n]], Some s) ∧
  elems (snd r) s = [n].
Proof.
  intros Ha Hn Hr Hdd s r.
  assert (r = (Ok ([qid_of []; qid_of [n]], Some s), alter (<[0%nat := n]>) a w)) as ->.
  { subst r s. unfold sleepTime_Walk. rewrite decide_False by done.
    cbn [length walk_up]. rewrite decide_True by done. rewrite decide_False by done.
    change (reslice (mkSlice a 1 1) (Z.of_nat (s_len (mkSlice a 1 1)) - 1 - 0))
      with (Some (mkSlice a 0 1)).
    cbv beta iota. rewrite decide_False by done.
    change (reslice (mkSlice a 1 1) (Z.of_nat (s_len (mkSlice a 1 1)) - (0 + 1)))
      with (Some (mkSlice a 0 1)).
    cbv beta iota. cbn [walk_down app]. rewrite Hn, decide_False by lia.
    change (append (mkSlice a 0 1) n w) with (mkSlice a 1 1, alter (<[0%nat := n]>) a w).
    unfold elems at 2. cbn [s_arr s_len]. by rewrite lookup_alter_eq, Ha. }
  cbn. unfold elems. cbn. by rewrite lookup_alter_eq, Ha.
Qed.

Lemma sleep_walk_aliases_witness :
  let s := mkSlice 1 1 1 in
  let r := sleepTime_Walk s [".."; "4"] (<[1 := [3]]> ∅) in
  elems (<[1 := [3]]> ∅) s = [3] ∧
  fst r = Ok ([qid_of []; qid_of [4]], Some s) ∧
  elems (snd r) s = [4].
Proof.
  apply (sleep_walk_aliases 1 3 4 "4" (<[1 := [3]]> ∅));
    [vm_compute; reflexivity | vm_compute; reflexivity | lia | discriminate].
Defined.

End SleepFS.
