(* ===== verification/Ufs.v ===== *)
(** * Ufs: the file server of package ufs

    ufs serves a directory of the host.  The host's operations (packages os,
    os/user and syscall) are a parameter: a record of functions on the state
    of the host.  Entries are pointers to [FileRef]s, which Open and WStat
    change, so the server's state has a store of them.  The package paths of
    the host are those of a Unix system: package filepath works as package
    path, and FromSlash is the identity.

    ufs/filesys.go, dirent.go and util.go. *)
From S2P Require Import Prelude Types Path FileSys.

Module Ufs.

(** ** The host *)

(** What ufs reads of an os.FileInfo: [fi_mode] holds the permission bits. *)
Record FileInfo := mkInfo {
  fi_ino : Z;
  fi_mtime : Time;
  fi_atime : Time;
  fi_name : string;
  fi_mode : Z;
  fi_isdir : bool;
  fi_size : Z
}.

(** The operations on a host with states [HS] and open files [OF].  An entry
    of ReadDir has the result of its Info method. *)
Record Host (HS OF : Type) := mkHost {
  os_Stat : string → HS → result error FileInfo * HS;
  os_ReadDir : string → HS → result error (list (result error FileInfo)) * HS;
  os_Remove : string → HS → result error unit * HS;
  os_Mkdir : string → Z → HS → result error unit * HS;
  os_OpenFile : string → Z → Z → HS → result error OF * HS;
  os_Chmod : string → Z → HS → result error unit * HS;
  os_Chown : string → Z → Z → HS → result error unit * HS;
  os_Rename : string → string → HS → result error unit * HS;
  os_Truncate : string → Z → HS → result error unit * HS;
  user_Lookup : string → HS → result error Z * HS;         (* Uid, with Atoi *)
  user_LookupGroup : string → HS → result error Z * HS;    (* Gid, with Atoi *)
  f_ReadAt : OF → Z → Z → HS → result error (bytes * option error) * HS;
  f_WriteAt : OF → bytes → Z → HS → result error (Z * option error) * HS;
  f_Close : OF → HS → result error unit * HS
}.
Arguments mkHost {HS OF}.
Arguments os_Stat {HS OF}. Arguments os_ReadDir {HS OF}. Arguments os_Remove {HS OF}.
Arguments os_Mkdir {HS OF}. Arguments os_OpenFile {HS OF}. Arguments os_Chmod {HS OF}.
Arguments os_Chown {HS OF}. Arguments os_Rename {HS OF}. Arguments os_Truncate {HS OF}.
Arguments user_Lookup {HS OF}. Arguments user_LookupGroup {HS OF}.
Arguments f_ReadAt {HS OF}. Arguments f_WriteAt {HS OF}. Arguments f_Close {HS OF}.

(** ** Package path *)

(** [path.Split(p)], the part up to the last slash. *)
Fixpoint dir_part (p : string) : string :=
  match p with
  | EmptyString => ""
  | String a p' => if contains_byte slash p then String a (dir_part p') else ""
  end.

Definition path_Dir (p : string) : string := Clean (dir_part p).

(** ** util.go *)

Definition dirFromInfo (info : FileInfo) : Dir :=
  let mode := u32 (Z.land (fi_mode info) 511) in
  let nanos := int64 (t_unix (fi_mtime info) * 1000000000 + t_nsec (fi_mtime info)) in
  mkDir 0 0
    (mkQid (if fi_isdir info then QTDIR else 0) (u32 (Z.quot nanos 1000000)) (fi_ino info))
    (if fi_isdir info then Z.lor mode DMDIR else mode)
    (fi_atime info) (fi_mtime info) (u64 (fi_size info)) (fi_name info) "" "" "none".

Definition O_RDONLY : Z := 0.
Definition O_WRONLY : Z := 1.
Definition O_RDWR : Z := 2.
Definition O_CREATE : Z := 64.
Definition O_TRUNC : Z := 512.

Definition oflags (mode : Z) : Z :=
  let m := Z.land mode 3 in
  let flags :=
    if decide (m = OREAD) then O_RDONLY
    else if decide (m = ORDWR) then O_RDWR
    else if decide (m = OWRITE) then O_WRONLY
    else if decide (m = OEXEC) then O_RDONLY
    else 0 in
  if decide (Z.land mode OTRUNC ≠ 0) then Z.lor flags O_TRUNC else flags.

Section Ufs.
Context {HS OF : Type}.

Record FileRef := mkRef {
  r_file : option OF;
  r_Path : string;
  r_Info : Dir
}.

Record uworld := mkWorld {
  u_host : HS;
  u_refs : gmap Z FileRef;
  u_next : Z
}.

(** ** The monad *)

Definition U (A : Type) : Type := uworld → result error A * uworld.

#[global] Instance U_ret : MRet U := λ A a w, (Ok a, w).
#[global] Instance U_bind : MBind U := λ A B f m w,
  match m w with
  | (Ok a, w) => f a w
  | (Err e, w) => (Err e, w)
  | (Panic y, w) => (Panic y, w)
  | (Hang y, w) => (Hang y, w)
  end.

Definition ufail {A} (e : error) : U A := λ w, (Err e, w).
Definition ulift {A} (r : result error A) : U A := λ w, (r, w).

(** A call of the host. *)
Definition host {A} (m : HS → result error A * HS) : U A := λ w,
  let '(r, h) := m (u_host w) in (r, mkWorld h (u_refs w) (u_next w)).

(** A call whose error is ignored. *)
Definition ignore {A} (m : U A) : U unit := λ w,
  match m w with
  | (Ok _, w) | (Err _, w) => (Ok (), w)
  | (Panic y, w) => (Panic y, w)
  | (Hang y, w) => (Hang y, w)
  end.

Definition load (a : Z) : U FileRef := λ w,
  match u_refs w !! a with
  | Some f => (Ok f, w)
  | None => (Panic "nil pointer dereference", w)
  end.
Definition store (a : Z) (f : FileRef) : U unit := λ w,
  (Ok (), mkWorld (u_host w) (<[a := f]> (u_refs w)) (u_next w)).
Definition alloc (f : FileRef) : U Z := λ w,
  (Ok (u_next w), mkWorld (u_host w) (<[u_next w := f]> (u_refs w)) (u_next w + 1)).

Section Server.
Context (os : Host HS OF) (Base : string).

(** ** filesys.go *)

Definition fullPath (p : string) : result error string :=
  if decide (IsAbs p = false ∨ contains_byte backslash p = true) then Err (E9p "Invalid path")
  else if decide (Clean p ≠ p) then Err (E9p "Invalid path")
  else Ok (Join [Base; p]).

Definition ref_fullPath (f : FileRef) : string := Join [Base; r_Path f].

Definition newRef (p : string) : U Z :=
  fpath ← ulift (fullPath p);
  info ← host (os_Stat os fpath);
  alloc (mkRef None p (dirFromInfo info)).

Definition Attach : U Z := newRef "/".

(** ** dirent.go *)

Definition ref_IsDir (f : FileRef) : bool :=
  bool_decide (0 < Z.land (Dir_Mode (r_Info f)) DMDIR).

Record dirList := mkDirList { dirs : list Dir; done : bool }.

Definition Next (d : dirList) : list Dir * dirList :=
  if done d then ([], d) else (dirs d, mkDirList (dirs d) true).

Definition OpenDir (a : Z) : U dirList :=
  f ← load a;
  if negb (ref_IsDir f) then ufail (E9p "not a directory")
  else
    files ← host (os_ReadDir os (ref_fullPath f));
    mret (mkDirList (omap (λ r, match r with Ok info => Some (dirFromInfo info) | _ => None end)
                       files) false).

Definition Clunk (a : Z) : U unit :=
  f ← load a;
  match r_file f with
  | Some file => host (f_Close os file)
  | None => mret ()
  end.

Definition Remove (a : Z) : U unit :=
  ignore (Clunk a);;
  f ← load a;
  if decide (r_Path f = "/" ∨ r_Path f = String backslash "") then ufail (E9p "cannot remove root")
  else host (os_Remove os (ref_fullPath f)).

Definition Walk (a : Z) (names : list string) : U (list Qid * Z) :=
  f ← load a;
  if decide (names = []) then
    next ← newRef (r_Path f);
    mret ([], next)
  else
    newpath ← ulift (WalkName (r_Path f) names);
    next ← newRef newpath;
    g ← load next;
    mret (replicate (length names - 1) zeroQid ++ [Dir_Qid (r_Info g)], next).

(** The switch of [Create]: the file, if one is opened. *)
Definition create_file (newpath : string) (perm mode : Z) : U (option OF) :=
  if decide (Z.land perm DMDIR ≠ 0) then
    host (os_Mkdir os newpath (Z.land perm 511));; mret None
  else if decide (Z.land perm DMSYMLINK ≠ 0) then mret None
  else if decide (Z.land perm DMNAMEDPIPE ≠ 0) then mret None
  else if decide (Z.land perm DMDEVICE ≠ 0) then ufail (E9p "not implemented")
  else
    file ← host (os_OpenFile os newpath (Z.lor (oflags mode) O_CREATE) (Z.land perm 511));
    mret (Some file).

Definition Create (a : Z) (name : string) (perm mode : Z) : U Z :=
  f ← load a;
  newrel ← ulift (CreateName (r_Path f) name);
  newpath ← ulift (fullPath newrel);
  file ← create_file newpath perm mode;
  ent ← (λ w,
    match newRef newrel w with
    | (Err e, w) =>
        match file with
        | Some file => (ignore (host (f_Close os file));; ufail e) w
        | None => (Err e, w)
        end
    | r => r
    end);
  match file with
  | Some _ => g ← load ent; store ent (mkRef file (r_Path g) (r_Info g));; mret ent
  | None => mret ent
  end.

Definition Stat (a : Z) : U Dir := f ← load a; mret (r_Info f).

(** The parts of [WStat], in order. *)
Definition wstat_mode (a : Z) (dir : Dir) : U unit :=
  if decide (Dir_Mode dir ≠ 2 ^ 32 - 1) then
    f ← load a; host (os_Chmod os (ref_fullPath f) (Z.land (Dir_Mode dir) 511))
  else mret ().

Definition wstat_owner (a : Z) (dir : Dir) : U unit :=
  if decide (Dir_UID dir ≠ "" ∨ Dir_GID dir ≠ "") then
    uid ← host (user_Lookup os (Dir_UID dir));
    gid ← host (user_LookupGroup os (Dir_GID dir));
    f ← load a;
    host (os_Chown os (ref_fullPath f) uid gid)
  else mret ().

(** An absolute name: [rel = path.Clean(rel)], where [rel] is still empty. *)
Definition wstat_rename (a : Z) (dir : Dir) : U unit :=
  if decide (Dir_Name dir ≠ "") then
    f ← load a;
    let rel := if IsAbs (Dir_Name dir) then Clean ""
               else Join [path_Dir (r_Path f); Dir_Name dir] in
    newpath ← ulift (fullPath rel);
    host (os_Rename os (ref_fullPath f) newpath);;
    store a (mkRef (r_file f) rel (r_Info f))
  else mret ().

Definition wstat_length (a : Z) (dir : Dir) : U unit :=
  if decide (Dir_Length dir ≠ 2 ^ 64 - 1) then
    f ← load a; host (os_Truncate os (ref_fullPath f) (int64 (Dir_Length dir)))
  else mret ().

Definition WStat (a : Z) (dir : Dir) : U unit :=
  wstat_mode a dir;; wstat_owner a dir;; wstat_rename a dir;; wstat_length a dir.

Definition Open (a : Z) (mode : Z) : U Z :=
  f ← load a;
  file ← host (os_OpenFile os (ref_fullPath f) (oflags mode) 0);
  store a (mkRef (Some file) (r_Path f) (r_Info f));;
  mret a.

(** The methods of a nil *os.File return os.ErrInvalid. *)
Definition Read (a count offset : Z) : U (bytes * option error) :=
  f ← load a;
  match r_file f with
  | None => mret ([], Some (errorString "invalid argument"))
  | Some file =>
      '(p, err) ← host (f_ReadAt os file count offset);
      mret (p, if decide (err = Some EOF) then None else err)
  end.

Definition Write (a : Z) (p : bytes) (offset : Z) : U (Z * option error) :=
  f ← load a;
  match r_file f with
  | None => mret (0, Some (errorString "invalid argument"))
  | Some file => host (f_WriteAt os file p offset)
  end.

(** ** The file system *)

Definition ent_Qid (a : Z) (w : uworld) : Qid :=
  match u_refs w !! a with Some f => Dir_Qid (r_Info f) | None => zeroQid end.

Definition ufsServer : FileSys := {|
  World := uworld;
  Dirent := Z;
  File := Z;
  Iter := dirList;
  RequireAuth _ _ := false;
  Auth_ _ _ _ w := (Ok None, w);
  Attach_ _ _ _ _ w := Attach w;
  is_AuthFile _ := false;
  Success _ _ := false;
  file_Read _ a count offset w := Read a count offset w;
  file_Write _ a p offset w := Write a p offset w;
  file_IOUnit _ _ := 0;
  FileSys.ent_Qid := ent_Qid;
  ent_OpenDir _ a w := OpenDir a w;
  iter_Next _ it w := let '(ds, it) := Next it in (Ok ds, (it, w));
  ent_Walk _ a names w := (('(qids, next) ← Walk a names; mret (qids, Some next)) : U _) w;
  ent_Create _ a name perm mode w :=
    ((ent ← Create a name perm mode; mret (Some ent, Some ent)) : U _) w;
  ent_Open _ a mode w := ((f ← Open a mode; mret (Some f)) : U _) w;
  ent_Remove _ a w := Remove a w;
  ent_Clunk _ a w := Clunk a w;
  ent_Stat _ a w := Stat a w;
  ent_WStat _ a d w := WStat a d w
|}.
End Server.
End Ufs.

(** [NewServer]: the base is the cleaned root. *)
Definition NewServer {HS OF} (os : Host HS OF) (root : string) : FileSys :=
  ufsServer os (Clean root).
End Ufs.
