(* ===== verification/UfsPath.v ===== *)
(** * UfsPath: the paths ufs gives to the host

    [fullPath] accepts the canonical internal paths and nothing else, and
    maps them below the base; so no method of ufs ever names a file of the
    host outside the base.  The second is stated with a host that refuses
    other paths ([guard]): ufs over it and over the host itself are the
    same. *)
From S2P Require Import Prelude Types Path FileSys Ufs.

Module UfsPath.
Import Ufs.

(** ** Canonical paths *)

Lemma contains_byte_app c s t :
  contains_byte c (s +:+ t) = contains_byte c s || contains_byte c t.
Proof.
  induction s as [|a s IH]; [done|]. change (String a s +:+ t) with (String a (s +:+ t)).
  cbn [contains_byte]. by rewrite IH, orb_assoc.
Qed.

Lemma contains_join c ss :
  contains_byte c (join_slash ss) = false → Forall (λ s, contains_byte c s = false) ss.
Proof.
  induction ss as [|s ss IH]; intros H; [done|]. constructor; destruct ss as [|s' ss]; try done.
  - change (contains_byte c (s +:+ "/" +:+ join_slash (s' :: ss)) = false) in H.
    rewrite contains_byte_app in H. by apply orb_false_iff in H as [H _].
  - apply IH. change (contains_byte c (s +:+ "/" +:+ join_slash (s' :: ss)) = false) in H.
    rewrite !contains_byte_app in H. by apply orb_false_iff in H as [_ [_ H]%orb_false_iff].
Qed.

Lemma split_slash_noslash s : Forall (λ e, contains_byte slash e = false) (split_slash s).
Proof.
  induction s as [|a s IH]; cbn [split_slash]; [by repeat constructor|].
  case_decide as Ha; [by constructor|].
  destruct IH as [|w ws Hw Hws]; constructor; cbn [contains_byte];
    try (by rewrite bool_decide_eq_false_2 by done); done.
Qed.

(** What is left by path.Clean of a rooted path. *)
Definition clean_elem (s : string) : Prop :=
  s ≠ "" ∧ s ≠ "." ∧ s ≠ ".." ∧ contains_byte slash s = false.

Lemma clean_fold_elems es out :
  Forall (λ e, contains_byte slash e = false) es → Forall clean_elem out →
  Forall clean_elem (foldl (clean_step true) out es).
Proof.
  intros He. revert out. induction He as [|e es Hs He IH]; intros out Ho; [done|].
  cbn [foldl]. apply IH. unfold clean_step.
  destruct (decide (e = "" ∨ e = ".")) as [|H1]; [done|].
  destruct (decide (e = "..")) as [|H2].
  - destruct Ho as [|t out Ht Ho]; [constructor|]. case_decide as Ht'; [|done].
    by destruct Ht as (_ & _ & Hdd & _).
  - constructor; [|done]. split_and!; naive_solver.
Qed.

Lemma clean_fold_render out comps :
  Forall valid_elem comps →
  foldl (clean_step true) out (split_slash (render comps)) = rev comps ++ out.
Proof.
  intros Hc. unfold render.
  change ("/" +:+ join_slash comps) with ("" +:+ "/" +:+ join_slash comps).
  rewrite split_slash_app. cbn [split_slash app foldl].
  change (clean_step true out "") with out. destruct comps as [|c comps]; [done|].
  rewrite split_join; [by rewrite foldl_push|done|].
  eapply Forall_impl; [exact Hc|apply valid_elem_noslash].
Qed.

Lemma render_clean comps : Forall valid_elem comps → Clean (render comps) = render comps.
Proof.
  intros Hc. unfold Clean. rewrite decide_False by done.
  change (IsAbs (render comps)) with true. cbv zeta.
  rewrite clean_fold_render, app_nil_r, rev_involutive by done. by rewrite decide_False.
Qed.

Lemma clean_render p :
  IsAbs p = true → contains_byte backslash p = false → Clean p = p →
  ∃ comps, Forall valid_elem comps ∧ p = render comps.
Proof.
  intros Ha Hb Hc. unfold Clean in Hc. rewrite Ha in Hc.
  destruct (decide (p = "")) as [->|_]; [done|]. cbv zeta in Hc.
  rewrite decide_False in Hc by done. set (out := foldl _ _ _) in Hc.
  exists (rev out). split; [|by symmetry].
  assert (Forall clean_elem (rev out)) as He.
  { apply Forall_rev, clean_fold_elems; [apply split_slash_noslash|constructor]. }
  assert (Forall (λ s, contains_byte backslash s = false) (rev out)) as Hbs.
  { apply contains_join. rewrite <-Hc in Hb. rewrite contains_byte_app in Hb.
    by apply orb_false_iff in Hb as [_ Hb]. }
  apply Forall_forall. intros s Hs.
  destruct (proj1 (Forall_forall _ _) He s Hs) as (H1 & H2 & H3 & H4).
  pose proof (proj1 (Forall_forall _ _) Hbs s Hs) as H5. cbv beta in H5.
  split_and!; [done..|]. unfold contains_sep. by rewrite H4, H5.
Qed.

Lemma render_nobackslash comps :
  Forall valid_elem comps → contains_byte backslash (render comps) = false.
Proof.
  intros Hc. unfold render. rewrite contains_byte_app.
  change (contains_byte backslash "/") with false. cbn [orb].
  induction Hc as [|s ss (_ & _ & _ & Hs) _ IH]; [done|].
  apply orb_false_iff in Hs as [Hs _]. destruct ss as [|s' ss]; [done|].
  change (contains_byte backslash (s +:+ "/" +:+ join_slash (s' :: ss)) = false).
  by rewrite !contains_byte_app, Hs, IH.
Qed.

Lemma Join_render b comps :
  Forall valid_elem b → Forall valid_elem comps → Join [render b; render comps] = render (b ++ comps).
Proof.
  intros Hb Hc. unfold Join. rewrite decide_False by (by intros [? _]%Forall_cons).
  cbn [join_buf]. rewrite decide_True by (left + right; done).
  rewrite (decide_False (P := "" ≠ "")) by auto.
  change ("" +:+ render b) with (render b).
  rewrite decide_True by auto. rewrite decide_True by done. rewrite sapp_assoc.
  unfold Clean. rewrite decide_False by done.
  change (IsAbs (render b +:+ "/" +:+ render comps)) with true. cbv zeta.
  rewrite split_slash_app, foldl_app, !clean_fold_render, app_nil_r by done.
  rewrite <-rev_app_distr, rev_involutive. by rewrite decide_False.
Qed.

(** ** Confinement *)

Section Confined.
Context {HS OF : Type} (os : Host HS OF) (base : list string).
Context (Hbase : Forall valid_elem base).

(** The base directory and all below it. *)
Definition inside (p : string) : Prop :=
  ∃ comps, Forall valid_elem comps ∧ p = render (base ++ comps).

Lemma fullPath_spec p :
  (∃ comps, Forall valid_elem comps ∧ p = render comps ∧
     fullPath (render base) p = Ok (render (base ++ comps))) ∨
  ((∀ comps, Forall valid_elem comps → p ≠ render comps) ∧
     fullPath (render base) p = Err (E9p "Invalid path")).
Proof.
  unfold fullPath.
  destruct (decide (IsAbs p = false ∨ contains_byte backslash p = true)) as [Hp|Hp].
  { right. split; [|done]. intros comps Hc ->. destruct Hp as [|Hp]; [done|].
    by rewrite render_nobackslash in Hp. }
  destruct (decide (Clean p ≠ p)) as [Hcl|Hcl].
  { right. split; [|done]. intros comps Hc ->. by rewrite render_clean in Hcl. }
  left. destruct (clean_render p) as (comps & Hc & ->).
  - by destruct (IsAbs p); [|destruct Hp; left].
  - by destruct (contains_byte backslash p); [destruct Hp; right|].
  - by apply dec_stable.
  - exists comps. by rewrite Join_render.
Qed.

(** Every entry has a canonical path. *)
Definition wf_ref (f : FileRef (OF := OF)) : Prop :=
  ∃ comps, Forall valid_elem comps ∧ r_Path f = render comps.
Definition wf_world (w : uworld (HS := HS) (OF := OF)) : Prop := map_Forall (λ _ f, wf_ref f) (u_refs w).

Lemma ref_inside f : wf_ref f → inside (ref_fullPath (render base) f).
Proof.
  intros (comps & Hc & Hp). exists comps. split; [done|]. unfold ref_fullPath.
  by rewrite Hp, Join_render.
Qed.

Lemma fullPath_inside p q :
  fullPath (render base) p = Ok q → inside q ∧ ∃ comps, Forall valid_elem comps ∧ p = render comps.
Proof.
  destruct (fullPath_spec p) as [(comps & Hc & -> & ->)|[_ ->]]; [|done].
  intros [= <-]. split; eexists; by split.
Qed.

(** The same, as a test on the path: it is clean, and the base or under it. *)
Definition insideb (p : string) : bool :=
  bool_decide (Clean p = p) &&
  (bool_decide (base = []) || bool_decide (p = render base) ||
   String.prefix (render base +:+ "/") p).

Lemma prefix_app s t : String.prefix s (s +:+ t) = true.
Proof.
  induction s as [|a s IH]; [by destruct t|]. change (String a s +:+ t) with (String a (s +:+ t)).
  cbn [String.prefix]. by destruct (Ascii.ascii_dec a a).
Qed.

Lemma join_slash_app ss ts :
  ss ≠ [] → ts ≠ [] → join_slash (ss ++ ts) = join_slash ss +:+ "/" +:+ join_slash ts.
Proof.
  intros Hs Ht. induction ss as [|s ss IH]; [done|]. destruct ss as [|s' ss].
  - destruct ts; [done|]. done.
  - change (join_slash ((s :: s' :: ss) ++ ts)) with (s +:+ "/" +:+ join_slash ((s' :: ss) ++ ts)).
    rewrite IH by done. change (join_slash (s :: s' :: ss)) with (s +:+ "/" +:+ join_slash (s' :: ss)).
    by rewrite !sapp_assoc.
Qed.

Lemma inside_insideb p : inside p → insideb p = true.
Proof.
  intros (comps & Hc & ->). unfold insideb.
  rewrite bool_decide_eq_true_2 by (apply render_clean, Forall_app; by split). cbn [andb].
  destruct base as [|b bs]; [done|]. destruct comps as [|c cs].
  - by rewrite app_nil_r, (bool_decide_eq_true_2 (render (b :: bs) = _)), orb_true_r by done.
  - assert (render ((b :: bs) ++ c :: cs) = (render (b :: bs) +:+ "/") +:+ join_slash (c :: cs)) as ->.
    { unfold render. by rewrite join_slash_app, !sapp_assoc. }
    by rewrite prefix_app, orb_true_r.
Qed.

(** A host that refuses every path for which the test fails. *)
Definition refuse {A} (h : HS) : result error A * HS := (Panic "outside", h).

Definition guard (ok : string → bool) : Host HS OF := {|
  os_Stat p := if ok p then os_Stat os p else refuse;
  os_ReadDir p := if ok p then os_ReadDir os p else refuse;
  os_Remove p := if ok p then os_Remove os p else refuse;
  os_Mkdir p m := if ok p then os_Mkdir os p m else refuse;
  os_OpenFile p fl m := if ok p then os_OpenFile os p fl m else refuse;
  os_Chmod p m := if ok p then os_Chmod os p m else refuse;
  os_Chown p u g := if ok p then os_Chown os p u g else refuse;
  os_Rename p q := if ok p && ok q then os_Rename os p q else refuse;
  os_Truncate p n := if ok p then os_Truncate os p n else refuse;
  user_Lookup := user_Lookup os;
  user_LookupGroup := user_LookupGroup os;
  f_ReadAt := f_ReadAt os;
  f_WriteAt := f_WriteAt os;
  f_Close := f_Close os
|}.

(** Two computations that are the same from a well-formed state, keep it
    well formed, and have results in [Q]. *)
Definition conf {A} (Q : A → Prop) (m1 m2 : U (HS := HS) (OF := OF) A) : Prop :=
  ∀ w, wf_world w → m1 w = m2 w ∧ wf_world (snd (m2 w)) ∧ ∀ a, fst (m2 w) = Ok a → Q a.

Lemma conf_ret {A} (Q : A → Prop) a : Q a → conf Q (mret a) (mret a).
Proof. intros H w Hw. split_and!; [done|done|]. by intros a' [= <-]. Qed.
Lemma conf_fail {A} (Q : A → Prop) e : conf Q (ufail e) (ufail e).
Proof. intros w Hw. by split_and!. Qed.
Lemma conf_lift {A} (Q : A → Prop) r : (∀ a, r = Ok a → Q a) → conf Q (ulift r) (ulift r).
Proof. intros H w Hw. by split_and!. Qed.
Lemma conf_bind {A B} (Q : A → Prop) (Q' : B → Prop) m1 m2 f1 f2 :
  conf Q m1 m2 → (∀ a, Q a → conf Q' (f1 a) (f2 a)) → conf Q' (m1 ≫= f1) (m2 ≫= f2).
Proof.
  intros Hm Hf w Hw. destruct (Hm w Hw) as (E & Hw' & HQ).
  unfold mbind, U_bind. rewrite E. destruct (m2 w) as [[a|e|y|y] w']; [|by split_and!..].
  by apply Hf; [apply HQ|].
Qed.
Lemma conf_host {A} (m : HS → result error A * HS) : conf (λ _, True) (host m) (host m).
Proof.
  intros w Hw. unfold host. destruct (m (u_host w)) as [r h]. by split_and!.
Qed.
Lemma conf_ignore {A} (Q : A → Prop) m1 m2 : conf Q m1 m2 → conf (λ _, True) (ignore m1) (ignore m2).
Proof.
  intros Hm w Hw. destruct (Hm w Hw) as (E & Hw' & _). unfold ignore. rewrite E.
  destruct (m2 w) as [[a|e|y|y] w']; by split_and!.
Qed.
Lemma conf_load a : conf wf_ref (load a) (load a).
Proof.
  intros w Hw. unfold load. destruct (u_refs w !! a) as [f|] eqn:Hf; [|by split_and!].
  split_and!; [done|done|]. intros f' [= <-]. by eapply Hw.
Qed.
Lemma conf_store a f : wf_ref f → conf (λ _, True) (store a f) (store a f).
Proof. intros Hf w Hw. split_and!; [done| |done]. by apply map_Forall_insert_2. Qed.
Lemma conf_alloc f : wf_ref f → conf (λ _, True) (alloc f) (alloc f).
Proof. intros Hf w Hw. split_and!; [done| |done]. by apply map_Forall_insert_2. Qed.

Context (ok : string → bool) (Hok : ∀ p, inside p → ok p = true).

Lemma Hok_ref f : wf_ref f → ok (ref_fullPath (render base) f) = true.
Proof. intros. by apply Hok, ref_inside. Qed.

(** The goals about one primitive: the host's own operations on a path that
    passes the test, and the rest. *)
Ltac conf_prim :=
  cbn [guard os_Stat os_ReadDir os_Remove os_Mkdir os_OpenFile os_Chmod os_Chown os_Rename
       os_Truncate user_Lookup user_LookupGroup f_ReadAt f_WriteAt f_Close];
  rewrite ?Hok_ref by done;
  first [ apply conf_host | apply conf_load | by apply conf_store | by apply conf_alloc
        | by apply conf_ret | apply conf_fail ].

Ltac conf_step := first [ eapply conf_bind; [conf_prim|intros ? ?] | conf_prim ].

Lemma conf_newRef p :
  conf (λ _, True) (newRef (guard ok) (render base) p) (newRef os (render base) p).
Proof.
  unfold newRef. eapply (conf_bind (λ q, inside q ∧ ∃ comps, Forall valid_elem comps ∧ p = render comps)).
  { apply conf_lift. apply fullPath_inside. }
  intros q [Hq Hp]. cbn [guard os_Stat]. rewrite Hok by done. conf_step. by apply conf_alloc.
Qed.

Lemma conf_OpenDir a :
  conf (λ _, True) (OpenDir (guard ok) (render base) a) (OpenDir os (render base) a).
Proof. unfold OpenDir. conf_step. case_match; [conf_prim|]. by repeat conf_step. Qed.

Lemma conf_Clunk a : conf (λ _, True) (Clunk (guard ok) a) (Clunk os a).
Proof. unfold Clunk. conf_step. by case_match; conf_prim. Qed.

Lemma conf_Remove a :
  conf (λ _, True) (Remove (guard ok) (render base) a) (Remove os (render base) a).
Proof.
  unfold Remove. eapply conf_bind; [eapply conf_ignore, conf_Clunk|intros ? _].
  conf_step. by case_match; conf_prim.
Qed.

Lemma conf_Walk a names :
  conf (λ _, True) (Walk (guard ok) (render base) a names) (Walk os (render base) a names).
Proof.
  unfold Walk. conf_step. case_decide.
  - eapply conf_bind; [apply conf_newRef|intros ? _]. by conf_prim.
  - eapply conf_bind; [by apply (conf_lift (λ _, True))|intros ? _].
    eapply conf_bind; [apply conf_newRef|intros ? _]. by repeat conf_step.
Qed.

Lemma conf_Create a name perm mode :
  conf (λ _, True) (Create (guard ok) (render base) a name perm mode)
    (Create os (render base) a name perm mode).
Proof.
  unfold Create. conf_step.
  eapply conf_bind; [by apply (conf_lift (λ _, True))|intros newrel _].
  eapply (conf_bind (λ q, inside q)).
  { apply conf_lift. intros q Hq. by destruct (fullPath_inside newrel q Hq). }
  intros newpath Hin.
  eapply (conf_bind (λ _, True)).
  { unfold create_file. cbn [guard os_Mkdir os_OpenFile]. rewrite !Hok by done.
    repeat case_decide; repeat conf_step; done. }
  intros file _. eapply (conf_bind (λ _, True)).
  { intros w Hw. destruct (conf_newRef newrel w Hw) as (E & Hw' & _). rewrite E.
    destruct (newRef os (render base) newrel w) as [[ent|e|y|y] w']; [by split_and!| |by split_and!..].
    destruct file as [file|]; [|by split_and!].
    apply (conf_bind (λ _, True) (λ _, True)); [|intros; apply conf_fail|done].
    eapply conf_ignore. conf_prim. }
  intros ent _. case_match; [|by conf_prim]. conf_step. by repeat conf_step.
Qed.

Lemma conf_WStat a dir :
  conf (λ _, True) (WStat (guard ok) (render base) a dir) (WStat os (render base) a dir).
Proof.
  unfold WStat. repeat (eapply (conf_bind (λ _, True)); [|intros ? _]).
  - unfold wstat_mode. case_decide; by repeat conf_step.
  - unfold wstat_owner. case_decide; by repeat conf_step.
  - unfold wstat_rename. case_decide; [|by conf_prim]. eapply (conf_bind wf_ref); [conf_prim|].
    intros f Hf. cbv zeta. set (rel := if IsAbs (Dir_Name dir) then _ else _).
    eapply (conf_bind (λ q, inside q ∧ ∃ comps, Forall valid_elem comps ∧ rel = render comps)).
    { apply conf_lift, fullPath_inside. }
    intros q [Hq Hr]. cbn [guard os_Rename]. rewrite Hok_ref, (Hok q) by done. cbn [andb].
    by repeat conf_step.
  - unfold wstat_length. case_decide; by repeat conf_step.
Qed.

Lemma conf_Open a mode :
  conf (λ _, True) (Open (guard ok) (render base) a mode) (Open os (render base) a mode).
Proof. unfold Open. conf_step. repeat conf_step. Qed.

Lemma conf_Read a count offset :
  conf (λ _, True) (Read (guard ok) a count offset) (Read os a count offset).
Proof.
  unfold Read. conf_step. case_match; [|by conf_prim].
  eapply conf_bind; [conf_prim|]. intros [p err] _. by conf_prim.
Qed.

Lemma conf_Write a p offset : conf (λ _, True) (Write (guard ok) a p offset) (Write os a p offset).
Proof. unfold Write. conf_step. by case_match; conf_prim. Qed.
End Confined.

(** ** Theorems *)

(** The same run, keeping paths canonical. *)
Definition confined {HS OF A} (m1 m2 : U (HS := HS) (OF := OF) A) (w : uworld) : Prop :=
  m1 w = m2 w ∧ wf_world (snd (m2 w)).

Lemma conf_confined {HS OF A} (m1 m2 : U (HS := HS) (OF := OF) A) w :
  conf (λ _, True) m1 m2 → wf_world w → confined m1 m2 w.
Proof. intros H Hw. by destruct (H w Hw) as (? & ? & _). Qed.

(** C21. ufs stays in its directory: with an absolute base, every method of
    the server and of its entries does the same over the host as over a host
    that refuses every path that is not the base or under it (in clean form),
    whatever names, paths and stat records the client sends, so no path
    outside is ever used; and the paths of all entries stay canonical. *)
Theorem ufs_confined {HS OF} (os : Host HS OF) base w :
  Forall valid_elem base → wf_world w →
  let B := render base in
  let os' := guard os (insideb base) in
  confined (Attach os' B) (Attach os B) w ∧
  (∀ a, confined (OpenDir os' B a) (OpenDir os B a) w) ∧
  (∀ a, confined (Clunk os' a) (Clunk os a) w) ∧
  (∀ a, confined (Remove os' B a) (Remove os B a) w) ∧
  (∀ a names, confined (Walk os' B a names) (Walk os B a names) w) ∧
  (∀ a name perm mode, confined (Create os' B a name perm mode) (Create os B a name perm mode) w) ∧
  (∀ a dir, confined (WStat os' B a dir) (WStat os B a dir) w) ∧
  (∀ a mode, confined (Open os' B a mode) (Open os B a mode) w) ∧
  (∀ a count offset, confined (Read os' a count offset) (Read os a count offset) w) ∧
  (∀ a p offset, confined (Write os' a p offset) (Write os a p offset) w).
Proof.
  intros Hb Hw B os'. pose proof (inside_insideb base Hb) as Hok.
  split_and!; intros; apply conf_confined; try done.
  - by apply conf_newRef.
  - by apply conf_OpenDir.
  - by eapply conf_Clunk.
  - by apply conf_Remove.
  - by apply conf_Walk.
  - by apply conf_Create.
  - by apply conf_WStat.
  - by apply conf_Open.
  - by eapply conf_Read.
  - by eapply conf_Write.
Qed.

(** A host where every path is an empty directory. *)
Definition demo_info : FileInfo := mkInfo 7 (mkTime 0 0) (mkTime 0 0) "d" 493 true 0.
Definition demo_host : Host unit unit := {|
  os_Stat _ h := (Ok demo_info, h);
  os_ReadDir _ h := (Ok [], h);
  os_Remove _ h := (Ok (), h);
  os_Mkdir _ _ h := (Ok (), h);
  os_OpenFile _ _ _ h := (Ok (), h);
  os_Chmod _ _ h := (Ok (), h);
  os_Chown _ _ _ h := (Ok (), h);
  os_Rename _ _ h := (Ok (), h);
  os_Truncate _ _ h := (Ok (), h);
  user_Lookup _ h := (Ok 0, h);
  user_LookupGroup _ h := (Ok 0, h);
  f_ReadAt _ _ _ h := (Ok ([], Some EOF), h);
  f_WriteAt _ p _ h := (Ok (len p, None), h);
  f_Close _ h := (Ok (), h)
|}.

Definition demo_world : uworld (HS := unit) (OF := unit) :=
  mkWorld () {[ 0 := mkRef None "/sub" (dirFromInfo demo_info) ]} 1.

Lemma ufs_confined_witness :
  fst (Walk (guard demo_host (insideb ["srv"])) "/srv" 0 [".."; "x"] demo_world)
    = Ok ([zeroQid; mkQid QTDIR 0 7], 1) ∧
  Walk (guard demo_host (insideb ["srv"])) "/srv" 0 [".."; "x"] demo_world
  = Walk demo_host "/srv" 0 [".."; "x"] demo_world.
Proof.
  split; [vm_compute; reflexivity|].
  apply (ufs_confined demo_host ["srv"] demo_world);
    [apply (bool_decide_unpack _); vm_compute; exact I|].
  unfold wf_world, demo_world. cbn [u_refs]. apply map_Forall_singleton.
  exists ["sub"]. split; [apply (bool_decide_unpack _); vm_compute; exact I|reflexivity].
Defined.

(** fullPath accepts exactly the canonical internal paths (a slash, then
    names that are not empty, not dots, and hold no separator) and appends
    their names to the base; anything else is an invalid path. *)
Theorem ufs_fullPath base p :
  Forall valid_elem base →
  match fullPath (render base) p with
  | Ok q => ∃ comps, Forall valid_elem comps ∧ p = render comps ∧ q = render (base ++ comps)
  | Err e => e = E9p "Invalid path" ∧ ∀ comps, Forall valid_elem comps → p ≠ render comps
  | _ => False
  end.
Proof.
  intros Hb. destruct (fullPath_spec base Hb p) as [(comps & Hc & Hp & ->)|[Hn ->]]; [|done].
  by exists comps.
Qed.

Lemma ufs_fullPath_witness :
  match fullPath "/srv" "/a/b" with
  | Ok q => ∃ comps, Forall valid_elem comps ∧ "/a/b" = render comps ∧ q = render (["srv"] ++ comps)
  | Err e => e = E9p "Invalid path" ∧ ∀ comps, Forall valid_elem comps → "/a/b" ≠ render comps
  | _ => False
  end.
Proof.
  apply (ufs_fullPath ["srv"] "/a/b"). apply (bool_decide_unpack _). vm_compute. exact I.
Defined.

(** Renaming to an absolute path always fails: WStat cleans the empty variable
    it is about to set, instead of the name it was given. *)
Lemma ufs_absolute_rename_fails {HS OF} (os : Host HS OF) base a dir w f :
  u_refs w !! a = Some f → IsAbs (Dir_Name dir) = true →
  wstat_rename os (render base) a dir w = (Err (E9p "Invalid path"), w).
Proof.
  intros Hf Ha. unfold wstat_rename. destruct (decide (Dir_Name dir ≠ "")) as [_|Hn].
  - unfold mbind, U_bind, load. rewrite Hf, Ha. reflexivity.
  - apply dec_stable in Hn. by rewrite Hn in Ha.
Qed.

End UfsPath.
