(* ===== verification/RamFS.v ===== *)
(** * RamFS: the file server of package ramfs

    The inodes ([FileEnt]) live in a store, by address; an address is never
    used again, so a node is always younger than the directory it is linked
    in.  A [FileHandle] holds the addresses of its node and of the nodes it
    was walked through.  Each method is one step on the store.  In the code
    incref, decref, link_child, unlink_child, OpenDir, Read and Write hold the
    mutex of their node while they use its fields (decref gives up the mutex
    before it goes to the children, unlink_child takes it after its test for
    a directory); Walk, Stat and WStat take no mutex at all (dirent.go, lines
    96, 243 and 250), and the methods made of several of these hold none in
    between.  So for requests that overlap on the tree the steps are an
    assumption, not what the mutexes give; the theorems on ramfs are about
    requests that do not overlap.  A reference count is a Go int, kept here as
    an unbounded integer (each reference takes memory of its own).
    [time.Now()] is a field of the state.

    ramfs/inode.go, filesys.go and dirent.go. *)
From S2P Require Import Prelude Types Path FileSys.

Module RamFS.

(** ** The state *)

Record FileEnt := mkEnt {
  nref : Z;
  children : option (gmap string Z);
  Info : Dir;
  Data : bytes
}.

Record fServer := mkServer {
  lastpath : Z;
  nodes : gmap Z FileEnt;
  next_addr : Z;
  now : Time
}.

(** The node of the root directory. *)
Definition root : Z := 0.

(** [sess] is the user's name, nil in [noHandle]. *)
Record FileHandle := mkHandle {
  h_Path : string;
  h_Mode : Z;
  h_ent : option Z;
  h_sess : option string;
  h_parents : list Z
}.

Definition noHandle : FileHandle := mkHandle "/" 0 None None [].

Definition newDir (now : Time) (path : Z) (fname uname : string) (mode : Z) : Dir :=
  let typ := if decide (0 < Z.land mode DMDIR) then Z.lor 0 QTDIR else 0 in
  mkDir 0 0 (mkQid typ 0 path) mode now now 0 fname uname "users" uname.

Definition withName (name : string) (d : Dir) : Dir :=
  mkDir (Dir_Type d) (Dir_Dev d) (Dir_Qid d) (Dir_Mode d) (Dir_AccessTime d) (Dir_ModTime d)
    (Dir_Length d) name (Dir_UID d) (Dir_GID d) (Dir_MUID d).

Definition fserver (now : Time) : fServer :=
  mkServer 1
    {[ root := mkEnt 1 (Some ∅) (newDir now 1 "/" "root" (Z.lor DMDIR 509)) [] ]}
    1 now.

(** ** The monad *)

Definition F (A : Type) : Type := fServer → result error A * fServer.

#[export] Instance F_ret : MRet F := λ A a w, (Ok a, w).
#[export] Instance F_bind : MBind F := λ A B f m w,
  match m w with
  | (Ok a, w) => f a w
  | (Err e, w) => (Err e, w)
  | (Panic y, w) => (Panic y, w)
  | (Hang y, w) => (Hang y, w)
  end.

Definition fail {A} (e : error) : F A := λ w, (Err e, w).
Definition panic {A} (why : string) : F A := λ w, (Panic why, w).
Definition lift {A} (r : result error A) : F A := λ w, (r, w).

Definition set_nodes (w : fServer) (m : gmap Z FileEnt) : fServer :=
  mkServer (lastpath w) m (next_addr w) (now w).

(** Following a pointer, and writing through it. *)
Definition load (a : Z) : F FileEnt := λ w,
  match nodes w !! a with
  | Some f => (Ok f, w)
  | None => (Panic "nil pointer dereference", w)
  end.
Definition store (a : Z) (f : FileEnt) : F unit := λ w,
  (Ok (), set_nodes w (<[a := f]> (nodes w))).
Definition deref (p : option Z) : F Z :=
  match p with
  | Some a => mret a
  | None => panic "nil pointer dereference"
  end.

Definition set_nref (f : FileEnt) (n : Z) : FileEnt := mkEnt n (children f) (Info f) (Data f).
Definition set_children (f : FileEnt) c : FileEnt := mkEnt (nref f) c (Info f) (Data f).
Definition set_Info (f : FileEnt) (d : Dir) : FileEnt := mkEnt (nref f) (children f) d (Data f).
Definition set_Data (f : FileEnt) (b : bytes) : FileEnt := mkEnt (nref f) (children f) (Info f) b.

(** [for _, c := range cs { body(c) }] *)
Fixpoint for_each (body : Z → F unit) (cs : list Z) : F unit :=
  match cs with
  | [] => mret ()
  | c :: cs => body c;; for_each body cs
  end.

(** ** inode.go *)

Definition incref (a : Z) : F string :=
  f ← load a;
  store a (set_nref f (nref f + 1));;
  mret (Dir_Name (Info f)).

Definition link_child (p : Z) (name : string) (c : Z) : F unit :=
  f ← load p;
  match children f with
  | None => fail (errorString "not a directory.")
  | Some m =>
      match m !! name with
      | Some _ => fail (errorString "duplicate file name")
      | None => store p (set_children f (Some (<[name := c]> m)))
      end
  end.

Definition unlink_child (p : Z) (name : string) : F unit :=
  f ← load p;
  match children f with
  | None => fail (errorString "not a directory.")
  | Some m =>
      match m !! name with
      | None => fail (errorString "not found")
      | Some _ => store p (set_children f (Some (delete name m)))
      end
  end.

(** ** filesys.go *)

(** [fs.next()] *)
Definition next : F Z := λ w,
  let p := u64 (lastpath w + 1) in
  (Ok p, mkServer p (nodes w) (next_addr w) (now w)).

(** A new node at [a], the next address. *)
Definition alloc (a : Z) (f : FileEnt) : F unit := λ w,
  (Ok (), mkServer (lastpath w) (<[a := f]> (nodes w)) (a + 1) (now w)).

(** [fs.Create]; the node enters the store when it is linked. *)
Definition fs_Create (parent : Z) (info : Dir) : F Z :=
  a ← (λ w, (Ok (next_addr w), w));
  link_child parent (Dir_Name info) a;;
  alloc a (mkEnt 1 (if decide (Z.land (Qid_Type (Dir_Qid info)) QTDIR ≠ 0)
                    then Some ∅ else None) info []);;
  mret a.

Definition umask : Z := 18.

Definition Attach (uname : string) : F FileHandle :=
  incref root;;
  mret (mkHandle "/" 0 (Some root) (Some uname) []).

(** ** dirent.go *)

Definition ent_IsDir (f : FileEnt) : bool :=
  bool_decide (0 < Z.land (Dir_Mode (Info f)) DMDIR).

Record dirList := mkDirList { dirs : list Dir; done : bool }.

Definition Next (d : dirList) : list Dir * dirList :=
  if done d then ([], d) else (dirs d, mkDirList (dirs d) true).

(** The order of [range] over a map is the language's choice. *)
Section Range.
Variable range : gmap string Z → list (string * Z).

(** Nodes are younger than their directory, so the number of addresses from
    [a] on bounds the depth of the recursion. *)
Fixpoint decref_rec (fuel : nat) (a : Z) : F Z :=
  match fuel with
  | O => λ w, (Hang "decref", w)
  | S fuel =>
      f ← load a;
      let n := nref f - 1 in
      store a (set_nref f n);;
      match children f with
      | Some m =>
          if decide (n = 0) then
            for_each (λ c, decref_rec fuel c;; mret ()) (snd <$> range m);;
            f ← load a;
            store a (set_children f None);;
            mret n
          else mret n
      | None => mret n
      end
  end.

Definition decref (a : Z) : F Z := λ w, decref_rec (Z.to_nat (next_addr w - a)) a w.

Fixpoint load_infos (cs : list Z) : F (list Dir) :=
  match cs with
  | [] => mret []
  | c :: cs => f ← load c; ds ← load_infos cs; mret (Info f :: ds)
  end.

Definition ent_OpenDir (ref : Z) (dotdot : Dir) : F dirList :=
  f ← load ref;
  if negb (ent_IsDir f) then fail (E9p "not a directory")
  else
    ds ← load_infos (snd <$> range (default ∅ (children f)));
    mret (mkDirList (dotdot :: ds) false).

Definition OpenDir (h : FileHandle) : F dirList :=
  ent ← deref (h_ent h);
  f ← load (default ent (last (h_parents h)));
  ent_OpenDir ent (withName ".." (Info f)).

Definition Clunk (h : FileHandle) : F unit :=
  ent ← deref (h_ent h);
  decref ent;;
  for_each (λ p, decref p;; mret ()) (reverse (h_parents h)).

(** The part of [Remove] before the deferred Clunk. *)
Definition remove_link (h : FileHandle) : F unit :=
  match last (h_parents h) with
  | None => fail (E9p "cannot remove root")
  | Some p =>
      ent ← deref (h_ent h);
      f ← load ent;
      unlink_child p (Dir_Name (Info f));;
      decref ent;;
      mret ()
  end.

Definition Remove (h : FileHandle) : F unit := λ w,
  match remove_link h w with
  | (Ok _, w) => Clunk h w
  | (Err e, w) => (Clunk h;; fail e) w
  | r => r
  end.
End Range.

(** [FileEnt.Walk] *)
Fixpoint ent_Walk (ref : Z) (names : list string) : F (list Z) :=
  match names with
  | [] => mret []
  | name :: names =>
      f ← load ref;
      match default ∅ (children f) !! name with
      | None => mret []
      | Some c => ans ← ent_Walk c names; mret (c :: ans)
      end
  end.

Fixpoint load_qids (cs : list Z) : F (list Qid) :=
  match cs with
  | [] => mret []
  | c :: cs => f ← load c; qs ← load_qids cs; mret (Dir_Qid (Info f) :: qs)
  end.

(** [FileHandle.Walk]: [chain] is rh.parents before its last element is
    taken off. *)
Definition Walk (h : FileHandle) (names : list string) : F (list Qid * FileHandle) :=
  newpath ← lift (WalkName (h_Path h) names);
  let ndel := dotdots names in
  let np := length (h_parents h) in
  if decide (np < ndel)%nat then fail (E9p "invalid path")
  else
    ref ← deref (if decide (0 < ndel)%nat then h_parents h !! (np - ndel)%nat else h_ent h);
    fwd ← ent_Walk ref (drop ndel names);
    let ans := take ndel (reverse (h_parents h)) ++ fwd in
    if decide (names ≠ [] ∧ length ans = 0%nat) then fail ErrNotfound
    else if decide (names ≠ [] ∧ length ans ≠ length names) then
      qids ← load_qids ans;
      mret (qids, noHandle)
    else
      let chain := take (np - ndel) (h_parents h) ++ [ref] ++ drop ndel ans in
      for_each (λ p, incref p;; mret ()) chain;;
      qids ← load_qids ans;
      mret (qids, mkHandle newpath 0 (last chain) (h_sess h) (removelast chain)).

Definition createImpl (h : FileHandle) (fname : string) (mode : Z) : F FileHandle :=
  path ← lift (CreateName (h_Path h) fname);
  match h_sess h with
  | None => panic "nil pointer dereference"
  | Some uname =>
      let mode := Z.lxor mode (Z.land mode umask) in
      p ← next;
      dir ← (λ w, (Ok (newDir (now w) p fname uname mode), w));
      parent ← deref (h_ent h);
      ent ← fs_Create parent dir;
      incref ent;;
      mret (mkHandle path 0 (Some ent) (h_sess h) (h_parents h ++ [parent]))
  end.

Definition Create (h : FileHandle) (name : string) (perm mode : Z) : F FileHandle :=
  h2 ← createImpl h name perm;
  mret (mkHandle (h_Path h2) mode (h_ent h2) (h_sess h2) (h_parents h2)).

Definition Stat (h : FileHandle) : F Dir :=
  ent ← deref (h_ent h); f ← load ent; mret (Info f).

(** [FileEnt.WStat] *)
Definition with_Mode (d : Dir) (m : Z) : Dir :=
  mkDir (Dir_Type d) (Dir_Dev d) (Dir_Qid d) m (Dir_AccessTime d) (Dir_ModTime d)
    (Dir_Length d) (Dir_Name d) (Dir_UID d) (Dir_GID d) (Dir_MUID d).
Definition with_UID (d : Dir) (u : string) : Dir :=
  mkDir (Dir_Type d) (Dir_Dev d) (Dir_Qid d) (Dir_Mode d) (Dir_AccessTime d) (Dir_ModTime d)
    (Dir_Length d) (Dir_Name d) u (Dir_GID d) (Dir_MUID d).
Definition with_GID (d : Dir) (g : string) : Dir :=
  mkDir (Dir_Type d) (Dir_Dev d) (Dir_Qid d) (Dir_Mode d) (Dir_AccessTime d) (Dir_ModTime d)
    (Dir_Length d) (Dir_Name d) (Dir_UID d) g (Dir_MUID d).

Definition ent_WStat (ref : Z) (dir : Dir) : F unit :=
  f ← load ref;
  let d := Info f in
  let d := if decide (Dir_Mode dir ≠ 2 ^ 32 - 1) then with_Mode d (Dir_Mode dir) else d in
  let d := if decide (Dir_UID dir ≠ "") then with_UID d (Dir_UID dir) else d in
  let d := if decide (Dir_GID dir ≠ "") then with_GID d (Dir_GID dir) else d in
  store ref (set_Info f d);;
  if decide (Dir_Name dir ≠ "") then fail (E9p "not implemented")
  else if decide (Dir_Length dir ≠ 2 ^ 64 - 1) then
    if decide (u64 (len (Data f)) < Dir_Length dir) then fail (E9p "Size larger than file")
    else store ref (set_Data (set_Info f d) (take (Z.to_nat (Dir_Length dir)) (Data f)))
  else mret ().

Definition WStat (h : FileHandle) (dir : Dir) : F unit :=
  ent ← deref (h_ent h); ent_WStat ent dir.

(** [p] is a buffer of [count] bytes; the bytes are what is copied to it. *)
Definition ent_Read (ref count offset : Z) : F (bytes * option error) :=
  f ← load ref;
  let n := len (Data f) in
  if decide (offset > n) then mret ([], Some EOF)
  else
    let m := if decide (int64 (offset + count) > n) then n - offset else count in
    if decide (offset < 0 ∨ m < 0 ∨ count < m ∨ n < offset + m)
    then panic "slice bounds out of range"
    else mret (take (Z.to_nat m) (drop (Z.to_nat offset) (Data f)), None).

Definition Read (h : FileHandle) (count offset : Z) : F (bytes * option error) :=
  ent ← deref (h_ent h); ent_Read ent count offset.

Definition with_Version (d : Dir) (v : Z) : Dir :=
  mkDir (Dir_Type d) (Dir_Dev d) (mkQid (Qid_Type (Dir_Qid d)) v (Qid_Path (Dir_Qid d)))
    (Dir_Mode d) (Dir_AccessTime d) (Dir_ModTime d)
    (Dir_Length d) (Dir_Name d) (Dir_UID d) (Dir_GID d) (Dir_MUID d).
Definition with_Length (d : Dir) (l : Z) : Dir :=
  mkDir (Dir_Type d) (Dir_Dev d) (Dir_Qid d) (Dir_Mode d) (Dir_AccessTime d) (Dir_ModTime d)
    l (Dir_Name d) (Dir_UID d) (Dir_GID d) (Dir_MUID d).

(** [copy(b[i:i+len(q)], q)] *)
Definition copy_at (b : bytes) (i : Z) (q : bytes) : bytes :=
  take (Z.to_nat i) b ++ q ++ drop (Z.to_nat i + length q) b.

Definition ent_Write (ref : Z) (p : bytes) (offset : Z) : F (Z * option error) :=
  f ← load ref;
  let n := len (Data f) in
  if decide (offset > n) then mret (0, Some (E9p "invalid address"))
  else
    let f := set_Info f (with_Version (Info f) (u32 (Qid_Version (Dir_Qid (Info f)) + 1))) in
    store ref f;;
    let m := len p in
    if decide (offset < 0 ∨ 2 ^ 63 ≤ offset + m) then panic "slice bounds out of range"
    else
      let data :=
        if decide (int64 (offset + m) > n) then
          let n := n - offset in
          (if decide (n > 0) then copy_at (Data f) offset (take (Z.to_nat n) p) else Data f)
            ++ drop (Z.to_nat n) p
        else copy_at (Data f) offset p in
      store ref (set_Data (set_Info f (with_Length (Info f) (u64 (len data)))) data);;
      mret (m, None).

Definition Write (h : FileHandle) (p : bytes) (offset : Z) : F (Z * option error) :=
  ent ← deref (h_ent h); ent_Write ent p offset.

(** ** The file system *)

Definition ent_Qid (h : FileHandle) (w : fServer) : Qid :=
  match h_ent h with
  | Some a => match nodes w !! a with Some f => Dir_Qid (Info f) | None => zeroQid end
  | None => zeroQid
  end.

(** A handle is its own file. *)
Definition Open (h : FileHandle) (mode : Z) : F (option FileHandle) := mret (Some h).
Definition IOUnit (h : FileHandle) : Z := 0.

Definition ramServer (range : gmap string Z → list (string * Z)) : FileSys := {|
  World := fServer;
  Dirent := FileHandle;
  File := FileHandle;
  Iter := dirList;
  RequireAuth _ _ := false;
  Auth_ _ _ _ w := (Ok None, w);
  Attach_ _ uname _ _ w := Attach uname w;
  is_AuthFile _ := false;
  Success _ _ := false;
  file_Read _ h count offset w := Read h count offset w;
  file_Write _ h p offset w := Write h p offset w;
  file_IOUnit h _ := IOUnit h;
  FileSys.ent_Qid := ent_Qid;
  FileSys.ent_OpenDir _ h w := OpenDir range h w;
  iter_Next _ it w := let '(ds, it) := Next it in (Ok ds, (it, w));
  FileSys.ent_Walk _ h names w :=
    (('(qids, rh) ← Walk h names; mret (qids, Some rh)) : F _) w;
  ent_Create _ h name perm mode w :=
    ((h2 ← Create h name perm mode; mret (Some h2, Some h2)) : F _) w;
  ent_Open _ h mode w := Open h mode w;
  ent_Remove _ h w := Remove range h w;
  ent_Clunk _ h w := Clunk range h w;
  ent_Stat _ h w := Stat h w;
  FileSys.ent_WStat _ h d w := WStat h d w
|}.

End RamFS.
