(* ===== verification/RamInv.v ===== *)
(** * RamInv: the reference counts of ramfs

    The counts of ramfs/inode.go are right: the count of a node is the number
    of links to it from the directories that are alive plus the number of
    references held from outside (the root's own, and those of handles).
    [Inv w R] says so for the references [R]; each routine of ramfs is
    proved to keep it, with the references it takes over and gives away. *)
From S2P Require Import Prelude Types Path FileSys RamFS.

Module RamInv.
Import RamFS.

Create HintDb ramfs.

(** ** Counting *)

Definition δ (a b : Z) : Z := if decide (a = b) then 1 else 0.

Fixpoint occ (a : Z) (l : list Z) : Z :=
  match l with
  | [] => 0
  | x :: l => δ x a + occ a l
  end.

(** The links out of a node count while the node is alive. *)
Definition outs (f : FileEnt) : list Z :=
  if decide (0 < nref f) then snd <$> map_to_list (default ∅ (children f)) else [].

Definition links (h : gmap Z FileEnt) (a : Z) : Z :=
  map_fold (λ _ f n, occ a (outs f) + n) 0 h.

Lemma δ_range a b : 0 ≤ δ a b ≤ 1.
Proof. unfold δ. case_decide; lia. Qed.
Lemma δ_refl a : δ a a = 1.
Proof. unfold δ. by rewrite decide_True. Qed.
Lemma δ_ne a b : a ≠ b → δ a b = 0.
Proof. intros. unfold δ. by rewrite decide_False. Qed.

Lemma occ_nonneg a l : 0 ≤ occ a l.
Proof. induction l as [|x l IH]; simpl; [lia|]. pose proof (δ_range x a). lia. Qed.
Lemma occ_app a l1 l2 : occ a (l1 ++ l2) = occ a l1 + occ a l2.
Proof. induction l1 as [|x l IH]; simpl; lia. Qed.

#[export] Instance occ_proper a : Proper ((≡ₚ) ==> eq) (occ a).
Proof. intros l1 l2 H. induction H; simpl; lia. Qed.

Lemma occ_pos a l : 0 < occ a l ↔ a ∈ l.
Proof.
  induction l as [|x l IH]; simpl; [split; [lia|by intros ?%not_elem_of_nil]|].
  rewrite elem_of_cons, <-IH. pose proof (occ_nonneg a l).
  unfold δ. case_decide; subst; naive_solver lia.
Qed.

Lemma links_insert_new h b f a :
  h !! b = None → links (<[b := f]> h) a = occ a (outs f) + links h a.
Proof. intros Hb. unfold links. rewrite map_fold_insert_L; [done|lia|done]. Qed.

Lemma links_insert h b f f' a :
  h !! b = Some f → links (<[b := f']> h) a = links h a - occ a (outs f) + occ a (outs f').
Proof.
  intros Hb. rewrite <-(insert_delete_id h b f Hb) at 2.
  rewrite <-insert_delete_eq, !links_insert_new by apply lookup_delete_eq. lia.
Qed.

Lemma links_nonneg h a : 0 ≤ links h a.
Proof.
  unfold links. apply (map_fold_weak_ind (λ n _, 0 ≤ n)); [lia|].
  intros b f m n _ ?. pose proof (occ_nonneg a (outs f)). lia.
Qed.

Lemma links_inv h a :
  0 < links h a → ∃ b f, h !! b = Some f ∧ a ∈ outs f.
Proof.
  induction h as [|b f h Hb _ IH] using map_first_key_ind.
  { unfold links. rewrite map_fold_empty. lia. }
  rewrite links_insert_new by done. intros H.
  destruct (decide (0 < occ a (outs f))) as [Ho|Ho].
  - exists b, f. rewrite lookup_insert_eq. by apply occ_pos in Ho.
  - destruct IH as (b' & f' & ? & ?); [lia|]. exists b', f'.
    rewrite lookup_insert_ne; [done|]. intros ->. congruence.
Qed.

Lemma links_le h b f a : h !! b = Some f → occ a (outs f) ≤ links h a.
Proof.
  intros Hb. rewrite <-(insert_delete_id h b f Hb), links_insert_new by apply lookup_delete_eq.
  pose proof (links_nonneg (delete b h) a). lia.
Qed.

Lemma elem_of_outs f c :
  c ∈ outs f ↔ 0 < nref f ∧ ∃ m name, children f = Some m ∧ m !! name = Some c.
Proof.
  unfold outs. case_decide as Hn; [|rewrite elem_of_nil; naive_solver].
  rewrite list_elem_of_fmap. split.
  - intros ([name c'] & -> & H%elem_of_map_to_list). split; [done|].
    destruct (children f) as [m|]; simpl in H; [|by rewrite lookup_empty in H]. eauto.
  - intros (_ & m & name & -> & H). exists (name, c). split; [done|].
    by apply elem_of_map_to_list.
Qed.

(** ** The invariant *)

Record Inv (w : fServer) (R : list Z) : Prop := mkInv {
  inv_count a f : nodes w !! a = Some f → nref f = links (nodes w) a + occ a R;
  inv_refs a : 0 < links (nodes w) a + occ a R → is_Some (nodes w !! a);
  inv_down a f m name c :
    nodes w !! a = Some f → children f = Some m → m !! name = Some c → a < c;
  inv_addr a : is_Some (nodes w !! a) → 0 ≤ a < next_addr w
}.

#[export] Instance Inv_proper w : Proper ((≡ₚ) ==> iff) (Inv w).
Proof.
  assert (∀ R1 R2, R1 ≡ₚ R2 → Inv w R1 → Inv w R2) as H.
  { intros R1 R2 E [H1 H2 H3 H4]. split; [| |done|done].
    - intros a f. rewrite <-E. apply H1.
    - intros a. rewrite <-E. apply H2. }
  intros R1 R2 E. split; apply H; done.
Qed.

Lemma Inv_held w R a : Inv w R → a ∈ R → ∃ f, nodes w !! a = Some f ∧ 0 < nref f.
Proof.
  intros H Ha%occ_pos. pose proof (links_nonneg (nodes w) a).
  destruct (inv_refs _ _ H a) as [f Hf]; [lia|]. exists f.
  rewrite (inv_count _ _ H a f Hf). split; [done|lia].
Qed.

Lemma Inv_child w R a f m name c :
  Inv w R → nodes w !! a = Some f → 0 < nref f → children f = Some m → m !! name = Some c →
  ∃ g, nodes w !! c = Some g ∧ 0 < nref g.
Proof.
  intros H Hf Hn Hm Hc. pose proof (links_le _ _ _ c Hf) as Hl.
  assert (0 < occ c (outs f)) as Ho by (apply occ_pos, elem_of_outs; eauto).
  pose proof (occ_nonneg c R). destruct (inv_refs _ _ H c) as [g Hg]; [lia|]. exists g.
  rewrite (inv_count _ _ H c g Hg). split; [done|lia].
Qed.

(** One node changes: its count and its links change as much as the
    references do. *)
Lemma Inv_update w R R' a f f' :
  Inv w R → nodes w !! a = Some f →
  (∀ b, occ b (outs f') + occ b R'
        = occ b (outs f) + occ b R + (nref f' - nref f) * δ a b) →
  (∀ m name c, children f' = Some m → m !! name = Some c → a < c) →
  Inv (set_nodes w (<[a := f']> (nodes w))) R'.
Proof.
  intros [H1 H2 H3 H4] Hf He Hd. split; cbn [nodes next_addr set_nodes].
  - intros b g. rewrite (links_insert _ _ _ _ _ Hf). specialize (He b).
    destruct (decide (a = b)) as [<-|Hb].
    + rewrite lookup_insert_eq. intros [= <-]. rewrite δ_refl in He.
      rewrite (H1 a f Hf) in He. lia.
    + rewrite lookup_insert_ne by done. intros Hg. rewrite δ_ne in He by done.
      rewrite (H1 b g Hg). lia.
  - intros b. rewrite (links_insert _ _ _ _ _ Hf). specialize (He b).
    destruct (decide (a = b)) as [<-|Hb]; [by rewrite lookup_insert_eq|].
    rewrite lookup_insert_ne by done. rewrite δ_ne in He by done. intros ?. apply H2. lia.
  - intros b g m name c. destruct (decide (a = b)) as [<-|Hb].
    + rewrite lookup_insert_eq. intros [= <-]. apply Hd.
    + rewrite lookup_insert_ne by done. apply H3.
  - intros b. destruct (decide (a = b)) as [<-|Hb]; [intros _; apply H4; eauto|].
    rewrite lookup_insert_ne by done. apply H4.
Qed.

(** ** What a node holds *)

Definition content (f : FileEnt) : Dir * bytes := (Info f, Data f).

(** The same nodes with the same contents. *)
Definition same (w w' : fServer) : Prop :=
  next_addr w' = next_addr w ∧ lastpath w' = lastpath w ∧ now w' = now w ∧
  ∀ a, content <$> nodes w' !! a = content <$> nodes w !! a.

#[export] Instance same_preorder : PreOrder same.
Proof.
  split; [by repeat split|]. intros w1 w2 w3 (?&?&?&Ha) (?&?&?&Hb). unfold same.
  split_and!; [congruence..|]. intros a. by rewrite Hb, Ha.
Qed.

Lemma same_store w a f f' :
  nodes w !! a = Some f → content f' = content f →
  same w (set_nodes w (<[a := f']> (nodes w))).
Proof.
  intros Hf Hc. split_and!; try done. intros b. cbn [nodes set_nodes].
  destruct (decide (a = b)) as [<-|Hb].
  - rewrite lookup_insert_eq, Hf. simpl. by rewrite Hc.
  - by rewrite lookup_insert_ne.
Qed.

Lemma same_lookup w w' a f :
  same w w' → nodes w !! a = Some f → ∃ f', nodes w' !! a = Some f' ∧ content f' = content f.
Proof.
  intros (_ & _ & _ & H) Hf. specialize (H a). rewrite Hf in H. simpl in H.
  destruct (nodes w' !! a) as [f'|]; [|done]. exists f'. split; [done|]. simpl in H. congruence.
Qed.

(** Nodes stay in the store: an open file keeps the one it reads. *)
Definition grows (w w' : fServer) : Prop :=
  ∀ a, is_Some (nodes w !! a) → is_Some (nodes w' !! a).

#[export] Instance grows_preorder : PreOrder grows.
Proof. split; [by intros w a|]. intros w1 w2 w3 H1 H2 a ?. by apply H2, H1. Qed.

Lemma same_grows w w' : same w w' → grows w w'.
Proof. intros H a [f Hf]. destruct (same_lookup w w' a f H Hf) as (f' & -> & _). eauto. Qed.
#[export] Hint Resolve same_grows : ramfs.

Lemma grows_store w a f : grows w (set_nodes w (<[a := f]> (nodes w))).
Proof.
  intros b. cbn [nodes set_nodes]. destruct (decide (a = b)) as [<-|Hb];
    [by rewrite lookup_insert_eq|by rewrite lookup_insert_ne].
Qed.
#[export] Hint Resolve grows_store : ramfs.

(** ** Running the monad *)

Lemma F_bind_run {A B} (m : F A) (f : A → F B) w :
  (m ≫= f) w
  = match m w with
    | (Ok a, w) => f a w
    | (Err e, w) => (Err e, w)
    | (Panic y, w) => (Panic y, w)
    | (Hang y, w) => (Hang y, w)
    end.
Proof. reflexivity. Qed.
Lemma F_ret_run {A} (a : A) (w : fServer) : (mret a : F A) w = (Ok a, w).
Proof. reflexivity. Qed.
Lemma load_run a f w : nodes w !! a = Some f → load a w = (Ok f, w).
Proof. unfold load. by intros ->. Qed.

Lemma F_bind_inv {A B} (m : F A) (f : A → F B) w b w' :
  (m ≫= f) w = (Ok b, w') → ∃ a w1, m w = (Ok a, w1) ∧ f a w1 = (Ok b, w').
Proof. rewrite F_bind_run. destruct (m w) as [[a| | |] w1]; [|done..]. eauto. Qed.

Ltac frun :=
  repeat first
    [ rewrite F_bind_run
    | rewrite F_ret_run
    | erewrite load_run by eassumption
    | progress unfold store, fail, panic, lift
    | progress cbn [fst snd deref] ].

(** ** incref and decref *)

Definition live (w : fServer) (a : Z) : Prop := ∃ f, nodes w !! a = Some f ∧ 0 < nref f.

Lemma incref_spec w R a :
  Inv w R → live w a →
  ∃ name w', incref a w = (Ok name, w') ∧ Inv w' (a :: R) ∧ same w w' ∧
    ∀ b, live w b → live w' b.
Proof.
  intros H (f & Hf & Hp). unfold incref. frun. eexists _, _. split; [done|].
  split_and!; [|by eapply same_store|].
  - eapply (Inv_update w R _ a f); [done|done| |exact (λ m name c, inv_down _ _ H a f m name c Hf)].
    intros b. simpl. unfold outs. cbn [nref children set_nref]. rewrite !decide_True by lia. lia.
  - intros b (g & Hg & Hn). unfold live. cbn [nodes set_nodes].
    destruct (decide (a = b)) as [<-|Hb].
    + rewrite lookup_insert_eq. eexists. split; [done|]. cbn [nref set_nref]. lia.
    + rewrite lookup_insert_ne by done. eauto.
Qed.

Section Range.
Context (range : gmap string Z → list (string * Z)).
Context (range_perm : ∀ m, range m ≡ₚ map_to_list m).

(** Giving up the references [cs], when giving up one is right. *)
Lemma for_each_decref (dec : Z → F Z) cs : ∀ w R lo,
  (∀ c v R, c ∈ cs → next_addr v = next_addr w → Inv v (c :: R) →
     ∃ n w', dec c v = (Ok n, w') ∧ Inv w' R ∧ same v w' ∧
       ∀ b, b < c → nodes w' !! b = nodes v !! b) →
  Inv w (cs ++ R) → Forall (λ c, lo < c) cs →
  ∃ w', for_each (λ c, dec c;; mret ()) cs w = (Ok (), w') ∧ Inv w' R ∧ same w w' ∧
    ∀ b, b ≤ lo → nodes w' !! b = nodes w !! b.
Proof.
  induction cs as [|c cs IH]; intros w R lo Hdec HI Hlo.
  - exists w. by split_and!.
  - apply Forall_cons in Hlo as [Hc Hlo]. cbn [for_each]. frun.
    destruct (Hdec c w (cs ++ R)) as (n & w1 & -> & HI1 & Hs1 & Hb1); [left|done|done|].
    destruct (IH w1 R lo) as (w2 & E & HI2 & Hs2 & Hb2); [|done|done|].
    { intros c' v R' Hc' Hv. apply Hdec; [by right|]. rewrite Hv. apply Hs1. }
    exists w2. split; [exact E|]. split_and!; [done|by etrans|].
    intros b Hb. rewrite Hb2, Hb1; [done|lia|done].
Qed.

Lemma decref_rec_spec fuel : ∀ a w R,
  Inv w (a :: R) → next_addr w - a ≤ Z.of_nat fuel →
  ∃ n w', decref_rec range fuel a w = (Ok n, w') ∧ Inv w' R ∧ same w w' ∧
    ∀ b, b < a → nodes w' !! b = nodes w !! b.
Proof.
  induction fuel as [|fuel IH]; intros a w R HI Hf.
  all: destruct (Inv_held w _ a HI) as (f & Ha & Hn); [left|].
  all: destruct (inv_addr _ _ HI a) as [_ Hlt]; [by eauto|].
  { lia. }
  cbn [decref_rec]. frun. set (n := nref f - 1).
  assert (Inv (set_nodes w (<[a := set_nref f n]> (nodes w)))
            ((if decide (n = 0) then snd <$> range (default ∅ (children f)) else []) ++ R)) as HI1.
  { eapply (Inv_update w (a :: R) _ a f); [done|done| |exact (λ m name c, inv_down _ _ HI a f m name c Ha)].
    intros b. rewrite occ_app. unfold outs. cbn [nref children set_nref occ].
    rewrite (decide_True _ _ Hn). destruct (decide (n = 0)) as [Hz|Hz].
    - rewrite decide_False by lia. rewrite range_perm. cbn [occ]. lia.
    - rewrite decide_True by lia. cbn [occ]. lia. }
  assert (same w (set_nodes w (<[a := set_nref f n]> (nodes w)))) as Hs1 by by eapply same_store.
  set (w1 := set_nodes w _) in *.
  assert (∀ b, b < a → nodes w1 !! b = nodes w !! b) as Hb1.
  { intros b Hb. subst w1. cbn [nodes set_nodes]. rewrite lookup_insert_ne; [done|lia]. }
  destruct (children f) as [m|] eqn:Hm; cbn [default id] in HI1.
  2:{ exists n, w1. split; [done|]. split_and!; [|done|done].
      revert HI1. case_decide; [|done]. by rewrite (range_perm ∅), map_to_list_empty. }
  destruct (decide (n = 0)) as [Hz|Hz]; [|by exists n, w1].
  frun.
  assert (Forall (λ c, a < c) (snd <$> range m)) as Hdown.
  { rewrite range_perm. apply Forall_fmap, Forall_forall. intros [name c] Hc%elem_of_map_to_list.
    exact (inv_down _ _ HI a f m name c Ha Hm Hc). }
  destruct (for_each_decref (decref_rec range fuel) (snd <$> range m) w1 R a)
    as (w2 & -> & HI2 & Hs2 & Hb2); [|done|done|].
  { intros c v R' Hc Hv HI'. apply IH; [done|]. rewrite Hv.
    change (next_addr w1) with (next_addr w).
    assert (a < c) by exact (proj1 (Forall_forall _ _) Hdown c Hc). lia. }
  assert (nodes w2 !! a = Some (set_nref f n)) as Ha2.
  { rewrite Hb2 by lia. apply lookup_insert_eq. }
  frun. eexists _, _. split; [done|]. split_and!.
  - eapply (Inv_update w2 R R a); [done|done| |done].
    intros b. unfold outs. cbn [nref children set_nref set_children].
    rewrite !decide_False by lia. lia.
  - etrans; [exact Hs1|]. etrans; [exact Hs2|]. by eapply same_store.
  - intros b Hb. cbn [nodes set_nodes]. rewrite lookup_insert_ne by lia.
    rewrite Hb2 by lia. by apply Hb1.
Qed.

Lemma decref_spec a w R :
  Inv w (a :: R) → ∃ n w', decref range a w = (Ok n, w') ∧ Inv w' R ∧ same w w'.
Proof.
  intros HI. destruct (decref_rec_spec (Z.to_nat (next_addr w - a)) a w R HI)
    as (n & w' & E & H & Hs & _); [lia|]. by exists n, w'.
Qed.

Lemma decrefs_spec cs : ∀ w R,
  Inv w (cs ++ R) →
  ∃ w', for_each (λ c, decref range c;; mret ()) cs w = (Ok (), w') ∧ Inv w' R ∧ same w w'.
Proof.
  induction cs as [|c cs IH]; intros w R HI; [by exists w|].
  cbn [for_each]. frun. destruct (decref_spec c w (cs ++ R) HI) as (n & w1 & -> & HI1 & Hs1).
  destruct (IH w1 R HI1) as (w2 & E & HI2 & Hs2).
  exists w2. split; [exact E|]. split; [done|by etrans].
Qed.

(** ** Handles *)

(** The references a handle holds. *)
Definition handle_refs (h : FileHandle) : list Z := option_list (h_ent h) ++ h_parents h.

(** The handles the server gives out. *)
Definition wf_handle (h : FileHandle) : Prop :=
  is_Some (h_ent h) ∧ is_Some (h_sess h) ∧
  ∃ comps, h_Path h = render comps ∧ Forall valid_elem comps ∧
    length comps = length (h_parents h).

Lemma Clunk_spec h w R :
  wf_handle h → Inv w (handle_refs h ++ R) →
  ∃ w', Clunk range h w = (Ok (), w') ∧ Inv w' R ∧ same w w'.
Proof.
  intros ([a Ha] & _) HI. unfold handle_refs in HI. rewrite Ha in HI. cbn [option_list app] in HI.
  unfold Clunk. rewrite Ha. frun.
  destruct (decref_spec a w _ HI) as (n & w1 & -> & HI1 & Hs1).
  rewrite <-(reverse_Permutation (h_parents h)) in HI1.
  destruct (decrefs_spec _ _ _ HI1) as (w2 & E & HI2 & Hs2).
  exists w2. split; [exact E|]. split; [done|by etrans].
Qed.

(** The link that [Remove] takes away, if there is one, is the one to the
    handle's own node. *)
Definition own_link (h : FileHandle) (w : fServer) : Prop :=
  match last (h_parents h), h_ent h with
  | Some p, Some a =>
      match nodes w !! p, nodes w !! a with
      | Some d, Some f =>
          default a (default ∅ (children d) !! Dir_Name (Info f)) = a
      | _, _ => True
      end
  | _, _ => True
  end.
#[export] Instance own_link_dec h w : Decision (own_link h w).
Proof. unfold own_link. repeat case_match; apply _. Defined.

Lemma elem_of_handle_refs h a : h_ent h = Some a → a ∈ handle_refs h.
Proof. unfold handle_refs. intros ->. left. Qed.
Lemma elem_of_handle_parents h p : p ∈ h_parents h → p ∈ handle_refs h.
Proof. unfold handle_refs. intros ?. apply elem_of_app. by right. Qed.

Lemma unlink_spec p d m name a w R :
  Inv w R → nodes w !! p = Some d → 0 < nref d → children d = Some m → m !! name = Some a →
  Inv (set_nodes w (<[p := set_children d (Some (delete name m))]> (nodes w))) (a :: R).
Proof.
  intros HI Hp Hd Hm Ha. eapply (Inv_update w R _ p d); [done|done| |].
  - intros b. unfold outs. cbn [nref children set_children occ]. rewrite Hm.
    rewrite !decide_True by lia. cbn [default id].
    rewrite <-(map_to_list_delete m name a Ha). cbn [fmap list_fmap snd occ]. lia.
  - intros m' name' c [= <-] Hc. apply lookup_delete_Some in Hc as [_ Hc].
    exact (inv_down _ _ HI p d m name' c Hp Hm Hc).
Qed.

(** A path that returns an error and changes nothing. *)
Ltac unchanged := eexists _, _; split; [reflexivity|]; split_and!; [by eauto|done|reflexivity].

Lemma remove_link_spec h w R :
  wf_handle h → own_link h w → Inv w (handle_refs h ++ R) →
  ∃ r w', remove_link range h w = (r, w') ∧ (r = Ok () ∨ ∃ e, r = Err e) ∧
    Inv w' (handle_refs h ++ R) ∧ same w w'.
Proof.
  intros ([a Ha] & _) Ho HI. unfold remove_link. unfold own_link in Ho. rewrite Ha in Ho |- *.
  destruct (last (h_parents h)) as [p|] eqn:Hp; [|unchanged].
  destruct (Inv_held w _ a HI) as (f & Hf & Hnf).
  { apply elem_of_app. left. by apply elem_of_handle_refs. }
  destruct (Inv_held w _ p HI) as (d & Hd & Hnd).
  { apply elem_of_app. left. apply elem_of_handle_parents. by apply last_Some_elem_of. }
  rewrite Hf, Hd in Ho. frun. unfold unlink_child. frun.
  destruct (children d) as [m|] eqn:Hm; cbn [default id] in Ho; [|unchanged].
  destruct (m !! Dir_Name (Info f)) as [a'|] eqn:Hl; [|unchanged].
  cbn [default id] in Ho. subst a'. frun.
  pose proof (unlink_spec _ _ _ _ _ _ _ HI Hd Hnd Hm Hl) as HI1.
  destruct (decref_spec _ _ _ HI1) as (n & w2 & -> & HI2 & Hs2).
  eexists _, _. split; [done|]. split_and!; [by left|done|].
  etrans; [|exact Hs2]. by eapply same_store.
Qed.

Lemma Remove_spec h w R :
  wf_handle h → own_link h w → Inv w (handle_refs h ++ R) →
  ∃ r w', Remove range h w = (r, w') ∧ returns r ∧ Inv w' R ∧ same w w'.
Proof.
  intros Hh Ho HI. unfold Remove.
  destruct (remove_link_spec h w R Hh Ho HI) as (r & w1 & -> & Hr & HI1 & Hs1).
  destruct (Clunk_spec h w1 R Hh HI1) as (w2 & E & HI2 & Hs2).
  destruct Hr as [->|[e ->]]; cbv beta iota; [|frun]; rewrite E;
    (eexists _, _; split; [done|]; split_and!; [done|done|by etrans]).
Qed.
End Range.

(** ** Walk *)

Lemma live_child w R a f name c :
  Inv w R → nodes w !! a = Some f → 0 < nref f → default ∅ (children f) !! name = Some c →
  live w c.
Proof.
  intros HI Hf Hn Hc. destruct (children f) as [m|] eqn:Hm; [|by simpl in Hc; rewrite lookup_empty in Hc].
  by eapply Inv_child.
Qed.

Lemma ent_Walk_spec w R names : ∀ ref,
  Inv w R → live w ref → ∃ ans, ent_Walk ref names w = (Ok ans, w) ∧ Forall (live w) ans ∧
    (length ans ≤ length names)%nat.
Proof.
  induction names as [|name names IH]; intros ref HI (f & Hf & Hn); [by exists []|].
  cbn [ent_Walk]. frun. destruct (default ∅ (children f) !! name) as [c|] eqn:Hc.
  2:{ exists []. split_and!; [done|done|simpl; lia]. }
  assert (live w c) as Hl by by eapply live_child.
  frun. destruct (IH c HI Hl) as (ans & -> & Hans & Hlen). exists (c :: ans).
  split_and!; [done|by constructor|simpl; lia].
Qed.

Lemma load_qids_spec w cs :
  Forall (live w) cs → ∃ qs, load_qids cs w = (Ok qs, w) ∧ length qs = length cs.
Proof.
  induction 1 as [|c cs (f & Hf & _) _ (qs & E & Hl)]; [by exists []|].
  cbn [load_qids]. frun. rewrite E. frun. eexists. split; [done|]. simpl. by rewrite Hl.
Qed.

Lemma increfs_spec chain : ∀ w R,
  Inv w R → Forall (live w) chain →
  ∃ w', for_each (λ p, incref p;; mret ()) chain w = (Ok (), w') ∧ Inv w' (chain ++ R) ∧
    same w w' ∧ ∀ b, live w b → live w' b.
Proof.
  induction chain as [|p chain IH]; intros w R HI Hl; [by exists w|].
  apply Forall_cons in Hl as [Hp Hl]. cbn [for_each]. frun.
  destruct (incref_spec w R p HI Hp) as (name & w1 & -> & HI1 & Hs1 & Hl1). frun.
  destruct (IH w1 (p :: R) HI1) as (w2 & E & HI2 & Hs2 & Hl2); [by eapply Forall_impl|].
  exists w2. split; [exact E|]. split_and!; [|by etrans|by eauto].
  cbn [app]. by rewrite <-Permutation_middle in HI2.
Qed.

Lemma handle_of_chain path md sess chain :
  chain ≠ [] →
  ∃ a, last chain = Some a ∧
    handle_refs (mkHandle path md (last chain) sess (removelast chain)) ≡ₚ chain.
Proof.
  destruct chain as [|a chain _] using rev_ind; [done|]. intros _. exists a.
  unfold handle_refs. cbn [h_ent h_parents]. rewrite last_snoc, removelast_last.
  split; [done|]. cbn [option_list app]. by rewrite Permutation_app_comm.
Qed.

(** What a walk gives: a new handle if it is complete, else nothing. *)
Definition walk_post (names : list string) (w : fServer) (R : list Z)
    (r : result error (list Qid * FileHandle)) (w' : fServer) : Prop :=
  match r with
  | Ok (qids, rh) =>
      if decide (length qids = length names)
      then wf_handle rh ∧ Inv w' (handle_refs rh ++ R) ∧ same w w'
      else names ≠ [] ∧ w' = w
  | Err _ => w' = w
  | _ => False
  end.

Lemma Walk_spec h names w R :
  wf_handle h → Inv w R → Forall (live w) (handle_refs h) →
  ∃ r w', Walk h names w = (r, w') ∧ walk_post names w R r w'.
Proof.
  intros ([a Ha] & Hs & comps & Hpath & Hcomps & Hnp) HI Hl.
  unfold handle_refs in Hl. rewrite Ha in Hl.
  apply Forall_app in Hl as [Hla Hlp]. apply Forall_cons in Hla as [Hla _].
  unfold Walk. frun. rewrite Hpath, WalkName_render by done.
  case_decide as Hv; [|by eexists _, _]. destruct Hv as [Hv Hd]. cbv beta iota zeta.
  pose proof (walk_comps_valid comps names Hcomps Hv) as Hwc. rewrite Hnp in Hd.
  set (ndel := dotdots names) in *. set (np := length (h_parents h)) in *.
  rewrite decide_False by lia.
  assert (∃ ref, (if decide (0 < ndel)%nat then h_parents h !! (np - ndel)%nat else h_ent h)
                 = Some ref ∧ live w ref) as (ref & -> & Href).
  { case_decide; [|by exists a].
    destruct (lookup_lt_is_Some_2 (h_parents h) (np - ndel)) as [ref Hr]; [lia|].
    exists ref. split; [done|]. by eapply Forall_lookup_1. }
  frun. destruct (ent_Walk_spec w R (drop ndel names) ref HI Href) as (fwd & -> & Hfwd & Hlf).
  set (ans := take ndel (reverse (h_parents h)) ++ fwd).
  assert (Forall (live w) ans) as Hans.
  { apply Forall_app. split; [|done]. apply Forall_take. by apply Forall_reverse. }
  case_decide; [by eexists _, _|]. case_decide as Hpart.
  { frun. destruct (load_qids_spec w ans Hans) as (qs & -> & Hqs). frun. eexists _, _.
    split; [done|]. unfold walk_post. rewrite decide_False; [by split; [apply Hpart|]|].
    rewrite Hqs. apply Hpart. }
  set (chain := take (np - ndel) (h_parents h) ++ [ref] ++ drop ndel ans).
  frun. destruct (increfs_spec chain w R HI) as (w1 & -> & HI1 & Hs1 & Hl1).
  { apply Forall_app. split; [by apply Forall_take|]. constructor; [done|by apply Forall_drop]. }
  frun. destruct (load_qids_spec w1 ans) as (qs & -> & Hqs); [by eapply Forall_impl|].
  frun. eexists _, _. split; [done|]. unfold walk_post.
  assert (length ans = length names) as Hlen.
  { destruct (decide (names = [])) as [->|]; [|apply dec_stable; naive_solver].
    subst ans ndel. simpl in Hlf |- *. destruct fwd; [done|simpl in Hlf; lia]. }
  rewrite decide_True by (by rewrite Hqs).
  destruct (handle_of_chain (render (walk_comps comps names)) 0 (h_sess h) chain)
    as (c & Hc & Hperm); [subst chain; by destruct (take (np - ndel) _)|].
  split_and!; [|by rewrite Hperm|done].
  split_and!; [by rewrite Hc; eauto|done|].
  exists (walk_comps comps names). split_and!; [done|done|].
  apply Permutation_length in Hperm. revert Hperm. unfold handle_refs, walk_comps. fold ndel.
  rewrite Hc. subst chain. cbn [h_ent h_parents option_list app length].
  rewrite !length_app, !length_take, !length_drop. cbn [length].
  rewrite length_drop, Hlen. change (length (option_list (Some c))) with 1%nat.
  set (k := length (removelast _)). unfold np in *. lia.
Qed.

(** ** Create *)

Lemma Inv_nodes w w' R :
  Inv w R → nodes w' = nodes w → next_addr w' = next_addr w → Inv w' R.
Proof. intros [H1 H2 H3 H4] E1 E2. by split; rewrite ?E1, ?E2. Qed.

Lemma Inv_fresh w R : Inv w R → nodes w !! next_addr w = None.
Proof.
  intros H. apply eq_None_not_Some. intros Hs. pose proof (inv_addr _ _ H _ Hs). lia.
Qed.

(** A new node, with no links of its own and one reference to it. *)
Lemma Inv_alloc w R g a :
  Inv w R → a = next_addr w → nref g = 1 → default ∅ (children g) = ∅ → 0 ≤ a →
  Inv (mkServer (lastpath w) (<[a := g]> (nodes w)) (a + 1) (now w)) (a :: R).
Proof.
  intros HI -> Hn Hc Hpos. pose proof (Inv_fresh w R HI) as Hf.
  assert (outs g = []) as Ho.
  { unfold outs. rewrite Hc, map_to_list_empty. by case_decide. }
  assert (links (nodes w) (next_addr w) + occ (next_addr w) R = 0) as Hz.
  { pose proof (links_nonneg (nodes w) (next_addr w)). pose proof (occ_nonneg (next_addr w) R).
    destruct (decide (0 < links (nodes w) (next_addr w) + occ (next_addr w) R)) as [Hl|]; [|lia].
    apply (inv_refs _ _ HI) in Hl as [? ?]. congruence. }
  destruct HI as [H1 H2 H3 H4]. split; cbn [nodes next_addr].
  - intros b f. rewrite links_insert_new, Ho by done. cbn [occ].
    destruct (decide (next_addr w = b)) as [<-|Hb].
    + rewrite lookup_insert_eq, δ_refl. intros [= <-]. lia.
    + rewrite lookup_insert_ne, δ_ne by done. intros Hb'. rewrite (H1 b f Hb'). lia.
  - intros b. rewrite links_insert_new, Ho by done. cbn [occ].
    destruct (decide (next_addr w = b)) as [<-|Hb]; [by rewrite lookup_insert_eq|].
    rewrite lookup_insert_ne, δ_ne by done. intros ?. apply H2. lia.
  - intros b f m name c. destruct (decide (next_addr w = b)) as [<-|Hb].
    + rewrite lookup_insert_eq. intros [= <-] Hm. rewrite Hm in Hc. simpl in Hc. subst m.
      by rewrite lookup_empty.
    + rewrite lookup_insert_ne by done. apply H3.
  - intros b. destruct (decide (next_addr w = b)) as [<-|Hb]; [lia|].
    rewrite lookup_insert_ne by done. intros ?%H4. lia.
Qed.

Lemma link_spec p d m name a w R :
  Inv w (a :: R) → nodes w !! p = Some d → 0 < nref d → children d = Some m →
  m !! name = None → p < a →
  Inv (set_nodes w (<[p := set_children d (Some (<[name := a]> m))]> (nodes w))) R.
Proof.
  intros HI Hp Hd Hm Hn Hpa. eapply (Inv_update w (a :: R) _ p d); [done|done| |].
  - intros b. unfold outs. cbn [nref children set_children occ]. rewrite Hm.
    rewrite !decide_True by lia. cbn [default id].
    rewrite (map_to_list_insert m name a Hn). cbn [fmap list_fmap snd occ]. lia.
  - intros m' name' c [= <-]. destruct (decide (name = name')) as [<-|Hne].
    + rewrite lookup_insert_eq. by intros [= <-].
    + rewrite lookup_insert_ne by done. intros Hc.
      exact (inv_down _ _ HI p d m name' c Hp Hm Hc).
Qed.

Lemma fs_Create_spec p info w R :
  Inv w R → live w p →
  ∃ r w', fs_Create p info w = (r, w') ∧
    match r with
    | Ok a => Inv w' R ∧ live w' a ∧ grows w w'
    | Err _ => w' = w
    | _ => False
    end.
Proof.
  intros HI (d & Hd & Hn). unfold fs_Create. frun. unfold link_child. frun.
  destruct (children d) as [m|] eqn:Hm; [|by eexists _, _].
  destruct (m !! Dir_Name info) as [c|] eqn:Hc; [by eexists _, _|].
  frun. unfold alloc. set (a := next_addr w). set (g := mkEnt 1 _ info []).
  destruct (inv_addr _ _ HI p) as [Hp0 Hpa]; [by eauto|].
  eexists _, _. split; [done|].
  assert (Inv (mkServer (lastpath w) (<[a := g]> (nodes w)) (a + 1) (now w)) (a :: R)) as HI1.
  { apply Inv_alloc; [done|done|done| |lia]. subst g. simpl. by case_decide. }
  split_and!; [|exists g; cbn; by rewrite lookup_insert_eq|].
  2:{ etrans; [apply (grows_store w p)|]. apply (grows_store (set_nodes w _) a). }
  apply (link_spec p d m (Dir_Name info) a) in HI1; [|by cbn; rewrite lookup_insert_ne by lia|done..].
  revert HI1. unfold set_nodes. cbn [nodes lastpath next_addr now].
  by rewrite insert_insert_ne by lia.
Qed.

(** What a create gives: the new handle in place of the old one. *)
Definition create_post (h : FileHandle) (R : list Z) (w : fServer) (r : result error FileHandle)
    (w' : fServer) : Prop :=
  grows w w' ∧
  match r with
  | Ok h2 => wf_handle h2 ∧ Inv w' (handle_refs h2 ++ R)
  | Err _ => Inv w' (handle_refs h ++ R)
  | _ => False
  end.

Lemma createImpl_spec h name perm w R :
  wf_handle h → Inv w (handle_refs h ++ R) →
  ∃ r w', createImpl h name perm w = (r, w') ∧ create_post h R w r w'.
Proof.
  intros ([p Hp] & [u Hu] & comps & Hpath & Hcomps & Hnp) HI.
  assert (live w p) as Hl.
  { eapply Inv_held; [exact HI|]. apply elem_of_app. left. by apply elem_of_handle_refs. }
  unfold createImpl. frun. rewrite Hpath, CreateName_render by done.
  case_decide as Hv; [|eexists _, _; split; [done|]; by split]. rewrite Hu, Hp. unfold next. frun.
  set (w1 := mkServer _ _ _ _). set (info := newDir _ _ _ _ _).
  assert (Inv w1 (handle_refs h ++ R)) as HI1 by by eapply Inv_nodes.
  destruct (fs_Create_spec p info w1 _ HI1) as (r & w2 & -> & Hr); [exact Hl|].
  destruct r as [a|e|y|y]; [|subst w2; eexists _, _; split; [done|]; by split; [intros b|]|done|done].
  destruct Hr as (HI2 & Ha & Hg). frun.
  destruct (incref_spec w2 _ a HI2 Ha) as (nm & w3 & -> & HI3 & Hs3 & _). frun.
  eexists _, _. split; [done|]. split; [etrans; [exact Hg|by apply same_grows]|]. split.
  - split_and!; [by eexists|by eexists|]. exists (comps ++ [name]).
    split_and!; [done|apply Forall_app; by rewrite Forall_singleton|].
    cbn [h_parents]. rewrite !length_app. simpl. lia.
  - unfold handle_refs in HI3 |- *. cbn [h_ent h_parents option_list]. rewrite Hp in HI3.
    by rewrite (Permutation_app_comm (h_parents h) [p]).
Qed.

Lemma Create_spec h name perm mode w R :
  wf_handle h → Inv w (handle_refs h ++ R) →
  ∃ r w', Create h name perm mode w = (r, w') ∧ create_post h R w r w'.
Proof.
  intros Hh HI. unfold Create. frun.
  destruct (createImpl_spec h name perm w R Hh HI) as (r & w' & -> & Hr).
  destruct r as [h2|e|y|y]; [|by eexists _, _|by destruct Hr..]. frun. by eexists _, _.
Qed.

Lemma Attach_spec uname w R :
  Inv w (root :: R) →
  ∃ h w', Attach uname w = (Ok h, w') ∧ wf_handle h ∧ Inv w' (handle_refs h ++ root :: R) ∧
    same w w'.
Proof.
  intros HI. unfold Attach. frun.
  destruct (incref_spec w (root :: R) root HI) as (nm & w' & -> & HI' & Hs & _).
  { eapply Inv_held; [done|left]. }
  frun. eexists _, _. split; [done|]. split_and!; [|exact HI'|exact Hs].
  split_and!; [by eexists|by eexists|]. by exists [].
Qed.

(** ** Contents *)

Lemma ent_Read_spec a count offset w f :
  nodes w !! a = Some f →
  ∃ r, ent_Read a count offset w = (r, w) ∧
    (0 ≤ offset → 0 ≤ count → offset + count < 2 ^ 63 → returns r).
Proof.
  intros Hf. unfold ent_Read. frun. case_decide as Hoff; [by eexists|].
  destruct (decide (offset < 0 ∨ _)) as [Hb|Hb]; eexists; (split; [done|]); [|done].
  intros Ho Hc Hs. exfalso. revert Hb. unfold int64.
  rewrite Z.mod_small by lia. case_decide; lia.
Qed.


(** Changing what a node holds leaves the counts alone. *)
Lemma Inv_content w R a f f' :
  Inv w R → nodes w !! a = Some f → nref f' = nref f → children f' = children f →
  Inv (set_nodes w (<[a := f']> (nodes w))) R.
Proof.
  intros HI Hf Hn Hc. eapply (Inv_update w R _ a f); [done|done| |].
  - intros b. unfold outs. rewrite Hn, Hc. lia.
  - rewrite Hc. exact (λ m name c, inv_down _ _ HI a f m name c Hf).
Qed.

Lemma ent_WStat_spec a dir w R f :
  Inv w R → nodes w !! a = Some f →
  ∃ r w', ent_WStat a dir w = (r, w') ∧ returns r ∧ Inv w' R ∧ grows w w'.
Proof.
  intros HI Hf. unfold ent_WStat. frun. set (d := if decide (Dir_GID dir ≠ "") then _ else _).
  assert (∀ f', nref f' = nref f → children f' = children f →
            Inv (set_nodes w (<[a := f']> (nodes w))) R) as H by (intros; by eapply Inv_content).
  repeat case_decide; frun; eexists _, _; (split; [done|]); (split; [done|]);
    try (split; [by apply H|apply grows_store]).
  unfold set_nodes. cbn [nodes lastpath next_addr now]. rewrite insert_insert_eq.
  split; [by apply H|apply grows_store].
Qed.

Lemma ent_Write_spec a p offset w R f :
  Inv w R → nodes w !! a = Some f →
  ∃ r w', ent_Write a p offset w = (r, w') ∧ Inv w' R ∧ grows w w' ∧
    (0 ≤ offset → offset + len p < 2 ^ 63 → returns r).
Proof.
  intros HI Hf. unfold ent_Write. frun. case_decide as Hoff.
  { frun. by eexists _, _. }
  assert (∀ f', nref f' = nref f → children f' = children f →
            Inv (set_nodes w (<[a := f']> (nodes w))) R) as H by (intros; by eapply Inv_content).
  frun. case_decide as Hb; frun; eexists _, _; (split; [done|]).
  - split_and!; [by apply H|apply grows_store|lia].
  - unfold set_nodes. cbn [nodes lastpath next_addr now]. rewrite insert_insert_eq.
    split_and!; [by apply H|apply grows_store|done].
Qed.

End RamInv.
