(* ===== verification/Typing.v ===== *)
(** * Typing: file servers whose results fit the protocol

    9P has widths for its integers and its texts; a Go value can be larger,
    and then encoding cuts it.  [TypedFS] is what a file server promises
    about its results, with the invariants of its state that it takes; the
    type of a session (Typed) rests on it.  RamTyped proves it of ramfs and
    SleepTyped of sleepfs.  Of a time the wire keeps the seconds whatever the
    clock says, so times are looked at as the wire carries them ([carry]). *)
From S2P Require Import Prelude Types Encoding EncodingFacts FileSys.

Module Typing.

(** ** Results *)

(** An error whose text is at most [k] bytes. *)
Definition short (k : Z) (e : error) : Prop := slen (Error_ e) ≤ k.

Definition short_opt (k : Z) (e : option error) : Prop :=
  match e with Some e => short k e | None => True end.

Definition good {A} (k : Z) (P : A → Prop) (r : result error A) : Prop :=
  match r with Ok a => P a | Err e => short k e | Panic _ | Hang _ => True end.

Lemma good_mono {A} k k' (P Q : A → Prop) r :
  good k P r → k ≤ k' → (∀ a, P a → Q a) → good k' Q r.
Proof. destruct r; cbn; unfold short; [auto|lia|done|done]. Qed.

(** The bound for file servers leaves room for a second "9p: ". *)
Definition text_max : Z := 65531.

(** [m] keeps the invariant [I], and its results satisfy [P]. *)
Definition keeps {W A} (I : W → Prop) (P : A → Prop) (m : W → result error A * W) : Prop :=
  ∀ w, I w → good text_max P (fst (m w)) ∧ I (snd (m w)).

Definition opt_all {A} (P : A → Prop) (x : option A) : Prop :=
  match x with Some a => P a | None => True end.

(** The texts of a stat record are at most [n] bytes. *)
Definition text_Dir (n : Z) (d : Dir) : Prop :=
  slen (Dir_Name d) ≤ n ∧ slen (Dir_UID d) ≤ n ∧ slen (Dir_GID d) ≤ n ∧ slen (Dir_MUID d) ≤ n.

Abbreviation any := (λ _, True).

(** A file server whose results fit the protocol, given requests whose texts
    are at most [ty_text] bytes, and names to walk at most [ty_name]:
    invariants of its state, its entries and its files that the operations
    keep. *)
Class TypedFS (FS : FileSys) := {
  ty_text : Z;
  ty_name : Z;
  ty_world : World → Prop;
  ty_ent : Dirent → Prop;
  ty_file : File → Prop;
  ty_qid d w : ty_ent d → ty_world w → wf_Qid (ent_Qid d w);
  ty_auth ctx uname aname :
    slen uname ≤ ty_text → keeps ty_world (opt_all ty_file) (Auth_ ctx uname aname);
  ty_attach ctx uname aname af :
    slen uname ≤ ty_text → keeps ty_world ty_ent (Attach_ ctx uname aname af);
  ty_read ctx f n off : ty_file f → 0 ≤ n →
    keeps ty_world (λ '(p, e), len p ≤ n ∧ short_opt text_max e) (file_Read ctx f n off);
  ty_write ctx f p off : ty_file f →
    keeps ty_world (λ '(_, e), short_opt text_max e) (file_Write ctx f p off);
  ty_open_dir ctx d : ty_ent d → keeps ty_world any (ent_OpenDir ctx d);
  ty_next ctx it w : ty_world w →
    good text_max any (fst (iter_Next ctx it w)) ∧ ty_world (snd (snd (iter_Next ctx it w)));
  ty_walk ctx d names : ty_ent d → Forall (λ n, slen n ≤ ty_name) names →
    keeps ty_world
      (λ '(qids, e), Forall wf_Qid qids ∧ (length qids ≤ length names)%nat ∧ opt_all ty_ent e)
      (ent_Walk ctx d names);
  ty_create ctx d name perm mode : ty_ent d → slen name ≤ ty_text → in_width 32 perm →
    keeps ty_world (λ '(e, f), opt_all ty_ent e ∧ opt_all ty_file f)
      (ent_Create ctx d name perm mode);
  ty_open ctx d mode : ty_ent d → keeps ty_world (opt_all ty_file) (ent_Open ctx d mode);
  ty_remove ctx d : ty_ent d → keeps ty_world any (ent_Remove ctx d);
  ty_clunk ctx d : ty_ent d → keeps ty_world any (ent_Clunk ctx d);
  ty_stat ctx d : ty_ent d → keeps ty_world (λ dir, wf_Dir (carry_Dir dir)) (ent_Stat ctx d);
  ty_wstat ctx d dir : ty_ent d → wf_Dir dir → text_Dir ty_text dir →
    keeps ty_world any (ent_WStat ctx d dir)
}.
End Typing.
