(* ===== verification/RamTyped.v ===== *)
(** * RamTyped: ramfs is a typed file server

    The stat records that ramfs keeps fit the protocol: the integers their
    widths, the record the 16 bits of its size, if no text it is given is
    longer than [text] bytes; whatever its clock says. *)
From S2P Require Import Prelude Types Encoding EncodingFacts Path FileSys RamFS RamInv Typing.

Module RamTyped.
Import RamFS RamInv Typing.

(** Four texts of this length leave room for the rest of a record. *)
Definition text : Z := 16000.

Definition ty_info (d : Dir) : Prop := Forall wf0 (Dir_fields (carry_Dir d)) ∧ text_Dir text d.

Definition ram_world (w : fServer) : Prop := map_Forall (λ _ f, ty_info (Info f)) (nodes w).

(** The user's name of a handle goes into the records it creates. *)
Definition ram_ent (h : FileHandle) : Prop := opt_all (λ u, slen u ≤ text) (h_sess h).

Lemma ty_info_wf d : ty_info d → wf_Dir (carry_Dir d).
Proof.
  intros [Hf (H1 & H2 & H3 & H4)]. split; [exact Hf|]. unfold wire_dir_body, wire_qid.
  cbn [carry_Dir Dir_Qid Dir_Name Dir_UID Dir_GID Dir_MUID].
  rewrite !len_app, !wire_string_len, !len_le_put. unfold text in *. lia.
Qed.

Lemma ty_info_qid d : ty_info d → wf_Qid (Dir_Qid d).
Proof. intros [Hf _]. unfold Dir_fields in Hf. rewrite !Forall_cons in Hf. apply Hf. Qed.

(** ** The monad *)

Lemma keeps_ret {A} (P : A → Prop) a : P a → keeps ram_world P (mret a : F A).
Proof. intros Ha w Hw. by split. Qed.

Lemma keeps_seq {A B} (P : A → Prop) (Q : B → Prop) (m : F A) (f : A → F B) :
  keeps ram_world P m → (∀ a, P a → keeps ram_world Q (f a)) → keeps ram_world Q (m ≫= f).
Proof.
  intros Hm Hf w Hw. rewrite F_bind_run. destruct (Hm w Hw) as [Hg Hw'].
  destruct (m w) as [[a|e|y|y] w']; cbn in *; [by apply Hf|by split..].
Qed.

Lemma keeps_mono {A} (P Q : A → Prop) (m : F A) :
  keeps ram_world P m → (∀ a, P a → Q a) → keeps ram_world Q m.
Proof.
  intros Hm HPQ w Hw. destruct (Hm w Hw) as [Hg Hw']. split; [|done].
  eapply good_mono; [exact Hg|lia|exact HPQ].
Qed.

Lemma keeps_fail {A} (P : A → Prop) e : short text_max e → keeps ram_world P (fail e : F A).
Proof. intros He w Hw. by split. Qed.

Lemma keeps_panic {A} (P : A → Prop) y : keeps ram_world P (panic y : F A).
Proof. intros w Hw. by split. Qed.

Lemma keeps_deref p : keeps ram_world any (deref p).
Proof. destruct p; [by apply keeps_ret|apply keeps_panic]. Qed.

Lemma keeps_load a : keeps ram_world (λ f, ty_info (Info f)) (load a).
Proof.
  intros w Hw. unfold load. destruct (nodes w !! a) as [f|] eqn:E; [|by split].
  split; [exact (Hw a f E)|done].
Qed.

Lemma keeps_store a f : ty_info (Info f) → keeps ram_world any (store a f).
Proof.
  intros Hf w Hw. split; [done|]. by apply map_Forall_insert_2.
Qed.

Lemma keeps_lift {A} (P : A → Prop) (r : result error A) :
  good text_max P r → keeps ram_world P (lift r).
Proof. intros Hr w Hw. by split. Qed.

Lemma keeps_for_each body cs :
  (∀ c, keeps ram_world any (body c)) → keeps ram_world any (for_each body cs).
Proof.
  intros Hb. induction cs as [|c cs IH]; [by apply keeps_ret|].
  eapply keeps_seq; [apply Hb|]. by intros.
Qed.

#[local] Hint Resolve keeps_ret keeps_panic keeps_deref keeps_load keeps_store : typing.

Ltac short_text := unfold short, text_max; vm_compute; discriminate.

(** Goes through a method. *)
Ltac kp :=
  repeat first
    [ progress intros
    | case_decide
    | apply keeps_fail; short_text
    | apply keeps_panic
    | apply keeps_store; solve [eauto]
    | apply keeps_ret; solve [eauto]
    | solve [eauto with typing nocore]
    | eapply keeps_seq; [solve [eauto with typing nocore]|]
    | match goal with
      | |- keeps _ _ (match ?x with _ => _ end) => destruct x
      end ].

(** ** inode.go and filesys.go *)

Lemma keeps_incref a : keeps ram_world any (incref a).
Proof.
  unfold incref. eapply keeps_seq; [apply keeps_load|]. intros f Hf.
  eapply keeps_seq; [by apply keeps_store|]. intros _ _. by apply keeps_ret.
Qed.
#[local] Hint Resolve keeps_incref : typing.

Lemma keeps_link_child p name c : keeps ram_world any (link_child p name c).
Proof. unfold link_child. kp. Qed.
Lemma keeps_unlink_child p name : keeps ram_world any (unlink_child p name).
Proof. unfold unlink_child. kp. Qed.
#[local] Hint Resolve keeps_link_child keeps_unlink_child : typing.

Lemma keeps_next : keeps ram_world (in_width 64) next.
Proof.
  intros w Hw. split; [|done]. cbn. unfold in_width, u64. apply Z.mod_pos_bound. lia.
Qed.

Lemma keeps_alloc a f : ty_info (Info f) → keeps ram_world any (alloc a f).
Proof. intros Hf w Hw. split; [done|]. by apply map_Forall_insert_2. Qed.

Lemma keeps_fs_Create p info : ty_info info → keeps ram_world any (fs_Create p info).
Proof.
  intros Hi. unfold fs_Create. eapply (keeps_seq any); [by intros w Hw|]. intros a _.
  eapply keeps_seq; [apply keeps_link_child|]. intros _ _.
  eapply keeps_seq; [by apply keeps_alloc|]. intros _ _. by apply keeps_ret.
Qed.

Lemma ty_newDir t path fname uname mode :
  in_width 64 path → slen fname ≤ text → slen uname ≤ text → in_width 32 mode →
  ty_info (newDir t path fname uname mode).
Proof.
  intros Hp Hf Hu Hm. unfold text in *. pose proof (u32_range (t_unix t)). split.
  - unfold Dir_fields, newDir, carry_Dir, carry_Time. cbn -[Z.land Z.lor u32].
    rewrite !Forall_cons, Forall_nil. cbn -[Z.land Z.lor u32]. unfold in_width in *.
    split_and!; try done; try lia; case_decide; done.
  - unfold newDir, text_Dir. cbn. done.
Qed.

(** ** dirent.go *)

Section Range.
Context (range : gmap string Z → list (string * Z)).

Lemma keeps_decref_rec fuel a : keeps ram_world any (decref_rec range fuel a).
Proof.
  revert a. induction fuel as [|fuel IH]; intros a; cbn [decref_rec]; [by intros w Hw|].
  eapply keeps_seq; [apply keeps_load|]. intros f Hf. cbv zeta.
  eapply keeps_seq; [by apply keeps_store|]. intros _ _. destruct (children f); [|by apply keeps_ret].
  case_decide; [|by apply keeps_ret].
  eapply keeps_seq; [|intros _ _].
  { apply keeps_for_each. intros c. eapply keeps_seq; [apply IH|]. intros. by apply keeps_ret. }
  eapply keeps_seq; [apply keeps_load|]. intros f' Hf'.
  eapply keeps_seq; [by apply keeps_store|]. intros. by apply keeps_ret.
Qed.

Lemma keeps_decref a : keeps ram_world any (decref range a).
Proof. intros w. apply keeps_decref_rec. Qed.
Hint Resolve keeps_decref : typing.

Lemma keeps_decrefs cs : keeps ram_world any (for_each (λ p, decref range p;; mret ()) cs).
Proof. apply keeps_for_each. intros c. eapply keeps_seq; [apply keeps_decref|]. intros. by apply keeps_ret. Qed.
Hint Resolve keeps_decrefs : typing.

Lemma keeps_load_infos cs : keeps ram_world any (load_infos cs).
Proof.
  induction cs as [|c cs IH]; cbn [load_infos]; [by apply keeps_ret|].
  eapply keeps_seq; [apply keeps_load|]. intros f _.
  eapply keeps_seq; [apply IH|]. intros. by apply keeps_ret.
Qed.
Hint Resolve keeps_load_infos : typing.

Lemma keeps_OpenDir h : keeps ram_world any (OpenDir range h).
Proof.
  unfold OpenDir. eapply keeps_seq; [apply keeps_deref|]. intros ent _.
  eapply keeps_seq; [apply keeps_load|]. intros f _. unfold ent_OpenDir.
  eapply keeps_seq; [apply keeps_load|]. intros f' _. destruct (negb _); [kp|].
  eapply keeps_seq; [apply keeps_load_infos|]. intros. by apply keeps_ret.
Qed.

Lemma keeps_Clunk h : keeps ram_world any (Clunk range h).
Proof. unfold Clunk. kp. Qed.
Hint Resolve keeps_Clunk : typing.

Lemma keeps_remove_link h : keeps ram_world any (remove_link range h).
Proof.
  unfold remove_link. destruct (last (h_parents h)); [|kp].
  eapply keeps_seq; [apply keeps_deref|]. intros ent _.
  eapply keeps_seq; [apply keeps_load|]. intros f _.
  eapply keeps_seq; [apply keeps_unlink_child|]. intros _ _.
  eapply keeps_seq; [apply keeps_decref|]. intros. by apply keeps_ret.
Qed.

Lemma keeps_Remove h : keeps ram_world any (Remove range h).
Proof.
  intros w Hw. unfold Remove. destruct (keeps_remove_link h w Hw) as [Hg Hw'].
  destruct (remove_link range h w) as [[[]|e|y|y] w']; cbn in *; [by apply keeps_Clunk| |by split..].
  apply (keeps_seq any any); [apply keeps_Clunk| |done]. intros _ _. by apply keeps_fail.
Qed.
End Range.

Lemma keeps_ent_Walk ref names :
  keeps ram_world (λ cs, (length cs ≤ length names)%nat) (ent_Walk ref names).
Proof.
  revert ref. induction names as [|name names IH]; intros ref; cbn [ent_Walk]; [by apply keeps_ret|].
  eapply keeps_seq; [apply keeps_load|]. intros f _.
  destruct (default ∅ (children f) !! name); [|apply keeps_ret; cbn; lia].
  eapply keeps_seq; [apply IH|]. intros ans Ha. apply keeps_ret. cbn in *. lia.
Qed.

Lemma keeps_load_qids cs :
  keeps ram_world (λ qids, Forall wf_Qid qids ∧ length qids = length cs) (load_qids cs).
Proof.
  induction cs as [|c cs IH]; cbn [load_qids]; [by apply keeps_ret|].
  eapply keeps_seq; [apply keeps_load|]. intros f Hf.
  eapply keeps_seq; [apply IH|]. intros qids [Hq Hl]. apply keeps_ret. cbn.
  split; [constructor; [by apply ty_info_qid|done]|lia].
Qed.

Lemma WalkName_short dir names : good text_max any (WalkName dir names).
Proof.
  unfold WalkName. destruct (drop_last dir); [|done]. case_decide; [short_text|done].
Qed.

Lemma dotdots_le names : (dotdots names ≤ length names)%nat.
Proof. induction names as [|n names IH]; cbn; [lia|]. case_decide; lia. Qed.

Lemma keeps_Walk h names : ram_ent h →
  keeps ram_world
    (λ '(qids, rh), Forall wf_Qid qids ∧ (length qids ≤ length names)%nat ∧ ram_ent rh)
    (Walk h names).
Proof.
  intros Hh. unfold Walk. eapply keeps_seq; [apply keeps_lift, WalkName_short|]. intros newpath _.
  case_decide; [kp|]. eapply keeps_seq; [apply keeps_deref|]. intros ref _.
  eapply keeps_seq; [apply keeps_ent_Walk|]. intros fwd Hfwd. cbv zeta.
  set (ans := take _ _ ++ fwd).
  assert (length ans ≤ length names)%nat as Hans.
  { subst ans. pose proof (dotdots_le names). rewrite length_app, length_take, length_reverse.
    rewrite length_drop in Hfwd. lia. }
  case_decide; [kp|]. case_decide.
  - eapply keeps_seq; [apply keeps_load_qids|]. intros qids [Hq Hl]. apply keeps_ret.
    split_and!; [done|lia|done].
  - eapply keeps_seq; [|intros _ _].
    { apply keeps_for_each. intros c. eapply keeps_seq; [apply keeps_incref|]. intros. by apply keeps_ret. }
    eapply keeps_seq; [apply keeps_load_qids|]. intros qids [Hq Hl]. apply keeps_ret.
    split_and!; [done|lia|exact Hh].
Qed.

(** Clearing bits keeps the width. *)
Lemma umask_width mode : in_width 32 mode → in_width 32 (Z.lxor mode (Z.land mode umask)).
Proof.
  intros Hm. unfold in_width in *.
  assert (Z.lxor mode (Z.land mode umask) = Z.ldiff mode umask) as ->.
  { apply Z.bits_inj'. intros n _. rewrite Z.lxor_spec, Z.land_spec, Z.ldiff_spec.
    by destruct (Z.testbit mode n), (Z.testbit umask n). }
  assert (Z.ldiff mode umask = Z.ldiff mode umask mod 2 ^ 32) as ->; [|apply Z.mod_pos_bound; lia].
  rewrite <-Z.land_ones by lia. apply Z.bits_inj'. intros n Hn.
  rewrite Z.land_spec, !Z.ldiff_spec. destruct (decide (n < 32)).
  - rewrite (Z.ones_spec_low 32 n) by lia. by rewrite andb_true_r.
  - rewrite (Z.ones_spec_high 32 n) by lia.
    replace mode with (mode mod 2 ^ 32) by (apply Z.mod_small; lia).
    by rewrite Z.mod_pow2_bits_high by lia.
Qed.

Lemma keeps_Create h name perm mode :
  ram_ent h → slen name ≤ text → in_width 32 perm → keeps ram_world ram_ent (Create h name perm mode).
Proof.
  intros Hh Hn Hp. unfold Create. eapply (keeps_seq ram_ent); [|intros h2 H2; by apply keeps_ret].
  unfold createImpl. eapply (keeps_seq any).
  { apply keeps_lift. unfold CreateName. case_decide; [short_text|done]. }
  intros path _. destruct (h_sess h) as [uname|] eqn:Hs; [|kp]. cbv zeta.
  eapply keeps_seq; [apply keeps_next|]. intros p Hpath.
  eapply (keeps_seq ty_info).
  { intros w Hw. split; [|done]. apply ty_newDir; try done; [|by apply umask_width].
    unfold ram_ent in Hh. by rewrite Hs in Hh. }
  intros dir Hdir. eapply keeps_seq; [apply keeps_deref|]. intros parent _.
  eapply keeps_seq; [by apply keeps_fs_Create|]. intros ent _.
  eapply keeps_seq; [apply keeps_incref|]. intros _ _. apply keeps_ret.
  unfold ram_ent in *. cbn. rewrite ?Hs in *. exact Hh.
Qed.

Lemma keeps_Stat h : keeps ram_world (λ d, wf_Dir (carry_Dir d)) (Stat h).
Proof.
  unfold Stat. eapply keeps_seq; [apply keeps_deref|]. intros ent _.
  eapply keeps_seq; [apply keeps_load|]. intros f Hf. apply keeps_ret. by apply ty_info_wf.
Qed.

(** The changes that WStat and Write make to a record. *)
Ltac info_tac :=
  unfold ty_info, text_Dir, Dir_fields, carry_Dir, with_Mode, with_UID, with_GID, with_Version, with_Length in *;
  cbn [Dir_Type Dir_Dev Dir_Qid Dir_Mode Dir_AccessTime Dir_ModTime Dir_Length Dir_Name Dir_UID
       Dir_GID Dir_MUID] in *;
  rewrite ?Forall_cons, ?Forall_nil in *;
  repeat match goal with H : _ ∧ _ |- _ => destruct H end;
  split_and!; try done.

Lemma slen_wf s : slen s ≤ text → wf0 (VString s).
Proof. cbn. unfold text. lia. Qed.

Lemma ty_with_Mode d m : ty_info d → in_width 32 m → ty_info (with_Mode d m).
Proof. intros Hd Hm. info_tac. Qed.
Lemma ty_with_UID d u : ty_info d → slen u ≤ text → ty_info (with_UID d u).
Proof. intros Hd Hu. pose proof (slen_wf _ Hu). info_tac. Qed.
Lemma ty_with_GID d g : ty_info d → slen g ≤ text → ty_info (with_GID d g).
Proof. intros Hd Hg. pose proof (slen_wf _ Hg). info_tac. Qed.
Lemma ty_with_Version d v : ty_info d → in_width 32 v → ty_info (with_Version d v).
Proof. intros Hd Hv. pose proof (ty_info_qid d Hd) as (H1 & H2 & H3). info_tac. Qed.
Lemma ty_with_Length d l : ty_info d → in_width 64 l → ty_info (with_Length d l).
Proof. intros Hd Hl. info_tac. Qed.

Lemma keeps_WStat h dir :
  wf_Dir dir → text_Dir text dir → keeps ram_world any (WStat h dir).
Proof.
  intros [Hd _] (_ & Hu & Hg & _). unfold WStat. eapply keeps_seq; [apply keeps_deref|]. intros ref _.
  assert (in_width 32 (Dir_Mode dir)) as Hm.
  { unfold Dir_fields in Hd. rewrite !Forall_cons in Hd. apply Hd. }
  unfold ent_WStat. eapply keeps_seq; [apply keeps_load|]. intros f Hf. cbv zeta.
  set (d := if decide (Dir_GID dir ≠ "") then _ else _).
  assert (ty_info d) as Hty.
  { subst d. repeat case_decide;
      repeat match goal with
      | |- ty_info (with_GID _ _) => apply ty_with_GID; [|exact Hg]
      | |- ty_info (with_UID _ _) => apply ty_with_UID; [|exact Hu]
      | |- ty_info (with_Mode _ _) => apply ty_with_Mode; [|exact Hm]
      end; exact Hf. }
  eapply keeps_seq; [by apply keeps_store|]. intros _ _.
  case_decide; [kp|]. case_decide; [|by apply keeps_ret]. case_decide; [kp|]. by apply keeps_store.
Qed.

Lemma keeps_Read h n off :
  0 ≤ n → keeps ram_world (λ '(p, e), len p ≤ n ∧ short_opt text_max e) (Read h n off).
Proof.
  intros Hn. unfold Read. eapply keeps_seq; [apply keeps_deref|]. intros ref _. unfold ent_Read.
  eapply keeps_seq; [apply keeps_load|]. intros f _. cbv zeta.
  case_decide; [apply keeps_ret; split; [done|by vm_compute]|].
  set (m := if decide _ then _ - off else n). case_decide as Hd; [kp|]. apply keeps_ret. split; [|done].
  unfold len. rewrite length_take. clearbody m. lia.
Qed.

Lemma keeps_Write h p off :
  keeps ram_world (λ '(_, e), short_opt text_max e) (Write h p off).
Proof.
  unfold Write. eapply keeps_seq; [apply keeps_deref|]. intros ref _. unfold ent_Write.
  eapply keeps_seq; [apply keeps_load|]. intros f Hf. cbv zeta.
  case_decide; [apply keeps_ret; by vm_compute|].
  assert (ty_info (with_Version (Info f) (u32 (Qid_Version (Dir_Qid (Info f)) + 1)))) as Hv
    by (apply ty_with_Version; [exact Hf|apply u32_range]).
  eapply keeps_seq; [by apply keeps_store|]. intros _ _. case_decide; [kp|].
  eapply keeps_seq; [|intros _ _; by apply keeps_ret]. apply keeps_store. cbn [Info set_Info set_Data].
  apply ty_with_Length; [exact Hv|]. unfold in_width, u64. apply Z.mod_pos_bound. lia.
Qed.

Lemma keeps_Attach uname : slen uname ≤ text → keeps ram_world ram_ent (Attach uname).
Proof. intros Hu. unfold Attach. eapply keeps_seq; [apply keeps_incref|]. intros. by apply keeps_ret. Qed.

(** ** The instance *)

Lemma wf_zeroQid : wf_Qid zeroQid.
Proof. by vm_compute. Qed.

#[export] Instance ramServer_typed range : TypedFS (ramServer range).
Proof.
  refine {| ty_text := text; ty_name := 2 ^ 16; ty_world := ram_world : @World (ramServer range) → Prop;
            ty_ent := ram_ent : @Dirent (ramServer range) → Prop;
            ty_file := ram_ent : @File (ramServer range) → Prop |};
    cbn [FileSys.ent_Qid Auth_ Attach_ file_Read file_Write FileSys.ent_OpenDir iter_Next FileSys.ent_Walk
         ent_Create ent_Open ent_Remove ent_Clunk ent_Stat FileSys.ent_WStat ramServer].
  - intros h w _ Hw. change (wf_Qid (ent_Qid h w)). unfold ent_Qid. destruct (h_ent h) as [a|]; [|exact wf_zeroQid].
    destruct (nodes w !! a) as [f|] eqn:E; [|exact wf_zeroQid]. apply ty_info_qid. by apply (Hw a).
  - intros ctx uname aname _ w Hw. by split.
  - intros ctx uname aname af. apply keeps_Attach.
  - intros ctx f n off _. apply keeps_Read.
  - intros ctx f p off _. apply keeps_Write.
  - intros ctx d _. apply keeps_OpenDir.
  - intros ctx it w Hw. by destruct (Next it).
  - intros ctx d names Hd _. eapply keeps_seq; [by apply keeps_Walk|]. intros [qids rh] Hq. by apply keeps_ret.
  - intros ctx d name perm mode Hd Hn Hp. eapply keeps_seq; [by apply keeps_Create|].
    intros h2 H2. by apply keeps_ret.
  - intros ctx d mode Hd. by apply keeps_ret.
  - intros ctx d _. apply keeps_Remove.
  - intros ctx d _. apply keeps_Clunk.
  - intros ctx d _. apply keeps_Stat.
  - intros ctx d dir _ Hd Ht. by apply keeps_WStat.
Defined.

Lemma ram_world_new t : ram_world (fserver t).
Proof.
  intros a f Ha. cbn [nodes fserver] in Ha. apply lookup_singleton_Some in Ha as [<- <-]. cbn [Info].
  by apply ty_newDir.
Qed.
End RamTyped.
