(* ===== verification/SleepTyped.v ===== *)
(** * SleepTyped: sleepfs is a typed file server

    The elements of its paths are numbers below 1000, so its entries have
    short names and qids in their widths; the error for a name that is no
    number quotes the name, so names to walk must leave room for that.  Its
    stat records have Go's zero time. *)
From S2P Require Import Prelude Types Encoding EncodingFacts Path FileSys SleepFS Typing.

Module SleepTyped.
Import SleepFS Typing.

(** Names up to this length can be quoted in an error. *)
Definition name_max : Z := 65000.

Definition element (n : Z) : Prop := 0 ≤ n < 1000.
Definition sleep_world (w : store) : Prop := map_Forall (λ _ l, Forall element l) w.

Lemma elems_ok w s : sleep_world w → Forall element (elems w s).
Proof.
  intros Hw. unfold elems. apply Forall_take. destruct (w !! s_arr s) as [l|] eqn:E; [by apply (Hw _ _ E)|].
  constructor.
Qed.

Lemma qid_of_wf l : wf_Qid (qid_of l).
Proof.
  assert (∀ z, in_width 64 (u64 z)) as Hu by (intros z; apply Z.mod_pos_bound; lia).
  unfold qid_of, wf_Qid. destruct l as [|s0 [|s1 []]]; case_decide; cbn [Qid_Type Qid_Version Qid_Path];
    split_and!; first [apply Hu | by vm_compute].
Qed.

Lemma zeroQid_wf : wf_Qid zeroQid.
Proof. by vm_compute. Qed.

(** ** Stat *)

Lemma slen_append s t : slen (s +:+ t) = slen s + slen t.
Proof.
  unfold slen. rewrite <-Nat2Z.inj_add. f_equal.
  induction s as [|c s IH]; [done|]. exact (f_equal S IH).
Qed.

Lemma element_text n : element n → slen (pretty n) ≤ 3.
Proof.
  intros Hn. assert (Forall (λ n, slen (pretty n) ≤ 3) (seqZ 0 1000)) as H.
  { apply (bool_decide_unpack _). vm_compute. exact I. }
  rewrite Forall_forall in H. apply H, elem_of_seqZ. unfold element in Hn. lia.
Qed.

Lemma Info_wf l : Forall element l → wf_Dir (carry_Dir (Info l)).
Proof.
  intros Hl. pose proof (qid_of_wf l) as Hq.
  set (name := match last l with Some n => pretty n | None => "/" end).
  assert (slen name ≤ 3) as Hn.
  { subst name. destruct (last l) as [n|] eqn:E; [|by vm_compute].
    apply element_text. rewrite Forall_forall in Hl. apply Hl. by apply last_Some_elem_of. }
  assert (in_width 32 (if decide (length l < 2)%nat then DMDIR else 0)) as Hm by by case_decide.
  unfold Info. fold name. split.
  - unfold Dir_fields, carry_Dir. cbn [Dir_Type Dir_Dev Dir_Qid Dir_Mode Dir_AccessTime Dir_ModTime Dir_Length
      Dir_Name Dir_UID Dir_GID Dir_MUID]. rewrite !Forall_cons, Forall_nil.
    split_and!; try exact I; try exact Hq; try exact Hm; try by vm_compute. cbn [wf0]. lia.
  - unfold wire_dir_body, carry_Dir, wire_qid. cbn [Dir_Type Dir_Dev Dir_Qid Dir_Mode Dir_AccessTime Dir_ModTime
      Dir_Length Dir_Name Dir_UID Dir_GID Dir_MUID].
    rewrite !len_app, !wire_string_len, !len_le_put.
    change (slen "sleeper") with 7. change (slen "") with 0. lia.
Qed.

(** ** Walk *)

Lemma pad_ok total qids :
  Forall wf_Qid qids → (length qids ≤ total)%nat → Forall wf_Qid (pad total qids) ∧ length (pad total qids) = total.
Proof.
  intros Hq Hl. unfold pad. rewrite length_app, length_replicate. split; [|lia].
  apply Forall_app. split; [done|]. apply Forall_replicate, zeroQid_wf.
Qed.

Lemma walk_up_ok (P : string → Prop) total w s i qids names :
  Forall wf_Qid qids → (length qids + length names = total)%nat → Forall P names →
  match walk_up total w s i qids names with
  | Ok (inl q) => Forall wf_Qid q ∧ length q = total
  | Ok (inr (_, q, rest)) => Forall wf_Qid q ∧ (length q + length rest = total)%nat ∧ Forall P rest
  | Err _ => False
  | _ => True
  end.
Proof.
  revert i qids. induction names as [|n names IH]; intros i qids Hq Hl Hn; cbn [walk_up]; [done|].
  case_decide; [|done]. cbn in Hl. apply Forall_cons in Hn as [_ Hn]. case_decide.
  - apply pad_ok; [done|lia].
  - destruct (reslice _ _) as [s'|]; [|done]. apply IH; [|rewrite length_app; cbn; lia|done].
    apply Forall_app. split; [done|]. apply Forall_singleton, qid_of_wf.
Qed.

Lemma append_ok s n w : element n → sleep_world w → sleep_world (snd (append s n w)).
Proof.
  intros Hn Hw. unfold append. case_decide; cbn [snd].
  - intros a l [(<- & l0 & Hl0 & ->)|[_ Ha]]%lookup_alter_Some; [|by apply (Hw _ _ Ha)]. apply Forall_insert; [by apply (Hw _ _ Hl0)|done].
  - apply map_Forall_insert_2; [|done]. rewrite !Forall_app. split_and!.
    + by apply elems_ok.
    + by apply Forall_singleton.
    + by apply Forall_replicate.
Qed.

Lemma Atoi_short name : slen name ≤ name_max → good text_max any (Atoi name).
Proof.
  intros Hn. assert (∀ a b, slen a + slen b ≤ 100 → short text_max (errorString (a +:+ name +:+ b))) as Hs.
  { intros a b Hab. unfold short, Error_. rewrite !slen_append. unfold name_max, text_max in *. lia. }
  unfold Atoi. destruct name as [|c r]; [by apply (Hs _ _)|].
  repeat case_match; try exact I; apply Hs; by vm_compute.
Qed.

Lemma walk_down_ok total w s qids names :
  sleep_world w → Forall wf_Qid qids → (length qids + length names = total)%nat →
  Forall (λ n, slen n ≤ name_max) names →
  good text_max (λ '(q, _), Forall wf_Qid q ∧ (length q ≤ total)%nat) (fst (walk_down total w s qids names)) ∧
  sleep_world (snd (walk_down total w s qids names)).
Proof.
  revert w s qids. induction names as [|n names IH]; intros w s qids Hw Hq Hl Hn; cbn [walk_down].
  { cbn in *. split; [split; [done|lia]|done]. }
  apply Forall_cons in Hn as [Hn1 Hn]. cbn in Hl. pose proof (Atoi_short n Hn1) as Ha.
  destruct (Atoi n) as [z|e|y|y]; try (by split). case_decide as Hz.
  - destruct (pad_ok total qids Hq ltac:(lia)) as [H1 H2]. split; [|done]. cbn. split; [done|lia].
  - pose proof (append_ok s z w ltac:(unfold element; lia) Hw) as Hw'.
    destruct (append s z w) as [s' w']. apply IH; [done| |rewrite length_app; cbn; lia|done].
    apply Forall_app. split; [done|]. apply Forall_singleton, qid_of_wf.
Qed.

Lemma Walk_ok s names w :
  sleep_world w → Forall (λ n, slen n ≤ name_max) names →
  good text_max (λ '(q, _), Forall wf_Qid q ∧ (length q ≤ length names)%nat) (fst (sleepTime_Walk s names w)) ∧
  sleep_world (snd (sleepTime_Walk s names w)).
Proof.
  intros Hw Hn. unfold sleepTime_Walk. case_decide; [by (split; [split; [constructor|cbn; lia]|done])|].
  pose proof (walk_up_ok _ (length names) w s 0 [] names ltac:(constructor) eq_refl Hn) as Hup.
  destruct (walk_up _ _ _ _ _ _) as [[q|[[i q] rest]]|e|y|y]; try done.
  - destruct Hup as [Hq Hl]. split; [|done]. cbn. split; [done|lia].
  - destruct Hup as (Hq & Hl & Hr). destruct (reslice _ _) as [s'|]; [|done].
    by apply walk_down_ok.
Qed.

(** ** The instance *)

#[export] Instance sServer_typed : TypedFS sServer.
Proof.
  refine {| ty_text := 2 ^ 16; ty_name := name_max; ty_world := sleep_world : @World sServer → Prop;
            ty_ent := (λ _, True) : @Dirent sServer → Prop;
            ty_file := (λ _, True) : @File sServer → Prop |};
    cbn [FileSys.ent_Qid Auth_ Attach_ file_Read file_Write FileSys.ent_OpenDir iter_Next FileSys.ent_Walk
         ent_Create ent_Open ent_Remove ent_Clunk ent_Stat FileSys.ent_WStat sServer];
    intros.
  - apply qid_of_wf.
  - intros w Hw. by split.
  - intros w Hw. by split.
  - intros w Hw. split; [|done]. split; [|done]. by rewrite len_nil.
  - intros w Hw. by split.
  - intros w Hw. split; [|done]. unfold OpenDir. case_decide; [by vm_compute|done].
  - by split.
  - intros w Hw. destruct (Walk_ok d names w Hw ltac:(eassumption)) as [Hg Hw']. split; [|done].
    eapply good_mono; [exact Hg|lia|]. intros [q [e|]]; naive_solver.
  - intros w Hw. split; [by vm_compute|done].
  - intros w Hw. by split.
  - intros w Hw. split; [by vm_compute|done].
  - intros w Hw. by split.
  - intros w Hw. split; [|done]. by apply Info_wf, elems_ok.
  - intros w Hw. split; [by vm_compute|done].
Defined.

Lemma sleep_world_new : sleep_world ∅.
Proof. intros a l Ha. by rewrite lookup_empty in Ha. Qed.
End SleepTyped.
