(* ===== verification/SSession.v ===== *)
(** * SSession: messages to session calls, ssesssion.go

    [Handle] turns a request message into a call of the session and its
    result into a response message.  It is defined for any Session, and run
    on two: the session of SFileSys and the table of fids that specifies it.
    The theorems of the server side are about these two runs. *)
From S2P Require Import Prelude Types Encoding EncodingFacts Codec Readdir FileSys SFileSys SessionSpec Session Channel SleepFS.

Section Handle.
Context {St : Type} `{!Session St}.

(** The result of a call, turned into a message. *)
Definition respond {A} (r : result error A * St) (k : A → Message) : result error Message * St :=
  (k <$> r.1, r.2).

(** A call that may return a value and an error: the error counts. *)
Definition respond_n {A} (r : result error (A * option error) * St) (k : A → Message)
    : result error Message * St :=
  ('(a, err) ← r.1; match err with Some e => Err e | None => Ok (k a) end, r.2).

(** The size of the buffer for a Tread. *)
Definition read_count (msize count : Z) : Z :=
  if decide (count > msize - 11) then
    let count := msize - 11 in if decide (count < 0) then 0 else count
  else count.

Definition Handle (msize : Z) (ctx : context) (msg : Message) (s : St)
    : result error Message * St :=
  match msg with
  | MessageTauth afid uname aname =>
      respond (sAuth ctx afid uname aname s) MessageRauth
  | MessageTattach fid afid uname aname =>
      respond (sAttach ctx fid afid uname aname s) MessageRattach
  | MessageTwalk fid newfid wnames =>
      respond (sWalk ctx fid newfid wnames s) MessageRwalk
  | MessageTopen fid mode =>
      respond (sOpen ctx fid mode s) (λ '(qid, iounit), MessageRopen qid iounit)
  | MessageTcreate fid name perm mode =>
      respond (sCreate ctx fid name perm mode s) (λ '(qid, iounit), MessageRcreate qid iounit)
  | MessageTread fid offset count =>
      respond_n (sRead ctx fid (read_count msize count) (int64 offset) s) MessageRread
  | MessageTwrite fid offset data =>
      respond_n (sWrite ctx fid data (int64 offset) s) (λ n, MessageRwrite (u32 n))
  | MessageTclunk fid => respond (sClunk ctx fid s) (λ _, MessageRclunk)
  | MessageTremove fid => respond (sRemove ctx fid s) (λ _, MessageRremove)
  | MessageTstat fid => respond (sStat ctx fid s) MessageRstat
  | MessageTwstat fid stat => respond (sWStat ctx fid stat s) (λ _, MessageRwstat)
  | _ => (Err ErrUnknownMsg, s)
  end.

(** [SSession]: the msize is that of the session. *)
Definition SSession (s : St) : context → Message → St → result error Message * St :=
  Handle (fst (sVersion s)).
End Handle.

Section Refine.
Context `{FS : FileSys}.

(** Two runs of a call that agree in result and, when it returns, in
    state. *)
Definition agrees {A} (c : result error A * session) (a : result error A * table) : Prop :=
  fst c = fst a ∧ (returns (fst a) → quiescent (snd c) ∧ abs (snd c) = snd a).

Lemma refines_agrees {A} (m : M A) sp s : refines m sp → quiescent s → agrees (m s) (sp (abs s)).
Proof. intros H Hq. destruct (H s Hq) as (s' & -> & Hs). by split. Qed.

Lemma agrees_respond {A} (c : result error A * session) a k :
  agrees c a → agrees (respond c k) (respond a k).
Proof.
  intros [E H]. unfold agrees, respond. cbn. rewrite E. split; [done|].
  intros Hr. apply H. by destruct (fst a).
Qed.

Lemma agrees_respond_n {A} (c : result error (A * option error) * session) a k :
  agrees c a → agrees (respond_n c k) (respond_n a k).
Proof.
  intros [E H]. unfold agrees, respond_n. cbn. rewrite E. split; [done|].
  intros Hr. apply H. by destruct (fst a) as [[]| | |].
Qed.
End Refine.

Lemma quiescent_new `{FS : FileSys} w : quiescent (SFileSys_new w).
Proof. split_and!; cbn; [|done|done]. intros fid r. by rewrite lookup_empty. Qed.

Lemma quiescent_Attach `{FS : FileSys} ctx fid uname aname s q s' :
  quiescent s → Attach ctx fid NOFID uname aname s = (Ok q, s') → quiescent s'.
Proof.
  intros Hq E. destruct (refines_Attach ctx fid NOFID uname aname s Hq) as (s2 & E2 & H).
  { unfold leaks_lock. repeat case_match; done. }
  rewrite E in E2. injection E2 as E2 <-. apply H. by rewrite <-E2.
Qed.

(** ** Bounds of directory and file reads *)

Lemma read_loop_bound {S} codec (next : S → result error Dir * S) fuel cap p rd q e rd' :
  len p ≤ cap → read_loop codec next fuel cap p rd = (Ok (q, e), rd') → len q ≤ cap.
Proof.
  revert p rd. induction fuel as [|fuel IH]; intros p rd Hp; [done|]. cbn [read_loop].
  repeat case_match; intros; simplify_eq; try done. eapply IH; [|eassumption].
  rewrite len_app. lia.
Qed.

Lemma Readdir_Read_bound {S} codec (next : S → result error Dir * S) rd cap off p e rd' :
  0 ≤ cap → Readdir.Read codec next rd cap off = (Ok (p, e), rd') → len p ≤ cap.
Proof.
  intros Hc. unfold Readdir.Read. case_decide; [by intros [= <- _ _]|].
  destruct (read_loop _ _ _ _ _ _) as [[[q e']| | |] rd1] eqn:E; intros; simplify_eq.
  by eapply read_loop_bound in E.
Qed.

Lemma dir_Read_bound `{FS : FileSys} ctx rd cap off w p e rd' w' :
  0 ≤ cap → dir_Read ctx rd cap off w = (Ok (p, e), rd', w') → len p ≤ cap.
Proof.
  intros Hc. unfold dir_Read. destruct (rd_next rd) as [[dirs done] it].
  destruct (Readdir.Read _ _ _ _ _) as [r rd1] eqn:E. destruct (rd_next rd1) as [[? ?] [? ?]].
  intros [= -> _ _]. by eapply Readdir_Read_bound.
Qed.

(** What a file server must respect: a file does not read more than asked. *)
Class ReadLaw (FS : FileSys) : Prop :=
  read_law ctx f n off w p e w' : 0 ≤ n →
    file_Read ctx f n off w = (Ok (p, e), w') → len p ≤ n.

#[export] Instance sServer_ReadLaw : ReadLaw SleepFS.sServer.
Proof. intros ctx f n off w p e w' Hn [= <- _ _]. done. Qed.

Lemma read_count_range msize count :
  0 ≤ count → 0 ≤ read_count msize count ≤ count ∧
  (11 ≤ msize → read_count msize count ≤ msize - 11).
Proof. intros. unfold read_count. cbv zeta. repeat case_decide; lia. Qed.

Lemma handle_agrees `{FS : FileSys} msize ctx msg s :
  quiescent s →
  (∀ fid afid uname aname, msg = MessageTattach fid afid uname aname →
     leaks_lock afid (abs s) = false) →
  agrees (Handle msize ctx msg s) (Handle msize ctx msg (abs s)).
Proof.
  intros Hq Hl. destruct msg; cbn [Handle];
    try (by split; [|intros _]); try apply agrees_respond; try apply agrees_respond_n.
  - by apply refines_agrees; [apply refines_Auth|].
  - destruct (refines_Attach ctx Fid Afid Uname Aname s Hq) as (s' & E & H);
      [by eapply Hl|]. cbn [sAttach SFileSys_Session table_Session]. by rewrite E.
  - by apply refines_agrees; [apply refines_Walk|].
  - by apply refines_agrees; [apply refines_Open|].
  - by apply refines_agrees; [apply refines_Create|].
  - by apply refines_agrees; [apply refines_Read|].
  - by apply refines_agrees; [apply refines_Write|].
  - by apply refines_agrees; [apply refines_delete|].
  - by apply refines_agrees; [apply refines_delete|].
  - by apply refines_agrees; [apply refines_Stat|].
  - by apply refines_agrees; [apply refines_WStat|].
Qed.

(** ** Theorems *)

(** C3. The server's fid machinery is correct: whatever request comes,
    handling it with the session (fids, shared SFids, mutexes taken and
    released) gives the response that the table of fids specifies, and when it
    returns no mutex is held and the session is the specified table again.
    The one request left out is an attach that names a plain, unopened fid as
    its auth fid ([leaks_lock]): that one does leave a mutex held
    (sfilesys.go, line 246; [attach_leaks_lock]). *)
Theorem handle_refines `{FS : FileSys} msize ctx msg s :
  quiescent s →
  (∀ fid afid uname aname, msg = MessageTattach fid afid uname aname →
     leaks_lock afid (abs s) = false) →
  agrees (Handle msize ctx msg s) (Handle msize ctx msg (abs s)).
Proof. apply handle_agrees. Qed.

Definition sleep_attached : @session SleepFS.sServer :=
  snd (Attach None 1 NOFID "u" "/" (SFileSys_new (∅ : @World SleepFS.sServer))).

Lemma sleep_attached_quiescent : quiescent sleep_attached.
Proof.
  eapply (quiescent_Attach None 1 "u" "/" (SFileSys_new (∅ : @World SleepFS.sServer)));
    [apply quiescent_new|]. unfold sleep_attached. reflexivity.
Qed.

Lemma handle_refines_witness :
  fst (Handle 64 None (MessageTwalk 1 2 ["3"]) sleep_attached)
    = Ok (MessageRwalk [mkQid QTDIR 0 8]) ∧
  agrees (Handle 64 None (MessageTwalk 1 2 ["3"]) sleep_attached)
    (Handle 64 None (MessageTwalk 1 2 ["3"]) (abs sleep_attached)).
Proof.
  split; [vm_compute; reflexivity|].
  apply (handle_refines 64 None (MessageTwalk 1 2 ["3"]) sleep_attached sleep_attached_quiescent).
  intros fid afid uname aname. discriminate.
Defined.

(** C36. A response to a read always fits: with files that read no more than
    they are asked, and an msize with room for the header, the Rread that
    Handle makes for a Tread has no more data than requested, and its frame
    is not larger than msize, for files and for directories. *)
Theorem rread_fits `{FS : FileSys} msize ctx fid offset count s m s' tag :
  ReadLaw FS → 11 ≤ msize → 0 ≤ count →
  Handle msize ctx (MessageTread fid offset count) (s : table) = (Ok m, s') →
  ∃ data, m = MessageRread data ∧ len data ≤ count ∧ frame_size (newFcall tag m) ≤ msize.
Proof.
  intros Hl Hm Hc. destruct (read_count_range msize count Hc) as [Hn Hk]. specialize (Hk Hm).
  cbn [Handle]. set (n := read_count msize count) in *. unfold respond_n.
  destruct (sRead ctx fid n (int64 offset) s) as [r t] eqn:E. cbn [fst snd].
  intros [= H <-]. bind_inv H. destruct a as [data [e|]]; [done|]. injection H as <-. subst r.
  assert (len data ≤ n) as Hd.
  { cbn [sRead table_Session] in E. unfold spec_Read, on_fid in E.
    destruct (t_fids s !! fid) as [sf|]; [|done]. destruct (sf_Ent sf) as [ent|]; [|done].
    destruct (sf_File sf) as [[f|rd]|]; [| |done].
    - destruct (decide _); [done|].
      destruct (file_Read ctx f n (int64 offset) (t_world s)) as [r w] eqn:Er.
      injection E as -> _. eapply read_law; [|exact Er]. lia.
    - destruct (decide _); [done|].
      destruct (dir_Read ctx rd n (int64 offset) (t_world s)) as [[r rd'] w] eqn:Er.
      injection E as -> _. eapply dir_Read_bound; [|exact Er]. lia. }
  exists data. split_and!; [done|lia|].
  unfold frame_size. rewrite wire_fcall_len. cbn [wire_message]. unfold wire_data.
  len_simpl. lia.
Qed.

Definition sleep_open : @table SleepFS.sServer :=
  snd (sOpen None 2 OREAD (snd (sWalk None 1 2 ["3"] (abs sleep_attached)))).

Lemma rread_fits_witness :
  ∃ data, MessageRread [] = MessageRread data ∧ len data ≤ 1000 ∧
    frame_size (newFcall 7 (MessageRread [])) ≤ 64.
Proof.
  apply (rread_fits (FS := SleepFS.sServer) 64 None 2 0 1000 sleep_open (MessageRread [])
           (snd (Handle 64 None (MessageTread 2 0 1000) sleep_open)) 7 _);
    [lia|lia|apply pair_fst; vm_compute; reflexivity].
Defined.

(** An attach whose auth fid is a plain fid that is not open fails, and
    leaves the mutex of that fid locked: every later stat, clunk or walk of
    the fid blocks for ever. *)
Theorem attach_leaks_lock `{FS : FileSys} ctx fid afid uname aname s :
  quiescent s → leaks_lock afid (abs s) = true →
  ∃ s', Attach ctx fid afid uname aname s = (Err ErrUnknownfid, s') ∧
    ∀ ctx', fst (Stat ctx' afid s') = Hang "mutex is locked" ∧
      fst (Clunk ctx' afid s') = Hang "mutex is locked" ∧
      fst (Walk ctx' afid afid [] s') = Hang "mutex is locked".
Proof.
  intros Hq Hl. unfold leaks_lock in Hl.
  destruct (t_fids (abs s) !! afid) as [[[ent|] [file|] md]|] eqn:Hf; try done.
  apply bool_decide_eq_true in Hl.
  destruct (getRef_live s afid _ ent Hq Hf eq_refl) as (r & Hr & Hh & Hg).
  fold (held s r (mkSFid (Some ent) None md)) in Hg. set (s1 := held s r _) in *.
  assert (heap s1 !! r = Some (true, mkSFid (Some ent) None md)) as H1 by apply lookup_insert_eq.
  assert (refs s1 !! afid = Some r) as Hr1 by exact Hr.
  exists s1. split.
  - unfold Attach. rewrite decide_False by done. mrun. rewrite Hg. mrun.
    by rewrite (get_run _ _ _ _ H1).
  - intros ctx'.
    assert (getRef afid s1 = (Hang "mutex is locked", s1)) as Hhang.
    { unfold getRef. rewrite decide_False by done. mrun. rewrite Hr1. mrun.
      unfold lock. by rewrite H1. }
    split_and!.
    + unfold Stat. mrun. by rewrite Hhang.
    + unfold Clunk, delRef. mrun. rewrite Hr1. mrun. unfold lock. cbn [heap]. by rewrite H1.
    + unfold Walk. rewrite decide_False by (by compute). mrun. by rewrite Hhang.
Qed.

Lemma attach_leaks_lock_witness :
  ∃ s', Attach None 5 1 "u" "/" sleep_attached = (Err ErrUnknownfid, s') ∧
    ∀ ctx', fst (Stat ctx' 1 s') = Hang "mutex is locked" ∧
      fst (Clunk ctx' 1 s') = Hang "mutex is locked" ∧
      fst (Walk ctx' 1 1 [] s') = Hang "mutex is locked".
Proof.
  apply (attach_leaks_lock None 5 1 "u" "/" sleep_attached sleep_attached_quiescent).
  vm_compute. reflexivity.
Defined.

(** An auth fid is of no use: after a successful auth, reading and
    writing the auth fid, which the authentication protocol needs, and
    attaching with it all fail with "unknown fid", whatever the file server
    says, because the SFid of an auth fid has no entry. *)
Theorem auth_fid_unusable `{FS : FileSys} ctx afid uname aname s q s' :
  quiescent s → afid ≠ NOFID → Auth ctx afid uname aname s = (Ok q, s') →
  ∀ fid n off p ctx' uname' aname',
    fst (Attach ctx' fid afid uname' aname' s') = Err ErrUnknownfid ∧
    fst (Read ctx' afid n off s') = Err ErrUnknownfid ∧
    fst (Write ctx' afid p off s') = Err ErrUnknownfid.
Proof.
  intros Hq Hn E. destruct (refines_Auth ctx afid uname aname s Hq) as (s2 & E2 & H).
  rewrite E in E2. injection E2 as E2 <-. destruct H as [Hq' Ha]; [by rewrite <-E2|].
  assert (getRef afid s' = (Err ErrUnknownfid, s')) as Hg.
  { apply getRef_dead; [done|]. rewrite Ha. intros sf Hsf. revert E2 Hsf.
    unfold spec_Auth. rewrite decide_False by done. case_match; [done|].
    unfold new_fid. rewrite decide_False by done. case_match; [done|].
    destruct (Auth_ ctx uname aname _) as [[f| | |] w]; cbn; try done.
    intros _. rewrite lookup_insert_eq. by intros [= <-]. }
  intros fid n off p ctx' uname' aname'. split_and!.
  - unfold Attach. rewrite decide_False by done. mrun. by rewrite Hg.
  - unfold Read. mrun. by rewrite Hg.
  - unfold Write. mrun. by rewrite Hg.
Qed.

(** A file server that asks for authentication and makes directories it does
    not let be read. *)
Definition strictFS : FileSys := {|
  World := unit;
  Dirent := unit;
  File := unit;
  Iter := unit;
  RequireAuth _ _ := true;
  Auth_ _ _ _ w := (Ok (Some tt), w);
  Attach_ _ _ _ _ w := (Ok tt, w);
  is_AuthFile _ := true;
  Success _ _ := true;
  file_Read _ _ _ _ w := (Ok ([], None), w);
  file_Write _ _ p _ w := (Ok (len p, None), w);
  file_IOUnit _ _ := 0;
  ent_Qid _ _ := mkQid QTDIR 0 1;
  ent_OpenDir _ _ w := (Err ErrPerm, w);
  iter_Next _ it w := (Ok [], (it, w));
  ent_Walk _ s _ w := (Ok ([], Some s), w);
  ent_Create _ _ _ _ _ w := (Ok (Some tt, Some tt), w);
  ent_Open _ s _ w := (Ok (Some s), w);
  ent_Remove _ _ w := (Ok (), w);
  ent_Clunk _ _ w := (Ok (), w);
  ent_Stat _ _ w := (Ok (mkDir 0 0 (mkQid QTDIR 0 1) DMDIR (mkTime 0 0) (mkTime 0 0) 0 "/" "" "" ""), w);
  ent_WStat _ _ _ w := (Ok (), w)
|}.

Lemma auth_fid_unusable_witness :
  fst (Attach (FS := strictFS) None 2 1 "u" "/"
         (snd (Auth (FS := strictFS) None 1 "u" "/" (SFileSys_new (FS := strictFS) tt))))
  = Err ErrUnknownfid.
Proof.
  exact (proj1 (auth_fid_unusable (FS := strictFS) None 1 "u" "/"
           (SFileSys_new (FS := strictFS) tt) aqid
           (snd (Auth (FS := strictFS) None 1 "u" "/" (SFileSys_new (FS := strictFS) tt)))
           (quiescent_new (FS := strictFS) tt) ltac:(discriminate)
           ltac:(apply pair_fst; vm_compute; reflexivity)
           2 0 0 [] None "u" "/")).
Defined.

(** Create of a directory that the server makes but cannot open to read
    never returns: to undo it, Create clunks the fid through delRef, which
    waits for the mutex that Create itself holds. *)
Theorem create_self_deadlock `{FS : FileSys} ctx parent name perm mode s sf dirent ent f w e w' :
  quiescent s → name ≠ "." → name ≠ ".." →
  t_fids (abs s) !! parent = Some sf → sf_Ent sf = Some dirent →
  IsDir dirent (s_world s) = true →
  ent_Create ctx dirent name perm mode (s_world s) = (Ok (Some ent, Some f), w) →
  IsDir ent w = true → ent_OpenDir ctx ent w = (Err e, w') →
  fst (Create ctx parent name perm mode s) = Hang "mutex is locked".
Proof.
  intros Hq H1 H2 Hf He Hd Hc Hde Ho.
  destruct (refines_Create ctx parent name perm mode s Hq) as (s' & -> & _).
  unfold spec_Create. rewrite decide_False by naive_solver. unfold on_fid. rewrite Hf.
  destruct sf as [[ent0|] file md]; [|done]. cbn in He |- *. injection He as ->.
  unfold spec_create. change (t_world (abs s)) with (s_world s).
  by rewrite Hd, Hc, Hde, Ho.
Qed.

Definition strict_attached : @session strictFS :=
  snd (Attach (FS := strictFS) None 1 NOFID "u" "/" (SFileSys_new (FS := strictFS) tt)).

Lemma create_self_deadlock_witness :
  fst (Create (FS := strictFS) None 1 "new" 0x800001C0 OREAD strict_attached)
  = Hang "mutex is locked".
Proof.
  apply (create_self_deadlock (FS := strictFS) None 1 "new" 0x800001C0 OREAD strict_attached
           (mkSFid (FS := strictFS) (Some tt) None 0) tt tt tt tt ErrPerm tt);
    try reflexivity; try discriminate.
  eapply (quiescent_Attach (FS := strictFS) None 1 "u" "/" (SFileSys_new (FS := strictFS) tt));
    [apply quiescent_new|]. reflexivity.
Defined.
