(* ===== verification/Concurrent.v ===== *)
(** * Concurrent: several requests on one session

    ServeConn runs the handler of each request in a goroutine of its own, so
    calls on one session overlap.  Here the operations of sfilesys.go are
    programs over atomic actions on the state they share: the map of fids
    (sync.Map), the mutexes, the fields of SFids, and calls of the file
    server, each of which counts as one action.  A program is a tree: an
    action and what follows each of its results.

    The same operations in SFileSys run without interruption; a program run
    alone computes exactly what they compute ([Handle_solo]). *)
From S2P Require Import Prelude Types Encoding Path Readdir FileSys SFileSys SessionSpec Session.
From S2P Require Import SSession.

Module Concurrent.

Section Code.
Context `{FS : FileSys}.

(** ** Actions and programs *)

(** [ALoadOrStore fid] makes a locked SFid and stores it unless the fid is
    taken.  [ADirRead] reads through a directory reader, which changes in
    its SFid. *)
Inductive action : Type → Type :=
| ALoad (fid : Z) : action (option Z)
| ALoadOrStore (fid : Z) : action (option Z)
| ALoadAndDelete (fid : Z) : action (option Z)
| ADelete (fid : Z) : action unit
| ALock (r : Z) : action unit
| AUnlock (r : Z) : action unit
| AGet (r : Z) : action SFid
| APut (r : Z) (sf : SFid) : action unit
| ADirRead (ctx : context) (r : Z) (rd : Readdir (list Dir * bool * Iter)) (count offset : Z)
  : action (bytes * option error)
| AWorld {A} (m : World → result error A * World) : action A.

(** What an action does to the session. *)
Definition perform {A} (a : action A) : M A :=
  match a in action A return M A with
  | ALoad fid => refs_Load fid
  | ALoadOrStore fid =>
      r ← new_locked;
      found ← refs_Load fid;
      match found with
      | Some _ => mret None
      | None => refs_Store fid r;; mret (Some r)
      end
  | ALoadAndDelete fid =>
      found ← refs_Load fid;
      match found with
      | None => mret None
      | Some r => refs_Delete fid;; mret (Some r)
      end
  | ADelete fid => refs_Delete fid
  | ALock r => lock r
  | AUnlock r => unlock r
  | AGet r => SFileSys.get r
  | APut r sf => put r sf
  | ADirRead ctx r rd count offset => File_Read ctx r (FDir rd) count offset
  | AWorld m => world m
  end.

Inductive code (A : Type) : Type :=
| Done (r : result error A)
| Act {B : Type} (a : action B) (k : result error B → code A).
#[global] Arguments Done {A} r.
#[global] Arguments Act {A B} a k.

(** What follows the result of a program, whatever it is. *)
Fixpoint catch {A B} (m : code A) (h : result error A → code B) : code B :=
  match m with
  | Done r => h r
  | Act a k => Act a (λ x, catch (k x) h)
  end.

#[global] Instance code_ret : MRet code := λ A a, Done (Ok a).
#[global] Instance code_bind : MBind code := λ A B f m,
  catch m (λ r, match r with
                | Ok a => f a
                | Err e => Done (Err e)
                | Panic w => Done (Panic w)
                | Hang w => Done (Hang w)
                end).

Definition act {A} (a : action A) : code A := Act a Done.
Definition fail {A} (e : error) : code A := Done (Err e).
Definition panic {A} (why : string) : code A := Done (Panic why).
Definition ask {A} (f : World → A) : code A := act (AWorld (λ w, (Ok (f w), w))).

Definition try {A} (m : code A) : code (error + A) :=
  catch m (λ r, match r with
                | Ok a => mret (inr a)
                | Err e => mret (inl e)
                | Panic w => Done (Panic w)
                | Hang w => Done (Hang w)
                end).
Definition finally {A} (m : code A) (cleanup : code unit) : code A :=
  catch m (λ r, match r with
                | Ok a => cleanup;; mret a
                | Err e => cleanup;; fail e
                | Panic w => Done (Panic w)
                | Hang w => Done (Hang w)
                end).
Definition refail {A} (m : code A) : code A :=
  catch m (λ r, match r with Err e => fail (E9p (Error_ e)) | _ => Done r end).

(** ** The operations of sfilesys.go *)

Definition getRef (fid : Z) : code Z :=
  if decide (fid = NOFID) then fail ErrUnknownfid
  else
    found ← act (ALoad fid);
    match found with
    | None => fail ErrUnknownfid
    | Some r =>
        act (ALock r);;
        sf ← act (AGet r);
        match sf_Ent sf with
        | None => act (AUnlock r);; fail ErrUnknownfid
        | Some _ => mret r
        end
    end.

Definition newRef (fid : Z) : code Z :=
  if decide (fid = NOFID) then fail ErrUnknownfid
  else
    stored ← act (ALoadOrStore fid);
    match stored with
    | None => fail ErrDupfid
    | Some r => mret r
    end.

Definition ent_of (r : Z) : code Dirent :=
  sf ← act (AGet r);
  match sf_Ent sf with
  | Some ent => mret ent
  | None => panic "nil pointer dereference"
  end.

Definition link (r : Z) (ent : Dirent) : code unit :=
  sf ← act (AGet r); act (APut r (mkSFid (Some ent) (sf_File sf) (sf_Mode sf))).

Definition delRefAction (ctx : context) (r : Z) (remove : bool) : code unit :=
  ent ← ent_of r;
  err2 ← try (act (AWorld (if remove then ent_Remove ctx ent else ent_Clunk ctx ent)));
  sf ← act (AGet r);
  act (APut r (mkSFid None (sf_File sf) (sf_Mode sf)));;
  match combine_errors None (match err2 with inl e => Some e | inr _ => None end) with
  | Some e => fail e
  | None => mret ()
  end.

Definition delRef (ctx : context) (fid : Z) (remove : bool) : code unit :=
  found ← act (ALoadAndDelete fid);
  match found with
  | None => fail ErrUnknownfid
  | Some r =>
      act (ALock r);;
      finally
        (sf ← act (AGet r);
         match sf_Ent sf with
         | None => mret ()
         | Some _ => delRefAction ctx r remove
         end)
        (act (AUnlock r))
  end.

Definition Auth (ctx : context) (afid : Z) (uname aname : string) : code Qid :=
  if decide (afid = NOFID) then mret aqid
  else
    req ← ask (RequireAuth ctx);
    if negb req then fail (E9p "no auth")
    else
      aref ← newRef afid;
      finally
        (r ← try (act (AWorld (Auth_ ctx uname aname)));
         match r with
         | inl e => act (ADelete afid);; fail e
         | inr afile =>
             sf ← act (AGet aref);
             act (APut aref (mkSFid (sf_Ent sf) (FUser <$> afile) (sf_Mode sf)));;
             mret aqid
         end)
        (act (AUnlock aref)).

Definition Attach_new (ctx : context) (fid : Z) (uname aname : string) (af : option File)
    : code Qid :=
  ref ← newRef fid;
  finally
    (r ← try (act (AWorld (Attach_ ctx uname aname af)));
     match r with
     | inl e => act (ADelete fid);; fail e
     | inr ent => link ref ent;; ask (ent_Qid ent)
     end)
    (act (AUnlock ref)).

Definition Attach (ctx : context) (fid afid : Z) (uname aname : string) : code Qid :=
  if decide (afid = NOFID) then Attach_new ctx fid uname aname None
  else
    r ← try (getRef afid);
    match r with
    | inl _ => fail ErrUnknownfid
    | inr aref =>
        sf ← act (AGet aref);
        match sf_File sf with
        | None => fail ErrUnknownfid                (* aref stays locked *)
        | Some file =>
            finally
              (match file with
               | FUser f =>
                   if is_AuthFile f then
                     ok ← ask (Success f);
                     if negb ok then fail ErrPerm
                     else Attach_new ctx fid uname aname (Some f)
                   else fail ErrUnknownfid
               | FDir _ => fail ErrUnknownfid
               end)
              (act (AUnlock aref))
        end
    end.

Definition Clunk (ctx : context) (fid : Z) : code unit := delRef ctx fid false.
Definition Remove (ctx : context) (fid : Z) : code unit := delRef ctx fid true.

Definition EnsureNonNil {A} (x : option A) : code A :=
  match x with
  | Some a => mret a
  | None => fail (E9p "invalid result")
  end.

Definition walk_ent (ctx : context) (ref : Z) (names : list string)
    : code (list Qid * Dirent) :=
  ent ← ent_of ref;
  if decide (names = []) then
    r ← act (AWorld (ent_Walk ctx ent []));
    found ← EnsureNonNil r.2;
    mret ([], found)
  else
    dir ← ask (IsDir ent);
    if negb dir then fail (E9p "not a directory")
    else
      r ← act (AWorld (ent_Walk ctx ent names));
      found ← EnsureNonNil r.2;
      mret (r.1, found).

Definition walk_same (ctx : context) (ref : Z) (names : list string) : code (list Qid) :=
  if decide (names = []) then mret []
  else
    '(qids, found) ← walk_ent ctx ref names;
    if decide (length qids = 0)%nat then mret []
    else if decide (length qids ≠ length names) then mret qids
    else
      ent ← ent_of ref;
      try (act (AWorld (ent_Clunk ctx ent)));;
      link ref found;;
      mret qids.

Definition walk_new (ctx : context) (ref newref newfid : Z) (names : list string)
    : code (list Qid) :=
  let drop := act (ADelete newfid);; act (AUnlock newref) in
  r ← try (walk_ent ctx ref names);
  match r with
  | inl e => act (AUnlock ref);; drop;; fail e
  | inr (qids, found) =>
      if decide (names ≠ [] ∧ length qids = 0%nat) then act (AUnlock ref);; drop;; mret []
      else if decide (length qids ≠ length names) then act (AUnlock ref);; drop;; mret qids
      else
        act (AUnlock ref);;
        finally (link newref found;; mret qids) (act (AUnlock newref))
  end.

Definition Walk (ctx : context) (fid newfid : Z) (names : list string) : code (list Qid) :=
  if decide (ValidPath names < 0) then fail (E9p "Non-normalized path")
  else
    ref ← getRef fid;
    if decide (newfid = fid) then finally (walk_same ctx ref names) (act (AUnlock ref))
    else
      r ← try (newRef newfid);
      match r with
      | inl e => act (AUnlock ref);; fail e
      | inr newref => walk_new ctx ref newref newfid names
      end.

Definition File_Read (ctx : context) (r : Z) (file : sfile) (count offset : Z)
    : code (bytes * option error) :=
  match file with
  | FUser f => act (AWorld (file_Read ctx f count offset))
  | FDir rd => act (ADirRead ctx r rd count offset)
  end.

Definition File_Write (ctx : context) (file : sfile) (p : bytes) (offset : Z)
    : code (Z * option error) :=
  match file with
  | FUser f => act (AWorld (file_Write ctx f p offset))
  | FDir _ => match Readdir_Write with
              | Ok n => mret (n, None)
              | Err e => mret (0, Some e)
              | Panic w => panic w
              | Hang w => Done (Hang w)
              end
  end.

Definition Read (ctx : context) (fid count offset : Z) : code (bytes * option error) :=
  ref ← getRef fid;
  finally
    (sf ← act (AGet ref);
     match sf_File sf with
     | None => fail (E9p "no file open")
     | Some file =>
         if decide (Z.land (sf_Mode sf) OEXEC = OWRITE) then fail ErrNoread
         else File_Read ctx ref file count offset
     end)
    (act (AUnlock ref)).

Definition Write (ctx : context) (fid : Z) (p : bytes) (offset : Z) : code (Z * option error) :=
  ref ← getRef fid;
  finally
    (sf ← act (AGet ref);
     match sf_File sf with
     | None => fail (E9p "no file open")
     | Some file =>
         if decide (Z.land (sf_Mode sf) OEXEC ≠ OWRITE ∧ Z.land (sf_Mode sf) OEXEC ≠ ORDWR)
         then fail ErrNowrite
         else File_Write ctx file p offset
     end)
    (act (AUnlock ref)).

Definition openLocked (ctx : context) (sf : SFid) (mode : Z) : code SFid :=
  match sf_File sf, sf_Ent sf with
  | Some _, _ => fail (E9p "already open")
  | None, None => panic "nil pointer dereference"
  | None, Some ent =>
      dir ← ask (IsDir ent);
      if dir : bool then
        it ← act (AWorld (ent_OpenDir ctx ent));
        mret (mkSFid (Some ent) (Some (FDir (NewReaddir it))) mode)
      else
        f ← act (AWorld (ent_Open ctx ent mode));
        file ← EnsureNonNil f;
        mret (mkSFid (Some ent) (Some (FUser file)) mode)
  end.

Definition open_result (sf : SFid) : code (Qid * Z) :=
  match sf_Ent sf, sf_File sf with
  | Some ent, Some file =>
      q ← ask (ent_Qid ent);
      n ← ask (File_IOUnit file);
      mret (q, u32 n)
  | _, _ => panic "nil pointer dereference"
  end.

Definition Open (ctx : context) (fid mode : Z) : code (Qid * Z) :=
  ref ← getRef fid;
  finally
    (sf ← act (AGet ref);
     sf ← openLocked ctx sf mode;
     act (APut ref sf);;
     open_result sf)
    (act (AUnlock ref)).

(** The entry and file that [Dirent.Create] made. *)
Definition create_ent (ctx : context) (dirent : Dirent) (name : string) (perm mode : Z)
    : code (Dirent * File) :=
  refail (r ← act (AWorld (ent_Create ctx dirent name perm mode));
          ent ← EnsureNonNil r.1;
          file ← EnsureNonNil r.2;
          mret (ent, file)).

(** The file of the new entry: a directory reader if it is a directory.  If
    it cannot be opened, delRef locks the SFid of the fid again. *)
Definition create_file (ctx : context) (parent : Z) (ent : Dirent) (file : File) (mode : Z)
    (newdir : bool) : code (option sfile) :=
  if newdir then
    r ← try (openLocked ctx (mkSFid (Some ent) None 0) mode);
    match r with
    | inl e => try (delRef ctx parent false);; fail (E9p (Error_ e))
    | inr next => mret (sf_File next)
    end
  else mret (Some (FUser file)).

Definition Create (ctx : context) (parent : Z) (name : string) (perm mode : Z) : code (Qid * Z) :=
  if decide (name = "." ∨ name = "..") then fail (E9p "illegal filename")
  else
    ref ← refail (getRef parent);
    finally
      (dirent ← ent_of ref;
       dir ← ask (IsDir dirent);
       if negb dir then fail (E9p "create in non-directory")
       else
         '(ent, file) ← create_ent ctx dirent name perm mode;
         newdir ← ask (IsDir ent);
         file ← create_file ctx parent ent file mode newdir;
         act (APut ref (mkSFid (Some ent) file mode));;
         open_result (mkSFid (Some ent) file mode))
      (act (AUnlock ref)).

Definition Stat (ctx : context) (fid : Z) : code Dir :=
  ref ← getRef fid;
  finally (ent ← ent_of ref; act (AWorld (ent_Stat ctx ent))) (act (AUnlock ref)).

Definition WStat (ctx : context) (fid : Z) (dir : Dir) : code unit :=
  ref ← getRef fid;
  finally (ent ← ent_of ref; act (AWorld (ent_WStat ctx ent dir))) (act (AUnlock ref)).

(** ** The handler of ssesssion.go *)

Definition respond {A} (m : code A) (k : A → Message) : code Message := a ← m; mret (k a).
Definition respond_n {A} (m : code (A * option error)) (k : A → Message) : code Message :=
  '(a, err) ← m; match err with Some e => fail e | None => mret (k a) end.

Definition Handle (msize : Z) (ctx : context) (msg : Message) : code Message :=
  match msg with
  | MessageTauth afid uname aname => respond (Auth ctx afid uname aname) MessageRauth
  | MessageTattach fid afid uname aname =>
      respond (Attach ctx fid afid uname aname) MessageRattach
  | MessageTwalk fid newfid wnames => respond (Walk ctx fid newfid wnames) MessageRwalk
  | MessageTopen fid mode =>
      respond (Open ctx fid mode) (λ '(qid, iounit), MessageRopen qid iounit)
  | MessageTcreate fid name perm mode =>
      respond (Create ctx fid name perm mode) (λ '(qid, iounit), MessageRcreate qid iounit)
  | MessageTread fid offset count =>
      respond_n (Read ctx fid (read_count msize count) (int64 offset)) MessageRread
  | MessageTwrite fid offset data =>
      respond_n (Write ctx fid data (int64 offset)) (λ n, MessageRwrite (u32 n))
  | MessageTclunk fid => respond (Clunk ctx fid) (λ _, MessageRclunk)
  | MessageTremove fid => respond (Remove ctx fid) (λ _, MessageRremove)
  | MessageTstat fid => respond (Stat ctx fid) MessageRstat
  | MessageTwstat fid stat => respond (WStat ctx fid stat) (λ _, MessageRwstat)
  | _ => fail ErrUnknownMsg
  end.

(** ** A program run alone *)

(** A lock action waits while the mutex is locked. *)
Definition blocked {A} (a : action A) (s : session) : bool :=
  match a with
  | ALock r => match heap s !! r with Some (true, _) => true | _ => false end
  | _ => false
  end.

(** Nobody else unlocks what it waits for. *)
Fixpoint run {A} (c : code A) (s : session) : result error A * session :=
  match c with
  | Done r => (r, s)
  | Act a k =>
      if blocked a s then (Hang "mutex is locked", s)
      else let '(x, s) := perform a s in run (k x) s
  end.

(** ** Requests that run together *)

(** The SFids whose mutex the request holds, after an action. *)
Definition held_after {A} (a : action A) : result error A → gset Z → gset Z :=
  match a in action A return result error A → gset Z → gset Z with
  | ALock r => λ x H, match x with Ok _ => {[r]} ∪ H | _ => H end
  | AUnlock r => λ _ H, H ∖ {[r]}
  | ALoadOrStore _ => λ x H, match x with Ok (Some r) => {[r]} ∪ H | _ => H end
  | _ => λ _ H, H
  end.

(** A call of the file server that panics or never returns. *)
Definition fault {A} (a : action A) (x : result error A) : bool :=
  match a with
  | AWorld _ | ADirRead _ _ _ _ _ => negb (bool_decide (returns x))
  | _ => false
  end.

(** A goroutine of conn.serve: the request it handles, what is left to do,
    and, for the theorems only, the mutexes it holds. *)
Record thread := mkThread { t_msg : Message; t_code : code Message; t_held : gset Z }.

(** [faulted]: some call of the file server did not return. *)
Record config := mkConfig { shared : session; threads : list thread; faulted : bool }.

Definition finished (t : thread) : bool :=
  match t_code t with Done _ => true | Act _ _ => false end.

(** The next action of the [i]-th request. *)
Definition turn (i : nat) (c : config) : option config :=
  t ← threads c !! i;
  match t_code t with
  | Done _ => None
  | Act a k =>
      if blocked a (shared c) then None
      else
        let '(x, s) := perform a (shared c) in
        Some (mkConfig s
                (<[i := mkThread (t_msg t) (k x) (held_after a x (t_held t))]> (threads c))
                (faulted c || fault a x))
  end.

(** A request arrives: a goroutine is started for it. *)
Definition arrive (msize : Z) (ctx : context) (msg : Message) (c : config) : config :=
  mkConfig (shared c) (threads c ++ [mkThread msg (Handle msize ctx msg) ∅]) (faulted c).

Definition progress (c c' : config) : Prop := ∃ i, turn i c = Some c'.

Inductive step (msize : Z) (c : config) : config → Prop :=
| step_turn c' : progress c c' → step msize c c'
| step_arrive ctx msg : step msize c (arrive msize ctx msg c).

(** What a session at rest can become under any requests in any order. *)
Inductive reachable (msize : Z) : config → Prop :=
| reachable_rest s : quiescent s → reachable msize (mkConfig s [] false)
| reachable_step c c' : reachable msize c → step msize c c' → reachable msize c'.

(** [c], run alone, is the monadic program [m] of SFileSys. *)
Definition runs {A} (c : code A) (m : M A) : Prop := ∀ s, run c s = m s.

Lemma run_catch {A B} (m : code A) (h : result error A → code B) s :
  (∀ y s, run (h (Hang y)) s = (Hang y, s)) →
  run (catch m h) s = let '(r, s) := run m s in run (h r) s.
Proof.
  intros Hh. revert s. induction m as [r|B' a k IH]; intros s; [done|]. cbn [catch run].
  destruct (blocked a s); [by rewrite Hh|]. by destruct (perform a s).
Qed.

Lemma run_act {A} (a : action A) s : run (act a) s = perform a s.
Proof.
  cbn [run act]. destruct (blocked a s) eqn:E; [|by destruct (perform a s)].
  destruct a; try done. cbn in *. unfold lock. by repeat case_match.
Qed.

Lemma runs_done {A} (r : result error A) m : (∀ s, m s = (r, s)) → runs (Done r) m.
Proof. intros H s. by rewrite H. Qed.

Lemma runs_act {A} (a : action A) m : (∀ s, perform a s = m s) → runs (act a) m.
Proof. intros H s. by rewrite run_act. Qed.

Lemma runs_ask {A} (f : World → A) : runs (ask f) (SFileSys.ask f).
Proof. apply runs_act. by intros [w rs h]. Qed.

Lemma runs_bind {A B} (c : code A) (f : A → code B) m g :
  runs c m → (∀ a, runs (f a) (g a)) → runs (c ≫= f) (m ≫= g).
Proof.
  intros Hc Hf s. rewrite bind_run. unfold mbind, code_bind. rewrite run_catch, Hc by done.
  destruct (m s) as [[a|e|y|y] s']; [apply Hf|done..].
Qed.

Lemma runs_try {A} (c : code A) m : runs c m → runs (try c) (SFileSys.try m).
Proof.
  intros Hc s. unfold try, SFileSys.try. rewrite run_catch, Hc by done. by destruct (m s) as [[a|e|y|y] s'].
Qed.

Lemma runs_refail {A} (c : code A) m : runs c m → runs (refail c) (SFileSys.refail m).
Proof.
  intros Hc s. unfold refail, SFileSys.refail. rewrite run_catch, Hc by done.
  by destruct (m s) as [[a|e|y|y] s'].
Qed.

Lemma runs_finally {A} (c : code A) m cleanup cl :
  runs c m → runs cleanup cl → runs (finally c cleanup) (SFileSys.finally m cl).
Proof.
  intros Hc Hl s. unfold finally, SFileSys.finally. rewrite run_catch, Hc by done.
  destruct (m s) as [[a|e|y|y] s']; [| |done..]; unfold mbind, code_bind;
    rewrite run_catch, Hl by done; by destruct (cl s') as [[u|e'|y|y] s2].
Qed.

Lemma runs_newRef fid : runs (newRef fid) (SFileSys.newRef fid).
Proof.
  unfold newRef, SFileSys.newRef. case_decide; [by apply runs_done|]. intros s.
  cbn. unfold new_locked. mrun. by destruct (refs s !! fid).
Qed.

(** The actions, and [ALoadAndDelete], whose two cases SFileSys tells apart
    afterwards. *)
Lemma runs_LoadAndDelete {A} fid (e : error) (k : Z → code A) g :
  (∀ r, runs (k r) (g r)) →
  runs (found ← act (ALoadAndDelete fid); match found with None => fail e | Some r => k r end)
    (found ← refs_Load fid;
     match found with None => SFileSys.fail e | Some r => refs_Delete fid;; g r end).
Proof. intros Hk s. cbn. mrun. destruct (refs s !! fid) as [r|]; mrun; [apply Hk|done]. Qed.

Create HintDb solo.
#[local] Hint Resolve runs_ask runs_newRef : solo.

Ltac solo :=
  repeat first
    [ progress intros
    | apply runs_LoadAndDelete
    | apply runs_bind | apply runs_try | apply runs_refail | apply runs_finally
    | solve [auto with solo | by apply runs_act | by apply runs_done]
    | case_match; simplify_eq ].

Lemma runs_getRef fid : runs (getRef fid) (SFileSys.getRef fid).
Proof. unfold getRef, SFileSys.getRef. solo. Qed.
Lemma runs_ent_of r : runs (ent_of r) (SFileSys.ent_of r).
Proof. unfold ent_of, SFileSys.ent_of. solo. Qed.
Lemma runs_link r ent : runs (link r ent) (SFileSys.link r ent).
Proof. unfold link, SFileSys.link. solo. Qed.
Lemma runs_nonnil {A} (x : option A) : runs (EnsureNonNil x) (SFileSys.EnsureNonNil x).
Proof. unfold EnsureNonNil, SFileSys.EnsureNonNil. solo. Qed.
#[local] Hint Resolve runs_getRef runs_ent_of runs_link runs_nonnil : solo.
Lemma runs_delRefAction ctx r rm : runs (delRefAction ctx r rm) (SFileSys.delRefAction ctx r rm).
Proof. unfold delRefAction, SFileSys.delRefAction. solo. Qed.
#[local] Hint Resolve runs_delRefAction : solo.
Lemma runs_delRef ctx fid rm : runs (delRef ctx fid rm) (SFileSys.delRef ctx fid rm).
Proof. unfold delRef, SFileSys.delRef. solo. Qed.
Lemma runs_walk_ent ctx r names : runs (walk_ent ctx r names) (SFileSys.walk_ent ctx r names).
Proof. unfold walk_ent, SFileSys.walk_ent. solo. Qed.
#[local] Hint Resolve runs_delRef runs_walk_ent : solo.
Lemma runs_walk_same ctx r names : runs (walk_same ctx r names) (SFileSys.walk_same ctx r names).
Proof. unfold walk_same, SFileSys.walk_same. solo. Qed.
Lemma runs_walk_new ctx r nr nf names :
  runs (walk_new ctx r nr nf names) (SFileSys.walk_new ctx r nr nf names).
Proof. unfold walk_new, SFileSys.walk_new. solo. Qed.
Lemma runs_openLocked ctx sf mode : runs (openLocked ctx sf mode) (SFileSys.openLocked ctx sf mode).
Proof. unfold openLocked, SFileSys.openLocked. solo. Qed.
Lemma runs_open_result sf : runs (open_result sf) (SFileSys.open_result sf).
Proof. unfold open_result, SFileSys.open_result. solo. Qed.
Lemma runs_File_Read ctx r file n off :
  runs (File_Read ctx r file n off) (SFileSys.File_Read ctx r file n off).
Proof. unfold File_Read. destruct file; by apply runs_act. Qed.
Lemma runs_File_Write ctx file p off :
  runs (File_Write ctx file p off) (SFileSys.File_Write ctx file p off).
Proof. unfold File_Write, SFileSys.File_Write. solo. Qed.
Lemma runs_Attach_new ctx fid uname aname af :
  runs (Attach_new ctx fid uname aname af) (SFileSys.Attach_new ctx fid uname aname af).
Proof. unfold Attach_new, SFileSys.Attach_new. solo. Qed.
#[local] Hint Resolve runs_walk_same runs_walk_new runs_openLocked runs_open_result
  runs_File_Read runs_File_Write runs_Attach_new : solo.

Lemma runs_Create ctx parent name perm mode :
  runs (Create ctx parent name perm mode) (SFileSys.Create ctx parent name perm mode).
Proof. unfold Create, SFileSys.Create, create_ent, create_file. solo. Qed.
#[local] Hint Resolve runs_Create : solo.

Lemma run_respond {A} (c : code A) m k s :
  runs c m → run (respond c k) s = SSession.respond (m s) k.
Proof.
  intros Hc. unfold respond, SSession.respond, mbind, code_bind. rewrite run_catch, Hc by done.
  by destruct (m s) as [[a|e|y|y] s'].
Qed.

Lemma run_respond_n {A} (c : code (A * option error)) m k s :
  runs c m → run (respond_n c k) s = SSession.respond_n (m s) k.
Proof.
  intros Hc. unfold respond_n, SSession.respond_n, mbind, code_bind. rewrite run_catch, Hc by done.
  by destruct (m s) as [[[a [e|]]|e|y|y] s'].
Qed.

(** A request that runs alone is handled as in SSession. *)
Lemma Handle_solo msize ctx msg s :
  run (Handle msize ctx msg) s = SSession.Handle msize ctx msg s.
Proof.
  destruct msg; cbn [Handle SSession.Handle]; try done;
    first [apply run_respond | apply run_respond_n];
    cbn [sAuth sAttach sClunk sRemove sWalk sRead sWrite sOpen sCreate sStat sWStat SFileSys_Session];
    try unfold Auth, SFileSys.Auth; try unfold Attach, SFileSys.Attach;
    try unfold Walk, SFileSys.Walk; try unfold Open, SFileSys.Open;
    try unfold Read, SFileSys.Read; try unfold Write, SFileSys.Write;
    try unfold Stat, SFileSys.Stat; try unfold WStat, SFileSys.WStat; solo.
Qed.

End Code.

End Concurrent.
