(* ===== verification/RaceFree.v ===== *)
(** * RaceFree: what holds when requests on one session overlap

    Each request follows a protocol: it touches the fields of an SFid only
    while it holds its mutex, it unlocks only what it holds, and it waits for
    a mutex only when it holds none (but for one path of Create).  The
    protocol is proved for the program of each request with weakest
    preconditions over what the request holds ([wp]); the invariant of all
    requests together ([Inv]) follows from it, and from the invariant follow
    mutual exclusion, the absence of panics, and that requests get done. *)
From S2P Require Import Prelude Types Encoding Path Readdir FileSys SFileSys SessionSpec Session.
From S2P Require Import SleepFS SSession Concurrent.
Import Concurrent.

Module RaceFree.

(** The request holds the SFid in question. *)
Ltac held := cbn; simplify_map_eq; eauto using mk_is_Some.

Section Wp.
Context `{FS : FileSys}.

(** ** The protocol *)

(** The SFids a request knows, and those it holds with their contents. *)
Definition pre (cr : bool) (K : gset Z) (H : gmap Z SFid) {A} (a : action A) : Prop :=
  match a with
  | ALock r => r ∈ K ∧ (cr = true ∨ H = ∅)
  | AUnlock r | AGet r | APut r _ => is_Some (H !! r)
  | ADirRead _ r rd _ _ => ∃ sf, H !! r = Some sf ∧ sf_File sf = Some (FDir rd)
  | _ => True
  end.

(** The result of an action and what is known and held afterwards. *)
Definition post (K : gset Z) (H : gmap Z SFid) {A} (a : action A)
    : result error A → gset Z → gmap Z SFid → Prop :=
  match a in action A return result error A → gset Z → gmap Z SFid → Prop with
  | ALoad _ | ALoadAndDelete _ => λ x K' H',
      (x = Ok None ∧ K' = K ∨ ∃ r, x = Ok (Some r) ∧ K' = {[r]} ∪ K) ∧ H' = H
  | ALoadOrStore _ => λ x K' H',
      (x = Ok None ∧ K' = K ∧ H' = H) ∨
      ∃ r, x = Ok (Some r) ∧ H !! r = None ∧ K' = {[r]} ∪ K ∧ H' = <[r := mkSFid None None 0]> H
  | ADelete _ => λ x K' H', x = Ok () ∧ K' = K ∧ H' = H
  | ALock r => λ x K' H', x = Ok () ∧ K' = K ∧ H !! r = None ∧ ∃ sf, H' = <[r := sf]> H
  | AUnlock r => λ x K' H', x = Ok () ∧ K' = K ∧ H' = delete r H
  | AGet r => λ x K' H', ∃ sf, H !! r = Some sf ∧ x = Ok sf ∧ K' = K ∧ H' = H
  | APut r sf => λ x K' H', x = Ok () ∧ K' = K ∧ H' = <[r := sf]> H
  | ADirRead _ r _ _ _ => λ x K' H',
      returns x ∧ K' = K ∧ ∃ sf rd', H !! r = Some sf ∧
        H' = <[r := mkSFid (sf_Ent sf) (Some (FDir rd')) (sf_Mode sf)]> H
  | AWorld m => λ x K' H', returns x ∧ K' = K ∧ H' = H
  end.

(** [wp cr c Q K H]: a program that knows [K] and holds [H] follows the
    protocol and ends with [Q] of its result and of what it holds then.
    With [cr] it may wait for a mutex while it holds others. *)
Fixpoint wp (cr : bool) {A} (c : code A) (Q : result error A → gmap Z SFid → Prop)
    (K : gset Z) (H : gmap Z SFid) : Prop :=
  match c with
  | Done r => Q r H
  | Act a k => pre cr K H a ∧ ∀ x K' H', post K H a x K' H' → wp cr (k x) Q K' H'
  end.

Lemma wp_mono cr {A} (c : code A) (Q Q' : result error A → gmap Z SFid → Prop) K H :
  wp cr c Q K H → (∀ r H, Q r H → Q' r H) → wp cr c Q' K H.
Proof.
  intros Hc HQ. revert K H Hc. induction c as [r|B a k IH]; intros K H; cbn; [by apply HQ|].
  intros [Hp Hk]. split; [done|]. eauto.
Qed.

(** With what is known forgotten, as the rest of the program learns what it
    needs itself. *)
Lemma wp_catch cr {A B} (m : code A) (h : result error A → code B) Q K H :
  wp cr m (λ r H', ∀ K', wp cr (h r) Q K' H') K H → wp cr (catch m h) Q K H.
Proof.
  revert K H. induction m as [r|C a k IH]; intros K H; cbn; [done|].
  intros [Hp Hk]. split; [done|]. eauto.
Qed.

Lemma wp_bind cr {A B} (m : code A) (f : A → code B) (Q : result error B → gmap Z SFid → Prop) K H :
  wp cr m (λ r H', match r with
                   | Ok a => ∀ K', wp cr (f a) Q K' H'
                   | Err e => Q (Err e) H'
                   | Panic y => Q (Panic y) H'
                   | Hang y => Q (Hang y) H'
                   end) K H →
  wp cr (m ≫= f) Q K H.
Proof.
  intros Hm. apply wp_catch. eapply wp_mono; [exact Hm|]. intros [a|e|y|y] H' HQ K'; auto.
Qed.

Lemma wp_act cr {A B} (a : action A) (f : A → code B) (Q : result error B → gmap Z SFid → Prop) K H :
  pre cr K H a →
  (∀ x K' H', post K H a x K' H' →
     match x with
     | Ok b => wp cr (f b) Q K' H'
     | Err e => Q (Err e) H'
     | Panic y => Q (Panic y) H'
     | Hang y => Q (Hang y) H'
     end) →
  wp cr (act a ≫= f) Q K H.
Proof. intros Hp Hk. cbn. split; [done|]. intros x K' H' Hx. by specialize (Hk _ _ _ Hx); destruct x. Qed.

Lemma wp_try cr {A} (m : code A) (Q : result error (error + A) → gmap Z SFid → Prop) K H :
  wp cr m (λ r H', match r with
                   | Ok a => Q (Ok (inr a)) H'
                   | Err e => Q (Ok (inl e)) H'
                   | Panic y => Q (Panic y) H'
                   | Hang y => Q (Hang y) H'
                   end) K H → wp cr (try m) Q K H.
Proof. intros Hm. apply wp_catch. eapply wp_mono; [exact Hm|]. by intros [a|e|y|y]. Qed.

(** ** The helpers *)

Lemma wp_world cr {A} (m : World → result error A * World) Q K H :
  (∀ x, returns x → Q x H) → wp cr (act (AWorld m)) Q K H.
Proof. intros HQ. split; [done|]. intros x K' H' (Hr & -> & ->). cbn. auto. Qed.

Lemma wp_unlock cr r (Q : result error unit → gmap Z SFid → Prop) K H :
  is_Some (H !! r) → Q (Ok ()) (delete r H) → wp cr (act (AUnlock r)) Q K H.
Proof. intros Hr HQ. split; [done|]. by intros x K' H' (-> & -> & ->). Qed.

(** A body that keeps its mutex, which is unlocked at the end. *)
Lemma wp_locked cr {A} (m : code A) r Q K H :
  wp cr m (λ x H', returns x ∧ is_Some (H' !! r) ∧ Q x (delete r H')) K H →
  wp cr (finally m (act (AUnlock r))) Q K H.
Proof.
  intros Hm. apply wp_catch. eapply wp_mono; [exact Hm|]. intros x H' (Hx & Hr & HQ) K'.
  by destruct x; [apply wp_bind, wp_unlock..|done|done].
Qed.

Lemma wp_getRef cr fid (Q : result error Z → gmap Z SFid → Prop) K :
  Q (Err ErrUnknownfid) ∅ →
  (∀ r sf ent, sf_Ent sf = Some ent → Q (Ok r) {[r := sf]}) →
  wp cr (getRef fid) Q K ∅.
Proof.
  intros He Ho. unfold getRef. case_decide; [done|].
  apply wp_act; [done|]. intros x K' H' [[[-> ->]|(r & -> & ->)] ->]; [done|].
  apply wp_act; [split; [set_solver|by right]|]. intros x K' H' (-> & -> & _ & sf & ->).
  apply wp_act; [held|]. intros x K' H' (sf' & E & -> & -> & ->).
  rewrite lookup_insert_eq in E. injection E as <-.
  destruct (sf_Ent sf) as [ent|] eqn:E; [by apply (Ho r sf ent)|].
  apply wp_bind, wp_unlock; [held|]. intros K'.
  by rewrite delete_insert_eq, delete_empty.
Qed.

Lemma wp_newRef cr fid (Q : result error Z → gmap Z SFid → Prop) K H :
  (∀ e, Q (Err e) H) →
  (∀ r, H !! r = None → Q (Ok r) (<[r := mkSFid None None 0]> H)) →
  wp cr (newRef fid) Q K H.
Proof.
  intros He Ho. unfold newRef. case_decide; [by apply He|].
  apply wp_act; [done|]. intros x K' H' [(-> & -> & ->)|(r & -> & Hr & -> & ->)];
    [by apply He|by apply Ho].
Qed.

Lemma wp_ent_of cr r sf ent (Q : result error Dirent → gmap Z SFid → Prop) K H :
  H !! r = Some sf → sf_Ent sf = Some ent → Q (Ok ent) H → wp cr (ent_of r) Q K H.
Proof.
  intros Hr He HQ. apply wp_act; [held|]. intros x K' H' (sf' & E & -> & -> & ->).
  rewrite Hr in E. injection E as <-. by rewrite He.
Qed.

Lemma wp_link cr r ent sf (Q : result error unit → gmap Z SFid → Prop) K H :
  H !! r = Some sf →
  Q (Ok ()) (<[r := mkSFid (Some ent) (sf_File sf) (sf_Mode sf)]> H) → wp cr (link r ent) Q K H.
Proof.
  intros Hr HQ. apply wp_act; [held|]. intros x K' H' (sf' & E & -> & -> & ->).
  rewrite Hr in E. injection E as <-. split; [held|].
  by intros x K' H' (-> & -> & ->).
Qed.

Lemma wp_nonnil cr {A} (o : option A) (Q : result error A → gmap Z SFid → Prop) K H :
  (∀ x, returns x → Q x H) → wp cr (EnsureNonNil o) Q K H.
Proof. intros HQ. destruct o; by apply HQ. Qed.

Lemma wp_delRefAction cr ctx r rm sf ent (Q : result error unit → gmap Z SFid → Prop) K H :
  H !! r = Some sf → sf_Ent sf = Some ent →
  (∀ x sf', returns x → Q x (<[r := sf']> H)) → wp cr (delRefAction ctx r rm) Q K H.
Proof.
  intros Hr He HQ. apply wp_bind. eapply wp_ent_of; [done|done|]. intros K1.
  apply wp_bind, wp_try, wp_world. intros x Hx.
  assert (∀ (e : error + unit) K2, wp cr
    (sf ← act (AGet r); act (APut r (mkSFid None (sf_File sf) (sf_Mode sf)));;
     match e with inl e => fail e | inr _ => mret () end) Q K2 H) as Hrest.
  { intros e K2. apply wp_act; [held|]. intros x' K' H' (sf' & _ & -> & -> & ->).
    apply wp_act; [held|]. intros x' K' H' (-> & -> & ->). destruct e; by apply HQ. }
  destruct x as [u|e|y|y]; [apply (Hrest (inr u))|apply (Hrest (inl e))|done|done].
Qed.

Lemma wp_delRef cr ctx fid rm (Q : result error unit → gmap Z SFid → Prop) K H :
  cr = true ∨ H = ∅ → (∀ x, returns x → Q x H) → wp cr (delRef ctx fid rm) Q K H.
Proof.
  intros Hc HQ. apply wp_act; [done|]. intros x K' H' [[[-> ->]|(r & -> & ->)] ->]; [by apply HQ|].
  apply wp_act; [split; [set_solver|done]|]. intros x K' H' (-> & -> & Hn & sf & ->).
  apply wp_locked. apply wp_act; [held|].
  intros x K' H' (sf' & E & -> & -> & ->). rewrite lookup_insert_eq in E. injection E as <-.
  assert (∀ (x : result error unit) sf', returns x →
    returns x ∧ is_Some (<[r := sf']> H !! r) ∧ Q x (delete r (<[r := sf']> H))) as Hend.
  { intros x sf' Hx. rewrite lookup_insert_eq, delete_insert_id by done. eauto. }
  destruct (sf_Ent sf) as [ent|] eqn:E; [|by apply Hend].
  eapply wp_delRefAction; [by rewrite lookup_insert_eq|done|]. intros x sf' Hx.
  rewrite insert_insert_eq. by apply Hend.
Qed.

Lemma wp_ask cr {A} (f : World → A) (Q : result error A → gmap Z SFid → Prop) K H :
  (∀ x, returns x → Q x H) → wp cr (ask f) Q K H.
Proof. apply wp_world. Qed.

(** A program that leaves what is held alone and returns. *)
Definition quiet (cr : bool) {A} (c : code A) (H : gmap Z SFid) : Prop :=
  ∀ Q K, (∀ x, returns x → Q x H) → wp cr c Q K H.

Lemma quiet_bind cr {A B} (c : code A) (f : A → code B) H :
  quiet cr c H → (∀ a, quiet cr (f a) H) → quiet cr (c ≫= f) H.
Proof.
  intros Hc Hf Q K HQ. apply wp_bind, Hc. intros [a|e|y|y] Hx; [|by apply HQ|done..].
  intros K'. by apply Hf.
Qed.

Lemma quiet_done cr {A} (r : result error A) H : returns r → quiet cr (Done r) H.
Proof. intros Hr Q K HQ. by apply HQ. Qed.
Lemma quiet_ret cr {A} (a : A) H : quiet cr (mret a) H.
Proof. by apply quiet_done. Qed.
Lemma quiet_fail cr {A} e H : quiet cr (fail e : code A) H.
Proof. by apply quiet_done. Qed.
Lemma quiet_world cr {A} (m : World → result error A * World) H : quiet cr (act (AWorld m)) H.
Proof. intros Q K. apply wp_world. Qed.
Lemma quiet_ask cr {A} (f : World → A) H : quiet cr (ask f) H.
Proof. apply quiet_world. Qed.
Lemma quiet_nonnil cr {A} (o : option A) H : quiet cr (EnsureNonNil o) H.
Proof. intros Q K. apply wp_nonnil. Qed.
Lemma quiet_delete cr fid H : quiet cr (act (ADelete fid)) H.
Proof. intros Q K HQ. split; [done|]. intros x K' H' (-> & -> & ->). by apply HQ. Qed.
Lemma quiet_try cr {A} (c : code A) H : quiet cr c H → quiet cr (try c) H.
Proof.
  intros Hc Q K HQ. apply wp_try, Hc. intros [a|e|y|y] Hx; [by apply HQ..|done|done].
Qed.
Lemma quiet_refail cr {A} (c : code A) H : quiet cr c H → quiet cr (refail c) H.
Proof.
  intros Hc Q K HQ. apply wp_catch, Hc. intros [a|e|y|y] Hx K'; [by apply HQ..|done|done].
Qed.
Lemma quiet_ent_of cr r sf ent H :
  H !! r = Some sf → sf_Ent sf = Some ent → quiet cr (ent_of r) H.
Proof. intros Hr He Q K HQ. eapply wp_ent_of; [done|done|]. by apply HQ. Qed.
Lemma quiet_delRef cr ctx fid rm H : cr = true ∨ H = ∅ → quiet cr (delRef ctx fid rm) H.
Proof. intros Hc Q K. by apply wp_delRef. Qed.

Create HintDb quiet.
#[local] Hint Resolve quiet_ret quiet_fail quiet_world quiet_ask quiet_nonnil quiet_delete
  quiet_ent_of quiet_delRef : quiet.
#[local] Hint Extern 1 (returns _) => done : quiet.

Ltac quiet :=
  repeat first
    [ progress intros
    | apply quiet_bind | apply quiet_try | apply quiet_refail
    | solve [eauto with quiet]
    | case_match; simplify_eq ].

(** A fresh SFid, held until the end of the body. *)
Lemma quiet_new cr {A} fid (body : Z → code A) H :
  (∀ r Q K, H !! r = None →
     (∀ x sf, returns x → Q x (<[r := sf]> H)) →
     wp cr (body r) Q K (<[r := mkSFid None None 0]> H)) →
  quiet cr (ref ← newRef fid; finally (body ref) (act (AUnlock ref))) H.
Proof.
  intros Hb Q K HQ. apply wp_bind, wp_newRef; [intros e; by apply HQ|].
  intros r Hr K'. apply wp_locked, Hb; [done|]. intros x sf Hx.
  rewrite lookup_insert_eq, delete_insert_id by done. eauto.
Qed.

Lemma quiet_Attach_new cr ctx fid uname aname af H :
  quiet cr (Attach_new ctx fid uname aname af) H.
Proof.
  apply quiet_new. intros r Q K Hr HQ. apply wp_bind, wp_try, wp_world.
  intros [ent|e|y|y] Hx; [| |done..]; intros K'.
  - apply wp_bind. eapply wp_link; [apply lookup_insert_eq|]. intros K2.
    apply wp_ask. intros x' Hx'. rewrite insert_insert_eq. by apply HQ.
  - apply wp_bind, quiet_delete. intros [u|e'|y|y] Hx'; [intros K2|..]; by apply HQ.
Qed.

Lemma quiet_Auth cr ctx afid uname aname H : quiet cr (Auth ctx afid uname aname) H.
Proof.
  unfold Auth. case_decide; [quiet|]. apply quiet_bind; [quiet|]. intros [|]; [|quiet].
  apply quiet_new. intros r Q K Hr HQ. apply wp_bind, wp_try, wp_world.
  intros [f|e|y|y] Hx; [| |done..]; intros K'.
  - apply wp_act; [held|]. intros x K2 H2 (sf & _ & -> & -> & ->).
    apply wp_act; [held|]. intros x K3 H3 (-> & -> & ->). rewrite insert_insert_eq. by apply HQ.
  - apply wp_bind, quiet_delete. intros [u|e'|y|y] Hx'; [intros K2|..]; by apply HQ.
Qed.

(** ** Operations on one fid *)

(** A body that runs with the SFid [r] held and keeps it. *)
Definition keeps (cr : bool) {A} (r : Z) (sf : SFid) (c : code A) : Prop :=
  ∀ Q K, (∀ x sf', returns x → Q x {[r := sf']}) → wp cr c Q K {[r := sf]}.

Lemma keeps_quiet cr {A} r sf (c : code A) : quiet cr c {[r := sf]} → keeps cr r sf c.
Proof. intros Hc Q K HQ. apply Hc. auto. Qed.

Lemma keeps_bind cr {A B} r sf (c : code A) (f : A → code B) :
  quiet cr c {[r := sf]} → (∀ a, keeps cr r sf (f a)) → keeps cr r sf (c ≫= f).
Proof.
  intros Hc Hf Q K HQ. apply wp_bind, Hc. intros [a|e|y|y] Hx; [|by apply HQ|done..].
  intros K'. by apply Hf.
Qed.

Lemma keeps_get cr {A} r sf (f : SFid → code A) :
  keeps cr r sf (f sf) → keeps cr r sf (sf ← act (AGet r); f sf).
Proof.
  intros Hf Q K HQ. apply wp_act; [held|]. intros x K' H' (sf' & E & -> & -> & ->).
  simplify_map_eq. by apply Hf.
Qed.

Lemma keeps_put cr {A} r sf sf' (c : code A) :
  keeps cr r sf' c → keeps cr r sf (act (APut r sf');; c).
Proof.
  intros Hc Q K HQ. apply wp_act; [held|]. intros x K' H' (-> & -> & ->).
  rewrite insert_singleton_eq. by apply Hc.
Qed.

Lemma on_locked cr {A} fid (body : Z → code A) :
  (∀ r sf ent, sf_Ent sf = Some ent → keeps cr r sf (body r)) →
  quiet cr (ref ← getRef fid; finally (body ref) (act (AUnlock ref))) ∅.
Proof.
  intros Hb Q K HQ. apply wp_bind, wp_getRef; [by apply HQ|]. intros r sf ent He K'.
  apply wp_locked, (Hb r sf ent He). intros x sf' Hx.
  rewrite lookup_singleton_eq, delete_singleton_eq. eauto.
Qed.

Lemma quiet_Stat cr ctx fid : quiet cr (Stat ctx fid) ∅.
Proof.
  apply on_locked. intros r sf ent He. apply keeps_quiet, quiet_bind; [|quiet].
  by eapply quiet_ent_of; [apply lookup_singleton_eq|].
Qed.

Lemma quiet_WStat cr ctx fid dir : quiet cr (WStat ctx fid dir) ∅.
Proof.
  apply on_locked. intros r sf ent He. apply keeps_quiet, quiet_bind; [|quiet].
  by eapply quiet_ent_of; [apply lookup_singleton_eq|].
Qed.

Lemma quiet_Write cr ctx fid p offset : quiet cr (Write ctx fid p offset) ∅.
Proof.
  apply on_locked. intros r sf ent He. apply keeps_get, keeps_quiet.
  unfold File_Write, Readdir_Write. quiet.
Qed.

Lemma quiet_Read cr ctx fid count offset : quiet cr (Read ctx fid count offset) ∅.
Proof.
  apply on_locked. intros r sf ent He. apply keeps_get.
  destruct (sf_File sf) as [[f|rd]|] eqn:Hf; [| |apply keeps_quiet; quiet];
    (case_decide; [apply keeps_quiet; quiet|]); [apply keeps_quiet; cbn; quiet|].
  intros Q K HQ. split; [held|]. intros x K' H' (Hx & -> & sf' & rd' & _ & ->).
  rewrite insert_singleton_eq. by apply HQ.
Qed.

(** An SFid that was opened has an entry and a file. *)
Lemma wp_openLocked cr ctx sf ent mode (Q : result error SFid → gmap Z SFid → Prop) K H :
  sf_Ent sf = Some ent → (∀ e, Q (Err e) H) →
  (∀ file, Q (Ok (mkSFid (Some ent) (Some file) mode)) H) →
  wp cr (openLocked ctx sf mode) Q K H.
Proof.
  intros He Hf Ho. unfold openLocked. rewrite He. destruct (sf_File sf); [by apply Hf|].
  apply wp_bind, wp_ask. intros [[|]|e|y|y] Hx; [| |by apply Hf|done..]; intros K1;
    apply wp_bind, wp_world; intros [f|e|y|y] Hy; [..|by apply Hf|done|done];
    [|by apply Hf|done|done|]; intros K2; [by apply Ho|].
  destruct f as [f|]; [by apply Ho|by apply Hf].
Qed.

Lemma quiet_open_result cr ent file mode H :
  quiet cr (open_result (mkSFid (Some ent) (Some file) mode)) H.
Proof. unfold open_result. cbn [sf_Ent sf_File]. quiet. Qed.

Lemma quiet_Open cr ctx fid mode : quiet cr (Open ctx fid mode) ∅.
Proof.
  apply on_locked. intros r sf ent He. apply keeps_get. intros Q K HQ.
  apply wp_bind. eapply wp_openLocked; [done|intros e; by apply HQ|]. intros file K'.
  apply keeps_put; [|done]. apply keeps_quiet, quiet_open_result.
Qed.

(** ** Create: the one that may wait while it holds a mutex *)

Lemma wp_create_file ctx parent ent file mode newdir
    (Q : result error (option sfile) → gmap Z SFid → Prop) K H :
  (∀ e, Q (Err e) H) → (∀ f, Q (Ok (Some f)) H) →
  wp true (create_file ctx parent ent file mode newdir) Q K H.
Proof.
  intros He Ho. unfold create_file. destruct newdir; [|by apply Ho].
  apply wp_bind, wp_try. eapply wp_openLocked; [done| |].
  - intros e K'. apply wp_bind, quiet_try; [by apply quiet_delRef; left|].
    intros [u|e'|y|y] Hx; [intros K2; by apply He|by apply He|done..].
  - intros f K'. by apply Ho.
Qed.

Lemma quiet_Create ctx parent name perm mode : quiet true (Create ctx parent name perm mode) ∅.
Proof.
  unfold Create. case_decide; [quiet|]. intros Q K HQ. apply wp_bind, wp_catch, wp_getRef.
  { intros K'. by apply HQ. }
  intros r sf ent He K1 K2. apply wp_locked.
  apply (keeps_bind true r sf); [by eapply quiet_ent_of; [apply lookup_singleton_eq|]| |].
  - intros d. apply keeps_bind; [quiet|]. intros [|]; [|apply keeps_quiet; quiet].
    apply keeps_bind; [unfold create_ent; quiet|]. intros [ent' f].
    apply keeps_bind; [quiet|]. intros newdir Q' K' HQ'.
    apply wp_bind, wp_create_file; [intros e; by apply HQ'|]. intros file K3.
    apply keeps_put; [|done]. apply keeps_quiet, quiet_open_result.
  - intros x sf' Hx. rewrite lookup_singleton_eq, delete_singleton_eq. eauto.
Qed.

(** ** Walk *)

Lemma quiet_walk_ent cr ctx r sf ent names H :
  H !! r = Some sf → sf_Ent sf = Some ent → quiet cr (walk_ent ctx r names) H.
Proof.
  intros Hr He. unfold walk_ent. apply quiet_bind; [by eapply quiet_ent_of|]. quiet.
Qed.

Lemma keeps_walk_same cr ctx r sf ent names :
  sf_Ent sf = Some ent → keeps cr r sf (walk_same ctx r names).
Proof.
  intros He. pose proof (lookup_singleton_eq (M := gmap Z) r sf) as Hr.
  unfold walk_same. case_decide; [apply keeps_quiet; quiet|].
  apply keeps_bind; [by eapply quiet_walk_ent|]. intros [qids found].
  case_decide; [apply keeps_quiet; quiet|]. case_decide; [apply keeps_quiet; quiet|].
  apply keeps_bind; [by eapply quiet_ent_of|]. intros d.
  apply keeps_bind; [apply quiet_try; quiet|]. intros _ Q K HQ.
  apply wp_bind. eapply wp_link; [done|]. intros K'. rewrite insert_singleton_eq. by apply HQ.
Qed.

(** The new SFid is dropped. *)
Lemma wp_drop cr {A} (r nr newfid : Z) sf sf' (x : result error A)
    (Q : result error A → gmap Z SFid → Prop) K :
  nr ≠ r → Q x ∅ →
  wp cr (act (AUnlock r);; (act (ADelete newfid);; act (AUnlock nr));; Done x) Q K
    (<[nr := sf']> {[r := sf]}).
Proof.
  intros Hne HQ. apply wp_act; [held|]. intros y K1 H1 (-> & -> & ->).
  rewrite delete_insert_ne, delete_singleton_eq by done. apply wp_bind.
  apply wp_act; [done|]. intros y K2 H2 (-> & -> & ->).
  apply wp_unlock; [held|]. intros K3. by rewrite delete_insert_eq, delete_empty.
Qed.

Lemma wp_walk_new cr ctx r nr newfid names sf ent
    (Q : result error (list Qid) → gmap Z SFid → Prop) K :
  nr ≠ r → sf_Ent sf = Some ent → (∀ x, returns x → Q x ∅) →
  wp cr (walk_new ctx r nr newfid names) Q K (<[nr := mkSFid None None 0]> {[r := sf]}).
Proof.
  intros Hne He HQ. unfold walk_new. apply wp_bind, wp_try.
  eapply quiet_walk_ent; [by simplify_map_eq|done|].
  intros [[qids found]|e|y|y] Hx; [| |done..]; intros K'.
  - case_decide; [by apply wp_drop; [|apply HQ]|]. case_decide; [by apply wp_drop; [|apply HQ]|].
    apply wp_act; [held|]. intros y K1 H1 (-> & -> & ->).
    rewrite delete_insert_ne, delete_singleton_eq by done.
    apply wp_locked, wp_bind. eapply wp_link; [apply lookup_insert_eq|]. intros K2.
    split_and!; [done|held|]. rewrite !delete_insert_eq, delete_empty. by apply HQ.
  - apply wp_drop; [done|]. by apply HQ.
Qed.

Lemma quiet_Walk cr ctx fid newfid names : quiet cr (Walk ctx fid newfid names) ∅.
Proof.
  unfold Walk. case_decide; [quiet|]. case_decide as Hf.
  { apply on_locked. intros r sf ent He. by eapply keeps_walk_same. }
  intros Q K HQ. apply wp_bind, wp_getRef; [by apply HQ|]. intros r sf ent He K'.
  apply wp_bind, wp_try, wp_newRef.
  - intros e K1. apply wp_bind, wp_unlock; [held|]. intros K2.
    rewrite delete_singleton_eq. by apply HQ.
  - intros nr Hn K1. eapply wp_walk_new; [|done..]. intros ->. by simplify_map_eq.
Qed.

(** ** Attach, and the whole handler *)

Lemma wp_Attach cr ctx fid afid uname aname (Q : result error Qid → gmap Z SFid → Prop) K :
  (∀ x, returns x → Q x ∅) →
  (∀ H, afid ≠ NOFID → Q (Err ErrUnknownfid) H) →
  wp cr (Attach ctx fid afid uname aname) Q K ∅.
Proof.
  intros HQ Hl. unfold Attach. case_decide; [by apply quiet_Attach_new|].
  apply wp_bind, wp_try, wp_getRef; [intros K'; by apply HQ|]. intros r sf ent He K'.
  apply wp_act; [held|]. intros x K1 H1 (sf' & E & -> & -> & ->). simplify_map_eq.
  destruct (sf_File sf') as [file|]; [|by apply Hl].
  apply wp_locked. assert (∀ x : result error Qid, returns x →
    returns x ∧ is_Some (({[r := sf']} : gmap Z SFid) !! r) ∧ Q x (delete r {[r := sf']})) as Hend.
  { intros x Hx. rewrite lookup_singleton_eq, delete_singleton_eq. eauto. }
  destruct file as [f|rd]; [|by apply Hend]. case_match; [|by apply Hend].
  eapply (quiet_bind cr (ask (Success f))); [quiet| |exact Hend].
  intros [|]; [apply quiet_Attach_new|quiet].
Qed.

(** How a request ends: it has returned, and holds nothing, unless it is an
    attach that was refused because its auth fid has no file. *)
Definition ends (msg : Message) (r : result error Message) (H : gmap Z SFid) : Prop :=
  returns r ∧
  (H = ∅ ∨ ∃ fid afid uname aname,
     msg = MessageTattach fid afid uname aname ∧ afid ≠ NOFID ∧ r = Err ErrUnknownfid).

Definition is_create (msg : Message) : bool :=
  match msg with MessageTcreate _ _ _ _ => true | _ => false end.

Lemma wp_respond cr {A} (c : code A) k Q K :
  wp cr c (λ r H, Q (k <$> r) H) K ∅ → wp cr (respond c k) Q K ∅.
Proof.
  intros Hc. apply wp_bind. eapply wp_mono; [exact Hc|]. by intros [a|e|y|y] H.
Qed.

Lemma ends_quiet msg cr {A} (c : code A) k K :
  quiet cr c ∅ → wp cr (respond c k) (ends msg) K ∅.
Proof.
  intros Hc. apply wp_respond, Hc. intros x Hx. split; [|by left]. by destruct x.
Qed.

Lemma ends_quiet_n msg cr {A} (c : code (A * option error)) k K :
  quiet cr c ∅ → wp cr (respond_n c k) (ends msg) K ∅.
Proof.
  intros Hc. apply (quiet_bind cr c); [done|quiet|]. intros x Hx. by split; [|left].
Qed.
#[local] Hint Resolve quiet_Auth quiet_Walk quiet_Open quiet_Create quiet_Read quiet_Write
  quiet_Stat quiet_WStat : quiet.

(** Every request follows the protocol. *)
Lemma wp_Handle msize ctx msg K :
  wp (is_create msg) (Handle msize ctx msg) (ends msg) K ∅.
Proof.
  destruct msg; cbn [Handle is_create];
    try (apply ends_quiet; by eauto with quiet);
    try (apply ends_quiet_n; by eauto with quiet);
    try (by split; [|left]).
  apply wp_respond, wp_Attach.
  - intros x Hx. split; [by destruct x|by left].
  - intros H Ha. split; [done|]. right. eauto 10.
Qed.
End Wp.

(** ** All requests together *)

Section Inv.
Context `{FS : FileSys}.

(** What a request knows and holds, in the session. *)
Definition view_ok (s : session) (K : gset Z) (H : gmap Z SFid) : Prop :=
  K ⊆ dom (heap s) ∧ ∀ r sf, H !! r = Some sf → heap s !! r = Some (true, sf).

Definition refs_ok (s : session) : Prop := ∀ fid r, refs s !! fid = Some r → r ∈ dom (heap s).

(** What an action of one request means for the others: mutexes it takes were
    free and those it gives up are free, other SFids do not change, and what
    it learns it learned from the map of fids. *)
Record frame (s s' : session) (K K' : gset Z) (H H' : gmap Z SFid) : Prop := {
  fr_dom : dom (heap s) ⊆ dom (heap s');
  fr_heap r : r ∈ dom (heap s) → H !! r = None → H' !! r = None → heap s' !! r = heap s !! r;
  fr_take r sf : is_Some (H' !! r) → H !! r = None → heap s !! r ≠ Some (true, sf);
  fr_give r sf : is_Some (H !! r) → H' !! r = None → heap s' !! r ≠ Some (true, sf);
  fr_refs fid r : refs s' !! fid = Some r → is_Some (H' !! r) ∨ refs s !! fid = Some r;
  fr_known r : r ∈ K' → r ∈ K ∨ is_Some (H' !! r) ∨ ∃ fid, refs s !! fid = Some r
}.

(** An action that leaves the heap alone. *)
Lemma frame_quiet s s' K K' H :
  heap s' = heap s → refs s' ⊆ refs s →
  (∀ r, r ∈ K' → r ∈ K ∨ ∃ fid, refs s !! fid = Some r) → frame s s' K K' H H.
Proof.
  intros Hh Hr Hk. split; rewrite ?Hh; [done|done|..].
  - intros r sf [? E] ?. congruence.
  - intros r sf [? E] ?. congruence.
  - intros fid r Hf. right. by eapply lookup_weaken.
  - intros r Hr'. destruct (Hk r Hr'); auto.
Qed.

(** An action that changes one SFid, held before or after. *)
Lemma frame_update s w r x K H H' :
  r ∈ dom (heap s) →
  (∀ r', r' ≠ r → H' !! r' = H !! r') →
  (H !! r = None → is_Some (H' !! r) → ∀ sf, heap s !! r ≠ Some (true, sf)) →
  (H' !! r = None → ∀ sf, x ≠ (true, sf)) →
  is_Some (H !! r) ∨ is_Some (H' !! r) →
  frame s (mkSession w (refs s) (<[r := x]> (heap s))) K K H H'.
Proof.
  intros Hd Hne Ht Hg Ho. split; cbn.
  - set_solver.
  - intros r' Hr' H1 H2. rewrite lookup_insert_ne; [done|]. intros <-.
    destruct Ho as [[? E]|[? E]]; congruence.
  - intros r' sf Hs Hn. destruct (decide (r' = r)) as [->|Hr']; [by apply Ht|].
    rewrite Hne, Hn in Hs by done. by destruct Hs.
  - intros r' sf Hs Hn. destruct (decide (r' = r)) as [->|Hr'].
    + rewrite lookup_insert_eq. intros [= E]. by eapply Hg.
    + rewrite Hne in Hn by done. rewrite Hn in Hs. by destruct Hs.
  - by right.
  - by left.
Qed.

Lemma view_ok_insert s w rs r b sf K H H' :
  view_ok s K H → (∀ r' sf', H' !! r' = Some sf' → r' ≠ r → H !! r' = Some sf') →
  (∀ sf', H' !! r = Some sf' → b = true ∧ sf' = sf) →
  view_ok (mkSession w rs (<[r := (b, sf)]> (heap s))) K H'.
Proof.
  intros [Hk Ho] Hne Hr. split; cbn; [set_solver|]. intros r' sf' Hs.
  destruct (decide (r' = r)) as [->|Hr'].
  - destruct (Hr _ Hs) as [-> ->]. apply lookup_insert_eq.
  - rewrite lookup_insert_ne by done. eauto.
Qed.

(** [a] does what its postcondition says, and no more. *)
Definition sound {A} (a : action A) : Prop :=
  ∀ cr s K H, pre cr K H a → blocked a s = false → view_ok s K H → refs_ok s →
    let '(x, s') := perform a s in
    fault a x = false →
    refs_ok s' ∧ ∃ K' H', post K H a x K' H' ∧ view_ok s' K' H' ∧
      held_after a x (dom H) = dom H' ∧ frame s s' K K' H H'.

Lemma sound_ALoad fid : sound (ALoad fid).
Proof.
  intros cr s K H _ _ Hv Hr _. split; [done|]. destruct (refs s !! fid) as [r|] eqn:E.
  - exists ({[r]} ∪ K), H. pose proof (Hr _ _ E). split; [|split; [|split]].
    + split; [|done]. right. eauto.
    + split; [|apply Hv]. pose proof (proj1 Hv). set_solver.
    + done.
    + apply frame_quiet; [done|done|]. set_solver.
  - exists K, H. split; [split; auto|]. split; [done|]. split; [done|].
    apply frame_quiet; auto.
Qed.

Lemma sound_ALoadAndDelete fid : sound (ALoadAndDelete fid).
Proof.
  intros cr s K H _ _ Hv Hr. cbn [perform]. mrun. destruct (refs s !! fid) as [r|] eqn:E; mrun; intros _.
  - split; [intros fid' r' E'; cbn in E'; apply lookup_delete_Some in E' as [_ E']; by eapply Hr|].
    exists ({[r]} ∪ K), H. pose proof (Hr _ _ E). split; [|split; [|split]].
    + split; [|done]. right. eauto.
    + split; [|apply Hv]. pose proof (proj1 Hv). cbn. set_solver.
    + done.
    + apply frame_quiet; [done|apply delete_subseteq|]. set_solver.
  - split; [done|]. exists K, H. split; [split; auto|]. split; [done|]. split; [done|].
    apply frame_quiet; auto.
Qed.

Lemma sound_ADelete fid : sound (ADelete fid).
Proof.
  intros cr s K H _ _ Hv Hr _.
  split; [intros fid' r' E'; cbn in E'; apply lookup_delete_Some in E' as [_ E']; by eapply Hr|].
  exists K, H. split; [done|]. split; [done|]. split; [done|].
  apply frame_quiet; [done|apply delete_subseteq|auto].
Qed.

Lemma sound_AWorld {A} (m : World → result error A * World) : sound (AWorld m).
Proof.
  intros cr s K H _ _ Hv Hr. cbn [perform]. unfold world. destruct (m (s_world s)) as [x w].
  intros Hf. split; [done|]. exists K, H. apply negb_false_iff, bool_decide_eq_true in Hf.
  split; [done|]. split; [done|]. split; [done|]. apply frame_quiet; auto.
Qed.

Lemma sound_AGet r : sound (AGet r).
Proof.
  intros cr s K H [sf Hs] _ Hv Hr. cbn [perform]. unfold SFileSys.get.
  rewrite (proj2 Hv _ _ Hs). intros _. split; [done|]. exists K, H.
  split; [by eexists|]. split; [done|]. split; [done|]. apply frame_quiet; auto.
Qed.

Lemma refs_ok_insert s w r x :
  refs_ok s → refs_ok (mkSession w (refs s) (<[r := x]> (heap s))).
Proof. intros Hr fid r' E. cbn in *. pose proof (Hr _ _ E). set_solver. Qed.

Lemma view_dom s K H r sf : view_ok s K H → H !! r = Some sf → r ∈ dom (heap s).
Proof. intros [_ Ho] Hs. apply elem_of_dom. eauto. Qed.

(** The contents of a held SFid change. *)
Lemma update_held s w K H r sf sf' :
  view_ok s K H → refs_ok s → H !! r = Some sf →
  let s' := mkSession w (refs s) (<[r := (true, sf')]> (heap s)) in
  refs_ok s' ∧ view_ok s' K (<[r := sf']> H) ∧ dom H = dom (<[r := sf']> H) ∧
  frame s s' K K H (<[r := sf']> H).
Proof.
  intros Hv Hr Hs. split; [by apply refs_ok_insert|]. split; [|split].
  - eapply view_ok_insert; [done|..]; intros; by simplify_map_eq.
  - rewrite dom_insert_lookup_L; eauto.
  - apply frame_update; intros; simplify_map_eq; eauto using view_dom.
Qed.

Lemma alter_held s r sf (f : bool * SFid → bool * SFid) :
  heap s !! r = Some (true, sf) → alter f r (heap s) = <[r := f (true, sf)]> (heap s).
Proof. intros Hh. by rewrite <-(insert_id _ _ _ Hh) at 1; rewrite alter_insert_eq. Qed.

Lemma sound_APut r sf : sound (APut r sf).
Proof.
  intros cr s K H [sf0 Hs] _ Hv Hr. cbn [perform]. unfold put.
  rewrite (alter_held _ _ _ _ (proj2 Hv _ _ Hs)). intros _.
  destruct (update_held s (s_world s) K H r sf0 sf Hv Hr Hs) as (? & ? & ? & ?). split; [done|].
  exists K, (<[r := sf]> H). done.
Qed.

Lemma sound_ADirRead ctx r rd count offset : sound (ADirRead ctx r rd count offset).
Proof.
  intros cr s K H (sf0 & Hs & Hf) _ Hv Hr. cbn [perform]. unfold SFileSys.File_Read.
  destruct (dir_Read ctx rd count offset (s_world s)) as [[x rd'] w].
  rewrite (alter_held _ _ _ _ (proj2 Hv _ _ Hs)). intros Hx.
  apply negb_false_iff, bool_decide_eq_true in Hx.
  set (sf := mkSFid (sf_Ent sf0) (Some (FDir rd')) (sf_Mode sf0)).
  destruct (update_held s w K H r sf0 sf Hv Hr Hs) as (? & ? & ? & ?). split; [done|].
  exists K, (<[r := sf]> H). split; [|done]. split; [done|]. split; [done|]. by exists sf0, rd'.
Qed.

Lemma sound_ALock r : sound (ALock r).
Proof.
  intros cr s K H [Hk _] Hb Hv Hr. cbn [perform blocked] in *. unfold lock.
  pose proof (proj1 Hv _ Hk) as Hd. apply elem_of_dom in Hd as Hd'. destruct Hd' as [[b sf] Hh].
  rewrite Hh in Hb |- *. destruct b; [done|]. intros _.
  assert (H !! r = None) as Hn.
  { destruct (H !! r) as [sf'|] eqn:E; [|done]. rewrite (proj2 Hv _ _ E) in Hh. done. }
  split; [by apply refs_ok_insert|]. exists K, (<[r := sf]> H). split; [|split; [|split]].
  - split_and!; eauto.
  - eapply view_ok_insert; [done|..]; intros; by simplify_map_eq.
  - cbn. set_solver.
  - apply frame_update; intros; simplify_map_eq; eauto.
Qed.

Lemma sound_AUnlock r : sound (AUnlock r).
Proof.
  intros cr s K H [sf Hs] _ Hv Hr. cbn [perform]. unfold unlock. rewrite (proj2 Hv _ _ Hs).
  intros _. split; [by apply refs_ok_insert|]. exists K, (delete r H). split; [|split; [|split]].
  - done.
  - eapply view_ok_insert; [done|..]; intros; by simplify_map_eq.
  - cbn. by rewrite dom_delete_L.
  - apply frame_update; intros; simplify_map_eq; eauto using view_dom.
Qed.

(** A new SFid. *)
Lemma frame_fresh s w rs r x K K' H H' :
  heap s !! r = None →
  (∀ r', r' ≠ r → H' !! r' = H !! r') → H !! r = None →
  (∀ fid r', rs !! fid = Some r' → is_Some (H' !! r') ∨ refs s !! fid = Some r') →
  (∀ r', r' ∈ K' → r' ∈ K ∨ is_Some (H' !! r')) →
  frame s (mkSession w rs (<[r := x]> (heap s))) K K' H H'.
Proof.
  intros Hn Hne Hr Hrs Hk. split; cbn; [set_solver| | | |done|naive_solver].
  - intros r' Hd _ _. rewrite lookup_insert_ne; [done|]. intros <-.
    apply elem_of_dom in Hd as [? E]. congruence.
  - intros r' sf Hs Hn'. destruct (decide (r' = r)) as [->|Hr']; [congruence|].
    rewrite Hne, Hn' in Hs by done. by destruct Hs.
  - intros r' sf Hs Hn'. destruct (decide (r' = r)) as [->|Hr']; [rewrite Hr in Hs; by destruct Hs|].
    rewrite Hne in Hn' by done. rewrite Hn' in Hs. by destruct Hs.
Qed.

Lemma sound_ALoadOrStore fid : sound (ALoadOrStore fid).
Proof.
  intros cr s K H _ _ Hv Hr. cbn [perform]. unfold new_locked. mrun.
  set (r := fresh (dom (heap s))). assert (heap s !! r = None) as Hn.
  { apply not_elem_of_dom, is_fresh. }
  assert (H !! r = None) as Hh.
  { destruct (H !! r) as [sf|] eqn:E; [|done]. rewrite (proj2 Hv _ _ E) in Hn. done. }
  destruct (refs s !! fid) as [r'|] eqn:E; mrun; intros _.
  - split; [by apply refs_ok_insert|]. exists K, H. split; [by left|]. split; [|split; [done|]].
    + eapply view_ok_insert; [done|done|congruence].
    + apply frame_fresh; auto.
  - split.
    { intros fid' r' E'. cbn in *. destruct (decide (fid' = fid)) as [->|Hf]; simplify_map_eq;
        [set_solver|]. pose proof (Hr _ _ E'). set_solver. }
    exists ({[r]} ∪ K), (<[r := mkSFid None None 0]> H). split; [|split; [|split]].
    + right. exists r. done.
    + split; cbn; [pose proof (proj1 Hv); set_solver|]. intros r' sf' Hs.
      destruct (decide (r' = r)) as [->|Hr']; simplify_map_eq; [done|]. by apply Hv.
    + cbn. set_solver.
    + apply frame_fresh; [done| |done| |].
      * intros. by simplify_map_eq.
      * intros fid' r' E'. destruct (decide (fid' = fid)) as [->|Hf]; simplify_map_eq; eauto.
      * intros r' Hr'. destruct (decide (r' = r)) as [->|Hne]; simplify_map_eq; [eauto|].
        left. set_solver.
Qed.

Lemma sound_all {A} (a : action A) : sound a.
Proof.
  destruct a; auto using sound_ALoad, sound_ALoadOrStore, sound_ALoadAndDelete, sound_ADelete,
    sound_ALock, sound_AUnlock, sound_AGet, sound_APut, sound_ADirRead, sound_AWorld.
Qed.

(** ** The invariant *)

Definition thread_ok (s : session) (t : thread) (v : gset Z * gmap Z SFid) : Prop :=
  t_held t = dom v.2 ∧ view_ok s v.1 v.2 ∧
  wp (is_create (t_msg t)) (t_code t) (ends (t_msg t)) v.1 v.2.

(** Every request is somewhere in its protocol, no SFid is held by two, and a
    locked SFid that a fid or a request refers to is held by some request. *)
Record inv (s : session) (ts : list thread) (vs : list (gset Z * gmap Z SFid)) : Prop := {
  inv_threads : Forall2 (thread_ok s) ts vs;
  inv_excl i j vi vj r :
    vs !! i = Some vi → vs !! j = Some vj → is_Some (vi.2 !! r) → is_Some (vj.2 !! r) → i = j;
  inv_refs : refs_ok s;
  inv_owned r sf :
    heap s !! r = Some (true, sf) →
    (∃ fid, refs s !! fid = Some r) ∨ (∃ i v, vs !! i = Some v ∧ r ∈ v.1) →
    ∃ i v, vs !! i = Some v ∧ is_Some (v.2 !! r)
}.

(** The view of another request is not disturbed. *)
Lemma view_frame s s' K K' H H' Kj Hj :
  frame s s' K K' H H' → view_ok s Kj Hj →
  (∀ r, is_Some (H !! r) → is_Some (Hj !! r) → False) →
  (∀ r, is_Some (H' !! r) → is_Some (Hj !! r) → False) ∧ view_ok s' Kj Hj.
Proof.
  intros F [Hk Ho] Hx.
  assert (∀ r, is_Some (H' !! r) → is_Some (Hj !! r) → False) as Hx'.
  { intros r Hr [sf Hs]. eapply (fr_take _ _ _ _ _ _ F r sf Hr); [|by apply Ho].
    apply eq_None_not_Some. intros H1. by eapply Hx. }
  split; [done|]. split; [by etrans; [|apply (fr_dom _ _ _ _ _ _ F)]|]. intros r sf Hs.
  rewrite (fr_heap _ _ _ _ _ _ F); [by apply Ho|..].
  - apply elem_of_dom. eauto.
  - apply eq_None_not_Some. intros H1. by eapply Hx.
  - apply eq_None_not_Some. intros H1. by eapply Hx'.
Qed.

Lemma insert_cases {A} (l : list A) i x j y :
  <[i := x]> l !! j = Some y → (j = i ∧ y = x) ∨ (j ≠ i ∧ l !! j = Some y).
Proof. intros [(-> & -> & _)|[Hne Hj]]%list_lookup_insert_Some; auto. Qed.

Section Step.
Context (s s' : session) ts vs i (K K' : gset Z) (H H' : gmap Z SFid) (HI : inv s ts vs) (Hv : vs !! i = Some (K, H)).
Context (F : frame s s' K K' H H').

Lemma view_of j v : vs !! j = Some v → view_ok s v.1 v.2.
Proof.
  intros Hj. by destruct (Forall2_lookup_r _ _ _ _ _ (inv_threads _ _ _ HI) Hj) as (t & _ & _ & ? & _).
Qed.

Lemma others j v :
  j ≠ i → vs !! j = Some v →
  (∀ r, is_Some (H' !! r) → is_Some (v.2 !! r) → False) ∧ view_ok s' v.1 v.2.
Proof.
  intros Hne Hj. apply (view_frame s s' K K' H H' v.1 v.2 F (view_of j v Hj)).
  intros r Ha Hb. apply Hne. by eapply (inv_excl _ _ _ HI j i).
Qed.

Lemma still_excl j k vj vk r :
  <[i := (K', H')]> vs !! j = Some vj → <[i := (K', H')]> vs !! k = Some vk →
  is_Some (vj.2 !! r) → is_Some (vk.2 !! r) → j = k.
Proof.
  intros [[-> ->]|[Hj Ej]]%insert_cases [[-> ->]|[Hk Ek]]%insert_cases Hs1 Hs2; [done|..].
  - by destruct (proj1 (others k vk Hk Ek) r).
  - by destruct (proj1 (others j vj Hj Ej) r).
  - by eapply (inv_excl _ _ _ HI).
Qed.

Lemma known_before r :
  H' !! r = None →
  (∃ fid, refs s' !! fid = Some r) ∨ (∃ j v, <[i := (K', H')]> vs !! j = Some v ∧ r ∈ v.1) →
  r ∈ dom (heap s) ∧
  ((∃ fid, refs s !! fid = Some r) ∨ (∃ j v, vs !! j = Some v ∧ r ∈ v.1)).
Proof.
  intros E Hkn.
  assert ((∃ fid, refs s !! fid = Some r) ∨ (∃ j v, vs !! j = Some v ∧ r ∈ v.1)) as Hk.
  { destruct Hkn as [[fid Hf]|(j & v & [[-> ->]|[_ Hj]]%insert_cases & Hr)]; [| |eauto].
    - destruct (fr_refs _ _ _ _ _ _ F _ _ Hf) as [[? ?]|?]; [congruence|eauto].
    - destruct (fr_known _ _ _ _ _ _ F _ Hr) as [?|[[? ?]|?]]; [eauto|congruence|eauto]. }
  split; [|done]. destruct Hk as [[fid Hf]|(j & v & Hj & Hr)]; [by eapply (inv_refs _ _ _ HI)|].
  by apply (view_of j v Hj).
Qed.

Lemma still_owned r sf :
  heap s' !! r = Some (true, sf) →
  (∃ fid, refs s' !! fid = Some r) ∨ (∃ j v, <[i := (K', H')]> vs !! j = Some v ∧ r ∈ v.1) →
  ∃ j v, <[i := (K', H')]> vs !! j = Some v ∧ is_Some (v.2 !! r).
Proof.
  intros Hl Hkn. destruct (H' !! r) as [sf'|] eqn:E'.
  { exists i, (K', H'). rewrite list_lookup_insert_eq by (by eapply lookup_lt_Some). eauto. }
  destruct (H !! r) as [sf'|] eqn:E; [by destruct (fr_give _ _ _ _ _ _ F r sf)|].
  destruct (known_before r E' Hkn) as [Hd Hk]. rewrite (fr_heap _ _ _ _ _ _ F) in Hl by done.
  destruct (inv_owned _ _ _ HI r sf Hl Hk) as (j & v & Hj & Hs). exists j, v.
  rewrite list_lookup_insert_ne; [done|]. intros <-. rewrite Hv in Hj. injection Hj as <-.
  cbn in Hs. rewrite E in Hs. by destruct Hs.
Qed.

Lemma views_step t' :
  refs_ok s' → thread_ok s' t' (K', H') → inv s' (<[i := t']> ts) (<[i := (K', H')]> vs).
Proof.
  intros Hr Ht'. split; [|apply still_excl|done|apply still_owned].
  apply Forall2_same_length_lookup. split.
  { rewrite !length_insert. by eapply Forall2_length, HI. }
  intros j tj vj [[-> ->]|[Hne Htj]]%insert_cases [[Hji ->]|[Hji Hvj]]%insert_cases; try done.
  destruct (Forall2_lookup_lr _ _ _ _ _ _ (inv_threads _ _ _ HI) Htj Hvj) as (? & _ & ?).
  split_and!; [done| |done]. by eapply others.
Qed.
End Step.

Lemma views_turn s ts b vs i c' :
  inv s ts vs → turn i (mkConfig s ts b) = Some c' → faulted c' = false →
  ∃ vs', inv (shared c') (threads c') vs'.
Proof.
  intros HI. unfold turn. cbn [threads shared faulted].
  destruct (ts !! i) as [t|] eqn:Ht; [|done]. cbn.
  destruct (Forall2_lookup_l _ _ _ _ _ (inv_threads _ _ _ HI) Ht) as ([K H] & Hv & Hh & Hw & Hwp).
  destruct (t_code t) as [r|B a k] eqn:Hc; [done|]. destruct (blocked a s) eqn:Hb; [done|].
  destruct Hwp as [Hp Hk]. cbn [fst snd] in *.
  pose proof (sound_all a _ s K H Hp Hb Hw (inv_refs _ _ _ HI)) as Hs.
  destruct (perform a s) as [x s']. intros [= <-]. cbn. intros [_ Hf]%orb_false_iff.
  destruct (Hs Hf) as (Hr & K' & H' & Hpost & Hv' & Hd & F).
  exists (<[i := (K', H')]> vs). eapply views_step; [done|done|done|done|].
  split_and!; [by cbn; rewrite Hh|done|]. by apply Hk.
Qed.

Lemma turn_faulted i c c' : turn i c = Some c' → faulted c' = false → faulted c = false.
Proof.
  unfold turn. destruct (threads c !! i) as [t|]; [|done]. cbn.
  destruct (t_code t) as [r|B a k]; [done|]. destruct (blocked a _); [done|].
  destruct (perform a _) as [x s']. intros [= <-]. by intros [? _]%orb_false_iff.
Qed.

Lemma views_arrive msize ctx msg s ts vs :
  inv s ts vs → inv s (ts ++ [mkThread msg (Handle msize ctx msg) ∅]) (vs ++ [(∅, ∅)]).
Proof.
  intros HI. assert (∀ j v, (vs ++ [(∅, ∅)]) !! j = Some v → vs !! j = Some v ∨ v = (∅, ∅)) as Hl.
  { intros j v [?|[_ E]]%lookup_app_Some; [by left|right].
    by apply list_elem_of_lookup_2, list_elem_of_singleton in E. }
  split.
  - apply Forall2_app; [apply HI|]. constructor; [|constructor].
    split_and!; [done| |apply wp_Handle]. split; [set_solver|]. by intros r sf.
  - intros i j vi vj r Hi Hj [? Hsi] [? Hsj]. destruct (Hl _ _ Hi) as [?| ->]; [|done].
    destruct (Hl _ _ Hj) as [?| ->]; [|done]. by eapply (inv_excl _ _ _ HI).
  - apply HI.
  - intros r sf Hr Hk. destruct (inv_owned _ _ _ HI r sf Hr) as (j & v & Hj & Hs).
    { destruct Hk as [?|(j & v & Hj & Hk)]; [by left|right].
      destruct (Hl _ _ Hj) as [?| ->]; [eauto|set_solver]. }
    exists j, v. split; [by apply lookup_app_l_Some|done].
Qed.

Lemma reachable_views msize c :
  reachable msize c → faulted c = false → ∃ vs, inv (shared c) (threads c) vs.
Proof.
  induction 1 as [s Hq|c c' _ IH Hs].
  - intros _. exists []. split; [constructor|done| |].
    + intros fid r Hr. apply elem_of_dom. destruct (proj1 Hq _ _ Hr). eauto.
    + intros r sf Hh [[fid Hr]|(i & v & ? & _)]; [|done].
      destruct (proj1 Hq _ _ Hr). cbn in *. congruence.
  - intros Hf. destruct Hs as [c' [i Hs]|ctx msg].
    + destruct (IH (turn_faulted _ _ _ Hs Hf)) as [vs HI]. destruct c as [s ts b]. by eapply views_turn.
    + destruct (IH Hf) as [vs HI]. eexists. by apply views_arrive.
Qed.

(** ** Turns come to an end *)

Definition below {A} (c' c : code A) : Prop :=
  match c with Done _ => False | Act a k => ∃ x, c' = k x end.

Lemma below_wf {A} (c : code A) : Acc below c.
Proof. induction c as [r|B a k IH]; constructor; [done|]. intros c' [x ->]. apply IH. Qed.

(** One element of the list goes down. *)
Definition one_below (l' l : list (code Message)) : Prop :=
  ∃ i c c', l !! i = Some c ∧ below c' c ∧ l' = <[i := c']> l.

Lemma one_below_wf l : Acc one_below l.
Proof.
  induction l as [|c l IH]; [constructor; by intros l' ([] & ? & ? & ? & _)|].
  revert l IH. induction (below_wf c) as [c _ IHc]. intros l Hl.
  pose proof Hl as Hl0. induction Hl as [l _ IHl]. constructor.
  intros l' ([|i] & d & d' & Hi & Hb & ->); cbn in *.
  - injection Hi as ->. by apply IHc.
  - assert (one_below (<[i := d']> l) l) as Hlt by (exists i, d, d'; auto).
    apply IHl; [done|]. by destruct Hl0 as [Hl0]; apply Hl0.
Qed.

Lemma progress_below c c' :
  progress c c' → one_below (t_code <$> threads c') (t_code <$> threads c).
Proof.
  intros [i E]. unfold turn in E. destruct (threads c !! i) as [t|] eqn:Ht; [|done]. cbn in E.
  destruct (t_code t) as [r|B a k] eqn:Hc; [done|]. destruct (blocked a _); [done|].
  destruct (perform a _) as [x s']. injection E as <-. exists i, (Act a k), (k x).
  rewrite list_lookup_fmap, Ht. split; [by cbn; rewrite Hc|]. split; [by exists x|]. cbn.
  by rewrite list_fmap_insert.
Qed.

Lemma progress_wf c : Acc (flip progress) c.
Proof.
  remember (t_code <$> threads c) as l eqn:E. revert c E.
  induction (one_below_wf l) as [l _ IH]. intros c ->. constructor. intros c' Hc.
  eapply IH; [by apply progress_below|done].
Qed.

Lemma progress_msgs c c' : progress c c' → t_msg <$> threads c' = t_msg <$> threads c.
Proof.
  intros [i E]. unfold turn in E. destruct (threads c !! i) as [t|] eqn:Ht; [|done]. cbn in E.
  destruct (t_code t) as [r|B a k]; [done|]. destruct (blocked a _); [done|].
  destruct (perform a _) as [x s']. injection E as <-. cbn. rewrite list_fmap_insert.
  apply list_insert_id. by rewrite list_lookup_fmap, Ht.
Qed.

(** ** Where no turn is left *)

(** The two ways a mutex can stay locked: a Create that waits for a mutex
    while it holds one, and an attach that ended without unlocking. *)
Definition stuck (t : thread) : Prop :=
  t_held t ≠ ∅ ∧
  ((is_create (t_msg t) = true ∧ ∃ r k, t_code t = Act (ALock r) k) ∨
   (∃ fid afid uname aname, t_msg t = MessageTattach fid afid uname aname ∧ afid ≠ NOFID ∧
      t_code t = Done (Err ErrUnknownfid))).

Definition answered (t : thread) : Prop := ∃ x, t_code t = Done x ∧ returns x.

(** A request that cannot go on waits for a locked mutex. *)
Lemma no_turn i c t B (a : action B) k :
  threads c !! i = Some t → t_code t = Act a k → turn i c = None → blocked a (shared c) = true.
Proof.
  intros Ht Hc. unfold turn. rewrite Ht. cbn. rewrite Hc.
  destruct (blocked a (shared c)); [done|]. by destruct (perform a (shared c)).
Qed.

Lemma waits {B} (a : action B) (k : result error B → code Message) s :
  blocked a s = true → ∃ r sf k', Act a k = Act (ALock r) k' ∧ heap s !! r = Some (true, sf).
Proof.
  destruct a; try done. cbn. destruct (heap s !! r) as [[[] sf]|] eqn:E; [|done..]. eauto 10.
Qed.

Lemma stopped s ts b vs i t :
  inv s ts vs → (∀ c', ¬ progress (mkConfig s ts b) c') → ts !! i = Some t →
  answered t ∨ ∃ j t', ts !! j = Some t' ∧ stuck t'.
Proof.
  intros HI Hstop.
  assert (∀ i t, ts !! i = Some t → (∃ v, vs !! i = Some v ∧ thread_ok s t v) ∧
    ((∃ x, t_code t = Done x) ∨
     ∃ r sf k, t_code t = Act (ALock r) k ∧ heap s !! r = Some (true, sf))) as Hcase.
  { clear i t. intros i t Ht. split.
    { by apply (Forall2_lookup_l _ _ _ _ _ (inv_threads _ _ _ HI) Ht). }
    destruct (t_code t) as [x|B a k] eqn:Hc; [eauto|right].
    apply waits, (no_turn i (mkConfig s ts b) t B a k Ht Hc).
    apply eq_None_not_Some. intros [c' Hc']. apply (Hstop c'). by exists i. }
  intros Ht. destruct (Hcase i t Ht) as [([K H] & Hv & _ & _ & Hwp) [[x Hx]|(r & sf & k & Hc & Hl)]].
  - left. rewrite Hx in Hwp. destruct Hwp as [Hr _]. by exists x.
  - right. rewrite Hc in Hwp. destruct Hwp as [[Hk _] _].
    destruct (inv_owned _ _ _ HI r sf Hl) as (j & [Kj Hj] & Hvj & [sf' Hs]); [by right; eauto|].
    destruct (Forall2_lookup_r _ _ _ _ _ (inv_threads _ _ _ HI) Hvj) as (tj & Htj & Hd & _ & Hwj).
    assert (t_held tj ≠ ∅) as Hne.
    { rewrite Hd. cbn. intros E. apply dom_empty_inv_L in E. subst Hj. done. }
    exists j, tj. split; [done|]. split; [done|].
    destruct (Hcase j tj Htj) as [_ [[x Hx]|(r' & sf2 & k' & Hc' & _)]].
    + right. rewrite Hx in Hwj. destruct Hwj as [_ [E|(f & af & u & an & -> & Ha & ->)]];
        [cbn in E; by subst Hj|]. eauto 10.
    + left. rewrite Hc' in Hwj. destruct Hwj as [[_ [?|E]] _]; [eauto|]. cbn in E. by subst Hj.
Qed.

Definition answer (t : thread) : option (result error Message) :=
  match t_code t with Done x => Some x | Act _ _ => None end.

(** A schedule: the requests whose turn it is. *)
Fixpoint turns (sched : list nat) (c : config) : option config :=
  match sched with
  | [] => Some c
  | i :: sched => turn i c ≫= turns sched
  end.

Lemma turns_reachable msize sched c c' :
  reachable msize c → turns sched c = Some c' → reachable msize c'.
Proof.
  revert c. induction sched as [|i sched IH]; intros c Hc; cbn; [by intros [= <-]|].
  destruct (turn i c) as [c1|] eqn:E; [|done]. apply IH.
  eapply reachable_step; [exact Hc|]. apply step_turn. by exists i.
Qed.

(** The state after a schedule; it does not matter if the schedule is not one. *)
Definition scheduled (sched : list nat) (c : config) : config := default c (turns sched c).

Lemma scheduled_reachable msize sched c : reachable msize c → reachable msize (scheduled sched c).
Proof.
  intros Hc. unfold scheduled. destruct (turns sched c) eqn:E; [by eapply turns_reachable|done].
Qed.

(** The requests [msgs] arrive at a session at rest. *)
Definition arrivals (msize : Z) (msgs : list Message) (s : session) : config :=
  foldl (λ c msg, arrive msize None msg c) (mkConfig s [] false) msgs.

Lemma arrivals_reachable msize msgs s : quiescent s → reachable msize (arrivals msize msgs s).
Proof.
  intros Hq. unfold arrivals.
  assert (reachable msize (mkConfig s [] false)) as H by by apply reachable_rest.
  revert H. generalize (mkConfig s [] false). induction msgs as [|msg msgs IH]; intros c H; [done|].
  apply IH. eapply reachable_step; [exact H|apply step_arrive].
Qed.
End Inv.

(** ** Theorems *)

(** The SFid whose fields or mutex an action touches as its holder. *)
Definition touches `{FS : FileSys} {A} (a : action A) (r : Z) : Prop :=
  match a with
  | AUnlock r' | AGet r' | APut r' _ | ADirRead _ r' _ _ _ => r' = r
  | _ => False
  end.

(** C18. Overlapping requests respect the mutexes, whatever the requests and
    however they interleave, as long as every call of the file server
    returns: no two requests hold the same SFid; what a request holds is
    locked, and a locked SFid of the table is held by some request; fields
    are read and written, and mutexes unlocked, only by the holder; and no
    request ends in a panic (a nil dereference, or the unlock of a mutex that
    is not locked). *)
Theorem session_race_free `{FS : FileSys} msize c :
  reachable msize c → faulted c = false →
  (∀ i j ti tj r, threads c !! i = Some ti → threads c !! j = Some tj →
     r ∈ t_held ti → r ∈ t_held tj → i = j) ∧
  (∀ i t r, threads c !! i = Some t → r ∈ t_held t →
     ∃ sf, heap (shared c) !! r = Some (true, sf)) ∧
  (∀ fid r sf, refs (shared c) !! fid = Some r → heap (shared c) !! r = Some (true, sf) →
     ∃ i t, threads c !! i = Some t ∧ r ∈ t_held t) ∧
  (∀ i t B (a : action B) k r, threads c !! i = Some t → t_code t = Act a k →
     touches a r → r ∈ t_held t) ∧
  (∀ i t x, threads c !! i = Some t → t_code t = Done x → returns x).
Proof.
  intros Hc Hf. destruct (reachable_views msize c Hc Hf) as [vs HI].
  pose proof (λ i t, Forall2_lookup_l _ _ _ i t (inv_threads _ _ _ HI)) as Hl. split_and!.
  - intros i j ti tj r (vi & Hvi & -> & _)%Hl (vj & Hvj & -> & _)%Hl Hi%elem_of_dom Hj%elem_of_dom.
    by eapply (inv_excl _ _ _ HI).
  - intros i t r (v & Hv & -> & Hw & _)%Hl [sf Hs]%elem_of_dom. exists sf. by apply Hw.
  - intros fid r sf Hr Hh. destruct (inv_owned _ _ _ HI r sf Hh) as (i & v & Hv & Hs); [by eauto|].
    destruct (Forall2_lookup_r _ _ _ _ _ (inv_threads _ _ _ HI) Hv) as (t & Ht & E & _).
    exists i, t. split; [done|]. rewrite E. by apply elem_of_dom.
  - intros i t B a k r (v & Hv & -> & _ & Hwp)%Hl Hk Ht. rewrite Hk in Hwp. destruct Hwp as [Hp _].
    apply elem_of_dom. destruct a; cbn in Ht; subst; try done. destruct Hp as (? & ? & _). eauto.
  - intros i t x (v & Hv & _ & _ & Hwp)%Hl Hx. rewrite Hx in Hwp. apply Hwp.
Qed.

(** C17. Every request is answered, whatever the schedule: from any reachable
    state the requests under way have only finitely many turns left, and
    where none has a turn, all of them have returned a response or an error,
    as long as the calls of the file server return and no request is stuck,
    that is, a Create that waits for a mutex while it holds one, or an attach
    that ended without unlocking its auth fid. *)
Theorem session_answers `{FS : FileSys} msize c :
  reachable msize c →
  Acc (flip progress) c ∧
  ∀ c', rtc progress c c' → (∀ c2, ¬ progress c' c2) → faulted c' = false →
    (∀ i t, threads c' !! i = Some t → ¬ stuck t) →
    t_msg <$> threads c' = t_msg <$> threads c ∧ Forall answered (threads c').
Proof.
  intros Hc. split; [apply progress_wf|]. intros c' Hrtc Hstop Hf Hns.
  assert (reachable msize c' ∧ t_msg <$> threads c' = t_msg <$> threads c) as [Hc' Hm].
  { clear Hstop Hf Hns. induction Hrtc as [c|c c1 c' Hp _ IH]; [done|].
    destruct IH as [? ->]; [eapply reachable_step; [done|by constructor]|].
    split; [done|]. by apply progress_msgs. }
  split; [done|]. destruct (reachable_views msize c' Hc' Hf) as [vs HI]. destruct c' as [s ts b].
  apply Forall_lookup. intros i t Ht.
  destruct (stopped s ts b vs i t HI Hstop Ht) as [?|(j & t' & Hj & Hs)]; [done|].
  by destruct (Hns j t' Hj).
Qed.

(** A session of sleepfs with two fids attached, on which a walk has locked
    fid 1 while a clunk of it waits. *)
Definition two_fids : @session SleepFS.sServer :=
  snd (SFileSys.Attach None 3 NOFID "u" "/" sleep_attached).

Lemma two_fids_quiescent : quiescent two_fids.
Proof.
  eapply (quiescent_Attach None 3 "u" "/" sleep_attached); [apply sleep_attached_quiescent|].
  unfold two_fids. reflexivity.
Qed.

Definition overlap : @config SleepFS.sServer :=
  scheduled [0; 0; 1]%nat (arrivals 64 [MessageTwalk 1 2 ["3"]; MessageTclunk 1] two_fids).

Lemma overlap_reachable : reachable 64 overlap.
Proof. apply scheduled_reachable, arrivals_reachable, two_fids_quiescent. Qed.

Lemma session_race_free_witness :
  (t_held <$> threads overlap) = [{[0]}; ∅] ∧
  (∀ i j ti tj r, threads overlap !! i = Some ti → threads overlap !! j = Some tj →
     r ∈ t_held ti → r ∈ t_held tj → i = j) ∧
  ∃ sf, heap (shared overlap) !! 0 = Some (true, sf).
Proof.
  destruct (session_race_free 64 overlap overlap_reachable eq_refl) as (H1 & H2 & _).
  split; [reflexivity|]. split; [exact H1|]. eapply (H2 0%nat); [reflexivity|]. set_solver.
Defined.

Lemma session_answers_witness :
  Acc (flip progress) overlap ∧
  ∀ c', rtc progress overlap c' → (∀ c2, ¬ progress c' c2) → faulted c' = false →
    (∀ i t, threads c' !! i = Some t → ¬ stuck t) →
    t_msg <$> threads c' = [MessageTwalk 1 2 ["3"]; MessageTclunk 1] ∧
    Forall answered (threads c').
Proof. exact (session_answers 64 overlap overlap_reachable). Defined.

(** The failure path of Walk deletes its new fid by number.  A clunk of that
    fid and another walk to it, both while the first walk is under way, make
    it delete the fid of the other walk: all three requests are answered, the
    second walk with success, but its fid is unknown, and its SFid (3) keeps an
    entry that belongs to no fid and is never clunked. *)
Definition lost : @config SleepFS.sServer :=
  scheduled ([0; 0; 0; 0; 1] ++ replicate 10 2 ++ replicate 6 0 ++ [1; 1; 1])%nat
    (arrivals 64 [MessageTwalk 1 2 ["x"]; MessageTclunk 2; MessageTwalk 3 2 []] two_fids).

Lemma walk_race_loses_entry :
  reachable 64 lost ∧ forallb finished (threads lost) = true ∧
  (answer <$> threads lost) !! 2%nat = Some (Some (Ok (MessageRwalk []))) ∧
  refs (shared lost) !! 2 = None ∧
  (λ x : bool * @SFid SleepFS.sServer, sf_Ent x.2) <$> heap (shared lost) !! 3
    = Some (Some (SleepFS.mkSlice 0 0 0)) ∧
  (map_to_list (refs (shared lost))).*2 = [1; 0].
Proof.
  split; [apply scheduled_reachable, arrivals_reachable, two_fids_quiescent|].
  split_and!; vm_compute; reflexivity.
Qed.
End RaceFree.
