(* ===== verification/Server.v ===== *)
(** * Server: a connection and its session together

    [ServeConn] is the loop of a connection with an arbitrary handler,
    [Concurrent] the requests that run on a session.  Here they run together:
    a request that the loop accepts starts a goroutine on the session, and
    what that goroutine returns is what the loop gets as the handler's
    result.  Every step of the whole is a step of one side, or one of both,
    so that what is proved of either side holds of the server. *)
From S2P Require Import Prelude Types Encoding Channel FileSys SFileSys SessionSpec Session.
From S2P Require Import SleepFS SSession Concurrent RaceFree ServeConn.

Module Server.

(** ** A connection that stays open *)

(** Destruct a step of the loop with the names used below. *)
Ltac loop_step H :=
  destruct H as [c e Hf Hc|c Hf Hr|c k Hf Hr|c id req c' ls Hf Hr Hm Hid Hreq|c req e Hf Hr Hc
    |c req e Hf Hr Hc|c f Hf Hm Hw|c e Hf Hm Hc|c e Hf Hm Hc|c id rq r Hf Hid Hpc
    |c id rq f Hf Hid Hpc Hd|c id rq f Hf Hm Hid Hpc|c id a f Hf Hm Hw|c id a f Hf Hm Hd
    |c e Hf Hw Hc|c e Hf Hw Hc].

Section Open.
Context (codec : Codec).

Definition is_open (c : conn) : Prop := c_ctx c = None ∧ c_err c = None.

Lemma reader_took_open c x : is_open (reader_took c x) → is_open c.
Proof.
  unfold reader_took. destruct x as [[req|e|y|y] ch]; try done.
  destruct (temporary e); [done|]. by intros [_ ?].
Qed.

Lemma writer_write_open c f : is_open (writer_write codec c f) → is_open c.
Proof.
  unfold writer_write. destruct (WriteFcall _ _ _ _) as [[u|e|y|y] ch]; try done.
  destruct (temporary e); [done|]. by intros [_ ?].
Qed.

Lemma step_open c ls c' : ServeConn.step codec c ls c' → is_open c' → is_open c.
Proof.
  intros Hs. loop_step Hs; try done.
  - by intros [? _].
  - apply reader_took_open.
  - apply reader_took_open.
  - unfold main_request, reqMap_remove in Hreq. cbn in Hreq.
    repeat (case_match; simplify_eq); done.
  - by intros [_ ?].
  - intros Ho. apply (writer_write_open c f). by destruct Ho.
  - unfold main_completed. cbn. by destruct (tags c !! Fcall_Tag f).
  - intros Ho. apply (writer_write_open c f). by destruct Ho.
  - by intros [_ ?].
Qed.

(** While the connection is open and nothing was flushed, no request is
    cancelled, and one that is gone was answered or is about to be. *)
Record calm (tr : list label) (c : conn) : Prop := {
  calm_request id rq : c_reqs c !! id = Some rq →
    rq_cancelled rq = false ∧
    (rq_pc rq = Gone → (∃ a f, c_main c = Replying id a f) ∨ ∃ a f, Reply id a f ∈ tr);
  calm_main e : c_main c ≠ MainReturned e
}.

Lemma calm_same tr ls c c' :
  calm tr c → c_reqs c' = c_reqs c → (∀ e, c_main c' ≠ MainReturned e) →
  (∀ id a f, c_main c = Replying id a f → c_main c' = c_main c ∨ ∃ a f, Reply id a f ∈ ls) →
  calm (tr ++ ls) c'.
Proof.
  intros [Hr _] Er Hm Hrep. split; [|done]. rewrite Er. intros id rq Hid.
  destruct (Hr id rq Hid) as [Hc Hg]. split; [done|]. intros Hgone.
  destruct (Hg Hgone) as [(a & f & Ha)|(a & f & Ha)].
  - destruct (Hrep id a f Ha) as [->|(a' & f' & Hin)]; [by eauto|].
    right. exists a', f'. apply elem_of_app. by right.
  - right. exists a, f. apply elem_of_app. by left.
Qed.

(** The requests change, the place of the loop does not. *)
Lemma calm_reqs tr c c' ls :
  calm tr c → c_main c' = c_main c →
  (∀ id rq', c_reqs c' !! id = Some rq' → rq_cancelled rq' = false ∧
     (rq_pc rq' = Gone → ∃ rq, c_reqs c !! id = Some rq ∧ rq_pc rq = Gone)) →
  calm (tr ++ ls) c'.
Proof.
  intros [Hr Hm] Em Hq. split; [|by rewrite Em]. rewrite Em. intros id rq' Hid.
  destruct (Hq id rq' Hid) as [Hc Hg]. split; [done|]. intros Hgone.
  destruct (Hg Hgone) as (rq & Hrq & Hp). destruct (Hr id rq Hrq) as [_ Ha].
  destruct (Ha Hp) as [?|(a & f & Hin)]; [by left|]. right. exists a, f. apply elem_of_app. by left.
Qed.

Lemma calm_took tr c x : calm tr c → calm (tr ++ []) (reader_took c x).
Proof.
  intros Hcalm. destruct (reader_took_same c x) as (_ & Er & Em & _).
  eapply calm_same; [done|exact Er|..]; rewrite Em; [apply Hcalm|eauto].
Qed.

Lemma calm_request_step tr c id req c' ls :
  calm tr c → c_main c = Selecting → c_reqs c !! id = None →
  main_request (with_reader c Reading) id req = (c', ls) → flush_free (tr ++ ls) →
  calm (tr ++ ls) c'.
Proof.
  intros Hcalm Hm Hid Hreq Hff. unfold main_request in Hreq. cbn in Hreq.
  assert (∀ c1, c_reqs c1 = c_reqs c → (∀ e, c_main c1 ≠ MainReturned e) → calm (tr ++ ls) c1) as Hsame.
  { intros c1 Er Hm1. eapply calm_same; [done|done|done|]. rewrite Hm. by intros ???. }
  destruct (tags c !! Fcall_Tag req); [injection Hreq as <- <-; by apply Hsame|].
  assert (calm (tr ++ [Accept id req])
    (with_reqs (with_tags (with_reader c Reading) (<[Fcall_Tag req := id]> (tags c)))
       (<[id := mkRequest req false Handling]> (c_reqs c)))) as Hacc.
  { eapply calm_reqs; [done|done|]. cbn. intros id' rq' [[<- <-]|[_ Hr]]%lookup_insert_Some; [done|].
    split; [by eapply calm_request|eauto]. }
  destruct (Fcall_Message req) as [[]|]; try (injection Hreq as <- <-; exact Hacc).
  unfold reqMap_remove in Hreq. cbn in Hreq. destruct (tags c !! Oldtag) as [old|].
  - injection Hreq as <- <-. destruct (Hff old Oldtag). apply elem_of_app. right. by left.
  - injection Hreq as <- <-. by apply Hsame.
Qed.

Lemma calm_step tr c ls c' :
  inv tr (tags c) (c_reqs c) (c_main c) → ServeConn.step codec c ls c' →
  is_open c' → flush_free (tr ++ ls) → calm tr c → calm (tr ++ ls) c'.
Proof.
  intros Hi Hs Ho Hff Hcalm. pose proof (step_open _ _ _ Hs Ho) as [Hctx Herr].
  pose proof (flush_free_app _ _ Hff) as Hff0. pose proof (calm_main _ _ Hcalm) as Hmain.
  loop_step Hs; try congruence.
  - by destruct Ho.
  - apply calm_took; eauto.
  - apply calm_took; eauto.
  - by eapply calm_request_step.
  - eapply calm_same; [done|apply writer_write_same_reqs|done|]. rewrite Hm. by intros ???.
  - eapply calm_reqs; [done|done|]. cbn. intros id' rq' Hr.
    apply alter_lookup_inv in Hr as (y & Hy & [->|[_ ->]]); cbn;
      (split; [by eapply (calm_request _ _ Hcalm)|]); [eauto|done].
  - destruct Hd as [Hd|Hd]; [|rewrite Herr in Hd; by destruct Hd].
    unfold request_done in Hd. rewrite Hctx, Hid, (proj1 (calm_request _ _ Hcalm id rq Hid)) in Hd.
    done.
  - destruct (inv_finished _ _ _ _ Hi id rq f Hid Hpc) as [_ Ht].
    assert (tags c !! Fcall_Tag f = Some id) as Htag.
    { rewrite Ht. apply (inv_live _ _ _ _ Hi id rq Hff0 Hid). by rewrite Hpc. }
    unfold main_completed. cbn. rewrite Htag. split; [|done]. cbn. intros id' rq' Hr.
    apply alter_lookup_inv in Hr as (y & Hy & Hy').
    destruct (calm_request _ _ Hcalm id' y Hy) as [Hc Hg].
    destruct Hy' as [->|[-> ->]]; cbn; (split; [done|]); [|eauto].
    intros Hgone. rewrite Hm in Hg. destruct (Hg Hgone) as [(? & ? & ?)|(a & g & Hin)]; [done|].
    right. exists a, g. apply elem_of_app. by left.
  - eapply calm_same; [done|apply writer_write_same_reqs|done|]. rewrite Hm.
    intros id' a' f' [= -> -> ->]. right. exists a', f'. by left.
  - exfalso. unfold request_done in Hd. rewrite Hctx in Hd. cbn in Hd.
    destruct (c_reqs c !! a) as [rq|] eqn:Hr; [|done].
    by rewrite (proj1 (calm_request _ _ Hcalm a rq Hr)) in Hd.
Qed.

Lemma reachable_calm ctx ch tr c :
  ServeConn.reachable codec ctx ch tr c → is_open c → flush_free tr → calm tr c.
Proof.
  induction 1 as [|tr c ls c' Hr IH Hs]; intros Ho Hff.
  - split; cbn; [|done]. intros id rq. by rewrite lookup_empty.
  - eapply calm_step; [by eapply reachable_inv|done|done|done|].
    apply IH; [by eapply step_open|by eapply flush_free_app].
Qed.

Lemma reachable_writer ctx ch tr c :
  ServeConn.reachable codec ctx ch tr c → is_open c → c_writer c = true.
Proof.
  induction 1 as [|tr c ls c' _ IH Hs]; [done|]. intros Ho.
  pose proof (step_open _ _ _ Hs Ho) as Ho0. specialize (IH Ho0). destruct Ho0 as [Hctx Herr].
  loop_step Hs; try congruence; try done.
  - unfold reader_read. edestruct (reader_took_same c) as (_ & _ & _ & _ & ->). done.
  - unfold reader_late. edestruct (reader_took_same c) as (_ & _ & _ & _ & ->). done.
  - unfold main_request, reqMap_remove in Hreq. cbn in Hreq.
    repeat (case_match; simplify_eq); done.
  - unfold writer_write in *. destruct (WriteFcall _ _ _ _) as [[u|e|y|y] ch']; try done.
    destruct (temporary e); [done|]. by destruct Ho.
  - unfold main_completed. cbn. by destruct (tags c !! Fcall_Tag f).
  - unfold writer_write in *. destruct (WriteFcall _ _ _ _) as [[u|e|y|y] ch']; try done.
    destruct (temporary e); [done|]. by destruct Ho.
Qed.
End Open.

Section Server.
Context `{FS : FileSys} (codec : Codec) (msize : Z).

(** [sv_of]: the goroutine of a request, by its number in [sv_conf]. *)
Record server := mkServer {
  sv_conn : conn;
  sv_conf : Concurrent.config;
  sv_of : gmap Z nat
}.

(** The message the handler gets.  A request without one would fall in the
    default case of the handler, as a message that is no request does. *)
Definition msg_of (req : Fcall) : Message := default MessageRclunk (Fcall_Message req).

(** What the handler returned. *)
Definition outcome (x : result error Message) : option (error + Message) :=
  match x with
  | Ok m => Some (inr m)
  | Err e => Some (inl e)
  | Panic _ | Hang _ => None
  end.

(** A label of the loop alone. *)
Definition own_label (l : label) : Prop :=
  match l with Accept _ _ | Handled _ _ => False | _ => True end.

Inductive step : server → list label → server → Prop :=
| step_conn c conf who ls c' :
    ServeConn.step codec c ls c' → Forall own_label ls →
    step (mkServer c conf who) ls (mkServer c' conf who)
| step_accept c conf who id req c' :
    ServeConn.step codec c [Accept id req] c' →
    step (mkServer c conf who) [Accept id req]
      (mkServer c' (Concurrent.arrive msize (c_ctx c) (msg_of req) conf)
         (<[id := length (Concurrent.threads conf)]> who))
| step_turn c conf who i conf' :
    Concurrent.turn i conf = Some conf' →
    step (mkServer c conf who) [] (mkServer c conf' who)
| step_handled c conf who id rq i t x r :
    c_fault c = None → c_reqs c !! id = Some rq → rq_pc rq = Handling →
    who !! id = Some i → Concurrent.threads conf !! i = Some t →
    Concurrent.t_code t = Concurrent.Done x → outcome x = Some r →
    step (mkServer c conf who) [Handled id (handler_response (rq_fcall rq) r)]
      (mkServer (with_reqs c (set_pc id (Finished (handler_response (rq_fcall rq) r)) (c_reqs c)))
         conf who).

(** A connection just negotiated, and the new session of [SFileSys]. *)
Inductive reachable (ctx : option error) (ch : channel) (w : World)
    : list label → server → Prop :=
| reach_start :
    reachable ctx ch w [] (mkServer (newConn ctx ch)
                             (Concurrent.mkConfig (SFileSys_new w) [] false) ∅)
| reach_next tr sv ls sv' :
    reachable ctx ch w tr sv → step sv ls sv' → reachable ctx ch w (tr ++ ls) sv'.

(** ** Both sides of a run *)

Lemma reachable_sides ctx ch w tr sv :
  reachable ctx ch w tr sv →
  ServeConn.reachable codec ctx ch tr (sv_conn sv) ∧ Concurrent.reachable msize (sv_conf sv).
Proof.
  induction 1 as [|tr sv ls sv' _ [IHc IHs] Hs].
  { split; [constructor|]. apply Concurrent.reachable_rest, quiescent_new. }
  destruct Hs as [c conf who ls c' Hs _|c conf who id req c' Hs|c conf who i conf' Ht
    |c conf who id rq i t x r Hf Hr Hp Hi Ht Hc Ho]; cbn in *.
  - split; [|done]. by eapply reach_step.
  - split; [by eapply reach_step|]. eapply Concurrent.reachable_step; [done|apply Concurrent.step_arrive].
  - rewrite app_nil_r. split; [done|].
    eapply Concurrent.reachable_step; [done|]. apply Concurrent.step_turn. by exists i.
  - split; [|done]. eapply reach_step; [done|]. by apply ServeConn.step_handler.
Qed.

(** ** The goroutines of requests *)

(** The goroutine of [id] handles the message of [req]. *)
Definition handles (sv : server) (id : Z) (req : Fcall) (t : Concurrent.thread) : Prop :=
  ∃ i, sv_of sv !! id = Some i ∧ Concurrent.threads (sv_conf sv) !! i = Some t ∧
    Concurrent.t_msg t = msg_of req.

(** It has returned [r]. *)
Definition returned (sv : server) (id : Z) (req : Fcall) (r : error + Message) : Prop :=
  ∃ t x, handles sv id req t ∧ Concurrent.t_code t = Concurrent.Done x ∧ outcome x = Some r.

Record linked (tr : list label) (sv : server) : Prop := {
  ln_handles id rq : c_reqs (sv_conn sv) !! id = Some rq → ∃ t, handles sv id (rq_fcall rq) t;
  ln_known id i : sv_of sv !! id = Some i → is_Some (c_reqs (sv_conn sv) !! id);
  ln_handled id f : Handled id f ∈ tr →
    ∃ req r, Accept id req ∈ tr ∧ returned sv id req r ∧ f = handler_response req r
}.

(** Steps of the loop keep the requests. *)
Lemma requests_kept c ls c' :
  ServeConn.step codec c ls c' → Forall own_label ls →
  ∀ id, (∀ rq', c_reqs c' !! id = Some rq' →
           ∃ rq, c_reqs c !! id = Some rq ∧ rq_fcall rq = rq_fcall rq') ∧
        (is_Some (c_reqs c !! id) → is_Some (c_reqs c' !! id)).
Proof.
  intros Hs Hl.
  assert (∀ rs', advanced (c_reqs c) rs' → ∀ id,
    (∀ rq', rs' !! id = Some rq' → ∃ rq, c_reqs c !! id = Some rq ∧ rq_fcall rq = rq_fcall rq') ∧
    (is_Some (c_reqs c !! id) → is_Some (rs' !! id))) as Hadv.
  { intros rs' [A B] id. split; [|intros [rq Hr]; by destruct (B _ _ Hr) as (rq' & -> & _)].
    intros rq' Hr. destruct (A _ _ Hr) as (rq & ? & ? & _). eauto. }
  loop_step Hs; cbn [c_reqs with_ctx with_reader with_main with_reqs with_writer
       CloseWithError main_return main_answered with_tags];
    unfold reader_read, reader_late;
    rewrite ?(proj1 (proj2 (reader_took_same _ _))), ?writer_write_same_reqs;
    try (apply Hadv, advanced_refl); try (apply Hadv, advanced_cancel_all);
    try (apply Hadv, advanced_gone); try (by apply Forall_inv in Hl).
  - unfold main_request in Hreq. cbn in Hreq.
    destruct (tags c !! Fcall_Tag req); [injection Hreq as <- <-; apply Hadv, advanced_refl|].
    destruct (Fcall_Message req) as [[]|]; try (injection Hreq as <- <-; by apply Forall_inv in Hl).
    unfold reqMap_remove in Hreq. cbn in Hreq.
    destruct (tags c !! Oldtag); injection Hreq as <- <-; cbn; apply Hadv;
      [apply advanced_cancel|apply advanced_refl].
  - unfold main_completed. cbn. destruct (tags c !! Fcall_Tag f); apply Hadv, advanced_gone.
Qed.

Lemma accept_inv c id req c' :
  ServeConn.step codec c [Accept id req] c' →
  c_reqs c !! id = None ∧ c_reqs c' = <[id := mkRequest req false Handling]> (c_reqs c).
Proof.
  intros Hs. inversion Hs as [| | |c0 id0 req0 c0' ls Hf Hr Hm Hid Hreq| | | | | | | | | | | |]; subst.
  unfold main_request in Hreq. cbn in Hreq. destruct (tags c !! Fcall_Tag req0); [by simplify_eq|].
  destruct (Fcall_Message req0) as [[]|]; simplify_eq; try done.
  unfold reqMap_remove in Hreq. cbn in Hreq. by destruct (tags c !! Oldtag); simplify_eq.
Qed.

(** Goroutines stay, and those that have returned do not change. *)
Definition later (sv sv' : server) : Prop :=
  ∀ id req t, handles sv id req t →
    ∃ t', handles sv' id req t' ∧
      ∀ x, Concurrent.t_code t = Concurrent.Done x → Concurrent.t_code t' = Concurrent.Done x.

Lemma turn_later c conf who i conf' :
  Concurrent.turn i conf = Some conf' → later (mkServer c conf who) (mkServer c conf' who).
Proof.
  intros Ht id req t (j & Hj & Hl & Hm). cbn in *. unfold Concurrent.turn in Ht.
  destruct (Concurrent.threads conf !! i) as [ti|] eqn:Hi; [|done]. cbn in Ht.
  destruct (Concurrent.t_code ti) as [x|B a k] eqn:Hc; [done|].
  destruct (Concurrent.blocked a _); [done|]. destruct (Concurrent.perform a _) as [x s'].
  injection Ht as <-. destruct (decide (i = j)) as [->|Hne].
  - rewrite Hl in Hi. injection Hi as <-. eexists. split; [|intros y Hy; congruence].
    exists j. cbn. split; [done|]. split; [by apply list_lookup_insert_eq; eapply lookup_lt_Some|done].
  - exists t. split; [|done]. exists j. cbn. by rewrite list_lookup_insert_ne.
Qed.

Lemma arrive_later c c' conf who id ctx msg :
  who !! id = None →
  later (mkServer c conf who)
    (mkServer c' (Concurrent.arrive msize ctx msg conf)
       (<[id := length (Concurrent.threads conf)]> who)).
Proof.
  intros Hid id' req t (j & Hj & Hl & Hm). exists t. split; [|done]. exists j. cbn in *.
  rewrite lookup_insert_ne by congruence. split; [done|]. split; [by apply lookup_app_l_Some|done].
Qed.

Lemma linked_later tr ls sv sv' :
  linked tr sv → later sv sv' →
  (∀ id rq, c_reqs (sv_conn sv') !! id = Some rq → ∃ t, handles sv' id (rq_fcall rq) t) →
  (∀ id i, sv_of sv' !! id = Some i → is_Some (c_reqs (sv_conn sv') !! id)) →
  (∀ id f, Handled id f ∈ ls →
     ∃ req r, Accept id req ∈ tr ∧ returned sv' id req r ∧ f = handler_response req r) →
  linked (tr ++ ls) sv'.
Proof.
  intros [_ _ Hh] HL H1 H2 H3. split; [done|done|]. intros id f [Hin|Hin]%elem_of_app.
  - destruct (Hh id f Hin) as (req & r & Ha & (t & x & Ht & Hc & Ho) & ->).
    destruct (HL _ _ _ Ht) as (t' & Ht' & Hx). exists req, r.
    split; [by apply elem_of_app; left|]. split; [|done]. exists t', x. auto.
  - destruct (H3 id f Hin) as (req & r & Ha & Hr & ->). exists req, r.
    split; [by apply elem_of_app; left|done].
Qed.

Lemma own_not_handled ls id f : Forall own_label ls → Handled id f ∉ ls.
Proof. intros Hl Hin. by rewrite Forall_forall in Hl; apply Hl in Hin. Qed.

Lemma linked_step tr sv ls sv' :
  inv tr (tags (sv_conn sv)) (c_reqs (sv_conn sv)) (c_main (sv_conn sv)) →
  linked tr sv → step sv ls sv' → linked (tr ++ ls) sv'.
Proof.
  intros Hinv HL Hs. pose proof HL as [Hh Hk _].
  destruct Hs as [c conf who ls c' Hs Hl|c conf who id req c' Hs|c conf who i conf' Ht
    |c conf who id rq i t x r Hf Hr Hp Hi Ht Hc Ho]; cbn in *.
  - pose proof (requests_kept c ls c' Hs Hl) as Hq. eapply linked_later; [done|..].
    + intros id req t Ht. exists t. split; [exact Ht|done].
    + intros id rq' Hr. destruct (proj1 (Hq id) rq' Hr) as (rq & Hr0 & <-). by apply Hh.
    + intros id i Hi. apply Hq. by eapply Hk.
    + intros id f Hin. by destruct (own_not_handled ls id f Hl).
  - destruct (accept_inv c id req c' Hs) as [Hnew Hreqs].
    assert (who !! id = None) as Hw.
    { apply eq_None_not_Some. intros [i Hi]. apply Hk in Hi. rewrite Hnew in Hi. by destruct Hi. }
    eapply linked_later; [done|by apply arrive_later|..]; cbn; rewrite ?Hreqs.
    + intros id' rq' [[<- <-]|[Hne Hr]]%lookup_insert_Some.
      * eexists. exists (length (Concurrent.threads conf)). cbn. rewrite lookup_insert_eq.
        split; [done|]. by rewrite lookup_app_r, Nat.sub_diag.
      * destruct (Hh id' rq' Hr) as [t Ht]. destruct (arrive_later c c' conf who id (c_ctx c)
          (msg_of req) Hw _ _ _ Ht) as (t' & Ht' & _). by exists t'.
    + intros id' i [[<- <-]|[Hne Hi]]%lookup_insert_Some; [by rewrite lookup_insert_eq|].
      rewrite lookup_insert_ne by done. by eapply Hk.
    + by intros id' f ?%list_elem_of_singleton.
  - eapply linked_later; [done|by eapply turn_later|..]; cbn.
    + intros id rq Hr. destruct (Hh id rq Hr) as [t Ht0].
      destruct (turn_later c conf who i conf' Ht _ _ _ Ht0) as (t' & Ht' & _). by exists t'.
    + done.
    + by intros id f ?%elem_of_nil.
  - eapply linked_later; [done|by intros id' req' t' Ht'; exists t'|..]; cbn.
    + intros id' rq' Hr'. unfold set_pc in Hr'. apply alter_lookup_inv in Hr' as (y & Hy & [->|[_ ->]]);
        by apply (Hh id' y).
    + intros id' i' Hi'. apply Hk in Hi' as [y Hy].
      apply (alter_lookup_fwd (λ rq, mkRequest (rq_fcall rq) (rq_cancelled rq)
        (Finished (handler_response (rq_fcall rq) r))) id) in Hy. unfold set_pc.
      destruct (decide (id = id')) as [<-|Hne]; [by rewrite lookup_alter_eq, Hr|].
      rewrite lookup_alter_ne by done. destruct Hy as (z & Hz & _).
      by rewrite lookup_alter_ne in Hz.
    + intros id' f [= -> ->]%list_elem_of_singleton. exists (rq_fcall rq), r.
      split; [by apply (inv_accept _ _ _ _ Hinv)|]. split; [|done].
      destruct (Hh id rq Hr) as (t' & i' & Hi' & Ht' & Hm). exists t, x.
      split; [|done]. exists i. cbn in *. split; [done|]. split; [done|]. congruence.
Qed.

Lemma reachable_linked ctx ch w tr sv : reachable ctx ch w tr sv → linked tr sv.
Proof.
  induction 1 as [|tr sv ls sv' Hr IH Hs].
  - split; cbn; [by intros id rq| |set_solver]. intros id i. by rewrite lookup_empty.
  - eapply linked_step; [|done|done].
    by eapply reachable_inv, (reachable_sides _ _ _ _ _ Hr).
Qed.

(** ** The work of the server *)

(** What the server does by itself: the goroutines' turns, handing in their
    results, and the loop's sends and replies; not new requests, nor the end
    of the connection. *)
Definition loop_work (a : action) : Prop :=
  match a with ASend | ACompleted _ | AReply => True | _ => False end.

Inductive work : server → list label → server → Prop :=
| work_turn c conf who i conf' :
    Concurrent.turn i conf = Some conf' → work (mkServer c conf who) [] (mkServer c conf' who)
| work_loop c conf who a ls c' :
    loop_work a → act codec a c = Some (ls, c') →
    work (mkServer c conf who) ls (mkServer c' conf who)
| work_handled c conf who id rq i t x r :
    c_fault c = None → c_reqs c !! id = Some rq → rq_pc rq = Handling →
    who !! id = Some i → Concurrent.threads conf !! i = Some t →
    Concurrent.t_code t = Concurrent.Done x → outcome x = Some r →
    work (mkServer c conf who) [Handled id (handler_response (rq_fcall rq) r)]
      (mkServer (with_reqs c (set_pc id (Finished (handler_response (rq_fcall rq) r)) (c_reqs c)))
         conf who).

Lemma loop_labels a c ls c' : loop_work a → act codec a c = Some (ls, c') → Forall own_label ls.
Proof.
  unfold act. destruct (c_fault c); [done|]. destruct a; try done; intros _;
    repeat case_match; intros; simplify_eq; repeat constructor.
Qed.

Lemma work_step sv ls sv' : work sv ls sv' → step sv ls sv'.
Proof.
  destruct 1; [by eapply step_turn| |by eapply step_handled].
  eapply step_conn; [by eapply act_step|by eapply loop_labels].
Qed.

(** It comes to an end: goroutines have finitely many turns, and what is left
    of a request gets less. *)
Definition pc_weight (rq : request) : nat :=
  match rq_pc rq with Handling => 4 | Finished _ => 3 | Gone => 0 end.
Definition reqs_weight (rs : gmap Z request) : nat :=
  map_fold (λ _ rq n, pc_weight rq + n)%nat 0%nat rs.
Definition loop_weight (c : conn) : nat :=
  (reqs_weight (c_reqs c) + match c_main c with Sending _ | Replying _ _ _ => 1 | _ => 0 end)%nat.

Lemma reqs_weight_insert rs id rq :
  rs !! id = None → reqs_weight (<[id := rq]> rs) = (pc_weight rq + reqs_weight rs)%nat.
Proof. intros H. unfold reqs_weight. rewrite map_fold_insert_L; [done|lia|done]. Qed.

Lemma reqs_weight_pc rs id rq pc :
  rs !! id = Some rq →
  (reqs_weight (set_pc id pc rs) + pc_weight rq
   = reqs_weight rs + pc_weight (mkRequest (rq_fcall rq) (rq_cancelled rq) pc))%nat.
Proof.
  intros Hr. unfold set_pc. rewrite <-(insert_delete_id rs id rq Hr) at 1 2.
  rewrite alter_insert_eq, !reqs_weight_insert by apply lookup_delete_eq. lia.
Qed.

Lemma loop_work_lighter a c ls c' :
  loop_work a → act codec a c = Some (ls, c') → (loop_weight c' < loop_weight c)%nat.
Proof.
  unfold act. destruct (c_fault c); [done|]. destruct a; try done; intros _.
  - destruct (c_main c) as [|f| |] eqn:Hm; try done. destruct (c_writer c); [|done].
    intros [= _ <-]. unfold loop_weight. cbn. rewrite writer_write_same_reqs, Hm. lia.
  - destruct (c_main c) as [|f| |] eqn:Hm; try done. destruct (c_reqs c !! id) as [rq|] eqn:Hr; [|done].
    destruct (rq_pc rq) as [|f|] eqn:Hp; try done. intros [= _ <-].
    pose proof (reqs_weight_pc (c_reqs c) id rq Gone Hr) as Hw. unfold pc_weight in Hw.
    rewrite Hp in Hw. cbn in Hw. unfold loop_weight, main_completed. cbn.
    destruct (tags c !! Fcall_Tag f); cbn; rewrite Hm; lia.
  - destruct (c_main c) as [| |id a f|] eqn:Hm; try done. destruct (c_writer c); [|done].
    intros [= _ <-]. unfold loop_weight. cbn. rewrite writer_write_same_reqs, Hm. lia.
Qed.

Definition works (sv sv' : server) : Prop := ∃ ls, work sv ls sv'.

Lemma works_wf sv : Acc (flip works) sv.
Proof.
  destruct sv as [c conf who]. revert c who.
  induction (RaceFree.progress_wf conf) as [conf _ IHconf]. intros c who.
  remember (loop_weight c) as n eqn:E. revert c E.
  induction (lt_wf n) as [n _ IHn]. intros c ->. constructor. intros sv' [ls Hw].
  inversion Hw as [? ? ? i conf' Ht|? ? ? a ? c' Ha Hact|? ? ? id rq i t x r Hf Hr Hp Hi Ht Hc Ho];
    subst.
  - apply IHconf. by exists i.
  - eapply IHn; [|done]. by eapply loop_work_lighter.
  - eapply IHn; [|done]. unfold loop_weight. cbn.
    pose proof (reqs_weight_pc (c_reqs c) id rq
      (Finished (handler_response (rq_fcall rq) r)) Hr) as Hwt.
    unfold pc_weight in Hwt. rewrite Hp in Hwt. cbn in Hwt. lia.
Qed.

(** ** When the work is done *)

Lemma accepted_in tr id req : Accept id req ∈ tr → id ∈ accepted_ids tr.
Proof. intros Hin. apply list_elem_of_omap. by exists (Accept id req). Qed.

Lemma accept_unique tr id req1 req2 :
  NoDup (accepted_ids tr) → Accept id req1 ∈ tr → Accept id req2 ∈ tr → req1 = req2.
Proof.
  induction tr as [|l tr IH]; [by intros _ ?%elem_of_nil|].
  assert (NoDup (accepted_ids (l :: tr)) → NoDup (accepted_ids tr)) as Htl.
  { destruct l; try done. by intros [_ ?]%NoDup_cons. }
  intros Hnd [<-|H1]%elem_of_cons [E|H2]%elem_of_cons.
  - by injection E as ->.
  - apply NoDup_cons in Hnd as [Hn _]. by destruct Hn; eapply accepted_in.
  - subst l. apply NoDup_cons in Hnd as [Hn _]. by destruct Hn; eapply accepted_in.
  - by apply IH; [apply Htl| |].
Qed.

Section Idle.
Context ctx ch w tr sv (Hreach : reachable ctx ch w tr sv).
Context (Hidle : ∀ sv', ¬ works sv sv').
Context (Hopen : is_open (sv_conn sv)) (Hcf : c_fault (sv_conn sv) = None).
Context (Hff : flush_free tr) (Hfault : Concurrent.faulted (sv_conf sv) = false).
Context (Hstuck : ∀ i t, Concurrent.threads (sv_conf sv) !! i = Some t → ¬ RaceFree.stuck t).

Lemma idle_answered i t :
  Concurrent.threads (sv_conf sv) !! i = Some t → RaceFree.answered t.
Proof.
  intros Ht. destruct (reachable_sides _ _ _ _ _ Hreach) as [_ Hs].
  destruct (RaceFree.reachable_views msize _ Hs Hfault) as [vs HI].
  destruct sv as [c [s ts b] who]. cbn in *.
  destruct (RaceFree.stopped s ts b vs i t HI) as [?|(j & t' & Hj & Hst)]; [|done|done|].
  - intros conf' [j Hj]. apply (Hidle (mkServer c conf' who)). eexists. by eapply work_turn.
  - by destruct (Hstuck j t' Hj).
Qed.

Lemma idle_loop a : loop_work a → act codec a (sv_conn sv) = None.
Proof.
  intros Ha. destruct (act codec a (sv_conn sv)) as [[ls c']|] eqn:E; [|done].
  destruct sv as [c conf who]. destruct (Hidle (mkServer c' conf who)). exists ls. by eapply work_loop.
Qed.

(** No request is left with its goroutine or at the loop. *)
Lemma idle_gone id rq : c_reqs (sv_conn sv) !! id = Some rq → rq_pc rq = Gone.
Proof.
  intros Hr. destruct (reachable_sides _ _ _ _ _ Hreach) as [Hc _].
  pose proof (reachable_writer codec _ _ _ _ Hc Hopen) as Hw.
  pose proof (calm_main _ _ (reachable_calm codec _ _ _ _ Hc Hopen Hff)) as Hm.
  pose proof (idle_loop ASend I) as H1. pose proof (idle_loop AReply I) as H2.
  pose proof (idle_loop (ACompleted id) I) as H3. unfold act in H1, H2, H3.
  rewrite Hcf in H1, H2, H3. rewrite Hw in H1, H2. rewrite Hr in H3.
  destruct (rq_pc rq) as [|f|] eqn:Hp; [|by destruct (c_main (sv_conn sv)); try done; destruct (Hm err)|done].
  destruct (ln_handles _ _ (reachable_linked _ _ _ _ _ Hreach) id rq Hr) as (t & i & Hi & Ht & _).
  destruct (idle_answered i t Ht) as (x & Hx & Hret).
  assert (∃ r, outcome x = Some r) as [r Ho] by (destruct x; try done; eauto).
  destruct sv as [c conf who]. edestruct Hidle. eexists. by eapply work_handled.
Qed.

Lemma idle_replied id req : Accept id req ∈ tr → ∃ f, Reply id id f ∈ tr.
Proof.
  intros Hin. destruct (reachable_sides _ _ _ _ _ Hreach) as [Hc _].
  pose proof (reachable_inv _ _ _ _ _ Hc) as Hi.
  pose proof (reachable_calm codec _ _ _ _ Hc Hopen Hff) as Hcalm.
  destruct (inv_accepted _ _ _ _ Hi id (accepted_in _ _ _ Hin)) as [rq Hr].
  destruct (proj2 (calm_request _ _ Hcalm id rq Hr) (idle_gone id rq Hr)) as [(a & f & Hm)|(a & f & Hrep)].
  - pose proof (idle_loop AReply I) as Ha. unfold act in Ha. rewrite Hcf, Hm in Ha.
    by rewrite (reachable_writer codec _ _ _ _ Hc Hopen) in Ha.
  - exists f. by rewrite <-(inv_own _ _ _ _ Hi id a f Hff (or_intror Hrep)) at 2.
Qed.
End Idle.

(** What the handler returned for the request is what is replied. *)
Lemma replied ctx ch w tr sv id a f :
  reachable ctx ch w tr sv → Reply id a f ∈ tr →
  ∃ req r, Accept id req ∈ tr ∧ returned sv id req r ∧ f = handler_response req r.
Proof.
  intros Hr Hin. destruct (reachable_sides _ _ _ _ _ Hr) as [Hc _].
  destruct (inv_origin _ _ _ _ (reachable_inv _ _ _ _ _ Hc) id a f Hin) as (_ & _ & _ & Hh).
  by apply (ln_handled _ _ (reachable_linked _ _ _ _ _ Hr)).
Qed.

(** ** Runs, by scheduled moves *)

Inductive move := Loop (a : action) | Turn (i : nat) | Hand (id : Z).

(** After an action of the loop: a goroutine is started if a request was
    accepted. *)
Definition started (c c' : conn) (conf : Concurrent.config) (who : gmap Z nat) (ls : list label)
    : server :=
  match ls with
  | [Accept id req] =>
      mkServer c' (Concurrent.arrive msize (c_ctx c) (msg_of req) conf)
        (<[id := length (Concurrent.threads conf)]> who)
  | _ => mkServer c' conf who
  end.

Definition exec (m : move) (sv : server) : option (list label * server) :=
  let '(mkServer c conf who) := sv in
  match m with
  | Loop a =>
      if (match a with AHandler _ _ => true | _ => false end) then None
      else '(ls, c') ← act codec a c; Some (ls, started c c' conf who ls)
  | Turn i => conf' ← Concurrent.turn i conf; Some ([], mkServer c conf' who)
  | Hand id =>
      match c_fault c, c_reqs c !! id, who !! id ≫= (Concurrent.threads conf !!.) with
      | None, Some (mkRequest req b Handling), Some (Concurrent.mkThread _ (Concurrent.Done x) _) =>
          r ← outcome x;
          Some ([Handled id (handler_response req r)],
                mkServer (with_reqs c (set_pc id (Finished (handler_response req r)) (c_reqs c)))
                  conf who)
      | _, _, _ => None
      end
  end.

Lemma act_labels a c ls c' :
  (∀ id r, a ≠ AHandler id r) → act codec a c = Some (ls, c') →
  Forall own_label ls ∨ ∃ id req, ls = [Accept id req].
Proof.
  unfold act, main_request, reqMap_remove. intros Hna. destruct (c_fault c); [done|].
  destruct a; [| | |by edestruct Hna|..]; repeat case_match; intros; simplify_eq; eauto;
    left; repeat constructor.
Qed.

Lemma exec_step m sv ls sv' : exec m sv = Some (ls, sv') → step sv ls sv'.
Proof.
  destruct sv as [c conf who], m as [a|i|id]; cbn.
  - destruct (match a with AHandler _ _ => true | _ => false end) eqn:Ha; [done|].
    destruct (act codec a c) as [[ls1 c']|] eqn:E; [|done]. intros [= <- <-].
    destruct (act_labels a c ls1 c') as [Ho|(id & req & ->)];
      [by intros id r ->|done| |by eapply step_accept, act_step].
    replace (started c c' conf who ls1) with (mkServer c' conf who).
    + apply step_conn; [by eapply act_step|done].
    + destruct ls1 as [|[] [|]]; try done. by apply Forall_inv in Ho.
  - destruct (Concurrent.turn i conf) eqn:E; [|done]. intros [= <- <-]. by eapply step_turn.
  - intros H. destruct (c_fault c) eqn:Hf; [done|].
    destruct (c_reqs c !! id) as [[req b []]|] eqn:Hr; try done.
    destruct (who !! id) as [i|] eqn:Hi; [|done]. cbn in H.
    destruct (Concurrent.threads conf !! i) as [[msg [x|] hd]|] eqn:Ht; try done.
    destruct (outcome x) as [r|] eqn:Ho; [|done]. injection H as <- <-.
    by eapply (step_handled c conf who id (mkRequest req b Handling)).
Qed.

Fixpoint run (ms : list move) (tr : list label) (sv : server) : option (list label * server) :=
  match ms with
  | [] => Some (tr, sv)
  | m :: ms => '(ls, sv) ← exec m sv; run ms (tr ++ ls) sv
  end.

Lemma run_server ctx ch w ms tr sv tr' sv' :
  reachable ctx ch w tr sv → run ms tr sv = Some (tr', sv') → reachable ctx ch w tr' sv'.
Proof.
  revert tr sv. induction ms as [|m ms IH]; intros tr sv Hr; cbn; [by intros [= <- <-]|].
  destruct (exec m sv) as [[ls sv1]|] eqn:E; [|done]. cbn. apply IH.
  eapply reach_next; [done|by eapply exec_step].
Qed.

Definition ran (ms : list move) (sv : server) : list label * server :=
  default ([], sv) (run ms [] sv).

Lemma ran_reachable ctx ch w ms sv :
  reachable ctx ch w [] sv → reachable ctx ch w (fst (ran ms sv)) (snd (ran ms sv)).
Proof.
  intros Hr. unfold ran. destruct (run ms [] sv) as [[tr' sv']|] eqn:E; [|done].
  by eapply run_server.
Qed.
End Server.

(** ** Theorems *)

(** C10. The whole server gives right answers, in every interleaving of the
    reader, the loop, the writer and the goroutines on the session: a
    response is only ever sent for a request that came in, it carries what
    that request's goroutine returned on the shared session (whose state is
    one the requests can reach together), under the tag of the request, and
    no request is answered twice. *)
Theorem server_replies `{FS : FileSys} codec msize ctx ch w tr sv :
  reachable codec msize ctx ch w tr sv →
  Concurrent.reachable msize (sv_conf sv) ∧ NoDup (answered_ids tr) ∧
  ∀ id a f, Reply id a f ∈ tr →
    ∃ req r, Accept id req ∈ tr ∧ returned sv id req r ∧ f = handler_response req r.
Proof.
  intros Hr. destruct (reachable_sides _ _ _ _ _ _ _ Hr) as [Hc Hs]. split; [done|].
  split; [by eapply inv_once, reachable_inv|]. intros id a f Hin. by eapply replied.
Qed.

(** C11. The whole server answers: what it has to do for the requests it
    accepted is finite, and once it is done every one of them has been sent
    the response its goroutine made, as long as the connection is open,
    nothing was flushed, the file server's calls return, and no request is
    stuck in one of the two ways a mutex can stay locked. *)
Theorem server_answers `{FS : FileSys} codec msize ctx ch w tr sv :
  reachable codec msize ctx ch w tr sv →
  Acc (flip (works codec)) sv ∧
  ((∀ sv', ¬ works codec sv sv') →
   is_open (sv_conn sv) → c_fault (sv_conn sv) = None → flush_free tr →
   Concurrent.faulted (sv_conf sv) = false →
   (∀ i t, Concurrent.threads (sv_conf sv) !! i = Some t → ¬ RaceFree.stuck t) →
   ∀ id req, Accept id req ∈ tr →
     ∃ r, returned sv id req r ∧ Reply id id (handler_response req r) ∈ tr).
Proof.
  intros Hr. split; [apply works_wf|]. intros Hidle Ho Hcf Hff Hfault Hst id req Hin.
  destruct (idle_replied codec msize _ _ _ _ _ Hr Hidle Ho Hcf Hff Hfault Hst id req Hin) as [f Hf].
  destruct (replied codec msize _ _ _ _ _ _ _ _ Hr Hf) as (req' & r & Hin' & Hret & ->).
  destruct (reachable_sides _ _ _ _ _ _ _ Hr) as [Hc _].
  assert (req' = req) as ->; [|eauto].
  by eapply accept_unique; [eapply inv_accept_once, reachable_inv| |].
Qed.

(** A server of sleepfs gets one attach and answers it. *)
Definition one_attach : channel :=
  newChannel (frames [newFcall 5 (MessageTattach 1 NOFID "u" "/")]) 64.
Definition one_start : @server SleepFS.sServer :=
  mkServer (newConn None one_attach) (Concurrent.mkConfig (SFileSys_new ∅) [] false) ∅.
Definition one_run : list label * @server SleepFS.sServer :=
  ran codec9p 64
    ([Loop ARead; Loop (ARequest 1)] ++ replicate 6 (Turn 0)
     ++ [Hand 1; Loop (ACompleted 1); Loop AReply]) one_start.

Lemma one_reachable : reachable codec9p 64 None one_attach ∅ (fst one_run) (snd one_run).
Proof. apply ran_reachable, reach_start. Qed.

Definition one_request : Fcall := newFcall 5 (MessageTattach 1 NOFID "u" "/").
Definition one_response : Fcall := newFcall 5 (MessageRattach (mkQid QTDIR 0 0)).

Lemma one_trace :
  fst one_run = [Accept 1 one_request; Handled 1 one_response; Reply 1 1 one_response].
Proof. vm_compute. reflexivity. Qed.

Lemma one_held : Concurrent.t_held <$> Concurrent.threads (sv_conf (snd one_run)) = [∅].
Proof. vm_compute. reflexivity. Qed.

Lemma server_replies_witness :
  Reply 1 1 one_response ∈ fst one_run ∧
  ∃ req r, Accept 1 req ∈ fst one_run ∧ returned (snd one_run) 1 req r ∧
    one_response = handler_response req r.
Proof.
  destruct (server_replies codec9p 64 None one_attach ∅ (fst one_run) (snd one_run) one_reachable)
    as (_ & _ & H).
  assert (Reply 1 1 one_response ∈ fst one_run) as Hin by (rewrite one_trace; right; right; left).
  split; [exact Hin|exact (H 1 1 one_response Hin)].
Defined.

Lemma server_answers_witness :
  is_open (sv_conn (snd one_run)) ∧ flush_free (fst one_run) ∧
  Acc (flip (works codec9p)) (snd one_run) ∧
  ((∀ sv', ¬ works codec9p (snd one_run) sv') →
   ∃ r, returned (snd one_run) 1 one_request r ∧
     Reply 1 1 (handler_response one_request r) ∈ fst one_run).
Proof.
  destruct (server_answers codec9p 64 None one_attach ∅ (fst one_run) (snd one_run) one_reachable)
    as [Hacc H].
  assert (is_open (sv_conn (snd one_run))) as Ho by (split; vm_compute; reflexivity).
  assert (flush_free (fst one_run)) as Hff.
  { rewrite one_trace. intros id t. by rewrite !elem_of_cons, elem_of_nil; intros [?|[?|[?|?]]]. }
  split; [exact Ho|]. split; [exact Hff|]. split; [exact Hacc|]. intros Hidle.
  apply (H Hidle Ho); [vm_compute; reflexivity|exact Hff|vm_compute; reflexivity| |
    rewrite one_trace; left].
  intros i t Ht [Hne _]. apply Hne.
  pose proof (list_lookup_fmap Concurrent.t_held (Concurrent.threads (sv_conf (snd one_run))) i) as E.
  rewrite one_held, Ht in E. destruct i; [by injection E|discriminate E].
Defined.
End Server.
