(* ===== verification/CSession.v ===== *)
(** * CSession: the client's session, csession.go

    The client implements Session over a roundTripper: each call sends one
    request and checks the type of the response.  A round tripper is a
    parameter of the component ([RoundTripper]); [loopback] is the one that a
    server provides: the message goes to a handler, and its result comes back
    as the server's loop and [send] pack it ([newFcall], [newErrorFcall],
    [send_response]). *)
From S2P Require Import Prelude Types FileSys SFileSys SessionSpec Session SleepFS SSession Transport.

(** transport.go: the interface [roundTripper]. *)
Class RoundTripper (St : Type) :=
  send : context → Message → St → result error (option Message) * St.

Section Client.
Context {St : Type} `{!RoundTripper St}.

(** Send, and take the response apart with a type assertion. *)
Definition call {A} (ctx : context) (msg : Message) (assert : Message → option A) (s : St)
    : result error A * St :=
  match send ctx msg s with
  | (Ok (Some resp), s) =>
      (match assert resp with Some a => Ok a | None => Err ErrUnexpectedMsg end, s)
  | (Ok None, s) => (Err ErrUnexpectedMsg, s)
  | (Err e, s) => (Err e, s)
  | (Panic w, s) => (Panic w, s)
  | (Hang w, s) => (Hang w, s)
  end.

Definition client_Auth (ctx : context) (afid : Z) (uname aname : string) :=
  call ctx (MessageTauth afid uname aname)
    (λ m, match m with MessageRauth q => Some q | _ => None end).

Definition client_Attach (ctx : context) (fid afid : Z) (uname aname : string) :=
  call ctx (MessageTattach fid afid uname aname)
    (λ m, match m with MessageRattach q => Some q | _ => None end).

Definition client_Clunk (ctx : context) (fid : Z) :=
  call ctx (MessageTclunk fid) (λ m, match m with MessageRclunk => Some () | _ => None end).

Definition client_Remove (ctx : context) (fid : Z) :=
  call ctx (MessageTremove fid) (λ m, match m with MessageRremove => Some () | _ => None end).

Definition client_Walk (ctx : context) (fid newfid : Z) (names : list string) (s : St) :=
  if decide (16 < length names)%nat then (Err ErrWalkLimit, s)
  else call ctx (MessageTwalk fid newfid names)
         (λ m, match m with MessageRwalk qids => Some qids | _ => None end) s.

(** [count] is the length of the buffer; the bytes are what is copied. *)
Definition client_Read (ctx : context) (fid count offset : Z) (s : St)
    : result error (bytes * option error) * St :=
  let '(r, s) := call ctx (MessageTread fid (u64 offset) (u32 count))
                   (λ m, match m with MessageRread d => Some d | _ => None end) s in
  ((λ d, (take (Z.to_nat count) d, if decide (len d = 0) then Some EOF else None)) <$> r, s).

Definition client_Write (ctx : context) (fid : Z) (p : bytes) (offset : Z) (s : St)
    : result error (Z * option error) * St :=
  let '(r, s) := call ctx (MessageTwrite fid (u64 offset) p)
                   (λ m, match m with MessageRwrite n => Some n | _ => None end) s in
  ((λ n, (n, if decide (n < len p) then Some ErrShortWrite else None)) <$> r, s).

Definition client_Open (ctx : context) (fid mode : Z) :=
  call ctx (MessageTopen fid mode)
    (λ m, match m with MessageRopen q u => Some (q, u) | _ => None end).

Definition client_Create (ctx : context) (parent : Z) (name : string) (perm mode : Z) :=
  call ctx (MessageTcreate parent name perm mode)
    (λ m, match m with MessageRcreate q u => Some (q, u) | _ => None end).

Definition client_Stat (ctx : context) (fid : Z) :=
  call ctx (MessageTstat fid) (λ m, match m with MessageRstat d => Some d | _ => None end).

Definition client_WStat (ctx : context) (fid : Z) (dir : Dir) :=
  call ctx (MessageTwstat fid dir) (λ m, match m with MessageRwstat => Some () | _ => None end).

(** The client as a Session, with the negotiated msize and version. *)
Definition client (msize : Z) (version : string) : Session St := {|
  sAuth := client_Auth;
  sAttach := client_Attach;
  sClunk := client_Clunk;
  sRemove := client_Remove;
  sWalk := client_Walk;
  sRead := client_Read;
  sWrite := client_Write;
  sOpen := client_Open;
  sCreate := client_Create;
  sStat := client_Stat;
  sWStat := client_WStat;
  sVersion := λ _, (msize, version)
|}.
End Client.

(** ** A client of the server of this package *)

(** The handler's result, packed by the server's loop under the request's
    tag and unpacked by [send]. *)
Definition loopback {St} (handler : context → Message → St → result error Message * St) (tag : Z)
    : RoundTripper St := λ ctx msg s,
  match handler ctx msg s with
  | (Ok m, s) => (send_response (newFcall tag m), s)
  | (Err e, s) => (send_response (newErrorFcall tag e), s)
  | (Panic w, s) => (Panic w, s)
  | (Hang w, s) => (Hang w, s)
  end.

(** An error as it arrives at the other end. *)
Definition remote_error (e : error) : error :=
  match e with E9p s => E9p s | e => E9p (Error_ e) end.

Definition remote {A St} (r : result error A * St) : result error A * St :=
  (match r.1 with Err e => Err (remote_error e) | x => x end, r.2).

Section Loopback.
Context {St : Type} `{!Session St} (msize tag : Z).

#[local] Instance server : RoundTripper St := loopback (Handle msize) tag.

Lemma send_error e : send_response (newErrorFcall tag e) = Err (remote_error e).
Proof. by destruct e. Qed.

Lemma call_respond {A B} ctx msg (r : result error A * St) (k : A → Message)
    (assert : Message → option B) (f : A → B) s :
  Handle msize ctx msg s = respond r k →
  (∀ a, Type_ (k a) ≠ Rerror ∧ assert (k a) = Some (f a)) →
  call ctx msg assert s = remote (f <$> r.1, r.2).
Proof.
  intros E Hk. unfold call, send, server, loopback. rewrite E. unfold respond, remote.
  destruct r as [[a|e|w|w] s']; cbn [fst snd fmap result_fmap]; [| |done|done].
  - destruct (Hk a) as [Ht Ha]. unfold send_response. cbn [Fcall_Type newFcall Fcall_Message].
    rewrite decide_False by done. by rewrite Ha.
  - by rewrite send_error.
Qed.

(** Calls whose result the message carries as it is. *)
Lemma call_id {A} ctx msg (r : result error A * St) (k : A → Message)
    (assert : Message → option A) s :
  (∀ a, Type_ (k a) ≠ Rerror ∧ assert (k a) = Some a) →
  Handle msize ctx msg s = respond r k → call ctx msg assert s = remote r.
Proof.
  intros Hk E. rewrite (call_respond _ _ r k _ id) by done.
  by destruct r as [[] ?].
Qed.

Lemma call_respond_n {A B} ctx msg (r : result error (A * option error) * St) (k : A → Message)
    (assert : Message → option B) (f : A → B) s :
  Handle msize ctx msg s = respond_n r k →
  (∀ a, Type_ (k a) ≠ Rerror ∧ assert (k a) = Some (f a)) →
  call ctx msg assert s
  = remote ('(a, err) ← r.1; match err with Some e => Err e | None => Ok (f a) end, r.2).
Proof.
  intros E Hk. unfold call, send, server, loopback. rewrite E. unfold respond_n, remote.
  destruct r as [[[a [e|]]|e|w|w] s']; cbn [fst snd mbind result_bind]; try done;
    try (by rewrite send_error).
  destruct (Hk a) as [Ht Ha]. unfold send_response. cbn [Fcall_Type newFcall Fcall_Message].
  rewrite decide_False by done. by rewrite Ha.
Qed.
End Loopback.

(** The client's view of a server's session. *)
Definition through {St} `{!Session St} (msize tag : Z) : Session St :=
  client (RoundTripper0 := loopback (Handle msize) tag) msize DefaultVersion.

Lemma int64_u64 z : - 2 ^ 63 ≤ z < 2 ^ 63 → int64 (u64 z) = z.
Proof.
  intros H. unfold int64, u64.
  destruct (decide (0 ≤ z)) as [Hz|Hz].
  - rewrite (Z.mod_small z) by lia. rewrite Z.mod_small; lia.
  - replace (z mod 2 ^ 64) with (z + 2 ^ 64).
    2:{ replace z with (z + 2 ^ 64 + (-1) * 2 ^ 64) at 2 by lia.
        rewrite Z.mod_add by lia. rewrite Z.mod_small; lia. }
    replace (z + 2 ^ 64 + 2 ^ 63) with (z + 2 ^ 63 + 1 * 2 ^ 64) by lia.
    rewrite Z.mod_add by lia. rewrite Z.mod_small; lia.
Qed.

(** ** Theorems *)

(** C25. The client is transparent: a call made through the client's session,
    the protocol messages and the server's handler is the same call on the
    server's session, with the same effect on its state.  Errors arrive as
    protocol errors with their text; a read is limited to what a message
    holds and an empty one is io.EOF; a short write is io.ErrShortWrite; a
    walk of more than 16 names is refused by the client. *)
Theorem client_transparent {St} `{!Session St} msize tag ctx (s : St) :
  (∀ afid u a, sAuth (Session := through msize tag) ctx afid u a s = remote (sAuth ctx afid u a s)) ∧
  (∀ fid afid u a, sAttach (Session := through msize tag) ctx fid afid u a s
                   = remote (sAttach ctx fid afid u a s)) ∧
  (∀ fid, sClunk (Session := through msize tag) ctx fid s = remote (sClunk ctx fid s)) ∧
  (∀ fid, sRemove (Session := through msize tag) ctx fid s = remote (sRemove ctx fid s)) ∧
  (∀ fid newfid names, sWalk (Session := through msize tag) ctx fid newfid names s
     = if decide (16 < length names)%nat then (Err ErrWalkLimit, s)
       else remote (sWalk ctx fid newfid names s)) ∧
  (∀ fid mode, sOpen (Session := through msize tag) ctx fid mode s = remote (sOpen ctx fid mode s)) ∧
  (∀ fid name perm mode, sCreate (Session := through msize tag) ctx fid name perm mode s
                         = remote (sCreate ctx fid name perm mode s)) ∧
  (∀ fid, sStat (Session := through msize tag) ctx fid s = remote (sStat ctx fid s)) ∧
  (∀ fid d, sWStat (Session := through msize tag) ctx fid d s = remote (sWStat ctx fid d s)) ∧
  (∀ fid count off, in_width 32 count → - 2 ^ 63 ≤ off < 2 ^ 63 →
     sRead (Session := through msize tag) ctx fid count off s
     = let r := sRead ctx fid (read_count msize count) off s in
       remote ('(d, err) ← r.1;
               match err with
               | Some e => Err e
               | None => Ok (take (Z.to_nat count) d, if decide (len d = 0) then Some EOF else None)
               end, r.2)) ∧
  (∀ fid p off, - 2 ^ 63 ≤ off < 2 ^ 63 →
     sWrite (Session := through msize tag) ctx fid p off s
     = let r := sWrite ctx fid p off s in
       remote ('(n, err) ← r.1;
               match err with
               | Some e => Err e
               | None => Ok (u32 n, if decide (u32 n < len p) then Some ErrShortWrite else None)
               end, r.2)).
Proof.
  unfold through. change (loopback (Handle msize) tag) with (server msize tag).
  cbn [client sAuth sAttach sClunk sRemove sWalk sOpen sCreate sStat sWStat sRead sWrite].
  split_and!; intros.
  - apply (call_id msize tag _ _ _ MessageRauth); [by intros a'|reflexivity].
  - apply (call_id msize tag _ _ _ MessageRattach); [by intros a'|reflexivity].
  - apply (call_id msize tag _ _ _ (λ _, MessageRclunk)); [by intros []|reflexivity].
  - apply (call_id msize tag _ _ _ (λ _, MessageRremove)); [by intros []|reflexivity].
  - unfold client_Walk. case_decide; [done|].
    apply (call_id msize tag _ _ _ MessageRwalk); [by intros a'|reflexivity].
  - apply (call_id msize tag _ _ _ (λ '(qid, iounit), MessageRopen qid iounit)); [by intros []|reflexivity].
  - apply (call_id msize tag _ _ _ (λ '(qid, iounit), MessageRcreate qid iounit)); [by intros []|reflexivity].
  - apply (call_id msize tag _ _ _ MessageRstat); [by intros a'|reflexivity].
  - apply (call_id msize tag _ _ _ (λ _, MessageRwstat)); [by intros []|reflexivity].
  - unfold client_Read. rewrite u32_small by (unfold in_width in *; lia).
    rewrite (call_respond_n msize tag ctx _ (sRead ctx fid (read_count msize count) off s)
               MessageRread _ id); [|by cbn; rewrite int64_u64|done].
    by destruct (sRead _ _ _ _ _) as [[[d [e|]]| | |] s'].
  - unfold client_Write.
    rewrite (call_respond_n msize tag ctx _ (sWrite ctx fid p off s)
               (λ n, MessageRwrite (u32 n)) _ u32); [|by cbn; rewrite int64_u64|done].
    by destruct (sWrite _ _ _ _ _) as [[[n [e|]]| | |] s'].
Qed.

Lemma client_transparent_witness :
  sRead (Session := through 64 7) None 1 100 0 sleep_attached
  = remote ('(d, err) ← fst (sRead None 1 (read_count 64 100) 0 sleep_attached);
            match err with
            | Some e => Err e
            | None => Ok (take (Z.to_nat 100) d, if decide (len d = 0) then Some EOF else None)
            end, snd (sRead None 1 (read_count 64 100) 0 sleep_attached)).
Proof.
  destruct (client_transparent 64 7 None sleep_attached)
    as (_ & _ & _ & _ & _ & _ & _ & _ & _ & H & _).
  apply H; [apply (bool_decide_unpack _); vm_compute; exact I|lia].
Defined.
