(* ===== verification/CFileSys.v ===== *)
(** * CFileSys: the client's file system, cfilesys.go

    [CFileSys] makes a FileSys of a Session: entries are fids of the session,
    which it numbers itself.  The state is that of the session with the last
    fid given out.  An entry keeps the qid it got from the server; [c_fs] is
    false for the entries whose pointer to the state is nil ([noEnt]). *)
From S2P Require Import Prelude Types Encoding EncodingFacts Codec Path Readdir FileSys SFileSys.
From S2P Require Import SessionSpec Session.

Module CFileSys.

Record cEnt := mkCEnt { c_fid : Z; c_qid : Qid; c_fs : bool }.
Definition noEnt : cEnt := mkCEnt NOFID zeroQid false.

(** The dynamic types of File: an authentication file and an open file. *)
Inductive cfile :=
| aFile (afid : Z)
| fileRef (ent : cEnt) (iounit : Z).

Record openDir := mkOpenDir {
  od_ref : cfile;
  od_done : bool;
  od_nread : Z;
  od_buflen : Z                      (* len(dir.buf) *)
}.

Section CFileSys.
Context {St : Type} `{!Session St}.

Record fsState := mkFs { c_session : St; nextfid : Z }.

Definition CFileSys (s : St) : fsState := mkFs s 0.

(** ** The monad *)

Definition C (A : Type) : Type := fsState → result error A * fsState.

#[global] Instance C_ret : MRet C := λ A a w, (Ok a, w).
#[global] Instance C_bind : MBind C := λ A B f m w,
  match m w with
  | (Ok a, w) => f a w
  | (Err e, w) => (Err e, w)
  | (Panic y, w) => (Panic y, w)
  | (Hang y, w) => (Hang y, w)
  end.

Definition cfail {A} (e : error) : C A := λ w, (Err e, w).
Definition cpanic {A} (why : string) : C A := λ w, (Panic why, w).

(** A call of the session. *)
Definition sess {A} (m : St → result error A * St) : C A := λ w,
  let '(r, s) := m (c_session w) in (r, mkFs s (nextfid w)).

(** [ent.fs], which must not be nil. *)
Definition on_ent {A} (ent : cEnt) (m : C A) : C A :=
  if c_fs ent then m else cpanic "nil pointer dereference".

Definition newFid : C Z := λ w,
  let fid := u32 (nextfid w + 1) in (Ok fid, mkFs (c_session w) fid).

Definition msize : C Z := λ w, (Ok (fst (sVersion (c_session w))), w).

(** ** AuthFile and File *)

Definition file_session {A} (f : cfile) (m : Z → C A) : C A :=
  match f with
  | aFile afid => m afid
  | fileRef ent _ => on_ent ent (m (c_fid ent))
  end.

Definition cRead (ctx : context) (f : cfile) (count offset : Z) : C (bytes * option error) :=
  file_session f (λ fid, sess (sRead ctx fid count offset)).
Definition cWrite (ctx : context) (f : cfile) (p : bytes) (offset : Z) : C (Z * option error) :=
  file_session f (λ fid, sess (sWrite ctx fid p offset)).
Definition cIOUnit (f : cfile) (w : fsState) : Z :=
  match f with
  | aFile _ => fst (sVersion (c_session w)) - 11
  | fileRef _ iou => iou
  end.

(** ** FileSys *)

Definition cAuth (ctx : context) (uname aname : string) : C cfile :=
  afid ← newFid;
  sess (sAuth ctx afid uname aname);;
  mret (aFile afid).

Definition cAttach (ctx : context) (uname aname : string) (af : option cfile) : C cEnt :=
  rootFid ← newFid;
  afid ← match af with
         | None => mret NOFID
         | Some (aFile afid) => mret afid
         | Some (fileRef _ _) => cfail ErrUnknownfid
         end;
  qid ← sess (sAttach ctx rootFid afid uname aname);
  mret (mkCEnt rootFid qid true).

(** ** Dirent *)

(** The I/O unit of an opened entry. *)
Definition iou_of (iounit : Z) : C Z :=
  if decide (iounit < 1) then m ← msize; mret (m - 11) else mret iounit.

Definition cOpen (ctx : context) (ent : cEnt) (mode : Z) : C cfile :=
  on_ent ent
    ('(_, iounit) ← sess (sOpen ctx (c_fid ent) mode);
     iou ← iou_of iounit;
     mret (fileRef ent iou)).

Definition cOpenDir (ctx : context) (ent : cEnt) : C openDir :=
  file ← cOpen ctx ent OREAD;
  n ← (λ w, (Ok (cIOUnit file w), w));
  if decide (n < 0) then cpanic "makeslice: len out of range"
  else mret (mkOpenDir file false 0 n).

(** The loop over the entries of a buffer: what is decoded, and the error
    that stops it, nil for io.EOF.  An entry takes two bytes at least. *)
Fixpoint decode_loop (fuel : nat) (rd : bytes) : result error (list Dir * option error) :=
  match fuel with
  | O => Hang "Next"
  | S fuel =>
      match DecodeDir NewCodec rd with
      | Ok (d, rd) => '(ds, err) ← decode_loop fuel rd; Ok (d :: ds, err)
      | Err EOF => Ok ([], None)
      | Err e => Ok ([], Some e)
      | Panic y => Panic y
      | Hang y => Hang y
      end
  end.

(** [Next]; it changes the directory it is a method of. *)
Definition Next (ctx : context) (dir : openDir) (w : fsState)
    : result error (list Dir) * (openDir * fsState) :=
  let with_done dir b := mkOpenDir (od_ref dir) b (od_nread dir) (od_buflen dir) in
  if od_done dir then (Ok [], (dir, w))
  else
    let ended e w :=
      if decide (e = EOF) then (Ok [], (with_done dir true, w)) else (Err e, (dir, w)) in
    match cRead ctx (od_ref dir) (od_buflen dir) (od_nread dir) w with
    | (Ok (p, Some e), w) => ended e w
    | (Err e, w) => ended e w
    | (Ok (p, None), w) =>
        let dir := mkOpenDir (od_ref dir) (od_done dir) (int64 (od_nread dir + len p))
                     (od_buflen dir) in
        match decode_loop (S (length p)) p with
        | Ok (ret, err) =>
            let dir := if decide (ret = []) then with_done dir true else dir in
            (match err with Some e => Err e | None => Ok ret end, (dir, w))
        | Err e => (Err e, (dir, w))
        | Panic y => (Panic y, (dir, w))
        | Hang y => (Hang y, (dir, w))
        end
    | (Panic y, w) => (Panic y, (dir, w))
    | (Hang y, w) => (Hang y, (dir, w))
    end.

(** [strings.Contains(name, "/\\")] *)
Definition contains_slash_backslash (name : string) : bool :=
  match String.index 0 ("/" +:+ String backslash EmptyString) name with
  | Some _ => true
  | None => false
  end.

Definition cIsDir (ent : cEnt) : bool := negb (Z.land (Qid_Type (c_qid ent)) QTDIR =? 0).

Definition cCreate (ctx : context) (ent : cEnt) (name : string) (perm mode : Z)
    : C (cEnt * cfile) :=
  if decide (name = "" ∨ name = "." ∨ name = ".." ∨ contains_slash_backslash name = true)
  then cfail (E9p "Invalid filename")
  else if negb (cIsDir ent) then cfail ErrCreatenondir
  else
    on_ent ent
      ('(qid, iounit) ← sess (sCreate ctx (c_fid ent) name perm mode);
       let ent := mkCEnt (c_fid ent) qid (c_fs ent) in
       iou ← iou_of iounit;
       mret (ent, fileRef ent iou)).

Definition cStat (ctx : context) (ent : cEnt) : C Dir :=
  on_ent ent (sess (sStat ctx (c_fid ent))).
Definition cWStat (ctx : context) (ent : cEnt) (stat : Dir) : C unit :=
  on_ent ent (sess (sWStat ctx (c_fid ent) stat)).
Definition cClunk (ctx : context) (ent : cEnt) : C unit :=
  on_ent ent (sess (sClunk ctx (c_fid ent))).
Definition cRemove (ctx : context) (ent : cEnt) : C unit :=
  on_ent ent (sess (sRemove ctx (c_fid ent))).

Definition cWalk (ctx : context) (ent : cEnt) (names : list string) : C (list Qid * cEnt) :=
  let '(steps, bsp) := NormalizePath names in
  if decide (bsp < 0) then cfail (E9p ("invalid path: " +:+ join_slash names))
  else
    on_ent ent
      (next ← newFid;
       qids ← sess (sWalk ctx (c_fid ent) next (default [] steps));
       if decide (length qids ≠ length names) then cfail (Warning "Incomplete walk result")
       else mret (qids, mkCEnt next (default (c_qid ent) (last qids)) true)).

(** The client as a file system. *)
Definition cFileSys : FileSys := {|
  World := fsState;
  Dirent := cEnt;
  File := cfile;
  Iter := openDir;
  RequireAuth _ _ := false;
  Auth_ ctx uname aname w := (Some <$> fst (cAuth ctx uname aname w), snd (cAuth ctx uname aname w));
  Attach_ ctx uname aname af w := cAttach ctx uname aname af w;
  is_AuthFile f := match f with aFile _ => true | fileRef _ _ => false end;
  Success _ _ := false;
  file_Read := cRead;
  file_Write := cWrite;
  file_IOUnit := cIOUnit;
  ent_Qid ent _ := c_qid ent;
  ent_OpenDir := cOpenDir;
  iter_Next := Next;
  ent_Walk ctx ent names w :=
    let '(r, w) := cWalk ctx ent names w in
    ((λ '(qids, next), (qids, Some next)) <$> r, w);
  ent_Create ctx ent name perm mode w :=
    let '(r, w) := cCreate ctx ent name perm mode w in
    ((λ '(next, file), (Some next, Some file)) <$> r, w);
  ent_Open ctx ent mode w :=
    let '(r, w) := cOpen ctx ent mode w in (Some <$> r, w);
  ent_Remove := cRemove;
  ent_Clunk := cClunk;
  ent_Stat := cStat;
  ent_WStat := cWStat
|}.
End CFileSys.
End CFileSys.
