(* ===== verification/RamServe.v ===== *)
(** * RamServe: the session of this package over ramfs

    The server session (SFileSys) with ramfs as its file server.  The
    references that ramfs counts are those of the entries in the table of
    fids: [RInv] says that the counts are right and that the fids are well
    formed.  Every request keeps it, and every request is answered. *)
From S2P Require Import Prelude Types Encoding EncodingFacts Codec Path Readdir FileSys SFileSys.
From S2P Require Import SessionSpec Session RamFS RamInv SSession.

Module RamServe.
Import RamFS RamInv.

Section Serve.
Context (range : gmap string Z → list (string * Z)).
Context (range_perm : ∀ m, range m ≡ₚ map_to_list m).
(** What the other sessions on this server hold. *)
Context (others : list Z).

#[local] Instance ram : FileSys := ramServer range.

(** ** The references in a table of fids *)

Definition sf_refs (sf : SFid) : list Z :=
  match sf_Ent sf with Some h => handle_refs h | None => [] end.
Definition fid_refs (m : gmap Z SFid) : list Z := map_to_list m ≫= λ x, sf_refs x.2.

(** These, and those of the other sessions on the same server. *)
Definition held_refs (m : gmap Z SFid) : list Z := fid_refs m ++ others.

(** An entry is a handle the server gave out; an open file has its node. *)
Definition wf_sfid (w : fServer) (sf : SFid) : Prop :=
  (∀ h, sf_Ent sf = Some h → wf_handle h) ∧
  (∀ h, sf_File sf = Some (FUser h) → ∃ a, h_ent h = Some a ∧ is_Some (nodes w !! a)).

Record RInv (t : table) : Prop := mkRInv {
  rinv_inv : Inv (t_world t) (root :: held_refs (t_fids t));
  rinv_wf : map_Forall (λ _ sf, wf_sfid (t_world t) sf) (t_fids t)
}.

Lemma held_refs_insert m fid sf :
  m !! fid = None → held_refs (<[fid := sf]> m) ≡ₚ sf_refs sf ++ held_refs m.
Proof.
  intros H. unfold held_refs, fid_refs. rewrite map_to_list_insert by done. cbn.
  by rewrite <-app_assoc.
Qed.

Lemma held_refs_delete m fid sf :
  m !! fid = Some sf → held_refs m ≡ₚ sf_refs sf ++ held_refs (delete fid m).
Proof.
  intros H. rewrite <-(insert_delete_id m fid sf H) at 1.
  apply held_refs_insert. apply lookup_delete_eq.
Qed.

Lemma held_refs_replace m fid sf :
  held_refs (<[fid := sf]> m) ≡ₚ sf_refs sf ++ held_refs (delete fid m).
Proof. rewrite <-insert_delete_eq. apply held_refs_insert, lookup_delete_eq. Qed.

Lemma wf_sfid_grows w w' sf : grows w w' → wf_sfid w sf → wf_sfid w' sf.
Proof.
  intros Hg [H1 H2]. split; [done|]. intros h Hh. destruct (H2 h Hh) as (a & ? & ?).
  exists a. split; [done|by apply Hg].
Qed.

(** ** Operations that keep the invariant *)

(** The call returned, the invariant holds, and no node has gone. *)
Definition served {A} (t : table) (r : result error A * table) : Prop :=
  returns (fst r) ∧ RInv (snd r) ∧ grows (t_world t) (t_world (snd r)).

#[local] Hint Extern 0 (grows _ _) => reflexivity : core.

Lemma rinv_live t fid sf h :
  RInv t → t_fids t !! fid = Some sf → sf_Ent sf = Some h → Forall (live (t_world t)) (handle_refs h).
Proof.
  intros [HI _] Hf Hh. apply Forall_forall. intros a Ha. eapply Inv_held; [exact HI|].
  right. rewrite (held_refs_delete _ _ _ Hf). apply elem_of_app. left. unfold sf_refs. by rewrite Hh.
Qed.

(** What an operation on one fid has to do. *)
Definition fid_post {A} (w : fServer) (R : list Z) (x : result error A * (SFid * fServer)) : Prop :=
  let '(r, (sf, w')) := x in
  returns r ∧ grows w w' ∧ wf_sfid w' sf ∧ Inv w' (sf_refs sf ++ root :: R).

Lemma on_fid_served {A} fid (g : SFid → Dirent → World → result error A * (SFid * World)) t :
  RInv t →
  (∀ sf h R, t_fids t !! fid = Some sf → sf_Ent sf = Some h → wf_sfid (t_world t) sf →
     Inv (t_world t) (handle_refs h ++ root :: R) → fid_post (t_world t) R (g sf h (t_world t))) →
  served t (on_fid fid g t).
Proof.
  intros HR Hg. unfold on_fid.
  destruct (t_fids t !! fid) as [sf|] eqn:Hf; [|by split].
  destruct (sf_Ent sf) as [h|] eqn:Hh; [|by split].
  pose proof (rinv_inv t HR) as HI. rewrite (held_refs_delete _ _ _ Hf) in HI.
  unfold sf_refs in HI. rewrite Hh, Permutation_middle in HI.
  specialize (Hg sf h _ eq_refl Hh (rinv_wf t HR fid sf Hf) HI).
  destruct (g sf h (t_world t)) as [r [sf' w']]. destruct Hg as (Hr & Hgr & Hwf & HI').
  split; [done|split; [|exact Hgr]]. cbn [snd]. split; cbn [t_world t_fids].
  - by rewrite held_refs_replace, Permutation_middle.
  - apply map_Forall_insert_2; [done|]. intros fid' sf2 H2.
    eapply wf_sfid_grows; [done|]. by eapply (rinv_wf t HR fid').
Qed.

Lemma new_served t fid sf w' :
  RInv t → t_fids t !! fid = None → grows (t_world t) w' → wf_sfid w' sf →
  Inv w' (sf_refs sf ++ root :: held_refs (t_fids t)) →
  RInv (mkTable w' (<[fid := sf]> (t_fids t))).
Proof.
  intros HR Hf Hg Hwf HI. split; cbn [t_world t_fids].
  - by rewrite held_refs_insert, Permutation_middle.
  - apply map_Forall_insert_2; [done|]. intros fid' sf2 H2.
    eapply wf_sfid_grows; [done|]. by eapply (rinv_wf t HR fid').
Qed.

Lemma same_served {A} (r : result error A) t w' :
  RInv t → w' = t_world t → returns r → served t (r, mkTable w' (t_fids t)).
Proof. intros HR -> Hr. by destruct t. Qed.

Lemma served_respond {A} t (r : result error A * table) k : served t r → served t (respond r k).
Proof. intros [H1 H2]. split; [|exact H2]. unfold respond. cbn. by destruct (fst r). Qed.

Lemma served_respond_n {A} t (r : result error (A * option error) * table) k :
  served t r → served t (respond_n r k).
Proof.
  intros [H1 H2]. split; [|exact H2]. unfold respond_n. cbn.
  by destruct (fst r) as [[a [e|]]| | |].
Qed.

(** An operation that leaves the SFid and the server as they are. *)
Lemma fid_post_same {A} (r : result error A) sf h w R :
  returns r → sf_Ent sf = Some h → wf_sfid w sf → Inv w (handle_refs h ++ root :: R) →
  fid_post w R (r, (sf, w)).
Proof. intros Hr Hh Hw HI. split_and!; [done|done|done|]. unfold sf_refs. by rewrite Hh. Qed.

Lemma live_ent h w R :
  wf_handle h → Inv w (handle_refs h ++ R) → ∃ a f, h_ent h = Some a ∧ nodes w !! a = Some f.
Proof.
  intros ([a Ha] & _) HI. destruct (Inv_held w _ a HI) as (f & Hf & _).
  { apply elem_of_app. left. by apply elem_of_handle_refs. }
  by exists a, f.
Qed.

Lemma stat_served ctx fid t : RInv t → served t (spec_Stat ctx fid t).
Proof.
  intros HR. apply on_fid_served; [done|]. intros sf h R _ Hh Hwf HI.
  destruct (live_ent h (t_world t) _ (proj1 Hwf h Hh) HI) as (a & f & Ha & Hf).
  cbn [ent_Stat ram ramServer]. unfold Stat. rewrite Ha. frun. by eapply fid_post_same.
Qed.

Lemma wstat_served ctx fid dir t : RInv t → served t (spec_WStat ctx fid dir t).
Proof.
  intros HR. apply on_fid_served; [done|]. intros sf h R _ Hh Hwf HI.
  destruct (live_ent h (t_world t) _ (proj1 Hwf h Hh) HI) as (a & f & Ha & Hf).
  cbn [FileSys.ent_WStat ram ramServer]. unfold WStat. rewrite Ha. frun.
  destruct (ent_WStat_spec a dir (t_world t) _ f HI Hf) as (r & w' & -> & Hr & HI' & Hg).
  split_and!; [done|done|by eapply wf_sfid_grows|]. unfold sf_refs. by rewrite Hh.
Qed.

Lemma delete_served ctx fid (remove : bool) t :
  RInv t →
  (∀ sf h, remove = true → t_fids t !! fid = Some sf → sf_Ent sf = Some h →
     own_link h (t_world t)) →
  served t (spec_delete ctx fid remove t).
Proof.
  intros HR Ho. unfold spec_delete. destruct (t_fids t !! fid) as [sf|] eqn:Hf; [|by split].
  pose proof (rinv_inv t HR) as HI. rewrite (held_refs_delete _ _ _ Hf) in HI.
  unfold sf_refs in HI.
  assert (∀ w', grows (t_world t) w' → Inv w' (root :: held_refs (delete fid (t_fids t))) →
            RInv (mkTable w' (delete fid (t_fids t)))) as Hdel.
  { intros w' Hg HI'. split; [done|]. cbn [t_world t_fids]. apply map_Forall_delete.
    intros fid' sf' H'. eapply wf_sfid_grows; [done|]. by eapply (rinv_wf t HR fid'). }
  destruct (sf_Ent sf) as [h|] eqn:Hh; [|split_and!; [done|by apply Hdel|done]].
  rewrite Permutation_middle in HI.
  pose proof (proj1 (rinv_wf t HR fid sf Hf) h Hh) as Hwf.
  assert (∃ r w', (if remove then ent_Remove ctx h else ent_Clunk ctx h) (t_world t) = (r, w') ∧
            returns r ∧ Inv w' (root :: held_refs (delete fid (t_fids t))) ∧ same (t_world t) w')
    as (r & w' & -> & Hr & HI' & Hs).
  { destruct remove.
    - by apply Remove_spec; [| |eapply Ho|].
    - destruct (Clunk_spec range range_perm h (t_world t) _ Hwf HI) as (w' & E & HI' & Hs).
      by exists (Ok ()), w'. }
  split_and!; [done|apply Hdel; [by apply same_grows|done]|by apply same_grows].
Qed.

Lemma walk_ent_spec ctx h names w R :
  wf_handle h → Inv w R → Forall (live w) (handle_refs h) →
  ∃ r w', spec_walk_ent ctx h names w = (r, w') ∧ walk_post names w R r w'.
Proof.
  intros Hwf HI Hl. destruct (Walk_spec h names w R Hwf HI Hl) as (r & w' & E & Hpost).
  unfold spec_walk_ent. cbn [FileSys.ent_Walk ram ramServer].
  case_decide as Hn; [subst names|case_match; [by eexists _, _|]];
    rewrite F_bind_run, E; destruct r as [[qids rh]|e|y|y]; try done; rewrite ?F_ret_run;
    eexists _, _; (split; [done|]); try done.
  revert Hpost. unfold walk_post. cbn. case_decide; [done|]. by intros [? _].
Qed.

Lemma walk_new_served ctx fid newfid names t :
  RInv t → newfid ≠ fid → served t (spec_Walk ctx fid newfid names t).
Proof.
  intros HR Hne. unfold spec_Walk. case_decide; [by split|]. rewrite decide_False by done.
  destruct (t_fids t !! fid) as [[[h|] file md]|] eqn:Hf; [|by split|by split].
  case_decide; [by split|]. case_decide as Hnew; [by split|].
  destruct (walk_ent_spec ctx h names (t_world t) (root :: held_refs (t_fids t)))
    as (r & w' & -> & Hpost);
    [by eapply (rinv_wf t HR fid)|apply HR|by eapply rinv_live|].
  unfold walk_post in Hpost. destruct r as [[qids rh]|e|y|y]; [|by apply same_served|done|done].
  case_decide; [|by destruct Hpost as [_ ->]; apply same_served].
  destruct Hpost as (Hwf & HI & Hs). split; [done|split; [|by apply same_grows]]. cbn [snd].
  apply new_served; [done|by apply eq_None_not_Some|by apply same_grows| |done].
  split; [|done]. by intros h' [= <-].
Qed.

Lemma walk_same_served ctx fid names t : RInv t → served t (spec_Walk ctx fid fid names t).
Proof.
  intros HR. unfold spec_Walk. case_decide; [by split|]. rewrite decide_True by done.
  apply on_fid_served; [done|]. intros sf h R Hf Hh Hwf HI.
  unfold spec_walk_same. case_decide; [by eapply fid_post_same|].
  destruct (walk_ent_spec ctx h names (t_world t) (handle_refs h ++ root :: R))
    as (r & w' & -> & Hpost);
    [by apply Hwf|done|by eapply rinv_live|].
  unfold walk_post in Hpost.
  destruct r as [[qids rh]|e|y|y]; [|by subst w'; eapply fid_post_same|done|done].
  assert (length qids ≠ length names → w' = t_world t) as Hpart.
  { intros Hn. rewrite decide_False in Hpost by done. apply Hpost. }
  destruct (decide (length qids = 0)%nat) as [Hq0|_].
  { rewrite Hpart; [by eapply fid_post_same|]. rewrite Hq0. by destruct names. }
  destruct (decide (length qids ≠ length names)) as [Hlen|Hlen];
    [rewrite Hpart by done; by eapply fid_post_same|].
  rewrite decide_True in Hpost by (by apply dec_stable). destruct Hpost as (Hwr & HI1 & Hs1).
  rewrite Permutation_app_swap_app in HI1.
  destruct (Clunk_spec range range_perm h w' _ (proj1 Hwf h Hh) HI1) as (w2 & E & HI2 & Hs2).
  cbn [ent_Clunk ram ramServer]. rewrite E. split_and!; [done| | |done].
  - etrans; by apply same_grows.
  - split; [by intros h' [= <-]|]. intros h' Hh'. cbn [sf_File] in Hh'.
    destruct (proj2 Hwf h' Hh') as (a & Ha & Hn). exists a. split; [done|].
    by apply (same_grows _ _ Hs2), (same_grows _ _ Hs1).
Qed.

Lemma attach_served ctx fid afid uname aname t :
  RInv t → served t (spec_Attach ctx fid afid uname aname t).
Proof.
  intros HR.
  assert (∀ af, served t (spec_Attach_new ctx fid uname aname af t)) as Hnew.
  { intros af. unfold spec_Attach_new, new_fid. case_decide; [by split|].
    destruct (t_fids t !! fid) eqn:Hf; [by split|].
    unfold attach_fill. cbn [Attach_ ram ramServer].
    destruct (Attach_spec uname (t_world t) _ (rinv_inv t HR)) as (h & w' & -> & Hwf & HI & Hs).
    split; [done|split; [|by apply same_grows]]. cbn. apply new_served; [done|done|by apply same_grows| |done].
    split; [|done]. by intros h' [= <-]. }
  unfold spec_Attach. case_decide; [done|]. by repeat case_match.
Qed.

Lemma auth_served ctx afid uname aname t : RInv t → served t (spec_Auth ctx afid uname aname t).
Proof. intros HR. unfold spec_Auth. case_decide; by split. Qed.

(** ** Opening and creating *)

Lemma load_infos_spec w cs :
  Forall (live w) cs → ∃ ds, load_infos cs w = (Ok ds, w) ∧ length ds = length cs.
Proof.
  induction 1 as [|c cs (f & Hf & _) _ (ds & E & Hl)]; [by exists []|].
  cbn [load_infos]. frun. rewrite E. frun. eexists. split; [done|]. simpl. by rewrite Hl.
Qed.

(** The errors of OpenDir: the node's mode does not say directory. *)
Lemma OpenDir_spec h a f w R :
  h_ent h = Some a → nodes w !! a = Some f → Inv w (handle_refs h ++ R) →
  ∃ r, OpenDir range h w = (r, w) ∧
    if ent_IsDir f then ∃ it, r = Ok it else r = Err (E9p "not a directory").
Proof.
  intros Ha Hf HI. unfold OpenDir. rewrite Ha. frun.
  assert (∃ g, nodes w !! default a (last (h_parents h)) = Some g) as [g Hg].
  { destruct (last (h_parents h)) as [p|] eqn:Hp; [|by exists f].
    destruct (Inv_held w _ p HI) as (g & Hg & _); [|by exists g].
    apply elem_of_app. left. apply elem_of_handle_parents. by apply last_Some_elem_of. }
  frun. unfold ent_OpenDir. frun. destruct (ent_IsDir f); cbn [negb]; [|by eexists].
  frun. destruct (load_infos_spec w (snd <$> range (default ∅ (children f)))) as (ds & -> & _).
  { rewrite range_perm. apply Forall_fmap, Forall_forall. intros [name c] Hc%elem_of_map_to_list.
    destruct (Inv_held w _ a HI) as (f' & Hf' & Hn).
    { apply elem_of_app. left. by apply elem_of_handle_refs. }
    simplify_eq. exact (live_child w _ a _ name c HI Hf Hn Hc). }
  frun. eauto.
Qed.

Lemma open_served ctx fid mode t : RInv t → served t (spec_Open ctx fid mode t).
Proof.
  intros HR. apply on_fid_served; [done|]. intros sf h R _ Hh Hwf HI.
  destruct (live_ent h (t_world t) _ (proj1 Hwf h Hh) HI) as (a & f & Ha & Hf).
  destruct (sf_File sf); [by eapply fid_post_same|]. unfold spec_open_file.
  destruct (IsDir h (t_world t)).
  - cbn [FileSys.ent_OpenDir ram ramServer].
    destruct (OpenDir_spec h a f (t_world t) _ Ha Hf HI) as (ro & -> & Hr).
    destruct (ent_IsDir f); [destruct Hr as [it ->]|subst ro; by eapply fid_post_same].
    eapply fid_post_same; [done|done| |done]. split; [|done]. intros h' [= <-]. by apply Hwf.
  - cbn [ent_Open ram ramServer mbind result_bind nonnil fmap result_fmap].
    eapply fid_post_same; [done|done| |done].
    split; [intros h' [= <-]; by apply Hwf|]. intros h' [= <-]. eauto.
Qed.

(** A new directory says so in its mode and in its qid. *)
Lemma created_dir h name perm mode w h2 w' :
  Create h name perm mode w = (Ok h2, w') → IsDir h2 w' = true →
  ∃ a f, h_ent h2 = Some a ∧ nodes w' !! a = Some f ∧ ent_IsDir f = true.
Proof.
  unfold Create, createImpl. intros (hi & w1 & (path & w2 & _ & E2)%F_bind_inv & E1)%F_bind_inv.
  destruct (h_sess h) as [u|]; [|done].
  apply F_bind_inv in E2 as (p & w3 & _ & E2). apply F_bind_inv in E2 as (d & w4 & Ed & E2).
  apply F_bind_inv in E2 as (pa & w5 & _ & E2). apply F_bind_inv in E2 as (a & w6 & E6 & E2).
  apply F_bind_inv in E2 as (nm & w7 & E7 & E2).
  unfold fs_Create in E6. apply F_bind_inv in E6 as (a' & w8 & _ & E6).
  apply F_bind_inv in E6 as ([] & w9 & _ & E6). apply F_bind_inv in E6 as ([] & w10 & E10 & E6).
  injection E6 as <- <-. injection E10 as <-. injection Ed as <- <-.
  unfold incref in E7. erewrite F_bind_run, load_run in E7 by (cbn; apply lookup_insert_eq).
  cbn in E7. injection E7 as <- <-. injection E2 as <- <-. injection E1 as <- <-.
  unfold IsDir. cbn. rewrite lookup_insert_eq. cbn. intros Hd.
  eexists _, _. split; [done|]. rewrite lookup_insert_eq. split; [done|].
  apply bool_decide_eq_true. by destruct (decide (0 < _)) in Hd.
Qed.

Lemma create_served ctx parent name perm mode t :
  RInv t → served t (spec_Create ctx parent name perm mode t).
Proof.
  intros HR. unfold spec_Create. case_decide; [by split|].
  destruct (t_fids t !! parent) as [[[h0|] file md]|]; [|by split|by split].
  apply on_fid_served; [done|]. intros sf h R _ Hh Hwf HI.
  unfold spec_create. destruct (IsDir h (t_world t)); cbn [negb]; [|by eapply fid_post_same].
  cbn [ent_Create ram ramServer]. rewrite F_bind_run.
  destruct (Create_spec h name perm mode (t_world t) _ (proj1 Hwf h Hh) HI)
    as (r & w1 & E & Hg & Hr). rewrite E.
  destruct r as [h2|e|y|y]; [| |done|done].
  2:{ split_and!; [done|done|by eapply wf_sfid_grows|]. unfold sf_refs. by rewrite Hh. }
  rewrite F_ret_run. cbv beta iota zeta. destruct Hr as [Hw2 HI2].
  destruct (@IsDir ram h2 w1) eqn:Hd2.
  - destruct (created_dir _ _ _ _ _ _ _ E Hd2) as (a & f & Ha & Hf & Hdir).
    cbn [FileSys.ent_OpenDir ram ramServer].
    destruct (OpenDir_spec h2 a f w1 _ Ha Hf HI2) as (ro & -> & Hr). rewrite Hdir in Hr.
    destruct Hr as [it ->]. cbn [fmap result_fmap]. split_and!; [done|done| |done].
    split; [by intros h' [= <-]|done].
  - split_and!; [done|done| |done].
    destruct (live_ent h2 w1 _ Hw2 HI2) as (a & f & Ha & Hf).
    split; [by intros h' [= <-]|]. intros h' [= <-]. eauto.
Qed.

(** ** Reading and writing *)

Lemma next1_answers ctx (w : World) (st : list Dir * bool * (Iter * World)) :
  st.2.2 = w →
  returns (fst (mkNext1 (λ '(it, w), iter_Next ctx it w) st)) ∧
  (snd (mkNext1 (λ '(it, w), iter_Next ctx it w) st)).2.2 = w.
Proof.
  destruct st as [[ds dn] [it w']]. cbn [snd]. intros ->. unfold mkNext1.
  destruct dn; [done|]. destruct ds as [|d ds]; [|done].
  cbn [iter_Next ram ramServer]. destruct (Next it) as [[|d ds] it']; done.
Qed.

Lemma dir_Read_served ctx rd cap off (w : World) :
  ∃ r rd', dir_Read ctx rd cap off w = (r, rd', w) ∧ returns r.
Proof.
  unfold dir_Read. destruct (rd_next rd) as [[ds dn] it].
  destruct (Read_answers codec9p (mkNext1 (λ '(it, w), iter_Next ctx it w))
    (λ st, st.2.2 = w) (next1_answers ctx w)
    (mkReaddir (ds, dn, (it, w)) (rd_buf rd) (rd_offset rd)) cap off eq_refl) as [Hr Hs].
  unfold NewCodec. destruct (Readdir.Read _ _ _ _ _) as [r rd']. cbn [fst snd] in Hr, Hs.
  destruct (rd_next rd') as [[ds' dn'] [it' w']]. cbn in Hs. subst w'. eauto.
Qed.

Lemma read_served ctx fid count offset t :
  RInv t → 0 ≤ offset → 0 ≤ count → offset + count < 2 ^ 63 →
  served t (spec_Read ctx fid count offset t).
Proof.
  intros HR Ho Hc Hs. apply on_fid_served; [done|]. intros sf h R _ Hh Hwf HI.
  destruct (sf_File sf) as [[fh|rd]|] eqn:Hfile; [| |by eapply fid_post_same].
  - case_decide; [by eapply fid_post_same|].
    destruct (proj2 Hwf fh Hfile) as (a & Ha & [f Hf]).
    cbn [file_Read ram ramServer]. unfold Read. rewrite Ha. frun.
    destruct (ent_Read_spec a count offset (t_world t) f Hf) as (r & -> & Hr).
    eapply fid_post_same; [by apply Hr|done..].
  - case_decide; [by eapply fid_post_same|].
    destruct (dir_Read_served ctx rd count offset (t_world t)) as (r & rd' & -> & Hr).
    eapply fid_post_same; [done|done| |done]. split; [|done]. cbn [sf_Ent]. apply Hwf.
Qed.

Lemma write_served ctx fid p offset t :
  RInv t → 0 ≤ offset → offset + len p < 2 ^ 63 → served t (spec_Write ctx fid p offset t).
Proof.
  intros HR Ho Hs. apply on_fid_served; [done|]. intros sf h R _ Hh Hwf HI.
  destruct (sf_File sf) as [[fh|rd]|] eqn:Hfile; [| |by eapply fid_post_same].
  - case_decide; [by eapply fid_post_same|].
    destruct (proj2 Hwf fh Hfile) as (a & Ha & [f Hf]).
    cbn [file_Write ram ramServer]. unfold Write. rewrite Ha. frun.
    destruct (ent_Write_spec a p offset (t_world t) _ f HI Hf) as (r & w' & -> & HI' & Hg & Hr).
    split_and!; [by apply Hr|done|by eapply wf_sfid_grows|]. unfold sf_refs. by rewrite Hh.
  - case_decide; by eapply fid_post_same.
Qed.

(** ** The server *)

(** The requests the theorem is about: offsets that are not negative as
    int64 (and leave room for the data), and no removal through a fid whose
    name in its directory is now another file. *)
Definition ram_request (msg : Message) (t : table) : Prop :=
  match msg with
  | MessageTread _ offset count => 0 ≤ offset ∧ 0 ≤ count ∧ offset + count < 2 ^ 63
  | MessageTwrite _ offset data => 0 ≤ offset ∧ offset + len data < 2 ^ 63
  | MessageTremove fid =>
      match t_fids t !! fid with
      | Some (mkSFid (Some h) _ _) => own_link h (t_world t)
      | _ => True
      end
  | _ => True
  end.

Lemma handle_served msize ctx msg t :
  RInv t → ram_request msg t → served t (Handle msize ctx msg t).
Proof.
  intros HR Hreq. destruct msg; cbn [Handle]; try (by split);
    try apply served_respond; try apply served_respond_n.
  - by apply auth_served.
  - by apply attach_served.
  - cbn. destruct (decide (Newfid = Fid)) as [->|]; [by apply walk_same_served|by apply walk_new_served].
  - by apply open_served.
  - by apply create_served.
  - destruct Hreq as (Ho & Hc & Hs). destruct (read_count_range msize Count Hc) as [Hn _].
    rewrite int64_small by lia. apply read_served; [done|lia..].
  - destruct Hreq as (Ho & Hs).
    match type of Hs with _ + len ?d < _ => pose proof (len_nonneg d) end.
    rewrite int64_small by lia.
    by apply write_served.
  - by apply delete_served.
  - apply delete_served; [done|]. intros sf h _ Hf Hh. cbn [ram_request] in Hreq.
    rewrite Hf in Hreq. destruct sf. cbn in Hh. by subst.
  - by apply stat_served.
  - by apply wstat_served.
Qed.

(** The session is at rest, and what it holds is what ramfs counts. *)
Definition ready (s : session) : Prop := quiescent s ∧ RInv (abs s).

Lemma fserver_lookup now a f :
  nodes (fserver now) !! a = Some f → a = root ∧ nref f = 1 ∧ children f = Some ∅.
Proof. unfold fserver. cbn [nodes]. intros [<- <-]%lookup_singleton_Some. done. Qed.

Lemma Inv_fserver now : Inv (fserver now) [root].
Proof.
  assert (∀ a, links (nodes (fserver now)) a = 0) as Hl.
  { intros a. unfold fserver. cbn [nodes]. unfold links. by rewrite map_fold_singleton. }
  split.
  - intros a f (-> & -> & _)%fserver_lookup. by rewrite Hl.
  - intros a. rewrite Hl. cbn [occ]. unfold δ. case_decide as Ha; [|lia]. subst a. by eexists.
  - intros a f m name c (_ & _ & ->)%fserver_lookup. intros [= <-]. by rewrite lookup_empty.
  - by intros a [f (-> & _)%fserver_lookup].
Qed.

(** A new session on a server that others may use already. *)
Lemma ready_fresh w : Inv w (root :: others) → ready (SFileSys_new w).
Proof.
  intros HI. split; [apply quiescent_new|]. split.
  - unfold held_refs, fid_refs. cbn [t_fids t_world abs refs SFileSys_new s_world].
    by rewrite omap_empty, map_to_list_empty.
  - intros fid sf Hf. cbn [t_fids abs refs SFileSys_new] in Hf.
    by rewrite lookup_omap, lookup_empty in Hf.
Qed.

Lemma ready_handle msize ctx msg s :
  ready s → ram_request msg (abs s) →
  (∀ fid afid uname aname, msg = MessageTattach fid afid uname aname →
     leaks_lock afid (abs s) = false) →
  returns (fst (Handle msize ctx msg s)) ∧ ready (snd (Handle msize ctx msg s)) ∧
  grows (s_world s) (s_world (snd (Handle msize ctx msg s))).
Proof.
  intros [Hq HR] Hreq Hl. destruct (handle_agrees msize ctx msg s Hq Hl) as [E H].
  destruct (handle_served msize ctx msg (abs s) HR Hreq) as (Hr & HR' & Hg).
  rewrite E. split; [done|]. destruct (H Hr) as [Hq' Ha]. split; [split; [done|by rewrite Ha]|].
  rewrite <-Ha in Hg. exact Hg.
Qed.

(** ** The end of a session *)

Lemma delRefAction_run ctx r b sf h s w' :
  heap s !! r = Some (b, sf) → sf_Ent sf = Some h → Clunk range h (s_world s) = (Ok (), w') →
  delRefAction ctx r false s
  = (Ok (), mkSession w' (refs s)
       (<[r := (b, mkSFid None (sf_File sf) (sf_Mode sf))]> (heap s))).
Proof.
  intros Hr Hh E. unfold delRefAction, ent_of, get.
  repeat (mrun; rewrite ?Hr, ?Hh). cbn [ent_Clunk ram ramServer]. rewrite E.
  repeat (mrun; rewrite ?Hr). do 2 f_equal. apply map_eq. intros r'.
  destruct (decide (r = r')) as [<-|Hne].
  - by rewrite lookup_alter_eq, Hr, lookup_insert_eq.
  - by rewrite lookup_alter_ne, lookup_insert_ne.
Qed.

(** [Stop] clunks the entries one after the other. *)
Lemma stop_refs_spec R (l : list (Z * SFid)) : ∀ s,
  NoDup l.*1 → Forall (λ x, ∃ b, heap s !! x.1 = Some (b, x.2)) l →
  Forall (λ x, ∀ h, sf_Ent x.2 = Some h → wf_handle h) l →
  Inv (s_world s) ((l ≫= λ x, sf_refs x.2) ++ R) →
  ∃ s', stop_refs l.*1 s = (Ok (), s') ∧ Inv (s_world s') R ∧ grows (s_world s) (s_world s').
Proof.
  induction l as [|[r sf] l IH]; intros s; [by exists s|].
  intros [Hr' Hnd]%NoDup_cons [[b Hr] Hs]%Forall_cons [Hw Hwf]%Forall_cons HI.
  cbn [fmap list_fmap fst snd stop_refs] in *. unfold get. mrun. rewrite Hr. mrun.
  cbn [mbind list_bind] in HI. rewrite <-app_assoc in HI. unfold sf_refs at 1 in HI. cbn [snd] in HI.
  destruct (sf_Ent sf) as [h|] eqn:Hh; [|by apply IH].
  destruct (Clunk_spec range range_perm h (s_world s) _ (Hw h eq_refl) HI) as (w' & E & HI' & Hsm).
  mrun. rewrite (delRefAction_run CancelledCtxt r b sf h s w' Hr Hh E). mrun.
  match goal with |- context [stop_refs _ ?s1] => destruct (IH s1) as (s' & E' & HR & Hg) end;
    [done| |done|exact HI'|].
  - rewrite Forall_forall in Hs |- *. intros x Hx. destruct (Hs x Hx) as [b' Hb']. exists b'.
    cbn [heap]. rewrite lookup_insert_ne; [done|]. intros ->. by apply Hr', list_elem_of_fmap_2.
  - exists s'. split_and!; [done|done|]. etrans; [by apply same_grows|exact Hg].
Qed.

(** The SFids of the map, in the order [Stop] visits them. *)
Definition stopped_refs (s : session) : list (Z * SFid) :=
  (λ x, (x.2, default (mkSFid None None 0) (snd <$> heap s !! x.2))) <$> map_to_list (refs s).

Lemma quiescent_fids s :
  quiescent s →
  t_fids (abs s) = (λ r, default (mkSFid None None 0) (snd <$> heap s !! r)) <$> refs s.
Proof.
  intros (Hq & _). apply map_eq. intros fid. cbn [abs t_fids].
  rewrite lookup_omap, lookup_fmap. destruct (refs s !! fid) as [r|] eqn:E; [|done].
  cbn. by destruct (Hq _ _ E) as [sf ->].
Qed.

Lemma stopped_fid_refs s :
  quiescent s → fid_refs (t_fids (abs s)) = stopped_refs s ≫= λ x, sf_refs x.2.
Proof.
  intros Hq. unfold fid_refs, stopped_refs. rewrite quiescent_fids by done.
  rewrite map_to_list_fmap, !list_fmap_bind. by apply list_bind_ext.
Qed.

(** When a session ends, the server holds what the other sessions hold. *)
Lemma ready_stop err s :
  ready s →
  ∃ s', Stop err s = (Ok err, s') ∧ Inv (s_world s') (root :: others) ∧
    grows (s_world s) (s_world s').
Proof.
  intros [Hq [HI Hwf]]. destruct (stop_refs_spec (root :: others) (stopped_refs s) s)
    as (s' & E & HI' & Hg).
  - unfold stopped_refs. rewrite <-list_fmap_compose. apply NoDup_fmap_2_strong; [|apply NoDup_map_to_list].
    intros [f1 r1] [f2 r2] H1%elem_of_map_to_list H2%elem_of_map_to_list Hr. cbn in Hr. subst r2.
    f_equal. by apply (proj1 (proj2 Hq) f1 f2 r1).
  - unfold stopped_refs. apply Forall_fmap, Forall_forall. intros [fid r] H%elem_of_map_to_list.
    destruct (proj1 Hq _ _ H) as [sf Hr]. exists false. cbn. by rewrite Hr.
  - unfold stopped_refs. apply Forall_fmap, Forall_forall. intros [fid r] H%elem_of_map_to_list h Hh.
    destruct (proj1 Hq _ _ H) as [sf Hr]. cbn in Hh. rewrite Hr in Hh.
    apply (Hwf fid sf); [|done]. by rewrite abs_lookup, H; cbn; rewrite Hr.
  - rewrite <-stopped_fid_refs by done. rewrite <-Permutation_middle. exact HI.
  - exists s'. split_and!; [|done|done]. unfold Stop.
    replace (snd <$> map_to_list (refs s)) with (stopped_refs s).*1.
    + rewrite bind_run, E. by rewrite ret_run.
    + unfold stopped_refs. by rewrite <-list_fmap_compose.
Qed.

(** ** What is alive *)

Inductive reach (h : gmap Z FileEnt) (R : list Z) : Z → Prop :=
| reach_ref a : a ∈ R → reach h R a
| reach_child a f m name c :
    reach h R a → h !! a = Some f → children f = Some m → m !! name = Some c → reach h R c.

Lemma reach_live w R a : Inv w R → reach (nodes w) R a → live w a.
Proof.
  intros HI. induction 1 as [a Ha|a f m name c _ (f' & Hf' & Hn) Hf Hm Hc].
  - by eapply Inv_held.
  - simplify_eq. by eapply Inv_child.
Qed.

Lemma live_reach w R a : Inv w R → live w a → reach (nodes w) R a.
Proof.
  intros HI. revert a.
  enough (∀ n a, a < Z.of_nat n → live w a → reach (nodes w) R a) as H.
  { intros a Ha. apply (H (Z.to_nat (next_addr w))); [|done]. destruct Ha as (f & Hf & _).
    pose proof (inv_addr _ _ HI a (mk_is_Some _ _ Hf)). lia. }
  induction n as [|n IH]; intros a Hlt (f & Hf & Hn).
  { pose proof (inv_addr _ _ HI a (mk_is_Some _ _ Hf)). lia. }
  rewrite (inv_count _ _ HI a f Hf) in Hn. destruct (decide (0 < occ a R)) as [Ho|Ho].
  { constructor. by apply occ_pos. }
  destruct (links_inv (nodes w) a) as (b & g & Hb & (Hg & m & name & Hm & Hc)%elem_of_outs); [lia|].
  eapply (reach_child _ _ b); [|done..]. apply IH; [|by eexists].
  pose proof (inv_down _ _ HI b g m name a Hb Hm Hc). lia.
Qed.
End Serve.

Lemma ready_new range now : ready range [] (SFileSys_new (FS := ramServer range) (fserver now)).
Proof. apply ready_fresh, Inv_fserver. Qed.

(** ** Contents *)

(** [data] with [p] written at [off]. *)
Definition spliced (data : bytes) (off : Z) (p : bytes) : bytes :=
  take (Z.to_nat off) data ++ p ++ drop (Z.to_nat off + length p) data.

Lemma ent_Write_run a f w p off :
  nodes w !! a = Some f → 0 ≤ off ≤ len (Data f) → off + len p < 2 ^ 63 →
  ∃ f', ent_Write a p off w = (Ok (len p, None), set_nodes w (<[a := f']> (nodes w))) ∧
    nref f' = nref f ∧ children f' = children f ∧ Data f' = spliced (Data f) off p ∧
    Info f' = with_Length (with_Version (Info f) (u32 (Qid_Version (Dir_Qid (Info f)) + 1)))
                (u64 (len (spliced (Data f) off p))).
Proof.
  intros Hf Ho Hs. pose proof (len_nonneg p) as Hp. unfold ent_Write. frun.
  rewrite decide_False by lia. frun. rewrite decide_False by lia.
  rewrite int64_small by lia. cbn [Data set_Info]. frun.
  set (data := if decide _ then _ else _).
  assert (data = spliced (Data f) off p) as E.
  { subst data. case_decide as Hlt; [|done]. unfold spliced. case_decide as Hpos.
    - unfold copy_at, len in *. rewrite length_take, (drop_ge (Data f)) by lia.
      rewrite app_nil_r, <-app_assoc, take_drop. rewrite (drop_ge (Data f)) by lia.
      by rewrite app_nil_r.
    - unfold len in *. replace (Z.of_nat (length (Data f)) - off) with 0 by lia.
      rewrite (take_ge (Data f)), (drop_ge (Data f)) by lia. by rewrite app_nil_r. }
  rewrite E. unfold set_nodes. cbn [nodes lastpath next_addr now]. rewrite insert_insert_eq.
  by eexists.
Qed.

Lemma ent_Read_run a f w count off :
  nodes w !! a = Some f → 0 ≤ count → 0 ≤ off ≤ len (Data f) → off + count < 2 ^ 63 →
  ent_Read a count off w = (Ok (take (Z.to_nat count) (drop (Z.to_nat off) (Data f)), None), w).
Proof.
  intros Hf Hc Ho Hs. unfold ent_Read. frun. rewrite decide_False by lia.
  rewrite int64_small by lia. destruct (decide (off + count > len (Data f))) as [Hlt|Hlt].
  - rewrite decide_False by lia. frun. do 3 f_equal. unfold len in *.
    rewrite !take_ge; [done|rewrite length_drop; lia..].
  - by rewrite decide_False by lia.
Qed.

(** ** Running requests *)

(** The responses to a list of requests, and the session after them. *)
Fixpoint handle_all {St} `{!Session St} (msize : Z) (msgs : list Message) (s : St)
    : list (result error Message) * St :=
  match msgs with
  | [] => ([], s)
  | msg :: msgs =>
      let '(r, s) := Handle msize None msg s in
      let '(rs, s) := handle_all msize msgs s in
      (r :: rs, s)
  end.

(** ramfs with its maps visited in the order of their keys. *)
Definition ram0 : FileSys := ramServer map_to_list.
Definition ram_new : @session ram0 := SFileSys_new (FS := ram0) (fserver (mkTime 0 0)).

(** ** Theorems *)

(** C15. The server over ramfs works, but for three kinds of request on which
    the code fails: attaches that leak a lock ([leaks_lock]), removals through
    a fid whose name now is another file's, and offsets of 2^63 and above
    ([ram_request]; [ramfs_remove_other_file], [ramfs_negative_offset]).  From the
    start and after every other request, no mutex is held and the reference
    count of every node is the number of links to it from live directories
    plus the number of fids that hold it; and each such request is answered,
    without a panic, an endless loop or a deadlock. *)
Theorem ramfs_serves range (range_perm : ∀ m, range m ≡ₚ map_to_list m) :
  (∀ now, ready range [] (SFileSys_new (FS := ramServer range) (fserver now))) ∧
  ∀ msize ctx msg (s : @session (ramServer range)),
    ready range [] s → ram_request range msg (abs s) →
    (∀ fid afid uname aname, msg = MessageTattach fid afid uname aname →
       leaks_lock afid (abs s) = false) →
    returns (fst (Handle msize ctx msg s)) ∧ ready range [] (snd (Handle msize ctx msg s)).
Proof.
  split; [apply ready_new|]. intros msize ctx msg s Hs Hreq Hl.
  destruct (ready_handle range range_perm [] msize ctx msg s Hs Hreq Hl) as (Hr & Hs' & _).
  by split.
Qed.

Lemma ramfs_serves_witness :
  let s := snd (Handle 8192 None (MessageTattach 1 NOFID "u" "/") ram_new) in
  returns (fst (Handle (St := @session ram0) 8192 None (MessageTcreate 1 "f" 420 ORDWR) s)) ∧
  ready map_to_list [] (snd (Handle (St := @session ram0) 8192 None (MessageTcreate 1 "f" 420 ORDWR) s)).
Proof.
  destruct (ramfs_serves map_to_list (λ m, reflexivity _)) as [H0 H].
  apply (H 8192 None (MessageTcreate 1 "f" 420 ORDWR)); [|exact I|by intros].
  apply (H 8192 None (MessageTattach 1 NOFID "u" "/") ram_new); [apply H0|exact I|].
  intros fid afid uname aname _. reflexivity.
Defined.

(** Nothing is lost and nothing is freed too early: in a session at
    rest, the reference count of a node is positive exactly when the node can
    be reached from the root or from an entry of some fid. *)
Theorem ramfs_live_exact range (s : @session (ramServer range)) a f :
  ready range [] s → nodes (s_world s) !! a = Some f →
  let R := root :: fid_refs range (t_fids (abs s)) in
  nref f = links (nodes (s_world s)) a + occ a R ∧
  (0 < nref f ↔ reach (nodes (s_world s)) R a).
Proof.
  intros [_ [HI _]] Hf R. unfold held_refs in HI. rewrite app_nil_r in HI. split; [exact (inv_count _ _ HI a f Hf)|]. split.
  - intros Hn. apply (live_reach _ _ _ HI). by exists f.
  - intros (g & Hg & Hn)%(reach_live _ _ _ HI). 
    assert (Some f = Some g) as [= ->] by (rewrite <-Hf; exact Hg). done.
Qed.

Lemma ramfs_live_exact_witness :
  nref (mkEnt 1 (Some ∅) (newDir (mkTime 0 0) 1 "/" "root" (Z.lor DMDIR 509)) [])
    = links (nodes (s_world ram_new)) root + occ root [root] ∧
  (0 < 1 ↔ reach (nodes (s_world ram_new)) [root] root).
Proof.
  exact (ramfs_live_exact map_to_list ram_new root _
           (ready_new map_to_list (mkTime 0 0)) eq_refl).
Defined.

(** C26. Write then read: writing [p] at an offset inside the file gives
    exactly the old contents with [p] laid over them (the file grows if it
    must), updates the length and the version and touches no other node, and
    a read at any offset gives the bytes that are there. *)
Theorem ramfs_write_read h a f w p off :
  h_ent h = Some a → nodes w !! a = Some f → 0 ≤ off ≤ len (Data f) → off + len p < 2 ^ 63 →
  let data := spliced (Data f) off p in
  ∃ w' d, Write h p off w = (Ok (len p, None), w') ∧
    Stat h w' = (Ok d, w') ∧ Dir_Length d = u64 (len data) ∧
    Qid_Version (Dir_Qid d) = u32 (Qid_Version (Dir_Qid (Info f)) + 1) ∧
    (∀ b, b ≠ a → nodes w' !! b = nodes w !! b) ∧
    ∀ count off', 0 ≤ count → 0 ≤ off' ≤ len data → off' + count < 2 ^ 63 →
      Read h count off' w'
      = (Ok (take (Z.to_nat count) (drop (Z.to_nat off') data), None), w').
Proof.
  intros Ha Hf Ho Hs data. destruct (ent_Write_run a f w p off Hf Ho Hs)
    as (f' & E & _ & _ & Hd & Hi).
  set (w' := set_nodes w (<[a := f']> (nodes w))) in *.
  assert (nodes w' !! a = Some f') as Hf' by apply lookup_insert_eq.
  exists w', (Info f'). unfold Write, Stat, Read. rewrite Ha. frun. rewrite E, Hi.
  split_and!; [done..| |].
  - intros b Hb. subst w'. cbn [nodes set_nodes]. by rewrite lookup_insert_ne.
  - intros count off' Hc Ho' Hs'. frun. rewrite (ent_Read_run a f' w'), Hd; by rewrite ?Hd.
Qed.

Definition ram_file : FileHandle := mkHandle "/f" ORDWR (Some 1) (Some "u") [root].
Definition ram_with_file : fServer :=
  mkServer 2 {[ 1 := mkEnt 2 None (newDir (mkTime 0 0) 2 "f" "u" 420) [x01; x02; x03] ]}
    2 (mkTime 0 0).

Lemma ramfs_write_read_witness :
  ∃ w' d, Write ram_file [x07; x08] 2 ram_with_file = (Ok (2, None), w') ∧
    Stat ram_file w' = (Ok d, w') ∧ Dir_Length d = 4 ∧ Qid_Version (Dir_Qid d) = 1 ∧
    (∀ b, b ≠ 1 → nodes w' !! b = nodes ram_with_file !! b) ∧
    ∀ count off', 0 ≤ count → 0 ≤ off' ≤ 4 → off' + count < 2 ^ 63 →
      Read ram_file count off' w'
      = (Ok (take (Z.to_nat count) (drop (Z.to_nat off') [x01; x02; x07; x08]), None), w').
Proof.
  refine (ramfs_write_read ram_file 1 _ ram_with_file [x07; x08] 2 eq_refl eq_refl _ _);
    vm_compute; split; discriminate || reflexivity.
Defined.

(** Offsets of 2^63 and more crash the server: Handle turns them into
    negative int64 offsets, which pass the bounds check of ramfs; every read
    and every write at such an offset panics, whatever the file holds. *)
Theorem ramfs_negative_offset h a f w p count offset :
  h_ent h = Some a → nodes w !! a = Some f → 2 ^ 63 ≤ offset < 2 ^ 64 →
  fst (Read h count (int64 offset) w) = Panic "slice bounds out of range" ∧
  fst (Write h p (int64 offset) w) = Panic "slice bounds out of range".
Proof.
  intros Ha Hf Ho. pose proof (len_nonneg (Data f)).
  assert (int64 offset < 0) as Hneg.
  { unfold int64. replace (offset + 2 ^ 63) with (offset - 2 ^ 63 + 1 * 2 ^ 64) by lia.
    rewrite Z.mod_add, Z.mod_small by lia. lia. }
  unfold Read, Write. rewrite Ha. split; frun; [unfold ent_Read|unfold ent_Write]; frun;
    rewrite decide_False by lia; frun; by rewrite decide_True by lia.
Qed.

Lemma ramfs_negative_offset_witness :
  fst (Read ram_file 10 (int64 (2 ^ 64 - 1)) ram_with_file) = Panic "slice bounds out of range" ∧
  fst (Write ram_file [x00] (int64 (2 ^ 64 - 1)) ram_with_file)
  = Panic "slice bounds out of range".
Proof.
  apply (ramfs_negative_offset ram_file 1
           (mkEnt 2 None (newDir (mkTime 0 0) 2 "f" "u" 420) [x01; x02; x03]));
    [reflexivity|reflexivity|lia].
Defined.

(** Fid 1 creates the file f; fid 3 walks to it; fid 1 removes it; fid 2
    creates a new f; fid 3 removes what it holds. *)
Definition remove_scenario : list Message :=
  [ MessageTattach 1 NOFID "u" "/"; MessageTwalk 1 2 []; MessageTwalk 1 4 [];
    MessageTcreate 1 "f" 420 ORDWR;
    MessageTwalk 4 3 ["f"]; MessageTwalk 4 5 ["f"];
    MessageTremove 1; MessageTcreate 2 "f" 420 ORDWR;
    MessageTremove 3; MessageTwalk 4 6 ["f"] ].

(** Removing a file can remove another one: Remove unlinks by name, so a
    fid that still holds a file removed before unlinks the new file of the
    same name.  Every request of the scenario succeeds, but the new file (node
    2) is gone from its directory though nobody removed it, keeps the
    reference of the lost link for ever, and the old file (node 1), which fid
    5 still holds, is counted as free. *)
Theorem ramfs_remove_other_file :
  let s := snd (handle_all 8192 remove_scenario ram_new) in
  last (fst (handle_all 8192 remove_scenario ram_new)) = Some (Err ErrNotfound) ∧
  (λ r : result error Message, match r with Ok _ => true | _ => false end) <$>
    take 9 (fst (handle_all 8192 remove_scenario ram_new)) = replicate 9 true ∧
  occ 1 (fid_refs map_to_list (t_fids (abs s))) = 1 ∧
  occ 2 (fid_refs map_to_list (t_fids (abs s))) = 1 ∧
  (nref <$> nodes (s_world s) !! 1) = Some 0 ∧
  (nref <$> nodes (s_world s) !! 2) = Some 2 ∧
  (children <$> nodes (s_world s) !! root) = Some (Some ∅).
Proof. split_and!; vm_compute; reflexivity. Qed.
End RamServe.
