(* ===== verification/Shared.v ===== *)
(** * Shared: the connections of one server process

    9ps makes a session per connection, all on one file server: ramfs has a
    single global tree.  A process is the file server and, for each open
    connection, the fids of its session; connections are accepted, requests
    are handled on any of them and they end in any order, one call at a time.
    For ramfs: every request of every connection is answered, connections do
    not disturb each other's fids, a node lives exactly as long as the tree
    or some connection refers to it, and the end of a connection gives back
    all it held. *)
From S2P Require Import Prelude Types Encoding Path Readdir FileSys SFileSys SessionSpec Session.
From S2P Require Import RamFS RamInv SSession RamServe.

Module Shared.
Import RamFS RamInv RamServe.

(** ** Processes *)

Section Process.
Context `{FS : FileSys}.

(** What a session has of its own: the map of fids and its SFids. *)
Record connection := mkConnection { c_refs : gmap Z Z; c_heap : gmap Z (bool * SFid) }.

Record process := mkProcess { p_world : World; p_conns : gmap Z connection }.

Definition new_process (w : World) : process := mkProcess w ∅.

Definition session_of (w : World) (x : connection) : session := mkSession w (c_refs x) (c_heap x).
Definition connection_of (s : session) : connection := mkConnection (refs s) (heap s).

(** Accepting a connection, a request on one, and its end: 9ps makes the
    session with SFileSys, ServeConn hands requests to the handler and calls
    Stop when it is done. *)
Inductive conn_event :=
| Accept (c : Z)
| Request (c : Z) (ctx : context) (msg : Message)
| Hangup (c : Z) (err : option error).

Definition event_conn (e : conn_event) : Z :=
  match e with Accept c | Request c _ _ | Hangup c _ => c end.

(** What an event gives: a response, or the result of Stop. *)
Inductive outcome :=
| Accepted
| Response (r : result error Message)
| Stopped (r : result error (option error)).

(** The outcome of an event and the process after it; [None] when the event
    cannot happen. *)
Definition step (e : conn_event) (p : process) : option (outcome * process) :=
  match e with
  | Accept c =>
      match p_conns p !! c with
      | None =>
          Some (Accepted, mkProcess (p_world p)
                  (<[c := connection_of (SFileSys_new (p_world p))]> (p_conns p)))
      | Some _ => None
      end
  | Request c ctx msg =>
      x ← p_conns p !! c;
      let '(r, s) := SSession (session_of (p_world p) x) ctx msg (session_of (p_world p) x) in
      Some (Response r, mkProcess (s_world s) (<[c := connection_of s]> (p_conns p)))
  | Hangup c err =>
      x ← p_conns p !! c;
      let '(r, s) := Stop err (session_of (p_world p) x) in
      Some (Stopped r, mkProcess (s_world s) (delete c (p_conns p)))
  end.

Fixpoint run (es : list conn_event) (p : process) : option (list outcome * process) :=
  match es with
  | [] => Some ([], p)
  | e :: es =>
      '(o, p) ← step e p;
      '(os, p) ← run es p;
      Some (o :: os, p)
  end.

(** The event came to an end: no panic, no endless loop, no deadlock. *)
Definition ended (o : outcome) : Prop :=
  match o with Accepted => True | Response r => returns r | Stopped r => returns r end.

(** Other connections keep their fids and what they denote. *)
Lemma step_frame e p o p' c :
  step e p = Some (o, p') → c ≠ event_conn e → p_conns p' !! c = p_conns p !! c.
Proof.
  intros H Hc. destruct e as [c'|c' ctx msg|c' err]; cbn [step event_conn] in *.
  - destruct (p_conns p !! c'); [done|]. injection H as <- <-. by apply lookup_insert_ne.
  - destruct (p_conns p !! c') as [x|]; [|done]. cbn [mbind option_bind] in H.
    destruct (SSession _ _ _ _) as [r s]. injection H as <- <-. by apply lookup_insert_ne.
  - destruct (p_conns p !! c') as [x|]; [|done]. cbn [mbind option_bind] in H.
    destruct (Stop _ _) as [r s]. injection H as <- <-. by apply lookup_delete_ne.
Qed.
End Process.

(** ** ramfs *)

Section Ram.
Context (range : gmap string Z → list (string * Z)).
Context (range_perm : ∀ m, range m ≡ₚ map_to_list m).

#[local] Instance ram : FileSys := ramServer range.

Definition conn_table (w : World) (x : connection) : table := abs (session_of w x).

(** The references of all connections. *)
Definition conn_refs (x : connection) : list Z :=
  fid_refs range (omap (λ r, snd <$> c_heap x !! r) (c_refs x)).
Definition all_refs (cs : gmap Z connection) : list Z := map_to_list cs ≫= λ x, conn_refs x.2.

(** A connection on its own: no mutex is held, its fids hold handles of the
    server, its open files have their nodes. *)
Definition sound_conn (w : fServer) (x : connection) : Prop :=
  quiescent (session_of w x) ∧
  map_Forall (λ _ sf, wf_sfid range w sf) (t_fids (conn_table w x)).

(** And all together: the counts of the nodes are right. *)
Record sound (p : process) : Prop := mkSound {
  sound_inv : Inv (p_world p) (root :: all_refs (p_conns p));
  sound_conns : map_Forall (λ _ x, sound_conn (p_world p) x) (p_conns p)
}.

(** The requests covered, for each connection as for a single one (C15). *)
Definition allowed (e : conn_event) (p : process) : Prop :=
  match e with
  | Request c ctx msg =>
      ∀ x, p_conns p !! c = Some x →
        ram_request range msg (conn_table (p_world p) x) ∧
        ∀ fid afid uname aname, msg = MessageTattach fid afid uname aname →
          leaks_lock afid (conn_table (p_world p) x) = false
  | _ => True
  end.

Lemma all_refs_insert cs c x :
  cs !! c = None → all_refs (<[c := x]> cs) ≡ₚ conn_refs x ++ all_refs cs.
Proof. intros H. unfold all_refs. by rewrite map_to_list_insert. Qed.

Lemma all_refs_delete cs c x :
  cs !! c = Some x → all_refs cs ≡ₚ conn_refs x ++ all_refs (delete c cs).
Proof.
  intros H. rewrite <-(insert_delete_id cs c x H) at 1.
  apply all_refs_insert, lookup_delete_eq.
Qed.

Lemma sound_conn_grows w w' x : grows w w' → sound_conn w x → sound_conn w' x.
Proof.
  intros Hg [Hq Hwf]. split; [exact Hq|]. intros fid sf Hf.
  eapply wf_sfid_grows; [done|]. by apply (Hwf fid).
Qed.

(** A connection of a sound process is a session that shares its server. *)
Lemma sound_ready p c x :
  sound p → p_conns p !! c = Some x →
  ready range (all_refs (delete c (p_conns p))) (session_of (p_world p) x).
Proof.
  intros [HI Hc] Hx. destruct (Hc c x Hx) as [Hq Hwf]. split; [exact Hq|]. split; [|exact Hwf].
  unfold held_refs. rewrite (all_refs_delete _ _ _ Hx) in HI. exact HI.
Qed.

Lemma ready_sound p c s :
  sound p → grows (p_world p) (s_world s) →
  ready range (all_refs (delete c (p_conns p))) s →
  sound (mkProcess (s_world s) (<[c := connection_of s]> (p_conns p))).
Proof.
  intros [HI Hc] Hg [Hq [HI' Hwf]]. destruct s as [w rs hp]. split; cbn [p_world p_conns].
  - rewrite <-insert_delete_eq, all_refs_insert by apply lookup_delete_eq. exact HI'.
  - apply map_Forall_insert_2; [by split|]. intros c' x Hx.
    eapply sound_conn_grows; [exact Hg|by apply (Hc c')].
Qed.

Lemma sound_new now : sound (new_process (FS := ram) (fserver now)).
Proof. split; [apply Inv_fserver|]. by intros c x. Qed.

Lemma step_sound e p o p' :
  sound p → allowed e p → step e p = Some (o, p') → ended o ∧ sound p'.
Proof.
  intros Hp Ha H. destruct e as [c|c ctx msg|c err]; cbn [step] in H.
  - destruct (p_conns p !! c) eqn:Hx; [done|]. injection H as <- <-. split; [done|].
    apply (ready_sound p c (SFileSys_new (FS := ram) (p_world p))); [done|done|].
    apply ready_fresh. rewrite delete_id by done. apply Hp.
  - destruct (p_conns p !! c) as [x|] eqn:Hx; [|done]. cbn [mbind option_bind] in H.
    destruct (Ha x Hx) as [Hreq Hl].
    destruct (ready_handle range range_perm _ (fst (sVersion (session_of (p_world p) x))) ctx msg _
                (sound_ready p c x Hp Hx) Hreq Hl) as (Hr & Hs & Hg).
    unfold SSession in H. destruct (Handle _ _ _ _) as [r s]. injection H as <- <-.
    split; [exact Hr|by apply ready_sound].
  - destruct (p_conns p !! c) as [x|] eqn:Hx; [|done]. cbn [mbind option_bind] in H.
    destruct (ready_stop range range_perm _ err _ (sound_ready p c x Hp Hx)) as (s & E & HI & Hg).
    rewrite (E : Stop err (session_of (p_world p) x) = _) in H. injection H as <- <-. split; [done|]. split; cbn [p_world p_conns]; [done|].
    apply map_Forall_delete. intros c' x' Hx'. eapply sound_conn_grows; [exact Hg|].
    by apply (sound_conns p Hp c').
Qed.

(** Every event of a run is allowed when it happens. *)
Fixpoint all_allowed (es : list conn_event) (p : process) : Prop :=
  match es with
  | [] => True
  | e :: es => allowed e p ∧ ∀ o p', step e p = Some (o, p') → all_allowed es p'
  end.

Lemma run_sound es : ∀ p os p',
  sound p → all_allowed es p → run es p = Some (os, p') → Forall ended os ∧ sound p'.
Proof.
  induction es as [|e es IH]; intros p os p' Hp; cbn [run all_allowed].
  - intros _ [= <- <-]. by split.
  - intros [Ha Hall] H. destruct (step e p) as [[o p1]|] eqn:E; [|done].
    cbn [mbind option_bind] in H. destruct (run es p1) as [[os' p2]|] eqn:E2; [|done].
    injection H as <- <-. destruct (step_sound e p o p1 Hp Ha E) as [Ho Hp1].
    destruct (IH p1 os' p2 Hp1 (Hall _ _ eq_refl) E2) as [Hos Hp2]. split; [by constructor|done].
Qed.

Lemma sound_live p a f :
  sound p → nodes (p_world p) !! a = Some f →
  0 < nref f ↔ reach (nodes (p_world p)) (root :: all_refs (p_conns p)) a.
Proof.
  intros [HI _] Hf. split.
  - intros Hn. apply (live_reach _ _ _ HI). by exists f.
  - intros (g & Hg & Hn)%(reach_live _ _ _ HI). congruence.
Qed.
End Ram.

(** ** Theorems *)

(** C16. One ramfs for many connections whose calls come one after another:
    whatever connections are accepted, requests made on them and connections
    ended, in any order, short of the requests left out of C15 (offsets of
    2^63 and above, removals through a stale name, attaches that leak a lock:
    [all_allowed]), every call comes to an end; the count of a node is the
    number of links to it from live directories and of fids of any connection
    that hold it, and it is positive exactly when the node can be reached from
    the root or from a fid of an open connection; so when the last connection
    is gone only the tree is left.  No event touches the fids of another
    connection. *)
Theorem ramfs_shared range (range_perm : ∀ m, range m ≡ₚ map_to_list m) now es os p :
  all_allowed range es (new_process (FS := ramServer range) (fserver now)) →
  run es (new_process (FS := ramServer range) (fserver now)) = Some (os, p) →
  Forall ended os ∧
  (∀ a f, nodes (p_world p) !! a = Some f →
     let R := root :: all_refs range (p_conns p) in
     nref f = links (nodes (p_world p)) a + occ a R ∧
     (0 < nref f ↔ reach (nodes (p_world p)) R a)) ∧
  (p_conns p = ∅ → ∀ a f, nodes (p_world p) !! a = Some f →
     (0 < nref f ↔ reach (nodes (p_world p)) [root] a)) ∧
  ∀ e o p' c, step e p = Some (o, p') → c ≠ event_conn e → p_conns p' !! c = p_conns p !! c.
Proof.
  intros Ha Hrun. destruct (run_sound range range_perm es _ _ _ (sound_new range now) Ha Hrun)
    as [Ho Hp].
  split_and!; [done| | |].
  - intros a f Hf R. split; [exact (inv_count _ _ (sound_inv _ _ Hp) a f Hf)|].
    exact (sound_live range p a f Hp Hf).
  - intros He a f Hf.
    assert (0 < nref f ↔ reach (nodes (p_world p)) (root :: all_refs range (p_conns p)) a) as Hl
      by exact (sound_live range p a f Hp Hf).
    rewrite He in Hl. unfold all_refs in Hl. by rewrite map_to_list_empty in Hl.
  - intros e o p' c. apply step_frame.
Qed.

(** Two connections; the second walks to the file the first has created, the
    first ends, the second writes to the file and ends too. *)
Definition two_connections : list conn_event :=
  [ Accept 1; Accept 2;
    Request 1 None (MessageTattach 1 NOFID "u" "/");
    Request 2 None (MessageTattach 1 NOFID "v" "/");
    Request 1 None (MessageTcreate 1 "f" 420 ORDWR);
    Request 2 None (MessageTwalk 1 2 ["f"]);
    Hangup 1 None;
    Request 2 None (MessageTopen 2 ORDWR);
    Request 2 None (MessageTwrite 2 0 [x01; x02]);
    Hangup 2 None ].

Lemma leaks_lock_NOFID `{FS : FileSys} t : leaks_lock NOFID t = false.
Proof. unfold leaks_lock. by destruct (t_fids t !! NOFID) as [[[e|] [f|] m]|]. Qed.

Lemma two_connections_allowed :
  all_allowed map_to_list two_connections (new_process (FS := ram0) (fserver (mkTime 0 0))).
Proof.
  repeat (split; [first
    [exact I
    |intros x _; split; [exact I|intros fid afid uname aname E];
      first [discriminate E|injection E as _ <- _ _; apply leaks_lock_NOFID]
    |idtac]|intros _ ? _]); [|exact I].
  intros x _. split; [|by intros]. split; vm_compute; [discriminate|reflexivity].
Qed.

Definition two_connections_run : list outcome * process (FS := ram0) :=
  default ([], new_process (FS := ram0) (fserver (mkTime 0 0)))
    (run two_connections (new_process (FS := ram0) (fserver (mkTime 0 0)))).

Lemma two_connections_runs :
  run two_connections (new_process (FS := ram0) (fserver (mkTime 0 0))) = Some two_connections_run.
Proof.
  assert (match run two_connections (new_process (FS := ram0) (fserver (mkTime 0 0))) with
          | Some _ => true | None => false end = true) as H by (vm_compute; reflexivity).
  unfold two_connections_run. by destruct (run _ _).
Qed.

Lemma two_connections_gone : p_conns (snd two_connections_run) = ∅.
Proof. apply map_size_empty_inv. vm_compute. reflexivity. Qed.

Lemma ramfs_shared_witness :
  Forall ended (fst two_connections_run) ∧
  ∀ a f, nodes (p_world (snd two_connections_run)) !! a = Some f →
    (0 < nref f ↔ reach (nodes (p_world (snd two_connections_run))) [root] a).
Proof.
  destruct (ramfs_shared map_to_list (λ m, reflexivity _) (mkTime 0 0) two_connections
              (fst two_connections_run) (snd two_connections_run)) as (H1 & _ & H2 & _).
  - exact two_connections_allowed.
  - rewrite <-surjective_pairing. exact two_connections_runs.
  - split; [exact H1|exact (H2 two_connections_gone)].
Defined.
End Shared.
