(* ===== verification/Commander.v ===== *)
(** * Commander: the commands of the client program, cmd/9pr/main.go

    The commands of the interactive client, over the client's file system.
    Their state is that of the file system with the working directory and
    its path; what they print is kept as a list of lines, one per call of a
    print function (the formats and the alignment are not modelled).  A
    deferred Clunk runs when the command returns. *)
From S2P Require Import Prelude Types Path FileSys SFileSys SessionSpec Session CFileSys.
From Stdlib Require Import Ascii.

Module Commander.
Import CFileSys.

Inductive line :=
| Header (p : string)                   (* p + ":" *)
| Entry (d : Dir)                       (* mode, length, time and name *)
| Blank
| Text (s : string)
| Failure (e : error)
| Bytes (b : bytes).

Section Commander.
Context {St : Type} `{!Session St}.

Record fsCommander := mkCommander {
  k_fs : @fsState St;
  k_pwd : cEnt;
  k_root : cEnt;
  k_path : string;
  k_out : list line
}.

(** ** The monad *)

Definition K (A : Type) : Type := fsCommander → result error A * fsCommander.

#[global] Instance K_ret : MRet K := λ A a k, (Ok a, k).
#[global] Instance K_bind : MBind K := λ A B f m k,
  match m k with
  | (Ok a, k) => f a k
  | (Err e, k) => (Err e, k)
  | (Panic y, k) => (Panic y, k)
  | (Hang y, k) => (Hang y, k)
  end.

Definition kfail {A} (e : error) : K A := λ k, (Err e, k).
Definition kpanic {A} (why : string) : K A := λ k, (Panic why, k).

Definition with_fs (k : fsCommander) (w : fsState) : fsCommander :=
  mkCommander w (k_pwd k) (k_root k) (k_path k) (k_out k).

(** A call of the file system. *)
Definition fs {A} (m : C A) : K A := λ k,
  let '(r, w) := m (k_fs k) in (r, with_fs k w).

(** A call whose error is looked at, or ignored. *)
Definition attempt {A} (m : K A) : K (error + A) := λ k,
  match m k with
  | (Ok a, k) => (Ok (inr a), k)
  | (Err e, k) => (Ok (inl e), k)
  | (Panic y, k) => (Panic y, k)
  | (Hang y, k) => (Hang y, k)
  end.

(** [defer], for a cleanup whose error is ignored. *)
Definition deferred {A} (m : K A) (cleanup : K unit) : K A := λ k,
  match m k with
  | (Ok a, k) => (attempt cleanup;; mret a) k
  | (Err e, k) => (attempt cleanup;; kfail e) k
  | r => r
  end.

Definition print (l : line) : K unit := λ k,
  (Ok (), mkCommander (k_fs k) (k_pwd k) (k_root k) (k_path k) (k_out k ++ [l])).

Definition get_pwd : K cEnt := λ k, (Ok (k_pwd k), k).
Definition get_path : K string := λ k, (Ok (k_path k), k).
Definition set_pwd (pwd : cEnt) (path : string) : K unit := λ k,
  (Ok (), mkCommander (k_fs k) pwd (k_root k) path (k_out k)).

(** ** Paths *)

(** The error of ToWalk is overwritten by that of WalkName; the steps are
    then nil. *)
Definition toWalk (p : string) : K (cEnt * list string * string) := λ k,
  let '(isAbs, r) := ToWalk p in
  let steps := match r with Ok steps => steps | _ => [] end in
  let rel := if isAbs then k_root k else k_pwd k in
  let path := if isAbs then "/" else k_path k in
  ((λ path, (rel, steps, path)) <$> WalkName path steps, k).

(** [rel.Walk(steps)] where an incomplete walk ends the command without an
    error: [None]. *)
Definition walk_to (ctx : context) (rel : cEnt) (steps : list string) : K (option cEnt) :=
  '(qids, ent) ← fs (cWalk ctx rel steps);
  if decide (length qids ≠ length steps) then mret None else mret (Some ent).

(** ** Commands *)

(** The loop over a directory. *)
Fixpoint ls_loop (fuel : nat) (ctx : context) (dir : openDir) (w : fsState)
    : result error (list Dir) * fsState :=
  match fuel with
  | O => (Hang "ls", w)
  | S fuel =>
      match Next ctx dir w with
      | (Ok [], (_, w)) => (Ok [], w)
      | (Ok dirs, (dir, w)) =>
          match ls_loop fuel ctx dir w with
          | (Ok rest, w) => (Ok (dirs ++ rest), w)
          | r => r
          end
      | (Err e, (_, w)) => (Err e, w)
      | (Panic y, (_, w)) => (Panic y, w)
      | (Hang y, (_, w)) => (Hang y, w)
      end
  end.

(** The lines for one entry; [fuel] bounds the batches of a directory. *)
Definition ls_ent (fuel : nat) (ctx : context) (ent : cEnt) : K (list line) :=
  if negb (cIsDir ent) then
    d ← fs (cStat ctx ent);
    mret [Entry d]
  else
    reader ← fs (cOpenDir ctx ent);
    ds ← fs (ls_loop fuel ctx reader);
    mret (Entry <$> ds).

(** The loop over the arguments: the lines written so far are [acc], printed
    by Flush at the end.  The deferred Clunks run after that, last first. *)
Fixpoint ls_paths (fuel : nat) (ctx : context) (many : bool) (ps : list string)
    (acc : list line) : K unit :=
  match ps with
  | [] => λ k, (Ok (), mkCommander (k_fs k) (k_pwd k) (k_root k) (k_path k) (k_out k ++ acc))
  | p :: ps =>
      let acc := if many then acc ++ [Header p] else acc in
      '(rel, steps, _) ← toWalk p;
      found ← walk_to ctx rel steps;
      match found with
      | None => mret ()
      | Some ent =>
          deferred
            (ls ← ls_ent fuel ctx ent;
             ls_paths fuel ctx many ps (acc ++ ls ++ (if many then [Blank] else [])))
            (fs (cClunk ctx ent))
      end
  end.

Definition cmdls (fuel : nat) (ctx : context) (args : list string) : K unit :=
  let ps := if decide (args = []) then [""] else args in
  ls_paths fuel ctx (bool_decide (1 < length ps)%nat) ps [].

Definition cd_to (ctx : context) (p : string) : K unit :=
  '(rel, steps, path) ← toWalk p;
  found ← walk_to ctx rel steps;
  match found with
  | None => mret ()
  | Some next =>
      if negb (cIsDir next) then
        attempt (fs (cClunk ctx next));;
        kfail (errorString "not a directory.")
      else
        pwd ← get_pwd;
        attempt (fs (cClunk ctx pwd));;
        set_pwd next path
  end.

Definition cmdcd (ctx : context) (args : list string) : K unit :=
  match args with
  | [] => cd_to ctx "/"
  | [p] => cd_to ctx p
  | _ => kfail (errorString "invalid args")
  end.

(** One argument of rm: whether it failed. *)
Definition rm_one (ctx : context) (p : string) : K bool :=
  w ← attempt (toWalk p);
  match w with
  | inl _ => print (Text ("Invalid path:  " +:+ p));; mret true
  | inr (rel, steps, _) =>
      r ← attempt (fs (cWalk ctx rel steps));
      match r with
      | inl e => print (Failure e);; mret true
      | inr (_, ent) =>
          r ← attempt (fs (cRemove ctx ent));
          match r with
          | inl e => print (Failure e);; mret true
          | inr _ => mret false
          end
      end
  end.

Fixpoint rm_all (ctx : context) (failed : bool) (args : list string) : K bool :=
  match args with
  | [] => mret failed
  | p :: args => f ← rm_one ctx p; rm_all ctx (failed || f) args
  end.

Definition cmdrm (ctx : context) (args : list string) : K unit :=
  failed ← rm_all ctx false args;
  if failed : bool then kfail (errorString "error") else mret ().

(** The directory a new file goes to, and its name; [None] is an incomplete
    walk. *)
Definition create_dir (ctx : context) (args : list string) : K (option (cEnt * string)) :=
  match args with
  | [p] =>
      '(rel, steps, _) ← toWalk p;
      match last steps with
      | None => kfail (errorString "Need a filename.")
      | Some p =>
          found ← walk_to ctx rel (removelast steps);
          match found with
          | None => mret None
          | Some next =>
              if negb (cIsDir next) then
                attempt (fs (cClunk ctx next));;
                kfail (errorString "not a directory.")
              else mret (Some (next, p))
          end
      end
  | _ => kfail (errorString "invalid args")
  end.

Definition cmdtouch (ctx : context) (args : list string) : K unit :=
  found ← create_dir ctx args;
  match found with
  | None => mret ()
  | Some (next, p) =>
      '(ref, _) ← fs (cCreate ctx next p 420 OREAD);
      attempt (fs (cClunk ctx ref));;
      mret ()
  end.

(** With an error, Create returns noEnt for [ref]. *)
Definition cmdmkdir (ctx : context) (args : list string) : K unit :=
  found ← create_dir ctx args;
  match found with
  | None => mret ()
  | Some (next, p) =>
      r ← attempt (fs (cCreate ctx next p (Z.lor DMDIR 420) OREAD));
      match r with
      | inl e => attempt (fs (cClunk ctx noEnt));; kfail e
      | inr _ => mret ()
      end
  end.

Definition cmdpwd (args : list string) : K unit :=
  if decide (args ≠ []) then kfail (errorString "pwd takes no arguments")
  else path ← get_path; print (Text path).

Definition cat_ent (ctx : context) (ent : cEnt) : K unit :=
  file ← fs (cOpen ctx ent OREAD);
  n ← fs (λ w, (Ok (cIOUnit file w), w));
  if decide (n < 0) then kpanic "makeslice: len out of range"
  else
    '(p, err) ← fs (cRead ctx file n 0);
    match err with
    | Some e => kfail e
    | None => print (Bytes p);; print Blank
    end.

Definition cmdcat (ctx : context) (args : list string) : K unit :=
  match args with
  | [] | [_] =>
      '(rel, steps, _) ← toWalk (default "/" (head args));
      found ← walk_to ctx rel steps;
      match found with
      | None => mret ()
      | Some ent => deferred (cat_ent ctx ent) (fs (cClunk ctx ent))
      end
  | _ => kfail (errorString "invalid args")
  end.

(** The loop of write: [fuel] bounds the number of writes. *)
Fixpoint write_loop (fuel : nat) (ctx : context) (file : cfile) (b : bytes) (nwritten : Z)
    : K unit :=
  if decide (b = []) then mret ()
  else
    match fuel with
    | O => λ k, (Hang "write", k)
    | S fuel =>
        '(n, err) ← fs (cWrite ctx file b nwritten);
        match err with
        | Some e => kfail e
        | None =>
            if decide (n < 0 ∨ len b < n) then kpanic "slice bounds out of range"
            else write_loop fuel ctx file (drop (Z.to_nat n) b) (int64 (nwritten + n))
        end
    end.

(** [strings.Join(args, " ")] *)
Fixpoint join_space (ss : list string) : string :=
  match ss with
  | [] => ""
  | [s] => s
  | s :: ss => s +:+ " " +:+ join_space ss
  end.

Definition cmdwrite (fuel : nat) (ctx : context) (args : list string) : K unit :=
  match args with
  | [] => kpanic "index out of range"
  | p :: args =>
      '(rel, steps, _) ← toWalk p;
      found ← walk_to ctx rel steps;
      match found with
      | None => mret ()
      | Some ent =>
          deferred
            (file ← fs (cOpen ctx ent OWRITE);
             write_loop fuel ctx file (bytes_of_string (join_space args)) 0)
            (fs (cClunk ctx ent))
      end
  end.

(** ** The program *)

(** main up to its loop: attach, and a clone of the root as the working
    directory. *)
Definition start (ctx : context) (s : St) : result error fsCommander :=
  match (root ← cAttach ctx "anonymous" "/" None;
         '(_, pwd) ← cWalk ctx root [];
         mret (root, pwd)) (CFileSys s) with
  | (Ok (root, pwd), w) => Ok (mkCommander w pwd root "/" [])
  | (Err e, _) => Err e
  | (Panic y, _) => Panic y
  | (Hang y, _) => Hang y
  end.

(** ** A line of input *)

(** [strings.Fields], on ASCII white space. *)
Definition is_space (c : ascii) : bool :=
  let n := nat_of_ascii c in bool_decide (n = 32 ∨ 9 ≤ n ≤ 13)%nat.

Fixpoint fields (cur : string) (s : string) : list string :=
  let word := if decide (cur = "") then [] else [cur] in
  match s with
  | EmptyString => word
  | String c s => if is_space c then word ++ fields "" s
                  else fields (cur +:+ String c EmptyString) s
  end.

(** The loop of main on one line; [true] ends the program. *)
Definition run_line (fuel : nat) (ctx : context) (l : string) : K bool :=
  if decide (l = "") then mret false
  else
    match fields "" l with
    | [] => kpanic "index out of range"
    | name :: args =>
        if decide (name = "exit") then mret true
        else
          let cmd : K unit :=
            if decide (name = "ls") then cmdls fuel ctx args
            else if decide (name = "cd") then cmdcd ctx args
            else if decide (name = "pwd") then cmdpwd args
            else if decide (name = "cat") then cmdcat ctx args
            else if decide (name = "rm") then cmdrm ctx args
            else if decide (name = "touch") then cmdtouch ctx args
            else if decide (name = "mkdir") then cmdmkdir ctx args
            else if decide (name = "write") then cmdwrite fuel ctx args
            else kfail (errorString "command not implemented") in
          r ← attempt cmd;
          match r with
          | inl e => if decide (e = ErrClosed) then mret true
                     else print (Failure e);; mret false
          | inr _ => mret false
          end
    end.
End Commander.
End Commander.
