(* ===== verification/Mount.v ===== *)
(** * Mount: the client's file system over the server's session

    [CFileSys] over the session of [SFileSys] gives back the file server it
    was made of: an entry of the client stands for the entry that the session
    has under its fid ([mounted]), and the methods of the one give what the
    methods of the other give.  The session is its specification, the table
    of fids, and the client is alone on it, so that the fids it makes up are
    free ([fids_ok]). *)
From S2P Require Import Prelude Types Encoding EncodingFacts Codec Path Readdir FileSys SFileSys.
From S2P Require Import SessionSpec Session CFileSys Commander RamFS RamInv SSession RamServe.

Module Mount.
Import CFileSys Commander.

Section Mount.
Context `{FS : FileSys}.

Abbreviation cstate := (@fsState table).

Definition mounted (w : cstate) (c : cEnt) (ent : Dirent) : Prop :=
  c_fs c = true ∧ ∃ sf, t_fids (c_session w) !! c_fid c = Some sf ∧ sf_Ent sf = Some ent.

(** The server's state behind the client. *)
Definition remote_world (w : cstate) : World := t_world (c_session w).

Definition fids_ok (w : cstate) : Prop :=
  0 ≤ nextfid w ∧ ∀ fid, is_Some (t_fids (c_session w) !! fid) → 0 < fid ≤ nextfid w.

Lemma C_bind_run {A B} (m : C A) (f : A → C B) (w : cstate) :
  (m ≫= f) w
  = match m w with
    | (Ok a, w) => f a w
    | (Err e, w) => (Err e, w)
    | (Panic y, w) => (Panic y, w)
    | (Hang y, w) => (Hang y, w)
    end.
Proof. reflexivity. Qed.
Lemma C_ret_run {A} (a : A) (w : cstate) : (mret a : C A) w = (Ok a, w).
Proof. reflexivity. Qed.

(** The next fid is free. *)
Lemma next_fid_fresh w :
  fids_ok w → nextfid w + 1 < NOFID →
  u32 (nextfid w + 1) = nextfid w + 1 ∧ t_fids (c_session w) !! (nextfid w + 1) = None ∧
  nextfid w + 1 ≠ NOFID.
Proof.
  intros [H0 Hf] Hn. split_and!; [| |lia].
  - apply u32_small. unfold NOFID in *. lia.
  - apply eq_None_not_Some. intros Hs%Hf. lia.
Qed.

(** ** Walk *)

(** The state after a walk that makes an entry, or none. *)
Definition walked (w : cstate) (ws : World) (found : option Dirent) : cstate :=
  mkFs (mkTable ws (match found with
                    | Some ent => <[nextfid w + 1 := mkSFid (Some ent) None 0]> (t_fids (c_session w))
                    | None => t_fids (c_session w)
                    end)) (nextfid w + 1).

Lemma mount_walk_steps ctx w c ent names steps bsp :
  fids_ok w → nextfid w + 1 < NOFID → mounted w c ent →
  NormalizePath names = (Some steps, bsp) → 0 ≤ bsp → valid_names steps →
  let '(r, ws) := spec_walk_ent ctx ent steps (remote_world w) in
  match r with
  | Ok (qids, found) =>
      cWalk ctx c names w
      = (if decide (length qids ≠ length names) then Err (Warning "Incomplete walk result")
         else Ok (qids, mkCEnt (nextfid w + 1) (default (c_qid c) (last qids)) true),
         walked w ws (if decide (length qids = length steps) then Some found else None))
  | Err e => cWalk ctx c names w = (Err e, walked w ws None)
  | Panic y => cWalk ctx c names w = (Panic y, walked w ws None)
  | Hang y => cWalk ctx c names w = (Hang y, walked w ws None)
  end.
Proof.
  intros Hok Hn (Hfs & sf & Hc & He) Hnp Hb Hv. destruct (next_fid_fresh w Hok Hn) as (Hu & Hfree & Hnf).
  destruct (spec_walk_ent ctx ent steps (remote_world w)) as [r ws] eqn:E.
  unfold cWalk. rewrite Hnp, decide_False by lia.
  unfold on_ent. rewrite Hfs, C_bind_run. unfold newFid. rewrite Hu. cbn [default id].
  rewrite C_bind_run. unfold sess. cbn [c_session nextfid sWalk table_Session].
  unfold spec_Walk. rewrite ValidPath_spec, (decide_True (P := valid_names steps)) by done.
  rewrite decide_False by lia.
  destruct Hok as [H0 Hf].
  assert (c_fid c ≤ nextfid w) by (apply Hf; by eexists).
  rewrite (decide_False (P := nextfid w + 1 = c_fid c)) by lia.
  rewrite Hc. destruct sf as [e0 file md]. cbn in He. subst e0.
  rewrite (decide_False (P := nextfid w + 1 = NOFID)) by done.
  rewrite Hfree, (decide_False (P := is_Some None)) by (by intros []).
  unfold remote_world in E. rewrite E.
  destruct r as [[qids found]|e|y|y]; [|done..].
  by destruct (decide (length qids = length steps)), (decide (length qids ≠ length names)).
Qed.

Lemma mount_walk_run ctx w c ent names :
  fids_ok w → nextfid w + 1 < NOFID → mounted w c ent → valid_names names →
  let '(r, ws) := spec_walk_ent ctx ent names (remote_world w) in
  match r with
  | Ok (qids, found) =>
      cWalk ctx c names w
      = if decide (length qids = length names)
        then (Ok (qids, mkCEnt (nextfid w + 1) (default (c_qid c) (last qids)) true),
              walked w ws (Some found))
        else (Err (Warning "Incomplete walk result"), walked w ws None)
  | Err e => cWalk ctx c names w = (Err e, walked w ws None)
  | Panic y => cWalk ctx c names w = (Panic y, walked w ws None)
  | Hang y => cWalk ctx c names w = (Hang y, walked w ws None)
  end.
Proof.
  intros Hok Hn Hm Hv.
  pose proof (mount_walk_steps ctx w c ent names names _ Hok Hn Hm
    (NormalizePath_fixed names Hv) ltac:(lia) Hv) as H.
  destruct (spec_walk_ent ctx ent names (remote_world w)) as [[[qids found]|e|y|y] ws]; [|done..].
  rewrite H. destruct (decide (length qids = length names)) as [Hl|Hl].
  - by rewrite decide_False by (by intros ?).
  - by rewrite decide_True.
Qed.

Lemma walked_ok w ws found :
  fids_ok w → fids_ok (walked w ws found).
Proof.
  intros [H0 Hf]. split; cbn [nextfid walked]; [lia|]. intros fid. cbn [c_session t_fids walked].
  destruct found as [ent|]; [|intros ?%Hf; lia].
  destruct (decide (nextfid w + 1 = fid)) as [<-|Hne]; [lia|].
  rewrite lookup_insert_ne by done. intros ?%Hf. lia.
Qed.

Lemma walked_mounted w ws found c ent :
  fids_ok w → mounted w c ent → mounted (walked w ws found) c ent.
Proof.
  intros [H0 Hf] (Hfs & sf & Hc & He). split; [done|]. exists sf. split; [|done].
  cbn [c_session t_fids walked]. destruct found as [e|]; [|done].
  rewrite lookup_insert_ne; [done|]. pose proof (Hf (c_fid c) (mk_is_Some _ _ Hc)). lia.
Qed.

(** ** The methods that only pass a call on *)

Definition with_world (w : cstate) (ws : World) : cstate :=
  mkFs (mkTable ws (t_fids (c_session w))) (nextfid w).
Definition unmount (w : cstate) (c : cEnt) (ws : World) : cstate :=
  mkFs (mkTable ws (delete (c_fid c) (t_fids (c_session w)))) (nextfid w).

(** An operation on a fid that leaves its SFid alone. *)
Lemma mount_on_fid {A} w c ent (g : SFid → Dirent → World → result error A * (SFid * World))
    (m : World → result error A * World) sf :
  c_fs c = true → t_fids (c_session w) !! c_fid c = Some sf → sf_Ent sf = Some ent →
  (∀ w, g sf ent w = (fst (m w), (sf, snd (m w)))) →
  on_ent c (sess (on_fid (c_fid c) g)) w
  = (fst (m (remote_world w)), with_world w (snd (m (remote_world w)))).
Proof.
  intros Hfs Hc He Hg. unfold on_ent, sess, on_fid, with_world, remote_world.
  rewrite Hfs, Hc, He, Hg. by rewrite insert_id.
Qed.

Lemma mount_delete ctx (remove : bool) w c ent :
  mounted w c ent →
  on_ent c (sess (spec_delete ctx (c_fid c) remove)) w
  = (let '(r, ws) := (if remove then ent_Remove ctx ent else ent_Clunk ctx ent) (remote_world w) in
     (r, unmount w c ws)).
Proof.
  intros (Hfs & sf & Hc & He). unfold on_ent, sess, spec_delete, remote_world.
  rewrite Hfs, Hc, He. by destruct (_ (t_world (c_session w))).
Qed.
End Mount.

(** ** Listing a directory *)

(** An entry that can be read back, as the wire carries it, from a buffer of
    [cap] bytes. *)
Definition fits_message (cap : Z) (d : Dir) : Prop := wf_Dir (carry_Dir d) ∧ len (wire_dir d) ≤ cap.

Lemma decode_loop_wire cap ds : ∀ fuel,
  cap ≤ 65535 → Forall (fits_message cap) ds → (length ds < fuel)%nat →
  decode_loop fuel (wire_dirs ds) = Ok (carry_Dir <$> ds, None).
Proof.
  induction ds as [|d ds IH]; intros [|fuel] Hcap Hall Hf; simpl in Hf; try lia; [done|].
  apply Forall_cons in Hall as [[Hd Hb] Hall]. cbn [decode_loop].
  unfold wire_dirs. cbn [fmap list_fmap concat]. rewrite <-wire_carry_dir in *.
  rewrite DecodeDir_wire by done.
  rewrite decide_True by (unfold wire_dir in Hb; revert Hb; len_simpl; lia).
  fold (wire_dirs ds). by rewrite IH by (done || lia).
Qed.

Lemma length_wire_dirs_le ds : (length ds ≤ length (wire_dirs ds))%nat.
Proof. apply length_wire_dirs. Qed.

Section Listing.
Context `{FS : FileSys} (ctx : context) (batches : Iter * World → list (list Dir)).
Context `{!BatchLaws (λ '(it, w), iter_Next ctx it w) batches}.

(** The reader of a directory with the server's state in its source. *)
Definition load_rd (rd : Readdir (list Dir * bool * Iter)) (w : World)
    : Readdir (list Dir * bool * (Iter * World)) :=
  let '(dirs, done, it) := rd_next rd in mkReaddir (dirs, done, (it, w)) (rd_buf rd) (rd_offset rd).

(** The entries it has still to give. *)
Definition to_list (rd : Readdir (list Dir * bool * Iter)) (w : World) : list Dir :=
  pending (pend_batches batches) (load_rd rd w).

Lemma dir_Read_spec rd w cap :
  let k := fits cap (to_list rd w) in
  ∃ rd' w', dir_Read ctx rd cap (rd_offset rd) w
            = (Ok (wire_dirs (take k (to_list rd w)), None), rd', w') ∧
    to_list rd' w' = drop k (to_list rd w) ∧
    rd_offset rd' = int64 (rd_offset rd + len (wire_dirs (take k (to_list rd w)))).
Proof.
  intros k. unfold dir_Read. unfold to_list in *. unfold load_rd in *.
  destruct (rd_next rd) as [[dirs dn] it].
  edestruct (Read_spec codec9p (mkNext1 (λ '(it, w), iter_Next ctx it w)) (pend_batches batches)
    (mkReaddir (dirs, dn, (it, w)) (rd_buf rd) (rd_offset rd)) cap (rd_offset rd) eq_refl)
    as (rd' & E & Hp & Ho).
  unfold NewCodec. rewrite E. fold k in Hp, Ho |- *.
  destruct rd' as [[[dirs' dn'] [it' w']] buf' off']. cbn [rd_next rd_buf rd_offset] in *.
  eexists _, _. split; [done|]. by split.
Qed.

(** The client's directory and the server's are at the same place. *)
Definition listing (w : @fsState table) (c : cEnt) (cap : Z) (dir : openDir) (ds : list Dir) : Prop :=
  c_fs c = true ∧ (∃ iou, od_ref dir = fileRef c iou) ∧ od_done dir = false ∧ od_buflen dir = cap ∧
  ∃ ent rd, t_fids (c_session w) !! c_fid c = Some (mkSFid (Some ent) (Some (FDir rd)) OREAD) ∧
    od_nread dir = rd_offset rd ∧ to_list rd (remote_world w) = ds.

Lemma Next_spec w c cap dir ds :
  listing w c cap dir ds → cap ≤ 65535 →
  Forall (fits_message cap) ds →
  let k := fits cap ds in
  ∃ dir' w', Next ctx dir w = (Ok (carry_Dir <$> take k ds), (dir', w')) ∧
    (take k ds ≠ [] → listing w' c cap dir' (drop k ds) ∧
       od_nread dir' = int64 (od_nread dir + len (wire_dirs (take k ds)))).
Proof.
  intros (Hfs & [iou Hr] & Hd & Hb & ent & rd & Hf & Hn & Hl) Hcap Hall k. subst ds.
  unfold Next. rewrite Hd, Hr, Hb, Hn. unfold cRead, file_session, on_ent. rewrite Hfs.
  unfold sess. cbn [sRead table_Session]. unfold spec_Read, on_fid. rewrite Hf. cbn [sf_Ent sf_File sf_Mode].
  rewrite (decide_False (P := Z.land OREAD OEXEC = OWRITE)) by done.
  destruct (dir_Read_spec rd (remote_world w) cap) as (rd' & ws & E & Hp & Ho).
  unfold remote_world in E at 1. rewrite E. fold k. cbn [c_session nextfid].
  rewrite (decode_loop_wire cap); [|done|by apply Forall_take|
    pose proof (length_wire_dirs_le (take k (to_list rd (remote_world w)))); lia].
  eexists _, _. split; [done|]. intros Hne.
  rewrite (decide_False (P := carry_Dir <$> take _ _ = [])) by (by intros ?%fmap_nil_inv).
  split; [|done]. split_and!; [done|by exists iou|done|done|].
  exists ent, rd'. split_and!; [apply lookup_insert_eq|by rewrite Ho|done].
Qed.

Lemma fits_zero cap ds :
  Forall (fits_message cap) ds → fits cap ds = 0%nat → ds = [].
Proof.
  intros Hall. destruct Hall as [|d ds [_ Hd] _]; [done|]. cbn [fits]. by rewrite decide_True.
Qed.

Lemma ls_loop_spec fuel : ∀ w c cap dir ds,
  listing w c cap dir ds → cap ≤ 65535 → (length ds < fuel)%nat →
  Forall (fits_message cap) ds →
  ∃ w', ls_loop fuel ctx dir w = (Ok (carry_Dir <$> ds), w').
Proof.
  induction fuel as [|fuel IH]; intros w c cap dir ds HL Hcap Hf Hall; [lia|].
  cbn [ls_loop]. destruct (Next_spec w c cap dir ds HL Hcap Hall) as (dir' & w' & -> & Hnext).
  set (k := fits cap ds) in *. destruct (take k ds) as [|d rest] eqn:Ht; cbn [fmap list_fmap].
  - assert (ds = []) as ->; [|by eexists]. destruct (decide (k = 0%nat)) as [Hk|Hk].
    + by apply (fits_zero cap).
    + destruct ds as [|d ds]; [done|]. by destruct k.
  - destruct Hnext as [HL' _]; [done|].
    destruct (IH w' c cap dir' (drop k ds) HL' Hcap) as (w2 & ->).
    + rewrite length_drop. destruct ds as [|d' ds]; [by rewrite take_nil in Ht|].
      destruct k; [done|]. simpl in *. lia.
    + by apply Forall_drop.
    + exists w2. do 2 f_equal.
      assert (carry_Dir <$> ds = (carry_Dir <$> d :: rest) ++ (carry_Dir <$> drop k ds)) as ->
        by (by rewrite <-Ht, <-fmap_app, take_drop). done.
Qed.

Lemma cOpenDir_spec w c ent md it ws :
  c_fs c = true → t_fids (c_session w) !! c_fid c = Some (mkSFid (Some ent) None md) →
  IsDir ent (remote_world w) = true → ent_OpenDir ctx ent (remote_world w) = (Ok it, ws) →
  ∃ dir w1, cOpenDir ctx c w = (Ok dir, w1) ∧
    listing w1 c (DefaultMSize - 11) dir (upto_empty (batches (it, ws))).
Proof.
  intros Hfs Hf Hd Ho. unfold cOpenDir, cOpen, on_ent. rewrite Hfs.
  rewrite !C_bind_run. unfold sess. cbn [sOpen table_Session]. unfold spec_Open, on_fid.
  rewrite Hf. cbn [sf_Ent sf_File]. unfold spec_open_file, remote_world in *. rewrite Hd, Ho.
  cbn [fmap result_fmap]. eexists _, _. split; [reflexivity|].
  split_and!; [done|by eexists|done|done|].
  exists ent, (NewReaddir it). split_and!; [apply lookup_insert_eq|done|].
  unfold to_list, load_rd, NewReaddir, NewReaddir1, pending. cbn. done.
Qed.
End Listing.

(** ** Instances *)

(** ramfs gives a directory as one batch. *)
Definition ram_batches (range : gmap string Z → list (string * Z))
    (x : @Iter (RamFS.ramServer range) * @World (RamFS.ramServer range)) : list (list Dir) :=
  if RamFS.done x.1 then [] else [RamFS.dirs x.1].

#[export] Instance ram_BatchLaws range ctx :
  BatchLaws (λ '(it, w), @iter_Next (RamFS.ramServer range) ctx it w) (ram_batches range).
Proof.
  intros [[ds dn] w]. unfold ram_batches. cbn [fst RamFS.done RamFS.dirs].
  destruct dn; [by eexists|]. eexists. split; [reflexivity|done].
Qed.

(** A client of ramfs that has attached: fid 1 is the root. *)
Definition clock : Time := mkTime 1700000000 123456789.
Definition mnt_root : RamFS.FileHandle := RamFS.mkHandle "/" 0 (Some RamFS.root) (Some "u") [].
Definition mnt : @fsState (@table RamServe.ram0) :=
  mkFs (mkTable (FS := RamServe.ram0) (snd (RamFS.Attach "u" (RamFS.fserver clock)))
          {[ 1 := mkSFid (FS := RamServe.ram0) (Some mnt_root) None 0 ]}) 1.
Definition mnt_ent : cEnt := mkCEnt 1 (mkQid QTDIR 0 1) true.

Lemma mnt_attach :
  cAttach None "u" "/" None (CFileSys (mkTable (FS := RamServe.ram0) (RamFS.fserver clock) ∅))
  = (Ok mnt_ent, mnt).
Proof. reflexivity. Qed.

Lemma mnt_fids_ok : fids_ok (FS := RamServe.ram0) mnt.
Proof.
  split; [done|]. intros fid [sf Hf]. cbn [mnt c_session t_fids nextfid] in *.
  apply lookup_singleton_Some in Hf as [<- _]. done.
Qed.

Lemma mnt_mounted : mounted (FS := RamServe.ram0) mnt mnt_ent mnt_root.
Proof. split; [done|]. eexists. split; [apply lookup_singleton_eq|done]. Qed.

(** ** Theorems *)

(** C22. Mounting is transparent for walks along names in normal form
    ([valid_names]: no empty name, no ".", no name with a separator, and ".."
    only before all other names), while fids are left: walking an entry of the
    client's file system does on the server exactly what walking the server's
    entry does, and gives its qids and an entry of the client for what was
    found, under a fid nobody uses; its error, if it fails; and a warning, if
    the walk was not complete.  The entries the client has stay what they
    were.  (Along other names the client can fail after the server succeeded:
    [mount_walk_leak].) *)
Theorem mount_walk `{FS : FileSys} ctx w c ent names :
  fids_ok w → nextfid w + 1 < NOFID → mounted w c ent → valid_names names →
  let '(r, ws) := spec_walk_ent ctx ent names (remote_world w) in
  let '(cr, w') := cWalk ctx c names w in
  remote_world w' = ws ∧ fids_ok w' ∧ (∀ c0 e0, mounted w c0 e0 → mounted w' c0 e0) ∧
  match r with
  | Ok (qids, found) =>
      if decide (length qids = length names)
      then ∃ c', cr = Ok (qids, c') ∧ mounted w' c' found ∧
                 c_qid c' = default (c_qid c) (last qids)
      else cr = Err (Warning "Incomplete walk result")
  | Err e => cr = Err e
  | Panic y => cr = Panic y
  | Hang y => cr = Hang y
  end.
Proof.
  intros Hok Hn Hm Hv. pose proof (mount_walk_run ctx w c ent names Hok Hn Hm Hv) as H.
  destruct (spec_walk_ent ctx ent names (remote_world w)) as [[[qids found]|e|y|y] ws];
    [destruct (decide (length qids = length names))|..]; rewrite H; cbv beta iota;
    (split_and!; [done|by apply walked_ok|intros; by apply walked_mounted|]); try done.
  eexists. split_and!; [done| |done]. split; [done|]. eexists. split; [apply lookup_insert_eq|done].
Qed.

(** A walk whose names are not in normal form but lead somewhere fails on the
    client after it succeeded on the server: the number of qids is compared
    with that of the names, not with that of the steps sent, and the fid made
    stays in the server's table for ever. *)
Lemma mount_walk_leak `{FS : FileSys} ctx w c ent names steps bsp qids found ws :
  fids_ok w → nextfid w + 1 < NOFID → mounted w c ent →
  NormalizePath names = (Some steps, bsp) → 0 ≤ bsp → valid_names steps →
  spec_walk_ent ctx ent steps (remote_world w) = (Ok (qids, found), ws) →
  length qids = length steps → length steps ≠ length names →
  ∃ w', cWalk ctx c names w = (Err (Warning "Incomplete walk result"), w') ∧
    t_fids (c_session w') !! (nextfid w + 1) = Some (mkSFid (Some found) None 0).
Proof.
  intros Hok Hn Hm Hnp Hb Hv Hs Hl Hne.
  pose proof (mount_walk_steps ctx w c ent names steps bsp Hok Hn Hm Hnp Hb Hv) as H.
  rewrite Hs, (decide_True (P := length qids = length steps)), decide_True in H by (done || lia).
  eexists. split; [exact H|]. cbn [walked c_session t_fids]. apply lookup_insert_eq.
Qed.

(** C27. Mounting is transparent for the other methods of an entry: Stat,
    WStat, Clunk and Remove of the client's entry give what those of the
    server's entry give, and Clunk and Remove free the fid. *)
Theorem mount_methods `{FS : FileSys} ctx w c ent d :
  mounted w c ent →
  cStat ctx c w = (let '(r, ws) := ent_Stat ctx ent (remote_world w) in (r, with_world w ws)) ∧
  cWStat ctx c d w = (let '(r, ws) := ent_WStat ctx ent d (remote_world w) in (r, with_world w ws)) ∧
  cClunk ctx c w = (let '(r, ws) := ent_Clunk ctx ent (remote_world w) in (r, unmount w c ws)) ∧
  cRemove ctx c w = (let '(r, ws) := ent_Remove ctx ent (remote_world w) in (r, unmount w c ws)).
Proof.
  intros Hm. pose proof Hm as (Hfs & sf & Hc & He). split_and!.
  - unfold cStat. cbn [sStat table_Session]. unfold spec_Stat.
    rewrite (mount_on_fid w c ent _ (ent_Stat ctx ent) sf Hfs Hc He);
      [by destruct (ent_Stat ctx ent _)|]. intros w0. by destruct (ent_Stat ctx ent w0).
  - unfold cWStat. cbn [sWStat table_Session]. unfold spec_WStat.
    rewrite (mount_on_fid w c ent _ (ent_WStat ctx ent d) sf Hfs Hc He);
      [by destruct (ent_WStat ctx ent d _)|]. intros w0. by destruct (ent_WStat ctx ent d w0).
  - by apply (mount_delete ctx false).
  - by apply (mount_delete ctx true).
Qed.

(** A file "a" in the root. *)
Definition mnt_file : @fsState (@table RamServe.ram0) :=
  mkFs (mkTable (FS := RamServe.ram0)
          (snd (RamFS.Create mnt_root "a" 420 1 (snd (RamFS.Attach "u" (RamFS.fserver clock)))))
          {[ 1 := mkSFid (FS := RamServe.ram0) (Some mnt_root) None 0 ]}) 1.

Lemma mount_walk_witness :
  fst (cWalk None mnt_ent ["a"] mnt_file) = Ok ([mkQid QTFILE 0 2], mkCEnt 2 (mkQid QTFILE 0 2) true) ∧
  let '(r, ws) := spec_walk_ent (FS := RamServe.ram0) None mnt_root ["a"] (remote_world mnt_file) in
  let '(cr, w') := cWalk None mnt_ent ["a"] mnt_file in
  remote_world w' = ws ∧ fids_ok w' ∧ (∀ c0 e0, mounted mnt_file c0 e0 → mounted w' c0 e0) ∧
  match r with
  | Ok (qids, found) =>
      if decide (length qids = length ["a"])
      then ∃ c', cr = Ok (qids, c') ∧ mounted w' c' found ∧
                 c_qid c' = default (c_qid mnt_ent) (last qids)
      else cr = Err (Warning "Incomplete walk result")
  | Err e => cr = Err e
  | Panic y => cr = Panic y
  | Hang y => cr = Hang y
  end.
Proof.
  split; [vm_compute; reflexivity|].
  apply (mount_walk (FS := RamServe.ram0) None mnt_file mnt_ent mnt_root ["a"]);
    [exact mnt_fids_ok|reflexivity|exact mnt_mounted|].
  apply (bool_decide_unpack _). vm_compute. exact I.
Defined.

Lemma mount_methods_witness :
  cStat None mnt_ent mnt
  = (let '(r, ws) := @ent_Stat RamServe.ram0 None mnt_root (remote_world mnt) in
     (r, with_world mnt ws)).
Proof.
  apply (mount_methods (FS := RamServe.ram0) None mnt mnt_ent mnt_root zeroDir mnt_mounted).
Defined.

(** C28. Listing a mounted directory gives the directory, provided every
    entry fits the widths of the protocol (times apart) and a message
    ([fits_message]: at most DefaultMSize - 11 bytes; a larger one ends the
    listing, [readdir_big_entry]): opening it and reading until a batch is
    empty, as ls does, ends, and gives all the entries the server's directory
    has, in order and none twice, with their times in seconds, across the
    session, the message buffers and the codec. *)
Theorem mount_listing `{FS : FileSys} ctx batches w c ent md it ws :
  BatchLaws (λ '(it, w), iter_Next ctx it w) batches →
  c_fs c = true → t_fids (c_session w) !! c_fid c = Some (mkSFid (Some ent) None md) →
  IsDir ent (remote_world w) = true → ent_OpenDir ctx ent (remote_world w) = (Ok it, ws) →
  let ds := upto_empty (batches (it, ws)) in
  Forall (fits_message (DefaultMSize - 11)) ds →
  ∃ dir w1 w2, cOpenDir ctx c w = (Ok dir, w1) ∧
    ls_loop (S (length ds)) ctx dir w1 = (Ok (carry_Dir <$> ds), w2).
Proof.
  intros Hb Hfs Hf Hd Ho ds Hall.
  destruct (cOpenDir_spec ctx batches w c ent md it ws Hfs Hf Hd Ho) as (dir & w1 & E & HL).
  destruct (ls_loop_spec ctx batches (S (length ds)) w1 c _ dir ds HL) as (w2 & E2);
    [by vm_compute|lia|done|]. by exists dir, w1, w2.
Qed.

Lemma mount_listing_witness :
  ∃ dir w1 w2, cOpenDir None mnt_ent mnt = (Ok dir, w1) ∧
    ls_loop 2 None dir w1
    = (Ok [mkDir 0 0 (mkQid QTDIR 0 1) 0x800001FD (mkTime 1700000000 0) (mkTime 1700000000 0) 0 ".." "root" "users"
             "root"], w2).
Proof.
  apply (mount_listing (FS := RamServe.ram0) None (ram_batches map_to_list) mnt mnt_ent mnt_root 0
           (RamFS.mkDirList
              [mkDir 0 0 (mkQid QTDIR 0 1) 0x800001FD clock clock 0 ".." "root" "users"
                 "root"] false)
           (snd (RamFS.Attach "u" (RamFS.fserver clock))) _);
    [reflexivity|reflexivity|reflexivity|reflexivity|].
  apply (bool_decide_unpack _). vm_compute. exact I.
Defined.
End Mount.
