(* ===== verification/Commands.v ===== *)
(** * Commands: what the commands of the client do

    The commands of Commander over a mounted file server: the working
    directory and the path on the prompt move together, and the commands that
    misbehave. *)
From S2P Require Import Prelude Types Encoding EncodingFacts Codec Path Readdir FileSys SFileSys.
From S2P Require Import SessionSpec Session CFileSys Commander RamFS RamInv SleepFS RamServe Mount.

Module Commands.
Import CFileSys Commander Mount.

Section Commands.
Context `{FS : FileSys}.
Abbreviation commander := (@fsCommander table).

(** The working directory is [ent], the root [eroot], and the prompt shows
    the path of the components [comps]. *)
Definition at_dir (k : commander) (comps : list string) (ent eroot : Dirent) : Prop :=
  k_path k = render comps ∧ Forall valid_elem comps ∧ fids_ok (k_fs k) ∧
  mounted (k_fs k) (k_pwd k) ent ∧ mounted (k_fs k) (k_root k) eroot ∧
  c_fid (k_pwd k) ≠ c_fid (k_root k).

Lemma K_bind_run {A B} (m : K A) (f : A → K B) (k : commander) :
  (m ≫= f) k
  = match m k with
    | (Ok a, k) => f a k
    | (Err e, k) => (Err e, k)
    | (Panic y, k) => (Panic y, k)
    | (Hang y, k) => (Hang y, k)
    end.
Proof. reflexivity. Qed.
Lemma K_ret_run {A} (a : A) (k : commander) : (mret a : K A) k = (Ok a, k).
Proof. reflexivity. Qed.

(** What ToWalk accepts is canonical. *)
Lemma ToWalk_valid p isAbs steps : ToWalk p = (isAbs, Ok steps) → valid_names steps.
Proof.
  unfold ToWalk. destruct (decide (no_sep (split_slash (trim_slash p)))) as [Hs|Hs].
  - destruct (NormalizePath_spec _ Hs) as (ans & -> & Hv & _). cbn [default id].
    destruct (IsAbs p); case_decide; intros; simplify_eq; done.
  - unfold NormalizePath. rewrite NormalizePath_loop_reject by done.
    by destruct (IsAbs p).
Qed.

(** Where a path starts. *)
Definition base_comps (isAbs : bool) (comps : list string) : list string :=
  if isAbs then [] else comps.

Lemma toWalk_run k comps ent eroot p isAbs r :
  at_dir k comps ent eroot → ToWalk p = (isAbs, r) →
  let steps := match r with Ok steps => steps | _ => [] end in
  valid_names steps → (dotdots steps ≤ length (base_comps isAbs comps))%nat →
  toWalk p k
  = (Ok (if isAbs then k_root k else k_pwd k, steps,
         render (walk_comps (base_comps isAbs comps) steps)), k).
Proof.
  intros (Hp & Hc & _) E steps Hv Hd. unfold toWalk. rewrite E. fold steps.
  assert ((if isAbs then "/" else k_path k) = render (base_comps isAbs comps)) as ->.
  { destruct isAbs; [done|exact Hp]. }
  rewrite WalkName_render by (by destruct isAbs). by rewrite decide_True.
Qed.

Lemma fids_ok_unmount w c ws : fids_ok w → fids_ok (unmount w c ws).
Proof.
  intros [H0 Hf]. split; [done|]. cbn [unmount c_session t_fids nextfid]. intros fid [sf Hs].
  apply lookup_delete_Some in Hs as [_ Hs]. eauto.
Qed.

Lemma mounted_unmount w c ws c0 e0 :
  mounted w c0 e0 → c_fid c0 ≠ c_fid c → mounted (unmount w c ws) c0 e0.
Proof.
  intros (Hfs & sf & Hf & He) Hne. split; [done|]. exists sf. split; [|done].
  cbn [unmount c_session t_fids]. by rewrite lookup_delete_ne.
Qed.
End Commands.

(** Running a command as far as its state is known. *)
Ltac krun :=
  repeat first
    [ rewrite K_bind_run
    | rewrite K_ret_run
    | progress unfold attempt, kfail, kpanic, get_pwd, set_pwd
    | progress cbn [fst snd] ].

(** ** Theorems *)

(** C29. cd: if the path is one ToWalk accepts, stays below the root and
    leads to a directory, the working directory becomes the directory the
    server finds there, the old one is clunked, and the prompt shows its path:
    the two never disagree. *)
Theorem cd_moves `{FS : FileSys} ctx (k : @fsCommander table) p comps ent eroot (isAbs : bool) steps qids found ws :
  let rel := if isAbs then k_root k else k_pwd k in
  at_dir k comps ent eroot → nextfid (k_fs k) + 1 < NOFID →
  ToWalk p = (isAbs, Ok steps) → (dotdots steps ≤ length (base_comps isAbs comps))%nat →
  spec_walk_ent ctx (if isAbs then eroot else ent) steps (remote_world (k_fs k))
    = (Ok (qids, found), ws) → length qids = length steps →
  Z.land (Qid_Type (default (c_qid rel) (last qids))) QTDIR ≠ 0 →
  returns (fst (ent_Clunk ctx ent ws)) →
  ∃ k', cmdcd ctx [p] k = (Ok (), k') ∧
    at_dir k' (walk_comps (base_comps isAbs comps) steps) found eroot ∧
    remote_world (k_fs k') = snd (ent_Clunk ctx ent ws) ∧ k_out k' = k_out k.
Proof.
  intros rel Hat Hn Ht Hd Hw Hl Hdir Hr. pose proof (ToWalk_valid p isAbs steps Ht) as Hv.
  pose proof Hat as (Hp & Hc & Hok & Hpwd & Hroot & Hne).
  cbn [cmdcd]. unfold cd_to. krun.
  rewrite (toWalk_run k comps ent eroot p isAbs (Ok steps) Hat Ht Hv Hd). fold rel.
  cbv beta iota. unfold walk_to. krun. unfold fs.
  assert (mounted (k_fs k) rel (if isAbs then eroot else ent)) as Hrel by (by destruct isAbs).
  pose proof (mount_walk_run ctx (k_fs k) rel _ steps Hok Hn Hrel Hv) as Hrun.
  rewrite Hw, decide_True in Hrun by done. rewrite Hrun. cbv beta iota.
  rewrite (decide_False (P := length qids ≠ length steps)) by (by intros ?).
  krun. unfold cIsDir. cbn [c_qid].
  rewrite (proj2 (Z.eqb_neq _ _) Hdir). cbn [negb]. krun. cbn [k_pwd with_fs k_fs].
  set (w1 := walked (k_fs k) ws (Some found)).
  assert (mounted w1 (k_pwd k) ent) as Hpwd1 by by apply walked_mounted.
  unfold cClunk. cbn [sClunk table_Session]. rewrite (mount_delete ctx false w1 (k_pwd k) ent Hpwd1).
  change (remote_world w1) with ws. destruct (ent_Clunk ctx ent ws) as [r ws'].
  assert (∀ c0 e0, mounted (k_fs k) c0 e0 → c_fid c0 ≠ c_fid (k_pwd k) →
            mounted (unmount w1 (k_pwd k) ws') c0 e0) as Hkeep.
  { intros c0 e0 H0 ?. apply mounted_unmount; [by apply walked_mounted|done]. }
  assert (c_fid (k_pwd k) ≠ nextfid (k_fs k) + 1) as Hfresh.
  { destruct Hpwd as (_ & sf & Hs & _). pose proof (proj2 Hok _ (mk_is_Some _ _ Hs)). lia. }
  exists (mkCommander (unmount w1 (k_pwd k) ws')
            (mkCEnt (nextfid (k_fs k) + 1) (default (c_qid rel) (last qids)) true) (k_root k)
            (render (walk_comps (base_comps isAbs comps) steps)) (k_out k)).
  split; [by destruct r|]. split_and!; [|done|done].
  split_and!; cbn; [done| | | |by apply Hkeep|].
  - apply walk_comps_valid; [by destruct isAbs|done].
  - apply fids_ok_unmount. by apply walked_ok.
  - apply mounted_unmount; [|done]. split; [done|]. eexists. split; [apply lookup_insert_eq|done].
  - destruct Hroot as (_ & sf & Hs & _). pose proof (proj2 Hok _ (mk_is_Some _ _ Hs)). lia.
Qed.

(** The client of a new ramfs. *)
Definition ram_start : @fsCommander (@table RamServe.ram0) :=
  mkCommander (snd (cWalk None mnt_ent [] mnt)) (mkCEnt 2 (mkQid QTDIR 0 1) true) mnt_ent "/" [].

Lemma ram_start_at : at_dir ram_start [] mnt_root mnt_root.
Proof.
  pose proof (mount_walk_run (FS := RamServe.ram0) None mnt mnt_ent mnt_root []
    mnt_fids_ok eq_refl mnt_mounted ltac:(constructor)) as H.
  change (spec_walk_ent (FS := RamServe.ram0) None mnt_root [] (remote_world mnt))
    with (Ok (E := error) (@nil Qid, mnt_root),
          snd (spec_walk_ent (FS := RamServe.ram0) None mnt_root [] (remote_world mnt))) in H.
  cbv beta iota in H. rewrite decide_True in H by done.
  split_and!; [done|by apply Forall_nil|..]; cbn [ram_start k_fs k_pwd k_root]; rewrite ?H; cbn [snd].
  - apply walked_ok, mnt_fids_ok.
  - split; [done|]. eexists. split; [apply lookup_insert_eq|done].
  - apply walked_mounted; [apply mnt_fids_ok|apply mnt_mounted].
  - done.
Qed.

Lemma cd_moves_witness :
  ∃ k', cmdcd None ["/"] ram_start = (Ok (), k') ∧ at_dir k' [] mnt_root mnt_root ∧
    remote_world (k_fs k')
    = snd (@ent_Clunk RamServe.ram0 None mnt_root
             (snd (spec_walk_ent (FS := RamServe.ram0) None mnt_root []
                     (remote_world (k_fs ram_start))))) ∧
    k_out k' = [].
Proof.
  apply (cd_moves (FS := RamServe.ram0) None ram_start "/" [] mnt_root mnt_root true [] []
           mnt_root _ ram_start_at);
    [reflexivity|reflexivity|cbn; lia|reflexivity|reflexivity|discriminate|exact I].
Defined.

(** rm of a path that is not valid removes the working directory: toWalk
    loses the error of ToWalk and goes on with no steps, so the walk is a
    clone of the working directory, which is then removed on the server. *)
Theorem rm_bad_path_removes_pwd `{FS : FileSys} ctx (k : @fsCommander table) p e comps ent eroot
    found ws :
  at_dir k comps ent eroot → nextfid (k_fs k) + 1 < NOFID → ToWalk p = (false, Err e) →
  spec_walk_ent ctx ent [] (remote_world (k_fs k)) = (Ok ([], found), ws) →
  returns (fst (ent_Remove ctx found ws)) →
  remote_world (k_fs (snd (cmdrm ctx [p] k))) = snd (ent_Remove ctx found ws) ∧
  (fst (ent_Remove ctx found ws) = Ok () → fst (cmdrm ctx [p] k) = Ok ()).
Proof.
  intros Hat Hn Ht Hw Hr. pose proof Hat as (Hp & Hc & Hok & Hpwd & Hroot & Hne).
  assert (valid_names []) as Hv by constructor.
  unfold cmdrm. cbn [rm_all]. krun. unfold rm_one. krun.
  rewrite (toWalk_run k comps ent eroot p false (Err e) Hat Ht Hv) by (cbn; lia).
  cbv beta iota. krun. unfold fs.
  pose proof (mount_walk_run ctx (k_fs k) (k_pwd k) ent [] Hok Hn Hpwd Hv) as Hrun.
  rewrite Hw, decide_True in Hrun by done. rewrite Hrun. cbv beta iota. krun.
  set (w1 := walked (k_fs k) ws (Some found)). cbn [k_fs with_fs].
  set (c1 := mkCEnt (nextfid (k_fs k) + 1) _ true).
  assert (mounted w1 c1 found) as Hm1.
  { split; [done|]. eexists. split; [apply lookup_insert_eq|done]. }
  unfold cRemove. cbn [sRemove table_Session].
  rewrite (mount_delete ctx true w1 c1 found Hm1). change (remote_world w1) with ws.
  destruct (ent_Remove ctx found ws) as [r ws']. cbn [fst snd] in Hr |- *.
  by destruct r.
Qed.

Lemma rm_bad_path_removes_pwd_witness :
  ToWalk ("a" +:+ String backslash "b") = (false, Err (E9p ("invalid path: a" +:+ String backslash "b"))) ∧
  remote_world (k_fs (snd (cmdrm None ["a" +:+ String backslash "b"] ram_start)))
  = snd (@ent_Remove RamServe.ram0 None mnt_root
           (snd (spec_walk_ent (FS := RamServe.ram0) None mnt_root []
                   (remote_world (k_fs ram_start))))).
Proof.
  split; [reflexivity|].
  refine (proj1 (rm_bad_path_removes_pwd (FS := RamServe.ram0) None ram_start
           ("a" +:+ String backslash "b") (E9p ("invalid path: a" +:+ String backslash "b"))
           [] mnt_root mnt_root mnt_root _ ram_start_at _ _ _ _));
    [reflexivity|reflexivity|reflexivity|exact I].
Defined.

(** A line of blanks crashes the client: it has no first field. *)
Lemma blank_line_crashes `{FS : FileSys} fuel ctx (k : @fsCommander table) :
  run_line fuel ctx " " k = (Panic "index out of range", k).
Proof. reflexivity. Qed.

(** And so does write without arguments. *)
Lemma write_without_args_crashes `{FS : FileSys} fuel ctx (k : @fsCommander table) :
  cmdwrite fuel ctx [] k = (Panic "index out of range", k).
Proof. reflexivity. Qed.

(** A mkdir that fails crashes the client: the error test is the wrong
    way round, and the entry that is clunked is the one Create returns with
    an error, whose pointer is nil. *)
Theorem mkdir_error_crashes `{FS : FileSys} ctx args (k k1 : @fsCommander table) next p e w2 :
  create_dir ctx args k = (Ok (Some (next, p)), k1) →
  cCreate ctx next p (Z.lor DMDIR 420) OREAD (k_fs k1) = (Err e, w2) →
  fst (cmdmkdir ctx args k) = Panic "nil pointer dereference".
Proof.
  intros Hd Hc. unfold cmdmkdir. krun. rewrite Hd. cbv beta iota. krun. unfold fs. by rewrite Hc.
Qed.

(** A client of sleepfs, which lets nothing be created. *)
Definition sleep_start : @fsCommander (@table SleepFS.sServer) :=
  match start None (mkTable (FS := SleepFS.sServer) ∅ ∅) with
  | Ok k => k
  | _ => mkCommander (CFileSys (mkTable (FS := SleepFS.sServer) ∅ ∅)) noEnt noEnt "/" []
  end.

Lemma mkdir_error_crashes_witness :
  fst (cmdmkdir None ["new"] sleep_start) = Panic "nil pointer dereference".
Proof.
  eapply (mkdir_error_crashes (FS := SleepFS.sServer) None ["new"] sleep_start _ _ "new" (E9p (Error_ ErrNocreate)) _);
    [reflexivity|reflexivity].
Defined.
End Commands.
