(* ===== verification/Network.v ===== *)
(** * Network: a client and a server at the two ends of a connection

    The client's transport (transport.go) and the server's loop
    (serveconn.go) run together, joined by the bytes they exchange.  Each
    side takes the steps it takes alone; the connection carries what one
    side has written to the other, in order and in pieces of any size.  A
    read returns when a whole frame has come, when the connection has ended,
    or when its deadline passes; in the last case what has come of a frame is
    lost, and the step has a label of its own ([ClientLate], [ServerLate]).
    Callers come and give up at any time, contexts end, writes of either side
    begin to fail (a write deadline passed, say) and the connection may
    break.  A write that fails here has written nothing: a frame cut short
    would be the last thing written, since the buffered writer keeps its
    error, and its reader would find it as it finds a frame that has not come
    whole when the connection ends.

    The theorems are about the whole: a call gets the answer to its own
    request, and the panic for unknown tags cannot happen between the two.
    What they take for granted is [sound_label]: requests and responses fit
    the protocol, and no read times out inside a frame.  Late shows what one
    that does can do; System proves the first for a typed file server. *)
From S2P Require Import Prelude Types Encoding EncodingFacts Codec Channel Transport ServeConn.

Module Network.

(** ** Frames on a stream *)

(** The frames of the messages [fs]. *)
Definition stream (fs : list Fcall) : bytes :=
  concat ((λ f, sendmsg (wire_fcall f)) <$> fs).

Lemma stream_snoc fs f : stream (fs ++ [f]) = stream fs ++ sendmsg (wire_fcall f).
Proof. unfold stream. rewrite fmap_app, concat_app. cbn. by rewrite app_nil_r. Qed.

(** A whole frame has come. *)
Definition whole_frame (rd : bytes) : bool :=
  bool_decide (4 ≤ len rd) && bool_decide (le_get (take 4 rd) ≤ len rd).

Section Network.
Context (codec : Codec) `{!CodecLaws codec} (msize : Z) (Hmsize : 23 ≤ msize < 2 ^ 32).

(** A message that goes over the connection as it is. *)
Definition fits (f : Fcall) : Prop := wf_Fcall f ∧ truncated msize f = Ok f.

(** A channel of the connection: its msize is the agreed one, and it takes a
    frame whole or not at all. *)
Definition agreed (ch : channel) : Prop :=
  ch_closed ch = false ∧ ch_msize ch = msize ∧ len (ch_rdbuf ch) = msize ∧
  match ch_limit ch with Some (n, _) => n = 0%nat | None => True end.

Lemma fits_frame f : fits f → frame_size f ≤ msize.
Proof. intros [_ H]. by eapply truncated_fits; [|exact H]; lia. Qed.

Lemma truncated_fits_to f f' : wf_Fcall f → truncated msize f = Ok f' → fits f'.
Proof.
  intros Hw Ht. split; [by eapply truncated_wf; [|exact Hw|exact Ht]; lia|].
  by eapply truncated_idemp; [|exact Ht]; lia.
Qed.

Lemma truncated_tag f f' : truncated msize (carry f) = Ok f' → Fcall_Tag f' = Fcall_Tag f.
Proof.
  unfold truncated, carry. destruct f as [typ tag [[]|]]; cbn -[frame_size carry_Dir];
    repeat case_decide; by intros [= <-].
Qed.

Lemma truncated_flush f f' old :
  truncated msize (carry f) = Ok f' → Fcall_Message f' = Some (MessageTflush old) →
  Fcall_Message f = Some (MessageTflush old).
Proof.
  unfold truncated, carry. destruct f as [typ tag [[]|]]; cbn -[frame_size carry_Dir];
    repeat case_decide; intros [= <-]; done.
Qed.

(** The first four bytes of a stream tell the length of the first frame. *)
Lemma sendmsg_len f : fits f → len (sendmsg (wire_fcall f)) = frame_size f.
Proof. intros _. unfold sendmsg, frame_size. rewrite len_app, len_le_put. lia. Qed.

Lemma sendmsg_size f x : fits f → le_get (take 4 (sendmsg (wire_fcall f) ++ x)) = frame_size f.
Proof.
  intros Hf. pose proof (fits_frame f Hf) as Hs. unfold sendmsg, frame_size in *.
  rewrite <-app_assoc, take_len_app by (by rewrite length_le_put).
  pose proof (len_nonneg (wire_fcall f)). rewrite u32_small by lia.
  rewrite le_get_put_id by (simpl; lia). lia.
Qed.

(** What has come of a stream is a whole number of frames and a part of the
    next: either the first frame is there, or there is less than that. *)
Lemma stream_split rd x fs :
  rd ++ x = stream fs → Forall fits fs →
  if whole_frame rd then
    ∃ f fs' rest, fs = f :: fs' ∧ rd = sendmsg (wire_fcall f) ++ rest ∧ rest ++ x = stream fs'
  else rd = [] ∨ len rd < 4 ∨
       ∃ f, fits f ∧ 4 ≤ len rd < frame_size f ∧ le_get (take 4 rd) = frame_size f.
Proof.
  intros E Hfs. unfold whole_frame.
  destruct (decide (4 ≤ len rd)) as [H4|H4]; [rewrite (bool_decide_eq_true_2 (4 ≤ _)) by done
    |rewrite (bool_decide_eq_false_2 (4 ≤ _)) by done; right; left; lia].
  destruct fs as [|f fs].
  { apply app_nil in E as [-> _]. by cbv in H4. }
  apply Forall_cons in Hfs as [Hf Hfs]. unfold stream in E. cbn [fmap list_fmap concat] in E.
  assert (le_get (take 4 rd) = frame_size f) as Hsz.
  { rewrite <-(sendmsg_size f (stream fs)) by done. unfold stream. rewrite <-E.
    rewrite take_app_le; [done|]. unfold len in H4. lia. }
  rewrite Hsz. cbn [andb]. case_bool_decide as Hd.
  - exists f, fs, (drop (length (sendmsg (wire_fcall f))) rd).
    pose proof (sendmsg_len f Hf) as Hl. unfold len in *.
    assert (rd = sendmsg (wire_fcall f) ++ drop (length (sendmsg (wire_fcall f))) rd) as Erd.
    { rewrite <-(take_drop (length (sendmsg (wire_fcall f))) rd) at 1. f_equal.
      rewrite <-(take_app_le rd x) by lia. rewrite E. by rewrite take_len_app. }
    split_and!; [done|done|]. rewrite Erd, <-app_assoc in E. by apply app_inv_head in E.
  - right. right. exists f. split_and!; [done|lia|lia|done].
Qed.

(** ** Reading and writing at an agreed msize *)

Lemma agreed_read ch rd buf :
  agreed ch → length buf = length (ch_rdbuf ch) → agreed (set_read ch rd buf).
Proof. intros (Hc & Hm & Hb & Hlim) Hl. split_and!; [done|done| |done]. unfold len in *. cbn. by rewrite Hl. Qed.

Lemma read_whole ch x fs :
  agreed ch → ch_in ch ++ x = stream fs → Forall fits fs → whole_frame (ch_in ch) = true →
  ∃ f fs' ch', fs = f :: fs' ∧ ReadFcall codec None ch = (Ok f, ch') ∧ agreed ch' ∧
    ch_in ch' ++ x = stream fs' ∧ ch_out ch' = ch_out ch.
Proof.
  intros (Hc & Hm & Hb & Hlim) E Hfs Hw. pose proof (stream_split _ _ _ E Hfs) as Hs.
  rewrite Hw in Hs. destruct Hs as (f & fs' & rest & -> & Hrd & Hrest).
  apply Forall_cons in Hfs as [Hf _]. pose proof (fits_frame f Hf) as Hfr.
  destruct (ReadFcall_frame codec ch f rest) as (buf & Hbuf & Hr); [done|apply Hf|lia|lia|].
  rewrite <-Hrd in Hr. assert (set_in ch (ch_in ch) = ch) as Hid by (by destruct ch).
  rewrite Hid in Hr. exists f, fs', (set_read ch rest buf).
  split_and!; [done| |by apply agreed_read|done|done].
  rewrite Hr. f_equal. rewrite maybeTruncate_truncated.
  - cbn [ch_msize set_read]. rewrite Hm. apply Hf.
  - done.
  - cbn [ch_msize set_read]. lia.
  - lia.
  - intros fid off cnt. by apply wf_Tread_count, Hf.
Qed.

(** What has come of a frame is read, and then there is no more. *)
Lemma readmsg_short rd x fs p :
  len p = msize → rd ++ x = stream fs → Forall fits fs → whole_frame rd = false →
  ∃ e p', readmsg rd p = (Err e, p', []) ∧ temporary e = false.
Proof.
  intros Hb E Hfs Hw. pose proof (stream_split _ _ _ E Hfs) as Hs. rewrite Hw in Hs. unfold readmsg.
  assert (∀ n, len rd < n → ∃ e, read_full n rd = Err e ∧ temporary e = false) as Hshort.
  { intros n Hn. unfold read_full. rewrite decide_True by done. destruct rd; eauto. }
  destruct (decide (len rd < 4)) as [H4|H4].
  { destruct (Hshort 4 H4) as (e & -> & He). eauto. }
  destruct Hs as [Hnil|[?|(f & Hf & Hl & Hsz)]]; [by rewrite Hnil in H4; cbv in H4|lia|].
  pose proof (fits_frame f Hf) as Hfr. unfold read_full at 1. rewrite decide_False by done.
  change (Z.to_nat 4) with 4%nat. rewrite Hsz. cbv zeta.
  assert (len (drop 4 rd) = len rd - 4) as Hd.
  { unfold len in *. rewrite length_drop. lia. }
  rewrite decide_False, (decide_True (P := frame_size f - 4 < _)) by lia.
  unfold read_full. rewrite decide_True by lia.
  destruct (drop 4 rd) as [|b r]; eauto.
Qed.

(** When the connection ends inside a frame, the read fails for good. *)
Lemma read_short ch x fs :
  agreed ch → ch_in ch ++ x = stream fs → Forall fits fs → whole_frame (ch_in ch) = false →
  ∃ e ch', ReadFcall codec None ch = (Err e, ch') ∧ temporary e = false ∧ agreed ch' ∧
    ch_out ch' = ch_out ch.
Proof.
  intros Ha E Hfs Hw. pose proof Ha as (Hc & Hm & Hb & Hlim). unfold ReadFcall. rewrite Hc.
  destruct (readmsg_short _ _ _ _ Hb E Hfs Hw) as (e & p & Hr & He). rewrite Hr.
  eexists e, _. split_and!; [done|done| |done]. apply agreed_read; [done|by eapply readmsg_length].
Qed.

(** When its deadline passes there, what has come of the frame is lost. *)
Lemma read_late ch x fs :
  agreed ch → ch_in ch ++ x = stream fs → Forall fits fs → whole_frame (ch_in ch) = false →
  ∃ buf, length buf = length (ch_rdbuf ch) ∧
    ReadFcall_late codec (length (ch_in ch)) None ch = (Err errTimeout, set_read ch [] buf).
Proof.
  intros (Hc & Hm & Hb & Hlim) E Hfs Hw. unfold ReadFcall_late. rewrite Hc, firstn_all, drop_all.
  destruct (readmsg_short _ _ _ _ Hb E Hfs Hw) as (e & p & Hr & He). rewrite Hr.
  exists p. split; [by eapply readmsg_length|done].
Qed.

(** Under the laws of the codec a write returns, with a frame on the stream
    or with the stream as it was. *)
Lemma maybeTruncate_returns ch f : returns (maybeTruncate codec ch f).
Proof.
  unfold maybeTruncate, msgmsize. destruct f as [typ tag [[]|]]; cbn [Fcall_Message];
    rewrite ?codec_size; cbn [mbind result_bind]; repeat case_decide; exact I.
Qed.

Lemma write_cases ctx ch f :
  agreed ch →
  match WriteFcall codec ctx ch f with
  | (Ok _, ch') => agreed ch' ∧ (wf_Fcall (carry f) → frame_size f < 2 ^ 32 →
      ∃ f', truncated msize (carry f) = Ok f' ∧ ch' = set_out ch (ch_out ch ++ sendmsg (wire_fcall f')))
  | (Err _, ch') => ch' = ch
  | _ => False
  end.
Proof.
  intros Ha. pose proof Ha as (Hc & Hm & Hb & Hlim). unfold WriteFcall. destruct ctx; [done|]. rewrite Hc.
  pose proof (maybeTruncate_returns ch f) as Hret.
  destruct (maybeTruncate codec ch f) as [f'| | |] eqn:Et; cbn [mbind result_bind]; try done.
  rewrite codec_marshal. unfold write_frame. destruct (ch_limit ch) as [[n e]|] eqn:El.
  - subst n. rewrite decide_False by (unfold sendmsg; rewrite length_app, length_le_put; lia).
    unfold set_limit, set_out. cbn. rewrite app_nil_r, <-El. by destruct ch.
  - split; [unfold agreed; cbn; by rewrite El|].
    intros Hw Hs. exists (carry f'). rewrite wire_carry. split; [|done].
    rewrite truncated_carry, <-Hm, <-(maybeTruncate_truncated codec); [by rewrite Et|lia|done|].
    intros fid off cnt E. apply (wf_Tread_count (carry f) fid off cnt Hw). cbn. by rewrite E.
Qed.

(** ** The whole *)

(** What either side does, in the order in which it is done. *)
Inductive label :=
| Client (l : Transport.label)
| Server (l : ServeConn.label)
| ClientLate (lost : bytes)           (* a read timed out inside a frame *)
| ServerLate (lost : bytes).

Record network := mkNetwork {
  n_client : transport;
  n_server : conn;
  n_down : bool                       (* the connection has ended *)
}.

(** A reader waits in its read for the rest of a frame. *)
Definition client_waits (t : transport) (down : bool) : Prop :=
  Transport.reader t = Transport.Reading ∧ t_ctx t = None ∧
  whole_frame (ch_in (t_ch t)) = false ∧ down = false.

Definition server_waits (c : conn) (down : bool) : Prop :=
  c_reader c = ServeConn.Reading ∧ c_ctx c = None ∧
  whole_frame (ch_in (c_ch c)) = false ∧ down = false.

(** A reader that is about to read stays there with what has come (its read
    may time out before a byte comes), or reads when it need not wait. *)
Definition client_reads (t : transport) (down : bool) (t' : transport) : Prop :=
  Transport.reader t = Transport.Reading →
  (Transport.reader t' = Transport.Reading ∧ ch_in (t_ch t') = ch_in (t_ch t)) ∨
  (t' = Transport.reader_read codec t ∧ ¬ client_waits t down).

Definition server_reads (c : conn) (down : bool) (c' : conn) : Prop :=
  c_reader c = ServeConn.Reading →
  (c_reader c' = ServeConn.Reading ∧ ch_in (c_ch c') = ch_in (c_ch c)) ∨
  (c' = ServeConn.reader_read codec c ∧ ¬ server_waits c down).

(** The first [k] bytes written on one side arrive at the other. *)
Definition sent (k : nat) (ch : channel) : channel := set_out ch (drop k (ch_out ch)).
Definition arrived (bs : bytes) (ch : channel) : channel := set_in ch (ch_in ch ++ bs).

(** No more can be written. *)
Definition broken (e : error) (ch : channel) : channel :=
  mkChannel (ch_in ch) (ch_out ch) (Some (0%nat, e)) (ch_closed ch) (ch_msize ch) (ch_rdbuf ch).

Inductive step : network → list label → network → Prop :=
| step_client t c d ls t' :
    Transport.step codec t ls t' →
    client_reads t d t' →
    step (mkNetwork t c d) (Client <$> ls) (mkNetwork t' c d)
| step_server t c d ls c' :
    ServeConn.step codec c ls c' →
    server_reads c d c' →
    step (mkNetwork t c d) (Server <$> ls) (mkNetwork t c' d)
| step_client_late t c d :
    t_fault t = None → client_waits t d → ch_in (t_ch t) ≠ [] →
    step (mkNetwork t c d) [ClientLate (ch_in (t_ch t))]
      (mkNetwork (Transport.reader_late codec (length (ch_in (t_ch t))) t) c d)
| step_server_late t c d :
    c_fault c = None → server_waits c d → ch_in (c_ch c) ≠ [] →
    step (mkNetwork t c d) [ServerLate (ch_in (c_ch c))]
      (mkNetwork t (ServeConn.reader_late codec (length (ch_in (c_ch c))) c) d)
| step_up k t c d :
    step (mkNetwork t c d) []
      (mkNetwork (set_ch t (sent k (t_ch t)))
         (with_ch c (arrived (take k (ch_out (t_ch t))) (c_ch c))) d)
| step_down k t c d :
    step (mkNetwork t c d) []
      (mkNetwork (set_ch t (arrived (take k (ch_out (c_ch c))) (t_ch t)))
         (with_ch c (sent k (c_ch c))) d)
| step_up_fails e t c d :
    step (mkNetwork t c d) [] (mkNetwork (set_ch t (broken e (t_ch t))) c d)
| step_down_fails e t c d :
    step (mkNetwork t c d) [] (mkNetwork t (with_ch c (broken e (c_ch c))) d)
| step_break e t c d :
    step (mkNetwork t c d) []
      (mkNetwork (set_ch t (broken e (t_ch t))) (with_ch c (broken e (c_ch c))) true).

(** Both ends after the version was agreed on: nothing else was read or
    written. *)
Definition idle (ch : channel) : Prop := agreed ch ∧ ch_in ch = [] ∧ ch_out ch = [].

Definition connected (tctx cctx : option error) (ct cs : channel) : network :=
  mkNetwork (newTransport tctx ct) (newConn cctx cs) false.

Lemma idle_new : idle (newChannel [] msize).
Proof.
  split; [|done]. split_and!; [done|done| |done]. cbn. unfold zero_bytes, len.
  rewrite length_replicate. lia.
Qed.

Definition new_network (tctx cctx : option error) : network :=
  connected tctx cctx (newChannel [] msize) (newChannel [] msize).

Inductive reachable (tctx cctx : option error) : list label → network → Prop :=
| reach_connected ct cs :
    idle ct → idle cs → reachable tctx cctx [] (connected tctx cctx ct cs)
| reach_step tr n ls n' :
    reachable tctx cctx tr n → step n ls n' → reachable tctx cctx (tr ++ ls) n'.

(** What the theorems take for granted: the client's requests and the
    handler's responses fit the widths of the protocol (times apart, of which
    the wire keeps the seconds), the client sends no Tflush (its session
    never does), and no read times out inside a frame. *)
Definition sound_label (l : label) : Prop :=
  match l with
  | Client (Wrote _ f) =>
      wf_Fcall (carry f) ∧ frame_size f < 2 ^ 32 ∧ ∀ old, Fcall_Message f ≠ Some (MessageTflush old)
  | Server (Handled _ f) => wf_Fcall (carry f) ∧ frame_size f < 2 ^ 32
  | ClientLate _ | ServerLate _ => False
  | _ => True
  end.

(** ** Where a request is

    A tag that is outstanding at the client names one thing: a request on its
    way, a request the server works on, or a response on its way. *)

Definition clients (tr : list label) : list Transport.label :=
  omap (λ l, match l with Client l => Some l | _ => None end) tr.
Definition servers (tr : list label) : list ServeConn.label :=
  omap (λ l, match l with Server l => Some l | _ => None end) tr.

Definition client_tag (l : label) : option Z :=
  match l with Client l => Some (Transport.label_tag l) | _ => None end.

(** Call [id] was written and arrives as [g]; since then the client did
    nothing under its tag and the server did [evs]. *)
Definition history (tr : list label) (id : Z) (g : Fcall) (evs : list ServeConn.label) : Prop :=
  ∃ a w b, tr = a ++ Client (Wrote id w) :: b ∧ truncated msize (carry w) = Ok g ∧
    Forall (λ l, client_tag l ≠ Some (Fcall_Tag g)) b ∧ (∀ e, e ∈ evs → Server e ∈ b).

Record tokens (tr : list label) (out : gmap Z Z) (ups : list Fcall) (tg : gmap Z Z)
    (rs : gmap Z request) (mn : main_pc) (downs : list Fcall) : Prop := {
  tk_up f : f ∈ ups → fits f ∧ (∀ old, Fcall_Message f ≠ Some (MessageTflush old)) ∧
    ∃ id, out !! Fcall_Tag f = Some id ∧ history tr id f [];
  tk_req sid rq : rs !! sid = Some rq → rq_pc rq ≠ Gone →
    ∃ id, out !! Fcall_Tag (rq_fcall rq) = Some id ∧
      history tr id (rq_fcall rq)
        (Accept sid (rq_fcall rq) ::
         match rq_pc rq with Finished f => [Handled sid f] | _ => [] end);
  tk_main : match mn with
            | Sending _ => False
            | Replying sid _ f => ∃ g id, Fcall_Tag g = Fcall_Tag f ∧
                out !! Fcall_Tag f = Some id ∧ history tr id g [Accept sid g; Handled sid f]
            | _ => True
            end;
  tk_down f : f ∈ downs → fits f ∧
    ∃ id g sid resp, out !! Fcall_Tag f = Some id ∧ Fcall_Tag g = Fcall_Tag f ∧
      history tr id g [Accept sid g; Handled sid resp; Reply sid sid resp] ∧
      truncated msize (carry resp) = Ok f;
  tk_tags tag sid : tg !! tag = Some sid → is_Some (out !! tag);
  tk_once : NoDup (Fcall_Tag <$> ups ++ downs);
  tk_apart f : f ∈ ups ++ downs → tg !! Fcall_Tag f = None
}.

Lemma history_app tr ls id g evs evs' :
  history tr id g evs → Forall (λ l, client_tag l ≠ Some (Fcall_Tag g)) ls →
  (∀ e, e ∈ evs' → e ∈ evs ∨ Server e ∈ ls) → history (tr ++ ls) id g evs'.
Proof.
  intros (a & w & b & -> & Hw & Hb & He) Hls Hev. exists a, w, (b ++ ls).
  rewrite <-app_assoc. split_and!; [done|done|by apply Forall_app|].
  intros e [?%He|?]%Hev; apply elem_of_app; auto.
Qed.

(** What the server does alone keeps the histories. *)
Lemma history_server tr sl id g evs evs' :
  history tr id g evs → (∀ e, e ∈ evs' → e ∈ evs ∨ e ∈ sl) →
  history (tr ++ (Server <$> sl)) id g evs'.
Proof.
  intros H He. eapply history_app; [done| |].
  - apply Forall_fmap, Forall_true. by intros.
  - intros e [?|?]%He; [by left|]. right. by apply list_elem_of_fmap_2.
Qed.

(** Fewer messages on the way. *)
Lemma tokens_fewer tr out ups ups' tg rs mn downs downs' :
  tokens tr out ups tg rs mn downs → sublist ups' ups → sublist downs' downs →
  tokens tr out ups' tg rs mn downs'.
Proof.
  intros [H1 H2 H3 H4 H5 H6 H7] Hu Hd. split; try done.
  - intros f Hf. apply H1. by eapply elem_of_sublist.
  - intros f Hf. apply H4. by eapply elem_of_sublist.
  - eapply sublist_NoDup; [exact H6|]. apply fmap_sublist. by apply sublist_app.
  - intros f Hf. apply H7. eapply elem_of_sublist; [done|]. by apply sublist_app.
Qed.

(** The server moves on; its labels extend the histories. *)
Lemma tokens_server tr sl out ups tg tg' rs rs' mn mn' downs :
  tokens tr out ups tg rs mn downs →
  (∀ sid rq, rs' !! sid = Some rq → rq_pc rq ≠ Gone →
     ∃ id, out !! Fcall_Tag (rq_fcall rq) = Some id ∧
       history (tr ++ (Server <$> sl)) id (rq_fcall rq)
         (Accept sid (rq_fcall rq) ::
          match rq_pc rq with Finished f => [Handled sid f] | _ => [] end)) →
  match mn' with
  | Sending _ => False
  | Replying sid _ f => ∃ g id, Fcall_Tag g = Fcall_Tag f ∧ out !! Fcall_Tag f = Some id ∧
      history (tr ++ (Server <$> sl)) id g [Accept sid g; Handled sid f]
  | _ => True
  end →
  (∀ tag sid, tg' !! tag = Some sid → is_Some (tg !! tag)) →
  tokens (tr ++ (Server <$> sl)) out ups tg' rs' mn' downs.
Proof.
  intros [H1 H2 H3 H4 H5 H6 H7] Hr Hm Ht. split; try done.
  - intros f Hf. destruct (H1 f Hf) as (Hfit & Hnf & id & Ho & Hh). split_and!; [done|done|].
    exists id. split; [done|]. eapply history_server; eauto.
  - intros f Hf. destruct (H4 f Hf) as (Hfit & id & g & sid & resp & Ho & Hg & Hh & Hresp).
    split; [done|]. exists id, g, sid, resp. split_and!; try done. eapply history_server; eauto.
  - intros tag sid [x Hx]%Ht. by eapply H5.
  - intros f Hf. destruct (tg' !! Fcall_Tag f) as [x|] eqn:E; [|done].
    destruct (Ht _ _ E) as [y Hy]. by rewrite H7 in Hy.
Qed.

(** Requests whose goroutines stay or go. *)
Lemma tokens_advance tr sl out ups tg tg' rs rs' mn mn' downs :
  tokens tr out ups tg rs mn downs → advanced rs rs' →
  match mn' with Sending _ => False | Replying _ _ _ => mn' = mn | _ => True end →
  (∀ tag sid, tg' !! tag = Some sid → is_Some (tg !! tag)) →
  tokens (tr ++ (Server <$> sl)) out ups tg' rs' mn' downs.
Proof.
  intros Hk [Ha _] Hm Ht. apply (tokens_server _ _ _ _ tg _ rs _ mn); try done.
  - intros sid rq' Hr' Hpc. destruct (Ha _ _ Hr') as (rq & Hr & Ef & [Ep|Ep]); [|done].
    rewrite Ef, Ep in *. destruct (tk_req _ _ _ _ _ _ _ Hk _ _ Hr Hpc) as (id & Ho & Hh).
    exists id. split; [done|]. eapply history_server; eauto.
  - pose proof (tk_main _ _ _ _ _ _ _ Hk) as Hmn. destruct mn'; try done. rewrite <-Hm in Hmn.
    destruct Hmn as (g & id' & Hg & Ho & Hh). exists g, id'. split_and!; try done.
    eapply history_server; eauto.
Qed.

(** A request is read and accepted. *)
Lemma tokens_accept tr out f ups tg rs mn downs sid :
  tokens tr out (f :: ups) tg rs mn downs → mn = Selecting →
  tokens (tr ++ (Server <$> [Accept sid f])) out ups (<[Fcall_Tag f := sid]> tg)
    (<[sid := mkRequest f false Handling]> rs) mn downs.
Proof.
  intros Hk ->. pose proof (tk_once _ _ _ _ _ _ _ Hk) as Hnd. cbn in Hnd.
  apply NoDup_cons in Hnd as [Hnew Hnd].
  destruct (tk_up _ _ _ _ _ _ _ Hk f ltac:(by left)) as (_ & _ & id & Ho & Hh).
  assert (tokens (tr ++ (Server <$> [Accept sid f])) out ups tg
            (<[sid := mkRequest f false Handling]> rs) Selecting downs) as [H1 H2 H3 H4 H5 H6 H7].
  { apply (tokens_server _ _ _ _ tg _ rs _ Selecting); try done.
    - eapply tokens_fewer; [done|by apply sublist_cons|done].
    - intros sid' rq [[<- <-]|[Hne Hr]]%lookup_insert_Some Hpc.
      + exists id. split; [done|]. eapply history_server; [done|]. cbn.
        intros e ->%list_elem_of_singleton. right. by left.
      + destruct (tk_req _ _ _ _ _ _ _ Hk _ _ Hr Hpc) as (id' & Ho' & Hh').
        exists id'. split; [done|]. eapply history_server; eauto. }
  split; try done.
  - intros tag sid' [[<- _]|[_ Ht]]%lookup_insert_Some; [done|by eapply H5].
  - intros f' Hf'. rewrite lookup_insert_ne; [by apply H7|].
    intros E. apply Hnew. rewrite E. by apply list_elem_of_fmap_2.
Qed.

(** The handler of a request returns. *)
Lemma tokens_handled tr out ups tg rs mn downs sid rq f :
  tokens tr out ups tg rs mn downs → rs !! sid = Some rq → rq_pc rq = Handling →
  tokens (tr ++ (Server <$> [Handled sid f])) out ups tg (set_pc sid (Finished f) rs) mn downs.
Proof.
  intros Hk Hr Hpc. apply (tokens_server _ _ _ _ tg _ rs _ mn); try done.
  - intros sid' rq' [y [Hy [->|[<- ->]]]]%alter_lookup_inv Hg.
    + destruct (tk_req _ _ _ _ _ _ _ Hk _ _ Hy Hg) as (id' & Ho' & Hh').
      exists id'. split; [done|]. eapply history_server; eauto.
    + assert (y = rq) as -> by congruence. cbn [rq_fcall rq_pc].
      destruct (tk_req _ _ _ _ _ _ _ Hk _ _ Hr ltac:(congruence)) as (id & Ho & Hh).
      rewrite Hpc in Hh. exists id. split; [done|]. eapply history_server; [done|]. set_solver.
  - pose proof (tk_main _ _ _ _ _ _ _ Hk) as Hmn. destruct mn; try done.
    destruct Hmn as (g & id' & Hg & Ho & Hh). exists g, id'. split_and!; try done.
    eapply history_server; eauto.
Qed.

(** The loop receives its response. *)
Lemma tokens_completed tr out ups tg rs downs sid rq f a :
  tokens tr out ups tg rs Selecting downs → rs !! sid = Some rq → rq_pc rq = Finished f →
  Fcall_Tag f = Fcall_Tag (rq_fcall rq) →
  tokens tr out ups tg (set_pc sid Gone rs) (Replying sid a f) downs.
Proof.
  intros Hk Hr Hpc Htag. rewrite <-(app_nil_r tr). change [] with (Server <$> []).
  apply (tokens_server _ _ _ _ tg _ (set_pc sid Gone rs) _ Selecting); try done.
  - rewrite <-(app_nil_r tr). change [] with (Server <$> []).
    by apply (tokens_advance _ _ _ _ tg _ rs _ Selecting); [|apply advanced_gone| |].
  - intros sid' rq' [y [Hy [->|[<- ->]]]]%alter_lookup_inv Hg; [|done].
    destruct (tk_req _ _ _ _ _ _ _ Hk _ _ Hy Hg) as (id' & Ho' & Hh').
    exists id'. split; [done|]. eapply history_server; eauto.
  - destruct (tk_req _ _ _ _ _ _ _ Hk _ _ Hr ltac:(congruence)) as (id & Ho & Hh).
    rewrite Hpc in Hh. exists (rq_fcall rq), id. rewrite Htag. split_and!; [done|done|].
    eapply history_server; eauto.
Qed.

(** The response leaves the loop, written or not. *)
Lemma tokens_answered tr l out ups tg rs mn downs tag :
  tokens tr out ups tg rs mn downs →
  tokens (tr ++ (Server <$> [l])) out ups (delete tag tg) rs Selecting downs.
Proof.
  intros Hk. apply (tokens_advance _ _ _ _ tg _ rs _ mn); try done; [apply advanced_refl|].
  by intros tag' sid [_ ?%mk_is_Some]%lookup_delete_Some.
Qed.

Lemma tokens_reply tr out ups tg rs downs sid f f' :
  tokens tr out ups tg rs (Replying sid sid f) downs → tg !! Fcall_Tag f = Some sid →
  wf_Fcall (carry f) → truncated msize (carry f) = Ok f' →
  tokens (tr ++ (Server <$> [Reply sid sid f])) out ups (delete (Fcall_Tag f) tg) rs
    Selecting (downs ++ [f']).
Proof.
  intros Hk Htg Hw Ht. pose proof (truncated_tag _ _ Ht) as Etag.
  pose proof (tokens_answered _ (Reply sid sid f) _ _ _ _ _ _ (Fcall_Tag f) Hk)
    as [H1 H2 H3 H4 H5 H6 H7].
  split; try done.
  - intros f0 [Hf0| ->%list_elem_of_singleton]%elem_of_app; [by apply H4|].
    split; [by eapply truncated_fits_to|].
    destruct (tk_main _ _ _ _ _ _ _ Hk) as (g & id & Hg & Ho & Hh).
    exists id, g, sid, f. rewrite Etag. split_and!; try done.
    eapply history_server; [exact Hh|]. set_solver.
  - rewrite app_assoc, fmap_app. apply NoDup_app. split_and!; [done| |apply NoDup_singleton].
    intros tag (x & Ex & Hx)%list_elem_of_fmap Ef%list_elem_of_singleton.
    apply (tk_apart _ _ _ _ _ _ _ Hk) in Hx. congruence.
  - intros f0. rewrite app_assoc, elem_of_app. intros [Hf0|Hf0%list_elem_of_singleton]; [by apply H7|].
    subst f0. rewrite Etag. apply lookup_delete_eq.
Qed.

(** The client does something under a tag that names nothing else. *)
Lemma tokens_client tr l out out' ups tg rs mn downs tag :
  tokens tr out ups tg rs mn downs → Transport.label_tag l = tag →
  (∀ tag', tag' ≠ tag → out' !! tag' = out !! tag') →
  (∀ f, f ∈ ups ++ downs → Fcall_Tag f ≠ tag) → tg !! tag = None →
  (∀ sid rq, rs !! sid = Some rq → rq_pc rq ≠ Gone → Fcall_Tag (rq_fcall rq) ≠ tag) →
  (∀ sid a f, mn = Replying sid a f → Fcall_Tag f ≠ tag) →
  tokens (tr ++ [Client l]) out' ups tg rs mn downs.
Proof.
  intros [H1 H2 H3 H4 H5 H6 H7] <- Ho Hf Ht Hr Hm.
  assert (∀ id g evs, Fcall_Tag g ≠ Transport.label_tag l → history tr id g evs →
            history (tr ++ [Client l]) id g evs) as Hmono.
  { intros id g evs Hne Hh. eapply history_app; [exact Hh| |auto].
    apply Forall_singleton. cbn. congruence. }
  split; try done.
  - intros f Hin. destruct (H1 f Hin) as (Hfit & Hnf & id & Ho' & Hh).
    assert (Fcall_Tag f ≠ Transport.label_tag l) by (apply Hf, elem_of_app; by left).
    split_and!; [done|done|]. exists id. rewrite Ho by done. auto.
  - intros sid rq Hrq Hpc. destruct (H2 _ _ Hrq Hpc) as (id & Ho' & Hh).
    specialize (Hr _ _ Hrq Hpc). exists id. rewrite Ho by done. auto.
  - destruct mn as [| |sid a f|]; try done. destruct H3 as (g & id & Hg & Ho' & Hh).
    specialize (Hm _ _ _ eq_refl). exists g, id. rewrite Ho by done.
    split_and!; try done. apply Hmono; congruence.
  - intros f Hin. destruct (H4 f Hin) as (Hfit & id & g & sid & resp & Ho' & Hg & Hh & Hresp).
    assert (Fcall_Tag f ≠ Transport.label_tag l) by (apply Hf, elem_of_app; by right).
    split; [done|]. exists id, g, sid, resp. rewrite Ho by done. split_and!; try done.
    apply Hmono; congruence.
  - intros tag sid Htg. rewrite Ho by congruence. by eapply H5.
Qed.

(** A request goes out under a free tag. *)
Lemma tokens_wrote tr out ups tg rs mn downs id w g :
  tokens tr out ups tg rs mn downs → out !! Fcall_Tag w = None →
  sound_label (Client (Wrote id w)) → truncated msize (carry w) = Ok g →
  tokens (tr ++ [Client (Wrote id w)]) (<[Fcall_Tag w := id]> out) (ups ++ [g]) tg rs mn downs.
Proof.
  intros Hk Hfree (Hw & Hs & Hnf) Ht. pose proof (truncated_tag _ _ Ht) as Etag.
  assert (∀ f, f ∈ ups ++ downs → Fcall_Tag f ≠ Fcall_Tag w) as Hne.
  { intros f [Hf|Hf]%elem_of_app E.
    - destruct (tk_up _ _ _ _ _ _ _ Hk f Hf) as (_ & _ & id' & Ho & _). congruence.
    - destruct (tk_down _ _ _ _ _ _ _ Hk f Hf) as (_ & id' & _ & _ & _ & Ho & _). congruence. }
  assert (tg !! Fcall_Tag w = None) as Htg.
  { destruct (tg !! Fcall_Tag w) as [sid|] eqn:E; [|done].
    destruct (tk_tags _ _ _ _ _ _ _ Hk _ _ E) as [? ?]. congruence. }
  assert (tokens (tr ++ [Client (Wrote id w)]) (<[Fcall_Tag w := id]> out) ups tg rs mn downs)
    as [H1 H2 H3 H4 H5 H6 H7].
  { apply (tokens_client _ _ out _ _ _ _ _ _ (Fcall_Tag w)); [exact Hk|reflexivity| |exact Hne|exact Htg| |].
    - intros tag' ?. by rewrite lookup_insert_ne.
    - intros sid rq Hr Hpc E. destruct (tk_req _ _ _ _ _ _ _ Hk _ _ Hr Hpc) as (id' & Ho & _).
      congruence.
    - intros sid a f -> E. destruct (tk_main _ _ _ _ _ _ _ Hk) as (g' & id' & _ & Ho & _).
      congruence. }
  assert (∀ f, f ∈ (ups ++ [g]) ++ downs → f = g ∨ f ∈ ups ++ downs) as Hin.
  { intros f. rewrite !elem_of_app, list_elem_of_singleton. tauto. }
  split; try done.
  - intros f [Hf| ->%list_elem_of_singleton]%elem_of_app; [by apply H1|].
    split; [by eapply truncated_fits_to|]. split.
    { intros old E. by eapply Hnf, truncated_flush. }
    exists id. rewrite Etag, lookup_insert_eq. split; [done|].
    exists tr, w, []. split_and!; [done|done|constructor|by intros ? ?%elem_of_nil].
  - rewrite <-app_assoc, fmap_app. cbn [app fmap list_fmap].
    rewrite <-Permutation_middle. constructor; [|by rewrite <-fmap_app].
    rewrite <-fmap_app. intros (f & E & Hf)%list_elem_of_fmap. apply (Hne f); [done|congruence].
  - intros f [->|Hf]%Hin; [congruence|by apply H7].
Qed.

(** A response is delivered, which frees its tag. *)
Lemma tokens_delivered tr st out ups tg rs mn f downs id :
  tokens tr out ups tg rs mn (f :: downs) → ServeConn.inv st tg rs mn → flush_free st →
  tokens (tr ++ [Client (Delivered id f)]) (delete (Fcall_Tag f) out) ups tg rs mn downs.
Proof.
  intros Hk Hi Hff. pose proof (tk_apart _ _ _ _ _ _ _ Hk f) as Hf.
  rewrite elem_of_app, elem_of_cons in Hf. specialize (Hf ltac:(auto)).
  apply (tokens_client _ _ out _ _ _ _ _ _ (Fcall_Tag f)); [eapply tokens_fewer; [exact Hk|done|by apply sublist_cons]|reflexivity| |
    |exact Hf| |].
  - intros tag' ?. by rewrite lookup_delete_ne.
  - pose proof (tk_once _ _ _ _ _ _ _ Hk) as Hnd.
    rewrite <-Permutation_middle in Hnd. cbn in Hnd. apply NoDup_cons in Hnd as [Hn _].
    intros g Hg E. apply Hn. rewrite <-E. by apply list_elem_of_fmap_2.
  - intros sid rq Hr Hpc E. pose proof (inv_live _ _ _ _ Hi _ _ Hff Hr Hpc). congruence.
  - intros sid a g -> E. destruct (inv_replying _ _ _ _ Hi _ _ _ eq_refl) as (_ & _ & _ & _ & _ & Ht).
    congruence.
Qed.

(** ** The invariant of the whole *)

Definition offer_t (t : transport) : list Fcall :=
  match Transport.reader t with Transport.Offering f => [f] | _ => [] end.
Definition offer_c (c : conn) : list Fcall :=
  match c_reader c with ServeConn.Offering f => [f] | _ => [] end.

(** As long as a reader reads, what it has not read is a stream of whole
    messages. *)
Definition joined (tr : list label) (t : transport) (c : conn) : Prop :=
  ∃ up down,
    (c_reader c ≠ ServeConn.ReaderExit → ch_in (c_ch c) ++ ch_out (t_ch t) = stream up) ∧
    (Transport.reader t ≠ Transport.ReaderExit → ch_in (t_ch t) ++ ch_out (c_ch c) = stream down) ∧
    tokens tr (outstanding t) (offer_c c ++ up) (tags c) (c_reqs c) (c_main c) (offer_t t ++ down).

Record linked (tr : list label) (t : transport) (c : conn) : Prop := {
  lk_good : good (clients tr) t;
  lk_inv : ServeConn.inv (servers tr) (tags c) (c_reqs c) (c_main c);
  lk_flush : flush_free (servers tr);
  lk_fault : t_fault t = None ∧ c_fault c = None;
  lk_agreed : agreed (t_ch t) ∧ agreed (c_ch c);
  lk_joined : joined tr t c
}.

Lemma clients_app tr tr' : clients (tr ++ tr') = clients tr ++ clients tr'.
Proof. apply omap_app. Qed.
Lemma servers_app tr tr' : servers (tr ++ tr') = servers tr ++ servers tr'.
Proof. apply omap_app. Qed.
Lemma clients_client ls : clients (Client <$> ls) = ls.
Proof. induction ls as [|l ls IH]; [done|]. cbn. by f_equal. Qed.
Lemma servers_client ls : servers (Client <$> ls) = [].
Proof. by induction ls. Qed.
Lemma clients_server ls : clients (Server <$> ls) = [].
Proof. by induction ls. Qed.
Lemma servers_server ls : servers (Server <$> ls) = ls.
Proof. induction ls as [|l ls IH]; [done|]. cbn. by f_equal. Qed.
Lemma in_servers l tr : l ∈ servers tr ↔ Server l ∈ tr.
Proof.
  unfold servers. rewrite list_elem_of_omap. split.
  - intros ([] & Hin & [=]). by subst.
  - intros H. by exists (Server l).
Qed.

Lemma fits_ups tr out ups tg rs mn downs :
  tokens tr out ups tg rs mn downs → Forall fits ups ∧ Forall fits downs.
Proof.
  intros Hk. split; apply Forall_forall; intros f Hf;
    [by apply (tk_up _ _ _ _ _ _ _ Hk)|by apply (tk_down _ _ _ _ _ _ _ Hk)].
Qed.

(** *** The client's steps *)

Lemma good_fault tr t :
  good tr t → t_fault t ≠ Some BlockedErr ∧ t_fault t ≠ Some BlockedResponse ∧ t_fault t ≠ Some NilRequest.
Proof.
  intros (m & used & _ & H). split_and!; intros E; rewrite E in H; destruct H as [H|[w H]]; done.
Qed.

(** Sending on a request's channel faults in those ways only. *)
Lemma put_err_fault t id e :
  t_fault (put_err t id e) = t_fault t ∨ t_fault (put_err t id e) = Some BlockedErr ∨
  t_fault (put_err t id e) = Some NilRequest.
Proof. unfold put_err. repeat case_match; cbn; auto. Qed.
Lemma put_response_fault t id f :
  t_fault (put_response t id f) = t_fault t ∨ t_fault (put_response t id f) = Some BlockedResponse ∨
  t_fault (put_response t id f) = Some NilRequest.
Proof. unfold put_response. repeat case_match; cbn; auto. Qed.

(** What is not seen outside the client. *)
Record same_client (t t' : transport) : Prop := {
  sc_out : outstanding t' = outstanding t;
  sc_ch : t_ch t' = t_ch t;
  sc_reader : Transport.reader t' = Transport.reader t ∨ Transport.reader t' = Transport.ReaderExit
}.

Lemma put_err_same t id e : same_client t (put_err t id e).
Proof. unfold put_err. repeat case_match; split; cbn; auto. Qed.
Lemma put_response_same t id f : same_client t (put_response t id f).
Proof. unfold put_response. repeat case_match; split; cbn; auto. Qed.

Lemma joined_same_client tr t t' c : joined tr t c → same_client t t' → joined tr t' c.
Proof.
  intros (up & down & Hu & Hd & Hk) [Ho Hc Hr]. exists up, down. rewrite Ho, Hc.
  split_and!; [done| |].
  - intros Hne. destruct Hr as [Hr|Hr]; [rewrite Hr in Hne; auto|done].
  - eapply tokens_fewer; [exact Hk|done|]. unfold offer_t.
    destruct Hr as [-> | ->]; [done|]. case_match; [done|by apply sublist_cons|done].
Qed.

(** A reader that fails leaves or tries again. *)
Lemma client_read_err t e ch :
  ReadFcall codec (t_ctx t) (t_ch t) = (Err e, ch) →
  Transport.reader_read codec t = close (Transport.set_reader (set_ch t ch) Transport.ReaderExit) ∨
  (temporary e = true ∧ Transport.reader_read codec t = set_ch t ch).
Proof.
  intros E. unfold Transport.reader_read, Transport.reader_took. rewrite E. destruct e; auto.
  unfold ServeConn.temporary. case_match; auto.
Qed.

(** A read that times out changes the channel, or is a read in time. *)
Lemma client_late t k :
  Transport.reader_late codec k t = Transport.reader_read codec t ∨
  ∃ buf, length buf = length (ch_rdbuf (t_ch t)) ∧
    Transport.reader_late codec k t = set_ch t (set_read (t_ch t) (drop k (ch_in (t_ch t))) buf).
Proof.
  unfold Transport.reader_late, Transport.reader_read.
  destruct (ReadFcall_late_cases codec k (t_ctx t) (t_ch t)) as [->|(buf & Hb & ->)]; eauto.
Qed.

Lemma client_read tr t c :
  linked tr t c → Transport.reader t = Transport.Reading →
  joined tr (Transport.reader_read codec t) c ∧
  t_fault (Transport.reader_read codec t) = None ∧
  agreed (t_ch (Transport.reader_read codec t)).
Proof.
  intros Hl Hr. destruct (lk_fault _ _ _ Hl) as [Hf _]. destruct (lk_agreed _ _ _ Hl) as [Ha _].
  destruct (t_ctx t) as [e|] eqn:Ec.
  - destruct (client_read_err t e (t_ch t)) as [-> |[_ ->]]; [by rewrite Ec| |];
      (split_and!; [|done|done]); apply (joined_same_client _ t); try apply Hl; split; auto.
  - destruct (lk_joined _ _ _ Hl) as (up & down & Hu & Hd & Hk).
    unfold offer_t in Hk. rewrite Hr in Hd, Hk. specialize (Hd ltac:(done)). cbn in Hk.
    pose proof (proj2 (fits_ups _ _ _ _ _ _ _ Hk)) as Hfit.
    destruct (whole_frame (ch_in (t_ch t))) eqn:Ewf.
    + destruct (read_whole _ _ _ Ha Hd Hfit Ewf) as (f & down' & ch' & -> & Er & Ha' & Hin & Hout).
      unfold Transport.reader_read. rewrite Ec, Er. cbn [Transport.reader_took].
      split_and!; [|done|done]. exists up, down'. cbn. rewrite Hout. split_and!; done.
    + destruct (read_short _ _ _ Ha Hd Hfit Ewf) as (e & ch' & Er & He & Ha' & Hout).
      destruct (client_read_err t e ch') as [-> |[? _]]; [by rewrite Ec| |congruence].
      split_and!; [|done|done]. exists up, down. cbn. rewrite Hout. split_and!; done.
Qed.

(** A read that times out before a byte has come is harmless. *)
Lemma client_timeout tr t c d k :
  linked tr t c → Transport.reader t = Transport.Reading →
  client_reads t d (Transport.reader_late codec k t) →
  joined tr (Transport.reader_late codec k t) c ∧
  t_fault (Transport.reader_late codec k t) = None ∧
  agreed (t_ch (Transport.reader_late codec k t)).
Proof.
  intros Hl Hr Hg. destruct (lk_fault _ _ _ Hl) as [Hf _]. destruct (lk_agreed _ _ _ Hl) as [Ha _].
  destruct (Hg Hr) as [[_ Hin]|[E _]]; [|rewrite E; by apply client_read].
  destruct (client_late t k) as [E|(buf & Hb & E)]; rewrite E in *; [by apply client_read|].
  split_and!; [|done|by apply agreed_read].
  destruct (lk_joined _ _ _ Hl) as (up & down & Hu & Hd & Hk). exists up, down. cbn in *.
  rewrite Hin. done.
Qed.

Lemma client_request tr t c id req t' ls :
  linked tr t c → calls t !! id = Some Dispatching → reqs t !! id = Some req →
  handle_request codec (set_calls t (<[id := Waiting]> (calls t))) id req = (t', ls) →
  good (clients tr ++ ls) t' → Forall sound_label (Client <$> ls) →
  joined (tr ++ (Client <$> ls)) t' c ∧ t_fault t' = None ∧ agreed (t_ch t').
Proof.
  intros Hl Hc Hreq Hh Hg Hs. pose proof (good_fault _ _ Hg) as (F1 & _ & F2).
  destruct (lk_fault _ _ _ Hl) as [Hf _]. destruct (lk_agreed _ _ _ Hl) as [Ha _].
  set (t0 := set_calls t _) in Hh. unfold handle_request in Hh.
  destruct (allocateTag (outstanding t0) (selected t0)) as [tag [e|]] eqn:Et.
  { injection Hh as <- <-. destruct (put_err_same (set_selected t0 tag) id e) as [S1 S2 S3].
    destruct (put_err_fault (set_selected t0 tag) id e) as [E|[E|E]]; [|congruence..].
    cbn. rewrite app_nil_r, S2. split_and!; [|by rewrite E|done].
    apply (joined_same_client _ t); [apply Hl|]. by split. }
  apply allocateTag_fresh in Et as [_ Hfree].
  set (w := newFcall tag (req_message req)) in Hh.
  change (t_ch (set_outstanding (set_selected t0 tag) (<[tag:=id]> (outstanding (set_selected t0 tag)))))
    with (t_ch t) in Hh.
  pose proof (write_cases (req_ctx req) (t_ch t) w Ha) as Hwr.
  destruct (WriteFcall codec (req_ctx req) (t_ch t) w) as [[u|e|y|y] ch]; [| |done..].
  - injection Hh as <- <-. destruct Hwr as [Ha' Hwr]. cbn [fmap list_fmap] in *.
    apply Forall_cons in Hs as [(Hw & Hsz & Hnf) _]. destruct (Hwr Hw Hsz) as (g & Hg' & ->).
    destruct (lk_joined _ _ _ Hl) as (up & down & Hu & Hd & Hk).
    pose proof (tokens_wrote _ _ _ _ _ _ _ id w g Hk Hfree (conj Hw (conj Hsz Hnf)) Hg') as Hk'.
    split_and!; [|done|done]. exists (up ++ [g]), down. cbn [t_ch set_ch set_out ch_out]. split_and!; [|done|].
    + intros Hne. by rewrite app_assoc, (Hu Hne), stream_snoc.
    + by rewrite <-app_assoc in Hk'.
  - subst ch. injection Hh as <- <-.
    match goal with |- context[put_err ?x id e] => set (t1 := x) in * end.
    destruct (put_err_same t1 id e) as [S1 S2 S3].
    destruct (put_err_fault t1 id e) as [E|[E|E]]; [|congruence..].
    cbn. rewrite app_nil_r, S2. split_and!; [|by rewrite E|done].
    apply (joined_same_client _ t); [apply Hl|]. split; [rewrite S1|by rewrite S2|done].
    cbn. by rewrite delete_insert_id.
Qed.

(** The response the client's reader offers has a history. *)
Lemma offered_history tr t c f :
  linked tr t c → Transport.reader t = Transport.Offering f →
  ∃ id g sid resp, outstanding t !! Fcall_Tag f = Some id ∧ Fcall_Tag g = Fcall_Tag f ∧
    history tr id g [Accept sid g; Handled sid resp; Reply sid sid resp] ∧
    truncated msize (carry resp) = Ok f.
Proof.
  intros Hl Hr. destruct (lk_joined _ _ _ Hl) as (up & down & _ & _ & Hk).
  unfold offer_t in Hk. rewrite Hr in Hk.
  apply (tk_down _ _ _ _ _ _ _ Hk f). by left.
Qed.

Lemma client_response tr t c f t' ls :
  linked tr t c → Transport.reader t = Transport.Offering f →
  handle_response (Transport.set_reader t Transport.Reading) f = (t', ls) →
  good (clients tr ++ ls) t' →
  joined (tr ++ (Client <$> ls)) t' c ∧ t_fault t' = None ∧ agreed (t_ch t').
Proof.
  intros Hl Hr Hh Hg. pose proof (good_fault _ _ Hg) as (_ & F1 & F2).
  destruct (lk_fault _ _ _ Hl) as [Hf _]. destruct (lk_agreed _ _ _ Hl) as [Ha _].
  destruct (offered_history _ _ _ _ Hl Hr) as (id & _ & _ & _ & Ho & _).
  unfold handle_response in Hh. change (outstanding (Transport.set_reader t Transport.Reading))
    with (outstanding t) in Hh. rewrite Ho in Hh. injection Hh as <- <-.
  match goal with |- context[put_response ?x id f] => set (t1 := x) in * end.
  destruct (put_response_same t1 id f) as [S1 S2 S3].
  destruct (put_response_fault t1 id f) as [E|[E|E]]; [|congruence..].
  rewrite S2. split_and!; [|by rewrite E|done].
  apply (joined_same_client _ t1); [|by split].
  destruct (lk_joined _ _ _ Hl) as (up & down & Hu & Hd & Hk).
  exists up, down. split_and!; [done|intros _; apply Hd; by rewrite Hr|].
  unfold offer_t in *. rewrite Hr in Hk.
  exact (tokens_delivered _ _ _ _ _ _ _ _ _ id Hk (lk_inv _ _ _ Hl) (lk_flush _ _ _ Hl)).
Qed.

Lemma linked_client tr t c d ls t' :
  linked tr t c → Transport.step codec t ls t' → client_reads t d t' →
  Forall sound_label (Client <$> ls) → linked (tr ++ (Client <$> ls)) t' c.
Proof.
  intros Hl Hs Hrd Hsl. pose proof (good_step _ _ _ _ _ (lk_good _ _ _ Hl) Hs) as Hg.
  destruct (lk_fault _ _ _ Hl) as [Hf Hfc]. destruct (lk_agreed _ _ _ Hl) as [Ha Hac].
  assert (joined (tr ++ (Client <$> ls)) t' c ∧ t_fault t' = None ∧ agreed (t_ch t')) as (Hj & Hf' & Ha').
  { assert (same_client t t' → ls = [] → t_fault t' = None →
      joined (tr ++ (Client <$> ls)) t' c ∧ t_fault t' = None ∧ agreed (t_ch t')) as Hsame.
    { intros Hsc -> Hf'. cbn. rewrite app_nil_r. split_and!; [|done|by rewrite (sc_ch _ _ Hsc)].
      eapply joined_same_client; [apply Hl|done]. }
    destruct Hs; try (by apply Hsame; [split; auto| |]).
    - by eapply client_request.
    - by eapply client_response.
    - cbn. rewrite app_nil_r. by apply client_read.
    - cbn. rewrite app_nil_r. by eapply client_timeout. }
  split; rewrite ?clients_app, ?servers_app, ?clients_client, ?servers_client, ?app_nil_r; try done.
  - apply Hl.
  - apply Hl.
Qed.

(** *** The server's steps *)

(** What is not seen outside the server. *)
Lemma joined_server tr sl t c c' :
  joined tr t c → c_ch c' = c_ch c → tags c' = tags c →
  advanced (c_reqs c) (c_reqs c') →
  match c_main c' with Sending _ => False | Replying _ _ _ => c_main c' = c_main c | _ => True end →
  c_reader c' = c_reader c ∨ c_reader c' = ServeConn.ReaderExit →
  joined (tr ++ (Server <$> sl)) t c'.
Proof.
  intros (up & down & Hu & Hd & Hk) Hc Ht Ha Hm Hr. exists up, down. rewrite Hc, Ht.
  split_and!; [|done|].
  - intros Hne. destruct Hr as [Hr|Hr]; [rewrite Hr in Hne; auto|done].
  - apply (tokens_advance _ _ _ _ (tags c) _ (c_reqs c) _ (c_main c));
      [|exact Ha|exact Hm|by intros ? ? ?%mk_is_Some].
    eapply tokens_fewer; [exact Hk| |done]. unfold offer_c.
    destruct Hr as [-> | ->]; [done|]. destruct (c_reader c); [done|by apply sublist_cons|done].
Qed.

Lemma linked_main tr t c : linked tr t c → ∀ f, c_main c ≠ Sending f.
Proof.
  intros Hl f E. destruct (lk_joined _ _ _ Hl) as (up & down & _ & _ & Hk).
  pose proof (tk_main _ _ _ _ _ _ _ Hk) as Hm. by rewrite E in Hm.
Qed.

Lemma server_read tr t c :
  linked tr t c → c_reader c = ServeConn.Reading →
  joined tr t (ServeConn.reader_read codec c) ∧
  c_fault (ServeConn.reader_read codec c) = None ∧
  agreed (c_ch (ServeConn.reader_read codec c)).
Proof.
  intros Hl Hr. destruct (lk_fault _ _ _ Hl) as [_ Hf]. destruct (lk_agreed _ _ _ Hl) as [_ Ha].
  pose proof (linked_main _ _ _ Hl) as Hmn. unfold ServeConn.reader_read, ServeConn.reader_took.
  destruct (c_ctx c) as [e|] eqn:Ec.
  - cbn. rewrite <-(app_nil_r tr). change [] with (Server <$> []).
    destruct (temporary e); (split_and!; [|done|done]);
      (apply (joined_server _ _ _ c); [apply Hl|done|done|apply advanced_refl| |by auto]);
      cbn; destruct (c_main c) eqn:Em; try done; by destruct (Hmn f).
  - destruct (lk_joined _ _ _ Hl) as (up & down & Hu & Hd & Hk).
    unfold offer_c in Hk. rewrite Hr in Hu, Hk. specialize (Hu ltac:(done)). cbn in Hk.
    pose proof (proj1 (fits_ups _ _ _ _ _ _ _ Hk)) as Hfit.
    destruct (whole_frame (ch_in (c_ch c))) eqn:Ewf.
    + destruct (read_whole _ _ _ Ha Hu Hfit Ewf) as (f & up' & ch' & -> & Er & Ha' & Hin & Hout).
      rewrite Er. split_and!; [|done|done]. exists up', down. cbn. rewrite Hout. split_and!; done.
    + destruct (read_short _ _ _ Ha Hu Hfit Ewf) as (e & ch' & Er & He & Ha' & Hout).
      rewrite Er, He. split_and!; [|done|done]. exists up, down. cbn. rewrite Hout. split_and!; done.
Qed.

Lemma server_late c k :
  ServeConn.reader_late codec k c = ServeConn.reader_read codec c ∨
  ∃ buf, length buf = length (ch_rdbuf (c_ch c)) ∧
    ServeConn.reader_late codec k c = with_ch c (set_read (c_ch c) (drop k (ch_in (c_ch c))) buf).
Proof.
  unfold ServeConn.reader_late, ServeConn.reader_read.
  destruct (ReadFcall_late_cases codec k (c_ctx c) (c_ch c)) as [->|(buf & Hb & ->)]; eauto.
Qed.

Lemma server_timeout tr t c d k :
  linked tr t c → c_reader c = ServeConn.Reading →
  server_reads c d (ServeConn.reader_late codec k c) →
  joined tr t (ServeConn.reader_late codec k c) ∧
  c_fault (ServeConn.reader_late codec k c) = None ∧
  agreed (c_ch (ServeConn.reader_late codec k c)).
Proof.
  intros Hl Hr Hg. destruct (lk_fault _ _ _ Hl) as [_ Hf]. destruct (lk_agreed _ _ _ Hl) as [_ Ha].
  destruct (Hg Hr) as [[_ Hin]|[E _]]; [|rewrite E; by apply server_read].
  destruct (server_late c k) as [E|(buf & Hb & E)]; rewrite E in *; [by apply server_read|].
  split_and!; [|done|by apply agreed_read].
  destruct (lk_joined _ _ _ Hl) as (up & down & Hu & Hd & Hk). exists up, down. cbn in *.
  rewrite Hin. done.
Qed.

(** The request that the server's reader offers is new, so it is accepted. *)
Lemma server_request tr t c id req c' ls :
  linked tr t c → c_reader c = ServeConn.Offering req → c_main c = Selecting →
  main_request (with_reader c ServeConn.Reading) id req = (c', ls) →
  ls = [Accept id req] ∧ joined (tr ++ (Server <$> ls)) t c' ∧ c_fault c' = c_fault c ∧
  c_ch c' = c_ch c.
Proof.
  intros Hl Hr Hm Hq. destruct (lk_joined _ _ _ Hl) as (up & down & Hu & Hd & Hk).
  unfold offer_c in Hk. rewrite Hr in Hk.
  destruct (tk_up _ _ _ _ _ _ _ Hk req ltac:(by left)) as (_ & Hnf & _).
  assert (tags c !! Fcall_Tag req = None) as Htg by (apply (tk_apart _ _ _ _ _ _ _ Hk); by left).
  unfold main_request in Hq. cbn [tags with_reader] in Hq. rewrite Htg in Hq.
  assert ((c', ls) = (with_reqs (with_tags (with_reader c ServeConn.Reading)
            (<[Fcall_Tag req := id]> (tags c))) (<[id := mkRequest req false Handling]> (c_reqs c)),
          [Accept id req])) as [= -> ->].
  { rewrite <-Hq. destruct (Fcall_Message req) as [[]|]; try done. by destruct (Hnf Oldtag). }
  split_and!; [done| |done|done]. exists up, down. split_and!; [intros _; apply Hu; by rewrite Hr|done|].
  by apply tokens_accept.
Qed.

(** The writer takes the response of an active request. *)
Lemma server_reply tr t c id a f :
  linked tr t c → Forall sound_label tr → c_main c = Replying id a f →
  joined (tr ++ (Server <$> [Reply id a f])) t (main_answered (writer_write codec c f) f) ∧
  c_fault (writer_write codec c f) = None ∧ agreed (c_ch (writer_write codec c f)).
Proof.
  intros Hl Hs Hm. destruct (lk_fault _ _ _ Hl) as [_ Hf]. destruct (lk_agreed _ _ _ Hl) as [_ Ha].
  pose proof (lk_inv _ _ _ Hl) as Hi. rewrite Hm in Hi.
  assert (a = id) as -> by (eapply (inv_own _ _ _ _ Hi), or_introl; [apply Hl|done]).
  destruct (inv_replying _ _ _ _ Hi _ _ _ eq_refl) as (rq & _ & _ & Hh%in_servers & _ & Htg).
  rewrite Forall_forall in Hs. destruct (Hs _ Hh) as [Hw Hsz].
  destruct (lk_joined _ _ _ Hl) as (up & down & Hu & Hd & Hk). rewrite Hm in Hk.
  unfold writer_write. pose proof (write_cases (c_ctx c) (c_ch c) f Ha) as Hwr.
  destruct (WriteFcall codec (c_ctx c) (c_ch c) f) as [[u|e|y|y] ch]; [| |done..].
  - destruct Hwr as [Ha' Hwr]. destruct (Hwr Hw Hsz) as (f' & Hf' & ->).
    split_and!; [|done|done]. exists up, (down ++ [f']). cbn [main_answered with_main with_tags with_ch
      c_ch c_reader tags c_reqs c_main set_out ch_in ch_out]. split_and!; [done| |].
    + intros Hne. by rewrite app_assoc, (Hd Hne), stream_snoc.
    + rewrite app_assoc. by apply tokens_reply.
  - subst ch. pose proof (tokens_answered _ (Reply id id f) _ _ _ _ _ _ (Fcall_Tag f) Hk) as Hk'.
    destruct (temporary e); (split_and!; [|done|done]); exists up, down; split_and!; done.
Qed.

Lemma server_completed tr t c id rq f :
  linked tr t c → c_main c = Selecting → c_reqs c !! id = Some rq → rq_pc rq = Finished f →
  joined tr t (main_completed c id f) ∧ c_fault (main_completed c id f) = c_fault c ∧
  c_ch (main_completed c id f) = c_ch c.
Proof.
  intros Hl Hm Hr Hpc. pose proof (lk_inv _ _ _ Hl) as Hi.
  destruct (inv_finished _ _ _ _ Hi _ _ _ Hr Hpc) as [_ Htag].
  pose proof (inv_live _ _ _ _ Hi _ _ (lk_flush _ _ _ Hl) Hr ltac:(congruence)) as Htg.
  unfold main_completed. cbn [tags with_reqs]. rewrite Htag, Htg. split_and!; [|done|done].
  destruct (lk_joined _ _ _ Hl) as (up & down & Hu & Hd & Hk). rewrite Hm in Hk.
  exists up, down. split_and!; [done|done|]. by eapply tokens_completed.
Qed.

(** The server never finds a duplicate tag or a Tflush. *)
Lemma server_labels tr t c ls c' :
  linked tr t c → ServeConn.step codec c ls c' →
  (∀ id tag, Flushed id tag ∉ ls) ∧ (∀ f, Bypass f ∉ ls).
Proof.
  intros Hl Hs. pose proof (linked_main _ _ _ Hl) as Hmn.
  destruct Hs as [| | |c id req c' ls Hf Hr Hm Hid Hreq| | |c f Hf Hm Hw| | | | | | | | |];
    try (split; set_solver).
  - destruct (server_request _ _ _ _ _ _ _ Hl Hr Hm Hreq) as (-> & _). set_solver.
Qed.

Lemma joined_quiet tr sl t c c' :
  linked tr t c → c_ch c' = c_ch c → tags c' = tags c → advanced (c_reqs c) (c_reqs c') →
  c_main c' = c_main c ∨ (∃ e, c_main c' = MainReturned e) →
  c_reader c' = c_reader c ∨ c_reader c' = ServeConn.ReaderExit →
  joined (tr ++ (Server <$> sl)) t c'.
Proof.
  intros Hl Hc Ht Ha Hm Hr. apply (joined_server _ _ _ c); try done; [apply Hl|].
  destruct Hm as [-> |[e ->]]; [|done].
  destruct (c_main c) as [|f| |] eqn:E; try done. by destruct (linked_main _ _ _ Hl f).
Qed.

Lemma linked_server tr t c d ls c' :
  linked tr t c → ServeConn.step codec c ls c' → server_reads c d c' → Forall sound_label tr →
  linked (tr ++ (Server <$> ls)) t c'.
Proof.
  intros Hl Hs Hrd Hsl. pose proof (inv_step _ _ _ _ _ (lk_inv _ _ _ Hl) Hs) as Hi.
  destruct (server_labels _ _ _ _ _ Hl Hs) as [Hnf _].
  destruct (lk_fault _ _ _ Hl) as [Hft Hf]. destruct (lk_agreed _ _ _ Hl) as [Hat Ha].
  assert (joined (tr ++ (Server <$> ls)) t c' ∧ c_fault c' = None ∧ agreed (c_ch c')) as (Hj & Hf' & Ha').
  { assert (joined (tr ++ (Server <$> ls)) t c' → c_fault c' = None → c_ch c' = c_ch c →
      joined (tr ++ (Server <$> ls)) t c' ∧ c_fault c' = None ∧ agreed (c_ch c')) as Hsame.
    { intros Hj Hf' ->. done. }
    pose proof advanced_refl as Hrefl. pose proof advanced_gone as Hgone.
    destruct Hs as [c e _ Hc|c _ Hr|c k _ Hr|c id req c' ls _ Hr Hm Hid Hreq|c req e _ Hr Hc
      |c req e _ Hr Hc|c f _ Hm Hwr|c e _ Hm Hc|c e _ Hm Hc|c id rq r _ Hid Hpc
      |c id rq f _ Hid Hpc Hd|c id rq f _ Hm Hid Hpc|c id a f _ Hm Hwr|c id a f _ Hm Hd
      |c e _ Hwr Hc|c e _ Hwr Hc];
      try (by apply Hsame; [eapply joined_quiet; cbn; eauto| |]).
    - cbn. rewrite app_nil_r. by apply server_read.
    - cbn. rewrite app_nil_r. by eapply server_timeout.
    - destruct (server_request _ _ _ _ _ _ _ Hl Hr Hm Hreq) as (-> & Hj & Hf' & Hc').
      rewrite Hf', Hc'. done.
    - by destruct (linked_main _ _ _ Hl f).
    - apply Hsame; [|done..]. eapply joined_quiet; cbn; eauto. apply advanced_cancel_all.
    - apply Hsame; [|done..]. eapply joined_quiet; cbn; eauto. apply advanced_cancel_all.
    - split_and!; [|done|done]. destruct (lk_joined _ _ _ Hl) as (up & down & Hu & Hd & Hk).
      exists up, down. split_and!; [done|done|]. by eapply tokens_handled.
    - destruct (server_completed _ _ _ _ _ _ Hl Hm Hid Hpc) as (Hj & Hf' & Hc').
      cbn [fmap list_fmap]. rewrite app_nil_r, Hf', Hc'. done.
    - by apply server_reply.
    - split_and!; [|done|done]. destruct (lk_joined _ _ _ Hl) as (up & down & Hu & Hd' & Hk).
      exists up, down. split_and!; [done|done|]. by eapply tokens_answered. }
  split; rewrite ?clients_app, ?servers_app, ?clients_server, ?servers_server, ?app_nil_r; try done.
  - apply Hl.
  - intros id tag [Hin|Hin]%elem_of_app; [by apply (lk_flush _ _ _ Hl id tag)|by apply (Hnf id tag)].
Qed.

(** *** The connection's steps *)

Lemma agreed_sent k ch : agreed ch → agreed (sent k ch).
Proof. done. Qed.
Lemma agreed_broken e ch : agreed ch → agreed (broken e ch).
Proof. by intros (Hc & Hm & Hb & _). Qed.
Lemma agreed_arrived bs ch : agreed ch → agreed (arrived bs ch).
Proof. done. Qed.

(** A change of the channels that keeps the bytes in their order. *)
Lemma linked_carry tr t c tch cch :
  linked tr t c → agreed tch → agreed cch →
  ch_in cch ++ ch_out tch = ch_in (c_ch c) ++ ch_out (t_ch t) →
  ch_in tch ++ ch_out cch = ch_in (t_ch t) ++ ch_out (c_ch c) →
  linked tr (set_ch t tch) (with_ch c cch).
Proof.
  intros [H1 H2 H3 H4 H5 (up & down & Hu & Hd & Hk)] Ht Hc E1 E2.
  split; try done.
  - by apply (good_same _ t).
  - exists up, down. cbn [t_ch set_ch c_ch with_ch Transport.reader c_reader]. by rewrite E1, E2.
Qed.

Lemma net_linked_step tr n ls n' :
  linked tr (n_client n) (n_server n) → step n ls n' → Forall sound_label (tr ++ ls) →
  linked (tr ++ ls) (n_client n') (n_server n').
Proof.
  intros Hl Hs [Hs1 Hs2]%Forall_app. pose proof (lk_agreed _ _ _ Hl) as [Ht Hc].
  destruct Hs as [t c d ls t' Hs Hw|t c d ls c' Hs Hw|t c d Hf Hw Hin|t c d Hf Hw Hin
    |k t c d|k t c d|e t c d|e t c d|e t c d]; cbn [n_client n_server] in *; rewrite ?app_nil_r.
  - by eapply linked_client.
  - by eapply linked_server.
  - by apply Forall_inv in Hs2.
  - by apply Forall_inv in Hs2.
  - apply linked_carry; [done|done|done| |done]. cbn. by rewrite <-app_assoc, take_drop.
  - apply linked_carry; [done|done|done|done|]. cbn. by rewrite <-app_assoc, take_drop.
  - replace c with (with_ch c (c_ch c)) by (by destruct c). apply linked_carry; [done|by apply agreed_broken|done..].
  - replace t with (set_ch t (t_ch t)) by (by destruct t). apply linked_carry; [done|done|by apply agreed_broken|done..].
  - by apply linked_carry; [|apply agreed_broken|apply agreed_broken|..].
Qed.

Lemma net_reachable_linked tctx cctx tr n :
  reachable tctx cctx tr n → Forall sound_label tr → linked tr (n_client n) (n_server n).
Proof.
  induction 1 as [ct cs (Hct & Hti & Hto) (Hcs & Hsi & Hso)|tr n ls n' Hr IH Hs]; intros Hsl.
  - split; cbn.
    + apply (reachable_good codec tctx ct). constructor.
    + apply (reachable_inv codec cctx cs [] (newConn cctx cs)). constructor.
    + intros id tag Hin. by apply elem_of_nil in Hin.
    + done.
    + done.
    + exists [], []. cbn. rewrite Hti, Hto, Hsi, Hso. split_and!; [done|done|]. cbn.
      split; cbn; try done; try (by intros ? ?%elem_of_nil). apply NoDup_nil_2.
  - pose proof Hsl as Hall. apply Forall_app in Hall as [Hs1 _].
    eapply net_linked_step; eauto.
Qed.

(** ** Calls and their responses *)

(** A request on the wire is that of its call, a response in its channel was
    delivered to it, and what the call returns is that response. *)
Record answered (tl : list Transport.label) (t : transport) : Prop := {
  an_wrote id w : Wrote id w ∈ tl →
    ∃ req, reqs t !! id = Some req ∧ Fcall_Message w = Some (req_message req);
  an_response id req f : reqs t !! id = Some req → req_response req = Some f → Delivered id f ∈ tl;
  an_returned id m : calls t !! id = Some (Returned (Ok m)) →
    ∃ f, Delivered id f ∈ tl ∧ send_response f = Ok m;
  an_call id : is_Some (reqs t !! id) → is_Some (calls t !! id)
}.

(** The calls move on; a call that returns a message has its response. *)
Lemma answered_calls tl t id pc :
  answered tl t → (∀ m, pc = Returned (Ok m) → ∃ f, Delivered id f ∈ tl ∧ send_response f = Ok m) →
  answered tl (set_calls t (<[id := pc]> (calls t))).
Proof.
  intros [H1 H2 H3 H4] Hpc. split; try done; cbn.
  - intros id' m [[<- ->]|[_ Hc]]%lookup_insert_Some; auto.
  - intros id' Hr. destruct (decide (id = id')) as [->|]; [rewrite lookup_insert_eq; eauto|].
    rewrite lookup_insert_ne by done. auto.
Qed.

(** A request changes, but not its message. *)
Lemma answered_reqs tl ls t id req req' :
  answered tl t → reqs t !! id = Some req → req_message req' = req_message req →
  (∀ f, req_response req' = Some f → req_response req = Some f ∨ Delivered id f ∈ ls) →
  (∀ id' w, Wrote id' w ∉ ls) →
  answered (tl ++ ls) (set_reqs t (<[id := req']> (reqs t))).
Proof.
  intros [H1 H2 H3 H4] Hr Hm Hf Hw. split; cbn.
  - intros id' w [Hin|Hin]%elem_of_app; [|by destruct (Hw id' w)].
    destruct (H1 _ _ Hin) as (r & Hr' & E). destruct (decide (id = id')) as [->|].
    + exists req'. rewrite lookup_insert_eq. split; [done|]. congruence.
    + exists r. by rewrite lookup_insert_ne.
  - intros id' r f [[<- <-]|[_ Hr']]%lookup_insert_Some Hresp; apply elem_of_app.
    + destruct (Hf _ Hresp); eauto.
    + eauto.
  - intros id' m Hc. destruct (H3 _ _ Hc) as (f & ? & ?). exists f. split; [|done].
    apply elem_of_app. auto.
  - intros id' Hr'. apply H4. destruct (decide (id = id')) as [->|]; [eauto|].
    by rewrite lookup_insert_ne in Hr'.
Qed.

Lemma answered_same tl t t' :
  answered tl t → reqs t' = reqs t → calls t' = calls t → answered tl t'.
Proof. intros [H1 H2 H3 H4] Hr Hc. split; rewrite ?Hr, ?Hc; auto. Qed.

Lemma answered_put_err tl t id e : answered tl t → answered tl (put_err t id e).
Proof.
  intros Ha. unfold put_err. destruct (reqs t !! id) as [req|] eqn:Hr; [|by apply (answered_same _ t)].
  destruct (req_err req); [by apply (answered_same _ t)|].
  rewrite <-(app_nil_r tl). eapply answered_reqs; [done|exact Hr|done|by left|].
  by intros ? ? ?%elem_of_nil.
Qed.

Lemma answered_request tl t id req t' ls :
  answered tl t → calls t !! id = Some Dispatching → reqs t !! id = Some req →
  handle_request codec (set_calls t (<[id := Waiting]> (calls t))) id req = (t', ls) →
  answered (tl ++ ls) t'.
Proof.
  intros Ha Hc Hr Hh. assert (answered tl (set_calls t (<[id := Waiting]> (calls t)))) as Ha0.
  { by apply answered_calls. }
  revert Ha0 Hh. set (t0 := set_calls t _). intros Ha0. assert (reqs t0 !! id = Some req) as Hr0 by done.
  unfold handle_request. destruct (allocateTag _ _) as [tag [e|]].
  { intros [= <- <-]. rewrite app_nil_r. apply answered_put_err. by apply (answered_same _ t0). }
  destruct (WriteFcall _ _ _ _) as [[u|e|y|y] ch]; intros [= <- <-]; rewrite ?app_nil_r;
    try (by apply (answered_same _ t0)).
  - destruct Ha0 as [H1 H2 H3 H4]. split; cbn [reqs calls set_ch set_outstanding set_selected].
    + intros id' w [?|[= -> ->]]%in_snoc; [by apply H1|]. by exists req.
    + intros id' r f Hr' Hresp. apply in_snoc. left. by eapply H2.
    + intros id' m Hc'. destruct (H3 _ _ Hc') as (f & ? & ?). exists f. rewrite in_snoc. auto.
    + apply H4.
  - apply answered_put_err. by apply (answered_same _ t0).
Qed.

Lemma answered_response tl t f t' ls :
  answered tl t → handle_response (Transport.set_reader t Transport.Reading) f = (t', ls) →
  answered (tl ++ ls) t'.
Proof.
  intros Ha. unfold handle_response. cbn [outstanding Transport.set_reader].
  destruct (outstanding t !! Fcall_Tag f) as [id|]; intros [= <- <-]; rewrite ?app_nil_r;
    [|by apply (answered_same _ t)].
  unfold put_response. cbn [reqs set_outstanding Transport.set_reader].
  assert (answered (tl ++ [Delivered id f]) t) as Ha'.
  { destruct Ha as [H1 H2 H3 H4]. split; try done.
    - intros id' w [?|?]%in_snoc; [by apply H1|done].
    - intros id' r g Hr Hg. apply in_snoc. left. by eapply H2.
    - intros id' m Hc. destruct (H3 _ _ Hc) as (g & ? & ?). exists g. rewrite in_snoc. auto. }
  destruct (reqs t !! id) as [req|] eqn:Hr; [|by apply (answered_same _ t)].
  destruct (req_response req); [by apply (answered_same _ t)|].
  apply (answered_same _ (set_reqs t (<[id := mkReq (req_ctx req) (req_message req) (Some f) (req_err req)]> (reqs t))));
    [|done|done].
  eapply answered_reqs; [done|exact Hr|done| |].
  - intros g [= ->]. right. by left.
  - intros id' w Hin%list_elem_of_singleton. done.
Qed.

Lemma answered_start tl t id ctx msg :
  answered tl t → calls t !! id = None → answered tl (send_start t id ctx msg).
Proof.
  intros [H1 H2 H3 H4] Hc. assert (reqs t !! id = None) as Hn.
  { destruct (reqs t !! id) eqn:E; [|done]. destruct (H4 id ltac:(by rewrite E)). congruence. }
  split; cbn.
  - intros id' w Hin. destruct (H1 _ _ Hin) as (r & Hr & E). exists r.
    rewrite lookup_insert_ne; [done|]. congruence.
  - intros id' r f [[<- <-]|[_ Hr]]%lookup_insert_Some; [done|eauto].
  - intros id' m [[<- ?]|[_ Hc']]%lookup_insert_Some; [done|eauto].
  - intros id'. destruct (decide (id = id')) as [->|]; [rewrite !lookup_insert_eq; eauto|].
    rewrite !lookup_insert_ne by done. apply H4.
Qed.

(** A call takes what is in one of its channels, and returns. *)
Lemma answered_take tl t id req req' r :
  answered tl t → reqs t !! id = Some req → req_message req' = req_message req →
  (∀ f, req_response req' = Some f → req_response req = Some f) →
  (∀ m, r = Ok m → ∃ f, Delivered id f ∈ tl ∧ send_response f = Ok m) →
  answered tl (send_return (set_reqs t (<[id := req']> (reqs t))) id r).
Proof.
  intros Ha Hr Hm Hresp Hret. unfold send_return. apply answered_calls.
  - rewrite <-(app_nil_r tl). eapply answered_reqs; [done|exact Hr|done|by left; auto|].
    by intros ? ? ?%elem_of_nil.
  - intros m [= ->]. by apply Hret.
Qed.

Lemma answered_took tl t x : answered tl t → answered tl (Transport.reader_took t x).
Proof.
  intros Ha. apply (answered_same _ t); [done|..]; unfold Transport.reader_took; repeat case_match; done.
Qed.

Lemma answered_step tl t ls t' : answered tl t → Transport.step codec t ls t' → answered (tl ++ ls) t'.
Proof.
  intros Ha Hs. destruct Hs as [t id ctx msg Hf Hc|t id req e Hf Hr Hc|t e Hf Hc|t id pc Hf Hc Hpc Hcl
    |t id pc req e Hf Hc Hpc Hr He|t id req e Hf Hc Hr He|t id req f Hf Hc Hr He
    |t id req t' ls Hf Hcl Hc Hr Hh|t f t' ls Hf Hcl Hrd Hh|t Hf Hcl Hsd|t Hf Hrd|t k Hf Hrd
    |t f Hf Hrd Hcl|t Hf]; try (by eapply answered_request); try (by eapply answered_response);
    rewrite ?app_nil_r; try (by apply (answered_same _ t)).
  - by apply answered_start.
  - rewrite <-(app_nil_r tl). eapply answered_reqs; [done|exact Hr|done|by left|].
    by intros ? ? ?%elem_of_nil.
  - by apply answered_calls.
  - by apply answered_calls.
  - by eapply answered_take.
  - eapply answered_take; [done|exact Hr|done|done|]. intros m E. exists f.
    split; [|done]. by eapply (an_response _ _ Ha).
  - by apply answered_took.
  - by apply answered_took.
Qed.

Lemma reachable_answered tctx cctx tr n :
  reachable tctx cctx tr n → answered (clients tr) (n_client n).
Proof.
  induction 1 as [|tr n ls n' Hr IH Hs].
  - split; cbn; try done; try (by intros ? ? ?%elem_of_nil); by intros ? [? ?].
  - destruct Hs as [t c d ls t' Hs Hw|t c d ls c' Hs Hw|t c d Hf Hw Hin|t c d Hf Hw Hin
      |k t c d|k t c d|e t c d|e t c d|e t c d];
      cbn [n_client] in *; rewrite ?clients_app, ?clients_client, ?clients_server;
      cbn [clients omap list_omap app]; rewrite ?app_nil_r; try (by apply (answered_same _ t)).
    + by eapply answered_step.
    + by apply answered_took.
Qed.

(** ** One label at a time *)

Lemma client_labels t ls t' : Transport.step codec t ls t' → ls = [] ∨ ∃ l, ls = [l].
Proof.
  intros Hs. destruct Hs as [| | | | | | |t id req t' ls _ _ _ _ Hh|t f t' ls _ _ _ Hh| | | | |]; eauto.
  - unfold handle_request in Hh. repeat case_match; simplify_eq; eauto.
  - unfold handle_response in Hh. repeat case_match; simplify_eq; eauto.
Qed.

Lemma conn_labels c ls c' : ServeConn.step codec c ls c' → ls = [] ∨ ∃ l, ls = [l].
Proof.
  intros Hs. destruct Hs as [| | |c id req c' ls _ _ _ _ Hh| | | | | | | | | | | |]; eauto.
  unfold main_request in Hh. repeat case_match; simplify_eq; eauto.
Qed.

Lemma step_labels n ls n' : step n ls n' → ls = [] ∨ ∃ l, ls = [l].
Proof.
  intros Hs. destruct Hs as [t c d ls t' Hs _|t c d ls c' Hs _| | | | | | |]; eauto.
  - apply client_labels in Hs as [->|[l ->]]; eauto.
  - apply conn_labels in Hs as [->|[l ->]]; eauto.
Qed.

(** The step that made a label, and the state it was made in. *)
Lemma reachable_label tctx cctx tr n tr1 l tr2 :
  reachable tctx cctx tr n → tr = tr1 ++ l :: tr2 →
  ∃ n1 n2, reachable tctx cctx tr1 n1 ∧ step n1 [l] n2.
Proof.
  intros Hr. revert tr2. induction Hr as [|tr n ls n' Hr IH Hs]; intros tr2 E; [by destruct tr1|].
  destruct (step_labels _ _ _ Hs) as [->|[l' ->]].
  { rewrite app_nil_r in E. by eapply IH. }
  destruct tr2 as [|x tr2 _] using rev_ind.
  - apply app_inj_tail in E as [-> ->]. eauto.
  - rewrite app_comm_cons, app_assoc in E. apply app_inj_tail in E as [-> _]. by eapply IH.
Qed.

Lemma delivered_step n id f n' :
  step n [Client (Delivered id f)] n' →
  Transport.reader (n_client n) = Transport.Offering f ∧
  outstanding (n_client n) !! Fcall_Tag f = Some id.
Proof.
  intros Hs. inversion Hs as [t c d ls t' Hst Hw E1 E2|t c d ls c' Hst Hw E1 E2| | | | | | |]; subst.
  2:{ by destruct ls. }
  assert (ls = [Delivered id f]) as -> by (destruct ls as [|? []]; by simplify_eq/=).
  cbn [n_client]. inversion Hst as [| | | | | | |t0 id0 req t1 ls _ _ _ _ Hh E|
    t0 f0 t1 ls _ _ Hrd Hh E| | | | |]; subst.
  - unfold handle_request in Hh. repeat case_match; by simplify_eq.
  - unfold handle_response in Hh. cbn [outstanding Transport.set_reader] in Hh.
    destruct (outstanding t !! Fcall_Tag f0) as [id'|] eqn:E; by simplify_eq.
Qed.

(** ** Scheduled runs *)

Inductive move :=
| MCall (id : Z) (msg : Message)      (* send, with a context that is not done *)
| MRequest (id : Z)                   (* handle takes the request *)
| MUp                                 (* everything written arrives *)
| MServe (a : action)
| MDown
| MRead                               (* the client's reader reads *)
| MDeliver                            (* handle takes the response *)
| MTake (id : Z).                     (* send takes it and returns *)

Definition exec_client (t : transport) (m : move) : option (list Transport.label * transport) :=
  match t_fault t, m with
  | Some _, _ => None
  | None, MCall id msg =>
      match calls t !! id with None => Some ([], send_start t id None msg) | Some _ => None end
  | None, MRequest id =>
      match t_closed t, calls t !! id, reqs t !! id with
      | false, Some Dispatching, Some req =>
          let '(t', ls) := handle_request codec (set_calls t (<[id := Waiting]> (calls t))) id req in
          Some (ls, t')
      | _, _, _ => None
      end
  | None, MRead =>
      match Transport.reader t, whole_frame (ch_in (t_ch t)) with
      | Transport.Reading, true => Some ([], Transport.reader_read codec t)
      | _, _ => None
      end
  | None, MDeliver =>
      match Transport.reader t, t_closed t with
      | Transport.Offering f, false =>
          let '(t', ls) := handle_response (Transport.set_reader t Transport.Reading) f in Some (ls, t')
      | _, _ => None
      end
  | None, MTake id =>
      match calls t !! id, reqs t !! id with
      | Some Waiting, Some req =>
          match req_response req with
          | Some f => Some ([], send_take_response t id req f)
          | None => None
          end
      | _, _ => None
      end
  | None, _ => None
  end.

Definition exec (m : move) (n : network) : option (list label * network) :=
  let '(mkNetwork t c d) := n in
  match m with
  | MUp => Some ([], mkNetwork (set_ch t (sent (length (ch_out (t_ch t))) (t_ch t)))
                       (with_ch c (arrived (take (length (ch_out (t_ch t))) (ch_out (t_ch t))) (c_ch c))) d)
  | MDown => Some ([], mkNetwork (set_ch t (arrived (take (length (ch_out (c_ch c))) (ch_out (c_ch c))) (t_ch t)))
                         (with_ch c (sent (length (ch_out (c_ch c))) (c_ch c))) d)
  | MServe a =>
      if match a with ARead => whole_frame (ch_in (c_ch c)) | _ => true end then
        match act codec a c with
        | Some (ls, c') => Some (Server <$> ls, mkNetwork t c' d)
        | None => None
        end
      else None
  | _ =>
      match exec_client t m with
      | Some (ls, t') => Some (Client <$> ls, mkNetwork t' c d)
      | None => None
      end
  end.

Fixpoint exec_all (ms : list move) (tr : list label) (n : network) : option (list label * network) :=
  match ms with
  | [] => Some (tr, n)
  | m :: ms => '(ls, n) ← exec m n; exec_all ms (tr ++ ls) n
  end.

Lemma handle_request_reader t id req :
  Transport.reader (fst (handle_request codec t id req)) = Transport.reader t ∧
  ch_in (t_ch (fst (handle_request codec t id req))) = ch_in (t_ch t).
Proof.
  unfold handle_request, put_err.
  pose proof (WriteFcall_in codec (req_ctx req) (t_ch t) (newFcall (fst (allocateTag (outstanding t) (selected t)))
    (req_message req))) as Hin.
  destruct (allocateTag _ _) as [tag [e|]]; cbn in *; [by repeat case_match|].
  destruct (WriteFcall _ _ _ _) as [[u|e|w|w] ch]; cbn in *; try done. by repeat case_match.
Qed.

Lemma exec_client_step t m ls t' d :
  exec_client t m = Some (ls, t') → Transport.step codec t ls t' ∧ client_reads t d t'.
Proof.
  unfold exec_client, client_reads, client_waits. intros H. destruct (t_fault t) eqn:Hf; [done|].
  destruct m as [id msg|id| | | | | |id]; try done.
  - destruct (calls t !! id) eqn:Hc; [done|]. injection H as <- <-.
    split; [by constructor|]. auto.
  - destruct (t_closed t) eqn:Hcl; [done|]. destruct (calls t !! id) as [[]|] eqn:Hc; try done.
    destruct (reqs t !! id) as [req|] eqn:Hr; [|done].
    destruct (handle_request _ _ _ _) as [t1 ls1] eqn:Hh. injection H as <- <-.
    split; [by eapply step_handle_request|]. intros Hrd. left.
    pose proof (handle_request_reader (set_calls t (<[id:=Waiting]> (calls t))) id req) as E.
    rewrite Hh in E. cbn in E. destruct E as [-> ->]. done.
  - destruct (Transport.reader t) eqn:Hrd; try done. destruct (whole_frame _); [|done].
    injection H as <- <-. split; [by constructor|]. intros _. right. split; [done|]. by intros (_ & _ & ? & _).
  - destruct (Transport.reader t) as [|f|] eqn:Hrd; try done. destruct (t_closed t) eqn:Hcl; [done|].
    destruct (handle_response _ _) as [t1 ls1] eqn:Hh. injection H as <- <-.
    split; [by eapply step_handle_response|done].
  - destruct (calls t !! id) as [[]|] eqn:Hc; try done. destruct (reqs t !! id) as [req|] eqn:Hr; [|done].
    destruct (req_response req) as [f|] eqn:Hresp; [|done]. injection H as <- <-.
    split; [by eapply step_send_response|]. auto.
Qed.

Definition is_read (a : action) : Prop := match a with ARead => True | _ => False end.
#[local] Instance is_read_dec a : Decision (is_read a).
Proof. destruct a; apply _. Defined.

Lemma writer_write_in c f : ch_in (c_ch (writer_write codec c f)) = ch_in (c_ch c).
Proof.
  unfold writer_write. pose proof (WriteFcall_in codec (c_ctx c) (c_ch c) f) as Hin.
  destruct (WriteFcall _ _ _ _) as [[u|e|w|w] ch]; cbn in *; try done. by case_match.
Qed.

Lemma act_reader a c ls c' :
  act codec a c = Some (ls, c') → a ≠ ARead → c_reader c = ServeConn.Reading →
  c_reader c' = ServeConn.Reading ∧ ch_in (c_ch c') = ch_in (c_ch c).
Proof.
  unfold act, main_request, reqMap_remove, main_completed. intros H Ha Hr.
  assert (∀ f, c_reader (writer_write codec c f) = ServeConn.Reading) as Hwr.
  { intros f. unfold writer_write. by repeat case_match. }
  destruct (c_fault c); [done|].
  destruct a; try done; repeat case_match; simplify_eq/=; rewrite ?writer_write_in; done.
Qed.

Lemma act_reads a c ls c' d :
  act codec a c = Some (ls, c') → (a = ARead → whole_frame (ch_in (c_ch c)) = true) →
  server_reads c d c'.
Proof.
  intros Hact Ha Hr. destruct (decide (is_read a)) as [Hd|Hd].
  - right. destruct a; try done. specialize (Ha eq_refl). unfold act in Hact.
    destruct (c_fault c); [done|]. rewrite Hr in Hact. injection Hact as _ <-.
    split; [done|]. intros (_ & _ & Hwf & _). congruence.
  - left. eapply act_reader; [exact Hact| |done]. by intros ->.
Qed.

Lemma net_exec_step m n ls n' : exec m n = Some (ls, n') → step n ls n'.
Proof.
  destruct n as [t c d]. unfold exec.
  assert (match exec_client t m with
          | Some (ls, t') => Some (Client <$> ls, mkNetwork t' c d)
          | None => None
          end = Some (ls, n') → step (mkNetwork t c d) ls n') as Hcl.
  { destruct (exec_client t m) as [[ls1 t1]|] eqn:E; [|done]. intros [= <- <-].
    destruct (exec_client_step _ _ _ _ d E). by constructor. }
  destruct m as [| | |a| | | |]; try exact Hcl.
  - intros [= <- <-]. constructor.
  - destruct (match a with ARead => _ | _ => true end) eqn:Ew; [|done].
    destruct (act codec a c) as [[ls1 c1]|] eqn:E; [|done].
    intros [= <- <-]. constructor; [by eapply act_step|]. eapply act_reads; [done|]. by intros ->.
  - intros [= <- <-]. constructor.
Qed.

Lemma net_exec_all_reachable tctx cctx ms tr n tr' n' :
  reachable tctx cctx tr n → exec_all ms tr n = Some (tr', n') → reachable tctx cctx tr' n'.
Proof.
  revert tr n. induction ms as [|m ms IH]; intros tr n Hr; cbn; [by intros [= <- <-]|].
  destruct (exec m n) as [[ls n1]|] eqn:E; [|done]. cbn. apply IH.
  eapply reach_step; [done|]. by eapply net_exec_step.
Qed.

(** A whole call, when nothing else happens: the request up to the handler,
    and the rest from its result [r] on. *)
Definition script_request (id sid : Z) (msg : Message) : list move :=
  [MCall id msg; MRequest id; MUp; MServe ARead; MServe (ARequest sid)].
Definition script_response (id sid : Z) (r : error + Message) : list move :=
  [MServe (AHandler sid r); MServe (ACompleted sid); MServe AReply; MDown; MRead; MDeliver; MTake id].

(** What was delivered to a call answers its own request. *)
Lemma delivered_history tctx cctx tr n tr1 id f tr2 :
  reachable tctx cctx tr n → Forall sound_label tr → tr = tr1 ++ Client (Delivered id f) :: tr2 →
  ∃ g sid resp, Fcall_Tag g = Fcall_Tag f ∧
    history tr1 id g [Accept sid g; Handled sid resp; Reply sid sid resp] ∧
    truncated msize (carry resp) = Ok f.
Proof.
  intros Hr Hs E. destruct (reachable_label _ _ _ _ _ _ _ Hr E) as (n1 & n2 & Hr1 & Hst).
  rewrite E in Hs. apply Forall_app in Hs as [Hs1 _].
  pose proof (net_reachable_linked _ _ _ _ Hr1 Hs1) as Hl. destruct (delivered_step _ _ _ _ Hst) as [Hrd Ho].
  destruct (offered_history _ _ _ _ Hl Hrd) as (id' & g & sid & resp & Ho' & Hg & Hh & Hresp).
  assert (id' = id) as -> by congruence. eauto 10.
Qed.

(** What a call returned, and where it came from. *)
Lemma returned_history tctx cctx tr n id m :
  reachable tctx cctx tr n → Forall sound_label tr →
  calls (n_client n) !! id = Some (Returned (Ok m)) →
  ∃ req a w b g sid resp f,
    reqs (n_client n) !! id = Some req ∧ Fcall_Message w = Some (req_message req) ∧
    tr = a ++ Client (Wrote id w) :: b ∧
    truncated msize (carry w) = Ok g ∧ truncated msize (carry resp) = Ok f ∧
    m = Fcall_Message f ∧ Fcall_Type f ≠ Rerror ∧
    (∀ e, e ∈ [Accept sid g; Handled sid resp; Reply sid sid resp] → Server e ∈ b) ∧
    ∃ b1 b2, b = b1 ++ Client (Delivered id f) :: b2 ∧
      Forall (λ l, client_tag l ≠ Some (Fcall_Tag w)) b1.
Proof.
  intros Hr Hs Hc. pose proof (reachable_answered _ _ _ _ Hr) as Han.
  destruct (an_returned _ _ Han _ _ Hc) as (f & Hd & Hresp).
  assert (Client (Delivered id f) ∈ tr) as (tr1 & tr2 & E)%list_elem_of_split.
  { unfold clients in Hd. apply list_elem_of_omap in Hd as ([] & Hin & [=]). by subst. }
  destruct (delivered_history _ _ _ _ _ _ _ _ Hr Hs E)
    as (g & sid & resp & Hg & (a & w & b & -> & Hw & Hb & Hev) & Hf).
  destruct (an_wrote _ _ Han id w) as (req & Hreq & Hmsg).
  { unfold clients. apply list_elem_of_omap. exists (Client (Wrote id w)). split; [|done].
    rewrite E. set_solver. }
  rewrite <-app_assoc in E.
  exists req, a, w, (b ++ Client (Delivered id f) :: tr2), g, sid, resp, f.
  unfold send_response in Hresp. case_decide as Hty; [by destruct (Fcall_Message f) as [[]|]|].
  split_and!; try done.
  - congruence.
  - intros e He. apply elem_of_app. left. by apply Hev.
  - exists b, tr2. split; [done|]. by rewrite <-(truncated_tag _ _ Hw).
Qed.

(** The server answers nothing on its own. *)
Lemma reachable_server_labels tctx cctx tr n f :
  reachable tctx cctx tr n → Forall sound_label tr → Server (Bypass f) ∉ tr.
Proof.
  intros Hr Hs (tr1 & tr2 & E)%list_elem_of_split.
  destruct (reachable_label _ _ _ _ _ _ _ Hr E) as (n1 & n2 & Hr1 & Hst).
  rewrite E in Hs. apply Forall_app in Hs as [Hs1 _].
  pose proof (net_reachable_linked _ _ _ _ Hr1 Hs1) as Hl.
  inversion Hst as [t c d ls t' Hcs _ E1 E2|t c d ls c' Hcs _ E1 E2| | | | | | |]; subst; [by destruct ls|].
  destruct ls as [|l []]; simplify_eq/=.
  destruct (server_labels _ _ _ _ _ Hl Hcs) as [_ Hb]. apply (Hb f). by left.
Qed.
End Network.

(** ** Theorems *)

(** C8. End to end: between this client and this server, whatever else
    happens on the connection, a call that returns a message returns the
    answer to its own request.  The request went out under a tag that no
    other message of the client used until the answer came; the server
    accepted it (a Tread or Twrite cut to msize), its handler returned
    [resp] for it, and the loop sent that; [m] is the message of [resp] cut
    to msize, its times cut to seconds.  No Rerror is returned as a message.
    For granted ([sound_label]): every request sent and every response a
    handler returned fits the widths of the protocol (times apart) and 32
    bits, the client sends no Tflush, and no read timed out inside a frame. *)
Theorem network_returns codec `{!CodecLaws codec} msize tctx cctx tr n id m :
  23 ≤ msize < 2 ^ 32 → reachable codec msize tctx cctx tr n → Forall sound_label tr →
  calls (n_client n) !! id = Some (Returned (Ok m)) →
  ∃ req a w b g sid resp f,
    reqs (n_client n) !! id = Some req ∧ Fcall_Message w = Some (req_message req) ∧
    tr = a ++ Client (Wrote id w) :: b ∧
    truncated msize (carry w) = Ok g ∧ truncated msize (carry resp) = Ok f ∧
    m = Fcall_Message f ∧ Fcall_Type f ≠ Rerror ∧
    (∀ e, e ∈ [Accept sid g; Handled sid resp; Reply sid sid resp] → Server e ∈ b) ∧
    ∃ b1 b2, b = b1 ++ Client (Delivered id f) :: b2 ∧
      Forall (λ l, client_tag l ≠ Some (Fcall_Tag w)) b1.
Proof. intros Hm. by apply returned_history. Qed.

(** One call on a new connection: Tclunk 9, answered by Rclunk. *)
Definition one_run : list label * network :=
  default ([], new_network 64 None None)
    (exec_all codec9p
       (script_request 1 7 (MessageTclunk 9) ++ script_response 1 7 (inr MessageRclunk))
       [] (new_network 64 None None)).

Lemma net_one_reachable : reachable codec9p 64 None None (fst one_run) (snd one_run).
Proof.
  apply (net_exec_all_reachable codec9p 64 None None
    (script_request 1 7 (MessageTclunk 9) ++ script_response 1 7 (inr MessageRclunk))
    [] (new_network 64 None None)); [by constructor; apply idle_new|].
  vm_compute. reflexivity.
Qed.

Lemma one_sound : Forall sound_label (fst one_run).
Proof.
  assert (fst one_run =
    [Client (Wrote 1 (newFcall 1 (MessageTclunk 9))); Server (Accept 7 (newFcall 1 (MessageTclunk 9)));
     Server (Handled 7 (newFcall 1 MessageRclunk)); Server (Reply 7 7 (newFcall 1 MessageRclunk));
     Client (Delivered 1 (newFcall 1 MessageRclunk))]) as -> by (vm_compute; reflexivity).
  repeat constructor; try (by vm_compute); done.
Qed.

Lemma network_returns_witness :
  calls (n_client (snd one_run)) !! 1 = Some (Returned (Ok (Some MessageRclunk))) ∧
  ∃ req a w b g sid resp f,
    reqs (n_client (snd one_run)) !! 1 = Some req ∧ Fcall_Message w = Some (req_message req) ∧
    fst one_run = a ++ Client (Wrote 1 w) :: b ∧
    truncated 64 (carry w) = Ok g ∧ truncated 64 (carry resp) = Ok f ∧
    Some MessageRclunk = Fcall_Message f ∧ Fcall_Type f ≠ Rerror ∧
    (∀ e, e ∈ [Accept sid g; Handled sid resp; Reply sid sid resp] → Server e ∈ b) ∧
    ∃ b1 b2, b = b1 ++ Client (Delivered 1 f) :: b2 ∧
      Forall (λ l, client_tag l ≠ Some (Fcall_Tag w)) b1.
Proof.
  split; [vm_compute; reflexivity|].
  apply (network_returns codec9p 64 None None (fst one_run) (snd one_run));
    [lia | exact net_one_reachable | exact one_sound | vm_compute; reflexivity].
Defined.

(** C9. Between this client and this server nothing stops: no goroutine
    panics or blocks on a request's channels, the transport never meets a
    tag it does not know, and the server's loop answers only what its handler
    returned (it meets no duplicate tag and no unknown flush).  For granted,
    as in C8: requests and responses fit the protocol, the client sends no
    Tflush, and no read times out inside a frame (with such a read the
    unknown tag does come: C30). *)
Theorem network_safe codec `{!CodecLaws codec} msize tctx cctx tr n :
  23 ≤ msize < 2 ^ 32 → reachable codec msize tctx cctx tr n → Forall sound_label tr →
  t_fault (n_client n) = None ∧ c_fault (n_server n) = None ∧ (∀ f, Server (Bypass f) ∉ tr) ∧
  ∀ tag sid, tags (n_server n) !! tag = Some sid → is_Some (outstanding (n_client n) !! tag).
Proof.
  intros Hm Hr Hs. pose proof (net_reachable_linked codec msize Hm _ _ _ _ Hr Hs) as Hl.
  destruct (lk_fault _ _ _ _ Hl) as [Ht Hc]. split_and!; [done|done| |].
  - intros f. by eapply reachable_server_labels.
  - destruct (lk_joined _ _ _ _ Hl) as (up & down & _ & _ & Hk). apply (tk_tags _ _ _ _ _ _ _ _ Hk).
Qed.
Lemma network_safe_witness :
  t_fault (n_client (snd one_run)) = None ∧ c_fault (n_server (snd one_run)) = None ∧
  (∀ f, Server (Bypass f) ∉ fst one_run) ∧
  ∀ tag sid, tags (n_server (snd one_run)) !! tag = Some sid →
    is_Some (outstanding (n_client (snd one_run)) !! tag).
Proof.
  apply (network_safe codec9p 64 None None); [lia | exact net_one_reachable | exact one_sound].
Defined.
End Network.
