(* ===== verification/Wire.v ===== *)
(** * Wire: the client's session over a connection

    A call of the client's session (csession.go) on a connection where
    nothing else happens: it goes through the transport, the frames and the
    server's loop to the handler, and the handler's result comes back the same
    way.  The theorem compares that with [loopback], where the call is handed
    to the handler directly. *)
From S2P Require Import Prelude Types Encoding EncodingFacts Codec Channel Transport ServeConn.
From S2P Require Import FileSys SFileSys SessionSpec Session SleepFS SSession CSession Network.

Module Wire.
Import Network.Network.

Section Wire.
Context (codec : Codec) `{!CodecLaws codec} (msize : Z) (Hmsize : 23 ≤ msize < 2 ^ 32).
(** ** A call on a connection at rest *)

Definition quiet_channel (buf : bytes) : channel := mkChannel [] [] None false msize buf.

(** Nothing on the way and nothing outstanding; the client's calls and the
    server's past requests do not matter. *)
Definition at_rest (shut : bool) (sel : Z) (tbuf cbuf : bytes) (rqs : gmap Z fcallRequest)
    (cls : gmap Z send_pc) (rs : gmap Z request) (d : bool) : network :=
  mkNetwork
    (mkTransport None (quiet_channel tbuf) shut false None ∅ sel Transport.Reading rqs cls)
    (mkConn None (quiet_channel cbuf) None ∅ rs Selecting ServeConn.Reading true None) d.

(** The same when call [id], a [msg] that arrives as [g], is with the handler
    as request [sid]. *)
Definition handing (shut : bool) (sel : Z) (tbuf cbuf : bytes) (rqs : gmap Z fcallRequest)
    (cls : gmap Z send_pc) (rs : gmap Z request) (d : bool) (id sid : Z) (msg : Message) (g : Fcall)
    : network :=
  mkNetwork
    (mkTransport None (quiet_channel tbuf) shut false None {[next_tag sel := id]} (next_tag sel)
       Transport.Reading (<[id := newFcallRequest None msg]> rqs) (<[id := Waiting]> cls))
    (mkConn None (quiet_channel cbuf) None {[next_tag sel := sid]}
       (<[sid := mkRequest g false Handling]> rs) Selecting ServeConn.Reading true None) d.

Lemma exec_cons m ms tr ls n n1 R :
  exec codec m n = Some (ls, n1) → exec_all codec ms (tr ++ ls) n1 = R → exec_all codec (m :: ms) tr n = R.
Proof. intros E <-. cbn. by rewrite E. Qed.

Lemma allocate_first sel : allocateTag (∅ : gmap Z Z) sel = (next_tag sel, None).
Proof.
  unfold allocateTag. rewrite decide_False by (rewrite map_size_empty; lia).
  destruct (Z.to_nat 65535) as [|k] eqn:E; [lia|]. cbn [allocate_loop].
  fold (next_tag sel). by rewrite lookup_empty.
Qed.

Lemma whole_one f : fits msize f → whole_frame (sendmsg (wire_fcall f)) = true.
Proof.
  intros Hf. pose proof (sendmsg_size msize Hmsize f [] Hf) as Hs. rewrite app_nil_r in Hs.
  pose proof (sendmsg_len msize f Hf) as Hl. pose proof (len_nonneg (wire_fcall f)).
  unfold whole_frame, frame_size in *. apply andb_true_iff.
  split; apply bool_decide_eq_true_2; lia.
Qed.

Lemma write_quiet buf f f' :
  len buf = msize → wf_Fcall (carry f) → frame_size f < 2 ^ 32 → truncated msize (carry f) = Ok f' →
  WriteFcall codec None (quiet_channel buf) f = (Ok (), set_out (quiet_channel buf) (sendmsg (wire_fcall f'))).
Proof.
  intros Hb Hw Hs Ht. rewrite truncated_carry in Ht.
  destruct (truncated msize f) as [f0|e|w|w] eqn:E; try done. injection Ht as <-. rewrite wire_carry.
  rewrite (WriteFcall_wire codec _ f f0); try done.
  rewrite maybeTruncate_truncated; [done|done|cbn; lia|done|].
  intros fid off cnt Em. apply (wf_Tread_count (carry f) fid off cnt Hw). cbn. by rewrite Em.
Qed.

Lemma read_one ch f :
  agreed msize ch → ch_in ch = sendmsg (wire_fcall f) → fits msize f →
  ∃ buf, len buf = msize ∧ ReadFcall codec None ch = (Ok f, set_read ch [] buf).
Proof.
  intros (Hc & Hm & Hb & _) Hin Hf. pose proof (fits_frame msize Hmsize f Hf).
  destruct (ReadFcall_frame codec ch f []) as (buf & Hbuf & Hr); [done|apply Hf|lia|lia|].
  rewrite app_nil_r, <-Hin in Hr. replace (set_in ch (ch_in ch)) with ch in Hr by (by destruct ch).
  exists buf. split; [unfold len in *; lia|]. rewrite Hr. f_equal.
  rewrite maybeTruncate_truncated; [cbn; rewrite Hm; apply Hf|done|cbn; lia|lia|].
  intros fid off cnt. by apply wf_Tread_count, Hf.
Qed.

Lemma exec_all_app ms ms' tr n :
  exec_all codec (ms ++ ms') tr n =
  match exec_all codec ms tr n with Some (tr, n) => exec_all codec ms' tr n | None => None end.
Proof.
  revert tr n. induction ms as [|m ms IH]; intros tr n; [done|]. cbn.
  destruct (exec codec m n) as [[ls n1]|]; [cbn; apply IH|done].
Qed.

(** The request of a call reaches the handler. *)
Lemma request_arrives shut sel tbuf cbuf rqs cls rs d id sid msg g tr :
  len tbuf = msize → len cbuf = msize → cls !! id = None → rs !! sid = None →
  let w := newFcall (next_tag sel) msg in
  wf_Fcall (carry w) → frame_size w < 2 ^ 32 → truncated msize (carry w) = Ok g →
  (∀ old, Fcall_Message g ≠ Some (MessageTflush old)) →
  ∃ cbuf', len cbuf' = msize ∧
    exec_all codec (script_request id sid msg) tr (at_rest shut sel tbuf cbuf rqs cls rs d) =
    Some (tr ++ [Client (Wrote id w); Server (Accept sid g)],
      handing shut sel tbuf cbuf' rqs cls rs d id sid msg g).
Proof.
  intros Ht Hc Hid Hsid w Hw Hs Hg Hnf. pose proof (truncated_fits_to msize Hmsize _ _ Hw Hg) as Hfit.
  pose proof (truncated_tag msize _ _ Hg) as Htag. cbn in Htag.
  destruct (read_one (arrived (sendmsg (wire_fcall g)) (quiet_channel cbuf)) g)
    as (cbuf' & Hcb & Hrd); [done|done|done|].
  exists cbuf'. split; [done|]. unfold script_request, at_rest.
  set (c0 := mkConn None (quiet_channel cbuf) None ∅ rs Selecting ServeConn.Reading true None).
  set (rqs' := <[id := newFcallRequest None msg]> rqs).
  apply (exec_cons _ _ _ [] _ (mkNetwork (mkTransport None (quiet_channel tbuf) shut false None ∅ sel
    Transport.Reading rqs' (<[id := Dispatching]> cls)) c0 d)); [by cbn; rewrite Hid|].
  apply (exec_cons _ _ _ [Client (Wrote id w)] _
    (mkNetwork (mkTransport None (set_out (quiet_channel tbuf) (sendmsg (wire_fcall g))) shut false None
      {[next_tag sel := id]} (next_tag sel) Transport.Reading rqs' (<[id := Waiting]> cls)) c0 d)).
  { unfold Network.exec, exec_client. cbn [t_fault t_closed calls reqs]. unfold rqs'. rewrite !lookup_insert_eq.
    unfold handle_request. cbn [set_calls outstanding selected]. rewrite allocate_first.
    cbn [set_calls set_selected set_outstanding t_ch req_ctx newFcallRequest req_message outstanding].
    fold w.
    rewrite (write_quiet tbuf w g) by done. by rewrite insert_insert_eq. }
  apply (exec_cons _ _ _ [] _ (mkNetwork (mkTransport None (quiet_channel tbuf) shut false None
      {[next_tag sel := id]} (next_tag sel) Transport.Reading rqs' (<[id := Waiting]> cls))
      (with_ch c0 (arrived (sendmsg (wire_fcall g)) (quiet_channel cbuf))) d)).
  { unfold Network.exec, sent. cbn [t_ch set_out ch_out]. by rewrite firstn_all, drop_all. }
  apply (exec_cons _ _ _ [] _ (mkNetwork (mkTransport None (quiet_channel tbuf) shut false None
      {[next_tag sel := id]} (next_tag sel) Transport.Reading rqs' (<[id := Waiting]> cls))
      (mkConn None (quiet_channel cbuf') None ∅ rs Selecting (ServeConn.Offering g) true None) d)).
  { assert (whole_frame (ch_in (arrived (sendmsg (wire_fcall g)) (quiet_channel cbuf))) = true)
      as Hwf by (by apply whole_one).
    unfold exec. cbn [c_ch with_ch]. rewrite Hwf. unfold act. cbn [c_fault with_ch c_reader c0].
    unfold ServeConn.reader_read. cbn [c_ctx c_ch with_ch c0]. by rewrite Hrd. }
  apply (exec_cons _ _ _ [Server (Accept sid g)] _ (mkNetwork (mkTransport None (quiet_channel tbuf) shut false None
      {[next_tag sel := id]} (next_tag sel) Transport.Reading rqs' (<[id := Waiting]> cls))
      (mkConn None (quiet_channel cbuf') None {[next_tag sel := sid]}
        (<[sid := mkRequest g false Handling]> rs) Selecting ServeConn.Reading true None) d)).
  { unfold Network.exec, act. cbn [c_fault c_reader c_main c_reqs]. rewrite Hsid. unfold main_request.
    cbn [tags with_reader]. rewrite lookup_empty, Htag.
    destruct (Fcall_Message g) as [[]|]; try done. by destruct (Hnf Oldtag). }
  cbn. by rewrite <-!app_assoc.
Qed.

(** Set the goroutine of a request just inserted. *)
Lemma set_pc_insert sid rq pc rs :
  set_pc sid pc (<[sid := rq]> rs) = <[sid := mkRequest (rq_fcall rq) (rq_cancelled rq) pc]> rs.
Proof. unfold set_pc. by rewrite alter_insert_eq. Qed.

(** The server's part: the handler's result becomes a frame. *)
Lemma server_answers_request tag sid g r f rs cbuf t d tr :
  len cbuf = msize → Fcall_Tag g = tag →
  let resp := handler_response g r in
  wf_Fcall (carry resp) → frame_size resp < 2 ^ 32 → truncated msize (carry resp) = Ok f →
  exec_all codec [MServe (AHandler sid r); MServe (ACompleted sid); MServe AReply] tr
    (mkNetwork t (mkConn None (quiet_channel cbuf) None {[tag := sid]}
       (<[sid := mkRequest g false Handling]> rs) Selecting ServeConn.Reading true None) d) =
  Some (tr ++ [Server (Handled sid resp); Server (Reply sid sid resp)],
    mkNetwork t (mkConn None (set_out (quiet_channel cbuf) (sendmsg (wire_fcall f))) None ∅
       (<[sid := mkRequest g false Gone]> rs) Selecting ServeConn.Reading true None) d).
Proof.
  intros Hb Htag resp Hw Hs Hf. assert (Fcall_Tag resp = tag) as Hrt by (by destruct r).
  apply (exec_cons _ _ _ [Server (Handled sid resp)] _
    (mkNetwork t (mkConn None (quiet_channel cbuf) None {[tag := sid]}
       (<[sid := mkRequest g false (Finished resp)]> rs) Selecting ServeConn.Reading true None) d)).
  { unfold Network.exec, act. cbn [c_fault c_reqs]. rewrite lookup_insert_eq. cbn [rq_pc rq_fcall].
    by rewrite set_pc_insert. }
  apply (exec_cons _ _ _ [] _
    (mkNetwork t (mkConn None (quiet_channel cbuf) None {[tag := sid]}
       (<[sid := mkRequest g false Gone]> rs) (Replying sid sid resp) ServeConn.Reading true None) d)).
  { unfold Network.exec, act. cbn [c_fault c_reqs c_main]. rewrite lookup_insert_eq. cbn [rq_pc].
    unfold main_completed. cbn [tags with_reqs c_reqs]. rewrite set_pc_insert, Hrt, lookup_singleton_eq.
    done. }
  apply (exec_cons _ _ _ [Server (Reply sid sid resp)] _
    (mkNetwork t (mkConn None (set_out (quiet_channel cbuf) (sendmsg (wire_fcall f))) None ∅
       (<[sid := mkRequest g false Gone]> rs) Selecting ServeConn.Reading true None) d)).
  { unfold Network.exec, act. cbn [c_fault c_main c_writer]. unfold writer_write. cbn [c_ctx c_ch].
    rewrite (write_quiet cbuf resp f) by done. unfold main_answered. cbn [with_tags with_ch tags].
    rewrite Hrt, delete_singleton_eq. done. }
  cbn. by rewrite app_nil_r, <-!app_assoc.
Qed.

(** The client's part: the frame becomes the call's result. *)
Lemma client_gets_answer tag id f req shut tbuf rqs cls cbuf rs d tr :
  len tbuf = msize → fits msize f → Fcall_Tag f = tag → rqs !! id = Some req → cls !! id = Some Waiting →
  req_response req = None → req_err req = None →
  ∃ tbuf', len tbuf' = msize ∧
  exec_all codec [MDown; MRead; MDeliver; MTake id] tr
    (mkNetwork (mkTransport None (quiet_channel tbuf) shut false None {[tag := id]} tag
                  Transport.Reading rqs cls)
       (mkConn None (set_out (quiet_channel cbuf) (sendmsg (wire_fcall f))) None ∅ rs
          Selecting ServeConn.Reading true None) d) =
  Some (tr ++ [Client (Delivered id f)],
    at_rest shut tag tbuf' cbuf rqs (<[id := Returned (send_response f)]> cls) rs d).
Proof.
  intros Hb Hf Htag Hreq Hcl Hr0 He0.
  destruct (read_one (arrived (sendmsg (wire_fcall f)) (quiet_channel tbuf)) f)
    as (tbuf' & Htb & Hrd); [done|done|done|]. exists tbuf'. split; [done|].
  set (c1 := mkConn None (quiet_channel cbuf) None ∅ rs Selecting ServeConn.Reading true None).
  apply (exec_cons _ _ _ [] _ (mkNetwork
    (mkTransport None (arrived (sendmsg (wire_fcall f)) (quiet_channel tbuf)) shut false None
       {[tag := id]} tag Transport.Reading rqs cls) c1 d)).
  { unfold Network.exec, sent. cbn [c_ch set_out ch_out]. by rewrite firstn_all, drop_all. }
  apply (exec_cons _ _ _ [] _ (mkNetwork (mkTransport None (quiet_channel tbuf') shut false None
    {[tag := id]} tag (Transport.Offering f) rqs cls) c1 d)).
  { assert (whole_frame (ch_in (arrived (sendmsg (wire_fcall f)) (quiet_channel tbuf))) = true)
      as Hwf by (by apply whole_one).
    unfold Network.exec, exec_client. cbn [t_fault Transport.reader t_ch]. rewrite Hwf.
    unfold Transport.reader_read. cbn [t_ctx t_ch]. by rewrite Hrd. }
  apply (exec_cons _ _ _ [Client (Delivered id f)] _ (mkNetwork (mkTransport None (quiet_channel tbuf')
    shut false None ∅ tag Transport.Reading
    (<[id := mkReq (req_ctx req) (req_message req) (Some f) (req_err req)]> rqs) cls) c1 d)).
  { unfold Network.exec, exec_client. cbn [t_fault Transport.reader t_closed]. unfold handle_response.
    cbn [outstanding Transport.set_reader]. rewrite Htag, lookup_singleton_eq, delete_singleton_eq.
    unfold put_response. cbn [reqs set_outstanding Transport.set_reader]. by rewrite Hreq, Hr0. }
  eapply (exec_cons _ _ _ [] _).
  { unfold Network.exec, exec_client. cbn [t_fault calls reqs]. rewrite Hcl, lookup_insert_eq.
    cbn [req_response]. done. }
  cbn [exec_all]. unfold send_take_response, send_return, set_calls, set_reqs, at_rest.
  cbn [req_ctx req_message req_err t_ctx t_ch t_shutdown t_closed t_fault outstanding selected
    Transport.reader reqs calls]. rewrite insert_insert_eq, !app_nil_r.
  assert (mkReq (req_ctx req) (req_message req) None (req_err req) = req) as E
    by (destruct req; cbn in *; by subst).
  rewrite E, (insert_id rqs id req) by done. done.
Qed.


(** ** Calls *)

(** A connection at rest, whatever its past. *)
Definition resting (n : network) : Prop :=
  ∃ shut sel tbuf cbuf rqs cls rs d,
    n = at_rest shut sel tbuf cbuf rqs cls rs d ∧ len tbuf = msize ∧ len cbuf = msize.

Lemma connected_resting : resting (new_network msize None None).
Proof.
  assert (len (zero_bytes msize) = msize).
  { unfold zero_bytes, len. rewrite length_replicate. lia. }
  by exists false, 0, (zero_bytes msize), (zero_bytes msize), ∅, ∅, ∅, false.
Qed.

(** The tag of the next call. *)
Definition next (n : network) : Z := next_tag (selected (n_client n)).

Section Calls.
Context {St : Type} (handler : context → Message → St → result error Message * St).

(** What the handler returned, as the loop packs it. *)
Definition finish (id sid : Z) (r : error + Message) (tr : list label) (n : network) (s : St)
    : result error (option Message) * (network * St) :=
  match exec_all codec (script_response id sid r) tr n with
  | Some (_, n) =>
      match calls (n_client n) !! id with
      | Some (Returned r) => (r, (n, s))
      | _ => (Hang "no response", (n, s))
      end
  | None => (Hang "no response", (n, s))
  end.

(** [send] over the connection.  The call and the request get names of their
    own. *)
Definition wire_send : RoundTripper (network * St) := λ ctx msg '(n, s),
  let id := fresh (dom (calls (n_client n))) in
  let sid := fresh (dom (c_reqs (n_server n))) in
  match exec_all codec (script_request id sid msg) [] n with
  | Some (tr, n) =>
      match (rq ← c_reqs (n_server n) !! sid; Fcall_Message (rq_fcall rq)) with
      | Some m =>
          match handler ctx m s with
          | (Ok resp, s) => finish id sid (inr resp) tr n s
          | (Err e, s) => finish id sid (inl e) tr n s
          | (Panic w, s) => (Panic w, (n, s))
          | (Hang w, s) => (Hang w, (n, s))
          end
      | None => (Hang "no request", (n, s))
      end
  | None => (Hang "no request", (n, s))
  end.

(** The handler returned, and msize and the widths of the protocol leave what
    it returned as it is (of times, the seconds are left). *)
Definition answers_fit (tag : Z) (r : result error Message) : Prop :=
  match r with
  | Ok m => fits msize (carry (newFcall tag m))
  | Err e => fits msize (carry (newErrorFcall tag e))
  | _ => False
  end.

(** The handler, as seen from the other end of a wire. *)
Definition carried : context → Message → St → result error Message * St := λ ctx m s,
  match handler ctx m s with
  | (Ok a, s) => (Ok (carry_Message a), s)
  | x => x
  end.

Lemma fits_size f :
  fits msize (carry f) → wf_Fcall (carry f) ∧ frame_size f < 2 ^ 32 ∧ truncated msize (carry f) = Ok (carry f).
Proof.
  intros Hf. pose proof (fits_frame msize Hmsize _ Hf) as Hs. rewrite frame_size_carry in Hs.
  destruct Hf. split_and!; [done|lia|done].
Qed.

Lemma response_returns shut sel tbuf cbuf rqs cls rs d id sid msg g r resp tr s :
  len tbuf = msize → len cbuf = msize → Fcall_Tag g = next_tag sel →
  handler_response g r = resp → fits msize (carry resp) →
  ∃ n', resting n' ∧
    finish id sid r tr (handing shut sel tbuf cbuf rqs cls rs d id sid msg g) s
    = (send_response (carry resp), (n', s)).
Proof.
  intros Ht Hc Htag <- Hf. destruct (fits_size _ Hf) as (Hrw & Hrs & Hrt).
  set (resp := handler_response g r) in *.
  destruct (client_gets_answer (next_tag sel) id (carry resp) (newFcallRequest None msg) shut tbuf
    (<[id := newFcallRequest None msg]> rqs) (<[id := Waiting]> cls) cbuf
    (<[sid := mkRequest g false Gone]> rs) d
    (tr ++ [Server (Handled sid resp); Server (Reply sid sid resp)]))
    as (tbuf' & Ht' & Hget); try done; try by rewrite lookup_insert_eq.
  { by destruct r. }
  unfold finish. change (script_response id sid r) with
    ([MServe (AHandler sid r); MServe (ACompleted sid); MServe AReply] ++ [MDown; MRead; MDeliver; MTake id]).
  rewrite exec_all_app. unfold handing.
  rewrite (server_answers_request (next_tag sel) sid g r (carry resp)) by done.
  fold resp. rewrite Hget. cbn [n_client calls at_rest]. rewrite lookup_insert_eq.
  eexists. split; [|done]. by repeat eexists.
Qed.

Lemma wire_send_loopback n s msg g m :
  resting n → let w := newFcall (next n) msg in
  wf_Fcall (carry w) → frame_size w < 2 ^ 32 → truncated msize (carry w) = Ok g →
  Fcall_Message g = Some m →
  (∀ old, m ≠ MessageTflush old) → answers_fit (next n) (fst (handler None m s)) →
  ∃ n', resting n' ∧
    wire_send None msg (n, s) =
    (fst (loopback carried (next n) None m s), (n', snd (loopback carried (next n) None m s))).
Proof.
  intros (shut & sel & tbuf & cbuf & rqs & cls & rs & d & -> & Ht & Hc) w Hw Hs Hg Hm Hnf Hfit.
  set (n := at_rest _ _ _ _ _ _ _ _) in *. unfold wire_send.
  set (id := fresh (dom (calls (n_client n)))). set (sid := fresh (dom (c_reqs (n_server n)))).
  assert (cls !! id = None) as Hid by apply not_elem_of_dom, is_fresh.
  assert (rs !! sid = None) as Hsid by apply not_elem_of_dom, is_fresh.
  destruct (request_arrives shut sel tbuf cbuf rqs cls rs d id sid msg g []) as (cbuf' & Hc' & Hreq); try done.
  { rewrite Hm. intros old [= E]. by apply (Hnf old). }
  fold n in Hreq. rewrite Hreq.
  pose proof (truncated_tag msize _ _ Hg) as Htag.
  cbn [n_server c_reqs handing]. rewrite lookup_insert_eq. cbn [mbind option_bind rq_fcall]. rewrite Hm.
  unfold loopback, carried.
  destruct (handler None m s) as [[resp|e|x|x] s']; cbn [fst snd] in Hfit |- *; [| |done..].
  - rewrite <-carry_newFcall. by apply (response_returns _ sel); [..|cbn; by rewrite Htag|].
  - rewrite <-carry_error. by apply (response_returns _ sel); [..|cbn; by rewrite Htag|].
Qed.
End Calls.
End Wire.

(** ** Theorems *)

(** C12. The layers below the client's session are transparent: on a
    connection at rest, with anything behind it, a call whose context is not
    done goes through the transport, the codec, the frames and the server's
    loop, each goroutine taking its next step when it is its turn, and returns
    what it returns when the message is handed to the handler and the response
    handed back; the server's state is the same, and the connection is at
    rest again.  This is for a request that fits the widths of the protocol
    and is no Tflush, which the handler gets as sent except that msize cuts a
    Tread's count or a Twrite's data; and for a handler that returns, with an
    answer or error that fits the widths and msize.  Of the times in a stat
    record the wire keeps the seconds ([carry]). *)
Theorem wire_call codec `{!CodecLaws codec} msize {St A}
    (handler : context → Message → St → result error Message * St)
    (assert : Message → option A) n s msg g m :
  23 ≤ msize < 2 ^ 32 → resting msize n →
  wf_Fcall (carry (newFcall (next n) msg)) → frame_size (newFcall (next n) msg) < 2 ^ 32 →
  truncated msize (carry (newFcall (next n) msg)) = Ok g → Fcall_Message g = Some m →
  (∀ old, m ≠ MessageTflush old) → answers_fit msize (next n) (fst (handler None m s)) →
  ∃ n', resting msize n' ∧
    call (RoundTripper0 := wire_send codec handler) None msg assert (n, s) =
    let '(r, s') := call (RoundTripper0 := loopback (carried handler) (next n)) None m assert s in
    (r, (n', s')).
Proof.
  intros Hm Hn Hw Hs Hg Hmsg Hnf Hfit.
  destruct (wire_send_loopback codec msize Hm handler n s msg g m) as (n' & Hn' & E); try done.
  exists n'. split; [done|]. unfold call, send. rewrite E.
  destruct (loopback (carried handler) (next n) None m s) as [[[resp|]|e|x|x] s']; cbn [fst snd]; try done.
Qed.

(** Tstat of the root of a sleepfs, whose times are Go's zero time, over a new
    connection. *)
Definition stat_reply (m : Message) : option Dir :=
  match m with MessageRstat d => Some d | _ => None end.
Definition stat_1 : Message := MessageTstat 1.

Lemma wire_call_witness :
  ∃ n', resting 256 n' ∧
    call (RoundTripper0 := wire_send codec9p (Handle 256)) None stat_1 stat_reply
      (new_network 256 None None, sleep_attached) =
    let '(r, s') := call (RoundTripper0 := loopback (carried (Handle 256)) 1) None stat_1 stat_reply
                      sleep_attached in
    (r, (n', s')).
Proof.
  assert (fst (Handle 256 None stat_1 sleep_attached) = Ok (MessageRstat (SleepFS.Info []))) as E
    by (vm_compute; reflexivity).
  apply (wire_call codec9p 256 (Handle 256) stat_reply (new_network 256 None None) sleep_attached
           stat_1 (newFcall 1 stat_1) stat_1);
    [ lia
    | apply connected_resting; lia
    | apply (bool_decide_unpack _); vm_compute; exact I
    | vm_compute; reflexivity
    | vm_compute; reflexivity
    | reflexivity
    | intros old; discriminate
    | ].
  rewrite E. split; [apply (bool_decide_unpack _); vm_compute; exact I|vm_compute; reflexivity].
Defined.
End Wire.
