(* ===== verification/Late.v ===== *)
(** * Late: a read that times out inside a frame

    Every read of a channel has a deadline, and when it passes inside a frame
    the bytes that have come are lost: the reader tries again, at the rest of
    the frame (the BUG comment of transport.go, line 151).  What that does to
    a client: the bytes of a file it reads are taken for a message of the
    server. *)
From S2P Require Import Prelude Types Encoding EncodingFacts Codec Channel Transport ServeConn.
From S2P Require Import FileSys SFileSys SessionSpec Session SleepFS SSession CSession Network Wire.

Module Late.
Import Network.Network Wire.Wire.

(** The server answers a Tread with a file that holds the message [g], as it
    would be on the wire. *)
Definition file_of (g : Fcall) : bytes := sendmsg (wire_fcall g).
Definition read_of (g : Fcall) : Message := MessageTread 5 0 (frame_size g).
Definition answer_of (g : Fcall) : Fcall := newFcall 1 (MessageRread (file_of g)).

(** The head of that answer, up to the data. *)
Definition head_of (g : Fcall) : bytes := take 11 (sendmsg (wire_fcall (answer_of g))).

Lemma answer_bytes g : sendmsg (wire_fcall (answer_of g)) = head_of g ++ file_of g.
Proof.
  assert (∃ h, length h = 11%nat ∧ sendmsg (wire_fcall (answer_of g)) = h ++ file_of g)
    as (h & Hh & E).
  { unfold sendmsg at 1, answer_of, wire_fcall at 2, newFcall.
    cbn [Fcall_Type Fcall_Tag Fcall_Message wire_message]. unfold wire_data. rewrite !app_assoc.
    eexists. split; [|reflexivity]. by rewrite !length_app, !length_le_put. }
  unfold head_of. rewrite E. by rewrite take_len_app.
Qed.

Lemma length_head g : length (head_of g) = 11%nat.
Proof.
  pose proof (f_equal (@length _) (answer_bytes g)) as E. unfold head_of in *.
  rewrite length_app, length_take in *. unfold file_of in E. unfold sendmsg in *.
  rewrite !length_app, !length_le_put in *. unfold answer_of, wire_fcall, newFcall in *.
  cbn [Fcall_Type Fcall_Tag Fcall_Message wire_message] in *. unfold wire_data in *.
  rewrite !length_app, !length_le_put in *. lia.
Qed.

Section Late.
Context (codec : Codec) `{!CodecLaws codec} (msize : Z) (Hmsize : 23 ≤ msize < 2 ^ 32).
Context (g : Fcall) (Hg : fits msize g) (Hsize : 11 + frame_size g ≤ msize).

Lemma frame_answer : frame_size (answer_of g) = 11 + frame_size g.
Proof using.
  unfold frame_size at 1. unfold answer_of. rewrite wire_fcall_len. cbn [wire_message]. unfold wire_data.
  rewrite len_app, len_le_put. unfold file_of. unfold sendmsg, frame_size. rewrite len_app, len_le_put. lia.
Qed.

Lemma answer_fits : fits msize (answer_of g).
Proof using Hmsize Hsize.
  pose proof frame_answer as Hf.
  assert (len (file_of g) = frame_size g) as Hl.
  { unfold file_of, sendmsg, frame_size. rewrite len_app, len_le_put. lia. }
  split.
  - split; [done|]. split; [done|]. unfold wf_Message. cbn [Message_fields].
    rewrite Forall_cons, Forall_nil. split; [|done]. cbn [wf1 wf0]. lia.
  - unfold truncated. cbn [Fcall_Message answer_of newFcall]. by rewrite decide_True by lia.
Qed.

(** A part of one frame is not a frame. *)
Lemma head_short : whole_frame (head_of g) = false.
Proof using Hmsize Hsize.
  pose proof (sendmsg_size msize Hmsize (answer_of g) [] answer_fits) as Hs.
  rewrite app_nil_r in Hs. unfold whole_frame.
  assert (take 4 (head_of g) = take 4 (sendmsg (wire_fcall (answer_of g)))) as ->
    by (unfold head_of; rewrite take_take; done).
  rewrite Hs, frame_answer. apply andb_false_iff. right. apply bool_decide_eq_false_2.
  unfold len. rewrite length_head. pose proof (len_nonneg (wire_fcall g)). unfold frame_size. lia.
Qed.

(** The client with call 1 outstanding under tag 1, and the server that has
    answered it. *)
Definition waiting (ch : channel) : transport :=
  mkTransport None ch false false None {[1 := 1]} 1 Transport.Reading
    {[1 := newFcallRequest None (read_of g)]} {[1 := Waiting]}.
Definition answered (buf out : bytes) (rq : Fcall) : conn :=
  mkConn None (set_out (quiet_channel msize buf) out) None ∅
    {[1 := mkRequest rq false Gone]} Selecting ServeConn.Reading true None.

Definition sent_read : Fcall := newFcall 1 (read_of g).
Definition up_to_answer (rq : Fcall) : list label :=
  [Client (Wrote 1 sent_read); Server (Accept 1 rq); Server (Handled 1 (answer_of g));
   Server (Reply 1 1 (answer_of g))].

Lemma sent_read_arrives : ∃ rq, wf_Fcall (carry sent_read) ∧ truncated msize (carry sent_read) = Ok rq ∧
  ∀ old, Fcall_Message rq ≠ Some (MessageTflush old).
Proof using Hmsize Hsize.
  eexists. split_and!; [|reflexivity|done].
  assert (in_width 32 (frame_size g)) as Hw.
  { pose proof (len_nonneg (wire_fcall g)). unfold in_width, frame_size in *. lia. }
  split; [done|]. split; [done|]. change (wf_Message (read_of g)). unfold wf_Message, read_of.
  cbn [Message_fields]. rewrite !Forall_cons, Forall_nil. by split_and!.
Qed.

Lemma answered_reachable : ∃ buf rq,
  Network.reachable codec msize None None (up_to_answer rq)
    (mkNetwork (waiting (quiet_channel msize (zero_bytes msize)))
       (answered buf (head_of g ++ file_of g) rq) false).
Proof using All.
  destruct sent_read_arrives as (rq & Hw & Ht & Hnf).
  assert (len (zero_bytes msize) = msize) as Hz.
  { unfold zero_bytes, len. rewrite length_replicate. lia. }
  destruct (request_arrives codec msize Hmsize false 0 (zero_bytes msize) (zero_bytes msize) ∅ ∅ ∅ false
    1 1 (read_of g) rq []) as (cbuf & Hcb & Hex); try done; try by rewrite lookup_empty.
  exists cbuf, rq.
  eapply net_exec_all_reachable; [eapply net_exec_all_reachable; [|exact Hex]|].
  - apply reach_connected; by apply idle_new.
  - rewrite <-answer_bytes. change (next_tag 0) with 1.
    assert (handler_response rq (inr (MessageRread (file_of g))) = answer_of g) as Er.
    { unfold handler_response. by rewrite (truncated_tag msize _ _ Ht). }
    assert (carry (answer_of g) = answer_of g) as Ec by done.
    pose proof answer_fits as Hfit.
    assert (wf_Fcall (carry (answer_of g)) ∧ frame_size (answer_of g) < 2 ^ 32 ∧
      truncated msize (carry (answer_of g)) = Ok (answer_of g)) as (A1 & A2 & A3).
    { rewrite Ec, frame_answer. destruct Hfit. split_and!; [done|lia|done]. }
    etransitivity; [apply (server_answers_request codec msize Hmsize 1 1 rq
      (inr (MessageRread (file_of g))) (answer_of g)); rewrite ?Er; try done|].
    + by rewrite (truncated_tag msize _ _ Ht).
    + by rewrite Er.
Qed.

(** The head of the answer has come; the read of it times out; the file
    comes. *)
Lemma lost_head_reachable : ∃ buf buf' rq,
  len buf' = msize ∧
  Network.reachable codec msize None None (up_to_answer rq ++ [ClientLate (head_of g)])
    (mkNetwork (waiting (mkChannel (file_of g) [] None false msize buf'))
       (answered buf [] rq) false).
Proof using All.
  destruct answered_reachable as (buf & rq & Hr). set (zb := zero_bytes msize) in *.
  assert (len zb = msize) as Hz by (unfold zb, zero_bytes, len; rewrite length_replicate; lia).
  assert (∀ h out, sent (length h) (set_out (quiet_channel msize buf) (h ++ out))
            = set_out (quiet_channel msize buf) out) as Hsent.
  { intros h out. unfold sent. cbn [set_out ch_out]. by rewrite drop_app_length. }
  set (ch := arrived (head_of g) (quiet_channel msize zb)).
  destruct (read_late codec msize Hmsize ch (file_of g) [answer_of g]) as (buf' & Hb & Hlate).
  { by apply (proj1 (idle_new msize Hmsize)). }
  { unfold stream. cbn [fmap list_fmap concat]. rewrite app_nil_r. symmetry. apply answer_bytes. }
  { constructor; [apply answer_fits|constructor]. }
  { apply head_short. }
  exists buf, buf', rq. split; [unfold len in *; rewrite Hb; exact Hz|].
  rewrite <-(app_nil_r (_ ++ [ClientLate _])).
  eapply Network.reach_step; [eapply Network.reach_step|].
  - rewrite <-(app_nil_r (up_to_answer rq)). eapply Network.reach_step; [exact Hr|].
    apply (Network.step_down codec (length (head_of g))).
  - cbn [c_ch answered]. rewrite Hsent. cbn [set_out ch_out]. rewrite take_app_length.
    apply (Network.step_client_late codec); [done| |].
    + split_and!; [done|done|apply head_short|done].
    + cbn. pose proof length_head g. by destruct (head_of g).
  - pose proof (Network.step_down codec (length (file_of g))
      (waiting (mkChannel [] [] None false msize buf')) (answered buf (file_of g) rq) false) as Hst.
    cbn [c_ch answered set_out ch_out] in Hst. rewrite firstn_all in Hst.
    pose proof (Hsent (file_of g) []) as Hs. rewrite app_nil_r in Hs. rewrite Hs in Hst.
    assert (Transport.reader_late codec (length (head_of g)) (waiting ch)
            = waiting (mkChannel [] [] None false msize buf')) as E.
    { unfold Transport.reader_late. cbn [t_ctx t_ch waiting]. change (head_of g) with (ch_in ch). by rewrite Hlate. }
    rewrite <-E in Hst at 1. exact Hst.
Qed.

(** Then the file is read as a message, and the handle loop takes it. *)
Lemma file_taken : ∃ rq ls n,
  Network.reachable codec msize None None (up_to_answer rq ++ [ClientLate (head_of g)] ++ ls) n ∧
  if decide (Fcall_Tag g = 1) then ls = [Client (Delivered 1 g)]
  else ls = [] ∧ t_fault (n_client n) = Some UnknownTag.
Proof using All.
  destruct lost_head_reachable as (buf & buf' & rq & Hb & Hr).
  set (ch := mkChannel (file_of g) [] None false msize buf') in *.
  destruct (read_one codec msize Hmsize ch g) as (b & _ & Hrd); [done|done|done|].
  assert (whole_frame (file_of g) = true) as Hwf by (by apply (whole_one msize)).
  assert (exec codec MRead (mkNetwork (waiting ch) (answered buf [] rq) false)
    = Some ([], mkNetwork (Transport.set_reader (waiting (set_read ch [] b)) (Transport.Offering g))
                  (answered buf [] rq) false)) as Hread.
  { unfold exec, exec_client. cbn [t_fault waiting Transport.reader t_ch ch_in]. unfold ch at 1. cbn [ch_in].
    rewrite Hwf. unfold Transport.reader_read. cbn [t_ctx t_ch waiting]. by rewrite Hrd. }
  pose proof (reach_step codec msize None None _ _ _ _ Hr (net_exec_step codec _ _ _ _ Hread)) as Hr2.
  assert (∃ ls t, exec codec MDeliver
    (mkNetwork (Transport.set_reader (waiting (set_read ch [] b)) (Transport.Offering g)) (answered buf [] rq) false)
    = Some (Client <$> ls, mkNetwork t (answered buf [] rq) false) ∧
    if decide (Fcall_Tag g = 1) then ls = [Delivered 1 g]
    else ls = [] ∧ t_fault t = Some UnknownTag) as (ls & t & Hd & Hls).
  { unfold exec, exec_client. cbn [t_fault waiting Transport.set_reader Transport.reader t_closed].
    unfold handle_response. cbn [outstanding Transport.set_reader waiting].
    case_decide as Ht.
    - rewrite Ht, lookup_singleton_eq. eauto.
    - rewrite lookup_singleton_ne by done. eauto. }
  exists rq, (Client <$> ls), (mkNetwork t (answered buf [] rq) false). split.
  - rewrite app_assoc. rewrite app_nil_r in Hr2.
    exact (reach_step codec msize None None _ _ _ _ Hr2 (net_exec_step codec _ _ _ _ Hd)).
  - case_decide; [by rewrite Hls|]. by destruct Hls as [-> ?].
Qed.

Lemma sound_up rq : Forall sound_label (up_to_answer rq).
Proof using Hmsize Hsize.
  destruct sent_read_arrives as (_ & Hw & _). pose proof answer_fits as [Ha _].
  pose proof frame_answer as Hf. assert (frame_size (answer_of g) < 2 ^ 32) by (rewrite Hf; lia).
  assert (carry (answer_of g) = answer_of g) as Ec by done.
  unfold up_to_answer. rewrite !Forall_cons, Forall_nil.
  refine (conj (conj Hw (conj _ _)) (conj I (conj (conj _ _) (conj I I)))); [done..|by rewrite Ec|done].
Qed.
End Late.

(** ** Theorem *)

(** C30. What the BUG comment of the transport's reader warns of: a read that
    times out inside a frame is tried again at the rest of it.  The client
    reads a file, the server answers, and the read of the answer times out
    between its header and its data (all else being as it should: requests
    and answers well-formed).  Then the bytes of the file are read as the
    next message: whatever message [g] they hold, if its tag is that of a
    call it is delivered to the call as the server's answer, and otherwise
    the handle loop panics and takes the process down. *)
Theorem late_read_desync codec `{!CodecLaws codec} msize g :
  23 ≤ msize < 2 ^ 32 → wf_Fcall g → truncated msize g = Ok g → 11 + frame_size g ≤ msize →
  ∃ tr n,
    Network.reachable codec msize None None tr n ∧
    (∀ l, l ∈ tr → sound_label l ∨ l = ClientLate (head_of g)) ∧
    Server (Handled 1 (newFcall 1 (MessageRread (sendmsg (wire_fcall g))))) ∈ tr ∧
    if decide (Fcall_Tag g = 1) then Client (Delivered 1 g) ∈ tr
    else t_fault (n_client n) = Some UnknownTag.
Proof.
  intros Hm Hw Ht Hs. destruct (file_taken codec msize Hm g (conj Hw Ht) Hs) as (rq & ls & n & Hr & Hls).
  exists (up_to_answer g rq ++ [ClientLate (head_of g)] ++ ls), n. split; [exact Hr|]. split_and!.
  - intros l. rewrite !elem_of_app, list_elem_of_singleton. intros [Hl|[->|Hl]]; [|by right|].
    + left. pose proof (sound_up msize Hm g Hs rq) as Hsd. rewrite Forall_forall in Hsd. by apply Hsd.
    + left. case_decide; [subst ls; by apply list_elem_of_singleton in Hl as ->|].
      destruct Hls as [-> _]. by apply elem_of_nil in Hl.
  - apply elem_of_app. left. do 2 right. by left.
  - case_decide; [|apply Hls]. subst ls. apply elem_of_app. right. right. by left.
Qed.

(** A file that holds an Rclunk with tag 5 takes down a client that reads it. *)
Lemma late_read_desync_witness :
  ∃ tr n,
    Network.reachable codec9p 64 None None tr n ∧
    (∀ l, l ∈ tr → sound_label l ∨ l = ClientLate (head_of (newFcall 5 MessageRclunk))) ∧
    Server (Handled 1 (newFcall 1 (MessageRread [x07; x00; x00; x00; x79; x05; x00]))) ∈ tr ∧
    t_fault (n_client n) = Some UnknownTag.
Proof.
  apply (late_read_desync codec9p 64 (newFcall 5 MessageRclunk));
    [lia | apply (bool_decide_unpack _); vm_compute; exact I | vm_compute; reflexivity
    | vm_compute; discriminate].
Defined.
End Late.
