(* ===== verification/Typed.v ===== *)
(** * Typed: what the session answers is well-formed

    The handler's responses, whatever runs at the same time: each is of the
    type that answers its request, and if the file server's results fit the
    widths of the protocol ([TypedFS]), so do the fields of the response.  It
    is proved of the programs of Concurrent, where an action may find the
    session in any state that satisfies the invariant ([typed_session]). *)
From S2P Require Import Prelude Types Encoding EncodingFacts Codec Channel Path Readdir.
From S2P Require Import FileSys SFileSys SessionSpec Session SleepFS SSession Concurrent.
From S2P Require Import RamFS Typing RamTyped.

Module Typed.
Import Typing.

(** ** The types of messages *)

(** [a] is the message that answers [m]. *)
Definition answers (m a : Message) : bool :=
  match m, a with
  | MessageTauth _ _ _, MessageRauth _ | MessageTattach _ _ _ _, MessageRattach _
  | MessageTwalk _ _ _, MessageRwalk _ | MessageTopen _ _, MessageRopen _ _
  | MessageTcreate _ _ _ _, MessageRcreate _ _ | MessageTread _ _ _, MessageRread _
  | MessageTwrite _ _ _, MessageRwrite _ | MessageTclunk _, MessageRclunk
  | MessageTremove _, MessageRremove | MessageTstat _, MessageRstat _
  | MessageTwstat _ _, MessageRwstat => true
  | _, _ => false
  end.

Lemma answers_type m a : answers m a = true → Type_ a = Type_ m + 1.
Proof. destruct m, a; done. Qed.

(** ** Reading directories *)

Section Dirs.
Context {S : Type} (next : S → result error Dir * S) (k : Z) (I : S → Prop).
Context (Hnext : ∀ s, I s → good k any (fst (next s)) ∧ I (snd (next s))).

(** A read has no error of its own; those of the source it returns. *)
Definition read_good (x : result error (bytes * option error) * Readdir S) : Prop :=
  I (rd_next (snd x)) ∧
  match fst x with Ok (_, e) => short_opt k e | Err _ => False | _ => True end.

Lemma read_loop_good fuel cap p rd :
  I (rd_next rd) → read_good (read_loop NewCodec next fuel cap p rd).
Proof.
  revert p rd. induction fuel as [|fuel IH]; intros p rd HI; [done|]. cbn [read_loop].
  case_decide; [|done]. unfold take_next.
  assert (∀ d rd1, I (rd_next rd1) → read_good match Marshal NewCodec (VDir d) with
     | Ok dp => if decide (len p + len dp > cap)
                then (Ok (p, None), mkReaddir (rd_next rd1) (Some d) (rd_offset rd1))
                else read_loop NewCodec next fuel cap (p ++ dp) rd1
     | Err e => (Ok (p, Some e), rd1)
     | Panic w => (Panic w, rd1)
     | Hang w => (Hang w, rd1)
     end) as Hstep.
  { intros d rd1 H1. change (Marshal NewCodec (VDir d)) with (codec9p_Marshal (VDir d)).
    rewrite marshal_wire by (vm_compute; lia). case_decide; [done|by apply IH]. }
  destruct (rd_buf rd) as [d|]; [by apply Hstep|]. destruct (Hnext (rd_next rd) HI) as [Hn Hs].
  destruct (next (rd_next rd)) as [[d|e'|y|y] s]; [by apply Hstep|done..].
Qed.

Lemma Readdir_Read_good rd cap off :
  14 ≤ k → I (rd_next rd) → read_good (Readdir.Read NewCodec next rd cap off).
Proof.
  intros Hk HI. unfold Readdir.Read. case_decide; [done|].
  pose proof (read_loop_good (Datatypes.S (Z.to_nat cap)) cap [] rd HI) as [H1 H2].
  destruct (read_loop _ _ _ _ _ _) as [[[q e']| | |] rd1]; cbn in *; [|done..].
  split; [done|]. cbn. by case_decide.
Qed.
End Dirs.

Section Typed.
Context `{FS : FileSys} {TFS : TypedFS FS}.

Lemma mkNext1_good ctx st :
  ty_world st.2.2 →
  good text_max any (fst (mkNext1 (λ '(it, w), iter_Next ctx it w) st)) ∧
  ty_world (snd (mkNext1 (λ '(it, w), iter_Next ctx it w) st)).2.2.
Proof.
  destruct st as [[dirs done] [it w]]. cbn [snd]. intros Hw. unfold mkNext1.
  destruct done; [by split; [vm_compute|]|].
  destruct dirs; [|done]. destruct (ty_next ctx it w Hw) as [Hn Hs].
  destruct (iter_Next ctx it w) as [[[|d ds]|e|y|y] [it' w']]; done.
Qed.

Lemma dir_Read_good ctx rd n off w :
  0 ≤ n → ty_world w →
  good text_max (λ '(p, e), len p ≤ n ∧ short_opt text_max e) (fst (fst (dir_Read ctx rd n off w)))
  ∧ ty_world (snd (dir_Read ctx rd n off w)).
Proof.
  intros Hn Hw. destruct (dir_Read ctx rd n off w) as [[r rd'] w'] eqn:E. cbn.
  assert (∀ p e, r = Ok (p, e) → len p ≤ n) as Hlen.
  { intros p e ->. by eapply dir_Read_bound. }
  unfold dir_Read in E. destruct (rd_next rd) as [[dirs dn] it].
  pose proof (Readdir_Read_good (mkNext1 (λ '(it, w), iter_Next ctx it w)) text_max
    (λ st, ty_world st.2.2) (mkNext1_good ctx)
    (mkReaddir (dirs, dn, (it, w)) (rd_buf rd) (rd_offset rd)) n off ltac:(by vm_compute) Hw) as [H1 H2].
  destruct (Readdir.Read _ _ _ _ _) as [r1 rd1]. cbn [fst snd] in H1, H2.
  destruct (rd_next rd1) as [[? ?] [? ?]]. injection E as -> _ ->. split; [|exact H1].
  destruct r as [[p e]| | |]; [|done..]. split; [by eapply Hlen|done].
Qed.

(** ** Programs *)

(** An SFid holds entries and files of the file server. *)
Definition sf_ok (sf : SFid) : Prop :=
  opt_all ty_ent (sf_Ent sf) ∧
  match sf_File sf with Some (FUser f) => ty_file f | _ => True end.

(** The invariant of a session. *)
Definition typed_session (s : session) : Prop :=
  ty_world (s_world s) ∧ map_Forall (λ _ x, sf_ok x.2) (heap s).

(** From any typed state, and with others acting in between, the program
    keeps the state typed and its result is good. *)
Fixpoint yields {A} (k : Z) (P : A → Prop) (c : Concurrent.code A) : Prop :=
  match c with
  | Concurrent.Done r => good k P r
  | Concurrent.Act a c => ∀ s, typed_session s →
      typed_session (snd (Concurrent.perform a s)) ∧ yields k P (c (fst (Concurrent.perform a s)))
  end.

Lemma yields_run {A} k (P : A → Prop) (c : Concurrent.code A) s :
  typed_session s → yields k P c →
  good k P (fst (Concurrent.run c s)) ∧ typed_session (snd (Concurrent.run c s)).
Proof.
  revert s. induction c as [r|B a c IH]; intros s Hs Hy; [done|]. cbn.
  destruct (Concurrent.blocked a s); [done|]. specialize (Hy s Hs).
  destruct (Concurrent.perform a s) as [x s']. destruct Hy as [Hs' Hy]. by apply IH.
Qed.

Lemma yields_catch {A B} k k' (P : A → Prop) (Q : B → Prop) (c : Concurrent.code A) h :
  yields k P c → (∀ r, good k P r → yields k' Q (h r)) → yields k' Q (Concurrent.catch c h).
Proof.
  intros Hc Hh. induction c as [r|C a c IH]; cbn in *; [by apply Hh|].
  intros s Hs. destruct (Hc s Hs). auto.
Qed.

Lemma yields_bind {A B} k (P : A → Prop) (Q : B → Prop) (c : Concurrent.code A) f :
  yields k P c → (∀ a, P a → yields k Q (f a)) → yields k Q (c ≫= f).
Proof.
  intros Hc Hf. eapply yields_catch; [exact Hc|].
  intros [a|e|y|y] Hg; [by apply Hf|exact Hg|done|done].
Qed.

Lemma yields_try {A} k (P : A → Prop) (c : Concurrent.code A) :
  yields k P c →
  yields k (λ r, match r with inl e => short k e | inr a => P a end) (Concurrent.try c).
Proof. intros Hc. eapply yields_catch; [exact Hc|]. by intros []. Qed.

Lemma yields_finally {A} k (P : A → Prop) (c : Concurrent.code A) cleanup :
  yields k P c → yields k any cleanup → yields k P (Concurrent.finally c cleanup).
Proof.
  intros Hc Hcl. eapply yields_catch; [exact Hc|]. intros [a|e|y|y] Hg; cbn in *; try done;
    (eapply yields_bind; [exact Hcl|done]).
Qed.

Lemma yields_mono {A} k k' (P Q : A → Prop) (c : Concurrent.code A) :
  yields k P c → k ≤ k' → (∀ a, P a → Q a) → yields k' Q c.
Proof.
  intros Hc Hk HPQ. induction c as [r|C a c IH]; cbn in *; [by eapply good_mono|].
  intros s Hs. destruct (Hc s Hs). auto.
Qed.

Lemma yields_act {A} k (P : A → Prop) (a : Concurrent.action A) :
  (∀ s, typed_session s →
     good k P (fst (Concurrent.perform a s)) ∧ typed_session (snd (Concurrent.perform a s))) →
  yields k P (Concurrent.act a).
Proof. intros H s Hs. by destruct (H s Hs). Qed.

Lemma yields_world {A} (P : A → Prop) (m : World → result error A * World) :
  keeps ty_world P m → yields text_max P (Concurrent.act (Concurrent.AWorld m)).
Proof.
  intros Hm. apply yields_act. intros s [Hw Hh]. cbn. unfold world.
  destruct (Hm _ Hw) as [Hg Hw']. by destruct (m (s_world s)).
Qed.

Lemma yields_ask {A} k (P : A → Prop) (f : World → A) :
  (∀ w, ty_world w → P (f w)) → yields k P (Concurrent.ask f).
Proof. intros Hf s [Hw Hh]. cbn. split; [by split|by apply Hf]. Qed.

Lemma yields_fail {A} k (P : A → Prop) e : short k e → yields k P (Concurrent.fail e).
Proof. done. Qed.

Lemma yields_refail {A} k (P : A → Prop) (c : Concurrent.code A) :
  yields k P c → yields (k + 4) P (Concurrent.refail c).
Proof.
  intros Hc. eapply yields_catch; [exact Hc|]. intros [a|e|y|y] Hg; cbn in *; try done.
  assert (slen (Error_ (E9p (Error_ e))) = 4 + slen (Error_ e)) as E
    by (unfold slen; rewrite <-(Nat2Z.inj_add 4); reflexivity).
  unfold short in *. lia.
Qed.

Lemma sf_ok_new : sf_ok (mkSFid None None 0).
Proof. done. Qed.

Lemma typed_insert w rs rs' hp r b sf :
  typed_session (mkSession w rs hp) → sf_ok sf →
  typed_session (mkSession w rs' (<[r := (b, sf)]> hp)).
Proof. intros [Hw Hh] Hsf. split; [done|]. by apply map_Forall_insert_2. Qed.

Lemma typed_lookup s r b sf : typed_session s → heap s !! r = Some (b, sf) → sf_ok sf.
Proof. intros [_ Hh] Hr. exact (Hh _ _ Hr). Qed.

(** An SFid is read with what the invariant says, and written back so. *)
Lemma yields_get k r : yields k sf_ok (Concurrent.act (Concurrent.AGet r)).
Proof.
  apply yields_act. intros s Hs. cbn. unfold SFileSys.get.
  destruct (heap s !! r) as [[b sf]|] eqn:E; [|done]. split; [by eapply typed_lookup|done].
Qed.

Lemma yields_put k r sf : sf_ok sf → yields k any (Concurrent.act (Concurrent.APut r sf)).
Proof.
  intros Hsf. apply yields_act. intros [w rs hp] [Hw Hh]. cbn. split; [done|]. split; [done|].
  intros r' x Hx. cbn in Hx. apply lookup_alter_Some in Hx as [(-> & y & _ & ->)|[_ Hx]]; [done|].
  by apply (Hh r').
Qed.

(** The other actions that are no calls of the file server. *)
Definition quiet {A} (a : Concurrent.action A) : Prop :=
  match a with
  | Concurrent.AWorld _ | Concurrent.ADirRead _ _ _ _ _ | Concurrent.AGet _
  | Concurrent.APut _ _ => False
  | _ => True
  end.

Lemma yields_quiet {A} k (a : Concurrent.action A) :
  quiet a → yields k any (Concurrent.act a).
Proof.
  intros Hq. apply yields_act. intros [w rs hp] Hs. pose proof Hs as [Hw Hh].
  destruct a; try done; cbn; unfold lock, unlock, SFileSys.get, mbind, M_bind, mret, M_ret, new_locked,
    refs_Load, refs_Delete, refs_Store; cbn;
    repeat case_match; simplify_eq; (split; [done|]); cbn; try done;
    try (eapply typed_insert; [exact Hs|]; first [by eapply typed_lookup|apply sf_ok_new]).
Qed.

Lemma yields_dir {k} ctx r rd n off :
  0 ≤ n → text_max ≤ k →
  yields k (λ '(p, e), len p ≤ n ∧ short_opt k e)
    (Concurrent.act (Concurrent.ADirRead ctx r rd n off)).
Proof.
  intros Hn Hk. apply yields_act. intros s [Hw Hh]. cbn.
  destruct (dir_Read_good ctx rd n off (s_world s) Hn Hw) as [Hd Hw'].
  destruct (dir_Read ctx rd n off (s_world s)) as [[res rd'] w]. cbn in *. split.
  - eapply good_mono; [exact Hd|exact Hk|]. intros [p [e|]]; cbn; unfold short; intuition lia.
  - split; [done|]. intros r' x Hx. cbn in Hx.
    apply lookup_alter_Some in Hx as [(-> & y & Hy & ->)|[_ Hx]]; [|by apply (Hh r')].
    destruct (Hh _ _ Hy) as [He _]. by split.
Qed.
End Typed.

(** [yld] goes through a program: constant error texts, actions without
    errors, calls of the file server by their laws, and the lemmas about
    the operations called. *)
Ltac short_text := unfold short, text_max; vm_compute; discriminate.

Create HintDb yields.

(** The SFids a program writes. *)
Ltac sf_tac :=
  unfold sf_ok, opt_all in *; cbn [sf_Ent sf_File] in *;
  try match goal with |- context [FUser <$> ?o] => destruct o; cbn [fmap option_fmap option_map] in * end;
  repeat match goal with H : _ ∧ _ |- _ => destruct H end;
  repeat match goal with H : sf_Ent ?x = _, H' : context [sf_Ent ?x] |- _ => rewrite H in H' end;
  repeat match goal with H : sf_File ?x = _, H' : context [sf_File ?x] |- _ => rewrite H in H' end;
  solve [eauto | split; eauto].

Ltac yld_call :=
  first
    [ apply yields_quiet; exact I
    | apply yields_get
    | apply yields_put; sf_tac
    | solve [eauto with yields nocore]
    | apply yields_world;
      first [eapply ty_auth | eapply ty_attach | eapply ty_write | eapply ty_open_dir | eapply ty_walk
            | eapply ty_create | eapply ty_open | eapply ty_remove | eapply ty_clunk | eapply ty_stat
            | eapply ty_wstat]; sf_tac
    | apply (yields_ask _ wf_Qid); intros; apply ty_qid; [sf_tac|assumption]
    | apply (yields_ask _ (λ _, True)); done ].

Ltac yld :=
  repeat first
    [ progress intros
    | exact I
    | apply yields_fail; first [assumption | short_text]
    | case_decide
    | yld_call
    | eapply yields_bind; [yld_call|]
    | eapply yields_bind; [apply yields_try; yld_call|]
    | apply yields_finally; [|apply yields_quiet; exact I]
    | match goal with
      | |- yields _ _ (match ?x with _ => _ end) => destruct x eqn:?
      | |- yields _ _ (let '(_, _) := ?x in _) => destruct x
      end ].

Section Operations.
Context `{FS : FileSys} {TFS : TypedFS FS}.

Lemma yields_ret {A} k (P : A → Prop) a : P a → yields k P (mret a).
Proof. done. Qed.

Lemma yields_getRef fid : yields text_max any (Concurrent.getRef fid).
Proof. unfold Concurrent.getRef. yld. Qed.

Lemma yields_newRef fid : yields text_max any (Concurrent.newRef fid).
Proof. unfold Concurrent.newRef. yld. Qed.

Lemma yields_ent_of r : yields text_max ty_ent (Concurrent.ent_of r).
Proof. unfold Concurrent.ent_of. yld. apply yields_ret. sf_tac. Qed.

Lemma yields_link r ent : ty_ent ent → yields text_max any (Concurrent.link r ent).
Proof. intros He. unfold Concurrent.link. yld. Qed.

Lemma yields_nonnil {A} (P : A → Prop) (x : option A) :
  opt_all P x → yields text_max P (Concurrent.EnsureNonNil x).
Proof. intros Hx. unfold Concurrent.EnsureNonNil. destruct x; [exact Hx|short_text]. Qed.

Hint Resolve yields_nonnil yields_getRef yields_newRef yields_ent_of yields_link : yields.

Lemma yields_delRefAction ctx r remove : yields text_max any (Concurrent.delRefAction ctx r remove).
Proof.
  unfold Concurrent.delRefAction. eapply yields_bind; [yld_call|]. intros ent He.
  eapply yields_bind.
  { apply yields_try, (yields_world any). destruct remove; [by apply ty_remove|by apply ty_clunk]. }
  intros err2 Herr2. destruct err2 as [e|[]]; cbn [combine_errors]; yld.
Qed.
Hint Resolve yields_delRefAction : yields.

Lemma yields_delRef ctx fid remove : yields text_max any (Concurrent.delRef ctx fid remove).
Proof. unfold Concurrent.delRef. yld. Qed.
Hint Resolve yields_delRef : yields.

Lemma yields_aqid : yields text_max wf_Qid (mret aqid).
Proof. by vm_compute. Qed.
Hint Resolve yields_aqid : yields.

Lemma yields_Auth ctx afid uname aname :
  slen uname ≤ ty_text → yields text_max wf_Qid (Concurrent.Auth ctx afid uname aname).
Proof. intros Hu. unfold Concurrent.Auth. yld. Qed.

Lemma yields_Attach_new ctx fid uname aname af :
  slen uname ≤ ty_text → yields text_max wf_Qid (Concurrent.Attach_new ctx fid uname aname af).
Proof. intros Hu. unfold Concurrent.Attach_new. yld. Qed.
Hint Resolve yields_Attach_new : yields.

Lemma yields_Attach ctx fid afid uname aname :
  slen uname ≤ ty_text → yields text_max wf_Qid (Concurrent.Attach ctx fid afid uname aname).
Proof. intros Hu. unfold Concurrent.Attach. yld. Qed.

(** What a walk gives: qids, no more than names, and an entry. *)
Definition walked (names : list string) (x : list Qid * Dirent) : Prop :=
  Forall wf_Qid x.1 ∧ (length x.1 ≤ length names)%nat ∧ ty_ent x.2.

(** The names of a walk are short enough for the file server. *)
Definition short_names (names : list string) : Prop := Forall (λ n, slen n ≤ ty_name) names.

Lemma yields_walk_ent ctx ref names :
  short_names names → yields text_max (walked names) (Concurrent.walk_ent ctx ref names).
Proof.
  intros Hn. unfold Concurrent.walk_ent. eapply yields_bind; [yld_call|]. intros ent He.
  case_decide.
  - eapply yields_bind; [by apply yields_world, ty_walk|]. intros [qids e] (_ & _ & H2).
    eapply yields_bind; [by apply yields_nonnil|]. intros found Hf. apply yields_ret.
    split_and!; [constructor|cbn; lia|done].
  - eapply yields_bind; [yld_call|]. intros dir _. destruct (negb dir); [yld|].
    eapply yields_bind; [by apply yields_world, ty_walk|]. intros [qids e] (H1 & H2 & H3).
    eapply yields_bind; [by apply yields_nonnil|]. intros found Hf. by apply yields_ret.
Qed.
Hint Resolve yields_walk_ent : yields.

Definition qids_for (names : list string) (qids : list Qid) : Prop :=
  Forall wf_Qid qids ∧ (length qids ≤ length names)%nat.

Lemma qids_nil names : qids_for names [].
Proof. split; [constructor|cbn; lia]. Qed.

Lemma yields_drop {k} newfid newref :
  yields k any (Concurrent.act (Concurrent.ADelete newfid);; Concurrent.act (Concurrent.AUnlock newref)).
Proof. yld. Qed.
Hint Resolve yields_drop : yields.

Lemma yields_walk_same ctx ref names :
  short_names names → yields text_max (qids_for names) (Concurrent.walk_same ctx ref names).
Proof.
  intros Hn. unfold Concurrent.walk_same. case_decide; [apply qids_nil|].
  eapply yields_bind; [by apply yields_walk_ent|]. intros [qids found] (Hq & Hl & Hf).
  case_decide; [apply qids_nil|]. case_decide; [by split|].
  eapply yields_bind; [yld_call|]. intros ent He.
  eapply yields_bind; [by apply yields_try, (yields_world any), ty_clunk|]. intros _ _.
  eapply yields_bind; [by apply yields_link|]. intros _ _. by split.
Qed.
Hint Resolve yields_walk_same : yields.

Lemma yields_walk_new ctx ref newref newfid names :
  short_names names → yields text_max (qids_for names) (Concurrent.walk_new ctx ref newref newfid names).
Proof.
  intros Hn. unfold Concurrent.walk_new. cbv zeta.
  eapply yields_bind; [by apply yields_try, yields_walk_ent|].
  intros [e|[qids found]] Hq; [yld|]. destruct Hq as (Hq & Hl & Hf).
  case_decide; [|case_decide]; (eapply yields_bind; [by apply yields_quiet|]; intros _ _).
  - eapply yields_bind; [apply yields_drop|]. intros _ _. apply qids_nil.
  - eapply yields_bind; [apply yields_drop|]. intros _ _. by split.
  - apply yields_finally; [|by apply yields_quiet].
    eapply yields_bind; [by apply yields_link|]. intros _ _. by split.
Qed.
Hint Resolve yields_walk_new : yields.

Lemma yields_Walk ctx fid newfid names :
  short_names names → yields text_max (qids_for names) (Concurrent.Walk ctx fid newfid names).
Proof. intros Hn. unfold Concurrent.Walk. yld. Qed.

Lemma yields_Read ctx fid n off :
  0 ≤ n → yields text_max (λ '(p, e), len p ≤ n ∧ short_opt text_max e) (Concurrent.Read ctx fid n off).
Proof.
  intros Hn. unfold Concurrent.Read. eapply yields_bind; [yld_call|]. intros ref _.
  apply yields_finally; [|by apply yields_quiet].
  eapply yields_bind; [yld_call|]. intros sf Hsf. destruct (sf_File sf) as [file|] eqn:Hfile; [|yld].
  case_decide; [yld|]. destruct file as [f|rd]; cbn [Concurrent.File_Read]; [|by apply yields_dir].
  apply yields_world, ty_read; [sf_tac|done].
Qed.

Lemma yields_Write ctx fid p off :
  yields text_max (λ '(_, e), short_opt text_max e) (Concurrent.Write ctx fid p off).
Proof.
  unfold Concurrent.Write. eapply yields_bind; [yld_call|]. intros ref _.
  apply yields_finally; [|by apply yields_quiet].
  eapply yields_bind; [yld_call|]. intros sf Hsf. destruct (sf_File sf) as [file|] eqn:Hfile; [|yld].
  case_decide; [yld|]. destruct file as [f|rd]; cbn [Concurrent.File_Write]; [|cbn; short_text].
  apply yields_world, ty_write. sf_tac.
Qed.

Lemma yields_openLocked ctx sf mode :
  sf_ok sf → yields text_max sf_ok (Concurrent.openLocked ctx sf mode).
Proof.
  intros Hsf. unfold Concurrent.openLocked.
  destruct (sf_File sf) as [file|] eqn:Hfile; [yld|]. destruct (sf_Ent sf) as [ent|] eqn:He; [|yld].
  assert (ty_ent ent) as Hent by sf_tac.
  eapply yields_bind; [yld_call|]. intros dir _. destruct dir.
  - eapply yields_bind; [by apply yields_world, ty_open_dir|]. intros it _. apply yields_ret. by split.
  - eapply yields_bind; [by apply yields_world, ty_open|]. intros f Hf.
    eapply yields_bind; [by apply yields_nonnil|]. intros file Hfi. apply yields_ret. by split.
Qed.
Hint Resolve yields_openLocked : yields.

Definition opened (x : Qid * Z) : Prop := wf_Qid x.1 ∧ in_width 32 x.2.

Lemma yields_open_result sf : sf_ok sf → yields text_max opened (Concurrent.open_result sf).
Proof.
  intros Hsf. unfold Concurrent.open_result. destruct (sf_Ent sf) as [ent|] eqn:He; [|done].
  destruct (sf_File sf); [|done].
  eapply yields_bind; [apply (yields_ask _ wf_Qid); intros; apply ty_qid; [sf_tac|done]|]. intros q Hq.
  eapply yields_bind; [by apply (yields_ask _ any)|]. intros n _. split; [exact Hq|].
  pose proof (u32_range n). unfold in_width. cbn. lia.
Qed.
Hint Resolve yields_open_result : yields.

Lemma yields_Open ctx fid mode : yields text_max opened (Concurrent.Open ctx fid mode).
Proof. unfold Concurrent.Open. yld. Qed.

Lemma yields_create_ent ctx dirent name perm mode :
  ty_ent dirent → slen name ≤ ty_text → in_width 32 perm →
  yields (text_max + 4) (λ '(e, f), ty_ent e ∧ ty_file f) (Concurrent.create_ent ctx dirent name perm mode).
Proof.
  intros He Hn Hp. apply yields_refail.
  eapply yields_bind; [by apply yields_world, ty_create|]. intros [e f] [H1 H2].
  eapply yields_bind; [by apply yields_nonnil|]. intros ent Hent.
  eapply yields_bind; [by apply yields_nonnil|]. intros file Hf. by apply yields_ret.
Qed.

Lemma yields_weaker {A} (P : A → Prop) c : yields text_max P c → yields (text_max + 4) P c.
Proof. intros Hc. eapply yields_mono; [exact Hc|lia|done]. Qed.

Lemma short_again e : short text_max e → short (text_max + 4) (E9p (Error_ e)).
Proof.
  unfold short. assert (slen (Error_ (E9p (Error_ e))) = 4 + slen (Error_ e)) as ->
    by (unfold slen; rewrite <-(Nat2Z.inj_add 4); reflexivity). lia.
Qed.

Lemma yields_create_file ctx parent ent file mode newdir :
  ty_ent ent → ty_file file →
  yields (text_max + 4) (λ f, sf_ok (mkSFid (Some ent) f mode))
    (Concurrent.create_file ctx parent ent file mode newdir).
Proof.
  intros He Hf. unfold Concurrent.create_file. destruct newdir; [|by split].
  eapply yields_bind; [by apply yields_weaker, yields_try, yields_openLocked|].
  intros [e|next] Hr; [|split; [done|apply Hr]].
  eapply yields_bind; [apply yields_weaker, yields_try, yields_delRef|]. intros _ _.
  apply yields_fail. by apply short_again.
Qed.

Lemma yields_Create ctx parent name perm mode :
  slen name ≤ ty_text → in_width 32 perm →
  yields (text_max + 4) opened (Concurrent.Create ctx parent name perm mode).
Proof.
  intros Hn Hp. unfold Concurrent.Create. case_decide; [short_text|].
  eapply yields_bind; [apply yields_refail, yields_getRef|]. intros ref _.
  apply yields_finally; [|by apply yields_quiet].
  eapply yields_bind; [apply yields_weaker, yields_ent_of|]. intros dirent Hd.
  eapply yields_bind; [by apply (yields_ask _ any)|]. intros dir _.
  destruct (negb dir); [short_text|].
  eapply yields_bind; [by apply yields_create_ent|]. intros [ent file] [He Hf].
  eapply yields_bind; [by apply (yields_ask _ any)|]. intros newdir _.
  eapply yields_bind; [by apply yields_create_file|]. intros f Hsf.
  eapply yields_bind; [by apply yields_put|]. intros _ _. by apply yields_weaker, yields_open_result.
Qed.

Lemma yields_Stat ctx fid : yields text_max (λ d, wf_Dir (carry_Dir d)) (Concurrent.Stat ctx fid).
Proof. unfold Concurrent.Stat. yld. Qed.

Lemma yields_WStat ctx fid dir :
  wf_Dir dir → text_Dir ty_text dir → yields text_max any (Concurrent.WStat ctx fid dir).
Proof. intros Hd Ht. unfold Concurrent.WStat. yld. Qed.

(** ** The handler *)

(** A response that answers [m] and can be sent. *)
Definition answer (m a : Message) : Prop :=
  answers m a = true ∧ wf_Message (carry_Message a) ∧ len (wire_message a) + 7 < 2 ^ 32.

Lemma yields_respond {A} k (P : A → Prop) (Q : Message → Prop) (c : Concurrent.code A) f :
  yields k P c → (∀ a, P a → Q (f a)) → yields k Q (Concurrent.respond c f).
Proof. intros Hc Hf. eapply yields_bind; [exact Hc|]. intros a Ha. by apply Hf. Qed.

Lemma yields_respond_n {A} k (P : A → Prop) (Q : Message → Prop)
    (c : Concurrent.code (A * option error)) f :
  yields k (λ '(a, e), P a ∧ short_opt k e) c → (∀ a, P a → Q (f a)) →
  yields k Q (Concurrent.respond_n c f).
Proof.
  intros Hc Hf. eapply yields_bind; [exact Hc|]. intros [a [e|]] [Ha He]; [exact He|by apply Hf].
Qed.

Lemma len_wire_qids qids :
  len (concat (wire_qid <$> qids)) = 13 * len qids.
Proof.
  induction qids as [|q qids IH]; [done|]. cbn [fmap list_fmap concat]. rewrite len_app, IH, len_cons.
  unfold wire_qid. len_simpl. lia.
Qed.

Ltac wf_fields :=
  unfold wf_Message; cbn [carry_Message Message_fields]; rewrite ?Forall_cons, ?Forall_nil; cbn [wf1 wf0].

Lemma wf_qid_bytes q : len (wire_qid q) = 13.
Proof. unfold wire_qid. len_simpl. lia. Qed.

Lemma answer_walk fid newfid names qids :
  wf_Message (MessageTwalk fid newfid names) → qids_for names qids →
  answer (MessageTwalk fid newfid names) (MessageRwalk qids).
Proof.
  intros Hm [Hq Hl]. unfold wf_Message in Hm. cbn [Message_fields] in Hm.
  rewrite !Forall_cons in Hm. destruct Hm as (_ & _ & [Hn _] & _). unfold len in Hn.
  split; [done|]. assert (len qids < 2 ^ 16) as Hlen by (unfold len; lia).
  split; [by wf_fields|].
  cbn [wire_message]. unfold wire_list. rewrite len_app, len_le_put, len_wire_qids. unfold len. lia.
Qed.

Lemma answer_read msize fid off count data :
  11 ≤ msize < 2 ^ 32 → len data ≤ msize - 11 → answer (MessageTread fid off count) (MessageRread data).
Proof.
  intros Hm Hd. assert (len data < 2 ^ 32) as Hl by lia.
  split; [done|]. split; [by wf_fields|].
  cbn [wire_message]. unfold wire_data. len_simpl. lia.
Qed.

(** The texts that the file server gets to keep are short enough for it. *)
Definition modest (m : Message) : Prop :=
  match m with
  | MessageTauth _ uname _ | MessageTattach _ _ uname _ => slen uname ≤ ty_text
  | MessageTwalk _ _ names => short_names names
  | MessageTcreate _ name _ _ => slen name ≤ ty_text
  | MessageTwstat _ dir => text_Dir ty_text dir
  | _ => True
  end.

Lemma yields_Handle msize ctx m :
  11 ≤ msize < 2 ^ 32 → wf_Message m → modest m →
  yields (text_max + 4) (answer m) (Concurrent.Handle msize ctx m).
Proof.
  intros Hms Hm Hmod. destruct m; cbn [Concurrent.Handle]; try (apply yields_fail; short_text).
  - eapply yields_respond; [by apply yields_weaker, yields_Auth|]. intros q Hq.
    split; [done|]. split; [by wf_fields|]. cbn [wire_message]. rewrite wf_qid_bytes. lia.
  - eapply yields_respond; [by apply yields_weaker, yields_Attach|]. intros q Hq.
    split; [done|]. split; [by wf_fields|]. cbn [wire_message]. rewrite wf_qid_bytes. lia.
  - eapply yields_respond; [by apply yields_weaker, yields_Walk|]. intros qids. by apply answer_walk.
  - eapply yields_respond; [apply yields_weaker, yields_Open|]. intros [q n] [Hq Hn].
    split; [done|]. split; [by wf_fields|]. cbn [wire_message]. rewrite len_app, wf_qid_bytes, len_le_put. lia.
  - assert (in_width 32 Perm) as Hp.
    { unfold wf_Message in Hm. cbn [Message_fields] in Hm. rewrite !Forall_cons in Hm. apply Hm. }
    eapply yields_respond; [by apply yields_Create|]. intros [q n] [Hq Hn].
    split; [done|]. split; [by wf_fields|]. cbn [wire_message]. rewrite len_app, wf_qid_bytes, len_le_put. lia.
  - assert (0 ≤ Count) as Hc.
    { unfold wf_Message in Hm. cbn [Message_fields] in Hm. rewrite !Forall_cons in Hm. cbn in Hm. lia. }
    destruct (read_count_range msize Count Hc) as [Hn Hk]. specialize (Hk (proj1 Hms)).
    apply (yields_respond_n _ (λ p, len p ≤ msize - 11)).
    + eapply yields_mono; [apply yields_Read; lia|lia|]. intros [p e] [Hp He]. split; [lia|].
      destruct e; [cbn in *; unfold short in *; lia|done].
    + intros p. by apply answer_read.
  - apply (yields_respond_n _ (λ _, True)).
    + eapply yields_mono; [apply yields_Write|lia|]. intros [n e] He. split; [done|].
      destruct e; [cbn in *; unfold short in *; lia|done].
    + intros n _. assert (0 ≤ u32 n < 256 ^ 4) as Hn by apply u32_range.
      split; [done|]. split; [by wf_fields|]. cbn [wire_message]. rewrite len_le_put. lia.
  - eapply yields_respond; [apply yields_weaker, yields_delRef|]. intros _ _. by split_and!; [|wf_fields|].
  - eapply yields_respond; [apply yields_weaker, yields_delRef|]. intros _ _. by split_and!; [|wf_fields|].
  - eapply yields_respond; [apply yields_weaker, yields_Stat|]. intros d Hd. split; [done|].
    split; [by wf_fields|]. destruct Hd as [_ Hl]. cbn [wire_message]. rewrite <-wire_carry_dir.
    unfold wire_dir. len_simpl. lia.
  - assert (wf_Dir Stat) as Hd.
    { unfold wf_Message in Hm. cbn [Message_fields] in Hm. rewrite !Forall_cons in Hm. apply Hm. }
    eapply yields_respond; [by apply yields_weaker, yields_WStat|]. intros _ _. by split_and!; [|wf_fields|].
Qed.

(** The goroutines of a session and its state. *)
Record well_typed (conf : Concurrent.config) : Prop := mkTyped {
  wt_session : typed_session (Concurrent.shared conf);
  wt_threads i t : Concurrent.threads conf !! i = Some t →
    yields (text_max + 4) (answer (Concurrent.t_msg t)) (Concurrent.t_code t)
}.

Lemma typed_new w : ty_world w → typed_session (SFileSys_new w).
Proof. intros Hw. split; [exact Hw|]. intros r x Hx. cbn in Hx. by rewrite lookup_empty in Hx. Qed.

Lemma well_typed_arrive msize ctx m conf :
  11 ≤ msize < 2 ^ 32 → wf_Message m → modest m → well_typed conf →
  well_typed (Concurrent.arrive msize ctx m conf).
Proof.
  intros Hms Hm Hmod [Hs Ht]. split; [exact Hs|]. intros i t. unfold Concurrent.arrive. cbn.
  intros [Hi|[_ Hi]]%lookup_app_Some; [by eapply Ht|].
  apply list_lookup_singleton_Some in Hi as [_ <-]. cbn. by apply yields_Handle.
Qed.

Lemma well_typed_turn i conf conf' :
  well_typed conf → Concurrent.turn i conf = Some conf' → well_typed conf'.
Proof.
  intros [Hs Ht] Hturn. unfold Concurrent.turn in Hturn.
  destruct (Concurrent.threads conf !! i) as [t|] eqn:Hi; [|done]. cbn in Hturn.
  pose proof (Ht _ _ Hi) as Hr.
  destruct (Concurrent.t_code t) as [x|B a k]; [done|].
  destruct (Concurrent.blocked a _); [done|].
  destruct (Hr (Concurrent.shared conf) Hs) as [Hs' Hr'].
  destruct (Concurrent.perform a _) as [x s'].
  injection Hturn as <-. split; [exact Hs'|]. intros j t' Hj. cbn in Hj.
  apply list_lookup_insert_Some in Hj as [(-> & <- & _)|[_ Hj]]; [exact Hr'|by eapply Ht].
Qed.
End Operations.

(** ** Theorems *)

(** C13. The session is typed, over a file server whose results fit the
    protocol: in any typed state a request that fits the protocol, with texts
    no longer than the file server's bounds ([modest]), under an msize of 11 or
    more, gets a response of the type that answers it, well-formed as the wire
    carries it, or an error whose text fits a message, or the call does not
    return (panic or blocking); and the state is typed again, whatever
    happened. *)
Theorem handle_typed `{FS : FileSys} {TFS : TypedFS FS} msize ctx m (s : session) :
  11 ≤ msize < 2 ^ 32 → wf_Message m → modest m → typed_session s →
  typed_session (snd (SSession.Handle msize ctx m s)) ∧
  match fst (SSession.Handle msize ctx m s) with
  | Ok a => answers m a = true ∧ wf_Message (carry_Message a) ∧ len (wire_message a) + 7 < 2 ^ 32
  | Err e => slen (Error_ e) < 2 ^ 16
  | Panic _ | Hang _ => True
  end.
Proof.
  intros Hms Hm Hmod Hs.
  destruct (yields_run _ _ _ s Hs (yields_Handle msize ctx m Hms Hm Hmod)) as [Hg Hs'].
  rewrite Concurrent.Handle_solo in Hg, Hs'. split; [exact Hs'|].
  destruct (fst _); cbn in *; try done. unfold short, text_max in Hg. lia.
Qed.

(** ramfs: a user attaches and asks for the root's stat record. *)
Definition ram_map : FileSys := RamFS.ramServer map_to_list.
Definition new_ram : @session ram_map :=
  SFileSys_new (FS := ram_map) (RamFS.fserver (mkTime 1700000000 123456789)).
Definition attached_ram : @session ram_map :=
  snd (SSession.Handle 256 None (MessageTattach 1 NOFID "u" "/") new_ram).

Lemma handle_typed_witness :
  fst (SSession.Handle 256 None (MessageTstat 1) attached_ram) =
    Ok (MessageRstat (RamFS.newDir (mkTime 1700000000 123456789) 1 "/" "root" (Z.lor DMDIR 509))) ∧
  typed_session (TFS := RamTyped.ramServer_typed map_to_list)
    (snd (SSession.Handle 256 None (MessageTstat 1) attached_ram)).
Proof.
  split; [vm_compute; reflexivity|].
  apply (handle_typed (TFS := RamTyped.ramServer_typed map_to_list) 256 None (MessageTstat 1) attached_ram);
    [lia|apply (bool_decide_unpack _); vm_compute; exact I|exact I|].
  apply (handle_typed (TFS := RamTyped.ramServer_typed map_to_list) 256 None
           (MessageTattach 1 NOFID "u" "/") new_ram);
    [lia|apply (bool_decide_unpack _); vm_compute; exact I|vm_compute; discriminate|].
  apply (typed_new (TFS := RamTyped.ramServer_typed map_to_list)).
  by apply RamTyped.ram_world_new.
Defined.
End Typed.
