(* ===== verification/System.v ===== *)
(** * System: client and server as a whole

    Everything between a caller of the client and the file server behind the
    server: the client's transport, the connection, the server's loop, and
    the goroutines that handle requests on the shared session.  [Network] has
    an arbitrary handler, [Server] an arbitrary peer; here the server of one
    is the server of the other, and what is proved of either holds. *)
From S2P Require Import Prelude Types Encoding EncodingFacts Codec Channel Transport ServeConn.
From S2P Require Import FileSys SFileSys SessionSpec Session SleepFS SSession.
From S2P Require Import Concurrent RaceFree Server Network RamFS Typing RamTyped Typed.

Module System.
Import Network.Network RamFS RamTyped Typing Typed.

(** ** The types of messages *)

(** msize cuts neither an answer nor the type of a request. *)
Lemma truncated_answer msize tag m a f :
  answers m a = true → truncated msize (carry (newFcall tag a)) = Ok f →
  f = newFcall tag (carry_Message a).
Proof.
  intros Ha. rewrite carry_newFcall.
  destruct m, a; try done; unfold truncated, newFcall; cbn [carry_Message Fcall_Message];
    case_decide; by intros [= <-].
Qed.

Lemma truncated_type msize f f' :
  truncated msize (carry f) = Ok f' → Fcall_Type f' = Fcall_Type f.
Proof.
  unfold truncated, carry. destruct f as [typ tag [[]|]]; cbn -[frame_size carry_Dir];
    repeat case_decide; by intros [= <-].
Qed.

Lemma truncated_request msize w g m a :
  truncated msize (carry w) = Ok g → Fcall_Message w = Some m →
  answers (default MessageRclunk (Fcall_Message g)) a = true → answers m a = true.
Proof.
  destruct w as [typ tag om]. intros Ht E. cbn in E. subst om. revert Ht.
  unfold truncated, carry. destruct m; cbn -[frame_size carry_Dir]; repeat case_decide; by intros [= <-].
Qed.

Section Results.
Context `{FS : FileSys}.

(** Whatever its actions give, the program's value satisfies [P]. *)
Fixpoint results {A} (P : A → Prop) (c : Concurrent.code A) : Prop :=
  match c with
  | Concurrent.Done r => match r with Ok a => P a | _ => True end
  | Concurrent.Act _ k => ∀ x, results P (k x)
  end.

Lemma results_catch {A B} (P : B → Prop) (c : Concurrent.code A)
    (h : result error A → Concurrent.code B) :
  (∀ r, results P (h r)) → results P (Concurrent.catch c h).
Proof. intros Hh. induction c as [r|C a k IH]; cbn; [apply Hh|]. intros x. apply IH. Qed.

Lemma results_respond {A} (P : Message → Prop) (c : Concurrent.code A) k :
  (∀ a, P (k a)) → results P (Concurrent.respond c k).
Proof. intros Hk. apply results_catch. intros []; cbn; auto. Qed.

Lemma results_respond_n {A} (P : Message → Prop) (c : Concurrent.code (A * option error)) k :
  (∀ a, P (k a)) → results P (Concurrent.respond_n c k).
Proof. intros Hk. apply results_catch. intros [[a [e|]]|e|y|y]; cbn; auto. Qed.

Lemma results_Handle msize ctx m :
  results (λ a, answers m a = true) (Concurrent.Handle msize ctx m).
Proof.
  destruct m; try exact I;
    first [apply results_respond | apply results_respond_n]; by intros; repeat case_match.
Qed.

(** The goroutines return answers to their own messages. *)
Definition typed (conf : Concurrent.config) : Prop :=
  ∀ i t, Concurrent.threads conf !! i = Some t →
    results (λ a, answers (Concurrent.t_msg t) a = true) (Concurrent.t_code t).

Lemma typed_arrive msize ctx m conf : typed conf → typed (Concurrent.arrive msize ctx m conf).
Proof.
  intros Ht i t. unfold Concurrent.arrive. cbn.
  intros [Hi|[_ Hi]]%lookup_app_Some; [by eapply Ht|].
  apply list_lookup_singleton_Some in Hi as [_ <-]. apply results_Handle.
Qed.

Lemma typed_turn i conf conf' : typed conf → Concurrent.turn i conf = Some conf' → typed conf'.
Proof.
  intros Ht Hturn. unfold Concurrent.turn in Hturn.
  destruct (Concurrent.threads conf !! i) as [t|] eqn:Hi; [|done]. cbn in Hturn.
  pose proof (Ht _ _ Hi) as Hr.
  destruct (Concurrent.t_code t) as [x|B a k]; [done|].
  destruct (Concurrent.blocked a _); [done|]. destruct (Concurrent.perform a _) as [x s'].
  injection Hturn as <-. intros j t' Hj. cbn in Hj.
  apply list_lookup_insert_Some in Hj as [(-> & <- & _)|[_ Hj]]; [apply Hr|by eapply Ht].
Qed.
End Results.

Section System.
Context `{FS : FileSys} (codec : Codec) `{!CodecLaws codec} (msize : Z) (Hmsize : 23 ≤ msize < 2 ^ 32).

Record system := mkSystem {
  sy_client : transport;
  sy_server : Server.server;
  sy_down : bool
}.

(** The part of a system that [Network] describes. *)
Definition net_of (sy : system) : network :=
  mkNetwork (sy_client sy) (Server.sv_conn (sy_server sy)) (sy_down sy).

Definition on_conn (f : conn → conn) (sv : Server.server) : Server.server :=
  Server.mkServer (f (Server.sv_conn sv)) (Server.sv_conf sv) (Server.sv_of sv).

(** The steps of [Network], with those of the whole server. *)
Inductive step : system → list label → system → Prop :=
| step_client t sv d ls t' :
    Transport.step codec t ls t' → client_reads codec t d t' →
    step (mkSystem t sv d) (Client <$> ls) (mkSystem t' sv d)
| step_server t sv d ls sv' :
    Server.step codec msize sv ls sv' →
    server_reads codec (Server.sv_conn sv) d (Server.sv_conn sv') →
    step (mkSystem t sv d) (Network.Server <$> ls) (mkSystem t sv' d)
| step_client_late t sv d :
    t_fault t = None → client_waits t d → ch_in (t_ch t) ≠ [] →
    step (mkSystem t sv d) [ClientLate (ch_in (t_ch t))]
      (mkSystem (Transport.reader_late codec (length (ch_in (t_ch t))) t) sv d)
| step_server_late t sv d :
    c_fault (Server.sv_conn sv) = None → server_waits (Server.sv_conn sv) d →
    ch_in (c_ch (Server.sv_conn sv)) ≠ [] →
    step (mkSystem t sv d) [ServerLate (ch_in (c_ch (Server.sv_conn sv)))]
      (mkSystem t (on_conn (λ c, ServeConn.reader_late codec (length (ch_in (c_ch c))) c) sv) d)
| step_up k t sv d :
    step (mkSystem t sv d) []
      (mkSystem (set_ch t (sent k (t_ch t)))
         (on_conn (λ c, with_ch c (arrived (take k (ch_out (t_ch t))) (c_ch c))) sv) d)
| step_down k t sv d :
    step (mkSystem t sv d) []
      (mkSystem (set_ch t (arrived (take k (ch_out (c_ch (Server.sv_conn sv)))) (t_ch t)))
         (on_conn (λ c, with_ch c (sent k (c_ch c))) sv) d)
| step_up_fails e t sv d :
    step (mkSystem t sv d) [] (mkSystem (set_ch t (broken e (t_ch t))) sv d)
| step_down_fails e t sv d :
    step (mkSystem t sv d) [] (mkSystem t (on_conn (λ c, with_ch c (broken e (c_ch c))) sv) d)
| step_break e t sv d :
    step (mkSystem t sv d) []
      (mkSystem (set_ch t (broken e (t_ch t))) (on_conn (λ c, with_ch c (broken e (c_ch c))) sv) true).

(** A new connection to a new session over the file server in state [w]. *)
Definition started (tctx cctx : option error) (ct cs : channel) (w : World) : system :=
  mkSystem (newTransport tctx ct)
    (Server.mkServer (newConn cctx cs) (Concurrent.mkConfig (SFileSys_new w) [] false) ∅) false.
Definition new_system (tctx cctx : option error) (w : World) : system :=
  started tctx cctx (newChannel [] msize) (newChannel [] msize) w.

Inductive reachable (tctx cctx : option error) (w : World) : list label → system → Prop :=
| reach_started ct cs :
    idle msize ct → idle msize cs → reachable tctx cctx w [] (started tctx cctx ct cs w)
| reach_step tr sy ls sy' :
    reachable tctx cctx w tr sy → step sy ls sy' → reachable tctx cctx w (tr ++ ls) sy'.

(** A step of the server is one of its loop, or of the goroutines alone. *)
Lemma server_conn sv ls sv' :
  Server.step codec msize sv ls sv' →
  ServeConn.step codec (Server.sv_conn sv) ls (Server.sv_conn sv') ∨
  (ls = [] ∧ Server.sv_conn sv' = Server.sv_conn sv).
Proof.
  intros Hs. destruct Hs as [c conf who ls c' Hs _|c conf who id req c' Hs|c conf who i conf' Ht
    |c conf who id rq i t x r Hf Hr Hp Hi Ht Hc Ho]; cbn; eauto.
  left. by apply ServeConn.step_handler.
Qed.

Lemma step_net sy ls sy' : step sy ls sy' →
  Network.step codec (net_of sy) ls (net_of sy') ∨ (ls = [] ∧ net_of sy' = net_of sy).
Proof.
  intros Hs. destruct Hs as [t sv d ls t' Hs Hw|t sv d ls sv' Hs Hw|t sv d Hf Hw Hin|t sv d Hf Hw Hin
    |k t sv d|k t sv d|e t sv d|e t sv d|e t sv d]; unfold net_of; cbn.
  - left. by constructor.
  - destruct (server_conn _ _ _ Hs) as [Hc|[-> ->]]; [left; by constructor|by right].
  - left. by constructor.
  - left. by constructor.
  - left. apply Network.step_up.
  - left. apply Network.step_down.
  - left. apply Network.step_up_fails.
  - left. apply Network.step_down_fails.
  - left. apply Network.step_break.
Qed.

Lemma reachable_net tctx cctx w tr sy :
  reachable tctx cctx w tr sy → Network.reachable codec msize tctx cctx tr (net_of sy).
Proof.
  induction 1 as [ct cs Hct Hcs|tr sy ls sy' _ IH Hs]; [by constructor|].
  destruct (step_net _ _ _ Hs) as [Hn|[-> ->]]; [by eapply Network.reach_step|by rewrite app_nil_r].
Qed.

(** ** The goroutines of the server *)

Record served (tr : list label) (sv : Server.server) : Prop := {
  sd_inv : ServeConn.inv (servers tr) (tags (Server.sv_conn sv)) (c_reqs (Server.sv_conn sv))
             (c_main (Server.sv_conn sv));
  sd_linked : Server.linked (servers tr) sv;
  sd_typed : typed (Server.sv_conf sv);
  sd_conf : Concurrent.reachable msize (Server.sv_conf sv)
}.

Lemma typed_step sv ls sv' :
  typed (Server.sv_conf sv) → Server.step codec msize sv ls sv' → typed (Server.sv_conf sv').
Proof.
  intros Ht Hs. destruct Hs; cbn in *; [done|by apply typed_arrive|by eapply typed_turn|done].
Qed.

Lemma conf_step sv ls sv' :
  Concurrent.reachable msize (Server.sv_conf sv) → Server.step codec msize sv ls sv' →
  Concurrent.reachable msize (Server.sv_conf sv').
Proof.
  intros Hr Hs. destruct Hs as [|c conf who id req c' Hs|c conf who i conf' Ht|]; cbn in *; try done.
  - eapply Concurrent.reachable_step; [done|apply Concurrent.step_arrive].
  - eapply Concurrent.reachable_step; [done|]. apply Concurrent.step_turn. by exists i.
Qed.

Lemma served_step tr sv ls sv' :
  served tr sv → Server.step codec msize sv ls sv' → served (tr ++ (Network.Server <$> ls)) sv'.
Proof.
  intros [Hi Hl Ht Hc] Hs. split; rewrite ?servers_app, ?servers_server.
  - destruct (server_conn _ _ _ Hs) as [Hcs|[-> ->]]; [by eapply inv_step|by rewrite app_nil_r].
  - by eapply Server.linked_step.
  - by eapply typed_step.
  - by eapply conf_step.
Qed.

(** The connection's bytes do not matter to the goroutines. *)
Lemma served_channel tr sv ch : served tr sv → served tr (on_conn (λ c, with_ch c ch) sv).
Proof.
  intros [Hi Hl Ht Hc]. split; try done.
  destruct Hl as [H1 H2 H3]. split; try done.
Qed.

Lemma served_late tr l sv x :
  served tr sv → servers [l] = [] → served (tr ++ [l]) (on_conn (λ c, ServeConn.reader_took c x) sv).
Proof.
  intros [Hi [H1 H2 H3] Ht Hc] Hl. destruct (reader_took_same (Server.sv_conn sv) x) as (Et & Er & Em & _).
  split; rewrite ?servers_app, ?Hl, ?app_nil_r; try done; cbn.
  - by rewrite Et, Er, Em.
  - split; cbn; rewrite ?Er; done.
Qed.

Lemma reachable_served tctx cctx w tr sy : reachable tctx cctx w tr sy → served tr (sy_server sy).
Proof.
  induction 1 as [ct cs _ _|tr sy ls sy' _ IH Hs].
  - split; cbn.
    + apply (reachable_inv codec cctx cs [] (newConn cctx cs)). constructor.
    + split; cbn; [by intros id rq| |by intros id f ?%elem_of_nil]. intros id i. by rewrite lookup_empty.
    + intros i t Hi. cbn in Hi. by rewrite lookup_nil in Hi.
    + apply Concurrent.reachable_rest, quiescent_new.
  - destruct Hs as [t sv d ls t' Hs _|t sv d ls sv' Hs _|t sv d Hf _ _|t sv d Hf _ _
      |k t sv d|k t sv d|e t sv d|e t sv d|e t sv d]; cbn in *;
      rewrite ?app_nil_r; try done; try by apply (served_channel _ sv).
    + destruct IH as [Hi Hl Ht Hc]. split; rewrite ?servers_app, ?servers_client, ?app_nil_r; done.
    + by eapply served_step.
    + destruct IH as [Hi Hl Ht Hc]. split; rewrite ?servers_app; cbn; rewrite ?app_nil_r; done.
    + by apply served_late.
Qed.

(** A goroutine that returned a message answered its own. *)
Lemma returned_answers tr sv sid req a :
  served tr sv → Server.returned sv sid req (inr a) → answers (Server.msg_of req) a = true.
Proof.
  intros Hs (t & x & (i & _ & Hi & Hm) & Hc & Ho).
  pose proof (sd_typed _ _ Hs _ _ Hi) as Hr. rewrite Hc, Hm in Hr.
  destruct x; try done. by injection Ho as ->.
Qed.

(** ** Well-formed responses *)

Section Sound.
Context {TFS : TypedFS FS}.

(** The client's requests fit the protocol, are no Tflush, and their texts are
    short enough for the file server; no read times out inside a frame. *)
Definition client_sound (l : label) : Prop :=
  match l with
  | Client (Wrote id f) => sound_label (Client (Wrote id f)) ∧ modest (Server.msg_of f)
  | ClientLate _ | ServerLate _ => False
  | _ => True
  end.

Lemma truncated_modest f f' :
  truncated msize (carry f) = Ok f' → modest (Server.msg_of f) → modest (Server.msg_of f').
Proof.
  unfold truncated, carry. destruct f as [typ tag [[]|]]; cbn -[frame_size carry_Dir];
    repeat case_decide; by intros [= <-].
Qed.

Lemma msg_of_wf f : wf_Fcall f → wf_Message (Server.msg_of f).
Proof. intros [_ Hf]. unfold Server.msg_of. destruct (Fcall_Message f); [apply Hf|done]. Qed.

(** A request on its way or with the server is one the client wrote, cut to
    msize. *)
Lemma history_sound tr id g evs :
  history msize tr id g evs → Forall sound_label tr → Forall client_sound tr →
  wf_Fcall g ∧ modest (Server.msg_of g).
Proof.
  intros (a & w & b & -> & Ht & _ & _) Hs Hc.
  apply Forall_app in Hs as [_ [(Hw & _ & _) _]%Forall_cons].
  apply Forall_app in Hc as [_ [[_ Hmod] _]%Forall_cons].
  split; [by eapply truncated_fits_to|by eapply truncated_modest].
Qed.

Lemma request_sound tr t c sid rq :
  Network.linked msize tr t c → Forall sound_label tr → Forall client_sound tr →
  c_reqs c !! sid = Some rq → rq_pc rq ≠ Gone → wf_Fcall (rq_fcall rq).
Proof.
  intros Hl Hs Hc Hr Hpc. destruct (lk_joined _ _ _ _ Hl) as (up & down & _ & _ & Hk).
  destruct (tk_req _ _ _ _ _ _ _ _ Hk _ _ Hr Hpc) as (id & _ & Hh).
  by eapply history_sound.
Qed.

Lemma accepted_sound tr t c sid req c' :
  Network.linked msize tr t c → Forall sound_label tr → Forall client_sound tr →
  ServeConn.step codec c [Accept sid req] c' → wf_Fcall req ∧ modest (Server.msg_of req).
Proof.
  intros Hl Hs Hc Hst. destruct (lk_joined _ _ _ _ Hl) as (up & down & _ & _ & Hk).
  assert (c_reader c = ServeConn.Offering req) as Hrd.
  { inversion Hst as [| | |? ? req' ? ? ? Hrd ? ? Hm| | | | | | | | | | | |]; subst.
    unfold main_request in Hm. repeat case_match; by simplify_eq. }
  assert (req ∈ offer_c c ++ up) as Hin by (unfold offer_c; rewrite Hrd; by left).
  destruct (tk_up _ _ _ _ _ _ _ _ Hk _ Hin) as (_ & _ & id & _ & Hh).
  by eapply history_sound.
Qed.

Lemma error_response_sound tag e :
  in_width 16 tag → short (text_max + 4) e →
  wf_Fcall (carry (newErrorFcall tag e)) ∧ frame_size (newErrorFcall tag e) < 2 ^ 32.
Proof.
  rewrite carry_error. intros Ht He. assert (∃ s, newErrorFcall tag e = newFcall tag (MessageRerror s) ∧
    slen s ≤ slen (Error_ e)) as (s & -> & Hl).
  { destruct e as [s| | | | | | |n|s|s|s b1 b2|s e]; eexists; (split; [reflexivity|]);
      try apply Z.le_refl.
    assert (slen (Error_ (E9p s)) = 4 + slen s) as ->
      by (unfold slen; rewrite <-(Nat2Z.inj_add 4); reflexivity). lia. }
  assert (slen s < 2 ^ 16) by (unfold short, text_max in He; lia).
  split.
  - split; [done|]. split; [done|]. unfold wf_Message. cbn [Message_fields].
    rewrite Forall_cons, Forall_nil. done.
  - unfold frame_size. rewrite wire_fcall_len. cbn [wire_message]. rewrite wire_string_len. lia.
Qed.

(** What a goroutine returned for a request can be sent. *)
Lemma outcome_sound m x r req :
  good (text_max + 4) (answer m) x → Server.outcome x = Some r → wf_Fcall req →
  wf_Fcall (carry (handler_response req r)) ∧ frame_size (handler_response req r) < 2 ^ 32.
Proof.
  intros Hg Ho [Ht _]. destruct x as [a|e|y|y]; try done; injection Ho as <-; cbn in Hg |- *.
  - destruct Hg as (_ & Hw & Hl). split; [rewrite carry_newFcall; done|]. unfold frame_size. rewrite wire_fcall_len. lia.
  - by apply error_response_sound.
Qed.

Lemma well_typed_step tr t sv ls sv' :
  Network.linked msize tr t (Server.sv_conn sv) → Forall sound_label tr → Forall client_sound tr →
  well_typed (Server.sv_conf sv) → Server.step codec msize sv ls sv' →
  well_typed (Server.sv_conf sv').
Proof.
  intros Hl Hs Hc Ht Hst. destruct Hst as [| c conf who id req c' Hst| |]; cbn in *;
    [done| |by eapply well_typed_turn|done].
  destruct (accepted_sound _ _ _ _ _ _ Hl Hs Hc Hst) as [Hw Hm].
  apply well_typed_arrive; [lia|by apply msg_of_wf|done|done].
Qed.

Lemma server_sound tr t sv ls sv' :
  Network.linked msize tr t (Server.sv_conn sv) → Server.linked (servers tr) sv →
  well_typed (Server.sv_conf sv) → Forall sound_label tr → Forall client_sound tr →
  Server.step codec msize sv ls sv' → Forall sound_label (Network.Server <$> ls).
Proof.
  intros Hl Hsl Hwt Hs Hcs Hst. apply Forall_fmap, Forall_forall. intros l Hin.
  destruct l as [|id f| | | |]; try done.
  destruct Hst as [c conf who ls c' Hst Ho|c conf who id' req c' Hst|c conf who i conf' Ht
    |c conf who id' rq i t' x r Hf Hr Hp Hi Ht Hc Ho].
  - by destruct (Server.own_not_handled ls id f Ho).
  - by apply list_elem_of_singleton in Hin.
  - by apply elem_of_nil in Hin.
  - apply list_elem_of_singleton in Hin as [= -> ->]. cbn in *.
    pose proof (request_sound _ _ _ _ _ Hl Hs Hcs Hr ltac:(congruence)) as Hw.
    pose proof (wt_threads _ Hwt _ _ Ht) as Hy. rewrite Hc in Hy. by eapply outcome_sound.
Qed.

Lemma reachable_sound tctx cctx w tr sy :
  ty_world w → reachable tctx cctx w tr sy → Forall client_sound tr →
  Forall sound_label tr ∧ well_typed (Server.sv_conf (sy_server sy)).
Proof.
  intros Hw. induction 1 as [|tr sy ls sy' Hr IH Hs]; intros Hc.
  { split; [constructor|]. split; [by apply typed_new|].
    intros i t Hi. cbn in Hi. by rewrite lookup_nil in Hi. }
  apply Forall_app in Hc as [Hc1 Hc2]. destruct (IH Hc1) as [Hsl Hwt].
  pose proof (net_reachable_linked codec msize Hmsize _ _ _ _ (reachable_net _ _ _ _ _ Hr) Hsl) as Hl.
  pose proof (sd_linked _ _ (reachable_served _ _ _ _ _ Hr)) as Hsv.
  destruct Hs as [t sv d ls t' Hs _|t sv d ls sv' Hs _|t sv d Hf _ _|t sv d Hf _ _
    |k t sv d|k t sv d|e t sv d|e t sv d|e t sv d]; cbn in *;
    rewrite ?app_nil_r; try done; try by apply Forall_inv in Hc2.
  - split; [|done]. apply Forall_app. split; [done|].
    rewrite Forall_fmap in Hc2. rewrite Forall_fmap. eapply Forall_impl; [exact Hc2|].
    intros [] H; try done. apply H.
  - split; [|by eapply well_typed_step]. apply Forall_app. split; [done|]. by eapply server_sound.
Qed.
End Sound.

(** ** Scheduled runs *)

Inductive move :=
| Caller (m : Network.move)        (* a move of the client, MUp or MDown *)
| Serve (m : Server.move).

Definition exec (m : move) (sy : system) : option (list label * system) :=
  let '(mkSystem t sv d) := sy in
  match m with
  | Caller MUp =>
      Some ([], mkSystem (set_ch t (sent (length (ch_out (t_ch t))) (t_ch t)))
        (on_conn (λ c, with_ch c
           (arrived (take (length (ch_out (t_ch t))) (ch_out (t_ch t))) (c_ch c))) sv) d)
  | Caller MDown =>
      let out := ch_out (c_ch (Server.sv_conn sv)) in
      Some ([], mkSystem (set_ch t (arrived (take (length out) out) (t_ch t)))
        (on_conn (λ c, with_ch c (sent (length out) (c_ch c))) sv) d)
  | Caller m =>
      match exec_client codec t m with
      | Some (ls, t') => Some (Client <$> ls, mkSystem t' sv d)
      | None => None
      end
  | Serve m =>
      if match m with
         | Server.Loop ARead => whole_frame (ch_in (c_ch (Server.sv_conn sv)))
         | _ => true
         end
      then
        match Server.exec codec msize m sv with
        | Some (ls, sv') => Some (Network.Server <$> ls, mkSystem t sv' d)
        | None => None
        end
      else None
  end.

Lemma server_move_reads m sv ls sv' d :
  Server.exec codec msize m sv = Some (ls, sv') →
  (m = Server.Loop ARead → whole_frame (ch_in (c_ch (Server.sv_conn sv))) = true) →
  server_reads codec (Server.sv_conn sv) d (Server.sv_conn sv').
Proof.
  destruct sv as [c conf who], m as [a|i|id]; cbn.
  - destruct (match a with AHandler _ _ => true | _ => false end); [done|].
    destruct (act codec a c) as [[ls1 c']|] eqn:E; [|done]. intros [= <- <-] Hw.
    assert (Server.sv_conn (Server.started msize c c' conf who ls1) = c') as ->.
    { unfold Server.started. by destruct ls1 as [|[] [|]]. }
    eapply act_reads; [done|]. intros ->. by apply Hw.
  - destruct (Concurrent.turn i conf); [|done]. intros [= <- <-] _ Hr. by left.
  - intros H _ Hr. left. repeat case_match; try done.
    destruct (Server.outcome _); [|done]. by injection H as <- <-.
Qed.

Lemma sys_exec_step m sy ls sy' : exec m sy = Some (ls, sy') → step sy ls sy'.
Proof.
  destruct sy as [t sv d], m as [m|m]; unfold exec.
  - assert (match exec_client codec t m with
            | Some (ls, t') => Some (Client <$> ls, mkSystem t' sv d)
            | None => None
            end = Some (ls, sy') → step (mkSystem t sv d) ls sy') as Hcl.
    { destruct (exec_client codec t m) as [[ls1 t1]|] eqn:E; [|done]. intros [= <- <-].
      destruct (exec_client_step _ _ _ _ _ d E). by constructor. }
    destruct m; try exact Hcl; intros [= <- <-]; constructor.
  - destruct (match m with Server.Loop ARead => _ | _ => true end) eqn:Hg; [|done].
    destruct (Server.exec codec msize m sv) as [[ls1 sv1]|] eqn:E; [|done]. intros [= <- <-].
    constructor; [by eapply Server.exec_step|]. eapply server_move_reads; [done|]. by intros ->.
Qed.

Fixpoint exec_all (ms : list move) (tr : list label) (sy : system) : option (list label * system) :=
  match ms with
  | [] => Some (tr, sy)
  | m :: ms => match exec m sy with
               | Some (ls, sy) => exec_all ms (tr ++ ls) sy
               | None => None
               end
  end.

Lemma sys_exec_all_reachable tctx cctx w ms tr sy tr' sy' :
  reachable tctx cctx w tr sy → exec_all ms tr sy = Some (tr', sy') → reachable tctx cctx w tr' sy'.
Proof.
  revert tr sy. induction ms as [|m ms IH]; intros tr sy Hr; cbn; [by intros [= <- <-]|].
  destruct (exec m sy) as [[ls sy1]|] eqn:E; [|done]. apply IH.
  eapply reach_step; [done|]. by eapply sys_exec_step.
Qed.

Definition ran (ms : list move) (sy : system) : list label * system :=
  default ([], sy) (exec_all ms [] sy).

Lemma sys_ran_reachable tctx cctx w ms :
  reachable tctx cctx w (fst (ran ms (new_system tctx cctx w))) (snd (ran ms (new_system tctx cctx w))).
Proof.
  assert (reachable tctx cctx w [] (new_system tctx cctx w)) as H0 by by constructor; apply idle_new.
  unfold ran. destruct (exec_all ms [] (new_system tctx cctx w)) as [[tr' sy']|] eqn:E; [|exact H0].
  by eapply sys_exec_all_reachable.
Qed.
End System.

(** ** Theorems *)

(** C1. The whole system: a call that returns a message returns the answer
    to its own request, made by the session.  Whatever other calls and
    requests run at the same time, in every interleaving of the goroutines
    of both sides and of the bytes on the connection: the request went out
    as [f], arrived as [g] (cut to msize), a goroutine of the server handled
    [g] on the shared session and returned [a], and [a] is what the call
    returns (of times, the seconds: [carry_Message]); its type is the one that
    answers the request, so the client session's type assertion never fails.
    This takes for granted ([sound_label]) that what the client sends and
    what the handlers return fits the widths of the protocol, times apart
    (C2 proves the second of ramfs and sleepfs), that the client sends no
    Tflush, and that no read times out inside a frame: C30 is what happens
    when one does. *)
Theorem system_returns `{FS : FileSys} codec `{!CodecLaws codec} msize tctx cctx w tr sy id m :
  23 ≤ msize < 2 ^ 32 → reachable codec msize tctx cctx w tr sy → Forall sound_label tr →
  calls (sy_client sy) !! id = Some (Returned (Ok m)) →
  Concurrent.reachable msize (Server.sv_conf (sy_server sy)) ∧
  ∃ req x f y g sid a,
    reqs (sy_client sy) !! id = Some req ∧
    tr = x ++ Client (Wrote id f) :: y ∧ Fcall_Message f = Some (req_message req) ∧
    truncated msize (carry f) = Ok g ∧ Network.Server (Accept sid g) ∈ y ∧
    Server.returned (sy_server sy) sid g (inr a) ∧ m = Some (carry_Message a) ∧
    answers (req_message req) a = true.
Proof.
  intros Hms Hr Hs Hc. pose proof (reachable_net codec msize _ _ _ _ _ Hr) as Hn.
  pose proof (reachable_served codec msize _ _ _ _ _ Hr) as Hsd.
  split; [by eapply sd_conf|].
  destruct (returned_history codec msize Hms _ _ _ _ _ _ Hn Hs Hc)
    as (req & x & f & y & g & sid & resp & f' & Hreq & Hmsg & -> & Hg & Hf' & -> & Hty & Hev & _).
  destruct (Server.ln_handled _ _ (sd_linked _ _ _ Hsd) sid resp) as (g' & r & Hacc & Hret & ->).
  { apply in_servers, elem_of_app. right. right. apply Hev. set_solver. }
  assert (g' = g) as ->.
  { eapply (Server.accept_unique _ sid); [by eapply (inv_accept_once _ _ _ _ (sd_inv _ _ _ Hsd))|done|].
    apply in_servers, elem_of_app. right. right. apply Hev. set_solver. }
  destruct r as [e|a].
  { destruct Hty. rewrite (truncated_type _ _ _ Hf'). by destruct e. }
  pose proof (returned_answers _ _ _ _ _ _ Hsd Hret) as Ha.
  apply (truncated_answer _ _ _ _ _ Ha) in Hf' as ->.
  exists req, x, f, y, g, sid, a. split_and!; try done.
  - apply Hev. set_solver.
  - by eapply truncated_request.
Qed.

(** A client attaches to a sleepfs. *)
Definition attach_moves : list move :=
  [Caller (MCall 1 (MessageTattach 1 NOFID "u" "/")); Caller (MRequest 1); Caller MUp;
   Serve (Server.Loop ARead); Serve (Server.Loop (ARequest 7))]
  ++ replicate 6 (Serve (Server.Turn 0))
  ++ [Serve (Server.Hand 7); Serve (Server.Loop (ACompleted 7)); Serve (Server.Loop AReply);
      Caller MDown; Caller MRead; Caller MDeliver; Caller (MTake 1)].
Lemma msize_64 : 23 ≤ 64 < 2 ^ 32.
Proof. lia. Qed.

Definition attached : list label * @system SleepFS.sServer :=
  ran (FS := SleepFS.sServer) codec9p 64 attach_moves (new_system (FS := SleepFS.sServer) 64 None None ∅).

Lemma attached_trace : fst attached =
  [Client (Wrote 1 (newFcall 1 (MessageTattach 1 NOFID "u" "/")));
   Network.Server (Accept 7 (newFcall 1 (MessageTattach 1 NOFID "u" "/")));
   Network.Server (Handled 7 (newFcall 1 (MessageRattach (mkQid QTDIR 0 0))));
   Network.Server (Reply 7 7 (newFcall 1 (MessageRattach (mkQid QTDIR 0 0))));
   Client (Delivered 1 (newFcall 1 (MessageRattach (mkQid QTDIR 0 0))))].
Proof. vm_compute. reflexivity. Qed.

Lemma attached_sound : Forall sound_label (fst attached).
Proof. rewrite attached_trace. repeat constructor; try (by vm_compute); done. Qed.

Lemma system_returns_witness :
  calls (sy_client (snd attached)) !! 1 = Some (Returned (Ok (Some (MessageRattach (mkQid QTDIR 0 0))))) ∧
  Concurrent.reachable 64 (Server.sv_conf (sy_server (snd attached))).
Proof.
  assert (calls (sy_client (snd attached)) !! 1
          = Some (Returned (Ok (Some (MessageRattach (mkQid QTDIR 0 0)))))) as E
    by (vm_compute; reflexivity).
  split; [exact E|].
  exact (proj1 (system_returns codec9p 64 None None ∅ (fst attached) (snd attached) 1 _
    msize_64
    (sys_ran_reachable codec9p 64 msize_64 None None ∅ attach_moves) attached_sound E)).
Defined.

(** C2. The whole system is typed: with a file server whose results fit the
    protocol ([TypedFS]; ramfs and sleepfs are proved to be such), and a client
    whose requests fit it, are no Tflush and have texts within the file
    server's bounds (ramfs: 16000 bytes), as long as no read times out inside
    a frame, in every interleaving: the session stays typed, every response
    the server's goroutines make is well-formed as the wire carries it, and
    neither the transport's loop nor the server's panics: there is no unknown
    and no duplicate tag. *)
Theorem system_typed `{FS : FileSys} {TFS : TypedFS FS} codec `{!CodecLaws codec} msize tctx cctx w tr sy :
  23 ≤ msize < 2 ^ 32 → ty_world w → reachable codec msize tctx cctx w tr sy →
  Forall client_sound tr →
  typed_session (Concurrent.shared (Server.sv_conf (sy_server sy))) ∧
  (∀ sid f, Network.Server (Handled sid f) ∈ tr → wf_Fcall (carry f) ∧ frame_size f < 2 ^ 32) ∧
  (∀ f, Network.Server (Bypass f) ∉ tr) ∧
  t_fault (sy_client sy) = None ∧ c_fault (Server.sv_conn (sy_server sy)) = None.
Proof.
  intros Hms Hw Hr Hc. destruct (reachable_sound codec msize Hms _ _ _ _ _ Hw Hr Hc) as [Hs Hwt].
  pose proof (reachable_net codec msize _ _ _ _ _ Hr) as Hn.
  pose proof (net_reachable_linked codec msize Hms _ _ _ _ Hn Hs) as Hl.
  split; [by apply wt_session|]. split_and!; try apply (lk_fault _ _ _ _ Hl).
  - intros sid f Hin. rewrite Forall_forall in Hs. exact (Hs _ Hin).
  - intros f. by apply (reachable_server_labels codec msize Hms _ _ _ _ _ Hn).
Qed.

(** A client of ramfs attaches and asks for the root's stat record. *)
Definition stat_moves : list move :=
  [Caller (MCall 1 (MessageTattach 1 NOFID "u" "/")); Caller (MRequest 1); Caller MUp;
   Serve (Server.Loop ARead); Serve (Server.Loop (ARequest 7))]
  ++ replicate 6 (Serve (Server.Turn 0))
  ++ [Serve (Server.Hand 7); Serve (Server.Loop (ACompleted 7)); Serve (Server.Loop AReply);
      Caller MDown; Caller MRead; Caller MDeliver; Caller (MTake 1);
      Caller (MCall 2 (MessageTstat 1)); Caller (MRequest 2); Caller MUp;
      Serve (Server.Loop ARead); Serve (Server.Loop (ARequest 8))]
  ++ replicate 6 (Serve (Server.Turn 1)) ++ [Serve (Server.Hand 8)].
Definition ram0 : FileSys := ramServer map_to_list.
Definition stat_root : list label * @system ram0 :=
  ran (FS := ram0) codec9p 256 stat_moves
    (new_system (FS := ram0) 256 None None (fserver (mkTime 1700000000 123456789))).
Definition root_stat : Fcall :=
  newFcall 2 (MessageRstat (newDir (mkTime 1700000000 123456789) 1 "/" "root" (Z.lor DMDIR 509))).

Lemma stat_root_trace : fst stat_root =
  [Client (Wrote 1 (newFcall 1 (MessageTattach 1 NOFID "u" "/")));
   Network.Server (Accept 7 (newFcall 1 (MessageTattach 1 NOFID "u" "/")));
   Network.Server (Handled 7 (newFcall 1 (MessageRattach (mkQid QTDIR 0 1))));
   Network.Server (Reply 7 7 (newFcall 1 (MessageRattach (mkQid QTDIR 0 1))));
   Client (Delivered 1 (newFcall 1 (MessageRattach (mkQid QTDIR 0 1))));
   Client (Wrote 2 (newFcall 2 (MessageTstat 1)));
   Network.Server (Accept 8 (newFcall 2 (MessageTstat 1)));
   Network.Server (Handled 8 root_stat)].
Proof. vm_compute. reflexivity. Qed.

Lemma stat_root_sound :
  Forall (client_sound (TFS := ramServer_typed map_to_list)) (fst stat_root).
Proof. rewrite stat_root_trace. repeat constructor; try (by vm_compute); done. Qed.

Lemma ram_world_now : ram_world (fserver (mkTime 1700000000 123456789)).
Proof. apply ram_world_new. Qed.

Lemma msize_256 : 23 ≤ 256 < 2 ^ 32.
Proof. lia. Qed.

Lemma system_typed_witness :
  Network.Server (Handled 8 root_stat) ∈ fst stat_root ∧
  wf_Fcall (carry root_stat) ∧ frame_size root_stat < 2 ^ 32.
Proof.
  assert (Network.Server (Handled 8 root_stat) ∈ fst stat_root) as Hin
    by (rewrite stat_root_trace; do 7 right; left).
  split; [exact Hin|].
  exact (proj1 (proj2 (system_typed (FS := ram0) (TFS := ramServer_typed map_to_list) codec9p 256
    None None (fserver (mkTime 1700000000 123456789)) (fst stat_root) (snd stat_root) msize_256
    ram_world_now
    (sys_ran_reachable (FS := ram0) codec9p 256 msize_256 None None _ stat_moves)
    stat_root_sound)) 8 _ Hin).
Defined.
End System.
