(* ===== verification/Connect.v ===== *)
(** * Connect: from a raw connection to the running system

    CSession (csession.go) makes a channel, negotiates the version and starts
    a transport on the channel; ServeConn (serveconn.go) negotiates and
    starts its loop.  What the two negotiations leave is a state that the
    theorems of System start from. *)
From S2P Require Import Prelude Types Encoding EncodingFacts Codec Channel Version Transport ServeConn.
From S2P Require Import FileSys SFileSys SessionSpec Session SleepFS SSession.
From S2P Require Import Concurrent RaceFree Server Network Typed System.

Module Connect.
Import Network.Network System.

(** ** CSession *)

(** The fields of the type [client]; its context is that of the transport. *)
Record client_session := mkClient {
  cl_version : string;
  cl_msize : Z;
  cl_transport : transport
}.

Definition CSession (codec : Codec) (ctx : option error) (cn : bytes) : result error client_session :=
  match clientnegotiate codec ctx (newChannel cn DefaultMSize) DefaultVersion with
  | (Ok version, ch) => Ok (mkClient version (MSize ch) (newTransport ctx ch))
  | (Err e, _) => Err e
  | (Panic w, _) => Panic w
  | (Hang w, _) => Hang w
  end.

Definition client_Version (cl : client_session) : Z * string := (cl_msize cl, cl_version cl).

(** Its [Stop] does nothing. *)
Definition client_Stop (err : option error) : option error := err.

(** ** The two ends after the exchange *)

(** All that was written has gone over the connection. *)
Definition flushed (ch : channel) : channel := sent (length (ch_out ch)) ch.

Definition joined_system `{FS : FileSys} (cl : client_session) (c : conn) (w : World) : system :=
  mkSystem (set_ch (cl_transport cl) (flushed (t_ch (cl_transport cl))))
    (Server.mkServer (with_ch c (flushed (c_ch c)))
       (Concurrent.mkConfig (SFileSys_new w) [] false) ∅) false.

Lemma ready_default cn : ready (newChannel cn DefaultMSize).
Proof.
  split_and!; [done|done| |done|done]. cbn [ch_rdbuf ch_msize newChannel].
  unfold zero_bytes, len. rewrite length_replicate. apply Z2Nat.id. by unfold DefaultMSize.
Qed.

Lemma default_channel : ∃ c0,
  ready c0 ∧ ch_msize c0 = DefaultMSize ∧ ch_out c0 = [] ∧
  ∀ cn, set_in c0 cn = newChannel cn DefaultMSize.
Proof. exists (newChannel [] DefaultMSize). split_and!; try reflexivity. apply ready_default. Qed.

Lemma ready_idle ch msize :
  ready ch → ch_msize ch = msize → ch_in ch = [] → idle msize (flushed ch).
Proof.
  intros (Hc & He & Hb & Hm) Hms Hi. split; [|split; [exact Hi|]].
  - refine (conj Hc (conj Hms (conj _ _))); [change (len (ch_rdbuf ch) = msize); lia|].
    cbn. by rewrite He.
  - cbn. apply drop_all.
Qed.

(** ** Theorems *)

(** C14. A connection comes up: there is one exchange of bytes such that
    CSession, reading what ServeConn wrote, and ServeConn, reading what
    CSession wrote, both succeed; the client's session then has the default
    msize and version, neither end has read or written anything else, and the
    two ends are a starting state of the system whose theorems are proved in
    System: they hold of every connection from its first byte. *)
Theorem connection_established codec `{!CodecLaws codec} `{FS : FileSys} cctx (w : World) :
  ∃ req resp cl c,
    CSession codec None resp = Ok cl ∧ ch_out (t_ch (cl_transport cl)) = req ∧
    ServeConn_negotiate codec cctx None req = Ok c ∧ ch_out (c_ch c) = resp ∧
    client_Version cl = (DefaultMSize, DefaultVersion) ∧
    System.reachable codec DefaultMSize None cctx w [] (joined_system cl c w).
Proof.
  destruct default_channel as (c0 & H0 & Hm0 & Ho0 & Hn0).
  destruct (servernegotiate_ok codec c0 DefaultMSize DefaultVersion DefaultVersion [])
    as (s & Es & Hs & Hsm & Hsi & Hso); [done|done|done|done|].
  destruct (clientnegotiate_ok codec c0 DefaultMSize DefaultVersion DefaultVersion [])
    as (ch & Ec & Hc & Hcm & Hci & Hco); [done|by rewrite Hm0|done|done|].
  rewrite app_nil_r, Hn0 in Es, Ec.
  rewrite decide_False in Ec by (intros []; reflexivity).
  rewrite decide_False in Hcm by (intros []; reflexivity).
  rewrite Hm0, Z.min_id in Hsm, Hso. rewrite Hm0 in Hco. rewrite Ho0 in Hso, Hco.
  exists (ch_out ch), (ch_out s), (mkClient DefaultVersion DefaultMSize (newTransport None ch)),
    (newConn cctx s).
  unfold CSession, ServeConn_negotiate. split_and!; [|reflexivity| |reflexivity|reflexivity|].
  - rewrite Hso. cbn [app]. change "9P2000" with DefaultVersion. rewrite Ec. unfold MSize. by rewrite Hcm.
  - rewrite Hco. cbn [app]. by rewrite Es.
  - apply (reach_started codec DefaultMSize None cctx w (flushed ch) (flushed s));
      by apply ready_idle.
Qed.

Lemma connection_established_witness :
  ∃ req resp cl c,
    CSession codec9p None resp = Ok cl ∧ ServeConn_negotiate codec9p None None req = Ok c ∧
    client_Version cl = (DefaultMSize, DefaultVersion) ∧
    System.reachable codec9p DefaultMSize None None ∅
      [] (joined_system (FS := SleepFS.sServer) cl c ∅).
Proof.
  destruct (connection_established (FS := SleepFS.sServer) codec9p None ∅)
    as (req & resp & cl & c & H1 & _ & H2 & _ & H3 & H4).
  by exists req, resp, cl, c.
Defined.
End Connect.
