(* ===== verification/Logging.v ===== *)
(** * Logging: the session wrapper of logging.go

    [NewLogger] wraps a session: every call is passed on and then logged with
    its arguments and its result.  The log is kept as a list of events, one
    per Printf, in the order they are written. *)
From S2P Require Import Prelude Types Encoding Path Readdir FileSys SFileSys SessionSpec Session.
From S2P Require Import RamFS SSession RamServe.

Module Logging.

Inductive event :=
| LStop (err : option error) (err2 : option error)
| LAuth (afid : Z) (uname aname : string) (r : result error Qid)
| LAttach (fid afid : Z) (uname aname : string) (r : result error Qid)
| LClunk (fid : Z) (r : result error unit)
| LRemove (fid : Z) (r : result error unit)
| LWalk (fid newfid : Z) (names : list string) (r : result error (list Qid))
| LRead (fid plen offset : Z) (r : result error (Z * option error))
| LWrite (fid plen offset : Z) (r : result error (Z * option error))
| LOpen (fid mode : Z) (r : result error (Qid * Z))
| LCreate (parent : Z) (name : string) (perm mode : Z) (r : result error (Qid * Z))
| LStat (fid : Z) (r : result error Dir)
| LWStat (fid : Z) (dir : Dir) (r : result error unit)
| LVersion (msize : Z) (ver : string).

Section Logging.
Context {St : Type} `{!Session St}.

Record logging := mkLogging { l_session : St; l_log : list event }.

Definition NewLogger (s : St) : logging := mkLogging s [].

(** Call, then log.  After a panic of the session nothing is logged. *)
Definition logged {A} (m : St → result error A * St) (ev : result error A → event) (l : logging)
    : result error A * logging :=
  let '(r, s) := m (l_session l) in
  (r, mkLogging s (l_log l ++ if decide (returns r) then [ev r] else [])).

Definition l_Auth ctx afid uname aname :=
  logged (sAuth ctx afid uname aname) (LAuth afid uname aname).
Definition l_Attach ctx fid afid uname aname :=
  logged (sAttach ctx fid afid uname aname) (LAttach fid afid uname aname).
Definition l_Clunk ctx fid := logged (sClunk ctx fid) (LClunk fid).
Definition l_Remove ctx fid := logged (sRemove ctx fid) (LRemove fid).
Definition l_Walk ctx fid newfid names :=
  logged (sWalk ctx fid newfid names) (LWalk fid newfid names).
Definition l_Read ctx fid count offset :=
  logged (sRead ctx fid count offset)
    (λ r, LRead fid count offset ((λ '(p, e), (len p, e)) <$> r)).
Definition l_Write ctx fid p offset :=
  logged (sWrite ctx fid p offset) (LWrite fid (len p) offset).
Definition l_Open ctx fid mode := logged (sOpen ctx fid mode) (LOpen fid mode).
Definition l_Create ctx parent name perm mode :=
  logged (sCreate ctx parent name perm mode) (LCreate parent name perm mode).
Definition l_Stat ctx fid := logged (sStat ctx fid) (LStat fid).
Definition l_WStat ctx fid dir := logged (sWStat ctx fid dir) (LWStat fid dir).

Definition l_Version (l : logging) : (Z * string) * logging :=
  let '(msize, ver) := sVersion (l_session l) in
  ((msize, ver), mkLogging (l_session l) (l_log l ++ [LVersion msize ver])).

(** [stop] is the Stop method of the session. *)
Definition l_Stop (stop : option error → St → result error (option error) * St)
    (err : option error) (l : logging) : result error (option error) * logging :=
  logged (stop err) (λ r, LStop err (match r with Ok e => e | _ => None end)) l.

(** A logging session is a session.  (The interface has Version as a query,
    so its event is not kept there.) *)
#[export] Instance logging_Session : Session logging := {|
  sAuth := l_Auth;
  sAttach := l_Attach;
  sClunk := l_Clunk;
  sRemove := l_Remove;
  sWalk := l_Walk;
  sRead := l_Read;
  sWrite := l_Write;
  sOpen := l_Open;
  sCreate := l_Create;
  sStat := l_Stat;
  sWStat := l_WStat;
  sVersion l := fst (l_Version l)
|}.

(** The call of a message reaches the session once. *)
Definition logs (msg : Message) : bool :=
  match msg with
  | MessageTauth _ _ _ | MessageTattach _ _ _ _ | MessageTwalk _ _ _ | MessageTopen _ _
  | MessageTcreate _ _ _ _ | MessageTread _ _ _ | MessageTwrite _ _ _ | MessageTclunk _
  | MessageTremove _ | MessageTstat _ | MessageTwstat _ _ => true
  | _ => false
  end.

Lemma logged_respond {A} (m : St → result error A * St) ev k (l : logging) :
  fst (respond (logged m ev l) k) = fst (respond (m (l_session l)) k) ∧
  l_session (snd (respond (logged m ev l) k)) = snd (respond (m (l_session l)) k) ∧
  ∃ evs, l_log (snd (respond (logged m ev l) k)) = l_log l ++ evs ∧
    (returns (fst (m (l_session l))) → length evs = 1%nat).
Proof.
  unfold respond, logged. destruct (m (l_session l)) as [r s]. cbn [fst snd l_session l_log].
  split_and!; [done|done|]. eexists. split; [done|]. intros Hr. by rewrite decide_True.
Qed.

Lemma logged_respond_n {A} (m : St → result error (A * option error) * St) ev k (l : logging) :
  fst (respond_n (logged m ev l) k) = fst (respond_n (m (l_session l)) k) ∧
  l_session (snd (respond_n (logged m ev l) k)) = snd (respond_n (m (l_session l)) k) ∧
  ∃ evs, l_log (snd (respond_n (logged m ev l) k)) = l_log l ++ evs ∧
    (returns (fst (m (l_session l))) → length evs = 1%nat).
Proof.
  unfold respond_n, logged. destruct (m (l_session l)) as [r s]. cbn [fst snd l_session l_log].
  split_and!; [done|done|]. eexists. split; [done|]. intros Hr. by rewrite decide_True.
Qed.

Lemma respond_returns {A} (r : result error A * St) k :
  returns (fst (respond r k)) → returns (fst r).
Proof. unfold respond. by destruct (fst r). Qed.
Lemma respond_n_returns {A} (r : result error (A * option error) * St) k :
  returns (fst (respond_n r k)) → returns (fst r).
Proof. unfold respond_n. by destruct (fst r). Qed.
End Logging.

(** ** Theorems *)

(** Logging does not change the server: handling a request with a logging
    session gives the response of the session it wraps and leaves that session
    in the same state; the log only grows, by exactly one event for a request
    that calls the session and returns, and by none for the others. *)
Theorem logging_transparent {St} `{!Session St} msize ctx msg (l : logging (St := St)) :
  let r := Handle msize ctx msg l in
  let r0 := Handle msize ctx msg (l_session l) in
  fst r = fst r0 ∧ l_session (snd r) = snd r0 ∧
  ∃ evs, l_log (snd r) = l_log l ++ evs ∧
    (returns (fst r0) → length evs = if logs msg then 1%nat else 0%nat).
Proof.
  cbv zeta. destruct msg; cbn [Handle logs];
    try (split_and!; [done|done|exists []; by rewrite app_nil_r]).
  all: cbn [sAuth sAttach sClunk sRemove sWalk sRead sWrite sOpen sCreate sStat sWStat logging_Session].
  all: unfold l_Auth, l_Attach, l_Clunk, l_Remove, l_Walk, l_Read, l_Write, l_Open, l_Create,
    l_Stat, l_WStat.
  all: first
    [ match goal with |- context [respond (logged ?m ?ev ?x) ?k] =>
        destruct (logged_respond m ev k x) as (H1 & H2 & evs & H3 & H4) end
    | match goal with |- context [respond_n (logged ?m ?ev ?x) ?k] =>
        destruct (logged_respond_n m ev k x) as (H1 & H2 & evs & H3 & H4) end ].
  all: split_and!; [exact H1|exact H2|exists evs; split; [exact H3|]];
    intros Hr; apply H4; first [by eapply respond_returns|by eapply respond_n_returns].
Qed.
End Logging.
