(* ===== verification/Startup.v ===== *)
(** * Startup: what the commands set up

    The parts of cmd/9ps/main.go and cmd/9pr/main.go that decide: the network
    and address to use, the file system that is served, and the session of a
    connection, which logs its calls when debugging is on.  Listening,
    dialling, flags, profiling and the terminal are input and output. *)
From S2P Require Import Prelude Types Encoding Path Readdir FileSys SFileSys SessionSpec Session.
From S2P Require Import SleepFS RamFS Ufs SSession RamServe Logging.

Module Startup.
Import Logging.
Import RamServe(handle_all).

(** [strings.HasPrefix] and the slice that follows it: the same in both
    commands. *)
Fixpoint HasPrefix (s prefix : string) : option string :=
  match prefix, s with
  | EmptyString, rest => Some rest
  | String p prefix, String c s => if decide (p = c) then HasPrefix s prefix else None
  | String _ _, EmptyString => None
  end.

Definition network_addr (addr : string) : string * string :=
  match HasPrefix addr "unix:" with
  | Some rest => ("unix", rest)
  | None => ("tcp", addr)
  end.

Lemma HasPrefix_spec s prefix rest : HasPrefix s prefix = Some rest ↔ s = prefix +:+ rest.
Proof.
  revert s. induction prefix as [|p prefix IH]; intros s; cbn.
  - assert (HasPrefix s "" = Some s) as -> by by destruct s. split; [by intros [= ->]|by intros ->].
  - destruct s as [|c s]; [split; by intros|]. cbn [HasPrefix]. case_decide as E.
    + subst. rewrite IH. split; [by intros ->|by intros [= ->]].
    + split; [done|]. intros [= -> _]. done.
Qed.

(** ** The file system of a connection *)

(** What [root] names. *)
Inductive served_root := Sleepfs | Ramfs | Ufsdir (root : string).

Definition served_by (root : string) : served_root :=
  if decide (root = "sleepfs") then Sleepfs
  else if decide (root = "ramfs") then Ramfs
  else Ufsdir root.

Section Serve.
Context {HS OF : Type} (os : Ufs.Host HS OF) (range : gmap string Z → list (string * Z)).

Definition file_server (root : string) : FileSys :=
  match served_by root with
  | Sleepfs => SleepFS.sServer
  | Ramfs => RamFS.ramServer range
  | Ufsdir root => Ufs.NewServer os root
  end.
End Serve.

(** ** The session of a connection *)

Section Session.
Context {St : Type} `{!Session St}.

(** The dynamic type of the variable [session]. *)
Inductive served_session := Plain (s : St) | Logged (l : logging (St := St)).

Definition new_session (debug : bool) (s : St) : served_session :=
  if debug then Logged (NewLogger s) else Plain s.

(** The session of the file system, under the logger if there is one. *)
Definition inner (x : served_session) : St :=
  match x with Plain s => s | Logged l => l_session l end.

Definition dispatch {A} (plain : St → A * St) (log : logging (St := St) → A * logging (St := St))
    (x : served_session) : A * served_session :=
  match x with
  | Plain s => let '(r, s) := plain s in (r, Plain s)
  | Logged l => let '(r, l) := log l in (r, Logged l)
  end.

#[export] Instance served_Session : Session served_session := {|
  sAuth ctx afid uname aname := dispatch (sAuth ctx afid uname aname) (sAuth ctx afid uname aname);
  sAttach ctx fid afid uname aname :=
    dispatch (sAttach ctx fid afid uname aname) (sAttach ctx fid afid uname aname);
  sClunk ctx fid := dispatch (sClunk ctx fid) (sClunk ctx fid);
  sRemove ctx fid := dispatch (sRemove ctx fid) (sRemove ctx fid);
  sWalk ctx fid newfid names := dispatch (sWalk ctx fid newfid names) (sWalk ctx fid newfid names);
  sRead ctx fid count offset := dispatch (sRead ctx fid count offset) (sRead ctx fid count offset);
  sWrite ctx fid p offset := dispatch (sWrite ctx fid p offset) (sWrite ctx fid p offset);
  sOpen ctx fid mode := dispatch (sOpen ctx fid mode) (sOpen ctx fid mode);
  sCreate ctx parent name perm mode :=
    dispatch (sCreate ctx parent name perm mode) (sCreate ctx parent name perm mode);
  sStat ctx fid := dispatch (sStat ctx fid) (sStat ctx fid);
  sWStat ctx fid dir := dispatch (sWStat ctx fid dir) (sWStat ctx fid dir);
  sVersion x := match x with Plain s => sVersion s | Logged l => sVersion l end
|}.

Lemma respond_dispatch {A} (f : St → result error A * St)
    (g : logging → result error A * logging) k x :
  respond (dispatch f g x) k = dispatch (λ s, respond (f s) k) (λ l, respond (g l) k) x.
Proof. destruct x as [s|l]; cbn; [by destruct (f s)|by destruct (g l)]. Qed.

Lemma respond_n_dispatch {A} (f : St → result error (A * option error) * St)
    (g : logging → result error (A * option error) * logging) k x :
  respond_n (dispatch f g x) k = dispatch (λ s, respond_n (f s) k) (λ l, respond_n (g l) k) x.
Proof. destruct x as [s|l]; cbn; [by destruct (f s)|by destruct (g l)]. Qed.

(** Handling a message dispatches like the calls do. *)
Lemma handle_dispatch msize ctx msg x :
  Handle msize ctx msg x = dispatch (Handle msize ctx msg) (Handle msize ctx msg) x.
Proof.
  destruct msg; try (by destruct x); first [apply respond_dispatch|apply respond_n_dispatch].
Qed.

Lemma handle_inner msize ctx msg x :
  fst (Handle msize ctx msg x) = fst (Handle msize ctx msg (inner x)) ∧
  inner (snd (Handle msize ctx msg x)) = snd (Handle msize ctx msg (inner x)).
Proof.
  rewrite handle_dispatch. destruct x as [s|l]; cbn [dispatch inner].
  - by destruct (Handle msize ctx msg s).
  - pose proof (logging_transparent msize ctx msg l) as H. cbv zeta in H.
    destruct (Handle msize ctx msg l) as [r l']. destruct H as (H1 & H2 & _). by split.
Qed.

Lemma handle_all_inner msize msgs x :
  fst (handle_all msize msgs x) = fst (handle_all msize msgs (inner x)) ∧
  inner (snd (handle_all msize msgs x)) = snd (handle_all msize msgs (inner x)).
Proof.
  revert x. induction msgs as [|msg msgs IH]; intros x; [done|]. cbn [handle_all].
  destruct (handle_inner msize None msg x) as [H1 H2].
  destruct (Handle msize None msg x) as [r x'], (Handle msize None msg (inner x)) as [r' s'].
  cbn [fst snd] in H1, H2. subst r' s'. specialize (IH x').
  destruct (handle_all msize msgs x') as [rs x''], (handle_all msize msgs (inner x')) as [rs' s''].
  destruct IH as [IH1 IH2]. cbn [fst snd] in *. by subst.
Qed.
End Session.

(** ** Theorems *)

(** C39. The debug flag of 9ps changes nothing a client can see: on any
    session and for any sequence of requests the connection gives the same
    responses with the logger as without it, and leaves the session of the
    file system in the same state. *)
Theorem debug_transparent {St} `{!Session St} (debug : bool) msize msgs (s : St) :
  let r := handle_all msize msgs (new_session debug s) in
  let r0 := handle_all msize msgs s in
  fst r = fst r0 ∧ inner (snd r) = snd r0.
Proof.
  cbv zeta. replace s with (inner (new_session debug s)) at 2 4 by by destruct debug.
  apply handle_all_inner.
Qed.

(** The network is that of the prefix, for the server and the client alike;
    without the prefix the address is used as it is. *)
Theorem network_addr_spec addr :
  (∀ path, addr = "unix:" +:+ path → network_addr addr = ("unix", path)) ∧
  ((¬ ∃ path, addr = "unix:" +:+ path) → network_addr addr = ("tcp", addr)).
Proof.
  unfold network_addr. split.
  - intros path H%HasPrefix_spec. by rewrite H.
  - intros H. destruct (HasPrefix addr "unix:") as [rest|] eqn:E; [|done].
    destruct H. exists rest. by apply HasPrefix_spec.
Qed.
End Startup.
